(* ===== verification/_CoqProject ===== *)
-Q . S2P
Prelude.v
Encoding.v
OS.v
Segment.v
Samples.v
SegmentFacts.v
ConsumerGroup.v
Broker.v
BrokerFacts.v
BrokerRun.v
BrokerProps.v
Idempotent.v
Transactions.v
SparseIndex.v
SendFile.v
Clients.v
Wal.v
WalFacts.v
Raft.v
RaftProps.v
Processor.v
ProcessorFacts.v
Windows.v
WindowsFacts.v
Http.v
BrokerServer.v
Management.v
ManagementProps.v
HttpClient.v
Schema.v
Regex.v
StreamQL.v
StreamQLFacts.v
StreamQLProps.v
Connectors.v
Typing.v
Planner.v
PlannerFacts.v
Grpc.v
GrpcFacts.v
Node.v
NodeFacts.v
Offload.v
NodeLog.v
Stores.v
Certs.v
Bench.v
Commands.v
