(* ===== verification/Prelude.v ===== *)
(** * StreamFlow: a verification development

    StreamFlow (under [src/]) is an event-streaming system in Go: a broker that
    keeps topics in append-only log segments on disk, consumer groups, an
    idempotent producer and transactions on top of it, a Raft layer with its own
    write-ahead log and transports, HTTP servers and clients, stream operators and
    windows, a query language over them, a distributed runner, connectors and
    schema registries.  The development translates this code into executable
    definitions and proves what the parts promise.

    ** The parts, their files and the source

    - [Prelude]: results and errors, 64-bit wrap-around ([int64], [wrap64],
      [uint32_of]), bytes, generic lemmas, the tactics and the hint database
      [streamflow] the other files use.
    - [Encoding]: the big-endian and decimal encodings of
      [broker/types.go] ([int64ToBytes], index entries) and of the library
      ([Sprintf("%d")], [Sscanf]).
    - [OS]: the operating system as far as the code uses it.  A [world] is a map
      from paths to directories and files and a count of system calls; an [Env]
      decides for every call whether it fails, before or after its effect or with
      a torn write, and what the clock shows.  [Reliable] is an environment in
      which no call fails.
    - [Segment], [SegmentFacts]: [Segment] of [broker/types.go].  [seg_rep] says
      that a segment and its files represent a list of records.
    - [ConsumerGroup]: [broker/consumer_group.go].
    - [Broker], [BrokerFacts], [BrokerRun], [BrokerProps]: [broker/broker.go].
      The abstract specification is a map from topics to lists of records;
      [broker_rep] relates it to a broker and a world.  [broker_op] is any
      operation with any arguments; [broker_step] and [broker_run] are the
      operations, in any order, whose topic and group names are single path
      components, whose records can be stored and for which the counters have
      room, and [run_inv] is their invariant.  The code takes any name and
      cleans the path: what other names do is [aliased_topics_overwrite].
    - [Idempotent], [Transactions]: [broker/idempotent.go] (three atomic steps
      per call, interleaved by schedules) and [broker/transactions.go] (the
      critical sections of a commit, [commit_begin] and [commit_section], and
      those of all other operations interleaved by [con_step]).
    - [SparseIndex], [SendFile]: [broker/sparse_index_mmap.go] and
      [broker/sendfile*.go].
    - [Clients]: [broker/multitenant.go] and [sdk/sdk.go].
    - [Wal], [WalFacts]: [broker/internal/raft/wal.go], [persistent_storage.go],
      [persistent_mem.go] and the local half of [broker/storage/offload.go].
    - [Raft], [RaftProps]: recovery, entries and checkpoints of [raft/node.go],
      [raft/isr.go], and [raft/transport_inproc.go] operation by operation; a
      channel knows whether its receiver is blocked, so that a send succeeds on
      an unbuffered channel with a waiting receiver.
    - [Processor], [ProcessorFacts]: the operators of [processor/op.go] and
      [processor/runtime.go].
    - [Windows], [WindowsFacts]: [processor/advanced_streaming.go].
    - [Http]: requests, responses, JSON values and text, as far as the servers
      and the client use the library.
    - [BrokerServer]: [apps/broker/main.go] ([cmd/broker/main.go] is the same).
    - [Management], [ManagementProps]: [management/api/server.go].
    - [HttpClient]: [sdk/client.go], and the client and the management API
      composed.
    - [Schema]: [schema/registry.go] and [schema/advanced_registry.go].
    - [Regex], [StreamQL], [StreamQLFacts], [StreamQLProps]: [streamql/].  [Regex]
      is the part of [regexp] the queries use (leftmost-first matching with
      captures over UTF-8 characters); [StreamQL] the parser, planner and executor;
      the other two the text and the meaning of a statement.
    - [Connectors]: [connectors/] and [cmd/streamql-runner/main.go].
    - [Typing]: a source with a schema and a query on its records, composed: the
      type of a plan ([plan_type]), computed from the schema and the plan alone.
    - [Planner], [PlannerFacts]: [planner/] and [processor/transport_grpc.go], as a
      step relation over the bytes of the connections.
    - [Grpc], [GrpcFacts]: [raft/transport_grpc.go], concurrent sends as a step
      relation.
    - [Node], [NodeFacts]: the messages and the life cycle of [raft/node.go] over
      the [Transport] interface of [raft/transport.go] and its instances; the
      sending loop interleaved with the receiving goroutine of a peer
      ([deliver]).
    - [NodeLog]: a node's log from its start over any ready batches to the next
      start, against the interface [SafeTransport] of transports that do not
      panic.
    - [Offload]: the S3 half of [broker/storage/offload.go], [cmd/backup/main.go],
      and the round trips of backups and snapshots.
    - [Stores]: [processor/state_store*.go] as instances of one interface,
      [raft/checkpoint_scheduler.go], and the components with little or no state.
    - [Certs]: [raft/cert_utils.go] and [raft/mtls.go].
    - [Bench]: [bench/loadbench.go] and [bench/scale_bench.go], goroutines under
      any schedule.
    - [Commands]: the start of the management server, the health pages of the
      other commands, the start and stop of the processor server.
    - [Samples]: concrete environments, codecs and worlds on which the witnesses
      of the theorems evaluate.

    ** How the code is modelled

    An operation that holds a mutex from start to end is one function from the
    component's state and the world to a result and the new state and world.
    Where a call takes the lock several times, each critical section is an atomic
    step: [idem_step] for [ProduceIdempotent], [commit_begin] and
    [commit_section] for [CommitTransaction], [gstep] for the gRPC send,
    [SendLookup] and [SendChan] for the in-process one.  The functions
    [ProduceIdempotent] and [CommitTransaction] are such a call with no other
    section in between ([ProduceIdempotent_steps], [commit_alone_eq]), and the
    HTTP handlers use these: a run of requests is one request after the other.
    Errors are values of [res]; a Go function that returns a value
    together with an error returns both.  Integers are Z with the wrap-around of
    their width written out; floats are the binary64 of the library's
    specification.  Names of the source are kept where Rocq allows it.

    Parameters stand for what is not under [src/] or depends on the machine: the
    environment [Env]; [RecordCodec] with the round-trip law of [encoding/json]
    on records it can carry; [TimeFormat], the text of a time with its zone;
    [Formatter] and [JsonFormat], the [%v] text of floats and composites;
    [TimeSort], any function that sorts by time; the page of [/metrics]; the
    network of the client; [JsonRecords] with the laws of the JSON lines of the
    planner; [NetEnv], which calls of the gRPC library succeed; [MessageCodec] and
    [RaftLib], the messages and the node of the raft library; [Minio], the S3
    client; [Crypto], keys and certificates.  The parameters of the theorems with
    a witness have an instance on which it evaluates.

    ** What the theorems show

    - Storage: an append, an index write and a reopening of a segment implement
      a list of records whatever system call fails; on a directory that starts
      without segments, with plain topic and group names, storable records and
      room in the counters, an acknowledged record is read back at its offset in
      any run of broker operations ([broker_acked_records_stay]), over HTTP
      ([http_acked_records_stay]) and, once readable, after any management
      requests ([api_records_stay]); and after a restart.  With names that clean
      to the same path it is not ([aliased_topics_overwrite],
      [http_aliased_topics_overwrite], [api_aliased_topics_overwrite]).
    - Producers: exactly what a commit appends and returns on every branch; under
      every interleaving of critical sections, a closed transaction is final up
      to the end of its own commit and no second commit of it starts
      ([closed_transaction_is_final]); the answers of every sequential history
      of idempotent requests ([idempotent_history_exact]), also as HTTP retries.
    - Consumer groups: a rebalance deals round robin to the sorted members;
      assignments never overlap.
    - Raft storage: an append to a well framed log is atomic for readers,
      rotation keeps and compaction selects exactly the entries; the in-process
      transport is FIFO; without faults, the entries of all ready batches survive
      checkpoints and restarts ([node_restart_recovers]).
    - Processing: count windows are the counts of consecutive chunks, a time
      window is the batch operator on each interval between ticks, grouped
      aggregates are sums and averages over exactly the records of the group;
      sliding, tumbling and session windows contain exactly what their bounds
      say; the pattern matcher is sound, and complete when its first symbol does
      not recur.
    - Servers and client: an unauthorised request has no effect; the client and
      the server composed deliver a topic's values in order, as base64 text.
    - Queries: the text of a statement parses to its query, and the plan of the
      query computes the statement's meaning on every stream
      ([streamql_exact]); every query that parses is type-sound on a source with
      a schema, and panics only for a window that overflows ([query_type_sound]).
    - Distribution: whatever breaks, each worker's answers are a prefix of its
      share; without faults a run is finite and delivers every record once
      ([distributed_delivers_all]).  Sends over gRPC succeed exactly when their
      message was accepted, under every interleaving ([grpc_send_exact]); of a
      batch over the in-process transport the peer steps an in-order selection
      that has all messages the buffer holds, under every interleaving with the
      receiver ([node_inproc_delivery]).
    - Snapshots and backups are read back as they were saved; the state stores
      refine a map.
    - Schemas: parsing inverts printing and decides validation; version numbers
      are unique and increase.
    - Several theorems state how the code departs from what it means to do: the
      stale offset after a restart, partial commits, duplicates under
      concurrency, the write-ahead log doubled on restart or lost after a torn
      append, the raw fetch that never succeeds on Linux, the lag gauge that is
      always zero, the base64 values of the client, conditions that are silently
      ignored, the wait that always times out, proposals reported as accepted,
      compactions that drop nothing, messages counted and never sent, topics
      forgotten on restart,
      and the panics of concurrent stops, long windows and bad CA files.

    ** Fuel and bounds

    Loops that are not structural take fuel: the copy loop [count] turns, since
    each reads a byte or more; the sendfile loop as many turns as there are
    scripted calls plus two; [fetchLoop] [maxBytes] turns, one per record;
    chunk readers and [runes] the length of their input.  Matching an expression is
    structural, since only character classes are repeated.  The termination theorems prove
    that this is enough.  [SlidingWindows] is the one loop that need not end:
    [sliding_windows_exact] gives the fuel for a positive slide and shows that
    none is enough otherwise.  Theorems about counters assume room below 2^63
    ([room], [broker_room]) where the code would wrap.

    ** Not modelled

    The bytes of JSON texts beyond the laws above; escapes in request paths; the election and replication
    of etcd/raft; TCP, TLS and gRPC below the calls the code makes; the commands
    that only parse flags and make one call; durations and log lines; allocation
    failures (a client-chosen maximum preallocates a slice in [Consume]). *)

From Stdlib Require Export ZArith Lia Strings.Byte.
From stdpp Require Export base tactics sorting numbers gmap strings list.

#[global] Open Scope Z_scope.

Declare Scope go_scope.
Delimit Scope go_scope with go.

(** ** Results and errors

    A Go function that returns [(T, error)] is a function into [res T]: Go's
    convention that the value is meaningless when the error is not nil is
    built in.  The error type has one constructor per sentinel of the source,
    [ErrMsg] for the plain [fmt.Errorf]/[errors.New] errors, and [ErrWrap] for
    the ["context: %w"] errors. *)
Inductive error : Type :=
  | ErrNotExist
  | ErrIO
  | ErrEOF
  | ErrInvalid
  | ErrMsg (msg : string)
  | ErrWrap (ctx : string) (cause : error)
  | ErrDraining
  | ErrTopicNotFound (name : string)
  | ErrOffsetNotFound (off : Z)
  | ErrOffsetNotInSegment (off : Z)
  | ErrTxNotFound
  | ErrTxClosed
  | ErrOutOfOrderSequence
  | ErrPeerNotFound (addr : string)
  | ErrPeerFull (addr : string)
  | ErrUnavailable.

#[export] Instance error_eq_dec : EqDecision error.
Proof. solve_decision. Defined.

Inductive res (A : Type) : Type :=
  | Ok (a : A)
  | Err (e : error).
Arguments Ok {A} a.
Arguments Err {A} e.

#[export] Instance res_eq_dec {A} `{EqDecision A} : EqDecision (res A).
Proof. solve_decision. Defined.

Definition is_ok {A} (r : res A) : bool :=
  match r with Ok _ => true | Err _ => false end.

(** Sequencing of a fallible, state-changing call: the state that comes out
    of the first call goes into the second, on the error path too. *)
Notation "'let!' x , w ':=' c 'in' k" :=
  (match c with
   | (Ok x, w) => k
   | (Err e, w) => (Err e, w)
   end)
  (at level 10, x name, w name, c at level 100, k at level 200)
  : go_scope.

(** ** Machine integers *)

(** Two's complement [int64] (Go's [int] is 64-bit on the supported targets). *)
Definition wrap64 (z : Z) : Z := (z + 2 ^ 63) mod 2 ^ 64 - 2 ^ 63.
Definition int64 (z : Z) : Prop := - 2 ^ 63 <= z < 2 ^ 63.
Definition uint32_of (z : Z) : Z := z mod 2 ^ 32.
Definition uint64_of (z : Z) : Z := z mod 2 ^ 64.

#[export] Instance int64_dec z : Decision (int64 z).
Proof. unfold int64. apply _. Defined.

(** ** Bytes *)

Definition byte_of_Z (z : Z) : byte :=
  match Byte.of_N (Z.to_N (z mod 256)) with Some b => b | None => x00 end.
Definition Z_of_byte (b : byte) : Z := Z.of_N (Byte.to_N b).

#[export] Instance byte_eq_dec : EqDecision byte := Byte.byte_eq_dec.

(** [len(x)] of a slice or string, as Go's [int]. *)
Definition zlen {A} (l : list A) : Z := Z.of_nat (length l).

(** ** Sorting

    [sort.Slice]/[sort.Strings] on data whose keys are distinct: the sorted
    permutation is unique, so which sorting algorithm runs does not matter
    ([sort_by_unique] below). *)
Section sort_by.
Context {A K : Type} (key : A → K) (le : relation K).
Definition le_by (x y : A) : Prop := le (key x) (key y).
#[global] Instance le_by_dec `{!RelDecision le} : RelDecision le_by.
Proof. intros x y. unfold le_by. apply _. Defined.
Definition sort_by `{!RelDecision le} (l : list A) : list A := merge_sort le_by l.
End sort_by.

(** [sort.Strings] *)
Definition sort_strings (l : list string) : list string := sort_by id String.le l.

(** * Generic lemmas *)

(** ** Tactics *)

Create HintDb streamflow.

(** Case analysis on the scrutinee of the match (or if) a hypothesis or the
    goal is stuck on, keeping the equation. *)
Ltac case_match_in H :=
  match type of H with
  | context [match ?x with _ => _ end] =>
      lazymatch x with context [match _ with _ => _ end] => fail | _ => destruct x eqn:? end
  end.
Ltac case_goal :=
  match goal with
  | |- context [match ?x with _ => _ end] =>
      lazymatch x with context [match _ with _ => _ end] => fail | _ => destruct x eqn:? end
  end.
Ltac bool_prop :=
  repeat match goal with
  | H : (_ <? _) = true |- _ => apply Z.ltb_lt in H
  | H : (_ <? _) = false |- _ => apply Z.ltb_ge in H
  | H : (_ <=? _) = true |- _ => apply Z.leb_le in H
  | H : (_ <=? _) = false |- _ => apply Z.leb_gt in H
  | H : (_ =? _) = true |- _ => apply Z.eqb_eq in H
  | H : (_ =? _) = false |- _ => apply Z.eqb_neq in H
  | H : bool_decide _ = true |- _ => apply bool_decide_eq_true_1 in H
  | H : bool_decide _ = false |- _ => apply bool_decide_eq_false_1 in H
  | H : _ && _ = true |- _ => apply andb_true_iff in H as [? ?]
  | H : _ || _ = false |- _ => apply orb_false_iff in H as [? ?]
  end.

(** ** Integers *)

Lemma wrap64_id z : int64 z → wrap64 z = z.
Proof. unfold int64, wrap64. intros H. rewrite Z.mod_small; lia. Qed.

Lemma wrap64_int64 z : int64 (wrap64 z).
Proof.
  unfold int64, wrap64. pose proof (Z.mod_pos_bound (z + 2 ^ 63) (2 ^ 64)). lia.
Qed.

Lemma wrap64_cong a b : a mod 2 ^ 64 = b mod 2 ^ 64 → wrap64 a = wrap64 b.
Proof. unfold wrap64. intros H. rewrite (Z.add_mod a), (Z.add_mod b), H by lia. done. Qed.

Lemma wrap64_mod z : wrap64 z mod 2 ^ 64 = z mod 2 ^ 64.
Proof.
  unfold wrap64.
  rewrite Zminus_mod, Zmod_mod, <- Zminus_mod. f_equal. lia.
Qed.

Lemma wrap64_mod_id z : wrap64 (z mod 2 ^ 64) = wrap64 z.
Proof. apply wrap64_cong. by rewrite Zmod_mod. Qed.

#[export] Hint Resolve wrap64_int64 : streamflow.

(** ** Bytes *)

Lemma Z_of_byte_of_Z z : Z_of_byte (byte_of_Z z) = z mod 256.
Proof.
  unfold Z_of_byte, byte_of_Z.
  pose proof (Z.mod_pos_bound z 256 ltac:(lia)).
  destruct (Byte.of_N (Z.to_N (z mod 256))) as [b|] eqn:E.
  - apply Byte.to_of_N in E. rewrite E. lia.
  - apply Byte.of_N_None_iff in E. lia.
Qed.

Lemma Z_of_byte_range b : 0 <= Z_of_byte b < 256.
Proof. unfold Z_of_byte. pose proof (Byte.to_N_bounded b). lia. Qed.

Lemma byte_of_Z_of_byte b : byte_of_Z (Z_of_byte b) = b.
Proof.
  unfold byte_of_Z. rewrite Z.mod_small by apply Z_of_byte_range.
  unfold Z_of_byte. rewrite N2Z.id, Byte.of_to_N. done.
Qed.

(** ** Lists *)

Lemma zlen_nonneg {A} (l : list A) : 0 <= zlen l.
Proof. unfold zlen. lia. Qed.
Lemma zlen_app {A} (l k : list A) : zlen (l ++ k) = zlen l + zlen k.
Proof. unfold zlen. rewrite length_app. lia. Qed.
Lemma zlen_cons {A} (x : A) l : zlen (x :: l) = 1 + zlen l.
Proof. unfold zlen. simpl. lia. Qed.
Create Rewrite HintDb zlen.
#[export] Hint Rewrite @zlen_app @zlen_cons : zlen.

(** ** Sorting *)

Section sort_by_facts.
Context {A K : Type} (key : A → K) (le : relation K) `{!RelDecision le}.

Lemma sort_by_perm l : sort_by key le l ≡ₚ l.
Proof. apply merge_sort_Permutation. Qed.

Lemma elem_of_sort_by x l : x ∈ sort_by key le l ↔ x ∈ l.
Proof. by rewrite sort_by_perm. Qed.

Lemma sort_by_length l : length (sort_by key le l) = length l.
Proof. apply Permutation_length, sort_by_perm. Qed.

Context `{!Transitive le, !Total le, !AntiSymm (=) le}.

#[global] Instance le_by_total : Total (le_by key le).
Proof. intros x y. apply (total le). Qed.
#[global] Instance le_by_trans : Transitive (le_by key le).
Proof. intros x y z. unfold le_by. apply transitivity. Qed.

Lemma sort_by_sorted l : StronglySorted (le_by key le) (sort_by key le l).
Proof. apply StronglySorted_merge_sort; apply _. Qed.

(** With distinct keys there is only one sorted permutation. *)
Lemma sort_by_unique l k :
  NoDup (key <$> l) → k ≡ₚ l → StronglySorted (le_by key le) k →
  k = sort_by key le l.
Proof.
  intros Hnd Hp Hs.
  apply (StronglySorted_unique_strong (le_by key le)); [|done|apply sort_by_sorted|].
  - intros x1 x2 Hx1 Hx2 H1 H2.
    assert (key x1 = key x2) as Hk by (apply (anti_symm le); done).
    rewrite Hp in Hx1. rewrite elem_of_sort_by in Hx2.
    apply list_elem_of_lookup in Hx1 as [i Hi]. apply list_elem_of_lookup in Hx2 as [j Hj].
    assert (i = j) as ->; [|congruence].
    eapply (NoDup_lookup (key <$> l)); [done|..].
    + by rewrite list_lookup_fmap, Hi.
    + rewrite list_lookup_fmap, Hj. simpl. by rewrite Hk.
  - by rewrite sort_by_perm.
Qed.

(** The order in which the source enumerates a map is irrelevant. *)
Lemma sort_by_Permutation l k :
  NoDup (key <$> l) → l ≡ₚ k → sort_by key le l = sort_by key le k.
Proof.
  intros Hnd Hp. symmetry. apply sort_by_unique; [done| |apply sort_by_sorted].
  by rewrite sort_by_perm.
Qed.
End sort_by_facts.
