(* ===== verification/Encoding.v ===== *)
(** * Byte and text encodings

    The integer codecs of [src/broker/types.go] ([int64ToBytes],
    [bytesToInt64], the 16-byte index entries), the 4-byte big-endian length
    prefix that the segment log, the raft WAL and the entry stream all use
    (written with [binary.BigEndian] or with explicit shifts), and the decimal
    text of [fmt.Sprintf] and [fmt.Sscanf] with the verb [%d]. *)

From S2P Require Import Prelude.

(** ** Reference definitions: big-endian digits in base 256 *)

Fixpoint be_bytes (n : nat) (v : Z) : list byte :=
  match n with
  | O => []
  | S n => be_bytes n (Z.shiftr v 8) ++ [byte_of_Z v]
  end.

Definition be_value (bs : list byte) : Z :=
  fold_left (λ v b, v * 256 + Z_of_byte b) bs 0.

(** ** [src/broker/types.go] *)

(** [b[i] = byte(v >> (8 * (7 - i)))] for [i] in 0..7. *)
Definition int64ToBytes (v : Z) : list byte :=
  (λ i, byte_of_Z (Z.shiftr v (8 * (7 - i)))) <$> [0;1;2;3;4;5;6;7].

(** [for i := 0; i < 8 && i < len(b); i++ { v = (v << 8) | int64(b[i]) }] *)
Definition bytesToInt64 (b : list byte) : Z :=
  fold_left (λ v x, wrap64 (Z.lor (wrap64 (Z.shiftl v 8)) (Z_of_byte x))) (take 8 b) 0.

Record indexEntry := IndexEntry { ie_Offset : Z; ie_Position : Z }.
Record timeIndexEntry := TimeIndexEntry { te_Timestamp : Z; te_Offset : Z }.

Definition encodeIndexEntry (entry : indexEntry) : list byte :=
  int64ToBytes (ie_Offset entry) ++ int64ToBytes (ie_Position entry).

Definition encodeTimeEntry (entry : timeIndexEntry) : list byte :=
  int64ToBytes (te_Timestamp entry) ++ int64ToBytes (te_Offset entry).

(** The loop [for i := 0; i+16 <= len(data); i += 16] of [loadIndexes]: the
    16-byte chunks of [data], each as a pair of int64; a shorter tail is
    ignored.  [fuel] bounds the number of chunks. *)
Fixpoint decodePairs (fuel : nat) (data : list byte) : list (Z * Z) :=
  match fuel with
  | O => []
  | S fuel =>
      if decide (16 ≤ length data)%nat then
        (bytesToInt64 (take 8 data), bytesToInt64 (take 8 (drop 8 data)))
          :: decodePairs fuel (drop 16 data)
      else []
  end.
Definition decodeEntries (data : list byte) : list (Z * Z) :=
  decodePairs (length data) data.

(** ** The 4-byte length prefix *)

(** [binary.BigEndian.PutUint32(prefix, uint32(length))], and the same bytes
    as [[]byte{byte(l >> 24), byte(l >> 16), byte(l >> 8), byte(l)}]. *)
Definition putUint32 (l : Z) : list byte :=
  let l := uint32_of l in
  [byte_of_Z (Z.shiftr l 24); byte_of_Z (Z.shiftr l 16); byte_of_Z (Z.shiftr l 8); byte_of_Z l].

(** [binary.BigEndian.Uint32(buf)], i.e. the or of the four shifted bytes. *)
Definition getUint32 (b : list byte) : Z :=
  match b with
  | b0 :: b1 :: b2 :: b3 :: _ =>
      Z.lor (Z.lor (Z.lor (Z.shiftl (Z_of_byte b0) 24) (Z.shiftl (Z_of_byte b1) 16))
                   (Z.shiftl (Z_of_byte b2) 8)) (Z_of_byte b3)
  | _ => 0
  end.

(** ** Decimal text *)

Fixpoint dec_digits (fuel : nat) (n : Z) : list Z :=
  match fuel with
  | O => [n]
  | S fuel => if n <? 10 then [n] else dec_digits fuel (n / 10) ++ [n mod 10]
  end.
Definition digit_byte (d : Z) : byte := byte_of_Z (48 + d).
Definition minus_byte : byte := x2d.

(** [fmt.Sprintf("%d", v)] for an int64 (19 digits at most). *)
Definition sprintf_d (v : Z) : list byte :=
  if v <? 0 then minus_byte :: (digit_byte <$> dec_digits 20 (- v))
  else digit_byte <$> dec_digits 20 v.

Definition digit_of (b : byte) : option Z :=
  let d := Z_of_byte b - 48 in if (0 <=? d) && (d <? 10) then Some d else None.
Definition is_space (b : byte) : bool :=
  bool_decide (b ∈ [x20; x09; x0b; x0c; x0d]).

(** The digits of an [%d] scan: the longest run of digits. *)
Fixpoint scan_digits (bs : list byte) : list Z :=
  match bs with
  | [] => []
  | b :: bs => match digit_of b with Some d => d :: scan_digits bs | None => [] end
  end.
Definition digits_value (ds : list Z) : Z := fold_left (λ v d, v * 10 + d) ds 0.

Fixpoint skip_space (bs : list byte) : list byte :=
  match bs with
  | b :: bs' => if is_space b then skip_space bs' else bs
  | [] => []
  end.

(** [fmt.Sscanf(s, "%d", &off)] with [off] an int64: blanks are skipped, one
    sign is read, then at least one digit; a value out of range is an error.
    (The verb's underscore and base-prefix forms do not apply to [%d].) *)
Definition sscanf_d (bs : list byte) : option Z :=
  let bs := skip_space bs in
  let '(neg, bs) :=
    match bs with
    | x2d :: bs' => (true, bs')
    | x2b :: bs' => (false, bs')
    | _ => (false, bs)
    end in
  match scan_digits bs with
  | [] => None
  | ds =>
      let v := if neg then - digits_value ds else digits_value ds in
      if decide (int64 v) then Some v else None
  end.

(** * Lemmas *)

(** ** Big-endian digits *)

Lemma be_bytes_length n v : length (be_bytes n v) = n.
Proof.
  revert v. induction n as [|n IH]; intros v; simpl; [done|].
  rewrite length_app, IH. simpl. lia.
Qed.

Lemma be_value_snoc bs b : be_value (bs ++ [b]) = be_value bs * 256 + Z_of_byte b.
Proof. unfold be_value. by rewrite fold_left_app. Qed.

Lemma be_value_be_bytes n v : be_value (be_bytes n v) = v mod 256 ^ Z.of_nat n.
Proof.
  revert v. induction n as [|n IH]; intros v; [by rewrite Z.mod_1_r|].
  cbn [be_bytes]. rewrite be_value_snoc, IH, Z_of_byte_of_Z, Z.shiftr_div_pow2 by lia.
  change (2 ^ 8) with 256.
  rewrite Nat2Z.inj_succ, Z.pow_succ_r by lia.
  rewrite Z.rem_mul_r by lia. lia.
Qed.

Lemma lor_shiftl8 v b : Z.lor (Z.shiftl v 8) (Z_of_byte b) = v * 256 + Z_of_byte b.
Proof.
  pose proof (Z_of_byte_range b).
  rewrite <- Z.add_lor_land, Z.shiftl_mul_pow2 by lia.
  change (2 ^ 8) with 256.
  replace (Z.land (v * 256) (Z_of_byte b)) with 0; [lia|].
  apply Z.bits_inj'. intros i Hi. rewrite Z.bits_0, Z.land_spec.
  destruct (decide (i < 8)).
  - change 256 with (2 ^ 8). by rewrite Z.mul_pow2_bits_low.
  - rewrite (Z.bits_above_log2 (Z_of_byte b)); [by rewrite andb_false_r|lia|].
    destruct (decide (Z_of_byte b = 0)) as [->|]; [cbn; lia|].
    apply Z.log2_lt_pow2; [lia|].
    apply Z.lt_le_trans with (2 ^ 8); [lia|]. apply Z.pow_le_mono_r; lia.
Qed.

(** ** int64 *)

Lemma bytesToInt64_step v w b :
  v mod 2 ^ 64 = w mod 2 ^ 64 →
  wrap64 (Z.lor (wrap64 (Z.shiftl v 8)) (Z_of_byte b)) mod 2 ^ 64
  = (w * 256 + Z_of_byte b) mod 2 ^ 64.
Proof.
  intros H. rewrite wrap64_mod.
  assert (∃ q, wrap64 (Z.shiftl v 8) = Z.shiftl q 8 ∧ q * 256 mod 2 ^ 64 = v * 256 mod 2 ^ 64)
    as (q & -> & Hq).
  { pose proof (wrap64_mod (Z.shiftl v 8)) as Hm.
    rewrite Z.shiftl_mul_pow2 in * by lia. change (2 ^ 8) with 256 in *.
    exists (wrap64 (v * 256) / 256).
    assert (wrap64 (v * 256) mod 256 = 0) as H0.
    { replace 256 with (2 ^ 8) at 2 by lia. unfold wrap64.
      rewrite Zminus_mod.
      replace ((v * 256 + 2 ^ 63) mod 2 ^ 64) with (((v + 2 ^ 55) mod 2 ^ 56) * 256).
      - rewrite Z.mod_mul by lia. done.
      - replace (v * 256 + 2 ^ 63) with ((v + 2 ^ 55) * 256) by lia.
        replace (2 ^ 64) with (2 ^ 56 * 256) by lia.
        rewrite Z.mul_mod_distr_r by lia. done. }
    rewrite Z.shiftl_mul_pow2 by lia. change (2 ^ 8) with 256.
    pose proof (Z.div_mod (wrap64 (v * 256)) 256 ltac:(lia)) as Hd.
    split; [lia|]. rewrite <- Hm. f_equal. lia. }
  rewrite lor_shiftl8. rewrite Z.add_mod, Hq by lia.
  rewrite (Z.mul_mod v), H, <- Z.mul_mod, <- Z.add_mod by lia. done.
Qed.

Lemma bytesToInt64_fold bs v w :
  v mod 2 ^ 64 = w mod 2 ^ 64 →
  fold_left (λ v x, wrap64 (Z.lor (wrap64 (Z.shiftl v 8)) (Z_of_byte x))) bs v mod 2 ^ 64
  = fold_left (λ v b, v * 256 + Z_of_byte b) bs w mod 2 ^ 64.
Proof.
  revert v w. induction bs as [|b bs IH]; intros v w H; cbn [fold_left]; [done|].
  apply IH. rewrite bytesToInt64_step with (w := w) by done. done.
Qed.

Lemma bytesToInt64_int64 bs : int64 (bytesToInt64 bs).
Proof.
  unfold bytesToInt64. generalize (take 8 bs). intros l.
  destruct l as [|x l] using rev_ind; [cbn; unfold int64; lia|].
  rewrite fold_left_app. cbn [fold_left]. auto with streamflow.
Qed.
#[export] Hint Resolve bytesToInt64_int64 : streamflow.

(** [bytesToInt64] is the two's complement reading of the first 8 bytes. *)
Lemma bytesToInt64_be_value bs : bytesToInt64 bs = wrap64 (be_value (take 8 bs)).
Proof.
  rewrite <- (wrap64_id (bytesToInt64 bs)) by apply bytesToInt64_int64.
  apply wrap64_cong. unfold bytesToInt64, be_value. by apply bytesToInt64_fold.
Qed.

(** [int64ToBytes] writes the low 64 bits, most significant byte first. *)
Lemma int64ToBytes_be_bytes v : int64ToBytes v = be_bytes 8 v.
Proof.
  unfold int64ToBytes. cbn [fmap list_fmap be_bytes app].
  rewrite !Z.shiftr_shiftr by lia. cbn. rewrite Z.shiftr_0_r. done.
Qed.

Lemma int64ToBytes_length v : length (int64ToBytes v) = 8%nat.
Proof. done. Qed.

Lemma bytesToInt64_int64ToBytes_app v rest :
  int64 v → bytesToInt64 (int64ToBytes v ++ rest) = v.
Proof.
  intros H. rewrite bytesToInt64_be_value, take_app_length', int64ToBytes_be_bytes by done.
  rewrite be_value_be_bytes. change (256 ^ Z.of_nat 8) with (2 ^ 64).
  rewrite wrap64_mod_id. by apply wrap64_id.
Qed.

Lemma bytesToInt64_int64ToBytes v : int64 v → bytesToInt64 (int64ToBytes v) = v.
Proof. intros H. rewrite <- (app_nil_r (int64ToBytes v)). by apply bytesToInt64_int64ToBytes_app. Qed.

(** ** The index file *)

Definition encode_pair (p : Z * Z) : list byte := int64ToBytes p.1 ++ int64ToBytes p.2.

Lemma encode_pair_length p : length (encode_pair p) = 16%nat.
Proof. done. Qed.

Lemma encode_pairs_cons p ps :
  mjoin (encode_pair <$> p :: ps) = encode_pair p ++ mjoin (encode_pair <$> ps).
Proof. done. Qed.

Lemma encode_pairs_length ps : length (mjoin (encode_pair <$> ps)) = (16 * length ps)%nat.
Proof.
  induction ps as [|p ps IH]; [done|].
  rewrite encode_pairs_cons, length_app, IH, encode_pair_length. simpl. lia.
Qed.

Lemma decodePairs_encode fuel ps :
  Forall (λ p, int64 p.1 ∧ int64 p.2) ps → (length ps ≤ fuel)%nat →
  decodePairs fuel (mjoin (encode_pair <$> ps)) = ps.
Proof.
  revert ps. induction fuel as [|fuel IH]; intros ps Hps Hf.
  { destruct ps; [done|]. simpl in Hf. lia. }
  destruct Hps as [|[a b] ps [Ha Hb] Hps]; [done|].
  rewrite encode_pairs_cons. cbn [decodePairs].
  rewrite decide_True by (rewrite length_app, encode_pair_length; lia).
  unfold encode_pair at 1 3 5. cbn [fst snd] in *. rewrite <- !app_assoc.
  rewrite (take_app_length' (int64ToBytes a)), (drop_app_length' (int64ToBytes a)) by done.
  rewrite (take_app_length' (int64ToBytes b)) by done.
  rewrite !bytesToInt64_int64ToBytes by done. f_equal.
  change 16%nat with (8 + 8)%nat. rewrite <- drop_drop.
  rewrite (drop_app_length' (int64ToBytes a)), (drop_app_length' (int64ToBytes b)) by done.
  apply IH; [done|]. simpl in Hf. lia.
Qed.

Lemma decodeEntries_encode ps :
  Forall (λ p, int64 p.1 ∧ int64 p.2) ps →
  decodeEntries (mjoin (encode_pair <$> ps)) = ps.
Proof.
  intros H. unfold decodeEntries. apply decodePairs_encode; [done|].
  rewrite encode_pairs_length. lia.
Qed.

Lemma decodePairs_int64 fuel data :
  Forall (λ p, int64 p.1 ∧ int64 p.2) (decodePairs fuel data).
Proof.
  revert data. induction fuel as [|fuel IH]; intros data; cbn [decodePairs]; [constructor|].
  case_decide; constructor; simpl; auto using bytesToInt64_int64.
Qed.

(** ** The length prefix *)

Lemma putUint32_length l : length (putUint32 l) = 4%nat.
Proof. done. Qed.

Lemma putUint32_be_bytes l : putUint32 l = be_bytes 4 (uint32_of l).
Proof.
  unfold putUint32. cbn [be_bytes app]. rewrite !Z.shiftr_shiftr by lia. done.
Qed.

Lemma getUint32_be_value b0 b1 b2 b3 rest :
  getUint32 (b0 :: b1 :: b2 :: b3 :: rest) = be_value [b0; b1; b2; b3].
Proof.
  unfold getUint32, be_value. cbn [fold_left]. rewrite Z.mul_0_l, Z.add_0_l.
  rewrite <- !lor_shiftl8, !Z.shiftl_lor, !Z.shiftl_shiftl by lia. done.
Qed.

Lemma getUint32_range b : 0 <= getUint32 b < 2 ^ 32.
Proof.
  destruct b as [|b0 [|b1 [|b2 [|b3 rest]]]]; try (cbn; lia).
  rewrite getUint32_be_value. unfold be_value. cbn [fold_left].
  pose proof (Z_of_byte_range b0). pose proof (Z_of_byte_range b1).
  pose proof (Z_of_byte_range b2). pose proof (Z_of_byte_range b3). lia.
Qed.

Lemma getUint32_putUint32 l rest : getUint32 (putUint32 l ++ rest) = uint32_of l.
Proof.
  unfold putUint32. cbn [app]. rewrite getUint32_be_value.
  change [_; _; _; _] with (putUint32 l). rewrite putUint32_be_bytes, be_value_be_bytes.
  unfold uint32_of. change (256 ^ Z.of_nat 4) with (2 ^ 32). by rewrite Zmod_mod.
Qed.

Lemma getUint32_putUint32_small l rest :
  0 <= l < 2 ^ 32 → getUint32 (putUint32 l ++ rest) = l.
Proof. intros H. rewrite getUint32_putUint32. unfold uint32_of. by apply Z.mod_small. Qed.

(** ** Decimal text *)

Lemma digits_value_snoc ds d : digits_value (ds ++ [d]) = digits_value ds * 10 + d.
Proof. unfold digits_value. by rewrite fold_left_app. Qed.

Lemma dec_digits_value fuel n :
  0 <= n < 10 ^ Z.of_nat fuel → digits_value (dec_digits fuel n) = n.
Proof.
  revert n. induction fuel as [|fuel IH]; intros n Hn; cbn [dec_digits].
  { cbn in Hn. unfold digits_value. cbn. lia. }
  rewrite Nat2Z.inj_succ, Z.pow_succ_r in Hn by lia.
  destruct (n <? 10) eqn:E; bool_prop; [unfold digits_value; cbn; lia|].
  rewrite digits_value_snoc, IH.
  - pose proof (Z.div_mod n 10). lia.
  - split; [apply Z.div_pos; lia|apply Z.div_lt_upper_bound; lia].
Qed.

Lemma dec_digits_range fuel n :
  0 <= n < 10 ^ Z.of_nat fuel → Forall (λ d, 0 <= d < 10) (dec_digits fuel n).
Proof.
  revert n. induction fuel as [|fuel IH]; intros n Hn; cbn [dec_digits].
  { cbn in Hn. repeat constructor; lia. }
  rewrite Nat2Z.inj_succ, Z.pow_succ_r in Hn by lia.
  destruct (n <? 10) eqn:E; bool_prop; [repeat constructor; lia|].
  apply Forall_app. split; [apply IH|].
  - split; [apply Z.div_pos; lia|apply Z.div_lt_upper_bound; lia].
  - pose proof (Z.mod_pos_bound n 10). repeat constructor; lia.
Qed.

Lemma dec_digits_nonempty fuel n : dec_digits fuel n ≠ [].
Proof.
  destruct fuel; simpl; [done|]. case_match; [done|]. intros [? ?]%app_eq_nil. done.
Qed.

Lemma digit_of_digit_byte d : 0 <= d < 10 → digit_of (digit_byte d) = Some d.
Proof.
  intros H. unfold digit_of, digit_byte. rewrite Z_of_byte_of_Z, Z.mod_small by lia.
  replace (48 + d - 48) with d by lia.
  rewrite (proj2 (Z.leb_le _ _)), (proj2 (Z.ltb_lt _ _)) by lia. done.
Qed.

Lemma scan_digits_bytes ds :
  Forall (λ d, 0 <= d < 10) ds → scan_digits (digit_byte <$> ds) = ds.
Proof.
  induction 1 as [|d ds Hd _ IH]; cbn [fmap list_fmap scan_digits]; [done|].
  rewrite digit_of_digit_byte by done. by f_equal.
Qed.

Lemma digit_byte_plain d :
  0 <= d < 10 →
  is_space (digit_byte d) = false ∧ digit_byte d ≠ x2d ∧ digit_byte d ≠ x2b.
Proof.
  intros H. assert (d = 0 ∨ d = 1 ∨ d = 2 ∨ d = 3 ∨ d = 4 ∨ d = 5 ∨ d = 6 ∨ d = 7 ∨ d = 8 ∨ d = 9)
    as Hd by lia.
  by repeat destruct Hd as [->|Hd]; subst.
Qed.

Lemma sscanf_unsigned ds :
  ds ≠ [] → Forall (λ d, 0 <= d < 10) ds → int64 (digits_value ds) →
  sscanf_d (digit_byte <$> ds) = Some (digits_value ds).
Proof.
  intros Hne Hds Hr. unfold sscanf_d.
  destruct ds as [|d ds]; [done|].
  pose proof (Forall_inv Hds) as Hd. destruct (digit_byte_plain d Hd) as (Hs & Hm & Hp).
  pose proof (scan_digits_bytes _ Hds) as Hscan.
  cbn [fmap list_fmap] in *. cbn [skip_space]. rewrite Hs.
  destruct (digit_byte d) eqn:E; try done; rewrite Hscan, decide_True by done; done.
Qed.

(** ** Printing and scanning an int64 are inverse *)
Lemma sscanf_sprintf v : int64 v → sscanf_d (sprintf_d v) = Some v.
Proof.
  intros H. unfold int64 in H. unfold sprintf_d.
  destruct (v <? 0) eqn:E; bool_prop.
  - unfold sscanf_d. cbn [skip_space]. change (is_space minus_byte) with false.
    unfold minus_byte.
    assert (0 <= - v < 10 ^ Z.of_nat 20) as Hr by (cbn; lia).
    rewrite scan_digits_bytes by (by apply dec_digits_range).
    destruct (dec_digits 20 (- v)) eqn:Ed; [by apply dec_digits_nonempty in Ed|].
    rewrite <- Ed, dec_digits_value by done.
    rewrite decide_True by (unfold int64; lia). f_equal. lia.
  - assert (0 <= v < 10 ^ Z.of_nat 20) as Hr by (cbn; lia).
    rewrite sscanf_unsigned.
    + by rewrite dec_digits_value.
    + apply dec_digits_nonempty.
    + by apply dec_digits_range.
    + rewrite dec_digits_value by done. unfold int64. lia.
Qed.

(** ** The codecs are bijections *)

Lemma be_bytes_be_value bs : be_bytes (length bs) (be_value bs) = bs.
Proof.
  induction bs as [|b bs IH] using rev_ind; [done|].
  rewrite length_app, Nat.add_1_r, be_value_snoc. cbn [be_bytes].
  pose proof (Z_of_byte_range b).
  rewrite Z.shiftr_div_pow2 by lia. change (2 ^ 8) with 256.
  rewrite Z.div_add_l, (Z.div_small (Z_of_byte b)), Z.add_0_r, IH by lia. do 2 f_equal.
  rewrite <- (byte_of_Z_of_byte b) at 2. unfold byte_of_Z.
  by rewrite Z.add_comm, Z.mod_add by lia.
Qed.

Lemma be_bytes_mod n v : be_bytes n (v mod 256 ^ Z.of_nat n) = be_bytes n v.
Proof.
  rewrite <- be_value_be_bytes. rewrite <- (be_bytes_length n v) at 1.
  apply be_bytes_be_value.
Qed.

(** The int64 codec of the index files is a bijection between int64 values
    and 8-byte strings: decoding what was encoded, and encoding what was
    decoded, gives the original back. *)
Theorem int64_codec_bijective :
  (∀ v, int64 v → bytesToInt64 (int64ToBytes v) = v)
  ∧ (∀ b, length b = 8%nat → int64ToBytes (bytesToInt64 b) = b).
Proof.
  split; [apply bytesToInt64_int64ToBytes|]. intros b Hb.
  rewrite int64ToBytes_be_bytes, bytesToInt64_be_value, take_ge by lia.
  rewrite <- be_bytes_mod. change (256 ^ Z.of_nat 8) with (2 ^ 64).
  rewrite wrap64_mod. change (2 ^ 64) with (256 ^ Z.of_nat 8).
  rewrite be_bytes_mod. rewrite <- Hb. apply be_bytes_be_value.
Qed.
