(* ===== verification/OS.v ===== *)
(** * The operating system the broker runs on

    What the source uses of Go's [os], [io], [path/filepath] and [time]
    packages.  A file system is a finite map from cleaned paths to nodes; every
    system call advances a tick, and an environment decides, tick by tick,
    what the clock reads and whether the call fails.  Quantifying over the
    environment covers every pattern of I/O failures, including writes that
    stop half-way. *)

From Stdlib Require Import Ascii.
From S2P Require Import Prelude.

(** ** Strings *)

Definition slash : Ascii.ascii := "/"%char.

(** [strings.Split(s, sep)] for a one-byte separator. *)
Fixpoint split_on (c : Ascii.ascii) (s : string) : list string :=
  match s with
  | EmptyString => [EmptyString]
  | String a s' =>
      if decide (a = c) then EmptyString :: split_on c s'
      else match split_on c s' with
           | x :: xs => String a x :: xs
           | [] => [String a EmptyString]
           end
  end.

Fixpoint has_char (c : Ascii.ascii) (s : string) : bool :=
  match s with
  | EmptyString => false
  | String a s' => bool_decide (a = c) || has_char c s'
  end.

(** ** Paths

    [filepath.Join] returns a cleaned path.  A cleaned path is represented by
    whether it is absolute and its components, the last one first. *)
Abbreviation path := (bool * list string)%type.

Definition clean_step (abs : bool) (rev : list string) (c : string) : list string :=
  if decide (c = EmptyString ∨ c = "."%string) then rev
  else if decide (c = ".."%string) then
    match rev with
    | [] => if abs then [] else [c]
    | top :: rest => if decide (top = ".."%string) then c :: rev else rest
    end
  else c :: rev.

(** [filepath.Join(p, s)] for a cleaned, non-empty [p]. *)
Definition Join (p : path) (s : string) : path :=
  (p.1, fold_left (clean_step p.1) (split_on slash s) p.2).

(** A name that is a single ordinary path component. *)
Definition plain (s : string) : bool :=
  negb (bool_decide (s = EmptyString)) && negb (bool_decide (s = "."%string))
  && negb (bool_decide (s = ".."%string)) && negb (has_char slash s).

(** ** Files *)

Inductive node := Dir | File (data : list byte).

Record world := World { w_nodes : gmap path node; w_tick : nat }.

(** How a system call can fail: without effect, or after [k] bytes (of a
    write) or [k] directories (of MkdirAll). *)
Inductive fault := FaultBefore | FaultAfter (k : nat).

Class Env := { env_fault : nat → option fault; env_clock : nat → Z }.

Definition file (w : world) (p : path) : option (list byte) :=
  match w_nodes w !! p with Some (File d) => Some d | _ => None end.

Definition tick (w : world) : world := World (w_nodes w) (S (w_tick w)).
Definition set_node (p : path) (n : node) (w : world) : world :=
  World (<[p := n]> (w_nodes w)) (w_tick w).

(** The first [length data] bytes at [pos], the gap (if any) zero-filled. *)
Definition write_at (f : list byte) (pos : nat) (data : list byte) : list byte :=
  match data with
  | [] => f
  | _ => take pos (f ++ replicate (pos - length f) x00) ++ data ++ drop (pos + length data) f
  end.

Definition slice (f : list byte) (pos n : nat) : list byte := take n (drop pos f).

Definition parent_ok (w : world) (p : path) : bool :=
  match p.2 with
  | [] => false
  | [_] => true
  | _ :: r => match w_nodes w !! (p.1, r) with Some Dir => true | _ => false end
  end.

Fixpoint suffixes (r : list string) : list (list string) :=
  match r with [] => [] | _ :: r' => r :: suffixes r' end.

Definition add_dirs (abs : bool) (ds : list (list string)) (w : world) : world :=
  fold_left (λ w r, set_node (abs, r) Dir w) ds w.

Section syscalls.
Context {E : Env}.

(** [time.Now().UnixNano()] *)
Definition time_now (w : world) : Z * world := (env_clock (w_tick w), tick w).

(** [os.MkdirAll(p, 0o755)] *)
Definition MkdirAll (p : path) (w : world) : res unit * world :=
  let dirs := reverse (suffixes p.2) in
  if bool_decide (Exists (λ r, is_Some (file w (p.1, r))) dirs) then (Err ErrIO, tick w)
  else match env_fault (w_tick w) with
  | None => (Ok tt, add_dirs p.1 dirs (tick w))
  | Some FaultBefore => (Err ErrIO, tick w)
  | Some (FaultAfter k) => (Err ErrIO, add_dirs p.1 (take k dirs) (tick w))
  end.

(** [os.OpenFile(p, os.O_CREATE|os.O_RDWR, 0o644)] *)
Definition OpenFile (p : path) (w : world) : res unit * world :=
  match env_fault (w_tick w), w_nodes w !! p with
  | Some _, _ => (Err ErrIO, tick w)
  | None, Some Dir => (Err ErrIO, tick w)
  | None, Some (File _) => (Ok tt, tick w)
  | None, None => if parent_ok w p then (Ok tt, set_node p (File []) (tick w))
                  else (Err ErrIO, tick w)
  end.

(** [f.Stat()] and its [Size()] *)
Definition StatSize (p : path) (w : world) : res Z * world :=
  match env_fault (w_tick w), file w p with
  | None, Some d => (Ok (zlen d), tick w)
  | _, _ => (Err ErrIO, tick w)
  end.

(** [os.ReadFile(p)] *)
Definition ReadFile (p : path) (w : world) : res (list byte) * world :=
  match env_fault (w_tick w), w_nodes w !! p with
  | Some _, _ => (Err ErrIO, tick w)
  | None, None => (Err ErrNotExist, tick w)
  | None, Some Dir => (Err ErrIO, tick w)
  | None, Some (File d) => (Ok d, tick w)
  end.

(** [f.ReadAt(buf, pos)] with [len(buf) = n]: short reads are errors. *)
Definition ReadAt (p : path) (n pos : Z) (w : world) : res (list byte) * world :=
  match env_fault (w_tick w), file w p with
  | None, Some d =>
      if pos <? 0 then (Err ErrInvalid, tick w)
      else let got := slice d (Z.to_nat pos) (Z.to_nat n) in
           if zlen got =? Z.max 0 n then (Ok got, tick w) else (Err ErrEOF, tick w)
  | _, _ => (Err ErrIO, tick w)
  end.

(** [f.WriteAt(data, pos)] *)
Definition WriteAt (p : path) (data : list byte) (pos : Z) (w : world) : res unit * world :=
  match file w p with
  | None => (Err ErrIO, tick w)
  | Some d =>
      if pos <? 0 then (Err ErrInvalid, tick w)
      else match env_fault (w_tick w) with
      | None => (Ok tt, set_node p (File (write_at d (Z.to_nat pos) data)) (tick w))
      | Some FaultBefore => (Err ErrIO, tick w)
      | Some (FaultAfter k) =>
          (Err ErrIO, set_node p (File (write_at d (Z.to_nat pos) (take k data))) (tick w))
      end
  end.

(** [os.WriteFile(p, data, 0o644)]: create or truncate, then write. *)
Definition WriteFile (p : path) (data : list byte) (w : world) : res unit * world :=
  match w_nodes w !! p with
  | Some Dir => (Err ErrIO, tick w)
  | n => if bool_decide (is_Some n) || parent_ok w p then
           match env_fault (w_tick w) with
           | None => (Ok tt, set_node p (File data) (tick w))
           | Some FaultBefore => (Err ErrIO, tick w)
           | Some (FaultAfter k) => (Err ErrIO, set_node p (File (take k data)) (tick w))
           end
         else (Err ErrIO, tick w)
  end.
End syscalls.

(** [only_writes P w w']: from [w] to [w'] only files in [P] were created or
    rewritten; nothing was removed and no directory appeared. *)
Definition only_writes (P : path → Prop) (w w' : world) : Prop :=
  ∀ q, w_nodes w' !! q = w_nodes w !! q
     ∨ (P q ∧ (∃ d, w_nodes w' !! q = Some (File d)) ∧ w_nodes w !! q ≠ Some Dir).

(** [os.WriteFile] can write [p]: it is a file, or its directory is there. *)
Definition writable (w : world) (p : path) : Prop :=
  is_Some (file w p) ∨ (w_nodes w !! p = None ∧ parent_ok w p = true).

(** No system call fails. *)
Class Reliable (E : Env) : Prop := reliable : ∀ n, env_fault n = None.

(** * Lemmas *)

(** ** Paths *)

Lemma split_on_no_char c s : has_char c s = false → split_on c s = [s].
Proof.
  induction s as [|a s IH]; simpl; [done|]. intros H. bool_prop.
  rewrite decide_False by (intros ->; congruence). by rewrite IH.
Qed.

Lemma Join_plain p s : plain s = true → Join p s = (p.1, s :: p.2).
Proof.
  unfold plain, Join. intros H. bool_prop.
  repeat match goal with H : negb _ = true |- _ => apply negb_true_iff in H end. bool_prop.
  rewrite split_on_no_char by done. simpl. unfold clean_step.
  by rewrite decide_False, decide_False by naive_solver.
Qed.

Lemma Join_plain_inj p q s t :
  plain s = true → plain t = true → Join p s = Join q t → p = q ∧ s = t.
Proof.
  intros Hs Ht. rewrite !Join_plain by done. intros Heq. simplify_eq.
  split; [|done]. destruct p, q. by simpl in *; subst.
Qed.

(** ** File contents *)

Lemma slice_length f pos n : (pos + n ≤ length f)%nat → length (slice f pos n) = n.
Proof. intros. unfold slice. rewrite length_take, length_drop. lia. Qed.

Lemma write_at_length f pos data :
  data ≠ [] → length (write_at f pos data) = Nat.max (pos + length data) (length f).
Proof.
  intros Hd. unfold write_at. destruct data as [|b data]; [done|].
  rewrite !length_app, length_take, length_app, length_replicate, length_drop. lia.
Qed.

Lemma write_at_prefix f pos data :
  (pos ≤ length f)%nat → take pos (write_at f pos data) = take pos f.
Proof.
  intros H. unfold write_at. destruct data as [|b data]; [done|].
  replace (pos - length f)%nat with 0%nat by lia. simpl. rewrite app_nil_r.
  rewrite take_app_le by (rewrite length_take; lia). by rewrite take_idemp.
Qed.

(** Writing at [pos] leaves what lies before [pos] readable. *)
Lemma slice_write_at_before f pos data i n :
  (i + n ≤ pos)%nat → (pos ≤ length f)%nat → slice (write_at f pos data) i n = slice f i n.
Proof.
  intros H Hp. unfold slice. rewrite !take_drop_commute.
  replace (i + n)%nat with ((i + n) `min` pos)%nat by lia.
  rewrite <- !take_take. by rewrite write_at_prefix.
Qed.

Lemma slice_write_at_same f pos data :
  (pos ≤ length f)%nat → slice (write_at f pos data) pos (length data) = data.
Proof.
  intros H. unfold slice, write_at. destruct data as [|b data]; [done|].
  replace (pos - length f)%nat with 0%nat by lia. simpl replicate. rewrite app_nil_r.
  rewrite drop_app_length' by (rewrite length_take; lia).
  by rewrite take_app_length.
Qed.

(** ** Frames: what a call leaves unchanged *)

Lemma file_set_node_eq p d w : file (set_node p (File d) w) p = Some d.
Proof. unfold file, set_node. simpl. by rewrite lookup_insert_eq. Qed.
Lemma file_set_node_ne p q n w : p ≠ q → file (set_node p n w) q = file w q.
Proof. intros H. unfold file, set_node. simpl. by rewrite lookup_insert_ne. Qed.
Lemma file_tick p w : file (tick w) p = file w p.
Proof. done. Qed.
Create Rewrite HintDb files.
#[export] Hint Rewrite file_set_node_eq file_tick : files.
#[export] Hint Rewrite file_set_node_ne using (solve [auto]) : files.

Lemma file_add_dirs abs ds w q :
  Forall (λ r, file w (abs, r) = None) ds → file (add_dirs abs ds w) q = file w q.
Proof.
  revert w. induction ds as [|r ds IH]; intros w Hds; [done|].
  inversion Hds as [|?? Hr Hds']; subst. cbn [add_dirs fold_left].
  change (fold_left _ ds ?w0) with (add_dirs abs ds w0).
  assert (∀ q, file (set_node (abs, r) Dir w) q = file w q) as Hf.
  { intros q'. destruct (decide ((abs, r) = q')) as [<-|].
    - rewrite Hr. unfold file, set_node. simpl. by rewrite lookup_insert_eq.
    - by apply file_set_node_ne. }
  rewrite IH; [apply Hf|]. eapply Forall_impl; [exact Hds'|].
  intros r' Hr'. simpl. by rewrite Hf.
Qed.

Lemma add_dirs_lookup abs ds w q :
  w_nodes (add_dirs abs ds w) !! q
  = if decide (q.1 = abs ∧ q.2 ∈ ds) then Some Dir else w_nodes w !! q.
Proof.
  revert w. induction ds as [|d ds IH]; intros w; cbn [add_dirs fold_left].
  { rewrite decide_False; [done|]. intros [_ []%not_elem_of_nil]. }
  change (fold_left _ ds ?w0) with (add_dirs abs ds w0). rewrite IH. destruct q as [a r]. simpl.
  destruct (decide (a = abs ∧ r ∈ ds)) as [[-> ?]|Hn].
  - by rewrite decide_True by set_solver.
  - destruct (decide ((abs, d) = (a, r))) as [[= -> ->]|Hne].
    + rewrite lookup_insert_eq, decide_True by set_solver. done.
    + rewrite lookup_insert_ne by done. rewrite decide_False; [done|]. set_solver.
Qed.

Lemma suffixes_length r s : s ∈ suffixes r → (length s ≤ length r)%nat.
Proof.
  induction r as [|x r IH]; simpl; [by intros []%not_elem_of_nil|].
  rewrite elem_of_cons. intros [->|Hs]; simpl; [lia|]. apply IH in Hs. lia.
Qed.

Section frames.
Context {E : Env}.

Lemma MkdirAll_file p w r w' q : MkdirAll p w = (r, w') → file w' q = file w q.
Proof.
  unfold MkdirAll. case_bool_decide as HE; [by intros [= _ <-]|].
  apply not_Exists_Forall in HE; [|apply _].
  assert (Forall (λ r, file (tick w) (p.1, r) = None) (reverse (suffixes p.2))) as HF.
  { eapply Forall_impl; [exact HE|]. intros x Hx. simpl in Hx. rewrite file_tick.
    destruct (file w (p.1, x)) eqn:E0; [|done]. by destruct Hx. }
  destruct (env_fault (w_tick w)) as [[|k]|]; intros [= _ <-]; [done| |].
  - rewrite file_add_dirs; [done|]. by apply Forall_take.
  - by rewrite file_add_dirs.
Qed.

Lemma OpenFile_file_ne p w r w' q : OpenFile p w = (r, w') → p ≠ q → file w' q = file w q.
Proof.
  unfold OpenFile. intros H Hne.
  repeat case_match; simplify_eq; autorewrite with files; done.
Qed.

(** Opening creates an empty file or leaves the existing one alone. *)
Lemma OpenFile_file p w w' :
  OpenFile p w = (Ok tt, w') → file w' p = Some (default [] (file w p)).
Proof.
  unfold OpenFile, file. intros H.
  repeat case_match; simplify_eq; simpl in *; simplify_map_eq; done.
Qed.

Lemma OpenFile_err_file p w e w' q : OpenFile p w = (Err e, w') → file w' q = file w q.
Proof. unfold OpenFile. intros H. repeat case_match; simplify_eq; done. Qed.

Lemma StatSize_inv p w r w' :
  StatSize p w = (r, w') →
  w' = tick w ∧ (∀ z, r = Ok z → ∃ d, file w p = Some d ∧ z = zlen d).
Proof. unfold StatSize. intros H. repeat case_match; simplify_eq; naive_solver. Qed.

Lemma ReadFile_inv p w r w' :
  ReadFile p w = (r, w') →
  w' = tick w ∧ (∀ d, r = Ok d → file w p = Some d)
  ∧ (r = Err ErrNotExist → w_nodes w !! p = None).
Proof.
  unfold ReadFile, file. intros H. repeat case_match; simplify_eq; naive_solver.
Qed.

Lemma ReadAt_tick p n pos w r w' : ReadAt p n pos w = (r, w') → w' = tick w.
Proof. unfold ReadAt. intros H. repeat case_match; simplify_eq; done. Qed.

Lemma ReadAt_ok p n pos w d w' :
  ReadAt p n pos w = (Ok d, w') →
  ∃ f, file w p = Some f ∧ d = slice f (Z.to_nat pos) (Z.to_nat n)
     ∧ zlen d = Z.max 0 n ∧ 0 <= pos.
Proof. unfold ReadAt. intros H. repeat case_match; simplify_eq; bool_prop; eauto. Qed.

(** Without a fault, reading inside the file succeeds. *)
Lemma ReadAt_slice p n pos w f :
  env_fault (w_tick w) = None → file w p = Some f →
  0 <= pos → 0 <= n → pos + n <= zlen f →
  ReadAt p n pos w = (Ok (slice f (Z.to_nat pos) (Z.to_nat n)), tick w).
Proof.
  intros HE Hf Hp Hn Hl. unfold ReadAt. rewrite HE, Hf.
  rewrite (proj2 (Z.ltb_ge _ _)) by lia.
  assert (zlen (slice f (Z.to_nat pos) (Z.to_nat n)) = Z.max 0 n) as Hs.
  { unfold zlen in *. rewrite slice_length by lia. lia. }
  by rewrite Hs, Z.eqb_refl.
Qed.

Lemma WriteAt_file_ne p data pos w r w' q :
  WriteAt p data pos w = (r, w') → p ≠ q → file w' q = file w q.
Proof.
  unfold WriteAt. intros H Hne.
  repeat case_match; simplify_eq; autorewrite with files; done.
Qed.

(** The written file: all of [data] on success, a prefix of it on failure. *)
Lemma WriteAt_file p data pos w r w' f :
  WriteAt p data pos w = (r, w') → file w p = Some f → 0 <= pos →
  ∃ k, file w' p = Some (write_at f (Z.to_nat pos) (take k data))
     ∧ (r = Ok tt → take k data = data).
Proof.
  unfold WriteAt. intros H Hf Hp. rewrite Hf, (proj2 (Z.ltb_ge _ _)) in H by lia.
  repeat case_match; simplify_eq.
  - exists 0%nat. rewrite take_0. by split.
  - exists k. by autorewrite with files.
  - exists (length data). rewrite firstn_all. by autorewrite with files.
Qed.

Lemma WriteFile_file_ne p data w r w' q :
  WriteFile p data w = (r, w') → p ≠ q → file w' q = file w q.
Proof.
  unfold WriteFile. intros H Hne.
  repeat case_match; simplify_eq; autorewrite with files; done.
Qed.

Lemma WriteFile_ok p data w w' : WriteFile p data w = (Ok tt, w') → file w' p = Some data.
Proof. unfold WriteFile. intros H. repeat case_match; simplify_eq; by autorewrite with files. Qed.
End frames.

(** ** The write relation *)

Section only_writes.
Context {E : Env}.
Implicit Types (P Q : path → Prop) (w : world).

Lemma only_writes_refl P w : only_writes P w w.
Proof. intros q. by left. Qed.
Lemma only_writes_tick P w : only_writes P w (tick w).
Proof. intros q. by left. Qed.
Lemma only_writes_trans P w1 w2 w3 :
  only_writes P w1 w2 → only_writes P w2 w3 → only_writes P w1 w3.
Proof.
  intros H1 H2 q. destruct (H2 q) as [->|(? & ? & ?)]; [by apply H1|].
  destruct (H1 q) as [<-|(? & (d & Hd) & ?)]; right; auto.
Qed.
Lemma only_writes_mono P Q w w' :
  (∀ q, P q → Q q) → only_writes P w w' → only_writes Q w w'.
Proof. intros HPQ H q. destruct (H q) as [|(? & ? & ?)]; auto. Qed.

Lemma only_writes_set_node P p d w :
  P p → w_nodes w !! p ≠ Some Dir → only_writes P w (set_node p (File d) (tick w)).
Proof.
  intros HP Hn q. destruct (decide (p = q)) as [<-|].
  - right. split_and!; [done| |done]. exists d. simpl. by rewrite lookup_insert_eq.
  - left. simpl. by rewrite lookup_insert_ne.
Qed.

Lemma only_writes_file P w w' q : only_writes P w w' → ¬ P q → file w' q = file w q.
Proof. intros H Hq. unfold file. by destruct (H q) as [->|(? & _)]. Qed.

Lemma only_writes_is_file P w w' q :
  only_writes P w w' → is_Some (file w q) → is_Some (file w' q).
Proof.
  intros H Hq. unfold file in *. destruct (H q) as [->|(_ & (d & ->) & _)]; [done|by eexists].
Qed.

Lemma only_writes_dir P w w' q :
  only_writes P w w' → w_nodes w !! q = Some Dir → w_nodes w' !! q = Some Dir.
Proof. intros H Hq. by destruct (H q) as [->|(_ & _ & ?)]. Qed.

Lemma only_writes_parent P w w' p :
  only_writes P w w' → parent_ok w p = true → parent_ok w' p = true.
Proof.
  unfold parent_ok. intros H. destruct (p.2) as [|x [|y r]]; [done..|].
  destruct (w_nodes w !! (p.1, y :: r)) as [[|]|] eqn:Hd; try done.
  by rewrite (only_writes_dir _ _ _ _ H Hd).
Qed.

Lemma only_writes_writable P w w' p : only_writes P w w' → writable w p → writable w' p.
Proof.
  intros H [Hf|[Hn Hp]]; [left; by eapply only_writes_is_file|].
  destruct (H p) as [Heq|(_ & (d & Hd) & _)].
  - right. rewrite Heq. eauto using only_writes_parent.
  - left. unfold file. rewrite Hd. by eexists.
Qed.

Lemma OpenFile_only_writes p w r w' : OpenFile p w = (r, w') → only_writes (eq p) w w'.
Proof.
  unfold OpenFile. intros H. repeat case_match; simplify_eq;
    auto using only_writes_tick. apply only_writes_set_node; congruence.
Qed.

Lemma WriteAt_only_writes p data pos w r w' :
  WriteAt p data pos w = (r, w') → only_writes (eq p) w w'.
Proof.
  unfold WriteAt, file. intros H. repeat case_match; simplify_eq;
    auto using only_writes_tick; apply only_writes_set_node; congruence.
Qed.

Lemma WriteFile_only_writes p data w r w' :
  WriteFile p data w = (r, w') → only_writes (eq p) w w'.
Proof.
  unfold WriteFile. intros H. repeat case_match; simplify_eq;
    auto using only_writes_tick; apply only_writes_set_node; congruence.
Qed.

(** Reads change nothing. *)
Lemma reads_only_writes P w w' : w' = tick w → only_writes P w w'.
Proof. intros ->. apply only_writes_tick. Qed.

Context `{!Reliable E}.

Lemma WriteAt_reliable p data pos w f :
  file w p = Some f → 0 <= pos →
  WriteAt p data pos w = (Ok tt, set_node p (File (write_at f (Z.to_nat pos) data)) (tick w)).
Proof.
  intros Hf Hp. unfold WriteAt. rewrite Hf, (proj2 (Z.ltb_ge _ _)), reliable by lia. done.
Qed.

Lemma WriteFile_reliable p data w :
  writable w p → WriteFile p data w = (Ok tt, set_node p (File data) (tick w)).
Proof.
  unfold writable, WriteFile, file. intros Hw. rewrite reliable.
  destruct (w_nodes w !! p) as [[|d]|] eqn:E0; [|done|].
  - destruct Hw as [[? ?]|[? _]]; done.
  - destruct Hw as [[? ?]|[_ ->]]; [done|]. by rewrite orb_true_r.
Qed.
End only_writes.
#[export] Hint Resolve only_writes_refl only_writes_tick : streamflow.
