(* ===== verification/Samples.v ===== *)
(** * Concrete parameters

    Instances of the parameters of the development, on which the witnesses of
    the properties evaluate: an environment without faults, one that fails at
    chosen ticks, and a record codec that satisfies the round-trip law. *)

From S2P Require Import Prelude Encoding OS Segment.

(** A clock that advances by one microsecond per system call and stops after
    10^12 of them. *)
Definition clock0 (n : nat) : Z := 1700000000000000000 + 1000 * Z.min (Z.of_nat n) (10 ^ 12).

Definition env0 : Env := {| env_fault := λ _, None; env_clock := clock0 |}.

(** Fails, without effect, exactly at the ticks in [l]. *)
Definition env_failing (l : list nat) : Env :=
  {| env_fault := λ n, if decide (n ∈ l) then Some FaultBefore else None;
     env_clock := clock0 |}.

(** A binary codec for records without headers: timestamp, offset, key length,
    key, value. *)
Definition codec0 : RecordCodec := {|
  json_marshal r :=
    if decide (Headers r = ∅) then
      Some (int64ToBytes (Timestamp r) ++ int64ToBytes (Offset r)
            ++ putUint32 (zlen (Key r)) ++ Key r ++ Value r)
    else None;
  json_unmarshal b :=
    if decide (20 ≤ length b)%nat then
      let rest := drop 16 b in
      let n := Z.to_nat (getUint32 rest) in
      Some (MkRecord (take n (drop 4 rest)) (drop n (drop 4 rest)) ∅
              (bytesToInt64 b) (bytesToInt64 (drop 8 b)))
    else None;
  json_storable r := int64 (Timestamp r) ∧ int64 (Offset r) ∧ zlen (Key r) < 2 ^ 32 |}.

(** An empty file system. *)
Definition world0 : world := World ∅ 0.

(** [/data] *)
Definition dir0 : path := (true, ["data"%string]).

Definition bytes_of (s : string) : list byte := String.list_byte_of_string s.

(** A segment opened in an empty directory. *)
Definition open0 : res Segment * world := newSegment (E := env0) (Join dir0 "orders") 0 world0.
Definition seg0 : Segment :=
  MkSegment (Join dir0 "orders") (Join (Join dir0 "orders") "segment.log")
    (Join (Join dir0 "orders") "segment.index") (Join (Join dir0 "orders") "segment.timeindex")
    0 0 ∅ ∅.
Definition wseg0 : world := open0.2.
Definition rec0 : LogRecord :=
  MkRecord (bytes_of "k") (bytes_of "v") ∅ 1700000000000000000 0.

Lemma open0_ok : newSegment (E := env0) (Join dir0 "orders") 0 world0 = (Ok seg0, wseg0).
Proof.
  assert (open0.1 = Ok seg0) as <- by (vm_compute; reflexivity). apply surjective_pairing.
Qed.

Lemma rec0_storable : json_storable (RecordCodec := codec0) rec0.
Proof. unfold rec0. simpl. unfold int64, zlen. simpl. lia. Qed.

#[export] Instance env0_reliable : Reliable env0.
Proof. intros n. reflexivity. Qed.

#[export] Instance codec0_laws : @RecordCodecLaws codec0.
Proof.
  intros [k v h t o] payload (Ht & Ho & Hk). cbn [json_marshal codec0 Headers].
  cbn [Timestamp Offset Key Value] in *. case_decide as Hh; [|done]. subst h.
  intros Hp. apply (inj Some) in Hp. subst payload.
  cbn [json_unmarshal codec0].
  rewrite decide_True by (rewrite !length_app, !int64ToBytes_length, putUint32_length; lia).
  rewrite bytesToInt64_int64ToBytes_app by done.
  change 16%nat with (8 + 8)%nat. rewrite <- drop_drop.
  rewrite (drop_app_length' (int64ToBytes t)) by done.
  rewrite bytesToInt64_int64ToBytes_app by done.
  rewrite (drop_app_length' (int64ToBytes o)) by done.
  rewrite (drop_app_length' (putUint32 (zlen k))) by done.
  rewrite getUint32_putUint32_small by (split; [apply zlen_nonneg|done]).
  unfold zlen. rewrite Nat2Z.id, take_app_length, drop_app_length. done.
Qed.
