(* ===== verification/SegmentFacts.v ===== *)
(** * Log segments: proofs

    The lemmas on [Segment.v]: what the two writes of an append put in the
    file, the representation invariant across every failure of [Append], exact
    reads, and recovery from the index files; then the properties stated of
    segments, each with a concrete instance. *)

From S2P Require Import Prelude Encoding OS Segment Samples.

(** ** Paths of a segment *)

Section paths.
Context (s : Segment) (Hp : seg_paths s).

Lemma seg_paths_distinct :
  LogPath s ≠ IndexPath s ∧ LogPath s ≠ TimeIndex s ∧ IndexPath s ≠ TimeIndex s.
Proof.
  destruct Hp as [-> -> ->]. rewrite !Join_plain by done. by repeat split.
Qed.
End paths.

(** ** Frames *)

Lemma frame_at_write f pos p q data :
  frame_at f pos p → pos + 4 + zlen p <= q → 0 <= q <= zlen f →
  frame_at (write_at f (Z.to_nat q) data) pos p.
Proof.
  intros (H0 & Hm & Hl & Hs1 & Hs2) Hq Hqf. unfold frame_at, zlen in *.
  split_and!; [done|done| | |].
  - destruct data as [|b data]; [done|].
    rewrite write_at_length by done. lia.
  - rewrite slice_write_at_before by lia. done.
  - rewrite slice_write_at_before by lia. done.
Qed.

(** The two writes of [Append] make a frame. *)
Lemma frame_at_append f pos payload :
  0 <= pos <= zlen f → zlen payload <= maxPayload →
  frame_at (write_at (write_at f (Z.to_nat pos) (putUint32 (zlen payload)))
                     (Z.to_nat (pos + 4)) payload) pos payload.
Proof.
  intros Hp Hm. set (f1 := write_at f _ _).
  assert (Z.to_nat pos + 4 ≤ length f1)%nat as Hf1.
  { unfold f1. rewrite write_at_length by done. change (length (putUint32 _)) with 4%nat. lia. }
  unfold frame_at, zlen in *. split_and!; [lia|done| | |].
  - destruct payload as [|b payload]; [simpl; lia|].
    rewrite write_at_length by done. lia.
  - rewrite slice_write_at_before by lia. unfold f1.
    apply (slice_write_at_same f (Z.to_nat pos) (putUint32 (Z.of_nat (length payload)))). lia.
  - apply slice_write_at_same. lia.
Qed.

Section rep.
Context {E : Env} {C : RecordCodec}.

(** Anything written at or after [position] leaves the records alone. *)
Lemma seg_rep_write base recs s w w' f q data :
  seg_rep base recs s w → file w (LogPath s) = Some f →
  file w' (LogPath s) = Some (write_at f (Z.to_nat q) data) →
  position s <= q <= zlen f → seg_rep base recs s w'.
Proof.
  intros [Hb Hpos Hn Hd (f0 & Hf0 & Hl & Hst)] Hf Hf' Hq. simplify_eq.
  split; try done. exists (write_at f0 (Z.to_nat q) data). split_and!; [done| |].
  - destruct data as [|b data]; [done|].
    unfold zlen in *. rewrite write_at_length by done. lia.
  - intros i r Hi. destruct (Hst i r Hi) as (pos & p & H1 & H2 & H3 & H4).
    exists pos, p. split_and!; try done. apply frame_at_write; [done|lia|lia].
Qed.

Lemma seg_rep_file base recs s w w' :
  file w' (LogPath s) = file w (LogPath s) → seg_rep base recs s w → seg_rep base recs s w'.
Proof. intros Hf []. split; try done. by rewrite Hf. Qed.

(** The in-memory part of an append, once the frame is in the file. *)
Lemma seg_rep_push base recs s w w' f r payload s' :
  seg_rep base recs s w → room s → json_unmarshal payload = Some r →
  zlen payload <= maxPayload →
  file w (LogPath s) = Some f →
  file w' (LogPath s) =
    Some (write_at (write_at f (Z.to_nat (position s)) (putUint32 (zlen payload)))
                   (Z.to_nat (position s + 4)) payload) →
  LogPath s' = LogPath s → offsets s' = <[nextOffset s := position s]> (offsets s) →
  position s' = position s + (4 + zlen payload) → nextOffset s' = nextOffset s + 1 →
  seg_rep base (recs ++ [r]) s' w'.
Proof.
  intros [Hb Hpos Hn Hd (f0 & Hf0 & Hl & Hst)] [Hr1 Hr2] Hu Hm Hf Hf' HL HO HP HN. simplify_eq.
  pose proof (zlen_nonneg payload) as Hz.
  pose proof (frame_at_append f0 (position s) payload ltac:(lia) Hm) as HF.
  split; [done|lia| | |].
  - rewrite HN, Hn, zlen_app. unfold zlen. simpl. lia.
  - intros off. rewrite HO, zlen_app, zlen_cons.
    change (zlen (@nil LogRecord)) with 0. rewrite Hn.
    destruct (decide (off = base + zlen recs)) as [->|Hne].
    + rewrite lookup_insert_eq. pose proof (zlen_nonneg recs). split; [lia|done].
    + rewrite lookup_insert_ne by done. rewrite Hd. lia.
  - rewrite HL. eexists. split; [exact Hf'|]. split.
    + destruct HF as (_ & _ & HF & _). lia.
    + intros i r' Hi. apply lookup_snoc_Some in Hi as [[Hi1 Hi2]|[-> ->]].
      * destruct (Hst i r' Hi2) as (pos & p & H1 & H2 & H3 & H4).
        exists pos, p. rewrite HO, lookup_insert_ne
          by (rewrite Hn; unfold zlen; lia).
        split_and!; try done; [|lia].
        apply frame_at_write; [apply frame_at_write; [done|lia|lia]|lia|].
        unfold zlen in *. rewrite write_at_length by done.
        change (length (putUint32 _)) with 4%nat. lia.
      * exists (position s), payload. rewrite HO, Hn. fold (zlen recs).
        rewrite lookup_insert_eq. split_and!; try done. lia.
Qed.

(** ** Persisting *)

Lemma encodeIndex_image (m : gmap Z Z) :
  mjoin (encodeIndexEntry <$> ((λ p, IndexEntry p.1 p.2) <$> sort_entries (map_to_list m)))
  = index_image m.
Proof. unfold index_image. by rewrite <- list_fmap_compose. Qed.

Lemma encodeTime_image (m : gmap Z Z) :
  mjoin (encodeTimeEntry <$> ((λ p, TimeIndexEntry p.1 p.2) <$> sort_entries (map_to_list m)))
  = index_image m.
Proof. unfold index_image. by rewrite <- list_fmap_compose. Qed.

Lemma persistIndexes_frame s w r w' q :
  persistIndexes s w = (r, w') → q ≠ IndexPath s → q ≠ TimeIndex s → file w' q = file w q.
Proof.
  unfold persistIndexes. intros H H1 H2.
  destruct (WriteFile (IndexPath s) _ w) as [[[]|e] w1] eqn:E1; simplify_eq.
  - eapply WriteFile_file_ne in E1; [|done]. eapply WriteFile_file_ne in H; [|done]. congruence.
  - by eapply WriteFile_file_ne.
Qed.

Lemma persistIndexes_synced s w w' :
  seg_paths s → map_ints (offsets s) → map_ints (timeOffsets s) →
  persistIndexes s w = (Ok tt, w') → index_synced s w'.
Proof.
  unfold persistIndexes. intros Hp Hi1 Hi2 H.
  rewrite encodeIndex_image, encodeTime_image in H.
  destruct (WriteFile (IndexPath s) _ w) as [[[]|e] w1] eqn:E1; simplify_eq.
  pose proof (seg_paths_distinct s Hp) as (_ & _ & Hne).
  split; [| |done].
  - eapply WriteFile_file_ne in H as ->; [|done]. by apply WriteFile_ok in E1.
  - by apply WriteFile_ok in H.
Qed.

(** ** Append, on every path *)

Definition append_outcome (base : Z) (recs : list LogRecord) (record : LogRecord)
    (s : Segment) (r : res Z) (s' : Segment) (w' : world) : Prop :=
  match r with
  | Ok off => off = base + zlen recs ∧ seg_rep base (recs ++ [record]) s' w'
              ∧ index_synced s' w'
  | Err (ErrWrap ctx _) =>
      if decide (ctx = "persist index"%string) then seg_rep base (recs ++ [record]) s' w'
      else s' = s ∧ seg_rep base recs s' w'
  | Err _ => s' = s ∧ seg_rep base recs s' w'
  end.

Context {L : RecordCodecLaws}.

Definition pushed (s : Segment) (record : LogRecord) (n : Z) : Segment :=
  MkSegment (Path s) (LogPath s) (IndexPath s) (TimeIndex s) (position s + (4 + n))
    (nextOffset s + 1) (<[nextOffset s := position s]> (offsets s))
    (<[wrap64 (Timestamp record) := nextOffset s]> (timeOffsets s)).

Lemma pushed_ints s record n :
  int64 (nextOffset s) → int64 (position s) → map_ints (offsets s) → map_ints (timeOffsets s) →
  map_ints (offsets (pushed s record n)) ∧ map_ints (timeOffsets (pushed s record n)).
Proof.
  intros Hn Hp H1 H2. split; intros k v; simpl; intros [[<- <-]|[_ Hkv]]%lookup_insert_Some;
    auto using wrap64_int64.
Qed.

(** The two writes of an append: what is there already is untouched. *)
Lemma write_frame base recs s w f payload :
  seg_rep base recs s w → room s → file w (LogPath s) = Some f → zlen payload <= maxPayload →
  let f1 := write_at f (Z.to_nat (position s)) (putUint32 (zlen payload)) in
  match WriteAt (LogPath s) (putUint32 (zlen payload)) (position s) w with
  | (Err _, w1) => seg_rep base recs s w1
  | (Ok _, w1) =>
      match WriteAt (LogPath s) payload (position s + 4) w1 with
      | (Err _, w2) => seg_rep base recs s w2
      | (Ok _, w2) => file w2 (LogPath s) = Some (write_at f1 (Z.to_nat (position s + 4)) payload)
      end
  end.
Proof.
  intros HR [Hr1 _] Hf HL f1. pose proof (rep_pos _ _ _ _ HR) as Hpos.
  destruct (rep_file _ _ _ _ HR) as (f0 & Hf0 & Hlen & _). rewrite Hf in Hf0. apply (inj Some) in Hf0 as <-.
  assert (position s + 4 <= zlen f1) as Hf1.
  { unfold zlen, f1 in *. rewrite write_at_length by done. change (length (putUint32 _)) with 4%nat. lia. }
  destruct (WriteAt (LogPath s) (putUint32 _) (position s) w) as [[[]|e] w1] eqn:E1.
  2:{ destruct (WriteAt_file _ _ _ _ _ _ f E1 Hf) as (k & Hk & _); [lia|].
      eapply seg_rep_write; [exact HR|exact Hf|exact Hk|lia]. }
  destruct (WriteAt_file _ _ _ _ _ _ f E1 Hf) as (k1 & Hk1 & Hk1'); [lia|].
  rewrite Hk1' in Hk1 by done. fold f1 in Hk1.
  assert (seg_rep base recs s w1) as HR1
    by (eapply seg_rep_write; [exact HR|exact Hf|exact Hk1|lia]).
  destruct (WriteAt (LogPath s) payload _ w1) as [[[]|e] w2] eqn:E2.
  - destruct (WriteAt_file _ _ _ _ _ _ f1 E2 Hk1) as (k2 & Hk2 & Hk2'); [lia|]. by rewrite Hk2' in Hk2.
  - destruct (WriteAt_file _ _ _ _ _ _ f1 E2 Hk1) as (k & Hk & _); [lia|].
    eapply seg_rep_write; [exact HR1|exact Hk1|exact Hk|lia].
Qed.

Lemma Append_outcome base recs s record w r s' w' :
  seg_rep base recs s w → seg_paths s → room s → json_storable record →
  map_ints (offsets s) → map_ints (timeOffsets s) →
  Append s record w = (r, s', w') → append_outcome base recs record s r s' w'.
Proof.
  intros HR HP Hroom Hst Hi1 Hi2. unfold Append.
  destruct (json_marshal record) as [payload|] eqn:HM; [|by intros [= <- <- <-]].
  pose proof (json_roundtrip _ _ Hst HM) as HU.
  destruct (maxPayload <? zlen payload) eqn:HL; [by intros [= <- <- <-]|]. bool_prop.
  destruct (rep_file _ _ _ _ HR) as (f & Hf & Hlen & _).
  pose proof (rep_pos _ _ _ _ HR) as Hpos. pose proof (zlen_nonneg payload) as Hz.
  pose proof (write_frame base recs s w f payload HR Hroom Hf HL) as Hwrite. destruct Hroom as [Hr1 Hr2].
  assert (nextOffset s = base + zlen recs ∧ 0 <= nextOffset s) as [HN HN0].
  { rewrite (rep_next _ _ _ _ HR). pose proof (rep_base _ _ _ _ HR).
    pose proof (zlen_nonneg recs). lia. }
  rewrite !(wrap64_id (position s + 4)) by (unfold int64, maxPayload in *; lia).
  cbn [position nextOffset set_timeOffsets set_offsets set_position offsets timeOffsets].
  rewrite (wrap64_id (position s + _)), (wrap64_id (nextOffset s + 1))
    by (unfold int64, maxPayload in *; lia).
  destruct (WriteAt (LogPath s) (putUint32 _) (position s) w) as [[[]|e] w1]; [|by intros [= <- <- <-]].
  destruct (WriteAt (LogPath s) payload _ w1) as [[[]|e] w2]; [|by intros [= <- <- <-]].
  change (set_nextOffset _ _) with (pushed s record (zlen payload)).
  destruct (persistIndexes _ w2) as [r3 w3] eqn:E3. intros Heq.
  assert (file w3 (LogPath s) = file w2 (LogPath s)) as Hf3.
  { pose proof (seg_paths_distinct s HP) as (? & ? & _).
    by eapply persistIndexes_frame in E3. }
  assert (seg_rep base (recs ++ [record]) (pushed s record (zlen payload)) w3) as HR3.
  { apply (seg_rep_push base recs s w w3 f record payload); try done. by rewrite Hf3. }
  destruct r3 as [[]|e]; simplify_eq; simpl; [|done].
  split_and!; [done|done|].
  destruct (pushed_ints s record (zlen payload)) as [Hj1 Hj2]; try done;
    [unfold int64, maxPayload in *; lia..|].
  eapply persistIndexes_synced; [by destruct HP|exact Hj1|exact Hj2|exact E3].
Qed.

(** ** What an append touches *)

Lemma persistIndexes_only_writes s w r w' :
  persistIndexes s w = (r, w') → only_writes (seg_file s) w w'.
Proof.
  unfold persistIndexes, seg_file. intros H.
  destruct (WriteFile (IndexPath s) _ w) as [r1 w1] eqn:E1.
  apply WriteFile_only_writes in E1. destruct r1 as [[]|]; simplify_eq.
  - apply WriteFile_only_writes in H. apply only_writes_trans with w1;
      (eapply only_writes_mono; [|eassumption]); naive_solver.
  - eapply only_writes_mono; [|exact E1]. naive_solver.
Qed.

Lemma Append_only_writes s record w r s' w' :
  Append s record w = (r, s', w') → only_writes (seg_file s) w w'.
Proof.
  unfold Append. intros H.
  destruct (json_marshal record); [|by simplify_eq; auto with streamflow].
  case_match; [by simplify_eq; auto with streamflow|].
  destruct (WriteAt _ _ (position s) w) as [r1 w1] eqn:E1. apply WriteAt_only_writes in E1.
  assert (only_writes (seg_file s) w w1) as H1
    by (eapply only_writes_mono; [|exact E1]; unfold seg_file; naive_solver).
  destruct r1; [|by simplify_eq].
  destruct (WriteAt _ _ (wrap64 _) w1) as [r2 w2] eqn:E2. apply WriteAt_only_writes in E2.
  assert (only_writes (seg_file s) w1 w2) as H2
    by (eapply only_writes_mono; [|exact E2]; unfold seg_file; naive_solver).
  pose proof (only_writes_trans _ _ _ _ H1 H2) as H12.
  destruct r2; [|by simplify_eq].
  destruct (persistIndexes _ w2) as [r3 w3] eqn:E3.
  apply persistIndexes_only_writes in E3. change (only_writes (seg_file s) w2 w3) in E3.
  destruct r3; simplify_eq; eauto using only_writes_trans.
Qed.

Lemma Append_paths s record w r s' w' :
  Append s record w = (r, s', w') →
  Path s' = Path s ∧ LogPath s' = LogPath s ∧ IndexPath s' = IndexPath s
  ∧ TimeIndex s' = TimeIndex s.
Proof. unfold Append. intros H. repeat case_match; simplify_eq; done. Qed.

(** ** Append succeeds when no system call fails *)
Lemma Append_reliable `{!Reliable E} base recs s record w payload :
  seg_rep base recs s w → seg_paths s → room s → seg_open s w →
  json_marshal record = Some payload → zlen payload <= maxPayload →
  ∃ w', Append s record w = (Ok (nextOffset s), pushed s record (zlen payload), w').
Proof.
  intros HR HP [Hr1 Hr2] [Ho1 Ho2] HM HL. unfold Append. rewrite HM.
  rewrite (proj2 (Z.ltb_ge _ _)) by lia.
  destruct (rep_file _ _ _ _ HR) as (f & Hf & Hlen & _).
  pose proof (rep_pos _ _ _ _ HR) as Hpos. pose proof (zlen_nonneg payload) as Hz.
  assert (0 <= nextOffset s) as HN0.
  { rewrite (rep_next _ _ _ _ HR). pose proof (rep_base _ _ _ _ HR).
    pose proof (zlen_nonneg recs). lia. }
  destruct (WriteAt (LogPath s) (putUint32 (zlen payload)) (position s) w) as [r1 w1] eqn:E1.
  pose proof (WriteAt_only_writes _ _ _ _ _ _ E1) as HW1.
  rewrite (WriteAt_reliable _ _ _ _ f) in E1 by (done || lia). simplify_eq.
  set (w1 := set_node _ _ _) in *.
  rewrite (wrap64_id (position s + 4)) by (unfold int64, maxPayload in *; lia).
  cbn [position nextOffset set_timeOffsets set_offsets set_position offsets timeOffsets].
  rewrite (wrap64_id (position s + _)), (wrap64_id (nextOffset s + 1))
    by (unfold int64, maxPayload in *; lia).
  destruct (WriteAt (LogPath s) payload (position s + 4) w1) as [r2 w2] eqn:E2.
  pose proof (WriteAt_only_writes _ _ _ _ _ _ E2) as HW2.
  erewrite WriteAt_reliable in E2 by (apply file_set_node_eq || lia). simplify_eq.
  change (set_nextOffset _ _) with (pushed s record (zlen payload)).
  assert (∀ p, writable w p → writable (set_node (LogPath s)
    (File (write_at (write_at f (Z.to_nat (position s)) (putUint32 (zlen payload)))
       (Z.to_nat (position s + 4)) payload)) (tick w1)) p) as Hwr
    by eauto using only_writes_writable.
  unfold persistIndexes. cbn [IndexPath TimeIndex pushed].
  rewrite WriteFile_reliable by auto.
  rewrite WriteFile_reliable; [by eexists|].
  eapply (only_writes_writable (eq (IndexPath s))); [|by apply Hwr].
  eapply WriteFile_only_writes, WriteFile_reliable. auto.
Qed.
End rep.

(** ** Reading *)

Section reading.
Context {E : Env} {C : RecordCodec}.

Lemma readByOffset_reads s off w r w' q :
  readByOffset s off w = (r, w') → w_nodes w' !! q = w_nodes w !! q.
Proof.
  unfold readByOffset. intros H.
  repeat case_match; simplify_eq; repeat match goal with
    | H : ReadAt _ _ _ _ = _ |- _ => apply ReadAt_tick in H; subst end; done.
Qed.

(** A stored record is what a successful read returns ... *)
Lemma readByOffset_stored s f off r w r' w' :
  stored s f off r → file w (LogPath s) = Some f → position s < 2 ^ 63 →
  readByOffset s off w = (Ok r', w') → r' = r.
Proof.
  intros (pos & payload & Ho & (H0 & Hm & Hl & Hs1 & Hs2) & Hp & Hu) Hf HP.
  unfold readByOffset. rewrite Ho. pose proof (zlen_nonneg payload).
  destruct (ReadAt _ 4 pos w) as [[b|e] w1] eqn:E1; [|done].
  pose proof (ReadAt_tick _ _ _ _ _ _ E1) as ->.
  apply ReadAt_ok in E1 as (f1 & Hf1 & -> & _). simplify_eq.
  change (Z.to_nat 4) with 4%nat. rewrite Hs1.
  rewrite <- (app_nil_r (putUint32 _)), getUint32_putUint32_small
    by (unfold maxPayload in *; lia).
  rewrite wrap64_id by (unfold int64; lia).
  destruct (ReadAt _ (zlen payload) _ _) as [[b|e] w2] eqn:E2; [|done].
  apply ReadAt_ok in E2 as (f2 & Hf2 & -> & _). rewrite file_tick in Hf2. simplify_eq.
  unfold zlen at 1. rewrite Nat2Z.id, Hs2, Hu. by intros [= ->].
Qed.

(** ... and without faults the read does succeed. *)
Lemma readByOffset_reliable `{!Reliable E} s f off r w :
  stored s f off r → file w (LogPath s) = Some f → position s < 2 ^ 63 →
  readByOffset s off w = (Ok r, tick (tick w)).
Proof.
  intros (pos & payload & Ho & (H0 & Hm & Hl & Hs1 & Hs2) & Hp & Hu) Hf HP.
  unfold readByOffset. rewrite Ho. pose proof (zlen_nonneg payload).
  rewrite (ReadAt_slice _ _ _ _ f) by (done || lia || apply reliable).
  change (Z.to_nat 4) with 4%nat. rewrite Hs1.
  rewrite <- (app_nil_r (putUint32 _)), getUint32_putUint32_small
    by (unfold maxPayload in *; lia).
  rewrite wrap64_id by (unfold int64; lia).
  rewrite (ReadAt_slice _ _ _ _ f) by (done || lia || apply reliable).
  unfold zlen. by rewrite Nat2Z.id, Hs2, Hu.
Qed.

Lemma readKeys_reads s max keys acc w r w' q :
  readKeys s max keys acc w = (r, w') → w_nodes w' !! q = w_nodes w !! q.
Proof.
  revert acc w. induction keys as [|k keys IH]; intros acc w; simpl; [by intros [= _ <-]|].
  case_match; [by intros [= _ <-]|].
  destruct (readByOffset s k w) as [[x|e] w1] eqn:E1.
  - intros Hk. rewrite (IH _ _ Hk). by eapply readByOffset_reads.
  - intros [= _ <-]. by eapply readByOffset_reads.
Qed.

(** The loop collects, for consecutive stored offsets, the records in order
    until [max] are there. *)
Lemma readKeys_ok base recs s max f n i acc w l w' :
  (∀ i r, recs !! i = Some r → stored s f (base + Z.of_nat i) r) →
  file w (LogPath s) = Some f → position s < 2 ^ 63 →
  (i + n = length recs)%nat →
  readKeys s max (seqZ (base + Z.of_nat i) (Z.of_nat n)) acc w = (Ok l, w') →
  l = acc ++ take (Z.to_nat (max - zlen acc)) (drop i recs).
Proof.
  intros Hst. revert i acc w. induction n as [|n IH]; intros i acc w Hf Hp Hn.
  { simpl. intros [= <- _]. rewrite drop_ge by lia. by rewrite take_nil, app_nil_r. }
  rewrite seqZ_cons by lia. cbn [readKeys].
  destruct (max <=? zlen acc) eqn:Hm; bool_prop.
  { intros [= <- _]. replace (Z.to_nat (max - zlen acc)) with 0%nat by lia.
    by rewrite take_0, app_nil_r. }
  destruct (lookup_lt_is_Some_2 recs i) as [r Hr]; [lia|].
  destruct (readByOffset s _ w) as [[x|e] w1] eqn:E1; [|done].
  pose proof (readByOffset_stored _ _ _ _ _ _ _ (Hst _ _ Hr) Hf Hp E1) as ->.
  rewrite (drop_S recs r i) by done.
  replace (Z.succ (base + Z.of_nat i)) with (base + Z.of_nat (S i)) by lia.
  replace (Z.pred (Z.of_nat (S n))) with (Z.of_nat n) by lia.
  intros H. eapply (IH (S i)) in H as ->; [|..|lia]; try done.
  - rewrite <- app_assoc. f_equal.
    replace (Z.to_nat (max - zlen acc)) with (S (Z.to_nat (max - zlen (acc ++ [r]))));
      [done|]. rewrite zlen_app, zlen_cons. unfold zlen at 2. simpl. lia.
  - unfold file. by rewrite (readByOffset_reads _ _ _ _ _ _ E1).
Qed.

Lemma readKeys_reliable `{!Reliable E} base recs s max f n i acc w :
  (∀ i r, recs !! i = Some r → stored s f (base + Z.of_nat i) r) →
  file w (LogPath s) = Some f → position s < 2 ^ 63 → (i + n = length recs)%nat →
  ∃ l w', readKeys s max (seqZ (base + Z.of_nat i) (Z.of_nat n)) acc w = (Ok l, w').
Proof.
  intros Hst. revert i acc w. induction n as [|n IH]; intros i acc w Hf Hp Hn; [by eauto|].
  rewrite seqZ_cons by lia. cbn [readKeys].
  destruct (max <=? zlen acc); [by eauto|].
  destruct (lookup_lt_is_Some_2 recs i) as [r Hr]; [lia|].
  rewrite (readByOffset_reliable _ f _ r) by eauto.
  replace (Z.succ (base + Z.of_nat i)) with (base + Z.of_nat (S i)) by lia.
  replace (Z.pred (Z.of_nat (S n))) with (Z.of_nat n) by lia.
  apply IH; [done..|lia].
Qed.

(** The sorted keys of the index from [from] on. *)
Lemma seqZ_sorted m n : StronglySorted (le_by id Z.le) (seqZ m n).
Proof.
  destruct (decide (0 <= n)); [|by rewrite seqZ_nil by lia; constructor].
  rewrite <- (Z2Nat.id n) by lia. generalize (Z.to_nat n). clear. intros k. revert m.
  induction k as [|k IH]; intros m; [constructor|].
  rewrite seqZ_cons by lia. replace (Z.pred (Z.of_nat (S k))) with (Z.of_nat k) by lia.
  constructor; [apply IH|]. apply Forall_forall. intros x [Hx _]%elem_of_seqZ.
  unfold le_by, id. lia.
Qed.

Lemma sorted_keys base recs s w from :
  seg_rep base recs s w →
  sort_keys (filter (λ offset, from <= offset) (map_to_list (offsets s)).*1)
  = seqZ (Z.max from base) (base + zlen recs - Z.max from base).
Proof.
  intros HR. unfold sort_keys. symmetry. apply (sort_by_unique id Z.le).
  - rewrite list_fmap_id. apply NoDup_filter, NoDup_fst_map_to_list.
  - apply NoDup_Permutation; [apply NoDup_seqZ|apply NoDup_filter, NoDup_fst_map_to_list|].
    intros x. rewrite elem_of_seqZ, list_elem_of_filter.
    rewrite list_elem_of_fmap.
    assert ((∃ y, x = y.1 ∧ y ∈ map_to_list (offsets s)) ↔ is_Some (offsets s !! x)) as ->.
    { split.
      - intros ([k v] & -> & Hy%elem_of_map_to_list). by eexists.
      - intros [v Hv]. exists (x, v). by rewrite elem_of_map_to_list. }
    rewrite (rep_dom _ _ _ _ HR). pose proof (rep_base _ _ _ _ HR). lia.
  - apply seqZ_sorted.
Qed.

(** What [ReadRange from max] selects from the list of records. *)
Definition range_spec (base : Z) (recs : list LogRecord) (from max : Z) : list LogRecord :=
  take (Z.to_nat (if max <=? 0 then 100 else max)) (drop (Z.to_nat (from - base)) recs).

Lemma ReadRange_keys base recs s w from max :
  seg_rep base recs s w →
  ∃ f, file w (LogPath s) = Some f
    ∧ (∀ i r, recs !! i = Some r → stored s f (base + Z.of_nat i) r)
    ∧ ReadRange s from max w =
      (let i := (Z.to_nat (from - base) `min` length recs)%nat in
       if decide (from <= base + zlen recs) then
       readKeys s (if max <=? 0 then 100 else max)
         (seqZ (base + Z.of_nat i) (Z.of_nat (length recs - i))) [] w
       else (Ok [], w)).
Proof.
  intros HR. destruct (rep_file _ _ _ _ HR) as (f & Hf & _ & Hst).
  exists f. split_and!; [done..|]. unfold ReadRange.
  rewrite (sorted_keys base recs s w from HR). simpl. unfold zlen. case_decide.
  - do 2 f_equal; lia.
  - rewrite seqZ_nil by lia. done.
Qed.

Lemma ReadRange_reads s from max w r w' q :
  ReadRange s from max w = (r, w') → w_nodes w' !! q = w_nodes w !! q.
Proof. unfold ReadRange. apply readKeys_reads. Qed.

Lemma ReadRange_ok base recs s from max w l w' :
  seg_rep base recs s w → ReadRange s from max w = (Ok l, w') →
  l = range_spec base recs from max.
Proof.
  intros HR. destruct (ReadRange_keys base recs s w from max HR) as (f & Hf & Hst & ->).
  unfold range_spec. pose proof (rep_pos _ _ _ _ HR). simpl. case_decide.
  - intros Hk. eapply readKeys_ok in Hk as ->; [|done..|lia|lia].
    simpl. change (zlen (@nil LogRecord)) with 0. rewrite Z.sub_0_r.
    f_equal. destruct (decide (Z.to_nat (from - base) ≤ length recs)%nat).
    + f_equal. lia.
    + rewrite !drop_ge by lia. done.
  - intros [= <- _]. unfold zlen in *. rewrite drop_ge by lia. by rewrite take_nil.
Qed.

Lemma ReadRange_reliable `{!Reliable E} base recs s from max w :
  seg_rep base recs s w →
  ∃ w', ReadRange s from max w = (Ok (range_spec base recs from max), w').
Proof.
  intros HR. destruct (ReadRange s from max w) as [r w'] eqn:Hr.
  assert (∃ l, r = Ok l) as [l ->].
  { revert Hr. destruct (ReadRange_keys base recs s w from max HR) as (f & Hf & Hst & ->).
    simpl. case_decide; [|intros [= <- _]; by eauto].
    destruct (readKeys_reliable base recs s (if max <=? 0 then 100 else max) f
      (length recs - Z.to_nat (from - base) `min` length recs)
      (Z.to_nat (from - base) `min` length recs) [] w) as (l & w1 & ->);
      [done|done|apply (rep_pos _ _ _ _ HR)|lia|].
    intros [= <- _]. by eauto. }
  exists w'. by rewrite (ReadRange_ok _ _ _ _ _ _ _ _ HR Hr).
Qed.
End reading.

(** ** Opening *)

Lemma fold_insert_list_to_map (l : list (Z * Z)) (m : gmap Z Z) :
  NoDup l.*1 → fold_left (λ m e, <[e.1 := e.2]> m) l m = list_to_map l ∪ m.
Proof.
  revert m. induction l as [|[k v] l IH]; intros m Hnd; cbn [fold_left].
  { by rewrite list_to_map_nil, map_empty_union. }
  apply NoDup_cons in Hnd as [Hk Hnd]. rewrite IH by done. simpl.
  rewrite <- insert_union_l, insert_union_r; [done|].
  by apply not_elem_of_list_to_map_1.
Qed.

Lemma sort_entries_perm l : sort_entries l ≡ₚ l.
Proof. apply sort_by_perm. Qed.

Lemma sort_entries_nodup (m : gmap Z Z) : NoDup (sort_entries (map_to_list m)).*1.
Proof. rewrite sort_entries_perm. apply NoDup_fst_map_to_list. Qed.

Lemma sort_entries_map (m : gmap Z Z) : list_to_map (sort_entries (map_to_list m)) = m.
Proof.
  rewrite (list_to_map_proper _ (map_to_list m)).
  - apply list_to_map_to_list.
  - apply sort_entries_nodup.
  - apply sort_entries_perm.
Qed.

Lemma sort_entries_ints m :
  map_ints m → Forall (λ p, int64 p.1 ∧ int64 p.2) (sort_entries (map_to_list m)).
Proof.
  intros Hm. rewrite sort_entries_perm. apply Forall_forall.
  intros [k v] Hkv%elem_of_map_to_list. by apply Hm.
Qed.

Lemma decode_index_image m :
  map_ints m → decodeEntries (index_image m) = sort_entries (map_to_list m).
Proof. intros Hm. apply decodeEntries_encode. by apply sort_entries_ints. Qed.

Lemma load_entries_offsets l s :
  offsets (fold_left load_entry l s) = fold_left (λ m e, <[e.1 := e.2]> m) l (offsets s).
Proof.
  revert s. induction l as [|[k v] l IH]; intros s; simpl; [done|].
  rewrite IH. unfold load_entry. by case_match.
Qed.

(** Loading the entries leaves everything but the index and the next offset. *)
Lemma load_entries_rest l s :
  let s' := fold_left load_entry l s in
  Path s' = Path s ∧ LogPath s' = LogPath s ∧ IndexPath s' = IndexPath s
  ∧ TimeIndex s' = TimeIndex s ∧ position s' = position s ∧ timeOffsets s' = timeOffsets s.
Proof.
  revert s. induction l as [|[k v] l IH]; intros s; cbn [fold_left]; [done|].
  destruct (IH (load_entry s (k, v))) as (H1 & H2 & H3 & H4 & H5 & H6).
  unfold load_entry in *. case_match; simpl in *; split_and!; congruence.
Qed.

Lemma load_entries_next l s n :
  l.*1 = seqZ (nextOffset s) n → nextOffset s + zlen l < 2 ^ 63 → - 2 ^ 63 <= nextOffset s →
  nextOffset (fold_left load_entry l s) = nextOffset s + zlen l.
Proof.
  revert s n. induction l as [|[k v] l IH]; intros s n Hl Hb Hb2; cbn [fold_left].
  { unfold zlen. simpl. lia. }
  rewrite zlen_cons in *. pose proof (zlen_nonneg l).
  destruct (decide (0 < n)); [|by rewrite seqZ_nil in Hl by lia].
  rewrite seqZ_cons in Hl by lia. injection Hl as Hk Hl. simpl in Hk.
  assert (nextOffset (load_entry s (k, v)) = nextOffset s + 1) as Hn.
  { unfold load_entry. simpl. rewrite Hk, Z.leb_refl. simpl.
    rewrite wrap64_id; [done|]. unfold int64. lia. }
  rewrite (IH _ (Z.pred n)); rewrite Hn; [lia| |lia|lia].
  by rewrite Z.add_1_r.
Qed.

Lemma load_times l s :
  fold_left load_time_entry l s
  = set_timeOffsets (fold_left (λ m e, <[e.1 := e.2]> m) l (timeOffsets s)) s.
Proof.
  revert s. induction l as [|[k v] l IH]; intros s; simpl; [by destruct s|]. by rewrite IH.
Qed.

Section opening.
Context {E : Env} {C : RecordCodec}.

(** The segment that a log of [size] bytes and two index files give. *)
Definition loaded (p : path) (start size : Z) (di dt : list byte) : Segment :=
  let seg := fold_left load_time_entry (decodeEntries dt)
    (fold_left load_entry (decodeEntries di)
      (MkSegment p (Join p "segment.log") (Join p "segment.index")
         (Join p "segment.timeindex") size start ∅ ∅)) in
  if nextOffset seg <? start then set_nextOffset start seg else seg.

Lemma loaded_paths p start size di dt :
  let s := loaded p start size di dt in
  seg_paths s ∧ Path s = p ∧ position s = size.
Proof.
  unfold loaded. rewrite load_times. cbn [nextOffset set_timeOffsets].
  set (s0 := MkSegment _ _ _ _ _ _ _ _).
  pose proof (load_entries_rest (decodeEntries di) s0) as (H1 & H2 & H3 & H4 & H5 & H6).
  by case_match; simpl; split_and!; try done; (split; simpl; [rewrite H1, H2|rewrite H1, H3|rewrite H1, H4]).
Qed.

Lemma MkdirAll_dir p w w' :
  p.2 ≠ [] → MkdirAll p w = (Ok tt, w') → w_nodes w' !! p = Some Dir.
Proof.
  unfold MkdirAll. case_bool_decide; [done|].
  destruct (env_fault (w_tick w)) as [[|]|]; try done. intros Hne [= <-].
  destruct p as [abs [|x r]]; simpl in *; [done|].
  rewrite reverse_cons. unfold add_dirs. rewrite fold_left_app. simpl.
  by rewrite lookup_insert_eq.
Qed.

Lemma Join_parent p x w :
  plain x = true → w_nodes w !! p = Some Dir → parent_ok w (Join p x) = true.
Proof.
  intros Hx Hp. rewrite Join_plain by done. unfold parent_ok. simpl.
  destruct p as [abs [|y r]]; [done|]. simpl in *. by rewrite Hp.
Qed.

Lemma loadIndexes_ok s w s' w' :
  loadIndexes s w = (Ok s', w') → is_Some (file w (IndexPath s)) →
  s' = fold_left load_time_entry (decodeEntries (default [] (file w (TimeIndex s))))
         (fold_left load_entry (decodeEntries (default [] (file w (IndexPath s)))) s)
  ∧ w_nodes w' = w_nodes w ∧ w_nodes w !! TimeIndex s ≠ Some Dir.
Proof.
  unfold loadIndexes. intros H [di Hdi].
  destruct (ReadFile (IndexPath s) w) as [ri w1] eqn:E1.
  apply ReadFile_inv in E1 as (-> & Hi & Hi').
  destruct ri as [d|e].
  2:{ destruct e; try done. specialize (Hi' eq_refl). unfold file in Hdi. by rewrite Hi' in Hdi. }
  rewrite (Hi d eq_refl) in *. injection Hdi as ->.
  pose proof (load_entries_rest (decodeEntries di) s) as (_ & _ & _ & HT & _).
  simpl in HT. rewrite HT in H.
  destruct (ReadFile (TimeIndex s) (tick w)) as [rt w2] eqn:E2.
  apply ReadFile_inv in E2 as (-> & Ht & Ht').
  destruct rt as [dt|e].
  - specialize (Ht dt eq_refl). rewrite file_tick in Ht. rewrite Ht. injection H as <- <-.
    split_and!; [done..|]. intros Hd. unfold file in Ht. by rewrite Hd in Ht.
  - destruct e; try done. specialize (Ht' eq_refl). simpl in Ht'. injection H as <- <-.
    unfold file at 1. rewrite Ht'. by split_and!.
Qed.

(** A successful open, inverted. *)
Lemma newSegment_ok p start w s w' :
  p.2 ≠ [] → newSegment p start w = (Ok s, w') →
  s = loaded p start (zlen (default [] (file w (Join p "segment.log"))))
        (default [] (file w (Join p "segment.index")))
        (default [] (file w (Join p "segment.timeindex")))
  ∧ file w' (Join p "segment.log") = Some (default [] (file w (Join p "segment.log")))
  ∧ file w' (Join p "segment.index") = Some (default [] (file w (Join p "segment.index")))
  ∧ (∀ q, q ≠ Join p "segment.log" → q ≠ Join p "segment.index" → file w' q = file w q)
  ∧ writable w' (Join p "segment.timeindex").
Proof.
  intros Hp. unfold newSegment. cbn [LogPath IndexPath TimeIndex set_position].
  destruct (MkdirAll p w) as [[[]|] w1] eqn:E1; [|done].
  assert (∀ q, file w1 q = file w q) as HF1 by (intros; by eapply MkdirAll_file).
  pose proof (MkdirAll_dir _ _ _ Hp E1) as HD1.
  destruct (OpenFile (Join p "segment.log") w1) as [[[]|] w2] eqn:E2; [|done].
  pose proof (OpenFile_only_writes _ _ _ _ E2) as HW2.
  destruct (StatSize _ w2) as [[size|] w3] eqn:E3; [|done].
  apply StatSize_inv in E3 as (-> & Hsz). destruct (Hsz size eq_refl) as (dl & Hdl & ->). clear Hsz.
  pose proof (OpenFile_file _ _ _ E2) as Hl2. rewrite Hl2 in Hdl. injection Hdl as <-.
  destruct (OpenFile (Join p "segment.index") (tick w2)) as [[[]|] w4] eqn:E4; [|done].
  pose proof (OpenFile_only_writes _ _ _ _ E4) as HW4.
  pose proof (OpenFile_file _ _ _ E4) as Hi4.
  assert (∀ q, q ≠ Join p "segment.log" → q ≠ Join p "segment.index" → file w4 q = file w q) as HF4.
  { intros q Hq1 Hq2. rewrite (only_writes_file _ _ _ q HW4) by congruence.
    rewrite file_tick, (only_writes_file _ _ _ q HW2) by congruence. apply HF1. }
  rewrite !Join_plain in * by done. rewrite !HF1 in *.
  rewrite file_tick, (only_writes_file _ _ _ _ HW2), HF1 in Hi4 by congruence.
  assert (file w4 (p.1, "segment.log"%string :: p.2)
          = Some (default [] (file w (p.1, "segment.log"%string :: p.2)))) as Hl4
    by (rewrite (only_writes_file _ _ _ _ HW4) by congruence; done).
  assert (w_nodes w4 !! p = Some Dir) as HD4.
  { eapply only_writes_dir; [exact HW4|]. by eapply (only_writes_dir (eq _) w1). }
  destruct (loadIndexes _ w4) as [[s5|] w5] eqn:E5; [|done]. intros [= <- <-].
  apply loadIndexes_ok in E5 as (-> & Hn5 & HT5); [|by eexists].
  cbn [IndexPath TimeIndex set_position] in *. rewrite Hi4, (HF4 (_, "segment.timeindex"%string :: _)) by congruence.
  assert (∀ q, file w5 q = file w4 q) as HF5 by (intros q; unfold file; by rewrite Hn5).
  split_and!; [done|by rewrite HF5|by rewrite HF5|intros; by rewrite HF5, HF4|].
  unfold writable. rewrite HF5. unfold file. rewrite Hn5.
  destruct (w_nodes w4 !! (p.1, "segment.timeindex"%string :: p.2)) as [[|]|]; [done|by left; eexists|].
  right. split; [done|]. rewrite <- Join_plain by done. apply Join_parent; [done|]. by rewrite Hn5.
Qed.
End opening.

(** ** Recovery *)

Lemma sort_entries_keys base recs (m : gmap Z Z) :
  0 <= base → (∀ off, is_Some (m !! off) ↔ base <= off < base + zlen recs) →
  (sort_entries (map_to_list m)).*1 = seqZ base (@zlen LogRecord recs).
Proof.
  intros Hb Hd.
  transitivity (sort_by id Z.le (map_to_list m).*1).
  - apply (sort_by_unique id Z.le).
    + rewrite list_fmap_id. apply NoDup_fst_map_to_list.
    + by rewrite sort_entries_perm.
    + pose proof (sort_by_sorted fst Z.le (map_to_list m)) as Hs.
      unfold sort_entries. induction Hs as [|x l Hs IH Hx]; simpl; constructor; [done|].
      apply Forall_fmap. exact Hx.
  - symmetry. apply (sort_by_unique id Z.le); [| |apply seqZ_sorted].
    + rewrite list_fmap_id. apply NoDup_fst_map_to_list.
    + apply NoDup_Permutation; [apply NoDup_seqZ|apply NoDup_fst_map_to_list|].
      intros x. rewrite elem_of_seqZ, list_elem_of_fmap, <- Hd. split.
      * intros [v Hv]. exists (x, v). by rewrite elem_of_map_to_list.
      * intros ([k v] & -> & Hy%elem_of_map_to_list). by eexists.
Qed.

Section recovery.
Context {E : Env} {C : RecordCodec}.

(** Loading the image of an index gives the index back. *)
Lemma loaded_image p base recs size m tm :
  0 <= base → base + zlen recs < 2 ^ 63 → map_ints m → map_ints tm →
  (∀ off, is_Some (m !! off) ↔ base <= off < base + zlen recs) →
  loaded p base size (index_image m) (index_image tm)
  = MkSegment p (Join p "segment.log") (Join p "segment.index") (Join p "segment.timeindex")
      size (base + @zlen LogRecord recs) m tm.
Proof.
  intros Hb Hb2 Hm Htm Hd. unfold loaded.
  rewrite !decode_index_image, load_times by done.
  set (s0 := MkSegment _ _ _ _ _ _ _ _).
  pose proof (load_entries_rest (sort_entries (map_to_list m)) s0) as (H1 & H2 & H3 & H4 & H5 & H6).
  pose proof (load_entries_offsets (sort_entries (map_to_list m)) s0) as H7.
  pose proof (sort_entries_keys base recs m Hb Hd) as Hk.
  assert (zlen (sort_entries (map_to_list m)) = zlen recs) as Hlen.
  { unfold zlen. rewrite <- (length_fmap fst), Hk, length_seqZ. unfold zlen. lia. }
  pose proof (load_entries_next (sort_entries (map_to_list m)) s0 (zlen recs)) as H8.
  simpl in H8. rewrite Hlen in H8. specialize (H8 Hk ltac:(lia) ltac:(lia)).
  rewrite fold_insert_list_to_map, sort_entries_map in H7 by apply sort_entries_nodup.
  rewrite fold_insert_list_to_map, sort_entries_map by apply sort_entries_nodup.
  destruct (fold_left load_entry _ s0) as [a1 a2 a3 a4 a5 a6 a7 a8]. simpl in *. subst.
  pose proof (zlen_nonneg recs). rewrite (proj2 (Z.ltb_ge _ _)) by lia.
  unfold set_timeOffsets. simpl. by rewrite !map_union_empty.
Qed.

(** Reopening a segment whose index files are in sync. *)
Lemma newSegment_recover base recs s w s' w' :
  seg_rep base recs s w → seg_paths s → (Path s).2 ≠ [] → index_synced s w →
  nextOffset s < 2 ^ 63 →
  (∀ f, file w (LogPath s) = Some f → zlen f < 2 ^ 63) →
  newSegment (Path s) base w = (Ok s', w') →
  seg_rep base recs s' w' ∧ offsets s' = offsets s ∧ timeOffsets s' = timeOffsets s
  ∧ nextOffset s' = nextOffset s ∧ seg_paths s' ∧ Path s' = Path s.
Proof.
  intros HR HP Hne [Hsi Hst [Hi1 Hi2]] Hn Hsize HS.
  apply newSegment_ok in HS as (-> & Hl & _ & _ & _); [|done].
  destruct (rep_file _ _ _ _ HR) as (f & Hf & Hlen & Hstored).
  rewrite <- !(paths_log _ HP), <- !(paths_index _ HP), <- !(paths_time _ HP) in *.
  rewrite Hsi, Hst, Hf in *. simpl. rewrite (rep_next _ _ _ _ HR) in Hn.
  rewrite (loaded_image _ base recs) by (try done; apply HR).
  specialize (Hsize f eq_refl).
  split_and!; simpl; try done.
  - destruct HR as [Hb Hpos Hnx Hd _]. split; simpl; try done.
    + unfold zlen in *. lia.
    + rewrite <- !(paths_log _ HP). exists f. split_and!; [done..|].
      intros i r Hi. destruct (Hstored i r Hi) as (pos & p & H1 & H2 & H3 & H4).
      exists pos, p. split_and!; try done. simpl. lia.
  - symmetry. apply HR.
Qed.

(** Opening a segment whose files are missing or empty. *)
Lemma newSegment_fresh base p w s w' :
  0 <= base < 2 ^ 63 → p.2 ≠ [] →
  default [] (file w (Join p "segment.log")) = [] →
  default [] (file w (Join p "segment.index")) = [] →
  default [] (file w (Join p "segment.timeindex")) = [] →
  newSegment p base w = (Ok s, w') →
  seg_rep base [] s w' ∧ seg_paths s ∧ Path s = p ∧ seg_open s w'
  ∧ offsets s = ∅ ∧ timeOffsets s = ∅ ∧ nextOffset s = base.
Proof.
  intros Hb Hp H1 H2 H3 HS. apply newSegment_ok in HS as (-> & Hl & Hi & _ & Hw); [|done].
  rewrite H1, H2, H3 in *.
  assert (loaded p base (zlen (@nil byte)) [] []
          = MkSegment p (Join p "segment.log") (Join p "segment.index")
              (Join p "segment.timeindex") 0 base ∅ ∅) as ->.
  { unfold loaded. simpl. by rewrite Z.ltb_irrefl. }
  split_and!; simpl; try done.
  - split; simpl; [lia|lia|unfold zlen; simpl; lia| |].
    + intros off. rewrite lookup_empty. change (zlen (@nil LogRecord)) with 0.
      split; [intros []%is_Some_None|lia].
    + exists []. split_and!; [done..|]. intros i r Hr. by rewrite lookup_nil in Hr.
  - split; simpl; [left; by eexists|done].
Qed.
End recovery.

(** * Properties *)

(** C1: whatever system calls fail, and wherever a write stops, [Append] either
    returns the next offset with the record at the end of the log and the index
    files in sync, or reports an error; an error leaves the segment and its
    records as they were, except a failure to persist the indexes, which leaves
    the record appended in memory and in the log file. *)
Theorem segment_append_outcomes `{E : Env, C : RecordCodec, !RecordCodecLaws}
    base recs s record w r s' w' :
  seg_rep base recs s w → seg_paths s → room s → json_storable record →
  map_ints (offsets s) → map_ints (timeOffsets s) →
  Append s record w = (r, s', w') → append_outcome base recs record s r s' w'.
Proof. apply Append_outcome. Qed.

Lemma seg0_facts :
  seg_rep (C := codec0) 0 [] seg0 wseg0 ∧ seg_paths seg0 ∧ Path seg0 = Join dir0 "orders"
  ∧ seg_open seg0 wseg0 ∧ offsets seg0 = ∅ ∧ timeOffsets seg0 = ∅ ∧ nextOffset seg0 = 0.
Proof.
  apply (newSegment_fresh (E := env0) (C := codec0) 0 (Join dir0 "orders") world0 seg0 wseg0);
    [lia|done|done|done|done|]. apply open0_ok.
Qed.

Lemma seg0_room : room seg0.
Proof. unfold room, maxPayload. simpl. lia. Qed.

Lemma map_ints_empty : map_ints ∅.
Proof. intros k v Hk. by rewrite lookup_empty in Hk. Qed.

Lemma segment_append_outcomes_witness :
  let '(r, s', w') := Append (E := env0) (C := codec0) seg0 rec0 wseg0 in
  r = Ok 0 ∧ append_outcome (C := codec0) 0 [] rec0 seg0 r s' w'.
Proof.
  destruct seg0_facts as (HR & HP & _).
  destruct (Append seg0 rec0 wseg0) as [[r s'] w'] eqn:HA. split.
  - assert ((Append (E := env0) (C := codec0) seg0 rec0 wseg0).1.1 = Ok 0) as H
      by (vm_compute; reflexivity). by rewrite HA in H.
  - apply (segment_append_outcomes (E := env0) (C := codec0) 0 [] seg0 rec0 wseg0);
      [exact HR|exact HP|apply seg0_room|apply rec0_storable|apply map_ints_empty
      |apply map_ints_empty|exact HA].
Defined.

(** When no system call fails, [Append] of a record that JSON can carry and
    that is not too large succeeds, returns the next offset, and afterwards a
    read of that offset returns the record and a read of every older offset
    returns what it returned before. *)
Theorem segment_append_then_read `{E : Env, C : RecordCodec, !RecordCodecLaws, !Reliable E}
    base recs s record w payload :
  seg_rep base recs s w → seg_paths s → room s → seg_open s w → json_storable record →
  map_ints (offsets s) → map_ints (timeOffsets s) →
  json_marshal record = Some payload → zlen payload <= maxPayload →
  ∃ s' w', Append s record w = (Ok (nextOffset s), s', w')
    ∧ (readByOffset s' (nextOffset s) w').1 = Ok record
    ∧ ∀ off, is_Some (offsets s !! off) →
        (readByOffset s' off w').1 = (readByOffset s off w).1.
Proof.
  intros HR HP Hroom Ho Hst Hi1 Hi2 HM HL.
  destruct (Append_reliable _ _ _ record _ payload HR HP Hroom Ho HM HL) as [w' HA].
  exists (pushed s record (zlen payload)), w'. split; [done|].
  destruct (Append_outcome _ _ _ _ _ _ _ _ HR HP Hroom Hst Hi1 Hi2 HA) as (Hoff & HR' & _).
  destruct (rep_file _ _ _ _ HR) as (f & Hf & _ & Hs).
  destruct (rep_file _ _ _ _ HR') as (f' & Hf' & _ & Hs').
  pose proof (rep_pos _ _ _ _ HR). pose proof (rep_pos _ _ _ _ HR').
  split.
  - rewrite (readByOffset_reliable _ f' _ record); [done| |done|lia].
    rewrite Hoff. apply Hs'. apply list_lookup_middle. done.
  - intros off Hoff'. apply (rep_dom _ _ _ _ HR) in Hoff'.
    destruct (lookup_lt_is_Some_2 recs (Z.to_nat (off - base))) as [r Hr].
    { unfold zlen in *. lia. }
    replace off with (base + Z.of_nat (Z.to_nat (off - base))) by lia.
    rewrite (readByOffset_reliable _ f' _ r); [|by apply Hs', lookup_app_l_Some|done|lia].
    rewrite (readByOffset_reliable _ f _ r); [done|by apply Hs|done|lia].
Qed.

Lemma segment_append_then_read_witness :
  ∃ s' w', Append (E := env0) (C := codec0) seg0 rec0 wseg0 = (Ok 0, s', w')
    ∧ (readByOffset (E := env0) (C := codec0) s' 0 w').1 = Ok rec0
    ∧ ∀ off, is_Some (offsets seg0 !! off) →
        (readByOffset (E := env0) (C := codec0) s' off w').1
        = (readByOffset (E := env0) (C := codec0) seg0 off wseg0).1.
Proof.
  destruct seg0_facts as (HR & HP & _ & Ho & _).
  eapply (segment_append_then_read (E := env0) (C := codec0) 0 [] seg0 rec0 wseg0);
    [exact HR|exact HP|apply seg0_room|exact Ho|apply rec0_storable|apply map_ints_empty
    |apply map_ints_empty|reflexivity|vm_compute; discriminate].
Defined.

(** C22: [ReadRange from max] returns exactly the records at the offsets from
    [from] on, in offset order, [max] of them at most (100 when [max <= 0]);
    faults can only turn the result into an error, and reading changes no
    file. *)
Theorem segment_readrange_exact `{E : Env, C : RecordCodec} base recs s from max w r w' :
  seg_rep base recs s w → ReadRange s from max w = (r, w') →
  (∀ q, file w' q = file w q)
  ∧ (∀ l, r = Ok l →
       l = take (Z.to_nat (if max <=? 0 then 100 else max)) (drop (Z.to_nat (from - base)) recs))
  ∧ (Reliable E → is_ok r = true).
Proof.
  intros HR HS. split_and!.
  - intros q. unfold file. by rewrite (ReadRange_reads _ _ _ _ _ _ _ HS).
  - intros l ->. by eapply ReadRange_ok.
  - intros Hrel. destruct (ReadRange_reliable base recs s from max w HR) as [w1 H1].
    rewrite HS in H1. by injection H1 as -> _.
Qed.

Lemma segment_readrange_exact_witness :
  let '(ra, s', w') := Append (E := env0) (C := codec0) seg0 rec0 wseg0 in
  ra = Ok 0 ∧ (ReadRange (E := env0) (C := codec0) s' 0 10 w').1 = Ok [rec0].
Proof.
  destruct seg0_facts as (HR & HP & _).
  destruct (Append (E := env0) (C := codec0) seg0 rec0 wseg0) as [[ra s'] w'] eqn:HA.
  assert (ra = Ok 0) as ->.
  { assert ((Append (E := env0) (C := codec0) seg0 rec0 wseg0).1.1 = Ok 0) as H
      by (vm_compute; reflexivity). by rewrite HA in H. }
  split; [reflexivity|].
  pose proof (Append_outcome (E := env0) (C := codec0) 0 [] seg0 rec0 wseg0 (Ok 0) s' w' HR HP seg0_room
    rec0_storable map_ints_empty map_ints_empty HA) as (_ & HR' & _).
  destruct (ReadRange (E := env0) (C := codec0) s' 0 10 w') as [r w''] eqn:HS.
  destruct (segment_readrange_exact (E := env0) (C := codec0) 0 [rec0] s' 0 10 w' r w'' HR' HS)
    as (_ & Hl & Hok).
  specialize (Hok env0_reliable). cbn [fst]. destruct r as [l|]; [|discriminate Hok].
  by rewrite (Hl l eq_refl).
Defined.

(** C5: reopening a segment after a successful append recovers it: the files
    give back the same offset and time indexes, the same next offset and the
    same records. *)
Theorem segment_reopen_recovers `{E : Env, C : RecordCodec, !RecordCodecLaws}
    base recs s record w off s' w' s'' w'' :
  seg_rep base recs s w → seg_paths s → (Path s).2 ≠ [] → room s → json_storable record →
  map_ints (offsets s) → map_ints (timeOffsets s) →
  Append s record w = (Ok off, s', w') →
  (∀ f, file w' (LogPath s) = Some f → zlen f < 2 ^ 63) →
  newSegment (Path s) base w' = (Ok s'', w'') →
  seg_rep base (recs ++ [record]) s'' w'' ∧ offsets s'' = offsets s'
  ∧ timeOffsets s'' = timeOffsets s' ∧ nextOffset s'' = nextOffset s'.
Proof.
  intros HR HP Hne Hroom Hst Hi1 Hi2 HA Hsz HN.
  destruct (Append_outcome _ _ _ _ _ _ _ _ HR HP Hroom Hst Hi1 Hi2 HA) as (-> & HR' & Hsync).
  destruct (Append_paths _ _ _ _ _ _ HA) as (Hp1 & Hp2 & Hp3 & Hp4).
  assert (seg_paths s') as HP' by (destruct HP; split; congruence).
  rewrite <- Hp1 in HN, Hne. rewrite <- Hp2 in Hsz.
  destruct (newSegment_recover base (recs ++ [record]) s' w' s'' w'') as (? & ? & ? & ? & _);
    try done.
  rewrite (rep_next _ _ _ _ HR'), zlen_app. destruct Hroom as [_ Hr].
  rewrite (rep_next _ _ _ _ HR) in Hr. change (zlen [record]) with 1. lia.
Qed.

Lemma segment_reopen_recovers_witness :
  ∃ s' w' s'' w'', Append (E := env0) (C := codec0) seg0 rec0 wseg0 = (Ok 0, s', w')
    ∧ newSegment (E := env0) (Path seg0) 0 w' = (Ok s'', w'')
    ∧ offsets s'' = offsets s' ∧ nextOffset s'' = 1.
Proof.
  destruct seg0_facts as (HR & HP & _).
  destruct (Append seg0 rec0 wseg0) as [[r s'] w'] eqn:HA.
  assert (r = Ok 0) as ->.
  { assert ((Append (E := env0) (C := codec0) seg0 rec0 wseg0).1.1 = Ok 0) as H
      by (vm_compute; reflexivity). by rewrite HA in H. }
  destruct (newSegment (E := env0) (Path seg0) 0 w') as [r2 w''] eqn:HS.
  assert (is_ok r2 = true) as Hok.
  { assert (is_ok (newSegment (E := env0) (Path seg0) 0
      (Append (E := env0) (C := codec0) seg0 rec0 wseg0).2).1 = true) as H by (vm_compute; reflexivity).
    rewrite HA in H. cbn [snd] in H. by rewrite HS in H. }
  destruct r2 as [s''|]; [|done]. exists s', w', s'', w''. split; [done|]. split; [done|].
  destruct (segment_reopen_recovers (E := env0) (C := codec0) 0 [] seg0 rec0 wseg0 0 s' w' s'' w'')
    as (HR2 & H1 & H2 & H3);
    [exact HR|exact HP|done|apply seg0_room|apply rec0_storable|apply map_ints_empty
    |apply map_ints_empty|exact HA| |exact HS|].
  - intros f Hf.
    assert (file (Append (E := env0) (C := codec0) seg0 rec0 wseg0).2 (LogPath seg0)
            = Some f) as Hf2 by (rewrite HA; exact Hf).
    vm_compute in Hf2. injection Hf2 as <-. reflexivity.
  - split; [done|]. rewrite (rep_next _ _ _ _ HR2). reflexivity.
Defined.
