(* ===== verification/ConsumerGroup.v ===== *)
(** * Consumer groups ([src/broker/consumer_group.go])

    The coordinator keeps, per group, the set of members and the partitions
    assigned to each.  The file models its four operations and the broker's
    wrappers, and proves the rebalance exact (which partitions each member
    gets), fair, and consistent under any sequence of joins, leaves and
    rebalances. *)

From S2P Require Import Prelude.

(** ** State *)

Record Coordinator := MkCoordinator {
  members : gmap string (gset string);
  assignments : gmap string (gmap string (list Z)) }.

Definition NewConsumerGroupCoordinator : Coordinator := MkCoordinator ∅ ∅.

(** Reading [m[k]] of a Go map of maps or sets: nil reads as empty. *)
Definition group_members (c : Coordinator) (group : string) : gset string :=
  default ∅ (members c !! group).
Definition group_assignments (c : Coordinator) (group : string) : gmap string (list Z) :=
  default ∅ (assignments c !! group).

(** ** Operations *)

Definition Join (group member : string) (c : Coordinator) : Coordinator :=
  let ms := match members c !! group with None => ∅ | Some ms => ms end in
  MkCoordinator (<[group := {[member]} ∪ ms]> (members c)) (assignments c).

Definition Leave (group member : string) (c : Coordinator) : Coordinator :=
  match members c !! group with
  | None => c
  | Some ms =>
      MkCoordinator (<[group := ms ∖ {[member]}]> (members c))
        (match assignments c !! group with
         | None => assignments c
         | Some a => <[group := delete member a]> (assignments c)
         end)
  end.

(** [members] in [Rebalance]: the group's members, sorted. *)
Definition sorted_members (c : Coordinator) (group : string) : list string :=
  sort_strings (elements (group_members c group)).

(** The loop body [m := members[p%len(members)]; a[m] = append(a[m], p)]. *)
Definition assign_partition (ms : list string) (a : gmap string (list Z)) (p : Z)
    : gmap string (list Z) :=
  match ms !! Z.to_nat (p mod zlen ms) with
  | Some m => <[m := default [] (a !! m) ++ [p]]> a
  | None => a
  end.

Definition Rebalance (group : string) (partitions : Z) (c : Coordinator) : Coordinator :=
  let ms := sorted_members c group in
  let a := match assignments c !! group with None => ∅ | Some a => a end in
  let a := fold_left (λ a m, <[m := []]> a) ms a in
  if decide (ms = []) then
    MkCoordinator (members c) (<[group := a]> (assignments c))
  else
    let a := fold_left (assign_partition ms) (seqZ 0 partitions) a in
    MkCoordinator (members c) (<[group := a]> (assignments c)).

(** A copy, so the caller cannot change the coordinator's lists. *)
Definition Assignment (group : string) (c : Coordinator) : gmap string (list Z) :=
  group_assignments c group.

(** * Specification *)

(** The partitions that the [i]-th of [k] members gets out of [n]. *)
Definition share (n k i : Z) : list Z := filter (λ p, p mod k = i) (seqZ 0 n).

(** The coordinator's operations as a transition system. *)
Inductive coord_step : Coordinator → Coordinator → Prop :=
  | step_join g m c : coord_step c (Join g m c)
  | step_leave g m c : coord_step c (Leave g m c)
  | step_rebalance g n c : coord_step c (Rebalance g n c).

Inductive coord_reachable : Coordinator → Prop :=
  | reach_init : coord_reachable NewConsumerGroupCoordinator
  | reach_step c c' : coord_reachable c → coord_step c c' → coord_reachable c'.

(** Only members hold partitions, and no partition has two owners. *)
Record coord_ok (c : Coordinator) : Prop := {
  ok_owner_member : ∀ g m l, group_assignments c g !! m = Some l → m ∈ group_members c g;
  ok_single_owner : ∀ g m1 m2 l1 l2 p,
    group_assignments c g !! m1 = Some l1 → group_assignments c g !! m2 = Some l2 →
    p ∈ l1 → p ∈ l2 → m1 = m2;
  ok_nodup : ∀ g m l, group_assignments c g !! m = Some l → NoDup l }.

(** * Lemmas *)

Lemma elem_of_sorted_members c g m : m ∈ sorted_members c g ↔ m ∈ group_members c g.
Proof. unfold sorted_members, sort_strings. by rewrite elem_of_sort_by, elem_of_elements. Qed.

Lemma sorted_members_nodup c g : NoDup (sorted_members c g).
Proof. unfold sorted_members, sort_strings. rewrite sort_by_perm. apply NoDup_elements. Qed.

Lemma sorted_members_sorted c g : StronglySorted String.le (sorted_members c g).
Proof.
  pose proof (sort_by_sorted id String.le (elements (group_members c g))) as H.
  unfold le_by in H. exact H.
Qed.

(** The members' lists are cleared, the others are kept. *)
Lemma clear_members_lookup ms (a : gmap string (list Z)) m :
  fold_left (λ a m, <[m := []]> a) ms a !! m = if decide (m ∈ ms) then Some [] else a !! m.
Proof.
  revert a. induction ms as [|x ms IH]; intros a; cbn [fold_left].
  { by rewrite decide_False by apply not_elem_of_nil. }
  rewrite IH. destruct (decide (m ∈ ms)).
  - by rewrite decide_True by set_solver.
  - destruct (decide (m = x)) as [->|Hne].
    + rewrite decide_True by set_solver. by rewrite lookup_insert_eq.
    + rewrite decide_False by set_solver. by rewrite lookup_insert_ne.
Qed.

Lemma seqZ_snoc n : 0 <= n → seqZ 0 (n + 1) = seqZ 0 n ++ [n].
Proof. intros H. by rewrite seqZ_app by lia. Qed.

Lemma share_snoc n k i :
  0 <= n → share (n + 1) k i = share n k i ++ (if decide (n mod k = i) then [n] else []).
Proof.
  intros Hn. unfold share. by rewrite seqZ_snoc, filter_app by done.
Qed.

(** The round-robin loop gives the [i]-th member its share. *)
Lemma assign_loop_lookup ms a n m :
  NoDup ms → (∀ x, x ∈ ms → a !! x = Some []) → 0 <= n →
  fold_left (assign_partition ms) (seqZ 0 n) a !! m =
    match list_find (eq m) ms with
    | Some (i, _) => Some (share n (zlen ms) (Z.of_nat i))
    | None => a !! m
    end.
Proof.
  intros Hnd Ha Hn. rewrite <- (Z2Nat.id n) by done. generalize (Z.to_nat n). clear n Hn.
  intros k. induction k as [|k IH].
  { simpl. destruct (list_find (eq m) ms) as [[i x]|] eqn:Hf; [|done].
    apply list_find_Some in Hf as (Hi & <- & _).
    rewrite Ha by (by eapply list_elem_of_lookup_2). done. }
  rewrite Nat2Z.inj_succ, <- Z.add_1_r, seqZ_snoc, fold_left_app by lia.
  cbn [fold_left]. set (b := fold_left _ _ a) in *.
  unfold assign_partition. set (j := Z.to_nat (Z.of_nat k mod zlen ms)).
  destruct (ms !! j) as [x|] eqn:Hj.
  2:{ apply lookup_ge_None in Hj. destruct ms as [|y ms]; [simpl; apply IH|].
      exfalso. unfold j, zlen in Hj.
      pose proof (Z.mod_pos_bound (Z.of_nat k) (Z.of_nat (length (y :: ms))) ltac:(simpl; lia)).
      lia. }
  assert (0 < zlen ms) as Hpos by (apply lookup_lt_Some in Hj; unfold zlen; lia).
  pose proof (Z.mod_pos_bound (Z.of_nat k) (zlen ms) Hpos) as Hmod.
  assert (list_find (eq x) ms = Some (j, x)) as Hfx.
  { apply list_find_Some. split_and!; [done|done|]. intros i y Hi Hij ->.
    pose proof (NoDup_lookup _ _ _ _ Hnd Hi Hj). lia. }
  destruct (decide (m = x)) as [->|Hne].
  - rewrite lookup_insert_eq, IH, Hfx. simpl. rewrite share_snoc by lia.
    rewrite decide_True by (unfold j; lia). done.
  - rewrite lookup_insert_ne by done. rewrite IH.
    destruct (list_find (eq m) ms) as [[i y]|] eqn:Hf; [|done].
    rewrite share_snoc by lia. rewrite decide_False, app_nil_r; [done|].
    intros Hi. apply list_find_Some in Hf as (Hiy & -> & _). apply Hne.
    assert (i = j) as -> by (unfold j; lia). congruence.
Qed.

Lemma seqZ_nonpos n : n <= 0 → seqZ 0 n = [].
Proof. intros. by apply seqZ_nil. Qed.

(** The assignment after a rebalance, member by member. *)
Lemma Rebalance_lookup group n c m :
  group_assignments (Rebalance group n c) group !! m =
    match list_find (eq m) (sorted_members c group) with
    | Some (i, _) => Some (share n (zlen (sorted_members c group)) (Z.of_nat i))
    | None => group_assignments c group !! m
    end.
Proof.
  unfold Rebalance, group_assignments. set (ms := sorted_members c group).
  set (a0 := match assignments c !! group with None => ∅ | Some a => a end).
  assert (a0 = default ∅ (assignments c !! group)) as Ha0 by done.
  set (a1 := fold_left (λ a m, <[m := []]> a) ms a0).
  assert (∀ x, a1 !! x = if decide (x ∈ ms) then Some [] else a0 !! x) as Ha1
    by apply clear_members_lookup.
  case_decide as Hms; cbn [assignments]; rewrite lookup_insert_eq; cbn [from_option id].
  - rewrite Hms. simpl. rewrite Ha1, Hms, decide_False by apply not_elem_of_nil. done.
  - destruct (decide (0 <= n)) as [Hn|Hn].
    + rewrite assign_loop_lookup; [|apply sorted_members_nodup| |done].
      * destruct (list_find (eq m) ms) as [[i y]|] eqn:Hf; [done|].
        rewrite Ha1, decide_False; [done|]. intros Hin.
        apply list_find_None in Hf. rewrite Forall_forall in Hf. by apply (Hf m).
      * intros x Hx. by rewrite Ha1, decide_True.
    + rewrite seqZ_nonpos by lia. cbn [fold_left]. rewrite Ha1.
      unfold share. rewrite seqZ_nonpos by lia.
      destruct (list_find (eq m) ms) as [[i y]|] eqn:Hf.
      * apply list_find_Some in Hf as (Hi & <- & _).
        rewrite decide_True by (by eapply list_elem_of_lookup_2). done.
      * rewrite decide_False; [done|]. intros Hin.
        apply list_find_None in Hf. rewrite Forall_forall in Hf. by apply (Hf m).
Qed.

Lemma Rebalance_members group n c g : group_members (Rebalance group n c) g = group_members c g.
Proof. unfold Rebalance, group_members. by case_decide. Qed.

Lemma Rebalance_other group n c g :
  g ≠ group → group_assignments (Rebalance group n c) g = group_assignments c g.
Proof.
  intros Hne. unfold Rebalance, group_assignments.
  case_decide; simpl; by rewrite lookup_insert_ne.
Qed.

Lemma list_find_member c group m :
  m ∈ group_members c group →
  ∃ i, list_find (eq m) (sorted_members c group) = Some (i, m)
     ∧ sorted_members c group !! i = Some m.
Proof.
  intros Hm. apply elem_of_sorted_members in Hm.
  destruct (list_find (eq m) (sorted_members c group)) as [[i y]|] eqn:Hf.
  - exists i. pose proof Hf as Hf2. apply list_find_Some in Hf2 as (Hi & -> & _). done.
  - apply list_find_None in Hf. rewrite Forall_forall in Hf. by destruct (Hf m).
Qed.

(** The size of a share. *)
Lemma share_length n k i :
  0 <= n → 0 <= i < k →
  zlen (share n k i) = n / k + (if decide (i < n mod k) then 1 else 0).
Proof.
  intros Hn Hi. rewrite <- (Z2Nat.id n) by done. generalize (Z.to_nat n). clear n Hn.
  intros m. induction m as [|m IH].
  { cbn [Z.of_nat]. rewrite Z.mod_0_l, Z.div_0_l, decide_False by lia. done. }
  rewrite Nat2Z.inj_succ, <- Z.add_1_r, share_snoc, zlen_app, IH by lia.
  set (n := Z.of_nat m) in *. assert (0 <= n) by lia.
  pose proof (Z.mod_pos_bound n k ltac:(lia)) as Hb.
  pose proof (Z.div_mod n k ltac:(lia)) as Hd.
  destruct (decide (n mod k = k - 1)) as [Hw|Hw].
  - assert ((n + 1) / k = n / k + 1 ∧ (n + 1) mod k = 0) as [-> ->].
    { split; [symmetry; apply Z.div_unique with 0|symmetry; apply Z.mod_unique with (n / k + 1)]; lia. }
    rewrite (decide_False (P := i < 0)) by lia.
    destruct (decide (n mod k = i)), (decide (i < n mod k)); unfold zlen; simpl; lia.
  - assert ((n + 1) / k = n / k ∧ (n + 1) mod k = n mod k + 1) as [-> ->].
    { split; [symmetry; apply Z.div_unique with (n mod k + 1)
             |symmetry; apply Z.mod_unique with (n / k)]; lia. }
    destruct (decide (n mod k = i)), (decide (i < n mod k)), (decide (i < n mod k + 1));
      unfold zlen; simpl; lia.
Qed.

Lemma elem_of_share p n k i : p ∈ share n k i ↔ p mod k = i ∧ 0 <= p < n.
Proof. unfold share. rewrite list_elem_of_filter, elem_of_seqZ. lia. Qed.

(** ** The invariant *)

Lemma coord_ok_init : coord_ok NewConsumerGroupCoordinator.
Proof.
  split; intros *; unfold group_assignments; simpl; rewrite lookup_empty; simpl;
    by rewrite lookup_empty.
Qed.

Lemma coord_ok_Join g m c : coord_ok c → coord_ok (Join g m c).
Proof.
  intros [H1 H2 H3]. split; [|apply H2|apply H3].
  intros g' m' l Hl. apply H1 in Hl. unfold group_members in *. simpl.
  destruct (decide (g = g')) as [<-|Hne].
  - rewrite lookup_insert_eq. simpl. destruct (members c !! g); set_solver.
  - by rewrite lookup_insert_ne.
Qed.

Lemma Leave_lookup g m c g' m' l :
  coord_ok c → group_assignments (Leave g m c) g' !! m' = Some l →
  group_assignments c g' !! m' = Some l ∧ (g' = g → m' ≠ m).
Proof.
  intros [H1 _ _]. unfold Leave, group_assignments.
  destruct (members c !! g) as [ms|] eqn:Hms.
  - simpl. destruct (assignments c !! g) as [a|] eqn:Ha.
    + destruct (decide (g = g')) as [<-|Hne].
      * rewrite lookup_insert_eq, Ha. simpl. rewrite lookup_delete_Some. naive_solver.
      * rewrite lookup_insert_ne by done. naive_solver.
    + intros Hl. split; [done|]. intros ->. rewrite Ha in Hl. simpl in Hl.
      by rewrite lookup_empty in Hl.
  - intros Hl. split; [done|]. intros ->. apply H1 in Hl.
    unfold group_members in Hl. rewrite Hms in Hl. set_solver.
Qed.

Lemma coord_ok_Leave g m c : coord_ok c → coord_ok (Leave g m c).
Proof.
  intros Hok. pose proof Hok as [H1 H2 H3]. split.
  - intros g' m' l Hl. apply Leave_lookup in Hl as [Hl Hne]; [|done].
    apply H1 in Hl. unfold group_members, Leave in *.
    destruct (members c !! g) as [ms|] eqn:Hms; [|done]. simpl.
    destruct (decide (g = g')) as [<-|?].
    + rewrite lookup_insert_eq. rewrite Hms in Hl. simpl in *. set_solver.
    + by rewrite lookup_insert_ne.
  - intros g' m1 m2 l1 l2 p Hl1 Hl2.
    apply Leave_lookup in Hl1 as [Hl1 _]; [|done]. apply Leave_lookup in Hl2 as [Hl2 _]; [|done].
    by eapply H2.
  - intros g' m' l Hl. apply Leave_lookup in Hl as [Hl _]; [|done]. by eapply H3.
Qed.

(** After a rebalance the owners are exactly the members. *)
Lemma Rebalance_owner g n c m l :
  coord_ok c → group_assignments (Rebalance g n c) g !! m = Some l →
  ∃ i, sorted_members c g !! i = Some m
     ∧ l = share n (zlen (sorted_members c g)) (Z.of_nat i).
Proof.
  intros [H1 _ _]. rewrite Rebalance_lookup.
  destruct (list_find (eq m) (sorted_members c g)) as [[i y]|] eqn:Hf.
  - intros [= <-]. exists i. by apply list_find_Some in Hf as (Hi & <- & _).
  - intros Hl. apply H1, elem_of_sorted_members in Hl.
    apply list_find_None in Hf. rewrite Forall_forall in Hf. by destruct (Hf m).
Qed.

Lemma coord_ok_Rebalance g n c : coord_ok c → coord_ok (Rebalance g n c).
Proof.
  intros Hok. pose proof Hok as [H1 H2 H3]. split.
  - intros g' m l. rewrite Rebalance_members. destruct (decide (g' = g)) as [->|Hne].
    + intros (i & Hi & _)%Rebalance_owner; [|done].
      apply elem_of_sorted_members. by eapply list_elem_of_lookup_2.
    + rewrite Rebalance_other by done. apply H1.
  - intros g' m1 m2 l1 l2 p. destruct (decide (g' = g)) as [->|Hne].
    + intros (i & Hi & ->)%Rebalance_owner (j & Hj & ->)%Rebalance_owner; [|done..].
      intros [Hp1 _]%elem_of_share [Hp2 _]%elem_of_share.
      assert (i = j) as -> by lia. congruence.
    + rewrite Rebalance_other by done. apply H2.
  - intros g' m l. destruct (decide (g' = g)) as [->|Hne].
    + intros (i & Hi & ->)%Rebalance_owner; [|done]. apply NoDup_filter, NoDup_seqZ.
    + rewrite Rebalance_other by done. apply H3.
Qed.
#[export] Hint Resolve coord_ok_init coord_ok_Join coord_ok_Leave coord_ok_Rebalance : streamflow.

Lemma coord_reachable_ok c : coord_reachable c → coord_ok c.
Proof. induction 1 as [|c c' _ IH Hs]; [|destruct Hs]; auto with streamflow. Qed.

(** * Properties *)

(** C11: [Rebalance] of a group that has members, in any reachable state, deals the
    partitions round robin to the members in the order of their names: member
    number [i] of the sorted list gets, in increasing order, exactly the
    partitions [p] in [0, partitions) with [p mod k = i], where [k] is the number
    of members.  So every partition belongs to exactly one current member, only
    members have an entry, and the loads of two members differ by at most one. *)
Theorem rebalance_partitions_fairly c group n :
  coord_reachable c → group_members c group ≠ ∅ → 0 <= n →
  let a := Assignment group (Rebalance group n c) in
  (∃ ms, StronglySorted String.le ms ∧ NoDup ms ∧ (∀ m, m ∈ ms ↔ m ∈ group_members c group)
     ∧ ∀ i m, ms !! i = Some m →
         a !! m = Some (filter (λ p, p mod zlen ms = Z.of_nat i) (seqZ 0 n)))
  ∧ (∀ p, 0 <= p < n → exists! m, ∃ l, a !! m = Some l ∧ p ∈ l)
  ∧ (∀ m, is_Some (a !! m) ↔ m ∈ group_members c group)
  ∧ (∀ m1 m2 l1 l2, a !! m1 = Some l1 → a !! m2 = Some l2 → zlen l1 <= zlen l2 + 1).
Proof.
  intros Hr Hne Hn a. apply coord_reachable_ok in Hr as Hok.
  pose proof (coord_ok_Rebalance group n c Hok) as [_ Huniq _].
  assert (0 < zlen (sorted_members c group)) as Hk.
  { apply set_choose_L in Hne as [m Hm]. apply elem_of_sorted_members in Hm.
    destruct (sorted_members c group); [by apply not_elem_of_nil in Hm|]. rewrite zlen_cons.
    pose proof (zlen_nonneg l). lia. }
  split_and!.
  - exists (sorted_members c group). split_and!;
      [apply sorted_members_sorted|apply sorted_members_nodup|intros m; apply elem_of_sorted_members|].
    intros i m Hi. unfold a, Assignment. rewrite Rebalance_lookup.
    destruct (list_find_member c group m) as (j & -> & Hj).
    { apply elem_of_sorted_members. by eapply list_elem_of_lookup_2. }
    by rewrite (NoDup_lookup _ _ _ _ (sorted_members_nodup c group) Hj Hi).
  - intros p Hp.
    pose proof (Z.mod_pos_bound p _ Hk) as Hb.
    destruct (lookup_lt_is_Some_2 (sorted_members c group)
      (Z.to_nat (p mod zlen (sorted_members c group)))) as [m Hm]; [unfold zlen in *; lia|].
    assert (m ∈ group_members c group) as Hmem
      by (apply elem_of_sorted_members; by eapply list_elem_of_lookup_2).
    destruct (list_find_member c group m Hmem) as (i & Hf & Hi).
    pose proof (NoDup_lookup _ _ _ _ (sorted_members_nodup c group) Hm Hi) as Hij.
    exists m. unfold unique. split.
    + unfold a, Assignment. rewrite Rebalance_lookup, Hf. eexists. split; [done|].
      apply elem_of_share. lia.
    + intros m' (l' & Hl' & Hp'). unfold a, Assignment in *.
      eapply (Huniq group m m'); [rewrite Rebalance_lookup, Hf; done|done| |done].
      apply elem_of_share. lia.
  - intros m. split.
    + intros [l (i & Hi & _)%Rebalance_owner]; [|done].
      apply elem_of_sorted_members. by eapply list_elem_of_lookup_2.
    + intros Hm. destruct (list_find_member c group m Hm) as (i & Hf & _).
      unfold a, Assignment. rewrite Rebalance_lookup, Hf. by eexists.
  - intros m1 m2 l1 l2 (i & Hi & ->)%Rebalance_owner (j & Hj & ->)%Rebalance_owner; [|done..].
    apply lookup_lt_Some in Hi, Hj.
    rewrite !share_length by (unfold zlen; lia). repeat case_decide; lia.
Qed.

Definition group0 : Coordinator := Join "g" "b" (Join "g" "a" NewConsumerGroupCoordinator).

Lemma rebalance_partitions_fairly_witness :
  exists! m, ∃ l, Assignment "g" (Rebalance "g" 4 group0) !! m = Some l ∧ 3 ∈ l.
Proof.
  apply (rebalance_partitions_fairly group0 "g" 4).
  - repeat (eapply reach_step; [|constructor]). constructor.
  - by vm_compute.
  - lia.
  - lia.
Defined.

(** C30: in every state reachable by joins, leaves and rebalances, only current
    members of a group hold partitions and no partition has two owners. *)
Theorem coordinator_invariant c : coord_reachable c → coord_ok c.
Proof. apply coord_reachable_ok. Qed.

Lemma coordinator_invariant_witness :
  coord_ok (Leave "g" "a" (Rebalance "g" 4 group0)).
Proof.
  apply coordinator_invariant. repeat (eapply reach_step; [|constructor]). constructor.
Defined.
