(* ===== verification/Broker.v ===== *)
(** * The broker ([src/broker/broker.go], [src/broker/types.go],
    the data of [src/broker/transactions.go])

    State and operations of [Broker]: topics over log segments, produce,
    consume, fetch, drain and committed consumer offsets.  Every operation holds
    the broker's mutex from start to end, so it is one function from a broker
    and a world to a result, a broker and a world. *)

From S2P Require Import Prelude Encoding OS Segment ConsumerGroup.

(** ** State *)

Record Topic := MkTopic {
  t_Name : string;
  t_Partition : Z;
  t_Dir : path;
  Segments : list Segment;
  NextOffset : Z }.

(** The [Status] strings "open", "committing", "committed" and "aborted". *)
Inductive TxStatus := TxOpen | TxCommitting | TxCommitted | TxAborted.

#[export] Instance TxStatus_eq_dec : EqDecision TxStatus.
Proof. solve_decision. Defined.

Record TxRecord := MkTxRecord {
  tr_Topic : string;
  tr_Key : list byte;
  tr_Value : list byte;
  tr_Headers : gmap string string }.

Record Transaction := MkTransaction {
  tx_ID : string;
  tx_ProducerID : string;
  tx_Epoch : Z;
  tx_Status : TxStatus;
  tx_CreatedAt : Z;
  tx_Records : list TxRecord }.

(** [drainingTill = None] is Go's zero [time.Time]. *)
Record Broker := MkBroker {
  b_dir : path;
  topics : gmap string Topic;
  drainingTill : option Z;
  producerSeq : gmap string Z;
  dedupCache : gmap string LogRecord;
  txState : gmap string Transaction;
  coordinator : Coordinator }.

Definition set_topics (m : gmap string Topic) (b : Broker) : Broker :=
  MkBroker (b_dir b) m (drainingTill b) (producerSeq b) (dedupCache b) (txState b) (coordinator b).
Definition set_drainingTill (t : option Z) (b : Broker) : Broker :=
  MkBroker (b_dir b) (topics b) t (producerSeq b) (dedupCache b) (txState b) (coordinator b).
Definition set_producerSeq (m : gmap string Z) (b : Broker) : Broker :=
  MkBroker (b_dir b) (topics b) (drainingTill b) m (dedupCache b) (txState b) (coordinator b).
Definition set_dedupCache (m : gmap string LogRecord) (b : Broker) : Broker :=
  MkBroker (b_dir b) (topics b) (drainingTill b) (producerSeq b) m (txState b) (coordinator b).
Definition set_txState (m : gmap string Transaction) (b : Broker) : Broker :=
  MkBroker (b_dir b) (topics b) (drainingTill b) (producerSeq b) (dedupCache b) m (coordinator b).
Definition set_coordinator (c : Coordinator) (b : Broker) : Broker :=
  MkBroker (b_dir b) (topics b) (drainingTill b) (producerSeq b) (dedupCache b) (txState b) c.

Definition with_segments (ss : list Segment) (t : Topic) : Topic :=
  MkTopic (t_Name t) (t_Partition t) (t_Dir t) ss (NextOffset t).
Definition with_next (n : Z) (t : Topic) : Topic :=
  MkTopic (t_Name t) (t_Partition t) (t_Dir t) (Segments t) n.
Definition with_offset (n : Z) (r : LogRecord) : LogRecord :=
  MkRecord (Key r) (Value r) (Headers r) (Timestamp r) n.

(** A copy of the map, nil when it is empty. *)
Definition cloneHeaders (headers : gmap string string) : gmap string string :=
  if decide (size headers = 0%nat) then ∅ else headers.

(** [topic.Segments[len(topic.Segments)-1]] replaced in place. *)
Definition set_last {A} (l : list A) (x : A) : list A := <[pred (length l) := x]> l.

Section operations.
Context {E : Env} {C : RecordCodec}.

(** ** Topics *)

Definition NewBroker (dir : path) (w : world) : res Broker * world :=
  match MkdirAll dir w with
  | (Err e, w) => (Err e, w)
  | (Ok _, w) => (Ok (MkBroker dir ∅ None ∅ ∅ ∅ NewConsumerGroupCoordinator), w)
  end.

Definition CreateTopic (name : string) (b : Broker) (w : world) : res Topic * Broker * world :=
  match topics b !! name with
  | Some t => (Ok t, b, w)
  | None =>
      let topicDir := OS.Join (b_dir b) name in
      match MkdirAll topicDir w with
      | (Err e, w) => (Err (ErrWrap "create topic dir" e), b, w)
      | (Ok _, w) =>
          let topic := MkTopic name 0 topicDir [] 0 in
          match newSegment (OS.Join topicDir "000000") 0 w with
          | (Err e, w) => (Err e, b, w)
          | (Ok seg, w) =>
              let topic := with_segments (Segments topic ++ [seg]) topic in
              (Ok topic, set_topics (<[name := topic]> (topics b)) b, w)
          end
      end
  end.

Definition ListTopics (b : Broker) : list string := sort_strings (map_to_list (topics b)).*1.

(** ** Draining *)

Definition isDrainingLocked (b : Broker) (w : world) : bool * world :=
  match drainingTill b with
  | None => (false, w)
  | Some till => let '(now, w) := time_now w in (negb (till <? now), w)
  end.

Definition Drain (d : Z) (b : Broker) (w : world) : Broker * world :=
  let '(now, w) := time_now w in (set_drainingTill (Some (now + d)) b, w).

Definition IsDraining (b : Broker) (w : world) : bool * world := isDrainingLocked b w.

(** ** Produce *)

Definition Produce (topicName : string) (key value : list byte) (headers : gmap string string)
    (b : Broker) (w : world) : res LogRecord * Broker * world :=
  let '(draining, w) := isDrainingLocked b w in
  if draining then (Err ErrDraining, b, w)
  else
    match topics b !! topicName with
    | None => (Err (ErrTopicNotFound topicName), b, w)
    | Some topic =>
        let '(now, w) := time_now w in
        let record := MkRecord key value (cloneHeaders headers) now (NextOffset topic) in
        match last (Segments topic) with
        | None => (Err (ErrMsg "index out of range"), b, w)
        | Some seg =>
            let '(r, seg, w) := Append seg record w in
            let topic := with_segments (set_last (Segments topic) seg) topic in
            match r with
            | Err e => (Err e, set_topics (<[topicName := topic]> (topics b)) b, w)
            | Ok offset =>
                let topic := with_next (wrap64 (offset + 1)) topic in
                (Ok (with_offset offset record),
                 set_topics (<[topicName := topic]> (topics b)) b, w)
            end
        end
    end.

(** ** Consume *)

(** The loop over the segments. *)
Fixpoint consumeSegments (segs : list Segment) (fromOffset max : Z) (result : list LogRecord)
    (w : world) : res (list LogRecord) * world :=
  match segs with
  | [] => (Ok result, w)
  | seg :: segs =>
      match ReadRange seg fromOffset (max - zlen result) w with
      | (Err e, w) => (Err e, w)
      | (Ok recs, w) =>
          let result := result ++ recs in
          if max <=? zlen result then (Ok result, w)
          else consumeSegments segs fromOffset max result w
      end
  end.

Definition Consume (topicName : string) (fromOffset max : Z) (b : Broker) (w : world)
    : res (list LogRecord) * world :=
  match topics b !! topicName with
  | None => (Err (ErrTopicNotFound topicName), w)
  | Some topic =>
      let max := if max <=? 0 then 100 else max in
      consumeSegments (Segments topic) fromOffset max [] w
  end.

(** The loop of [Fetch]; the records read so far are returned with the error.
    Each turn adds a record and the loop stops at [maxBytes] records, so
    [maxBytes] turns are enough fuel. *)
Fixpoint fetchLoop (fuel : nat) (topicName : string) (offset maxBytes : Z) (b : Broker)
    (acc : list LogRecord) (w : world) : list LogRecord * option error * world :=
  match fuel with
  | O => (acc, None, w)
  | S fuel =>
      match Consume topicName offset 1 b w with
      | (Err e, w) => (acc, Some e, w)
      | (Ok recs, w) =>
          match recs with
          | [] => (acc, None, w)
          | rec :: _ =>
              let acc := acc ++ [rec] in
              if maxBytes <=? zlen acc then (acc, None, w)
              else fetchLoop fuel topicName (wrap64 (offset + 1)) maxBytes b acc w
          end
      end
  end.

Definition Fetch (topicName : string) (fromOffset maxBytes : Z) (b : Broker) (w : world)
    : list LogRecord * option error * world :=
  let maxBytes := if maxBytes <=? 0 then 1024 * 1024 else maxBytes in
  fetchLoop (Z.to_nat maxBytes) topicName fromOffset maxBytes b [] w.

(** The file, position and length of a record's payload. *)
Fixpoint fetchRawSegments (segs : list Segment) (offset : Z) (w : world)
    : res (path * Z * Z) * world :=
  match segs with
  | [] => (Err (ErrOffsetNotFound offset), w)
  | seg :: segs =>
      match offsets seg !! offset with
      | None => fetchRawSegments segs offset w
      | Some pos =>
          match ReadAt (LogPath seg) 4 pos w with
          | (Err e, w) => (Err (ErrWrap "read payload length" e), w)
          | (Ok sizeBuf, w) => (Ok (LogPath seg, wrap64 (pos + 4), getUint32 sizeBuf), w)
          end
      end
  end.

Definition FetchRaw (topicName : string) (offset : Z) (b : Broker) (w : world)
    : res (path * Z * Z) * world :=
  match topics b !! topicName with
  | None => (Err (ErrTopicNotFound topicName), w)
  | Some topic => fetchRawSegments (Segments topic) offset w
  end.

(** ** Committed offsets *)

Definition offsetDir (b : Broker) (groupID : string) : path :=
  OS.Join (OS.Join (b_dir b) "groups") groupID.
Definition offsetPath (b : Broker) (topicName groupID : string) : path :=
  OS.Join (offsetDir b groupID) (topicName +:+ ".offset").

Definition CommitOffset (topicName groupID : string) (offset : Z) (b : Broker) (w : world)
    : res unit * world :=
  match MkdirAll (offsetDir b groupID) w with
  | (Err e, w) => (Err (ErrWrap "create group dir" e), w)
  | (Ok _, w) => WriteFile (offsetPath b topicName groupID) (sprintf_d offset) w
  end.

Definition LoadOffset (topicName groupID : string) (b : Broker) (w : world) : res Z * world :=
  match ReadFile (offsetPath b topicName groupID) w with
  | (Err e, w) => (Err e, w)
  | (Ok data, w) =>
      match sscanf_d data with
      | None => (Err (ErrMsg "expected integer"), w)
      | Some off => (Ok off, w)
      end
  end.

(** ** Consumer groups (the wrappers of [consumer_group.go]) *)

Definition JoinGroup (group member : string) (b : Broker) : Broker :=
  set_coordinator (ConsumerGroup.Join group member (coordinator b)) b.
Definition LeaveGroup (group member : string) (b : Broker) : Broker :=
  set_coordinator (Leave group member (coordinator b)) b.
Definition RebalanceGroup (group : string) (partitions : Z) (b : Broker) : Broker :=
  set_coordinator (Rebalance group partitions (coordinator b)) b.
Definition GroupAssignment (group : string) (b : Broker) : gmap string (list Z) :=
  Assignment group (coordinator b).
End operations.

(** * Specification

    A broker implements, per topic, an append-only list of records. *)

(** What holds of an open segment at any time. *)
Record seg_ready (s : Segment) (w : world) : Prop := {
  ready_paths : seg_paths s;
  ready_open : seg_open s w;
  ready_ints : map_ints (offsets s) ∧ map_ints (timeOffsets s) }.

Definition topicDir (dir : path) (name : string) : path := OS.Join dir name.

Section spec.
Context {E : Env} {C : RecordCodec}.

(** The codec can carry the record [Produce] builds from these arguments,
    whenever it is called and whatever its offset. *)
Definition storable (key value : list byte) (headers : gmap string string) : Prop :=
  ∀ n off, int64 off →
    json_storable (MkRecord key value (cloneHeaders headers) (env_clock n) off).

(** It also fits a frame. *)
Definition carriable (key value : list byte) (headers : gmap string string) : Prop :=
  storable key value headers ∧
  ∀ n off, int64 off → ∃ payload,
    json_marshal (MkRecord key value (cloneHeaders headers) (env_clock n) off) = Some payload
    ∧ zlen payload <= maxPayload.

(** The topic [name] of a broker at [dir] holds the records [recs]. *)
Record topic_rep (dir : path) (name : string) (recs : list LogRecord) (t : Topic) (w : world)
  : Prop := {
  topic_plain : plain name = true;
  topic_next : int64 (NextOffset t);
  topic_segment : ∃ seg, Segments t = [seg] ∧ seg_rep 0 recs seg w ∧ seg_ready seg w
    ∧ Path seg = OS.Join (OS.Join dir name) "000000" }.

(** The whole broker. *)
Record broker_rep (logs : gmap string (list LogRecord)) (b : Broker) (w : world) : Prop := {
  rep_names : ∀ name, is_Some (logs !! name) ↔ is_Some (topics b !! name);
  rep_topics : ∀ name recs t, logs !! name = Some recs → topics b !! name = Some t →
    topic_rep (b_dir b) name recs t w }.

(** The topic's counter agrees with its segment (it is what [Produce] writes
    into the stored record). *)
Definition topic_synced (t : Topic) : Prop :=
  ∀ seg, last (Segments t) = Some seg → NextOffset t = nextOffset seg.

(** The index files of the topic's segment are up to date. *)
Definition topic_indexed (t : Topic) (w : world) : Prop :=
  ∀ seg, last (Segments t) = Some seg → index_synced seg w.
End spec.

(** One more record of any size fits every counter of the topic. *)
Definition topic_room (t : Topic) : Prop := ∀ seg, last (Segments t) = Some seg → room seg.
