(* ===== verification/BrokerFacts.v ===== *)
(** * The broker: proofs

    Lemmas on [Broker.v]: the frame between the files of different topics, the
    outcome of every operation against the abstract logs, and the properties of
    produce, consume, fetch, drain and committed offsets. *)

From S2P Require Import Prelude Encoding OS Segment Samples SegmentFacts ConsumerGroup Broker.

(** ** Frames between topics *)

(** The names of the files of a segment. *)
Definition seg_names : list string := ["segment.log"; "segment.index"; "segment.timeindex"]%string.

Lemma seg_file_names dir name s q :
  plain name = true → seg_paths s → Path s = OS.Join (OS.Join dir name) "000000" →
  seg_file s q → ∃ x, x ∈ seg_names ∧ q = (dir.1, x :: "000000"%string :: name :: dir.2).
Proof.
  intros Hn [H1 H2 H3] HP. unfold seg_file. rewrite H1, H2, H3, HP.
  rewrite (Join_plain dir name) by done. rewrite !Join_plain by done. simpl.
  intros [->|[->| ->]]; eexists; (split; [|done]); unfold seg_names; set_solver.
Qed.

Lemma seg_file_shape dir name s q :
  plain name = true → seg_paths s → Path s = OS.Join (OS.Join dir name) "000000" →
  seg_file s q → ∃ x, q = (dir.1, x :: "000000"%string :: name :: dir.2).
Proof. intros H1 H2 H3 H4. destruct (seg_file_names _ _ _ _ H1 H2 H3 H4) as (x & _ & ->). eauto. Qed.

Lemma seg_ready_frame P s w w' : only_writes P w w' → seg_ready s w → seg_ready s w'.
Proof.
  intros HW [H1 [H2 H3] H4]. split; [done| |done].
  split; eauto using only_writes_writable.
Qed.

Section frames.
Context {E : Env} {C : RecordCodec}.

Lemma topic_rep_frame P dir name recs t w w' :
  topic_rep dir name recs t w → only_writes P w w' →
  (∀ x, ¬ P (dir.1, x :: "000000"%string :: name :: dir.2)) → topic_rep dir name recs t w'.
Proof.
  intros [Hp Hnx (seg & Hs & HR & Hready & HP)] HW HnP. split; [done|done|].
  exists seg. split_and!; try done; [|by eapply seg_ready_frame].
  eapply seg_rep_file; [|exact HR]. eapply only_writes_file; [exact HW|].
  destruct (seg_file_shape dir name seg (LogPath seg)) as [x ->]; [done|by apply Hready|done|by left|].
  apply HnP.
Qed.

(** Reads change no topic. *)
Lemma topic_rep_nodes dir name recs t w w' :
  (∀ q, w_nodes w' !! q = w_nodes w !! q) → topic_rep dir name recs t w → topic_rep dir name recs t w'.
Proof.
  intros Hn HT. eapply (topic_rep_frame (λ _, False)); [exact HT| |naive_solver].
  intros q. left. apply Hn.
Qed.

Lemma broker_rep_nodes logs b w w' :
  (∀ q, w_nodes w' !! q = w_nodes w !! q) → broker_rep logs b w → broker_rep logs b w'.
Proof. intros Hn [H1 H2]. split; [done|]. eauto using topic_rep_nodes. Qed.

(** Replacing one topic, when only its files were written. *)
Lemma broker_rep_update logs b w w' name recs t t' recs' P :
  broker_rep logs b w → topics b !! name = Some t → logs !! name = Some recs →
  only_writes P w w' → (∀ q, P q → ∃ x, q = ((b_dir b).1, x :: "000000"%string :: name :: (b_dir b).2)) →
  topic_rep (b_dir b) name recs' t' w' →
  broker_rep (<[name := recs']> logs) (set_topics (<[name := t']> (topics b)) b) w'.
Proof.
  intros [H1 H2] Ht Hl HW HP HT. split; simpl.
  - intros n. rewrite !lookup_insert. case_decide; [by rewrite ?is_Some_alt|apply H1].
  - intros n rs u. rewrite !lookup_insert. case_decide as Hn; [naive_solver|].
    intros Hrs Hu. eapply topic_rep_frame; [by eapply H2|exact HW|].
    intros x (y & Hy)%HP. simplify_eq.
Qed.
End frames.

(** ** Produce *)

Section produce.
Context {E : Env} {C : RecordCodec} {L : RecordCodecLaws}.

Lemma isDrainingLocked_nodes b w r w' q :
  isDrainingLocked b w = (r, w') → w_nodes w' !! q = w_nodes w !! q.
Proof. unfold isDrainingLocked, time_now. intros H. case_match; by simplify_eq. Qed.

(** The error of [segment.Append] when the record is in the log file and the
    index files could not be written: the one failure after which the record stays. *)
Definition persist_failed (e : error) : bool :=
  match e with ErrWrap ctx _ => bool_decide (ctx = "persist index"%string) | _ => false end.

(** What [Produce] did to the log of its topic. *)
Definition produce_outcome (logs : gmap string (list LogRecord)) (name : string)
    (key value : list byte) (headers : gmap string string) (b : Broker)
    (r : res LogRecord) (b' : Broker) (w' : world) : Prop :=
  match r with
  | Ok rec =>
      ∃ recs t, logs !! name = Some recs ∧ topics b !! name = Some t
        ∧ Offset rec = zlen recs ∧ Key rec = key ∧ Value rec = value
        ∧ Headers rec = cloneHeaders headers
        ∧ broker_rep (<[name := recs ++ [with_offset (NextOffset t) rec]]> logs) b' w'
        ∧ ∃ t', topics b' !! name = Some t' ∧ topic_synced t' ∧ NextOffset t' = zlen recs + 1
             ∧ topic_indexed t' w'
  | Err e =>
      if persist_failed e then
        ∃ recs rec, logs !! name = Some recs ∧ Key rec = key ∧ Value rec = value
          ∧ Headers rec = cloneHeaders headers ∧ broker_rep (<[name := recs ++ [rec]]> logs) b' w'
      else broker_rep logs b' w'
  end.

(** Either way of failing. *)
Lemma produce_failed logs name key value headers b e b' w' :
  produce_outcome logs name key value headers b (Err e) b' w' →
  broker_rep logs b' w'
  ∨ ∃ recs rec, logs !! name = Some recs ∧ broker_rep (<[name := recs ++ [rec]]> logs) b' w'.
Proof.
  simpl. destruct (persist_failed e); [|by left].
  intros (recs & rec & Hl & _ & _ & _ & HB). right. by exists recs, rec.
Qed.

Lemma broker_rep_topic logs b w name t :
  broker_rep logs b w → topics b !! name = Some t →
  ∃ recs, logs !! name = Some recs ∧ topic_rep (b_dir b) name recs t w.
Proof.
  intros [H1 H2] Ht. destruct (proj2 (H1 name)) as [recs Hr]; [by eexists|]. eauto.
Qed.

Lemma seg_ready_append s record w r s' w' base recs :
  seg_rep base recs s w → room s → json_storable record →
  seg_ready s w → Append s record w = (r, s', w') → seg_ready s' w'.
Proof.
  intros HR Hroom Hst [HP HO [HI1 HI2]] HA.
  pose proof (Append_only_writes _ _ _ _ _ _ HA) as HW.
  destruct (Append_paths _ _ _ _ _ _ HA) as (Hp1 & Hp2 & Hp3 & Hp4).
  split.
  - destruct HP. split; congruence.
  - destruct HO as [HO1 HO2]. split; [rewrite Hp3|rewrite Hp4]; eauto using only_writes_writable.
  - unfold Append in HA. destruct Hroom as [Hr1 Hr2].
    pose proof (rep_pos _ _ _ _ HR). pose proof (rep_base _ _ _ _ HR).
    pose proof (zlen_nonneg recs). pose proof (rep_next _ _ _ _ HR).
    assert (int64 (nextOffset s) ∧ int64 (position s)) as [Hn Hp] by (unfold int64; lia).
    repeat case_match; simplify_eq; try done;
      split; intros k v; simpl; intros [[<- <-]|[_ Hkv]]%lookup_insert_Some;
      auto using wrap64_int64.
Qed.

Lemma Produce_outcome logs name key value headers b w r b' w' :
  broker_rep logs b w →
  (∀ t, topics b !! name = Some t → topic_room t) →
  storable key value headers →
  Produce name key value headers b w = (r, b', w') →
  produce_outcome logs name key value headers b r b' w'.
Proof.
  intros HB Hroom Hst. unfold Produce.
  destruct (isDrainingLocked b w) as [dr w1] eqn:E1.
  assert (broker_rep logs b w1) as HB1.
  { eapply broker_rep_nodes; [|done]. intros q. by eapply isDrainingLocked_nodes. }
  destruct dr; [by intros [= <- <- <-]|].
  destruct (topics b !! name) as [t|] eqn:Ht; [|by intros [= <- <- <-]].
  destruct (broker_rep_topic _ _ _ _ _ HB1 Ht) as (recs & Hl & [Hplain Hnx (seg & Hseg & HR & Hready & HP)]).
  unfold time_now. cbn [w_tick]. set (now := env_clock _).
  set (record := MkRecord _ _ _ _ _).
  rewrite Hseg. cbn [last].
  assert (room seg) as Hrs by (eapply Hroom; [done|]; by rewrite Hseg).
  assert (seg_rep 0 recs seg (tick w1)) as HR1 by (eapply seg_rep_file; [|exact HR]; done).
  assert (seg_ready seg (tick w1)) as Hready1 by (eapply (seg_ready_frame (λ _, False)); [|done]; auto with streamflow).
  destruct (Append seg record (tick w1)) as [[ra seg'] w2] eqn:HA.
  pose proof (Append_only_writes _ _ _ _ _ _ HA) as HW.
  pose proof (seg_ready_append _ _ _ _ _ _ _ _ HR1 Hrs (Hst _ _ Hnx) Hready1 HA) as Hready2.
  destruct (Append_paths _ _ _ _ _ _ HA) as (Hp1 & _).
  pose proof (Append_outcome _ _ _ _ _ _ _ _ HR1 (ready_paths _ _ Hready1) Hrs (Hst _ _ Hnx)
    (proj1 (ready_ints _ _ Hready1)) (proj2 (ready_ints _ _ Hready1)) HA) as Hout.
  (* the broker after a segment update *)
  assert (∀ recs' t', Segments t' = [seg'] → int64 (NextOffset t') → seg_rep 0 recs' seg' w2 →
    broker_rep (<[name := recs']> logs) (set_topics (<[name := t']> (topics b)) b) w2) as Hupd.
  { intros recs' t' Ht' Hnx' HR2. eapply broker_rep_update; [exact HB1|done|done| | |].
    - eapply only_writes_trans; [|exact HW]. auto with streamflow.
    - intros q Hq. eapply seg_file_shape; [done|by apply Hready|done|done].
    - split; [done|done|]. exists seg'. by rewrite Hp1. }
  cbn [set_last length Nat.pred insert list_insert].
  destruct ra as [off|e].
  - intros [= <- <- <-]. destruct Hout as (Hoff & HR2 & Hsync). rewrite Z.add_0_l in Hoff. subst off.
    exists recs, t. split_and!; try done.
    + cbn. apply Hupd; [done|apply wrap64_int64|done].
    + eexists. split; [simpl; by rewrite lookup_insert_eq|]. destruct Hrs as [_ Hr].
      rewrite (rep_next _ _ _ _ HR1) in Hr. pose proof (zlen_nonneg recs).
      rewrite wrap64_id by (unfold int64; lia). split; [|split; [done|by intros s'' [= <-]]].
      intros s'' [= <-]. simpl. rewrite (rep_next _ _ _ _ HR2), zlen_app. done.
  - intros [= <- <- <-]. simpl.
    assert (seg_rep 0 (if persist_failed e then recs ++ [record] else recs) seg' w2) as HR2.
    { destruct e; simpl in Hout |- *; try apply Hout.
      case_decide; [by rewrite bool_decide_true|rewrite bool_decide_false by done; apply Hout]. }
    destruct (persist_failed e).
    + exists recs, record. split_and!; try done. by apply Hupd.
    + rewrite <- (insert_id logs name recs) by done. by apply Hupd.
Qed.
End produce.

(** ** Produce without faults *)

Section produce_reliable.
Context {E : Env} {C : RecordCodec} {L : RecordCodecLaws} {HRel : Reliable E}.

Lemma Produce_reliable logs name key value headers b w t :
  broker_rep logs b w → topics b !! name = Some t → topic_room t →
  carriable key value headers → (isDrainingLocked b w).1 = false →
  ∃ rec b' w', Produce name key value headers b w = (Ok rec, b', w').
Proof.
  intros HB Ht Hroom Hc Hd. unfold Produce.
  destruct (isDrainingLocked b w) as [dr w1] eqn:E1. simpl in Hd. subst dr. rewrite Ht.
  assert (broker_rep logs b w1) as HB1.
  { eapply broker_rep_nodes; [|done]. intros q. by eapply isDrainingLocked_nodes. }
  destruct (broker_rep_topic _ _ _ _ _ HB1 Ht) as (recs & Hl & [Hplain Hnx (seg & Hseg & HR & Hready & HP)]).
  unfold time_now. set (record := MkRecord _ _ _ _ _). rewrite Hseg. cbn [last].
  destruct (proj2 Hc (w_tick w1) (NextOffset t) Hnx) as (payload & HM & HL).
  destruct (Append_reliable 0 recs seg record (tick w1) payload) as [w2 HA]; try done.
  - eapply seg_rep_file; [|exact HR]. done.
  - apply Hready.
  - eapply Hroom. by rewrite Hseg.
  - destruct Hready as [_ [Ho1 Ho2] _]. split; eapply (only_writes_writable (λ _, False)); eauto with streamflow.
  - rewrite HA. eauto.
Qed.
End produce_reliable.

(** ** Consume and Fetch *)

Section consume.
Context {E : Env} {C : RecordCodec}.

Definition page (max : Z) : nat := Z.to_nat (if max <=? 0 then 100 else max).

Lemma Consume_nodes name from max b w r w' q :
  Consume name from max b w = (r, w') → w_nodes w' !! q = w_nodes w !! q.
Proof.
  unfold Consume. destruct (topics b !! name) as [t|]; [|by intros [= _ <-]].
  generalize (if max <=? 0 then 100 else max) as mx. intros mx.
  generalize (@nil LogRecord) as acc. revert w.
  induction (Segments t) as [|s ss IH]; intros w acc; simpl; [by intros [= _ <-]|].
  destruct (ReadRange s from _ w) as [[l|e] w1] eqn:E1.
  - pose proof (ReadRange_reads _ _ _ _ _ _ q E1). case_match.
    + by intros [= _ <-].
    + intros H'. rewrite (IH _ _ H'). done.
  - intros [= _ <-]. by eapply ReadRange_reads.
Qed.

Lemma Consume_ok logs name recs from max b w l w' :
  broker_rep logs b w → logs !! name = Some recs →
  Consume name from max b w = (Ok l, w') →
  l = take (page max) (drop (Z.to_nat from) recs).
Proof.
  intros HB Hl. unfold Consume.
  destruct (topics b !! name) as [t|] eqn:Ht; [|done].
  destruct (rep_topics _ _ _ HB _ _ _ Hl Ht) as [_ _ (seg & Hseg & HR & _)].
  rewrite Hseg. cbn [consumeSegments]. change (zlen (@nil LogRecord)) with 0.
  rewrite Z.sub_0_r. unfold page. set (mx := if max <=? 0 then 100 else max).
  assert (0 < mx) as Hmx by (unfold mx; destruct (max <=? 0) eqn:?; bool_prop; lia).
  destruct (ReadRange seg from mx w) as [[l1|e] w1] eqn:E1; [|done].
  apply (ReadRange_ok 0 recs) in E1; [|done]. unfold range_spec in E1.
  rewrite (proj2 (Z.leb_gt _ _)), Z.sub_0_r in E1 by lia.
  simpl. by case_match; intros [= <- _].
Qed.

Lemma Consume_reliable `{!Reliable E} logs name recs from max b w :
  broker_rep logs b w → logs !! name = Some recs →
  ∃ w', Consume name from max b w = (Ok (take (page max) (drop (Z.to_nat from) recs)), w').
Proof.
  intros HB Hl. destruct (Consume name from max b w) as [r w'] eqn:HC.
  assert (∃ l, r = Ok l) as [l ->].
  { revert HC. unfold Consume.
    destruct (proj1 (rep_names _ _ _ HB name)) as [t Ht]; [by eexists|]. rewrite Ht.
    destruct (rep_topics _ _ _ HB _ _ _ Hl Ht) as [_ _ (seg & Hseg & HR & _)].
    rewrite Hseg. cbn [consumeSegments].
    edestruct (ReadRange_reliable 0 recs seg from) as [w1 ->]; [done|].
    case_match; intros [= <- _]; eauto. }
  exists w'. by rewrite (Consume_ok _ _ _ _ _ _ _ _ _ HB Hl HC).
Qed.

(** What reading one record at each offset from [off] on gives: a read at a
    negative offset starts at the first record. *)
Definition fetched (recs : list LogRecord) (off : Z) : list LogRecord :=
  match recs with
  | [] => []
  | r0 :: _ => replicate (Z.to_nat (- off)) r0 ++ drop (Z.to_nat off) recs
  end.

Lemma fetched_from recs off : 0 <= off → fetched recs off = drop (Z.to_nat off) recs.
Proof.
  intros H. destruct recs as [|r0 recs]; [by rewrite drop_nil|]. simpl fetched.
  by replace (Z.to_nat (- off)) with 0%nat by lia.
Qed.

Lemma fetched_step recs off :
  fetched recs off = match drop (Z.to_nat off) recs with [] => [] | r :: _ => r :: fetched recs (off + 1) end.
Proof.
  destruct (decide (0 <= off)) as [H|H].
  - rewrite !fetched_from by lia. destruct (drop (Z.to_nat off) recs) as [|r rest] eqn:Hd; [done|].
    replace (Z.to_nat (off + 1)) with (Z.to_nat off + 1)%nat by lia. by rewrite <- drop_drop, Hd.
  - destruct recs as [|r0 recs]; [by rewrite drop_nil|].
    replace (Z.to_nat off) with 0%nat by lia. cbn [drop fetched].
    replace (Z.to_nat off) with 0%nat by lia. replace (Z.to_nat (off + 1)) with 0%nat by lia.
    by replace (Z.to_nat (- off)) with (S (Z.to_nat (- (off + 1)))) by lia.
Qed.

Lemma fetchLoop_reliable `{!Reliable E} logs name recs b mb fuel off acc w :
  broker_rep logs b w → logs !! name = Some recs →
  - 2 ^ 63 <= off → off + Z.of_nat fuel < 2 ^ 63 → mb - zlen acc = Z.of_nat fuel →
  ∃ w', fetchLoop fuel name off mb b acc w = (acc ++ take fuel (fetched recs off), None, w').
Proof.
  intros HB Hl. revert off acc w HB.
  induction fuel as [|fuel IH]; intros off acc w HB Hoff Hb Hf; cbn [fetchLoop].
  { exists w. by rewrite take_0, app_nil_r. }
  destruct (Consume_reliable logs name recs off 1 b w HB Hl) as [w1 HC]. rewrite HC.
  change (page 1) with 1%nat. rewrite (fetched_step recs off).
  destruct (drop (Z.to_nat off) recs) as [|r rest] eqn:Hd.
  { exists w1. by rewrite app_nil_r. }
  cbn [take]. rewrite zlen_app. change (zlen [r]) with 1.
  destruct (mb <=? zlen acc + 1) eqn:Hm; bool_prop.
  - exists w1. replace fuel with 0%nat by lia. done.
  - rewrite wrap64_id by (unfold int64; lia).
    destruct (IH (off + 1) (acc ++ [r]) w1) as [w2 ->].
    + eapply broker_rep_nodes; [|done]. intros q. by eapply Consume_nodes.
    + lia.
    + lia.
    + rewrite zlen_app. change (zlen [r]) with 1. lia.
    + exists w2. by rewrite <- app_assoc.
Qed.
End consume.

(** ** Raw fetch *)

Section fetch_raw.
Context {E : Env} {C : RecordCodec}.

(** The file range [FetchRaw] hands to the zero-copy path is the payload of the
    record at that offset. *)
Lemma FetchRaw_payload logs name recs off r b w p pos len w' :
  broker_rep logs b w → logs !! name = Some recs →
  recs !! Z.to_nat off = Some r → 0 <= off →
  FetchRaw name off b w = (Ok (p, pos, len), w') →
  ∃ f, file w p = Some f ∧ 0 <= pos ∧ pos + len <= zlen f
    ∧ json_unmarshal (slice f (Z.to_nat pos) (Z.to_nat len)) = Some r.
Proof.
  intros HB Hl Hr Hoff. unfold FetchRaw.
  destruct (topics b !! name) as [t|] eqn:Ht; [|done].
  destruct (rep_topics _ _ _ HB _ _ _ Hl Ht) as [_ _ (seg & Hseg & HR & _)].
  rewrite Hseg. cbn [fetchRawSegments].
  destruct (rep_file _ _ _ _ HR) as (f & Hf & Hlen & Hst).
  destruct (Hst _ _ Hr) as (pos0 & payload & Ho & (H0 & Hm & Hl' & Hs1 & Hs2) & Hp & Hu).
  rewrite Z.add_0_l, Z2Nat.id in Ho by done. rewrite Ho.
  pose proof (rep_pos _ _ _ _ HR). pose proof (zlen_nonneg payload).
  destruct (ReadAt (LogPath seg) 4 pos0 w) as [[sz|e] w1] eqn:E1; [|done].
  apply ReadAt_ok in E1 as (f1 & Hf1 & -> & _). simplify_eq.
  change (Z.to_nat 4) with 4%nat. rewrite Hs1.
  rewrite <- (app_nil_r (putUint32 _)), getUint32_putUint32_small by (unfold maxPayload in *; lia).
  rewrite wrap64_id by (unfold int64; lia).
  intros [= <- <- <- <-]. exists f. split_and!; [done|lia|lia|].
  unfold zlen. by rewrite Nat2Z.id, Hs2.
Qed.

Lemma FetchRaw_reliable `{!Reliable E} logs name recs off r b w :
  broker_rep logs b w → logs !! name = Some recs →
  recs !! Z.to_nat off = Some r → 0 <= off →
  ∃ p pos len w', FetchRaw name off b w = (Ok (p, pos, len), w').
Proof.
  intros HB Hl Hr Hoff. unfold FetchRaw.
  destruct (proj1 (rep_names _ _ _ HB name)) as [t Ht]; [by eexists|]. rewrite Ht.
  destruct (rep_topics _ _ _ HB _ _ _ Hl Ht) as [_ _ (seg & Hseg & HR & _)].
  rewrite Hseg. cbn [fetchRawSegments].
  destruct (rep_file _ _ _ _ HR) as (f & Hf & Hlen & Hst).
  destruct (Hst _ _ Hr) as (pos0 & payload & Ho & (H0 & Hm & Hl' & _) & _).
  rewrite Z.add_0_l, Z2Nat.id in Ho by done. rewrite Ho. pose proof (zlen_nonneg payload).
  rewrite (ReadAt_slice _ _ _ _ f) by (done || lia || apply reliable). eauto.
Qed.
End fetch_raw.

(** ** Committed offsets *)

Lemma has_char_app c s t : has_char c (s +:+ t) = has_char c s || has_char c t.
Proof. induction s as [|a s IH]; [done|]. simpl. by rewrite IH, orb_assoc. Qed.

Lemma string_length_app (a b : string) :
  String.length (a +:+ b) = (String.length a + String.length b)%nat.
Proof. induction a as [|c a IH]; [done|]. simpl. by rewrite IH. Qed.

Lemma string_app_inv_tail x s t : s +:+ x = t +:+ x → s = t.
Proof.
  revert t. induction s as [|a s IH]; intros [|b t] H; [done| | |].
  - apply (f_equal String.length) in H. rewrite !string_length_app in H. simpl in H. lia.
  - apply (f_equal String.length) in H. rewrite !string_length_app in H. simpl in H. lia.
  - simpl in H. injection H as -> H. by rewrite (IH t).
Qed.

Lemma plain_offset_file t : plain t = true → plain (t +:+ ".offset") = true.
Proof.
  unfold plain. intros H. bool_prop.
  repeat match goal with H : negb _ = true |- _ => apply negb_true_iff in H end. bool_prop.
  rewrite has_char_app. match goal with H : has_char _ _ = false |- _ => rewrite H end.
  rewrite !bool_decide_eq_false_2; [done|..]; intros Heq;
    apply (f_equal String.length) in Heq; rewrite string_length_app in Heq; simpl in Heq; lia.
Qed.

Section committed_offsets.
Context {E : Env}.

Lemma offsetPath_plain b t g :
  plain t = true → plain g = true →
  offsetPath b t g = ((b_dir b).1, (t +:+ ".offset") :: g :: "groups"%string :: (b_dir b).2).
Proof.
  intros Ht Hg. unfold offsetPath, offsetDir.
  rewrite (Join_plain (b_dir b)) by done. rewrite (Join_plain _ g) by done.
  by rewrite Join_plain by (by apply plain_offset_file).
Qed.

Lemma CommitOffset_file b t g off w w' :
  CommitOffset t g off b w = (Ok tt, w') → file w' (offsetPath b t g) = Some (sprintf_d off).
Proof.
  unfold CommitOffset. destruct (MkdirAll _ w) as [[[]|] w1]; [|done]. apply WriteFile_ok.
Qed.

Lemma CommitOffset_frame b t g off w r w' q :
  CommitOffset t g off b w = (r, w') → q ≠ offsetPath b t g → file w' q = file w q.
Proof.
  unfold CommitOffset. destruct (MkdirAll _ w) as [[[]|] w1] eqn:E1.
  - intros H Hq. rewrite (WriteFile_file_ne _ _ _ _ _ _ H) by done. by eapply MkdirAll_file.
  - intros [= _ <-] _. by eapply MkdirAll_file.
Qed.

Lemma LoadOffset_file b t g off w :
  Reliable E → int64 off → file w (offsetPath b t g) = Some (sprintf_d off) →
  (LoadOffset t g b w).1 = Ok off.
Proof.
  intros HRel Hoff Hf. unfold LoadOffset, ReadFile, file in *. rewrite reliable.
  destruct (w_nodes w !! offsetPath b t g) as [[|d]|]; try done. injection Hf as ->.
  by rewrite sscanf_sprintf.
Qed.
End committed_offsets.

(** ** Creating topics *)

Section create.
Context {E : Env} {C : RecordCodec}.

(** Making directories keeps deeper paths writable. *)
Lemma MkdirAll_writable p w r w' q :
  MkdirAll p w = (r, w') → (length p.2 < length q.2)%nat → writable w q → writable w' q.
Proof.
  intros HM Hlt Hw.
  assert (∃ ds : list (list string), (∀ d, d ∈ ds → d ∈ suffixes p.2)
          ∧ ∀ x, w_nodes w' !! x = if decide (x.1 = p.1 ∧ x.2 ∈ ds) then Some Dir else w_nodes w !! x)
    as (ds & Hds & Hx).
  { revert HM. unfold MkdirAll. case_bool_decide.
    { intros [= _ <-]. exists []. split; [by intros ? []%not_elem_of_nil|].
      intros x. by rewrite decide_False by (intros [_ []%not_elem_of_nil]). }
    destruct (env_fault _) as [[|k]|]; intros [= _ <-].
    - exists []. split; [by intros ? []%not_elem_of_nil|].
      intros x. by rewrite decide_False by (intros [_ []%not_elem_of_nil]).
    - exists (take k (reverse (suffixes p.2))). split; [|intros x; by rewrite add_dirs_lookup].
      intros d Hd%elem_of_take. destruct Hd as (i & Hd & _).
      apply elem_of_reverse. by eapply list_elem_of_lookup_2.
    - exists (reverse (suffixes p.2)). split; [|intros x; by rewrite add_dirs_lookup].
      intros d Hd. by apply elem_of_reverse. }
  destruct Hw as [Hf|[Hn Hp]].
  - left. by rewrite (MkdirAll_file _ _ _ _ _ HM).
  - right. split.
    + rewrite Hx, decide_False; [done|]. intros [_ Hin%Hds%suffixes_length]. lia.
    + unfold parent_ok in *. destruct (q.2) as [|y [|z rest]]; try done.
      rewrite Hx. by case_decide.
Qed.

Lemma loadIndexes_nodes s w r w' : loadIndexes s w = (r, w') → w_nodes w' = w_nodes w.
Proof.
  unfold loadIndexes. repeat (let E := fresh in destruct (ReadFile _ _) as [? ?] eqn:E;
    apply ReadFile_inv in E as [-> _]; repeat case_match); intros; by simplify_eq.
Qed.

Lemma newSegment_frame p start w r w' :
  newSegment p start w = (r, w') →
  (∀ q, q ≠ OS.Join p "segment.log" → q ≠ OS.Join p "segment.index" → file w' q = file w q)
  ∧ (∀ q, (length p.2 < length q.2)%nat → writable w q → writable w' q).
Proof.
  unfold newSegment. cbn [LogPath IndexPath set_position].
  destruct (MkdirAll p w) as [[[]|] w1] eqn:E1.
  2:{ intros [= _ <-]. split; [intros; by eapply MkdirAll_file|intros; by eapply MkdirAll_writable]. }
  assert (∀ q, file w1 q = file w q) as HF1 by (intros; by eapply MkdirAll_file).
  assert (∀ q, (length p.2 < length q.2)%nat → writable w q → writable w1 q) as HW1
    by (intros; by eapply MkdirAll_writable).
  (* everything after the directory only writes the two files *)
  intros H.
  set (Q := λ q, q = OS.Join p "segment.log" ∨ q = OS.Join p "segment.index").
  assert (only_writes Q w1 w') as HO.
  { destruct (OpenFile (OS.Join p "segment.log") w1) as [r2 w2] eqn:E2.
    apply OpenFile_only_writes in E2.
    assert (only_writes Q w1 w2) as H2
      by (eapply only_writes_mono; [|exact E2]; intros q <-; by left).
    destruct r2; [|by simplify_eq].
    destruct (StatSize _ w2) as [r3 w3] eqn:E3. apply StatSize_inv in E3 as [-> _].
    destruct r3 as [size|]; [|simplify_eq; eauto using only_writes_trans, only_writes_tick].
    destruct (OpenFile (OS.Join p "segment.index") (tick w2)) as [r4 w4] eqn:E4.
    apply OpenFile_only_writes in E4.
    assert (only_writes Q (tick w2) w4) as H4'
      by (eapply only_writes_mono; [|exact E4]; intros q <-; by right).
    assert (only_writes Q w1 w4) as H4 by eauto using only_writes_trans, only_writes_tick.
    destruct r4; [|by simplify_eq].
    destruct (loadIndexes _ w4) as [r5 w5] eqn:E5.
    assert (w' = w5) as -> by (destruct r5; by simplify_eq).
    eapply only_writes_trans; [exact H4|]. intros q. left. by rewrite (loadIndexes_nodes _ _ _ _ E5). }
  split.
  - intros q Hq1 Hq2. rewrite (only_writes_file _ _ _ _ HO) by (subst Q; simpl; intros [?|?]; done). apply HF1.
  - intros q Hq Hw. eapply only_writes_writable; [exact HO|]. by apply HW1.
Qed.

(** Opening a segment changes no content: it only creates empty files. *)
Lemma OpenFile_contents p w r w' q :
  OpenFile p w = (r, w') → default [] (file w' q) = default [] (file w q).
Proof.
  intros H. destruct r as [[]|]; [|by rewrite (OpenFile_err_file _ _ _ _ _ H)].
  destruct (decide (p = q)) as [<-|Hne].
  - by rewrite (OpenFile_file _ _ _ H).
  - by rewrite (OpenFile_file_ne _ _ _ _ _ H).
Qed.

Lemma newSegment_contents p start w r w' q :
  newSegment p start w = (r, w') → default [] (file w' q) = default [] (file w q).
Proof.
  unfold newSegment. cbn [LogPath IndexPath set_position]. intros H.
  destruct (MkdirAll p w) as [r1 w1] eqn:E1. rewrite <- (MkdirAll_file _ _ _ _ q E1).
  destruct r1; [|by simplify_eq].
  destruct (OpenFile _ w1) as [r2 w2] eqn:E2. rewrite <- (OpenFile_contents _ _ _ _ q E2).
  destruct r2; [|by simplify_eq].
  destruct (StatSize _ w2) as [r3 w3] eqn:E3. apply StatSize_inv in E3 as [-> _].
  destruct r3; [|by simplify_eq]. rewrite <- (file_tick q w2).
  destruct (OpenFile _ (tick w2)) as [r4 w4] eqn:E4. rewrite <- (OpenFile_contents _ _ _ _ q E4).
  destruct r4; [|by simplify_eq].
  destruct (loadIndexes _ w4) as [r5 w5] eqn:E5. apply loadIndexes_nodes in E5.
  assert (w' = w5) as -> by (destruct r5; by simplify_eq). unfold file. by rewrite E5.
Qed.

(** A topic survives whatever keeps its files and their directory. *)
Lemma topic_rep_keep dir name recs t w w' :
  topic_rep dir name recs t w →
  (∀ x, x ∈ seg_names → file w' (dir.1, x :: "000000"%string :: name :: dir.2)
                        = file w (dir.1, x :: "000000"%string :: name :: dir.2)) →
  (∀ x, x ∈ seg_names → writable w (dir.1, x :: "000000"%string :: name :: dir.2) →
        writable w' (dir.1, x :: "000000"%string :: name :: dir.2)) →
  topic_rep dir name recs t w'.
Proof.
  intros [Hp Hnx (seg & Hs & HR & [HP [HO1 HO2] HI] & HPath)] Hf Hw. split; [done|done|].
  exists seg. split_and!; try done.
  - eapply seg_rep_file; [|exact HR].
    destruct (seg_file_names dir name seg (LogPath seg)) as (x & Hx & ->); try done; [by left|].
    by apply Hf.
  - split; [done| |done].
    destruct (seg_file_names dir name seg (IndexPath seg)) as (x & Hx & Hx'); try done; [by right; left|].
    destruct (seg_file_names dir name seg (TimeIndex seg)) as (y & Hy & Hy'); try done; [by right; right|].
    split; [rewrite Hx' in *|rewrite Hy' in *]; auto.
Qed.

Lemma MkdirAll_topics logs b w p r w' :
  broker_rep logs b w → MkdirAll p w = (r, w') → (length p.2 ≤ length (b_dir b).2 + 2)%nat →
  broker_rep logs b w'.
Proof.
  intros [H1 H2] HM Hlen. split; [done|]. intros name recs t Hl Ht.
  eapply topic_rep_keep; [by eapply H2| |].
  - intros x _. by eapply MkdirAll_file.
  - intros x _. eapply MkdirAll_writable; [done|]. simpl. lia.
Qed.

(** The directory of a topic holds no segment yet, or an empty one. *)
Definition no_segment (w : world) (dir : path) : Prop :=
  ∀ x, x ∈ seg_names → default [] (file w (OS.Join (OS.Join dir "000000") x)) = [].

Lemma no_segment_files w w' dir :
  (∀ x, x ∈ seg_names → file w' (OS.Join (OS.Join dir "000000") x)
                        = file w (OS.Join (OS.Join dir "000000") x)) →
  no_segment w dir → no_segment w' dir.
Proof. intros Hf Hn x Hx. rewrite Hf by done. by apply Hn. Qed.

Lemma CreateTopic_outcome logs b name w r b' w' :
  broker_rep logs b w → plain name = true →
  (topics b !! name = None → no_segment w (OS.Join (b_dir b) name)) →
  CreateTopic name b w = (r, b', w') →
  match r with
  | Ok t => topics b' !! name = Some t
      ∧ broker_rep (match logs !! name with Some _ => logs | None => <[name := []]> logs end) b' w'
      ∧ (topics b !! name = None → topic_synced t)
  | Err _ => b' = b ∧ broker_rep logs b w'
  end.
Proof.
  intros HB Hplain Hfree. unfold CreateTopic.
  destruct (topics b !! name) as [t|] eqn:Ht.
  { intros [= <- <- <-]. destruct (broker_rep_topic _ _ _ _ _ HB Ht) as (recs & Hl & _).
    rewrite Hl. by split_and!. }
  specialize (Hfree eq_refl).
  assert (logs !! name = None) as Hl.
  { destruct (logs !! name) eqn:Hl; [|done].
    destruct (proj1 (rep_names _ _ _ HB name)) as [? ?]; [by eexists|congruence]. }
  rewrite Hl.
  destruct (MkdirAll (OS.Join (b_dir b) name) w) as [r1 w1] eqn:E1.
  assert (broker_rep logs b w1) as HB1.
  { eapply MkdirAll_topics; [exact HB|exact E1|]. rewrite Join_plain by done. simpl. lia. }
  destruct r1; [|intros [= <- <- <-]; done].
  destruct (newSegment _ 0 w1) as [r2 w2] eqn:E2.
  pose proof (newSegment_frame _ _ _ _ _ E2) as [HF2 HW2].
  (* the other topics *)
  assert (∀ n rs t, logs !! n = Some rs → topics b !! n = Some t → topic_rep (b_dir b) n rs t w2) as Hothers.
  { intros n rs t Hn Htn. assert (n ≠ name) as Hne by congruence.
    eapply topic_rep_keep; [by eapply (rep_topics _ _ _ HB1)| |].
    - intros x _. apply HF2; rewrite (Join_plain (b_dir b)), !Join_plain by done; simpl; congruence.
    - intros x _. apply HW2. rewrite (Join_plain (b_dir b)), !Join_plain by done. simpl. lia. }
  destruct r2 as [seg|e]; intros [= <- <- <-].
  2:{ split; [done|]. split; [apply HB1|exact Hothers]. }
  assert (no_segment w1 (OS.Join (b_dir b) name)) as Hfree1.
  { eapply no_segment_files; [|exact Hfree]. intros x _. by rewrite (MkdirAll_file _ _ _ _ _ E1). }
  apply newSegment_fresh in E2 as (HR & HP & HPath & HO & Hof & Htf & Hnf);
    [|lia|rewrite (Join_plain (b_dir b)), !Join_plain by done; done
     |apply Hfree1; unfold seg_names; set_solver..].
  split_and!.
  - simpl. by rewrite lookup_insert_eq.
  - split; simpl.
    + intros n. rewrite !lookup_insert. case_decide; [done|apply HB1].
    + intros n rs u. rewrite !lookup_insert. case_decide as Hn; [|by apply Hothers].
      subst n. intros [= <-] [= <-]. split; [done|done|]. exists seg. split_and!; try done.
      split; try done. rewrite Hof, Htf. split; apply map_ints_empty.
  - intros _ s [= <-]. by rewrite Hnf.
Qed.
Lemma CreateTopic_contents name b w r b' w' q :
  CreateTopic name b w = (r, b', w') →
  default [] (file w' q) = default [] (file w q) ∧ b_dir b' = b_dir b
  ∧ ∀ n, is_Some (topics b !! n) → is_Some (topics b' !! n).
Proof.
  unfold CreateTopic. destruct (topics b !! name); [by intros [= _ <- <-]|].
  destruct (MkdirAll _ w) as [r1 w1] eqn:E1. rewrite <- (MkdirAll_file _ _ _ _ q E1).
  destruct r1; [|by intros [= _ <- <-]].
  destruct (newSegment _ 0 w1) as [r2 w2] eqn:E2. rewrite <- (newSegment_contents _ _ _ _ _ q E2).
  destruct r2; intros [= _ <- <-]; [|done]. split_and!; [done..|]. simpl.
  intros n Hn. rewrite lookup_insert. by case_decide.
Qed.
End create.
