(* ===== verification/BrokerRun.v ===== *)
(** * Runs of the broker

    The broker as a state machine: one step per call of an exported operation,
    in any order and with any faults.  [broker_op] is any call; [broker_step],
    labelled with the records it acknowledged, is a call with plain topic and
    group names, storable records and room in the counters, and has the run
    invariant. *)

From S2P Require Import Prelude Encoding OS Segment Samples SegmentFacts ConsumerGroup Broker.
From S2P Require Import BrokerFacts.

(** ** Reads *)

Section reads.
Context {E : Env} {C : RecordCodec}.

Lemma fetchLoop_nodes fuel name off mb b acc w l e w' q :
  fetchLoop fuel name off mb b acc w = (l, e, w') → w_nodes w' !! q = w_nodes w !! q.
Proof.
  revert off acc w. induction fuel as [|fuel IH]; intros off acc w; cbn [fetchLoop];
    [by intros [= _ _ <-]|].
  destruct (Consume name off 1 b w) as [rc w1] eqn:E1.
  rewrite <- (Consume_nodes _ _ _ _ _ _ _ q E1).
  destruct rc as [[|r rs]|]; [by intros [= _ _ <-]| |by intros [= _ _ <-]].
  case_match; [by intros [= _ _ <-]|apply IH].
Qed.

Lemma FetchRaw_nodes name off b w r w' q :
  FetchRaw name off b w = (r, w') → w_nodes w' !! q = w_nodes w !! q.
Proof.
  unfold FetchRaw. destruct (topics b !! name) as [t|]; [|by intros [= _ <-]].
  induction (Segments t) as [|s ss IH]; cbn [fetchRawSegments]; [by intros [= _ <-]|].
  destruct (offsets s !! off); [|exact IH].
  destruct (ReadAt _ 4 _ w) as [ra w1] eqn:E1. apply ReadAt_tick in E1 as ->.
  destruct ra; by intros [= _ <-].
Qed.

Lemma LoadOffset_nodes t g b w r w' q :
  LoadOffset t g b w = (r, w') → w_nodes w' !! q = w_nodes w !! q.
Proof.
  unfold LoadOffset. destruct (ReadFile _ w) as [rf w1] eqn:E1.
  apply ReadFile_inv in E1 as [-> _]. repeat case_match; by intros [= _ <-].
Qed.

Lemma Produce_frame name key value headers b w r b' w' logs :
  broker_rep logs b w → Produce name key value headers b w = (r, b', w') →
  b_dir b' = b_dir b ∧ (∀ n, is_Some (topics b' !! n) ↔ is_Some (topics b !! n))
  ∧ only_writes (λ q, ∃ x t, topics b !! name = Some t
      ∧ q = ((b_dir b).1, x :: "000000"%string :: name :: (b_dir b).2)) w w'.
Proof.
  intros HB. unfold Produce. destruct (isDrainingLocked b w) as [dr w1] eqn:E1.
  assert (∀ Q, only_writes Q w w1) as HW1.
  { intros Q q. left. by eapply isDrainingLocked_nodes. }
  assert (broker_rep logs b w1) as HB1.
  { eapply broker_rep_nodes; [|done]. intros q. by eapply isDrainingLocked_nodes. }
  destruct dr; [by intros [= _ <- <-]|].
  destruct (topics b !! name) as [t|] eqn:Ht; [|by intros [= _ <- <-]].
  destruct (broker_rep_topic _ _ _ _ _ HB1 Ht) as (recs & Hl & [Hplain _ (seg & Hseg & _ & Hready & HP)]).
  unfold time_now. rewrite Hseg. cbn [last].
  destruct (Append seg _ (tick w1)) as [[ra seg'] w2] eqn:HA.
  apply Append_only_writes in HA.
  assert (∀ t', (∀ n, is_Some (topics (set_topics (<[name:=t']> (topics b)) b) !! n)
                      ↔ is_Some (topics b !! n))) as Hdom.
  { intros t' n. simpl. rewrite lookup_insert. case_decide as Hn; [|done]. subst. rewrite Ht.
    split; intros _; by eexists. }
  assert (only_writes (λ q, ∃ x t0, Some t = Some t0
      ∧ q = ((b_dir b).1, x :: "000000"%string :: name :: (b_dir b).2)) w w2) as HW.
  { eapply only_writes_trans; [apply HW1|]. eapply only_writes_trans; [apply only_writes_tick|].
    eapply only_writes_mono; [|exact HA]. intros q Hq.
    destruct (seg_file_shape (b_dir b) name seg q) as [x ->]; [done|apply Hready|done|done|].
    by exists x, t. }
  destruct ra; intros [= _ <- <-]; split_and!; done || apply Hdom.
Qed.
End reads.

(** ** The state machine *)

(** An acknowledged record: the topic, and the record [Produce] returned. *)
Definition ack : Type := string * LogRecord.

Definition acks_of (name : string) (r : res LogRecord) : list ack :=
  match r with Ok rec => [(name, rec)] | Err _ => [] end.

Section steps.
Context {E : Env} {C : RecordCodec}.

(** One operation, with the records it acknowledged.  Topic and group names are
    single path components, a produced record can be stored and its topic's
    counters have room; [broker_op] below has no such condition, and
    [aliased_topics_overwrite] shows what the first one excludes. *)
Inductive broker_step : Broker → world → list ack → Broker → world → Prop :=
| step_create name b w r b' w' :
    plain name = true → CreateTopic name b w = (r, b', w') → broker_step b w [] b' w'
| step_produce name key value headers b w r b' w' :
    (∀ t, topics b !! name = Some t → topic_room t) →
    storable key value headers →
    Produce name key value headers b w = (r, b', w') →
    broker_step b w (acks_of name r) b' w'
| step_consume name from max b w r w' :
    Consume name from max b w = (r, w') → broker_step b w [] b w'
| step_fetch name from max b w l e w' :
    Fetch name from max b w = (l, e, w') → broker_step b w [] b w'
| step_fetch_raw name off b w r w' :
    FetchRaw name off b w = (r, w') → broker_step b w [] b w'
| step_drain d b w b' w' : Drain d b w = (b', w') → broker_step b w [] b' w'
| step_is_draining b w r w' : IsDraining b w = (r, w') → broker_step b w [] b w'
| step_commit t g off b w r w' :
    plain t = true → plain g = true → CommitOffset t g off b w = (r, w') →
    broker_step b w [] b w'
| step_load t g b w r w' : LoadOffset t g b w = (r, w') → broker_step b w [] b w'
| step_group c b w : broker_step b w [] (set_coordinator c b) w.

(** Any operation of the broker, with any names and any record.  [broker_step]
    is this with the conditions under which an acknowledged record stays: topic
    and group names are single path components ([broker.go] takes any name and
    [filepath.Join] cleans it, so that "orders" and "./orders" are two topics on
    the same files), the record can be stored and the counters have room. *)
Inductive broker_op : Broker → world → Broker → world → Prop :=
| op_create name b w r b' w' : CreateTopic name b w = (r, b', w') → broker_op b w b' w'
| op_produce name key value headers b w r b' w' :
    Produce name key value headers b w = (r, b', w') → broker_op b w b' w'
| op_consume name from max b w r w' : Consume name from max b w = (r, w') → broker_op b w b w'
| op_fetch name from max b w l e w' : Fetch name from max b w = (l, e, w') → broker_op b w b w'
| op_fetch_raw name off b w r w' : FetchRaw name off b w = (r, w') → broker_op b w b w'
| op_drain d b w b' w' : Drain d b w = (b', w') → broker_op b w b' w'
| op_is_draining b w r w' : IsDraining b w = (r, w') → broker_op b w b w'
| op_commit t g off b w r w' : CommitOffset t g off b w = (r, w') → broker_op b w b w'
| op_load t g b w r w' : LoadOffset t g b w = (r, w') → broker_op b w b w'
| op_group c b w : broker_op b w (set_coordinator c b) w.

Lemma broker_step_op b w acks b' w' : broker_step b w acks b' w' → broker_op b w b' w'.
Proof.
  destruct 1; [eapply op_create|eapply op_produce|eapply op_consume|eapply op_fetch|eapply op_fetch_raw
    |eapply op_drain|eapply op_is_draining|eapply op_commit|eapply op_load|apply op_group]; eassumption.
Qed.

Inductive broker_run : Broker → world → list ack → Broker → world → Prop :=
| run_nil b w : broker_run b w [] b w
| run_cons b w a b1 w1 acks b' w' :
    broker_step b w a b1 w1 → broker_run b1 w1 acks b' w' → broker_run b w (a ++ acks) b' w'.

(** The invariant: the broker holds the logs, and the directory of a topic not
    created yet holds no records. *)
Record run_inv (logs : gmap string (list LogRecord)) (b : Broker) (w : world) : Prop := {
  inv_rep : broker_rep logs b w;
  inv_free : ∀ name, plain name = true → topics b !! name = None →
    no_segment w (OS.Join (b_dir b) name) }.
End steps.

(** ** Logs only grow *)

Definition logs_extend (logs logs' : gmap string (list LogRecord)) : Prop :=
  ∀ name recs, logs !! name = Some recs → ∃ more, logs' !! name = Some (recs ++ more).

#[export] Instance logs_extend_preorder : PreOrder logs_extend.
Proof.
  split.
  - intros l n recs H. exists []. by rewrite app_nil_r.
  - intros l1 l2 l3 H1 H2 n recs H. destruct (H1 _ _ H) as [m1 H1'].
    destruct (H2 _ _ H1') as [m2 H2']. exists (m1 ++ m2). by rewrite app_assoc.
Qed.

Lemma logs_extend_insert logs name recs more :
  logs !! name = Some recs → logs_extend logs (<[name := recs ++ more]> logs).
Proof.
  intros Hl n rs Hn. rewrite lookup_insert. case_decide as Hd.
  - subst. simplify_eq. by eexists.
  - exists []. by rewrite app_nil_r.
Qed.

(** The acknowledged record is in the log, at its offset; the [Offset] field of
    the stored copy is not constrained. *)
Definition in_log (logs : gmap string (list LogRecord)) (a : ack) : Prop :=
  0 <= Offset a.2 ∧
  ∃ recs r, logs !! a.1 = Some recs ∧ recs !! Z.to_nat (Offset a.2) = Some r
    ∧ a.2 = with_offset (Offset a.2) r.

Lemma in_log_extend logs logs' a : logs_extend logs logs' → in_log logs a → in_log logs' a.
Proof.
  intros HX [H0 (recs & r & Hl & Hr & Ha)]. destruct (HX _ _ Hl) as [more Hm]. split; [done|].
  exists (recs ++ more), r. split_and!; [done|by apply lookup_app_l_Some|done].
Qed.

(** [a] is not older than [logs]. *)
Definition after_log (logs : gmap string (list LogRecord)) (a : ack) : Prop :=
  ∀ recs, logs !! a.1 = Some recs → zlen recs <= Offset a.2.

Lemma after_log_extend logs logs' a : logs_extend logs logs' → after_log logs' a → after_log logs a.
Proof.
  intros HX Ha recs Hl. destruct (HX _ _ Hl) as [more Hm]. specialize (Ha _ Hm).
  rewrite zlen_app in Ha. pose proof (zlen_nonneg more). lia.
Qed.

Lemma in_log_before logs a a' :
  in_log logs a → after_log logs a' → a.1 = a'.1 → Offset a.2 < Offset a'.2.
Proof.
  intros [H0 (recs & r & Hl & Hr & _)] Ha Heq. rewrite Heq in Hl. specialize (Ha _ Hl).
  apply lookup_lt_Some in Hr. unfold zlen in Ha. lia.
Qed.

(** The offsets acknowledged for a topic increase strictly. *)
Definition acks_ordered (acks : list ack) : Prop :=
  ∀ i j a a', (i < j)%nat → acks !! i = Some a → acks !! j = Some a' → a.1 = a'.1 →
    Offset a.2 < Offset a'.2.

Lemma acks_of_ordered name r : acks_ordered (acks_of name r).
Proof.
  intros i j a a' Hij Hi Hj. apply lookup_lt_Some in Hj. destruct r; simpl in Hj; lia.
Qed.

(** ** The invariant *)

Section invariant.
Context {E : Env} {C : RecordCodec} {L : RecordCodecLaws}.

Lemma offset_file_name t x : x ∈ seg_names → x ≠ t +:+ ".offset".
Proof.
  intros Hx. apply (Forall_forall (λ x, x ≠ t +:+ ".offset") seg_names); [|done].
  unfold seg_names. repeat constructor; intros Heq;
    repeat (destruct t as [|? t]; cbn in Heq; [discriminate Heq|injection Heq as _ Heq]);
    destruct t; discriminate Heq.
Qed.

Lemma plain_seg_name x : x ∈ seg_names → plain x = true.
Proof. apply (Forall_forall (λ x, plain x = true) seg_names). by repeat constructor. Qed.

Lemma run_inv_same logs b w b' w' :
  run_inv logs b w → topics b' = topics b → b_dir b' = b_dir b →
  (∀ q, w_nodes w' !! q = w_nodes w !! q) → run_inv logs b' w'.
Proof.
  intros [HB HF] Ht Hd Hn.
  assert (∀ q, file w' q = file w q) as Hf by (intros q; unfold file; by rewrite Hn).
  split.
  - apply (broker_rep_nodes _ _ _ _ Hn) in HB. destruct HB as [H1 H2].
    split; rewrite ?Ht, ?Hd; [done|]. intros. eapply H2; eauto.
  - rewrite Ht, Hd. intros n Hp Hfree. eapply no_segment_files; [|by apply HF]. auto.
Qed.

Lemma create_inv logs name b w r b' w' :
  run_inv logs b w → plain name = true → CreateTopic name b w = (r, b', w') →
  ∃ logs', run_inv logs' b' w' ∧ logs_extend logs logs'.
Proof.
  intros [HB HF] Hp HC.
  assert (∀ n, plain n = true → topics b' !! n = None → no_segment w' (OS.Join (b_dir b') n)) as HF'.
  { intros n Hn Ht x Hx.
    destruct (CreateTopic_contents _ _ _ _ _ _
      (OS.Join (OS.Join (OS.Join (b_dir b') n) "000000") x) HC) as (-> & Hd & Hdom).
    rewrite Hd. apply HF; [done| |done]. destruct (topics b !! n) eqn:Hb; [|done].
    destruct (Hdom n) as [? ?]; [by eexists|congruence]. }
  pose proof (CreateTopic_outcome _ _ _ _ _ _ _ HB Hp (HF _ Hp) HC) as Hout.
  destruct r as [t|e].
  - destruct Hout as (_ & HB' & _). destruct (logs !! name) eqn:Hl; eexists; (split; [by split|]).
    + reflexivity.
    + intros n rs Hn. exists []. rewrite app_nil_r, lookup_insert_ne by congruence. done.
  - destruct Hout as (-> & HB'). exists logs. by split; [split|].
Qed.

Lemma produce_inv logs name key value headers b w r b' w' :
  run_inv logs b w → (∀ t, topics b !! name = Some t → topic_room t) →
  storable key value headers →
  Produce name key value headers b w = (r, b', w') →
  ∃ logs', run_inv logs' b' w' ∧ logs_extend logs logs'
    ∧ Forall (in_log logs') (acks_of name r) ∧ Forall (after_log logs) (acks_of name r).
Proof.
  intros [HB HF] Hroom Hst HPr.
  assert (∀ n, plain n = true → topics b' !! n = None → no_segment w' (OS.Join (b_dir b') n)) as HF'.
  { destruct (Produce_frame _ _ _ _ _ _ _ _ _ _ HB HPr) as (Hd & Hdom & HW). rewrite Hd.
    intros n Hn Ht. apply eq_None_not_Some in Ht. rewrite Hdom in Ht.
    eapply no_segment_files; [|by apply HF, eq_None_not_Some].
    intros x Hx. eapply only_writes_file; [exact HW|]. intros (y & t & Hname & Hq).
    rewrite (Join_plain (b_dir b)), (Join_plain _ "000000") in Hq by done.
    rewrite Join_plain in Hq by (by apply plain_seg_name).
    injection Hq as _ Hq. apply Ht. exists t. congruence. }
  pose proof (Produce_outcome _ _ _ _ _ _ _ _ _ _ HB Hroom Hst HPr) as Hout.
  destruct r as [rec|e]; simpl in *.
  - destruct Hout as (recs & t & Hl & Ht & Ho & _ & _ & _ & HB' & _).
    exists (<[name := recs ++ [with_offset (NextOffset t) rec]]> logs).
    split_and!; [by split|by apply logs_extend_insert| |].
    + constructor; [|done]. split; simpl; [rewrite Ho; apply zlen_nonneg|].
      eexists _, _. rewrite lookup_insert_eq. split; [done|]. split.
      * rewrite Ho. unfold zlen. rewrite Nat2Z.id. by apply list_lookup_middle.
      * by destruct rec.
    + constructor; [|done]. intros rs Hrs. simpl in *. simplify_eq. lia.
  - apply (produce_failed logs name key value headers b) in Hout as [HB'|(recs & rec & Hl & HB')].
    + exists logs. split_and!; [by split|reflexivity|constructor..].
    + eexists. split_and!; [by split|by apply logs_extend_insert|constructor..].
Qed.

Lemma CommitOffset_writable t g off b w r w' q :
  plain t = true → plain g = true → CommitOffset t g off b w = (r, w') →
  (length (b_dir b).2 + 2 < length q.2)%nat → writable w q → writable w' q.
Proof.
  intros Ht Hg HC Hq Hw. unfold CommitOffset in HC.
  destruct (MkdirAll _ w) as [r1 w1] eqn:E1.
  assert (writable w1 q) as Hw1.
  { eapply MkdirAll_writable; [exact E1| |done]. unfold offsetDir.
    rewrite (Join_plain (b_dir b)), (Join_plain _ g) by done. simpl. lia. }
  destruct r1; [|by simplify_eq].
  eapply only_writes_writable; [by eapply WriteFile_only_writes|done].
Qed.

Lemma commit_inv logs t g off b w r w' :
  run_inv logs b w → plain t = true → plain g = true →
  CommitOffset t g off b w = (r, w') → run_inv logs b w'.
Proof.
  intros [HB HF] Ht Hg HC.
  assert (∀ x n, x ∈ seg_names →
    file w' ((b_dir b).1, x :: "000000"%string :: n :: (b_dir b).2)
    = file w ((b_dir b).1, x :: "000000"%string :: n :: (b_dir b).2)) as Hf.
  { intros x n Hx. eapply CommitOffset_frame; [exact HC|]. rewrite offsetPath_plain by done.
    intros Heq. injection Heq as Heq _ _. by eapply offset_file_name. }
  split.
  - destruct HB as [H1 H2]. split; [done|]. intros n rs u Hl Hu.
    eapply topic_rep_keep; [by eapply H2|auto|].
    intros x _. eapply CommitOffset_writable; [exact Ht|exact Hg|exact HC|]. simpl. lia.
  - intros n Hn Hu. eapply no_segment_files; [|by apply HF].
    intros x Hx. rewrite (Join_plain (b_dir b)), (Join_plain _ "000000"), Join_plain
      by (done || by apply plain_seg_name). by apply Hf.
Qed.

(** One step: the logs grow, the new acknowledgements are in the new logs and
    were not in the old ones. *)
Lemma step_inv logs b w acks b' w' :
  run_inv logs b w → broker_step b w acks b' w' →
  ∃ logs', run_inv logs' b' w' ∧ logs_extend logs logs'
    ∧ Forall (in_log logs') acks ∧ Forall (after_log logs) acks
    ∧ acks_ordered acks.
Proof.
  intros HI HS.
  assert (∀ b' w', run_inv logs b' w' → ∃ logs', run_inv logs' b' w' ∧ logs_extend logs logs'
    ∧ Forall (in_log logs') [] ∧ Forall (after_log logs) []
    ∧ acks_ordered []) as Hsame.
  { intros b1 w1 H1. exists logs. split_and!; [done|reflexivity|constructor..|by intros [] []]. }
  destruct HS as [name b w r b' w' Hp HC|name k v h b w r b' w' Hroom Hst HP|name from mx b w r w' HC
    |name from mx b w l e w' HC|name off b w r w' HC|d b w b' w' HD|b w r w' HD
    |t g off b w r w' Ht Hg HC|t g b w r w' HC|c b w].
  - destruct (create_inv _ _ _ _ _ _ _ HI Hp HC) as (logs' & HI' & HX).
    exists logs'. split_and!; [done|done|constructor..|by intros [] []].
  - destruct (produce_inv _ _ _ _ _ _ _ _ _ _ HI Hroom Hst HP) as (logs' & HI' & HX & HA1 & HA2).
    exists logs'. split_and!; [done..|]. apply acks_of_ordered.
  - apply Hsame. eapply run_inv_same; [done..|]. intros q. by eapply Consume_nodes.
  - apply Hsame. eapply run_inv_same; [done..|]. intros q. by eapply fetchLoop_nodes.
  - apply Hsame. eapply run_inv_same; [done..|]. intros q. by eapply FetchRaw_nodes.
  - injection HD as <- <-. apply Hsame. by apply (run_inv_same logs b w).
  - apply Hsame. eapply run_inv_same; [done..|]. intros q. by eapply isDrainingLocked_nodes.
  - apply Hsame. exact (commit_inv _ _ _ _ _ _ _ _ HI Ht Hg HC).
  - apply Hsame. eapply run_inv_same; [done..|]. intros q. by eapply LoadOffset_nodes.
  - apply Hsame. by apply (run_inv_same logs b w).
Qed.

Lemma run_inv_steps logs b w acks b' w' :
  run_inv logs b w → broker_run b w acks b' w' →
  ∃ logs', run_inv logs' b' w' ∧ logs_extend logs logs'
    ∧ Forall (in_log logs') acks ∧ Forall (after_log logs) acks
    ∧ acks_ordered acks.
Proof.
  intros HI HR. revert logs HI. induction HR as [b w|b w a b1 w1 acks b' w' HS HR IH]; intros logs HI.
  { exists logs. split_and!; [done|reflexivity|constructor..|by intros [] []]. }
  destruct (step_inv _ _ _ _ _ _ HI HS) as (logs1 & HI1 & HX1 & HA1 & HB1 & HO1).
  destruct (IH _ HI1) as (logs2 & HI2 & HX2 & HA2 & HB2 & HO2).
  exists logs2. split_and!; [done|by transitivity logs1| | |].
  - apply Forall_app. split; [|done]. eapply Forall_impl; [exact HA1|]. eauto using in_log_extend.
  - apply Forall_app. split; [done|]. eapply Forall_impl; [exact HB2|]. eauto using after_log_extend.
  - intros i j x y Hij Hx Hy Heq.
    apply lookup_app_Some in Hx as [Hx|[Hi Hx]]; apply lookup_app_Some in Hy as [Hy|[Hj Hy]].
    + by eapply HO1.
    + eapply in_log_before; [eapply Forall_lookup_1 in HA1|eapply Forall_lookup_1 in HB2|]; eauto.
    + apply lookup_lt_Some in Hy. lia.
    + eapply HO2; [|exact Hx|exact Hy|exact Heq]. unfold ack in *. lia.
Qed.
End invariant.
