(* ===== verification/BrokerProps.v ===== *)
(** * The broker: properties

    What the broker promises its clients, proved from the run invariant of
    [BrokerRun.v] and the outcome lemmas of [BrokerFacts.v], each with a
    concrete instance. *)

From S2P Require Import Prelude Encoding OS Segment Samples SegmentFacts ConsumerGroup Broker.
From S2P Require Import BrokerFacts BrokerRun.

(** ** The start of a run *)

Section start.
Context {E : Env} {C : RecordCodec}.

Lemma NewBroker_inv dir w0 b w :
  (∀ name, plain name = true → no_segment w0 (OS.Join dir name)) →
  NewBroker dir w0 = (Ok b, w) → run_inv ∅ b w ∧ b_dir b = dir.
Proof.
  intros Hfree. unfold NewBroker. destruct (MkdirAll dir w0) as [[]  w1] eqn:E1; intros [= <- <-].
  split; [|done]. split.
  - split; simpl.
    + intros name. by rewrite !lookup_empty.
    + intros name recs t Hl. by rewrite lookup_empty in Hl.
  - simpl. intros name Hp _. eapply no_segment_files; [|by apply Hfree].
    intros x _. by eapply MkdirAll_file.
Qed.

Lemma in_log_consume logs b w a r w' :
  broker_rep logs b w → in_log logs a → Consume a.1 (Offset a.2) 1 b w = (r, w') →
  (∀ l, r = Ok l → ∃ o, l = [with_offset o a.2]) ∧ (Reliable E → is_ok r = true).
Proof.
  intros HB [H0 (recs & x & Hl & Hx & Ha)] HC. split.
  - intros l ->. rewrite (Consume_ok _ _ _ _ _ _ _ _ _ HB Hl HC).
    change (page 1) with 1%nat. exists (Offset x).
    rewrite (drop_S _ _ _ Hx). simpl. f_equal. rewrite Ha. by destruct x.
  - intros HR. destruct (Consume_reliable logs a.1 recs (Offset a.2) 1 b w HB Hl) as [w2 H2].
    rewrite HC in H2. by simplify_eq.
Qed.
End start.

(** ** A concrete broker *)

Definition broker0 : Broker := MkBroker dir0 ∅ None ∅ ∅ ∅ NewConsumerGroupCoordinator.
Definition wb0 : world := (NewBroker (E := env0) dir0 world0).2.

Lemma broker0_ok : NewBroker (E := env0) dir0 world0 = (Ok broker0, wb0).
Proof.
  assert ((NewBroker (E := env0) dir0 world0).1 = Ok broker0) as <- by (vm_compute; reflexivity).
  apply surjective_pairing.
Qed.

Lemma world0_free dir : no_segment world0 dir.
Proof. intros x _. reflexivity. Qed.

Lemma broker0_inv : run_inv (C := codec0) ∅ broker0 wb0.
Proof.
  apply (NewBroker_inv (E := env0) (C := codec0) dir0 world0); [|apply broker0_ok].
  intros name _. apply world0_free.
Qed.

(** With the topic "orders". *)
Definition created0 : res Topic * Broker * world :=
  CreateTopic (E := env0) "orders" broker0 wb0.
Definition broker1 : Broker := created0.1.2.
Definition wb1 : world := created0.2.
Definition topic1 : Topic := default (MkTopic "orders" 0 dir0 [] 0) (topics broker1 !! "orders"%string).

Lemma created0_ok : CreateTopic (E := env0) "orders" broker0 wb0 = (Ok topic1, broker1, wb1).
Proof.
  assert (created0.1.1 = Ok topic1) as <- by (vm_compute; reflexivity).
  unfold broker1, wb1. rewrite <- !surjective_pairing. done.
Qed.

Lemma broker1_topic : topics broker1 !! "orders"%string = Some topic1.
Proof. vm_compute. reflexivity. Qed.

Lemma broker1_topic_inv t : topics broker1 !! "orders"%string = Some t → topic1 = t.
Proof. rewrite broker1_topic. intros Ht. exact (inj Some _ _ Ht). Qed.

Lemma broker1_rep : broker_rep (C := codec0) {["orders"%string := []]} broker1 wb1
  ∧ topic_synced topic1 ∧ topic_room topic1.
Proof.
  pose proof (CreateTopic_outcome (E := env0) (C := codec0) ∅ broker0 "orders" wb0 _ _ _
    (inv_rep _ _ _ broker0_inv) eq_refl
    (λ _, inv_free _ _ _ broker0_inv "orders" eq_refl eq_refl) created0_ok) as (_ & HB & HS).
  rewrite lookup_empty in HB. split_and!; [exact HB|by apply HS|].
  intros seg Hseg. vm_compute in Hseg. injection Hseg as <-.
  unfold room, maxPayload. simpl. lia.
Qed.

Definition k0 : list byte := bytes_of "k".
Definition v0 : list byte := bytes_of "v".

Lemma kv0_carriable : carriable (E := env0) (C := codec0) k0 v0 ∅.
Proof.
  assert (∀ n, int64 (clock0 n)) as Hc by (intros n; unfold int64, clock0; lia).
  split.
  - intros n off Hoff. cbn [json_storable codec0 Timestamp Offset Key env_clock env0].
    split_and!; [apply Hc|done|reflexivity].
  - intros n off Hoff. eexists. split; [reflexivity|].
    cbn [Timestamp Offset Key Value]. unfold zlen.
    rewrite !length_app, !int64ToBytes_length, putUint32_length. vm_compute. done.
Qed.

(** With one record in it. *)
Definition produced0 : res LogRecord * Broker * world :=
  Produce (E := env0) (C := codec0) "orders" k0 v0 ∅ broker1 wb1.
Definition broker2 : Broker := produced0.1.2.
Definition wb2 : world := produced0.2.
Definition rec1 : LogRecord := MkRecord k0 v0 ∅ (clock0 8) 0.

Lemma produced0_ok :
  Produce (E := env0) (C := codec0) "orders" k0 v0 ∅ broker1 wb1 = (Ok rec1, broker2, wb2).
Proof.
  assert (produced0.1.1 = Ok rec1) as <- by (vm_compute; reflexivity).
  unfold broker2, wb2. rewrite <- !surjective_pairing. done.
Qed.

(** * Properties *)

(** C2: on a broker started in a directory without records, run any operations in
    any order with any system calls failing, where topic and group names are
    single path components, the records can be stored and the counters have
    room (two names for one directory do lose records:
    [aliased_topics_overwrite]).  Then an acknowledged record keeps its place for
    good: reading its offset in the final state
    returns exactly that key, value, headers and timestamp (and does not fail
    unless a system call does), and the offsets acknowledged for a topic
    increase strictly, so no two acknowledgements share one. *)
Theorem broker_acked_records_stay `{E : Env, C : RecordCodec, !RecordCodecLaws}
    dir w0 b w acks b' w' :
  (∀ name, plain name = true → no_segment w0 (OS.Join dir name)) →
  NewBroker dir w0 = (Ok b, w) → broker_run b w acks b' w' →
  acks_ordered acks
  ∧ ∀ name rec, (name, rec) ∈ acks → ∀ r w'', Consume name (Offset rec) 1 b' w' = (r, w'') →
      (∀ l, r = Ok l → ∃ o, l = [with_offset o rec]) ∧ (Reliable E → is_ok r = true).
Proof.
  intros Hfree HN HR. destruct (NewBroker_inv _ _ _ _ Hfree HN) as [HI _].
  destruct (run_inv_steps _ _ _ _ _ _ HI HR) as (logs & [HB _] & _ & HA & _ & HO).
  split; [done|]. intros name rec Hin r w'' HC.
  eapply (in_log_consume _ _ _ (name, rec)); [exact HB| |exact HC].
  by eapply Forall_forall in HA.
Qed.

Lemma broker_acked_records_stay_witness :
  ∃ r w'', Consume (E := env0) (C := codec0) "orders" 0 1 broker2 wb2 = (r, w'')
    ∧ is_ok r = true ∧ ∀ l, r = Ok l → ∃ o, l = [with_offset o rec1].
Proof.
  destruct (Consume (E := env0) (C := codec0) "orders" 0 1 broker2 wb2) as [r w''] eqn:HC.
  exists r, w''. split; [done|].
  destruct (broker_acked_records_stay (E := env0) (C := codec0) dir0 world0 broker0 wb0
    ([] ++ acks_of "orders" (Ok rec1) ++ []) broker2 wb2) as [_ HA].
  - intros name _. apply world0_free.
  - apply broker0_ok.
  - eapply run_cons; [by eapply step_create; [|apply created0_ok]|].
    eapply run_cons; [|apply run_nil]. eapply step_produce; [| |apply produced0_ok].
    + intros t Ht. rewrite <- (broker1_topic_inv t Ht). apply broker1_rep.
    + apply kv0_carriable.
  - destruct (HA "orders"%string rec1 (list_elem_of_here _ _) r w'' HC) as [H1 H2].
    split; [apply H2, env0_reliable|exact H1].
Defined.

(** C4: [Produce] refines appending to the abstract log of its topic, whatever
    fails.  On success the log of that topic alone has grown by one record with
    the given key, value and headers at the returned offset, which is the old
    length; on an error the logs are unchanged, except that when only the index
    could not be persisted the topic's log has grown by that record.  Without faults, on an
    existing topic of a broker that is not draining, it succeeds. *)
Theorem produce_refines_append `{E : Env, C : RecordCodec, !RecordCodecLaws}
    logs name key value headers b w r b' w' :
  broker_rep logs b w → (∀ t, topics b !! name = Some t → topic_room t) →
  carriable key value headers →
  Produce name key value headers b w = (r, b', w') →
  produce_outcome logs name key value headers b r b' w'
  ∧ (Reliable E → is_Some (topics b !! name) → (isDrainingLocked b w).1 = false → is_ok r = true).
Proof.
  intros HB Hroom Hc HP. split.
  - eapply Produce_outcome; [done|done|apply Hc|done].
  - intros HR [t Ht] Hd.
    destruct (Produce_reliable logs name key value headers b w t HB Ht (Hroom _ Ht) Hc Hd)
      as (rec & b2 & w2 & H2). rewrite HP in H2. by simplify_eq.
Qed.

Lemma produce_refines_append_witness :
  produce_outcome (C := codec0) {["orders"%string := []]} "orders" k0 v0 ∅ broker1
    (Ok rec1) broker2 wb2 ∧ is_ok (Ok rec1) = true.
Proof.
  destruct broker1_rep as (HB & HS & HR).
  destruct (produce_refines_append (E := env0) (C := codec0) {["orders"%string := []]}
    "orders" k0 v0 ∅ broker1 wb1 (Ok rec1) broker2 wb2) as [H1 H2].
  - exact HB.
  - intros t Ht. rewrite <- (broker1_topic_inv t Ht). exact HR.
  - apply kv0_carriable.
  - apply produced0_ok.
  - split; [exact H1|]. apply H2; [apply env0_reliable|by eexists|vm_compute; reflexivity].
Defined.

(** A record read back is the record [Produce] returned, its offset
    included, when the topic's counter agrees with its segment (as it does from
    the topic's creation on, until an index write fails or the broker is
    restarted); the agreement is kept. *)
Theorem produce_then_consume_exact `{E : Env, C : RecordCodec, !RecordCodecLaws, !Reliable E}
    logs name key value headers b w t rec b' w' :
  broker_rep logs b w → topics b !! name = Some t → topic_room t → topic_synced t →
  carriable key value headers →
  Produce name key value headers b w = (Ok rec, b', w') →
  (Consume name (Offset rec) 1 b' w').1 = Ok [rec]
  ∧ (Fetch name (Offset rec) 1 b' w').1 = ([rec], None)
  ∧ ∃ t', topics b' !! name = Some t' ∧ topic_synced t'.
Proof.
  intros HB Ht Hroom Hs Hc HP.
  assert (∀ t0, topics b !! name = Some t0 → topic_room t0) as Hroom' by (intros; by simplify_eq).
  destruct (Produce_outcome _ _ _ _ _ _ _ _ _ _ HB Hroom' (proj1 Hc) HP)
    as (recs & t0 & Hl & Ht0 & Ho & _ & _ & _ & HB' & t' & Ht' & Hs' & _). simplify_eq.
  destruct (rep_topics _ _ _ HB _ _ _ Hl Ht) as [_ _ (seg & Hseg & HR & _)].
  assert (with_offset (NextOffset t) rec = rec) as Hrec.
  { rewrite (Hs seg), (rep_next _ _ _ _ HR), Z.add_0_l, <- Ho by (by rewrite Hseg). by destruct rec. }
  rewrite Hrec in HB'. set (recs' := recs ++ [rec]) in *.
  assert (<[name := recs']> logs !! name = Some recs') as Hl2 by apply lookup_insert_eq.
  assert (drop (Z.to_nat (Offset rec)) recs' = [rec]) as Hd.
  { rewrite Ho. unfold zlen, recs'. by rewrite Nat2Z.id, drop_app_length. }
  pose proof (zlen_nonneg recs). destruct (Hroom seg) as [_ Hr]; [by rewrite Hseg|].
  rewrite (rep_next _ _ _ _ HR) in Hr.
  split_and!.
  - destruct (Consume_reliable _ _ _ (Offset rec) 1 _ _ HB' Hl2) as [w2 ->]. by rewrite Hd.
  - unfold Fetch. edestruct (fetchLoop_reliable _ _ _ _ 1 (Z.to_nat 1) (Offset rec) [] _ HB' Hl2)
      as [w2 Hw2]; [lia|lia|done|]. change (if 1 <=? 0 then _ else 1) with 1. rewrite Hw2.
    by rewrite fetched_from, Hd by lia.
  - by exists t'.
Qed.

Lemma produce_then_consume_exact_witness :
  (Consume (E := env0) (C := codec0) "orders" 0 1 broker2 wb2).1 = Ok [rec1].
Proof.
  destruct broker1_rep as (HB & HS & HR).
  apply (produce_then_consume_exact (E := env0) (C := codec0) {["orders"%string := []]}
    "orders" k0 v0 ∅ broker1 wb1 topic1 rec1 broker2 wb2 HB broker1_topic HR HS
    kv0_carriable produced0_ok).
Defined.

Lemma orders_log : ({["orders"%string := []]} : gmap string (list LogRecord)) !! "orders"%string = Some [].
Proof. reflexivity. Qed.

Lemma broker2_rep :
  broker_rep (C := codec0) (<["orders"%string := [rec1]]> {["orders"%string := []]}) broker2 wb2.
Proof.
  destruct broker1_rep as (HB & HS & HR).
  pose proof (Produce_outcome (E := env0) (C := codec0) {["orders"%string := []]} "orders" k0 v0 ∅
    broker1 wb1 (Ok rec1) broker2 wb2 HB) as Hout.
  destruct Hout as (recs & t & Hl & Ht & _ & _ & _ & _ & HB2 & _).
  - intros t Ht. rewrite <- (broker1_topic_inv t Ht). exact HR.
  - apply kv0_carriable.
  - apply produced0_ok.
  - rewrite orders_log in Hl. injection Hl as <-. rewrite <- (broker1_topic_inv t Ht) in HB2.
    exact HB2.
Qed.

(** C21: reading is exact and harmless.  Neither [Consume] nor [Fetch] changes a
    file or leaves another node behind, whatever fails.  Without faults,
    [Consume from max] returns exactly the records from [from] on, [max] at most
    (100 when [max <= 0]); [Fetch from n] with [from] and [n] below 2^62 returns
    the first [n] records (1048576 when [n <= 0], so its "bytes" limit counts
    records) of those from [from] on; a negative [from] makes it repeat the
    first record once for each offset below 0.  A topic that does not exist is
    an error for both. *)
Theorem consume_fetch_exact `{E : Env, C : RecordCodec} logs name from n b w :
  broker_rep logs b w →
  w_nodes (Consume name from n b w).2 = w_nodes w
  ∧ w_nodes (Fetch name from n b w).2 = w_nodes w
  ∧ (Reliable E →
     match logs !! name with
     | Some recs =>
         (Consume name from n b w).1 = Ok (take (page n) (drop (Z.to_nat from) recs))
         ∧ (- 2 ^ 63 <= from < 2 ^ 62 → n < 2 ^ 62 →
            let limit := Z.to_nat (if n <=? 0 then 1024 * 1024 else n) in
            (Fetch name from n b w).1
            = (take limit (match recs with
                           | [] => []
                           | r0 :: _ => replicate (Z.to_nat (- from)) r0 ++ drop (Z.to_nat from) recs
                           end), None))
     | None => (Consume name from n b w).1 = Err (ErrTopicNotFound name)
               ∧ (Fetch name from n b w).1 = ([], Some (ErrTopicNotFound name))
     end).
Proof.
  intros HB. split_and!.
  { destruct (Consume name from n b w) as [r w'] eqn:HC. apply map_eq. intros q. by eapply Consume_nodes. }
  { destruct (Fetch name from n b w) as [[l e] w'] eqn:HF. apply map_eq. intros q.
    by eapply fetchLoop_nodes. }
  intros HRel. destruct (logs !! name) as [recs|] eqn:Hl.
  - split; [by destruct (Consume_reliable _ _ _ from n _ _ HB Hl) as [w' ->]|].
    intros Hf Hb. cbv zeta. unfold Fetch.
    set (mb := if n <=? 0 then 1024 * 1024 else n).
    edestruct (fetchLoop_reliable logs name recs b mb (Z.to_nat mb) from [] w HB Hl) as [w' ->];
      [lia| | |].
    + unfold mb. destruct (n <=? 0) eqn:?; bool_prop; lia.
    + unfold mb. destruct (n <=? 0) eqn:?; bool_prop; change (zlen (@nil LogRecord)) with 0; lia.
    + reflexivity.
  - assert (topics b !! name = None) as Ht.
    { apply eq_None_not_Some. intros H%(rep_names _ _ _ HB). rewrite Hl in H. by destruct H. }
    split; [by unfold Consume; rewrite Ht|].
    unfold Fetch. set (mb := if n <=? 0 then _ else n).
    assert (∃ k, Z.to_nat mb = S k) as [k ->].
    { exists (pred (Z.to_nat mb)). unfold mb. destruct (n <=? 0) eqn:?; bool_prop; lia. }
    cbn [fetchLoop]. unfold Consume. by rewrite Ht.
Qed.

Lemma consume_fetch_exact_witness :
  (Consume (E := env0) (C := codec0) "orders" 0 5 broker2 wb2).1 = Ok [rec1]
  ∧ (Fetch (E := env0) (C := codec0) "orders" (-2) 5 broker2 wb2).1 = ([rec1; rec1; rec1], None).
Proof.
  destruct (consume_fetch_exact (E := env0) (C := codec0) _ "orders" 0 5 _ _ broker2_rep) as (_ & _ & H).
  destruct (consume_fetch_exact (E := env0) (C := codec0) _ "orders" (-2) 5 _ _ broker2_rep) as (_ & _ & H2).
  specialize (H env0_reliable). specialize (H2 env0_reliable).
  rewrite lookup_insert_eq in H, H2. split; [apply H|]. apply H2; lia.
Defined.

(** Topic names are not checked and [filepath.Join] cleans the path, so "orders"
    and "./orders" are two topics on the same files, each with its own idea of
    where the log ends: the record acknowledged at offset 0 of "orders" is
    overwritten by the first record of "./orders", and reading "orders" returns
    the other record. *)
Theorem aliased_topics_overwrite :
  let c1 := CreateTopic (E := env0) "orders" broker0 wb0 in
  let c2 := CreateTopic (E := env0) "./orders" c1.1.2 c1.2 in
  let p1 := Produce (E := env0) (C := codec0) "orders" k0 v0 ∅ c2.1.2 c2.2 in
  let p2 := Produce (E := env0) (C := codec0) "./orders" k0 k0 ∅ p1.1.2 p1.2 in
  let r := Consume (E := env0) (C := codec0) "orders" 0 10 p2.1.2 p2.2 in
  is_ok c1.1.1 = true ∧ is_ok c2.1.1 = true
  ∧ (match p1.1.1 with Ok rec => Some (Offset rec, Value rec) | Err _ => None end) = Some (0, v0)
  ∧ is_ok p2.1.1 = true
  ∧ (match r.1 with Ok l => Value <$> l | Err _ => [] end) = [k0].
Proof.
  cbv zeta. split; [vm_compute; reflexivity|]. split; [vm_compute; reflexivity|].
  split; [vm_compute; reflexivity|]. split; vm_compute; reflexivity.
Qed.

(** The file range that [FetchRaw] hands to the zero-copy path is exactly
    the encoding of the record at that offset: it lies inside the log file and
    decodes to the record; without faults [FetchRaw] finds it. *)
Theorem fetchraw_is_payload `{E : Env, C : RecordCodec} logs name recs off rec b w r w' :
  broker_rep logs b w → logs !! name = Some recs → 0 <= off → recs !! Z.to_nat off = Some rec →
  FetchRaw name off b w = (r, w') →
  (∀ p pos len, r = Ok (p, pos, len) →
     ∃ f, file w p = Some f ∧ 0 <= pos ∧ pos + len <= zlen f
       ∧ json_unmarshal (slice f (Z.to_nat pos) (Z.to_nat len)) = Some rec)
  ∧ (Reliable E → is_ok r = true).
Proof.
  intros HB Hl Hoff Hr HF. split.
  - intros p pos len ->. by eapply FetchRaw_payload.
  - intros HR. destruct (FetchRaw_reliable _ _ _ _ _ _ _ HB Hl Hr Hoff) as (p & pos & len & w2 & H2).
    rewrite HF in H2. by simplify_eq.
Qed.

Lemma fetchraw_is_payload_witness :
  is_ok (FetchRaw (E := env0) "orders" 0 broker2 wb2).1 = true.
Proof.
  destruct (FetchRaw (E := env0) "orders" 0 broker2 wb2) as [r w'] eqn:HF.
  destruct (fetchraw_is_payload (E := env0) (C := codec0) _ "orders" [rec1] 0 rec1 _ _ r w'
    broker2_rep (lookup_insert_eq _ _ _) ltac:(lia) eq_refl HF) as [_ H].
  apply H. apply env0_reliable.
Defined.

(** Commits for other topics or groups. *)
Inductive commits (E : Env) (b : Broker) (t g : string) : world → world → Prop :=
| commits_nil w : commits E b t g w w
| commits_cons t' g' off w r w1 w2 :
    plain t' = true → plain g' = true → (t', g') ≠ (t, g) →
    CommitOffset t' g' off b w = (r, w1) → commits E b t g w1 w2 → commits E b t g w w2.

Lemma commits_file E b t g w w' :
  plain t = true → plain g = true → commits E b t g w w' →
  file w' (offsetPath b t g) = file w (offsetPath b t g).
Proof.
  intros Ht Hg. induction 1 as [|t' g' off w r w1 w2 Ht' Hg' Hne HC _ IH]; [done|].
  rewrite IH. eapply CommitOffset_frame; [exact HC|]. rewrite !offsetPath_plain by done.
  intros Heq. apply Hne. injection Heq as Heq ->. by apply string_app_inv_tail in Heq as ->.
Qed.

(** A committed offset is what [LoadOffset] returns, however many offsets
    of other topics and groups (with plain names) are committed in between and
    whether those commits succeed or not. *)
Theorem commit_load_roundtrip (E : Env) b t g off w w1 w2 :
  Reliable E → plain t = true → plain g = true → int64 off →
  CommitOffset t g off b w = (Ok tt, w1) → commits E b t g w1 w2 →
  (LoadOffset t g b w2).1 = Ok off.
Proof.
  intros HR Ht Hg Hoff HC HS. apply LoadOffset_file; [done..|].
  rewrite (commits_file _ _ _ _ _ _ Ht Hg HS). by eapply CommitOffset_file.
Qed.

Lemma commit_load_roundtrip_witness :
  ∃ w1 w2, CommitOffset (E := env0) "orders" "g" 41 broker0 wb0 = (Ok tt, w1)
    ∧ CommitOffset (E := env0) "orders" "h" 7 broker0 w1 = (Ok tt, w2)
    ∧ (LoadOffset (E := env0) "orders" "g" broker0 w2).1 = Ok 41.
Proof.
  destruct (CommitOffset (E := env0) "orders" "g" 41 broker0 wb0) as [r1 w1] eqn:H1.
  destruct (CommitOffset (E := env0) "orders" "h" 7 broker0 w1) as [r2 w2] eqn:H2.
  assert (r1 = Ok tt) as ->.
  { assert ((CommitOffset (E := env0) "orders" "g" 41 broker0 wb0).1 = Ok tt) as H
      by (vm_compute; reflexivity). by rewrite H1 in H. }
  assert (r2 = Ok tt) as ->.
  { assert ((CommitOffset (E := env0) "orders" "h" 7 broker0
      (CommitOffset (E := env0) "orders" "g" 41 broker0 wb0).2).1 = Ok tt) as H
      by (vm_compute; reflexivity). rewrite H1 in H. cbn [snd] in H. by rewrite H2 in H. }
  exists w1, w2. split; [done|]. split; [done|].
  apply (commit_load_roundtrip env0 broker0 "orders" "g" 41 wb0 w1 w2);
    [apply env0_reliable|reflexivity|reflexivity|unfold int64; lia|exact H1|].
  apply (commits_cons env0 broker0 "orders" "g" "orders" "h" 7 w1 (Ok tt) w2 w2); [reflexivity|reflexivity|discriminate|exact H2|apply commits_nil].
Defined.

Lemma Append_error `{E : Env, C : RecordCodec} seg rec w e seg' w' :
  Append seg rec w = (Err e, seg', w') → e ≠ ErrDraining.
Proof. unfold Append. intros H. by repeat case_match; simplify_eq. Qed.

(** While the broker drains, [Produce] is refused with [ErrDraining] and
    changes neither the broker nor a file; the drain of duration [d] called at
    time [now] ends exactly when the clock passes [now + d], after which
    [Produce] is not refused for that reason. *)
Theorem drain_window `{E : Env, C : RecordCodec} d b w b' w' name key value headers w2 :
  Drain d b w = (b', w') →
  let deadline := env_clock (w_tick w) + d in
  let out := Produce name key value headers b' w2 in
  (env_clock (w_tick w2) <= deadline →
     out.1.1 = Err ErrDraining ∧ out.1.2 = b' ∧ ∀ q, file out.2 q = file w2 q)
  ∧ (deadline < env_clock (w_tick w2) → out.1.1 ≠ Err ErrDraining)
  ∧ ((IsDraining b' w2).1 = true ↔ env_clock (w_tick w2) <= deadline)
  ∧ topics b' = topics b.
Proof.
  unfold Drain, time_now. intros [= <- <-]. cbv zeta. unfold Produce, IsDraining, isDrainingLocked.
  cbn [drainingTill set_drainingTill time_now]. unfold time_now.
  set (dl := env_clock (w_tick w) + d). set (now := env_clock (w_tick w2)).
  destruct (Z.ltb_spec dl now); cbn [negb fst]; split_and!; try done; try lia.
  intros _. destruct (topics _ !! name) as [t|]; [|done]. destruct (last (Segments t)); [|done].
  destruct (Append _ _ _) as [[[off|e] s'] w3] eqn:HA; [done|]. simpl.
  intros [= ->]. by apply Append_error in HA.
Qed.

Lemma drain_window_witness :
  let '(b', w') := Drain (E := env0) 5000 broker1 wb1 in
  let out := Produce (E := env0) (C := codec0) "orders" k0 v0 ∅ b' w' in
  out.1.1 = Err ErrDraining ∧ out.1.2 = b'.
Proof.
  destruct (Drain (E := env0) 5000 broker1 wb1) as [b' w'] eqn:HD.
  destruct (drain_window (E := env0) (C := codec0) 5000 broker1 wb1 b' w' "orders" k0 v0 ∅ w' HD)
    as [H _]. cbv zeta. destruct H as (H1 & H2 & _); [|by split].
  injection HD as _ <-. vm_compute. discriminate.
Defined.

(** Creating a topic is idempotent and touches no other: an existing topic
    is returned as it is; a new one starts as an empty log with a counter that
    agrees with its segment; when a system call fails the broker is unchanged
    and every log is intact. *)
Theorem create_topic_outcomes `{E : Env, C : RecordCodec} logs b name w r b' w' :
  broker_rep logs b w → plain name = true →
  (topics b !! name = None → no_segment w (OS.Join (b_dir b) name)) →
  CreateTopic name b w = (r, b', w') →
  match r with
  | Ok t => topics b' !! name = Some t
      ∧ broker_rep (match logs !! name with Some _ => logs | None => <[name := []]> logs end) b' w'
      ∧ (topics b !! name = None → topic_synced t)
      ∧ (is_Some (topics b !! name) → b' = b ∧ w' = w)
  | Err _ => b' = b ∧ broker_rep logs b w'
  end.
Proof.
  intros HB Hp Hfree HC. pose proof (CreateTopic_outcome _ _ _ _ _ _ _ HB Hp Hfree HC) as Hout.
  destruct r as [t|e]; [|done]. destruct Hout as (H1 & H2 & H3). split_and!; [done..|].
  intros [t0 Ht0]. unfold CreateTopic in HC. rewrite Ht0 in HC. by simplify_eq.
Qed.

Lemma create_topic_outcomes_witness :
  broker_rep (C := codec0) {["orders"%string := []]} broker1 wb1 ∧ topic_synced topic1.
Proof.
  destruct (create_topic_outcomes (E := env0) (C := codec0) ∅ broker0 "orders" wb0 _ _ _
    (inv_rep _ _ _ broker0_inv) eq_refl
    (λ _, inv_free _ _ _ broker0_inv "orders" eq_refl eq_refl) created0_ok) as (_ & H2 & H3 & _).
  split; [exact H2|by apply H3].
Defined.

(** ** Restart *)

Section restart.
Context {E : Env} {C : RecordCodec}.

(** Everything a topic needs on disk is the contents of its files. *)
Lemma index_synced_files s w w' :
  (∀ q, file w' q = file w q) → index_synced s w → index_synced s w'.
Proof. intros Hf [H1 H2 H3]. split; by rewrite ?Hf. Qed.

(** The log file of a topic. *)
Definition topicLog (dir : path) (name : string) : path :=
  OS.Join (OS.Join (OS.Join dir name) "000000") "segment.log".

Lemma CreateTopic_recover dir name recs t b w w1 r b' w' :
  topic_rep dir name recs t w → topic_indexed t w →
  (∀ f, file w (topicLog dir name) = Some f → zlen f < 2 ^ 63) →
  zlen recs < 2 ^ 63 → (∀ q, file w1 q = file w q) →
  b_dir b = dir → topics b = ∅ → CreateTopic name b w1 = (Ok r, b', w') →
  topics b' !! name = Some r ∧ broker_rep {[name := recs]} b' w' ∧ NextOffset r = 0.
Proof.
  intros [Hp _ (seg & Hseg & HR & [HP _ _] & HPath)] Hidx Hsize Hlen Hf Hd Ht HC.
  unfold CreateTopic in HC. rewrite Ht, lookup_empty, Hd in HC.
  destruct (MkdirAll _ w1) as [[[]|] w2] eqn:E2; [|done].
  assert (∀ q, file w2 q = file w q) as Hf2.
  { intros q. by rewrite (MkdirAll_file _ _ _ _ _ E2). }
  destruct (newSegment _ 0 w2) as [[s'|] w3] eqn:E3; [|done]. simplify_eq.
  rewrite <- HPath in E3.
  assert ((Path seg).2 ≠ []) as Hne by (rewrite HPath, (Join_plain (b_dir b)), Join_plain by done; done).
  assert (index_synced seg w2) as Hsync.
  { eapply index_synced_files; [exact Hf2|]. apply Hidx. by rewrite Hseg. }
  destruct (newSegment_ok _ _ _ _ _ Hne E3) as (_ & _ & HIx & _ & HTw).
  pose proof (rep_next _ _ _ _ HR) as Hn.
  destruct (newSegment_recover 0 recs seg w2 s' w') as (HR' & Ho' & Hto' & Hnx' & HP' & HPath');
    [|done|done|done|lia| |done|].
  { eapply seg_rep_file; [|exact HR]. apply Hf2. }
  { intros f. rewrite Hf2, (paths_log _ HP), HPath. apply Hsize. }
  simpl. rewrite lookup_insert_eq. split_and!; [done| |done].
  split; simpl.
  - intros n. rewrite lookup_insert. destruct (decide (name = n)) as [<-|Hn'].
    + by rewrite lookup_singleton_eq.
    + rewrite lookup_singleton_ne by done. by rewrite lookup_empty.
  - intros n rs u Hrs Hu. apply lookup_singleton_Some in Hrs as [<- <-].
    rewrite lookup_insert_eq in Hu. injection Hu as <-.
    split; [done|done|]. exists s'. split_and!; [done|done| |by rewrite HPath', HPath].
    split; [done| |by rewrite Ho', Hto'; apply Hsync].
    split; rewrite ?(paths_index _ HP'), ?(paths_time _ HP'), HPath'; [left; by eexists|done].
Qed.
End restart.

(** A successful [Produce] followed by a restart. *)
Section restarted.
Context {E : Env} {C : RecordCodec} {L : RecordCodecLaws}.

Lemma produce_restart logs recs name key value headers b w t0 rec b1 w1 b2 w2 t b3 w3 :
  broker_rep logs b w → logs !! name = Some recs → topics b !! name = Some t0 →
  topic_room t0 → storable key value headers →
  Produce name key value headers b w = (Ok rec, b1, w1) →
  (∀ f, file w1 (topicLog (b_dir b) name) = Some f → zlen f < 2 ^ 63) →
  NewBroker (b_dir b) w1 = (Ok b2, w2) → CreateTopic name b2 w2 = (Ok t, b3, w3) →
  topics b3 !! name = Some t ∧ NextOffset t = 0
  ∧ broker_rep {[name := recs ++ [with_offset (NextOffset t0) rec]]} b3 w3.
Proof.
  intros HB Hl Ht0 Hroom Hst HP Hsize HN HC.
  assert (∀ t, topics b !! name = Some t → topic_room t) as Hroom' by (intros; by simplify_eq).
  destruct (Produce_frame _ _ _ _ _ _ _ _ _ _ HB HP) as (Hd & _).
  destruct (Produce_outcome _ _ _ _ _ _ _ _ _ _ HB Hroom' Hst HP)
    as (recs' & t0' & Hl' & Ht0' & Ho & _ & _ & _ & HB' & t' & Ht' & _ & Hnx & Hidx). simplify_eq.
  pose proof (rep_topics _ _ _ HB' _ _ _ (lookup_insert_eq _ _ _) Ht') as HT. rewrite Hd in HT.
  assert (zlen (recs ++ [with_offset (NextOffset t0) rec]) < 2 ^ 63) as Hlen.
  { rewrite zlen_app. change (zlen [_]) with 1. rewrite <- Hnx.
    pose proof (topic_next _ _ _ _ _ HT) as Hi. unfold int64 in Hi. lia. }
  unfold NewBroker in HN. destruct (MkdirAll _ w1) as [[[]|] wm] eqn:EM; [|done]. simplify_eq.
  eapply CreateTopic_recover in HC as (Ht3 & HB3 & Hn3); [by split_and!|exact HT|exact Hidx
    |exact Hsize|exact Hlen|intros q; by eapply MkdirAll_file|done|done].
Qed.
End restarted.

Definition wr0 : world := (NewBroker (E := env0) dir0 wb2).2.
Definition recreated0 : res Topic * Broker * world :=
  CreateTopic (E := env0) "orders" broker0 wr0.
Definition topic3 : Topic := MkTopic "orders" 0 (OS.Join dir0 "orders")
  (match recreated0.1.1 with Ok t => Segments t | Err _ => [] end) 0.

Lemma restart0_ok : NewBroker (E := env0) (b_dir broker1) wb2 = (Ok broker0, wr0).
Proof.
  assert ((NewBroker (E := env0) dir0 wb2).1 = Ok broker0) as H by (vm_compute; reflexivity).
  change (b_dir broker1) with dir0.
  rewrite (surjective_pairing (NewBroker (E := env0) dir0 wb2)), H. reflexivity.
Qed.

Lemma recreated0_ok :
  CreateTopic (E := env0) "orders" broker0 wr0 = (Ok topic3, recreated0.1.2, recreated0.2).
Proof.
  assert (recreated0.1.1 = Ok topic3) as <- by (vm_compute; reflexivity).
  rewrite <- !surjective_pairing. done.
Qed.

Lemma wb2_log_size f :
  file wb2 (topicLog (b_dir broker1) "orders") = Some f → zlen f < 2 ^ 63.
Proof. intros Hf. vm_compute in Hf. injection Hf as <-. reflexivity. Qed.

(** C20: an acknowledged record survives a restart: after a successful
    [Produce], a new broker on the same directory that creates the topic again
    serves exactly the records of the old one, the new record last. *)
Theorem restart_recovers_log `{E : Env, C : RecordCodec, !RecordCodecLaws}
    logs recs name key value headers b w t0 rec b1 w1 b2 w2 t b3 w3 :
  broker_rep logs b w → logs !! name = Some recs → topics b !! name = Some t0 →
  topic_room t0 → storable key value headers →
  Produce name key value headers b w = (Ok rec, b1, w1) →
  (∀ f, file w1 (topicLog (b_dir b) name) = Some f → zlen f < 2 ^ 63) →
  NewBroker (b_dir b) w1 = (Ok b2, w2) → CreateTopic name b2 w2 = (Ok t, b3, w3) →
  broker_rep {[name := recs ++ [with_offset (NextOffset t0) rec]]} b3 w3.
Proof. intros. by eapply produce_restart. Qed.

Lemma restart_recovers_log_witness :
  broker_rep (C := codec0) {["orders"%string := [rec1]]} recreated0.1.2 recreated0.2.
Proof.
  destruct broker1_rep as (HB & HS & HR).
  exact (restart_recovers_log (E := env0) (C := codec0) _ [] "orders" k0 v0 ∅ broker1 wb1 topic1
    rec1 broker2 wb2 broker0 wr0 topic3 recreated0.1.2 recreated0.2
    HB orders_log broker1_topic HR (proj1 kv0_carriable) produced0_ok wb2_log_size
    restart0_ok recreated0_ok).
Defined.

(** The topic of a restarted broker starts its own counter at 0 again, so
    the next record is stored with the wrong [Offset] field: [Produce] returns
    it with its true offset, the length of the recovered log, but a consumer
    that reads that offset gets the same record marked as offset 0. *)
Theorem restart_stale_offset_field `{E : Env, C : RecordCodec, !RecordCodecLaws, !Reliable E}
    logs recs name key value headers b w t0 rec b1 w1 b2 w2 t b3 w3 rec' b4 w4 :
  broker_rep logs b w → logs !! name = Some recs → topics b !! name = Some t0 →
  topic_room t0 → storable key value headers →
  Produce name key value headers b w = (Ok rec, b1, w1) →
  (∀ f, file w1 (topicLog (b_dir b) name) = Some f → zlen f < 2 ^ 63) →
  NewBroker (b_dir b) w1 = (Ok b2, w2) → CreateTopic name b2 w2 = (Ok t, b3, w3) →
  topic_room t → Produce name key value headers b3 w3 = (Ok rec', b4, w4) →
  Offset rec' = zlen recs + 1
  ∧ (Consume name (Offset rec') 1 b4 w4).1 = Ok [with_offset 0 rec'].
Proof.
  intros HB Hl Ht0 Hroom Hst HP Hsize HN HC Hroom3 HP3.
  destruct (produce_restart _ _ _ _ _ _ _ _ _ _ _ _ _ _ _ _ _ HB Hl Ht0 Hroom Hst HP Hsize HN HC)
    as (Ht3 & Hn3 & HB3).
  assert (∀ t0, topics b3 !! name = Some t0 → topic_room t0) as Hroom3' by (intros; by simplify_eq).
  destruct (Produce_outcome _ _ _ _ _ _ _ _ _ _ HB3 Hroom3' Hst HP3)
    as (recs' & t' & Hl' & Ht' & Ho & _ & _ & _ & HB4 & _).
  rewrite lookup_singleton_eq in Hl'. simplify_eq. split.
  - by rewrite Ho, zlen_app.
  - destruct (Consume_reliable _ name _ (Offset rec') 1 _ _ HB4 (lookup_insert_eq _ _ _)) as [w5 ->].
    cbn [fst]. f_equal. rewrite Ho. unfold zlen. rewrite Nat2Z.id, drop_app_length, Hn3. done.
Qed.

Definition produced3 : res LogRecord * Broker * world :=
  Produce (E := env0) (C := codec0) "orders" k0 v0 ∅ recreated0.1.2 recreated0.2.
Definition rec3 : LogRecord :=
  match produced3.1.1 with Ok r => r | Err _ => rec1 end.

Lemma restart_stale_offset_field_witness :
  Offset rec3 = 1
  ∧ (Consume (E := env0) (C := codec0) "orders" (Offset rec3) 1 produced3.1.2 produced3.2).1
    = Ok [with_offset 0 rec3].
Proof.
  destruct broker1_rep as (HB & HS & HR).
  assert (produced3 = (Ok rec3, produced3.1.2, produced3.2)) as HP3.
  { assert (produced3.1.1 = Ok rec3) as <- by (vm_compute; reflexivity).
    by rewrite <- !surjective_pairing. }
  eapply (restart_stale_offset_field (E := env0) (C := codec0) _ [] "orders" k0 v0 ∅ broker1 wb1
    topic1 rec1 broker2 wb2 broker0 wr0 topic3 recreated0.1.2 recreated0.2 rec3
    _ _ HB orders_log broker1_topic HR (proj1 kv0_carriable) produced0_ok wb2_log_size
    restart0_ok recreated0_ok); [|exact HP3].
  intros seg Hseg. vm_compute in Hseg. injection Hseg as <-.
  unfold room, maxPayload. simpl. lia.
Defined.
