(* ===== verification/Idempotent.v ===== *)
(** * The idempotent producer ([src/broker/idempotent.go])

    [ProduceIdempotent] takes the broker's mutex twice, around the check of the
    deduplication cache and around the bookkeeping after the append, with
    [Produce] (which takes it itself) in between.  The three critical sections
    are three atomic steps of a thread; a call that nothing interrupts is their
    composition. *)

From S2P Require Import Prelude Encoding OS Segment Samples SegmentFacts ConsumerGroup Broker.
From S2P Require Import BrokerFacts BrokerRun BrokerProps.

(** ** Operations *)

(** [fmt.Sprintf("%d", v)] as a string. *)
Definition sprint_d (v : Z) : string := String.string_of_list_byte (sprintf_d v).

Definition seqKey (topicName producerID : string) : string := topicName +:+ "|" +:+ producerID.
Definition dedupKey (topicName producerID : string) (sequence : Z) : string :=
  seqKey topicName producerID +:+ "|" +:+ sprint_d sequence.

(** The arguments of a call. *)
Record IdemReq := MkIdemReq {
  i_topicName : string;
  i_key : list byte;
  i_value : list byte;
  i_headers : gmap string string;
  i_producerID : string;
  i_sequence : Z }.

Definition req_key (q : IdemReq) : string :=
  dedupKey (i_topicName q) (i_producerID q) (i_sequence q).

(** The result [(Record, bool, error)]. *)
Definition idem_result : Type := res (LogRecord * bool).

(** Where a call is. *)
Inductive IdemPc :=
  | AtCheck
  | AtProduce
  | AtRecord (rec : LogRecord)
  | Returned (r : idem_result).

Section operations.
Context {E : Env} {C : RecordCodec}.

(** The first critical section: the cache and the last sequence number. *)
Definition idem_check (q : IdemReq) (b : Broker) : IdemPc :=
  if bool_decide (i_producerID q = EmptyString) then Returned (Err (ErrMsg "producerID is required"))
  else match dedupCache b !! req_key q with
  | Some cached => Returned (Ok (cached, true))
  | None =>
      match producerSeq b !! seqKey (i_topicName q) (i_producerID q) with
      | Some last => if i_sequence q <? last then Returned (Err ErrOutOfOrderSequence) else AtProduce
      | None => AtProduce
      end
  end.

(** The last critical section; a missing sequence number reads as 0. *)
Definition idem_record (q : IdemReq) (rec : LogRecord) (b : Broker) : Broker :=
  let sk := seqKey (i_topicName q) (i_producerID q) in
  let b := if default 0 (producerSeq b !! sk) <? i_sequence q
           then set_producerSeq (<[sk := i_sequence q]> (producerSeq b)) b else b in
  set_dedupCache (<[req_key q := rec]> (dedupCache b)) b.

(** One atomic step of a call. *)
Definition idem_step (q : IdemReq) (pc : IdemPc) (b : Broker) (w : world) : IdemPc * Broker * world :=
  match pc with
  | AtCheck => (idem_check q b, b, w)
  | AtProduce =>
      match Produce (i_topicName q) (i_key q) (i_value q) (i_headers q) b w with
      | (Err e, b, w) => (Returned (Err e), b, w)
      | (Ok rec, b, w) => (AtRecord rec, b, w)
      end
  | AtRecord rec => (Returned (Ok (rec, false)), idem_record q rec b, w)
  | Returned r => (Returned r, b, w)
  end.

(** The call, when no other runs in between. *)
Definition ProduceIdempotent (q : IdemReq) (b : Broker) (w : world) : idem_result * Broker * world :=
  match idem_check q b with
  | Returned r => (r, b, w)
  | _ =>
      match Produce (i_topicName q) (i_key q) (i_value q) (i_headers q) b w with
      | (Err e, b, w) => (Err e, b, w)
      | (Ok rec, b, w) => (Ok (rec, false), idem_record q rec b, w)
      end
  end.

(** Concurrent calls: a schedule names the thread of each step. *)
Fixpoint idem_schedule (reqs : list IdemReq) (sched : list nat) (pcs : list IdemPc)
    (b : Broker) (w : world) : list IdemPc * Broker * world :=
  match sched with
  | [] => (pcs, b, w)
  | i :: sched =>
      match reqs !! i, pcs !! i with
      | Some q, Some pc =>
          let '(pc, b, w) := idem_step q pc b w in
          idem_schedule reqs sched (<[i := pc]> pcs) b w
      | _, _ => idem_schedule reqs sched pcs b w
      end
  end.
End operations.

(** ** Keys *)

Lemma has_char_no_split c a x a' x' :
  has_char c a = false → has_char c a' = false →
  a +:+ String c x = a' +:+ String c x' → a = a' ∧ x = x'.
Proof.
  revert a'. induction a as [|d a IH]; intros [|d' a'] Ha Ha' H; simpl in *; simplify_eq.
  - done.
  - apply orb_false_iff in Ha' as [Ha' _]. by rewrite bool_decide_eq_true_2 in Ha'.
  - apply orb_false_iff in Ha as [Ha _]. by rewrite bool_decide_eq_true_2 in Ha.
  - apply orb_false_iff in Ha as [_ Ha]. apply orb_false_iff in Ha' as [_ Ha'].
    by destruct (IH a' Ha Ha') as [-> ->].
Qed.

(** The part after the last separator. *)
Lemma has_char_last_split c x s x' s' :
  has_char c s = false → has_char c s' = false →
  x +:+ String c s = x' +:+ String c s' → x = x' ∧ s = s'.
Proof.
  intros Hs Hs'. revert x'. induction x as [|d x IH]; intros [|d' x'] H; simpl in *; simplify_eq.
  - done.
  - rewrite has_char_app in Hs. simpl in Hs. rewrite bool_decide_eq_true_2, orb_true_r in Hs; done.
  - rewrite has_char_app in Hs'. simpl in Hs'. rewrite bool_decide_eq_true_2, orb_true_r in Hs'; done.
  - by destruct (IH x') as [-> ->].
Qed.

Definition bar : Ascii.ascii := Ascii.ascii_of_byte x7c.

Lemma string_of_bytes_no_bar l :
  Forall (λ x, x ≠ x7c) l → has_char bar (String.string_of_list_byte l) = false.
Proof.
  induction 1 as [|x l Hx _ IH]; [done|].
  change (String.string_of_list_byte (x :: l))
    with (String (Ascii.ascii_of_byte x) (String.string_of_list_byte l)).
  cbn [has_char]. rewrite IH, orb_false_r.
  apply bool_decide_eq_false_2. intros Heq. apply Hx.
  apply (f_equal Ascii.byte_of_ascii) in Heq. rewrite Ascii.byte_of_ascii_of_byte in Heq. done.
Qed.

Lemma digit_byte_not_bar d : 0 <= d < 10 → digit_byte d ≠ x7c.
Proof.
  intros H Heq. apply (f_equal Z_of_byte) in Heq. unfold digit_byte in Heq.
  rewrite Z_of_byte_of_Z in Heq. rewrite Z.mod_small in Heq by lia. change (Z_of_byte x7c) with 124 in Heq. lia.
Qed.

Lemma sprint_d_no_bar v : int64 v → has_char bar (sprint_d v) = false.
Proof.
  intros Hv. apply string_of_bytes_no_bar. unfold sprintf_d, int64 in *.
  assert (∀ n, 0 <= n < 10 ^ Z.of_nat 20 → Forall (λ x, x ≠ x7c) (digit_byte <$> dec_digits 20 n)) as H.
  { intros n Hn. apply Forall_fmap. eapply Forall_impl; [by apply dec_digits_range|].
    intros d Hd. by apply digit_byte_not_bar. }
  destruct (v <? 0) eqn:Hz; bool_prop; [constructor; [done|]|]; apply H; cbn; lia.
Qed.

Lemma sprint_d_inj v v' : int64 v → int64 v' → sprint_d v = sprint_d v' → v = v'.
Proof.
  intros Hv Hv' H. apply (f_equal String.list_byte_of_string) in H. unfold sprint_d in H.
  rewrite !String.list_byte_of_string_of_list_byte in H.
  apply (f_equal sscanf_d) in H. rewrite !sscanf_sprintf in H by done. by simplify_eq.
Qed.

(** When topic names have no ['|'], the cache key identifies the request. *)
Lemma dedupKey_inj t p s t' p' s' :
  has_char bar t = false → has_char bar t' = false → int64 s → int64 s' →
  dedupKey t p s = dedupKey t' p' s' → t = t' ∧ p = p' ∧ s = s'.
Proof.
  intros Ht Ht' Hs Hs' H. unfold dedupKey in H.
  apply (has_char_last_split bar) in H as [H1 H2]; [|by apply sprint_d_no_bar..].
  apply sprint_d_inj in H2; [|done..]. unfold seqKey in H1.
  by apply (has_char_no_split bar) in H1 as [-> ->].
Qed.

(** ** The cache never forgets *)

Section sequential.
Context {E : Env} {C : RecordCodec}.

Lemma Produce_cache t k v h b w r b' w' :
  Produce t k v h b w = (r, b', w') →
  dedupCache b' = dedupCache b ∧ producerSeq b' = producerSeq b ∧ txState b' = txState b.
Proof. unfold Produce. intros H. by repeat case_match; simplify_eq. Qed.

Lemma CreateTopic_cache t b w r b' w' :
  CreateTopic t b w = (r, b', w') →
  dedupCache b' = dedupCache b ∧ producerSeq b' = producerSeq b ∧ txState b' = txState b.
Proof. unfold CreateTopic. intros H. by repeat case_match; simplify_eq. Qed.

Lemma broker_op_cache b w b' w' :
  broker_op b w b' w' →
  dedupCache b' = dedupCache b ∧ producerSeq b' = producerSeq b ∧ txState b' = txState b.
Proof.
  destruct 1; try done; [by eapply CreateTopic_cache|by eapply Produce_cache|].
  unfold Drain, time_now in *. by simplify_eq.
Qed.

(** A call is its three steps in a row. *)
Lemma ProduceIdempotent_steps q b w :
  let '(pc1, b1, w1) := idem_step q AtCheck b w in
  let '(pc2, b2, w2) := idem_step q pc1 b1 w1 in
  let '(pc3, b3, w3) := idem_step q pc2 b2 w2 in
  let '(r, b', w') := ProduceIdempotent q b w in
  pc3 = Returned r ∧ b3 = b' ∧ w3 = w'.
Proof.
  unfold ProduceIdempotent. cbn [idem_step].
  assert (idem_check q b = AtProduce ∨ ∃ r, idem_check q b = Returned r) as [->|[r ->]].
  { unfold idem_check. repeat case_match; eauto. }
  - cbn [idem_step]. destruct (Produce _ _ _ _ b w) as [[[rec|e] b1] w1]; done.
  - done.
Qed.

(** What a call did: answered from the cache, was refused, or produced. *)
Lemma ProduceIdempotent_cases q b w r b' w' :
  ProduceIdempotent q b w = (r, b', w') →
  match r with
  | Ok (rec, true) => dedupCache b !! req_key q = Some rec ∧ b' = b ∧ w' = w
  | Ok (rec, false) =>
      dedupCache b !! req_key q = None
      ∧ ∃ b1, Produce (i_topicName q) (i_key q) (i_value q) (i_headers q) b w = (Ok rec, b1, w')
          ∧ b' = idem_record q rec b1
  | Err e => dedupCache b !! req_key q = None ∨ i_producerID q = EmptyString
  end ∧ (∀ k rec, dedupCache b !! k = Some rec → dedupCache b' !! k = Some rec)
      ∧ (∀ rec d, r = Ok (rec, d) → dedupCache b' !! req_key q = Some rec).
Proof.
  unfold ProduceIdempotent, idem_check. intros H.
  case_bool_decide as Hp; [simplify_eq; by split_and!; [right|..]|].
  destruct (dedupCache b !! req_key q) as [cached|] eqn:Hc.
  { simplify_eq. split_and!; try done. intros rec d [= <- <-]. done. }
  assert (∀ r0 b0 w0, Produce (i_topicName q) (i_key q) (i_value q) (i_headers q) b w = (r0, b0, w0)
    → dedupCache b0 = dedupCache b) as HP by (intros ??? HP; by apply Produce_cache in HP as [-> _]).
  assert (∀ rec b0, dedupCache (idem_record q rec b0) = <[req_key q := rec]> (dedupCache b0)) as HR.
  { intros rec b0. unfold idem_record. cbv zeta. by destruct (_ <? _). }
  destruct (producerSeq b !! _) as [last|]; [destruct (i_sequence q <? last)|].
  1:{ simplify_eq. split_and!; try done. by left. }
  all: destruct (Produce _ _ _ _ b w) as [[[rec|e] b1] w1] eqn:EP; simplify_eq;
    rewrite ?HR, ?(HP _ _ _ eq_refl); split_and!; try done; try (by left); try (by eauto);
    try (intros k r0 Hk; rewrite lookup_insert_ne by congruence; done);
    intros r0 d [= <- <-]; by rewrite lookup_insert_eq.
Qed.
End sequential.

(** ** Sequential histories *)

Section history.
Context {E : Env} {C : RecordCodec}.

(** Calls one after the other, with other broker operations in between; the
    trace has the requests and their results. *)
Inductive idem_run : Broker → world → list (IdemReq * idem_result) → Broker → world → Prop :=
| idem_nil b w : idem_run b w [] b w
| idem_other b w b1 w1 tr b' w' :
    broker_op b w b1 w1 → idem_run b1 w1 tr b' w' → idem_run b w tr b' w'
| idem_call q b w r b1 w1 tr b' w' :
    ProduceIdempotent q b w = (r, b1, w1) → idem_run b1 w1 tr b' w' →
    idem_run b w ((q, r) :: tr) b' w'.

(** What is in the cache stays there, and answers every later request. *)
Lemma idem_run_cached b w tr b' w' k rec :
  idem_run b w tr b' w' → dedupCache b !! k = Some rec →
  dedupCache b' !! k = Some rec
  ∧ ∀ q r, (q, r) ∈ tr → req_key q = k → i_producerID q ≠ EmptyString → r = Ok (rec, true).
Proof.
  induction 1 as [b w|b w b1 w1 tr b' w' HS _ IH|q b w r b1 w1 tr b' w' HC _ IH]; intros Hk.
  - split; [done|]. by intros q r []%not_elem_of_nil.
  - apply broker_op_cache in HS as [HS _]. apply IH. by rewrite HS.
  - destruct (ProduceIdempotent_cases _ _ _ _ _ _ HC) as (Hr & Hkeep & _).
    destruct (IH (Hkeep _ _ Hk)) as [H1 H2]. split; [done|].
    intros q0 r0 [[= -> ->]|Hin]%elem_of_cons Hq Hp; [|by eapply H2].
    rewrite Hq, Hk in Hr. destruct r as [[rec' []]|e]; [naive_solver|naive_solver|].
    by destruct Hr.
Qed.
(** What a call did to the cache and to the last sequence numbers. *)
Lemma ProduceIdempotent_books q b w r b' w' :
  ProduceIdempotent q b w = (r, b', w') →
  let sk := seqKey (i_topicName q) (i_producerID q) in
  match r with
  | Ok (rec, false) =>
      dedupCache b !! req_key q = None
      ∧ (∀ last, producerSeq b !! sk = Some last → last ≤ i_sequence q)
      ∧ dedupCache b' = <[req_key q := rec]> (dedupCache b)
      ∧ producerSeq b' = (if default 0 (producerSeq b !! sk) <? i_sequence q
                          then <[sk := i_sequence q]> (producerSeq b) else producerSeq b)
  | _ => dedupCache b' = dedupCache b ∧ producerSeq b' = producerSeq b
  end.
Proof.
  intros H sk. revert H. unfold ProduceIdempotent, idem_check. fold sk.
  case_bool_decide; [by intros [= <- <- <-]|].
  destruct (dedupCache b !! req_key q) as [cached|]; [by intros [= <- <- <-]|].
  assert ((∃ last, producerSeq b !! sk = Some last ∧ i_sequence q < last) ∨
    ∀ last, producerSeq b !! sk = Some last → last ≤ i_sequence q) as [(last & -> & Hlt)|Hge].
  { destruct (producerSeq b !! sk) as [last|]; [|by right].
    destruct (decide (i_sequence q < last)); [left; eauto|]. right. intros ? [= <-]. lia. }
  { rewrite (proj2 (Z.ltb_lt _ _)) by done. by intros [= <- <- <-]. }
  assert (match producerSeq b !! sk with
    | Some last => if i_sequence q <? last then Returned (Err ErrOutOfOrderSequence) else AtProduce
    | None => AtProduce end = AtProduce) as ->.
  { destruct (producerSeq b !! sk); [|done]. by rewrite (proj2 (Z.ltb_ge _ _)) by auto. }
  destruct (Produce _ _ _ _ b w) as [[[rec|e] b1] w1] eqn:HP;
    apply Produce_cache in HP as (Hc & Hs & _); intros [= <- <- <-]; [|done].
  split_and!; try done; unfold idem_record; fold sk; rewrite Hs; destruct (_ <? _); simpl; congruence.
Qed.

(** ** What a history acknowledged *)

(** Sequence number [s] of a producer was acknowledged, as new, with [rec]. *)
Definition idem_acked (tr : list (IdemReq * idem_result)) (t p : string) (s : Z) (rec : LogRecord) : Prop :=
  ∃ q, (q, Ok (rec, false)) ∈ tr ∧ i_topicName q = t ∧ i_producerID q = p ∧ i_sequence q = s.

(** Requests whose cache keys tell them apart. *)
Definition well_keyed (q : IdemReq) : Prop :=
  has_char bar (i_topicName q) = false ∧ int64 (i_sequence q).

(** The cache is what was acknowledged, and the last sequence number the
    greatest positive one. *)
Record idem_books (tr : list (IdemReq * idem_result)) (b : Broker) : Prop := {
  bk_cache t p s rec : has_char bar t = false → int64 s →
    dedupCache b !! dedupKey t p s = Some rec ↔ idem_acked tr t p s rec;
  bk_seq t p : has_char bar t = false →
    match producerSeq b !! seqKey t p with
    | Some last => 0 < last ∧ (∃ rec, idem_acked tr t p last rec) ∧ ∀ s rec, idem_acked tr t p s rec → s ≤ last
    | None => ∀ s rec, idem_acked tr t p s rec → s ≤ 0
    end }.

Lemma books_fresh b : dedupCache b = ∅ → producerSeq b = ∅ → idem_books [] b.
Proof.
  intros H1 H2. split.
  - intros t p s rec _ _. rewrite H1, lookup_empty. split; [done|]. by intros (q & ?%not_elem_of_nil & _).
  - intros t p _. rewrite H2, lookup_empty. by intros s rec (q & ?%not_elem_of_nil & _).
Qed.

Lemma acked_snoc tr q r t p s rec :
  idem_acked (tr ++ [(q, r)]) t p s rec ↔
  idem_acked tr t p s rec
  ∨ (r = Ok (rec, false) ∧ i_topicName q = t ∧ i_producerID q = p ∧ i_sequence q = s).
Proof.
  unfold idem_acked. setoid_rewrite elem_of_app. setoid_rewrite list_elem_of_singleton. naive_solver.
Qed.

Lemma books_kept tr q r b b' :
  dedupCache b' = dedupCache b → producerSeq b' = producerSeq b →
  (∀ rec, r ≠ Ok (rec, false)) → idem_books tr b → idem_books (tr ++ [(q, r)]) b'.
Proof.
  intros H1 H2 Hr [Hc Hs].
  assert (∀ t p s rec, idem_acked (tr ++ [(q, r)]) t p s rec ↔ idem_acked tr t p s rec) as Hiff.
  { intros. rewrite acked_snoc. naive_solver. }
  split.
  - intros. rewrite H1, Hiff. auto.
  - intros t p Ht. rewrite H2. specialize (Hs t p Ht).
    destruct (producerSeq b !! _); setoid_rewrite Hiff; exact Hs.
Qed.

Lemma books_recorded tr q rec b b' :
  well_keyed q → idem_books tr b →
  let sk := seqKey (i_topicName q) (i_producerID q) in
  dedupCache b !! req_key q = None →
  (∀ last, producerSeq b !! sk = Some last → last ≤ i_sequence q) →
  dedupCache b' = <[req_key q := rec]> (dedupCache b) →
  producerSeq b' = (if default 0 (producerSeq b !! sk) <? i_sequence q
                    then <[sk := i_sequence q]> (producerSeq b) else producerSeq b) →
  idem_books (tr ++ [(q, Ok (rec, false))]) b'.
Proof.
  intros [Hq1 Hq2] [Hc Hs] sk Hnone Hge Hcache Hseq. split.
  - intros t p s rec' Ht Hs'. rewrite Hcache, lookup_insert_Some, acked_snoc, Hc by done. split.
    + intros [[Hk <-]|[_ ?]]; [|by left]. right.
      apply dedupKey_inj in Hk as (-> & -> & ->); done.
    + intros [Ha|([= ->] & <- & <- & <-)]; [right|by left]. split; [|done].
      intros Hk. apply dedupKey_inj in Hk as (<- & <- & <-); try done.
      apply Hc in Ha; [|done..]. unfold req_key in Hnone. congruence.
  - intros t p Ht. specialize (Hs t p Ht).
    destruct (decide (i_topicName q = t ∧ i_producerID q = p)) as [[<- <-]|Hne].
    + fold sk in Hs |- *. rewrite Hseq. destruct (producerSeq b !! sk) as [last|] eqn:Hl; simpl.
      * destruct Hs as (Hp & [rl Hrl] & Hmax). specialize (Hge _ eq_refl).
        destruct (last <? i_sequence q) eqn:Hlt; bool_prop; [rewrite lookup_insert_eq|rewrite Hl];
          setoid_rewrite acked_snoc; (split; [lia|]); (split; [naive_solver|]); intros s r [Ha|(_ & _ & _ & <-)]; try lia;
          apply Hmax in Ha; lia.
      * destruct (0 <? i_sequence q) eqn:Hlt; bool_prop; [rewrite lookup_insert_eq|rewrite Hl];
          setoid_rewrite acked_snoc.
        -- split; [lia|]. split; [naive_solver|]. intros s r [Ha|(_ & _ & _ & <-)]; [|lia].
           apply Hs in Ha. lia.
        -- intros s r [Ha|(_ & _ & _ & <-)]; [by eapply Hs|lia].
    + assert (sk ≠ seqKey t p) as Hk.
      { intros Hk. apply Hne. unfold sk, seqKey in Hk. by apply (has_char_no_split bar) in Hk. }
      assert (producerSeq b' !! seqKey t p = producerSeq b !! seqKey t p) as ->.
      { rewrite Hseq. destruct (_ <? _); [by rewrite lookup_insert_ne|done]. }
      destruct (producerSeq b !! seqKey t p); setoid_rewrite acked_snoc; [|naive_solver].
      destruct Hs as (? & [? ?] & ?). naive_solver.
Qed.

Lemma idem_run_books hist b w tr b' w' :
  idem_run b w tr b' w' → Forall (λ x, well_keyed x.1) tr →
  idem_books hist b → idem_books (hist ++ tr) b'.
Proof.
  intros HR. revert hist.
  induction HR as [b w|b w b1 w1 tr b' w' HS _ IH|q b w r b1 w1 tr b' w' HC _ IH]; intros hist HF HB.
  - by rewrite app_nil_r.
  - apply broker_op_cache in HS as (H1 & H2 & _). apply IH; [done|].
    destruct HB as [Hc Hs]. split; [by rewrite H1|by rewrite H2].
  - inversion HF as [|? ? Hq HF']; subst. rewrite cons_middle, app_assoc. apply IH; [done|].
    apply ProduceIdempotent_books in HC. destruct r as [[rec []]|e].
    + destruct HC as [H1 H2]. by eapply books_kept.
    + destruct HC as (H1 & H2 & H3 & H4). by eapply books_recorded.
    + destruct HC as [H1 H2]. by eapply books_kept.
Qed.

(** The answer of a call that goes on to produce. *)
Lemma produced_answer (mine : Z → LogRecord → Prop) q b w r b' w' :
  (∀ rec, ¬ mine (i_sequence q) rec) → (∀ s rec, mine s rec → 0 < s → s < i_sequence q) →
  match Produce (i_topicName q) (i_key q) (i_value q) (i_headers q) b w with
  | (Err e, b, w) => (Err e, b, w)
  | (Ok rec, b, w) => (Ok (rec, false), idem_record q rec b, w)
  end = (r, b', w') →
  (∀ rec, mine (i_sequence q) rec → r = Ok (rec, true) ∧ b' = b ∧ w' = w)
  ∧ ((∀ rec, ¬ mine (i_sequence q) rec) →
     (∃ s rec, mine s rec ∧ 0 < s ∧ i_sequence q < s) →
     r = Err ErrOutOfOrderSequence ∧ b' = b ∧ w' = w)
  ∧ ((∀ rec, ¬ mine (i_sequence q) rec) →
     (∀ s rec, mine s rec → 0 < s → s < i_sequence q) →
     ∃ rp b1, Produce (i_topicName q) (i_key q) (i_value q) (i_headers q) b w = (rp, b1, w')
       ∧ match rp with
         | Ok rec => r = Ok (rec, false) ∧ b' = idem_record q rec b1
         | Err e => r = Err e ∧ b' = b1
         end)
  ∧ (∀ rec, r = Ok (rec, false) → ∀ s rec0, mine s rec0 → 0 < s → s < i_sequence q).
Proof.
  intros Hn Hall HP. split_and!; [intros rec Hr; by destruct (Hn _ Hr)| | |by intros; eapply Hall].
  - intros _ (s & rec & Hm & Hs & Hlt). pose proof (Hall _ _ Hm Hs). lia.
  - intros _ _. destruct (Produce _ _ _ _ b w) as [[[rec|e] b1] w1]; simplify_eq; eexists _, _; by split.
Qed.
End history.

(** * Properties *)

(** C7: exactly once, sequentially.  In any history of [ProduceIdempotent]
    calls that follow each other, with any other operations in between and any
    faults, once a request for a (topic, producer, sequence) has been
    acknowledged, every later request with the same three is answered with that
    same record, flagged as a duplicate, and a duplicate changes neither the
    broker nor a file. *)
Theorem idempotent_exactly_once `{E : Env, C : RecordCodec} q b w rec dup b1 w1 tr b2 w2 q' r b3 w3 :
  ProduceIdempotent q b w = (Ok (rec, dup), b1, w1) → idem_run b1 w1 tr b2 w2 →
  i_topicName q' = i_topicName q → i_producerID q' = i_producerID q →
  i_sequence q' = i_sequence q →
  ProduceIdempotent q' b2 w2 = (r, b3, w3) →
  r = Ok (rec, true) ∧ b3 = b2 ∧ w3 = w2.
Proof.
  intros H1 HR Ht Hp Hs H2.
  destruct (ProduceIdempotent_cases _ _ _ _ _ _ H1) as (_ & _ & Hc).
  destruct (idem_run_cached _ _ _ _ _ _ _ HR (Hc _ _ eq_refl)) as [Hk _].
  assert (i_producerID q' ≠ EmptyString) as Hne.
  { rewrite Hp. intros He. unfold ProduceIdempotent, idem_check in H1. by rewrite He in H1. }
  assert (req_key q' = req_key q) as Hq by (unfold req_key; congruence).
  revert H2. unfold ProduceIdempotent, idem_check.
  rewrite bool_decide_eq_false_2, Hq, Hk by done. intros [= <- <- <-]. done.
Qed.

Definition req0 : IdemReq := MkIdemReq "orders" k0 v0 ∅ "p1" 5.
Definition idem0 : idem_result * Broker * world :=
  ProduceIdempotent (E := env0) (C := codec0) req0 broker1 wb1.

Lemma idem0_ok :
  ProduceIdempotent (E := env0) (C := codec0) req0 broker1 wb1
  = (Ok (rec1, false), idem0.1.2, idem0.2).
Proof.
  assert (idem0.1.1 = Ok (rec1, false)) as <- by (vm_compute; reflexivity).
  by rewrite <- !surjective_pairing.
Qed.

Lemma idempotent_exactly_once_witness :
  (ProduceIdempotent (E := env0) (C := codec0)
     (MkIdemReq "orders" [] [] ∅ "p1" 5) idem0.1.2 idem0.2).1.1 = Ok (rec1, true).
Proof.
  destruct (ProduceIdempotent (E := env0) (C := codec0)
     (MkIdemReq "orders" [] [] ∅ "p1" 5) idem0.1.2 idem0.2) as [[r b3] w3] eqn:H2.
  cbn [fst]. apply (idempotent_exactly_once (E := env0) (C := codec0) req0 broker1 wb1 rec1 false
    idem0.1.2 idem0.2 [] idem0.1.2 idem0.2 (MkIdemReq "orders" [] [] ∅ "p1" 5) r b3 w3
    idem0_ok (idem_nil _ _) eq_refl eq_refl eq_refl H2).
Defined.

(** C29: the answers of a sequential history, all of them.  From a broker that
    has seen no idempotent request, after any calls that follow each other with
    any other broker operations in between and any faults, a call of a producer
    is answered from what the history acknowledged to that producer on that
    topic: an acknowledged sequence number is answered with its record, flagged
    as a duplicate; one that was not acknowledged and is below an acknowledged
    positive one is refused with [ErrOutOfOrderSequence]; neither changes the
    broker or a file; every other one is produced, so the new acknowledged
    positive numbers of a producer on a topic only increase.  Topic names are
    free of the separator ['|'] and sequence numbers fit [int64]. *)
Theorem idempotent_history_exact `{E : Env, C : RecordCodec} b0 w0 tr b w q r b' w' :
  dedupCache b0 = ∅ → producerSeq b0 = ∅ → idem_run b0 w0 tr b w →
  Forall (λ x, well_keyed x.1) tr → well_keyed q → i_producerID q ≠ EmptyString →
  ProduceIdempotent q b w = (r, b', w') →
  let mine := idem_acked tr (i_topicName q) (i_producerID q) in
  (∀ rec, mine (i_sequence q) rec → r = Ok (rec, true) ∧ b' = b ∧ w' = w)
  ∧ ((∀ rec, ¬ mine (i_sequence q) rec) →
     (∃ s rec, mine s rec ∧ 0 < s ∧ i_sequence q < s) →
     r = Err ErrOutOfOrderSequence ∧ b' = b ∧ w' = w)
  ∧ ((∀ rec, ¬ mine (i_sequence q) rec) →
     (∀ s rec, mine s rec → 0 < s → s < i_sequence q) →
     ∃ rp b1, Produce (i_topicName q) (i_key q) (i_value q) (i_headers q) b w = (rp, b1, w')
       ∧ match rp with
         | Ok rec => r = Ok (rec, false) ∧ b' = idem_record q rec b1
         | Err e => r = Err e ∧ b' = b1
         end)
  ∧ (∀ rec, r = Ok (rec, false) → ∀ s rec0, mine s rec0 → 0 < s → s < i_sequence q).
Proof.
  intros H1 H2 HR HF Hq Hp HC mine.
  assert (idem_books tr b) as [Hc Hs] by (apply (idem_run_books [] _ _ _ _ _ HR HF), books_fresh; done).
  specialize (Hc (i_topicName q) (i_producerID q) (i_sequence q)).
  specialize (Hs (i_topicName q) (i_producerID q) (proj1 Hq)).
  fold mine in Hc, Hs. revert HC. unfold ProduceIdempotent, idem_check.
  rewrite bool_decide_eq_false_2 by done. fold (req_key q) in Hc.
  destruct (dedupCache b !! req_key q) as [cached|].
  { intros [= <- <- <-]. pose proof (proj1 (Hc cached (proj1 Hq) (proj2 Hq)) eq_refl) as Hm.
    split; [|split_and!; [intros H; by destruct (H _ Hm)..|done]].
    intros rec Hrec. apply Hc in Hrec; [|apply Hq..]. simplify_eq. done. }
  assert (∀ rec, ¬ mine (i_sequence q) rec) as Hnew.
  { intros rec Hrec. apply Hc in Hrec; [done|apply Hq..]. }
  destruct (producerSeq b !! _) as [last|].
  - destruct Hs as (Hpos & [rl Hl] & Hmax). destruct (i_sequence q <? last) eqn:Hlt; bool_prop.
    + intros [= <- <- <-]. split_and!; try done.
      * intros rec Hrec. by destruct (Hnew _ Hrec).
      * intros _ Hall. specialize (Hall _ _ Hl Hpos). lia.
    + apply produced_answer; [done|]. intros s rec Hs _. pose proof (Hmax _ _ Hs).
      assert (s ≠ i_sequence q) by (intros ->; by eapply Hnew). lia.
  - apply produced_answer; [done|]. intros s rec Hs' Hs0. specialize (Hs _ _ Hs'). lia.
Qed.

Lemma idempotent_history_exact_witness :
  (ProduceIdempotent (E := env0) (C := codec0)
     (MkIdemReq "orders" k0 v0 ∅ "p1" 3) idem0.1.2 idem0.2).1.1 = Err ErrOutOfOrderSequence.
Proof.
  destruct (ProduceIdempotent (E := env0) (C := codec0)
     (MkIdemReq "orders" k0 v0 ∅ "p1" 3) idem0.1.2 idem0.2) as [[r b3] w3] eqn:H2.
  assert (∀ s rec, idem_acked [(req0, Ok (rec1, false))] "orders" "p1" s rec → s = 5) as Hone.
  { intros s rec (q0 & Hin & _ & _ & <-). apply list_elem_of_singleton in Hin as [= -> _]. reflexivity. }
  destruct (idempotent_history_exact (E := env0) (C := codec0) broker1 wb1 [(req0, Ok (rec1, false))]
    idem0.1.2 idem0.2 (MkIdemReq "orders" k0 v0 ∅ "p1" 3) r b3 w3) as (_ & H & _).
  - vm_compute. reflexivity.
  - vm_compute. reflexivity.
  - exact (idem_call _ _ _ _ _ _ _ _ _ idem0_ok (idem_nil _ _)).
  - constructor; [|constructor]. split; [reflexivity|]. unfold int64. simpl. lia.
  - split; [reflexivity|]. unfold int64. simpl. lia.
  - discriminate.
  - exact H2.
  - apply H.
    + intros rec Hrec. simpl in Hrec. apply Hone in Hrec. lia.
    + exists 5, rec1. split; [|simpl; lia]. exists req0. split; [by apply list_elem_of_singleton|].
      split_and!; reflexivity.
Defined.

(** The number of records of a topic, by a read. *)
Definition topic_values (b : Broker) (w : world) (name : string) : list (list byte) :=
  match (Consume (E := env0) (C := codec0) name 0 100 b w).1 with
  | Ok l => Value <$> l
  | Err _ => []
  end.

(** The check, the append and the bookkeeping are separate critical
    sections, so two concurrent calls with the same topic, producer and
    sequence can both pass the check: both are acknowledged as new and the log
    gets the record twice.  Run one after the other, the second is a
    duplicate. *)
Theorem idempotent_race_duplicates :
  let race := idem_schedule (E := env0) (C := codec0) [req0; req0] [0; 1; 0; 1; 0; 1]%nat
                [AtCheck; AtCheck] broker1 wb1 in
  let seq := idem_schedule (E := env0) (C := codec0) [req0; req0] [0; 0; 0; 1; 1; 1]%nat
                [AtCheck; AtCheck] broker1 wb1 in
  (∃ r1 r2, race.1.1 = [Returned (Ok (r1, false)); Returned (Ok (r2, false))]
     ∧ Offset r1 = 0 ∧ Offset r2 = 1)
  ∧ topic_values race.1.2 race.2 "orders" = [v0; v0]
  ∧ seq.1.1 = [Returned (Ok (rec1, false)); Returned (Ok (rec1, true))]
  ∧ topic_values seq.1.2 seq.2 "orders" = [v0].
Proof.
  split; [|split; [vm_compute; reflexivity|split; vm_compute; reflexivity]].
  eexists _, _. split; [vm_compute; reflexivity|]. split; reflexivity.
Qed.

(** The cache key joins topic, producer and sequence with ['|'] and does
    not escape it: the producer "c" of topic "a|b" is answered with the record
    of the producer "b|c" of topic "a", although its own topic holds no record. *)
Theorem idempotent_key_collision :
  let b1 := (CreateTopic (E := env0) "a" broker0 wb0) in
  let b2 := (CreateTopic (E := env0) "a|b" b1.1.2 b1.2) in
  let p1 := ProduceIdempotent (E := env0) (C := codec0) (MkIdemReq "a" k0 v0 ∅ "b|c" 1) b2.1.2 b2.2 in
  let p2 := ProduceIdempotent (E := env0) (C := codec0) (MkIdemReq "a|b" k0 [] ∅ "c" 1) p1.1.2 p1.2 in
  p2.1.1 = (match p1.1.1 with Ok (r, _) => Ok (r, true) | Err e => Err e end)
  ∧ is_ok p1.1.1 = true ∧ topic_values p2.1.2 p2.2 "a|b" = [].
Proof. split; [vm_compute; reflexivity|]. split; vm_compute; reflexivity. Qed.
