(* ===== verification/Transactions.v ===== *)
(** * Transactions ([src/broker/transactions.go])

    A transaction buffers records in memory; [CommitTransaction] marks it as
    committing, then creates topics and produces the buffered records one by
    one, and marks it as committed at the end.  The lock is released in between:
    [commit_begin] and [commit_section] are its critical sections, [con_step]
    interleaves the sections of any number of commits with each other and with
    every other operation, and the function [CommitTransaction] is a call whose
    sections run without another one in between ([commit_alone_eq]). *)

From S2P Require Import Prelude Encoding OS Segment Samples SegmentFacts ConsumerGroup Broker.
From S2P Require Import BrokerFacts BrokerRun BrokerProps Idempotent.

(** ** Operations *)

Definition set_tx_Status (st : TxStatus) (tx : Transaction) : Transaction :=
  MkTransaction (tx_ID tx) (tx_ProducerID tx) (tx_Epoch tx) st (tx_CreatedAt tx) (tx_Records tx).
Definition set_tx_Records (rs : list TxRecord) (tx : Transaction) : Transaction :=
  MkTransaction (tx_ID tx) (tx_ProducerID tx) (tx_Epoch tx) (tx_Status tx) (tx_CreatedAt tx) rs.

(** A change of the transaction a pointer from the map points to. *)
Definition update_tx (txID : string) (f : Transaction → Transaction) (b : Broker) : Broker :=
  set_txState (alter f txID (txState b)) b.

Section operations.
Context {E : Env} {C : RecordCodec}.

(** [fmt.Sprintf("%s-%d-%d", producerID, epoch, time.Now().UnixNano())] *)
Definition tx_id (producerID : string) (epoch now : Z) : string :=
  producerID +:+ "-" +:+ sprint_d epoch +:+ "-" +:+ sprint_d (wrap64 now).

Definition BeginTransaction (producerID : string) (epoch : Z) (b : Broker) (w : world)
    : res string * Broker * world :=
  if bool_decide (producerID = EmptyString) then (Err (ErrMsg "producerID is required"), b, w)
  else
    let '(now, w) := time_now w in
    let txID := tx_id producerID epoch now in
    let '(created, w) := time_now w in
    (Ok txID,
     set_txState (<[txID := MkTransaction txID producerID epoch TxOpen created []]> (txState b)) b, w).

Definition TxProduce (txID topic : string) (key value : list byte) (headers : gmap string string)
    (b : Broker) : res unit * Broker :=
  if bool_decide (topic = EmptyString) then (Err (ErrMsg "topic is required"), b)
  else match txState b !! txID with
  | None => (Err ErrTxNotFound, b)
  | Some tx =>
      if decide (tx_Status tx = TxOpen) then
        let rec := MkTxRecord topic key value (cloneHeaders headers) in
        (Ok tt, update_tx txID (λ tx, set_tx_Records (tx_Records tx ++ [rec]) tx) b)
      else (Err ErrTxClosed, b)
  end.

(** The loop over the copied records; the count and the error are both returned. *)
Fixpoint commitLoop (records : list TxRecord) (committed : Z) (b : Broker) (w : world)
    : Z * option error * Broker * world :=
  match records with
  | [] => (committed, None, b, w)
  | r :: records =>
      match CreateTopic (tr_Topic r) b w with
      | (Err e, b, w) => (committed, Some e, b, w)
      | (Ok _, b, w) =>
          match Produce (tr_Topic r) (tr_Key r) (tr_Value r) (tr_Headers r) b w with
          | (Err e, b, w) => (committed, Some e, b, w)
          | (Ok _, b, w) => commitLoop records (committed + 1) b w
          end
      end
  end.

(** The call, when no other section runs in between. *)
Definition CommitTransaction (txID : string) (b : Broker) (w : world)
    : Z * option error * Broker * world :=
  match txState b !! txID with
  | None => (0, Some ErrTxNotFound, b, w)
  | Some tx =>
      if decide (tx_Status tx = TxOpen) then
        let b := update_tx txID (set_tx_Status TxCommitting) b in
        match commitLoop (tx_Records tx) 0 b w with
        | (committed, Some e, b, w) => (committed, Some e, b, w)
        | (committed, None, b, w) =>
            (committed, None, update_tx txID (set_tx_Status TxCommitted) b, w)
        end
      else (0, Some ErrTxClosed, b, w)
  end.

(** The critical sections of the call.  A call in flight holds a pointer to the
    transaction, which is the map's entry ([cm_live]) until a later begin with
    the same ID replaces it, its copy of the records from the current one on,
    whether the current record's topic has been created, and the count. *)
Record TxCommit := MkTxCommit {
  cm_ID : string;
  cm_live : bool;
  cm_records : list TxRecord;
  cm_made : bool;
  cm_committed : Z }.

Inductive CommitPc :=
  | InFlight (c : TxCommit)
  | CommitReturned (n : Z) (e : option error).

(** The first section: the checks, the new status and the copy of the records. *)
Definition commit_begin (txID : string) (b : Broker) : CommitPc * Broker :=
  match txState b !! txID with
  | None => (CommitReturned 0 (Some ErrTxNotFound), b)
  | Some tx =>
      if decide (tx_Status tx = TxOpen) then
        (InFlight (MkTxCommit txID true (tx_Records tx) false 0),
         update_tx txID (set_tx_Status TxCommitting) b)
      else (CommitReturned 0 (Some ErrTxClosed), b)
  end.

(** A later one: [CreateTopic] or [Produce] of the current record, or the final
    status, written through the pointer. *)
Definition commit_section (c : TxCommit) (b : Broker) (w : world) : CommitPc * Broker * world :=
  match cm_records c with
  | [] =>
      (CommitReturned (cm_committed c) None,
       (if cm_live c then update_tx (cm_ID c) (set_tx_Status TxCommitted) b else b), w)
  | r :: records =>
      if cm_made c then
        match Produce (tr_Topic r) (tr_Key r) (tr_Value r) (tr_Headers r) b w with
        | (Err e, b, w) => (CommitReturned (cm_committed c) (Some e), b, w)
        | (Ok _, b, w) =>
            (InFlight (MkTxCommit (cm_ID c) (cm_live c) records false (cm_committed c + 1)), b, w)
        end
      else
        match CreateTopic (tr_Topic r) b w with
        | (Err e, b, w) => (CommitReturned (cm_committed c) (Some e), b, w)
        | (Ok _, b, w) =>
            (InFlight (MkTxCommit (cm_ID c) (cm_live c) (cm_records c) true (cm_committed c)), b, w)
        end
  end.

(** At most [n] sections in a row. *)
Fixpoint commit_alone (n : nat) (pc : CommitPc) (b : Broker) (w : world) : CommitPc * Broker * world :=
  match n, pc with
  | S n, InFlight c => let '(pc, b, w) := commit_section c b w in commit_alone n pc b w
  | _, _ => (pc, b, w)
  end.

Definition AbortTransaction (txID : string) (b : Broker) : res unit * Broker :=
  match txState b !! txID with
  | None => (Err ErrTxNotFound, b)
  | Some tx =>
      if decide (tx_Status tx = TxOpen) then
        (Ok tt, update_tx txID (λ tx, set_tx_Records [] (set_tx_Status TxAborted tx)) b)
      else (Err ErrTxClosed, b)
  end.

Definition ConsumeReadCommitted (topicName : string) (fromOffset max : Z) (b : Broker) (w : world)
    : res (list LogRecord) * world := Consume topicName fromOffset max b w.
End operations.

(** ** Specification *)

(** What of a record does not depend on when and where it is appended. *)
Definition content (r : LogRecord) : list byte * list byte * gmap string string :=
  (Key r, Value r, Headers r).
Definition tx_content (r : TxRecord) : list byte * list byte * gmap string string :=
  (tr_Key r, tr_Value r, cloneHeaders (tr_Headers r)).

(** The log of a topic, empty when there is no such topic. *)
Definition log_of (logs : gmap string (list LogRecord)) (name : string) : list LogRecord :=
  default [] (logs !! name).

(** [logs'] is [logs] with [records] appended, in order, each to its topic. *)
Definition appended (logs : gmap string (list LogRecord)) (records : list TxRecord)
    (logs' : gmap string (list LogRecord)) : Prop :=
  ∀ name, content <$> log_of logs' name
          = (content <$> log_of logs name)
            ++ (tx_content <$> filter (λ r, tr_Topic r = name) records).

(** [n] more records of any size fit the counters. *)
Definition room_for (n : nat) (s : Segment) : Prop :=
  position s + Z.of_nat n * (4 + maxPayload) < 2 ^ 63 ∧ nextOffset s + Z.of_nat n < 2 ^ 63.
Definition broker_room (n : nat) (b : Broker) : Prop :=
  ∀ name t seg, topics b !! name = Some t → last (Segments t) = Some seg → room_for n seg.

(** ** Room *)

Section room.
Context {E : Env} {C : RecordCodec}.

Lemma room_for_room n s : room_for (S n) s → room s.
Proof. unfold room_for, room, maxPayload. lia. Qed.

Lemma room_for_weaken n m s : (m ≤ n)%nat → room_for n s → room_for m s.
Proof. unfold room_for, maxPayload. nia. Qed.

Lemma Append_room base recs s rec w n r s' w' :
  seg_rep base recs s w → room_for (S n) s → Append s rec w = (r, s', w') → room_for n s'.
Proof.
  intros HR Hn HA. pose proof (room_for_weaken (S n) n s ltac:(lia) Hn) as Hw.
  pose proof (rep_pos _ _ _ _ HR). pose proof (rep_next _ _ _ _ HR) as Hnx.
  pose proof (rep_base _ _ _ _ HR). pose proof (zlen_nonneg recs).
  unfold Append in HA. destruct (json_marshal rec) as [payload|]; [|by simplify_eq].
  pose proof (zlen_nonneg payload).
  destruct (maxPayload <? zlen payload) eqn:Hm; [by simplify_eq|]. bool_prop.
  destruct (WriteAt _ _ _ w) as [[|] w1]; [|by simplify_eq].
  destruct (WriteAt _ _ _ w1) as [[|] w2]; [|by simplify_eq].
  destruct (persistIndexes _ w2) as [[|] w3]; injection HA as _ <- _;
    unfold room_for in *; simpl; unfold maxPayload in *;
    rewrite !wrap64_id by (unfold int64; lia); lia.
Qed.

Lemma Produce_room logs t k v h b w n r b' w' :
  broker_rep logs b w → broker_room (S n) b → Produce t k v h b w = (r, b', w') → broker_room n b'.
Proof.
  intros HB Hn HP.
  assert (broker_room n b) as Hw.
  { intros nm u seg H1 H2. eapply room_for_weaken; [|by eapply Hn]. lia. }
  unfold Produce in HP. destruct (isDrainingLocked b w) as [dr w1] eqn:E1.
  assert (broker_rep logs b w1) as HB1.
  { eapply broker_rep_nodes; [|done]. intros q. by eapply isDrainingLocked_nodes. }
  destruct dr; [by simplify_eq|].
  destruct (topics b !! t) as [u|] eqn:Ht; [|by simplify_eq].
  destruct (broker_rep_topic _ _ _ _ _ HB1 Ht) as (recs & Hl & [_ _ (seg & Hseg & HR & _)]).
  unfold time_now in HP. rewrite Hseg in HP. cbn [last] in HP.
  destruct (Append seg _ (tick w1)) as [[ra seg'] w2] eqn:HA.
  apply (Append_room 0 recs _ _ _ n) in HA;
    [|by eapply seg_rep_file; [|exact HR]|eapply Hn; [done|by rewrite Hseg]].
  destruct ra; injection HP as _ <- _; intros nm u' s'; simpl; rewrite lookup_insert;
    (case_decide; [intros [= <-] [= <-]; exact HA|apply Hw]).
Qed.

Lemma CreateTopic_room t b w n r b' w' :
  plain t = true → (topics b !! t = None → no_segment w (OS.Join (b_dir b) t)) →
  Z.of_nat n * (4 + maxPayload) < 2 ^ 63 →
  broker_room n b → CreateTopic t b w = (r, b', w') → broker_room n b'.
Proof.
  intros Hp Hfree Hmax Hn. unfold CreateTopic.
  destruct (topics b !! t) as [u|] eqn:Ht; [by intros [= _ <- _]|]. specialize (Hfree eq_refl).
  destruct (MkdirAll _ w) as [[[]|] w1] eqn:E1; [|by intros [= _ <- _]].
  destruct (newSegment _ 0 w1) as [[seg|] w2] eqn:E2; intros [= _ <- _]; [|done].
  assert (no_segment w1 (OS.Join (b_dir b) t)) as Hfree1.
  { eapply no_segment_files; [|exact Hfree]. intros x _. by rewrite (MkdirAll_file _ _ _ _ _ E1). }
  assert (position seg = 0 ∧ nextOffset seg = 0) as [Hps Hnx].
  { assert ((OS.Join (OS.Join (b_dir b) t) "000000").2 ≠ []) as Hne
      by (rewrite (Join_plain (b_dir b)), Join_plain by done; done).
    pose proof (newSegment_ok _ _ _ _ _ Hne E2) as (Hs & _).
    apply newSegment_fresh in E2 as (_ & _ & _ & _ & _ & _ & ->);
      [|lia|done|apply Hfree1; unfold seg_names; set_solver..].
    split; [|done]. rewrite Hs. rewrite (proj2 (proj2 (loaded_paths _ _ _ _ _))).
    by rewrite Hfree1 by (unfold seg_names; set_solver). }
  intros nm u s. simpl. rewrite lookup_insert. case_decide; [|apply Hn].
  intros [= <-] [= <-]. unfold room_for. rewrite Hps, Hnx. unfold maxPayload in *. lia.
Qed.
End room.

(** ** The commit loop *)

Section commit.
Context {E : Env} {C : RecordCodec} {L : RecordCodecLaws}.

Lemma cloneHeaders_idem h : cloneHeaders (cloneHeaders h) = cloneHeaders h.
Proof. unfold cloneHeaders. by repeat case_decide. Qed.

Lemma appended_nil logs : appended logs [] logs.
Proof. intros name. by rewrite app_nil_r. Qed.

Lemma appended_cons logs r recs logs1 logs' :
  appended logs [r] logs1 → appended logs1 recs logs' → appended logs (r :: recs) logs'.
Proof.
  intros H1 H2 name. rewrite H2, H1, <- app_assoc. f_equal.
  by rewrite <- fmap_app, <- filter_app.
Qed.

Lemma with_own_offset rec : with_offset (Offset rec) rec = rec.
Proof. by destruct rec. Qed.

Lemma logs_extend_appended_create (logs : gmap string (list LogRecord)) name r logs' :
  appended (match logs !! name with Some _ => logs | None => <[name := []]> logs end) [r] logs' →
  appended logs [r] logs'.
Proof.
  intros H nm. rewrite H. f_equal. unfold log_of. destruct (logs !! name) eqn:Hl; [done|].
  rewrite lookup_insert. case_decide; [subst; by rewrite Hl|done].
Qed.

(** A record that can be committed: a plain topic and storable content. *)
Definition committable (r : TxRecord) : Prop :=
  plain (tr_Topic r) = true ∧ storable (tr_Key r) (tr_Value r) (tr_Headers r).

(** A topic created if need be, and one record of a transaction in its log. *)
Lemma create_then_append logs r recs rec off :
  let logsc := match logs !! tr_Topic r with Some _ => logs | None => <[tr_Topic r:=[]]> logs end in
  logsc !! tr_Topic r = Some recs → Key rec = tr_Key r → Value rec = tr_Value r →
  Headers rec = cloneHeaders (tr_Headers r) →
  appended logs [r] (<[tr_Topic r := recs ++ [with_offset off rec]]> logsc).
Proof.
  intros logsc Hl Hk Hv Hh. apply (logs_extend_appended_create _ (tr_Topic r)). fold logsc. intros name.
  unfold log_of. rewrite lookup_insert. destruct (decide (tr_Topic r = name)) as [<-|Hne].
  - rewrite Hl. cbn [from_option id]. rewrite fmap_app, filter_cons_True by done. simpl.
    unfold content, tx_content. simpl. by rewrite Hk, Hv, Hh.
  - rewrite filter_cons_False by done. simpl. by rewrite app_nil_r.
Qed.

(** What a commit appended when it stopped after [k] acknowledged records: those,
    and the next one too when all that failed was writing its index. *)
Definition commit_extent (len : nat) (e : option error) (k j : nat) : Prop :=
  match e with
  | None => k = len ∧ j = k
  | Some err => (k < len)%nat ∧ (j = k ∨ j = S k ∧ persist_failed err = true)
  end.

Lemma commit_extent_S len e k j : commit_extent len e k j → commit_extent (S len) e (S k) (S j).
Proof. destruct e; simpl; [|lia]. intros [? [->|[-> ?]]]; split; auto; lia. Qed.

Lemma appended_created (logs : gmap string (list LogRecord)) name :
  appended logs [] (match logs !! name with Some _ => logs | None => <[name := []]> logs end).
Proof.
  intros nm. rewrite app_nil_r. unfold log_of. destruct (logs !! name) eqn:Hl; [done|].
  rewrite lookup_insert. case_decide; [subst; by rewrite Hl|done].
Qed.

(** One record of a commit: its topic made sure of, then the record produced. *)
Lemma commit_one r logs b w rc b1 w1 :
  run_inv logs b w → plain (tr_Topic r) = true →
  CreateTopic (tr_Topic r) b w = (rc, b1, w1) →
  ∃ logs1, appended logs [] logs1 ∧ run_inv logs1 b1 w1
    ∧ (is_ok rc = true → logs1 = match logs !! tr_Topic r with
                                 | Some _ => logs | None => <[tr_Topic r := []]> logs end).
Proof.
  intros HI Hp HC.
  destruct (create_inv _ _ _ _ _ _ _ HI Hp HC) as (l1 & HI1 & _).
  pose proof (CreateTopic_outcome _ _ _ _ _ _ _ (inv_rep _ _ _ HI) Hp (inv_free _ _ _ HI _ Hp) HC) as Hout.
  destruct rc as [t|e].
  - destruct Hout as (_ & HB1 & _). eexists. split; [apply (appended_created _ (tr_Topic r))|].
    split; [split; [exact HB1|apply HI1]|done].
  - destruct Hout as (-> & HB1). exists logs. split; [apply appended_nil|]. split; [|done].
    split; [exact HB1|apply HI1].
Qed.

(** Whether a produce with this result left its record in the log. *)
Definition left_record {A} (r : res A) : bool :=
  match r with Ok _ => true | Err e => persist_failed e end.

(** The produce after it. *)
Lemma commit_two r logs b w rp b' w' :
  let logsc := match logs !! tr_Topic r with Some _ => logs | None => <[tr_Topic r := []]> logs end in
  run_inv logsc b w → committable r → (∀ u, topics b !! tr_Topic r = Some u → topic_room u) →
  Produce (tr_Topic r) (tr_Key r) (tr_Value r) (tr_Headers r) b w = (rp, b', w') →
  ∃ logs', appended logs (if left_record rp then [r] else []) logs' ∧ run_inv logs' b' w'.
Proof.
  intros logsc HI [_ Hst] Hr HP. pose proof (inv_rep _ _ _ HI) as HB.
  destruct (produce_inv _ _ _ _ _ _ _ _ _ _ HI Hr Hst HP) as (logs2 & HI2 & _).
  pose proof (Produce_outcome _ _ _ _ _ _ _ _ _ _ HB Hr Hst HP) as Hout.
  destruct rp as [rec|e0]; cbn [left_record].
  - destruct Hout as (recs & t0 & Hl & Ht & Ho & Hk & Hv & Hh & HB2 & _).
    eexists. split; [|split; [exact HB2|apply HI2]]. by apply create_then_append.
  - simpl in Hout. destruct (persist_failed e0).
    + destruct Hout as (recs & rec & Hl & Hk & Hv & Hh & HB2).
      eexists. split; [|split; [exact HB2|apply HI2]].
      rewrite <- (with_own_offset rec). by apply create_then_append.
    + exists logsc. split; [apply appended_created|]. split; [exact Hout|apply HI2].
Qed.

Lemma commitLoop_outcome records committed logs b w m e b' w' :
  run_inv logs b w → broker_room (length records) b →
  Z.of_nat (length records) * (4 + maxPayload) < 2 ^ 63 → Forall committable records →
  commitLoop records committed b w = (m, e, b', w') →
  ∃ k j logs', m = committed + Z.of_nat k ∧ commit_extent (length records) e k j
    ∧ appended logs (take j records) logs' ∧ run_inv logs' b' w' ∧ txState b' = txState b.
Proof.
  revert committed logs b w. induction records as [|r records IH];
    intros committed logs b w HI Hroom Hmax HF; cbn [commitLoop].
  { intros [= <- <- <- <-]. exists 0%nat, 0%nat, logs. split_and!; try done; try lia.
    apply appended_nil. }
  inversion HF as [|? ? Hr HF']; subst. pose proof Hr as [Hp _].
  destruct (CreateTopic (tr_Topic r) b w) as [[rc b1] w1] eqn:HC.
  pose proof (CreateTopic_room _ _ _ _ _ _ _ Hp (inv_free _ _ _ HI _ Hp) Hmax Hroom HC) as Hroom1.
  destruct (CreateTopic_cache _ _ _ _ _ _ HC) as (_ & _ & Htx1).
  destruct (commit_one _ _ _ _ _ _ _ HI Hp HC) as (logsc & HAc & HI1 & Hc).
  destruct rc as [t|e0]; [|intros [= <- <- <- <-]].
  2:{ exists 0%nat, 0%nat, logsc. split_and!; try done; simpl; [lia|]. split; [lia|by left]. }
  specialize (Hc eq_refl). subst logsc.
  destruct (Produce _ _ _ _ b1 w1) as [[rp b2] w2] eqn:HP.
  pose proof (Produce_room _ _ _ _ _ _ _ _ _ _ _ (inv_rep _ _ _ HI1) Hroom1 HP) as Hroom2.
  destruct (Produce_cache _ _ _ _ _ _ _ _ _ HP) as (_ & _ & Htx2).
  assert (∀ u, topics b1 !! tr_Topic r = Some u → topic_room u) as Hr1.
  { intros u Hu seg Hseg. eapply room_for_room. by eapply Hroom1. }
  destruct (commit_two r logs _ _ _ _ _ HI1 Hr Hr1 HP) as (logsp & HA1 & HIp).
  destruct rp as [rec|e0]; cbn [left_record] in HA1; [|intros [= <- <- <- <-]].
  2:{ exists 0%nat, (if persist_failed e0 then 1 else 0)%nat, logsp. destruct (persist_failed e0) eqn:He0;
        (split_and!; [lia|split; [simpl; lia|auto]|exact HA1|done|congruence]). }
  intros HL. apply (IH _ logsp) in HL as (k & j & l' & -> & Hx & HA & HI' & Htx);
    [|done|done|cbn [length] in Hmax; unfold maxPayload in *; lia|done].
  exists (S k), (S j), l'. cbn [length take]. split_and!; try done; try lia; try congruence.
  - by apply commit_extent_S.
  - by eapply appended_cons.
Qed.
End commit.

(** ** The life of a transaction *)

(** The broker with the commits in flight, by goroutine. *)
Record ConState := MkCon {
  cs_broker : Broker;
  cs_world : world;
  cs_flight : gmap nat TxCommit }.

(** What an interleaving shows: an ID drawn by a begin, a commit that passed its
    first section, and a commit that returned after it. *)
Inductive tx_event :=
  | EvBegun (id : string)
  | EvStarted (id : string)
  | EvFinished (id : string) (n : Z) (e : option error).

(** A begin with the ID of a commit in flight replaces the map's entry. *)
Definition detach (id : string) (fl : gmap nat TxCommit) : gmap nat TxCommit :=
  (λ c, if decide (cm_ID c = id)
        then MkTxCommit (cm_ID c) false (cm_records c) (cm_made c) (cm_committed c) else c) <$> fl.

Section lifecycle.
Context {E : Env} {C : RecordCodec}.

(** One critical section, of any operation of the broker. *)
Inductive con_step : ConState → list tx_event → ConState → Prop :=
| con_begin p e b w fl r b' w' :
    BeginTransaction p e b w = (r, b', w') →
    con_step (MkCon b w fl) (match r with Ok id => [EvBegun id] | Err _ => [] end)
      (MkCon b' w' (match r with Ok id => detach id fl | Err _ => fl end))
| con_produce id t k v h b w fl r b' :
    TxProduce id t k v h b = (r, b') → con_step (MkCon b w fl) [] (MkCon b' w fl)
| con_abort id b w fl r b' :
    AbortTransaction id b = (r, b') → con_step (MkCon b w fl) [] (MkCon b' w fl)
| con_commit g id b w fl pc b' :
    fl !! g = None → commit_begin id b = (pc, b') →
    con_step (MkCon b w fl) (match pc with InFlight _ => [EvStarted id] | _ => [] end)
      (MkCon b' w (match pc with InFlight c => <[g := c]> fl | _ => fl end))
| con_section g c b w fl pc b' w' :
    fl !! g = Some c → commit_section c b w = (pc, b', w') →
    con_step (MkCon b w fl)
      (match pc with CommitReturned n e => [EvFinished (cm_ID c) n e] | _ => [] end)
      (MkCon b' w' (match pc with InFlight c' => <[g := c']> fl | _ => delete g fl end))
| con_idem q pc pc' b w fl b' w' :
    idem_step q pc b w = (pc', b', w') → con_step (MkCon b w fl) [] (MkCon b' w' fl)
| con_op b w fl b' w' : broker_op b w b' w' → con_step (MkCon b w fl) [] (MkCon b' w' fl).

Inductive con_run : ConState → list tx_event → ConState → Prop :=
| con_nil st : con_run st [] st
| con_cons st ev st1 tr st' :
    con_step st ev st1 → con_run st1 tr st' → con_run st (ev ++ tr) st'.

(** A commit in flight whose pointer is the map's entry: the transaction is
    committing, with as many records as were and are to be produced. *)
Definition flight_ok (m : gmap string Transaction) (c : TxCommit) : Prop :=
  cm_live c = true →
  ∃ tx, m !! cm_ID c = Some tx ∧ tx_Status tx = TxCommitting
    ∧ cm_committed c + zlen (cm_records c) = zlen (tx_Records tx).

Record con_inv (st : ConState) : Prop := {
  ci_flight g c : cs_flight st !! g = Some c → flight_ok (txState (cs_broker st)) c;
  ci_one g g' c c' : cs_flight st !! g = Some c → cs_flight st !! g' = Some c' →
    cm_live c = true → cm_live c' = true → cm_ID c = cm_ID c' → g = g' }.

Lemma commitLoop_txState records n b w m e b' w' :
  commitLoop records n b w = (m, e, b', w') → txState b' = txState b.
Proof.
  revert n b w. induction records as [|r records IH]; intros n b w; cbn [commitLoop];
    [by intros [= _ _ <- _]|].
  destruct (CreateTopic _ b w) as [[[t|] b1] w1] eqn:HC;
    apply CreateTopic_cache in HC as (_ & _ & <-); [|by intros [= _ _ <- _]].
  destruct (Produce _ _ _ _ b1 w1) as [[[rec|] b2] w2] eqn:HP;
    apply Produce_cache in HP as (_ & _ & <-); [apply IH|by intros [= _ _ <- _]].
Qed.

Lemma idem_step_txState q pc b w pc' b' w' :
  idem_step q pc b w = (pc', b', w') → txState b' = txState b.
Proof.
  destruct pc as [| |rec|r]; cbn [idem_step]; try by intros [= _ <- _].
  - destruct (Produce _ _ _ _ b w) as [[[rc|] b2] w2] eqn:HP;
      apply Produce_cache in HP as (_ & _ & <-); by intros [= _ <- _].
  - intros [= _ <- _]. unfold idem_record. by destruct (_ <? _).
Qed.

(** A section writes nothing but the final status, through its pointer. *)
Lemma commit_section_cases c b w pc b' w' :
  commit_section c b w = (pc, b', w') →
  match pc with
  | InFlight c' => txState b' = txState b ∧ cm_ID c' = cm_ID c ∧ cm_live c' = cm_live c
      ∧ cm_committed c' + zlen (cm_records c') = cm_committed c + zlen (cm_records c)
  | CommitReturned n (Some _) => txState b' = txState b
  | CommitReturned n None => cm_records c = [] ∧ n = cm_committed c
      ∧ b' = if cm_live c then update_tx (cm_ID c) (set_tx_Status TxCommitted) b else b
  end.
Proof.
  unfold commit_section. destruct (cm_records c) as [|r records] eqn:Hr; [by intros [= <- <- _]|].
  destruct (cm_made c).
  - destruct (Produce _ _ _ _ b w) as [[[rc|] b2] w2] eqn:HP;
      apply Produce_cache in HP as (_ & _ & <-); intros [= <- <- _]; simpl; [|done].
    rewrite zlen_cons. split_and!; try done. lia.
  - destruct (CreateTopic _ b w) as [[[t|] b1] w1] eqn:HC;
      apply CreateTopic_cache in HC as (_ & _ & <-); by intros [= <- <- _].
Qed.

(** A call alone runs its sections to the result of [CommitTransaction]; two for
    each record and one for the final status are enough. *)
Lemma commit_alone_loop records id live n b w :
  commit_alone (S (2 * length records)) (InFlight (MkTxCommit id live records false n)) b w =
  match commitLoop records n b w with
  | (m, Some e, b, w) => (CommitReturned m (Some e), b, w)
  | (m, None, b, w) =>
      (CommitReturned m None, (if live then update_tx id (set_tx_Status TxCommitted) b else b), w)
  end.
Proof.
  revert n b w. induction records as [|r records IH]; intros n b w; [done|].
  replace (S (2 * length (r :: records)))%nat with (S (S (S (2 * length records)))) by (simpl; lia).
  cbn [commit_alone commit_section cm_records cm_made cm_ID cm_live cm_committed commitLoop].
  destruct (CreateTopic _ b w) as [[[t|e] b1] w1]; [|done].
  cbn [commit_alone commit_section cm_records cm_made cm_ID cm_live cm_committed].
  destruct (Produce _ _ _ _ b1 w1) as [[[rec|e] b2] w2]; [|done]. apply IH.
Qed.

(** ** Closed transactions under interleaving *)

(** What one section may do to a closed transaction. *)
Definition closed_move (id : string) (tx : Transaction) (ev : list tx_event) (tx' : Transaction) : Prop :=
  tx' = tx
  ∨ (tx_Status tx = TxCommitting ∧ tx' = set_tx_Status TxCommitted tx
     ∧ EvFinished id (zlen (tx_Records tx)) None ∈ ev).

(** A change of an open transaction touches no commit in flight. *)
Lemma flight_ok_open (m : gmap string Transaction) f id tx c :
  m !! id = Some tx → tx_Status tx = TxOpen → flight_ok m c → flight_ok (alter f id m) c.
Proof.
  intros Hm Ho Hc Hl. destruct (Hc Hl) as (tx' & H1 & H2 & H3). exists tx'. split; [|done].
  rewrite lookup_alter_ne; [done|]. intros ->. rewrite Hm in H1. simplify_eq. congruence.
Qed.

Lemma con_inv_same b w fl b' w' :
  txState b' = txState b → con_inv (MkCon b w fl) → con_inv (MkCon b' w' fl).
Proof. intros Hs [H1 H2]. split; simpl in *; [by rewrite Hs|done]. Qed.

Lemma con_inv_open b w fl f id tx :
  txState b !! id = Some tx → tx_Status tx = TxOpen →
  con_inv (MkCon b w fl) → con_inv (MkCon (update_tx id f b) w fl).
Proof.
  intros Htx Ho [H1 H2]. split; simpl in *; [|done].
  intros g c Hg. eapply flight_ok_open; eauto.
Qed.

Lemma detach_lookup id fl g c :
  detach id fl !! g = Some c → cm_live c = true → fl !! g = Some c ∧ cm_ID c ≠ id.
Proof.
  unfold detach. rewrite lookup_fmap. destruct (fl !! g) as [c0|]; [|done]. simpl.
  case_decide; intros [= <-] Hl; [done|auto].
Qed.

Lemma con_inv_section g c b w fl pc b' w' :
  fl !! g = Some c → commit_section c b w = (pc, b', w') → con_inv (MkCon b w fl) →
  con_inv (MkCon b' w' (match pc with InFlight c' => <[g := c']> fl | _ => delete g fl end)).
Proof.
  intros Hg Hs [H1 H2]. simpl in H1, H2. apply commit_section_cases in Hs. destruct pc as [c'|n [e|]].
  - destruct Hs as (Htx & Hid & Hlive & Hlen). split; simpl; rewrite ?Htx.
    + intros g' c1 [[<- <-]|[_ ?]]%lookup_insert_Some; [|by eapply H1].
      intros Hl. rewrite Hlen, Hid. eapply H1; [done|congruence].
    + intros g1 g2 c1 c2 [[<- <-]|[Hn1 E1]]%lookup_insert_Some [[<- <-]|[Hn2 E2]]%lookup_insert_Some Hl1 Hl2 Heq;
        [done| | |by eapply H2].
      * apply (H2 g g2 c c2 Hg E2); congruence.
      * apply (H2 g1 g c1 c E1 Hg); congruence.
  - split; simpl; rewrite ?Hs.
    + intros g' c1 [_ ?]%lookup_delete_Some. by eapply H1.
    + intros g1 g2 c1 c2 [_ ?]%lookup_delete_Some [_ ?]%lookup_delete_Some. by eapply H2.
  - destruct Hs as (_ & _ & ->). split; simpl.
    + intros g' c1 [Hne Hc1]%lookup_delete_Some. destruct (cm_live c) eqn:Hl; [|by eapply H1].
      simpl. intros Hl1. destruct (H1 _ _ Hc1 Hl1) as (tx & Htx & Hrest). exists tx. split; [|done].
      rewrite lookup_alter_ne; [done|]. intros Heq. by destruct (Hne (H2 _ _ _ _ Hg Hc1 Hl Hl1 Heq)).
    + intros g1 g2 c1 c2 [_ ?]%lookup_delete_Some [_ ?]%lookup_delete_Some. by eapply H2.
Qed.

Lemma con_inv_commit g id b w fl pc b' :
  fl !! g = None → commit_begin id b = (pc, b') → con_inv (MkCon b w fl) →
  con_inv (MkCon b' w (match pc with InFlight c => <[g := c]> fl | _ => fl end)).
Proof.
  intros Hg. unfold commit_begin. destruct (txState b !! id) as [tx|] eqn:Htx; [|by intros [= <- <-]].
  case_decide as Ho; intros [= <- <-]; [|done].
  intros HI. destruct (con_inv_open _ _ _ (set_tx_Status TxCommitting) _ _ Htx Ho HI) as [H1 H2].
  assert (∀ g' c', fl !! g' = Some c' → cm_live c' = true → cm_ID c' ≠ id) as Hfresh.
  { intros g' c' Hc' Hl Heq. destruct HI as [H0 _]. simpl in H0. destruct (H0 _ _ Hc' Hl) as (tx' & Hx & Hst & _).
    rewrite Heq, Htx in Hx. simplify_eq. congruence. }
  split; simpl in *.
  - intros g' c [[<- <-]|[_ ?]]%lookup_insert_Some; [|by eapply H1]. intros _. simpl.
    rewrite lookup_alter_eq, Htx. eexists. by split_and!.
  - intros g1 g2 c1 c2 [[<- <-]|[Hn1 E1]]%lookup_insert_Some [[<- <-]|[Hn2 E2]]%lookup_insert_Some Hl1 Hl2 Heq;
      [done| | |by eapply H2].
    + by destruct (Hfresh _ _ E2 Hl2).
    + by destruct (Hfresh _ _ E1 Hl1).
Qed.

Lemma con_step_inv st ev st' : con_step st ev st' → con_inv st → con_inv st'.
Proof.
  destruct 1 as [p e b w fl r b' w' HB|id t k v h b w fl r b' HT|id b w fl r b' HA
    |g id b w fl pc b' Hg HC|g c b w fl pc b' w' Hg HS|q pc pc' b w fl b' w' HQ|b w fl b' w' HO].
  - unfold BeginTransaction, time_now in HB. case_bool_decide; simplify_eq; [done|].
    intros [H1 H2]. simpl in H1, H2. split; simpl.
    + intros g c Hg Hl. destruct (detach_lookup _ _ _ _ Hg Hl) as [Hg' Hne].
      rewrite lookup_insert_ne by done. by eapply H1.
    + intros g g' c c' Hg Hg' Hl Hl'. 
      apply (H2 g g' c c'); [by eapply detach_lookup..|done|done].
  - unfold TxProduce in HT. case_bool_decide; [by simplify_eq|].
    destruct (txState b !! id) as [tx|] eqn:Htx; [|by simplify_eq].
    case_decide; simplify_eq; [|done]. by eapply con_inv_open.
  - unfold AbortTransaction in HA. destruct (txState b !! id) as [tx|] eqn:Htx; [|by simplify_eq].
    case_decide; simplify_eq; [|done]. by eapply con_inv_open.
  - by eapply con_inv_commit.
  - by eapply con_inv_section.
  - apply con_inv_same. by eapply idem_step_txState.
  - apply con_inv_same. by eapply broker_op_cache.
Qed.

Lemma con_run_inv st tr st' : con_run st tr st' → con_inv st → con_inv st'.
Proof. induction 1; eauto using con_step_inv. Qed.

Lemma con_inv_start b w : con_inv (MkCon b w ∅).
Proof. split; simpl; intros *; by rewrite lookup_empty. Qed.

(** What a section leaves of a closed transaction: [closed_move], no start, and
    nothing at all when no commit of it is in flight before or after. *)
Definition closed_kept (id : string) (tx : Transaction) (fl : gmap nat TxCommit)
    (ev : list tx_event) (st' : ConState) : Prop :=
  ∃ tx', txState (cs_broker st') !! id = Some tx' ∧ closed_move id tx ev tx' ∧ EvStarted id ∉ ev
    ∧ ((∀ g c, fl !! g = Some c → cm_ID c ≠ id) →
       tx' = tx ∧ ∀ g c, cs_flight st' !! g = Some c → cm_ID c ≠ id).

Lemma closed_kept_same id tx fl ev b' w' fl' :
  txState b' !! id = Some tx → EvStarted id ∉ ev →
  ((∀ g c, fl !! g = Some c → cm_ID c ≠ id) → ∀ g c, fl' !! g = Some c → cm_ID c ≠ id) →
  closed_kept id tx fl ev (MkCon b' w' fl').
Proof. intros Htx Hev Hfl. exists tx. split_and!; [done|by left|done|]. intros H. split; [done|by apply Hfl]. Qed.

Lemma section_closed g c b w fl pc b' w' id tx :
  flight_ok (txState b) c → fl !! g = Some c → commit_section c b w = (pc, b', w') →
  txState b !! id = Some tx →
  closed_kept id tx fl
    (match pc with CommitReturned n e => [EvFinished (cm_ID c) n e] | _ => [] end)
    (MkCon b' w' (match pc with InFlight c' => <[g := c']> fl | _ => delete g fl end)).
Proof.
  intros Hok Hg HS Htx. apply commit_section_cases in HS.
  assert ((∀ g c, fl !! g = Some c → cm_ID c ≠ id) →
    ∀ g' c', delete g fl !! g' = Some c' → cm_ID c' ≠ id) as Hdel.
  { intros Hfl g' c' [_ ?]%lookup_delete_Some. by eapply Hfl. }
  destruct pc as [c'|n [e|]].
  - destruct HS as (Hs & Hid & _). apply closed_kept_same; [by rewrite Hs|apply not_elem_of_nil|].
    intros Hfl g' c1 [[<- <-]|[_ ?]]%lookup_insert_Some; [|by eapply Hfl]. rewrite Hid. by eapply Hfl.
  - apply closed_kept_same; [by rewrite HS|set_solver|done].
  - destruct HS as (Hr & -> & ->). destruct (cm_live c) eqn:Hl; [|apply closed_kept_same; [done|set_solver|done]].
    destruct (decide (cm_ID c = id)) as [Heq|Hne].
    2:{ apply closed_kept_same; [simpl; by rewrite lookup_alter_ne|set_solver|done]. }
    destruct (Hok Hl) as (tx1 & H1 & H2 & H3). rewrite Heq in *.
    rewrite Htx in H1. apply (inj Some) in H1 as <-. rewrite Hr in H3.
    exists (set_tx_Status TxCommitted tx). simpl. rewrite lookup_alter_eq, Htx. split_and!; [done| |set_solver|].
    + right. split_and!; [done|done|]. rewrite <- H3. change (zlen (@nil TxRecord)) with 0.
      rewrite Z.add_0_r. set_solver.
    + intros Hfl. by destruct (Hfl _ _ Hg).
Qed.

(** A closed transaction that no begin replaces: only its own commit in flight
    moves it, to committed, and no commit starts on it. *)
Lemma con_step_closed st ev st' id tx :
  con_inv st → con_step st ev st' → EvBegun id ∉ ev →
  txState (cs_broker st) !! id = Some tx → tx_Status tx ≠ TxOpen →
  closed_kept id tx (cs_flight st) ev st'.
Proof.
  intros HI HS Hbeg Htx Hcl.
  assert (∀ (f : Transaction → Transaction) id0 tx0, txState (cs_broker st) !! id0 = Some tx0 →
    tx_Status tx0 = TxOpen → id0 ≠ id ∧ alter f id0 (txState (cs_broker st)) !! id = Some tx) as Hopen.
  { intros f id0 tx0 H0 Ho. assert (id0 ≠ id) by (intros ->; congruence). split; [done|]. by rewrite lookup_alter_ne. }
  destruct HS as [p e b w fl r b' w' HB|id0 t k v h b w fl r b' HT|id0 b w fl r b' HA
    |g id0 b w fl pc b' Hg HC|g c b w fl pc b' w' Hg HS|q pc pc' b w fl b' w' HQ|b w fl b' w' HO];
    simpl in *.
  - unfold BeginTransaction, time_now in HB. case_bool_decide; simplify_eq; simpl.
    { apply closed_kept_same; [done|apply not_elem_of_nil|done]. }
    apply closed_kept_same; [simpl; rewrite lookup_insert_ne; [done|set_solver]|set_solver|].
    intros Hfl g c. unfold detach. rewrite lookup_fmap.
    destruct (fl !! g) as [c0|] eqn:Hc0; [|done]. simpl. intros [= <-].
    case_decide; simpl; by eapply Hfl.
  - apply closed_kept_same; [|apply not_elem_of_nil|done].
    unfold TxProduce in HT. case_bool_decide; [by simplify_eq|].
    destruct (txState b !! id0) as [tx0|] eqn:H0; [|by simplify_eq].
    case_decide; simplify_eq; [|done]. by eapply Hopen.
  - apply closed_kept_same; [|apply not_elem_of_nil|done].
    unfold AbortTransaction in HA. destruct (txState b !! id0) as [tx0|] eqn:H0; [|by simplify_eq].
    case_decide; simplify_eq; [|done]. by eapply Hopen.
  - unfold commit_begin in HC. destruct (txState b !! id0) as [tx0|] eqn:H0; simplify_eq;
      [|apply closed_kept_same; [done|apply not_elem_of_nil|done]].
    case_decide as Ho; simplify_eq; [|apply closed_kept_same; [done|apply not_elem_of_nil|done]].
    destruct (Hopen (set_tx_Status TxCommitting) _ _ H0 Ho) as [Hne Hal].
    apply closed_kept_same; [done|set_solver|]. intros Hfl g' c [[<- <-]|[_ ?]]%lookup_insert_Some; [done|by eapply Hfl].
  - eapply section_closed; [exact (ci_flight _ HI _ _ Hg)|done|done|done].
  - apply closed_kept_same; [by rewrite (idem_step_txState _ _ _ _ _ _ _ HQ)|apply not_elem_of_nil|done].
  - apply broker_op_cache in HO as (_ & _ & HO).
    apply closed_kept_same; [by rewrite HO|apply not_elem_of_nil|done].
Qed.

Lemma con_run_closed st tr st' id tx :
  con_run st tr st' → con_inv st → EvBegun id ∉ tr →
  txState (cs_broker st) !! id = Some tx → tx_Status tx ≠ TxOpen →
  ∃ tx', txState (cs_broker st') !! id = Some tx' ∧ tx_Status tx' ≠ TxOpen
    ∧ closed_move id tx tr tx' ∧ EvStarted id ∉ tr
    ∧ ((∀ g c, cs_flight st !! g = Some c → cm_ID c ≠ id) → tx' = tx).
Proof.
  intros HR. revert tx. induction HR as [st|st ev st1 tr st' HS _ IH]; intros tx HI Hb Htx Hcl.
  { exists tx. split_and!; [done|done|by left|apply not_elem_of_nil|done]. }
  destruct (con_step_closed _ _ _ id tx HI HS ltac:(set_solver) Htx Hcl) as (tx1 & Htx1 & HM & Hst & Hfl).
  assert (tx_Status tx1 ≠ TxOpen) as Hcl1 by (destruct HM as [->|(_ & -> & _)]; done).
  destruct (IH tx1 (con_step_inv _ _ _ HS HI) ltac:(set_solver) Htx1 Hcl1)
    as (tx2 & Htx2 & Hcl2 & HM2 & Hst2 & Hfl2).
  exists tx2. split_and!; [done|done| |set_solver|].
  - destruct HM as [->|(Hc & -> & Hin)]; destruct HM2 as [->|(Hc2 & -> & Hin2)].
    + by left.
    + right. split_and!; [done|done|set_solver].
    + right. split_and!; [done|done|set_solver].
    + done.
  - intros Hno. destruct (Hfl Hno) as [-> Hno1]. by apply Hfl2.
Qed.
End lifecycle.

(** * Properties *)

(** C6: what a commit appended, exactly.  Whatever system calls fail,
    [CommitTransaction] of an open transaction whose records can be stored (and
    whose topics have room and plain names) appends to the logs a prefix of its
    records, in order, each to its topic, and nothing else.  Without an error
    the prefix is all of them, its length is returned and the transaction is
    committed.  With an error the returned count [k] is less than the number of
    records and the prefix has [k] records, or [k + 1] when the error is the
    failure to write the index of the last one, which stays in its log; the
    transaction stays in the committing state. *)
Theorem commit_transaction_outcomes `{E : Env, C : RecordCodec, !RecordCodecLaws}
    logs b w txID tx n e b' w' :
  run_inv logs b w → txState b !! txID = Some tx → tx_Status tx = TxOpen →
  broker_room (length (tx_Records tx)) b →
  Z.of_nat (length (tx_Records tx)) * (4 + maxPayload) < 2 ^ 63 →
  Forall committable (tx_Records tx) →
  CommitTransaction txID b w = (n, e, b', w') →
  ∃ k j logs', n = Z.of_nat k
    ∧ appended logs (take j (tx_Records tx)) logs' ∧ run_inv logs' b' w'
    ∧ match e with
      | None => k = length (tx_Records tx) ∧ j = k
          ∧ txState b' !! txID = Some (set_tx_Status TxCommitted tx)
      | Some err => (k < length (tx_Records tx))%nat
          ∧ (j = k ∨ j = S k ∧ persist_failed err = true)
          ∧ txState b' !! txID = Some (set_tx_Status TxCommitting tx)
      end.
Proof.
  intros HI Htx Hop Hroom Hmax HF. unfold CommitTransaction. rewrite Htx, decide_True by done.
  destruct (commitLoop _ 0 _ w) as [[[m e'] b1] w1] eqn:HL.
  apply (commitLoop_outcome _ _ logs) in HL as (k & j & l' & -> & Hx & HA & HI' & Hs);
    [|eapply run_inv_same; [exact HI|done..]|done|done|done].
  simpl in Hs. intros HC. exists k, j, l'. destruct e' as [e'|]; simplify_eq; destruct Hx as [Hk Hj].
  - rewrite Hs, lookup_alter_eq, Htx. by split_and!.
  - split_and!; try done.
    + eapply run_inv_same; [exact HI'|done..].
    + simpl. by rewrite Hs, !lookup_alter_eq, Htx.
Qed.

(** A transaction with one record, on a broker with the topic. *)
Definition begun0 : res string * Broker * world := BeginTransaction (E := env0) "p" 1 broker1 wb1.
Definition txid0 : string := match begun0.1.1 with Ok id => id | Err _ => EmptyString end.
Definition txbroker0 : Broker := (TxProduce txid0 "orders" k0 v0 ∅ begun0.1.2).2.
Definition tx0 : Transaction :=
  MkTransaction txid0 "p" 1 TxOpen (clock0 9) [MkTxRecord "orders" k0 v0 ∅].

Lemma broker1_inv : run_inv (C := codec0) {["orders"%string := []]} broker1 wb1.
Proof.
  destruct (create_inv (E := env0) (C := codec0) ∅ "orders" broker0 wb0 (Ok topic1) broker1 wb1
    broker0_inv eq_refl created0_ok) as (logs & HI & _).
  split; [apply broker1_rep|apply HI].
Qed.

Lemma txbroker0_inv : run_inv (C := codec0) {["orders"%string := []]} txbroker0 begun0.2.
Proof. eapply run_inv_same; [apply broker1_inv|reflexivity|reflexivity|done]. Qed.

Lemma broker1_room_for n t seg :
  topics broker1 !! n = Some t → last (Segments t) = Some seg → position seg = 0 ∧ nextOffset seg = 0.
Proof.
  intros Ht. assert (n = "orders"%string) as ->.
  { destruct (decide (n = "orders"%string)) as [|Hne]; [done|]. exfalso.
    assert (is_Some (topics broker1 !! n)) as H by (by eexists).
    apply (rep_names _ _ _ (proj1 broker1_rep)) in H. rewrite lookup_singleton_ne in H by done.
    by destruct H. }
  rewrite <- (broker1_topic_inv t Ht). intros Hs. vm_compute in Hs. injection Hs as <-. clear Ht. split; reflexivity.
Qed.

Lemma commit_transaction_outcomes_witness :
  ∃ n e b' w', CommitTransaction (E := env0) (C := codec0) txid0 txbroker0 begun0.2 = (n, e, b', w')
    ∧ e = None ∧ ∃ logs', run_inv (C := codec0) logs' b' w'
        ∧ content <$> log_of logs' "orders" = [(k0, v0, ∅)].
Proof.
  destruct (CommitTransaction (E := env0) (C := codec0) txid0 txbroker0 begun0.2)
    as [[[n e] b'] w'] eqn:HC.
  exists n, e, b', w'. split; [done|].
  assert (e = None) as ->.
  { assert ((CommitTransaction (E := env0) (C := codec0) txid0 txbroker0 begun0.2).1.1.2 = None) as H
      by (vm_compute; reflexivity). by rewrite HC in H. }
  split; [done|].
  destruct (commit_transaction_outcomes (E := env0) (C := codec0) {["orders"%string := []]}
    txbroker0 begun0.2 txid0 tx0 n None b' w') as (k & j & l' & Hn & HA & HI & -> & -> & _).
  - apply txbroker0_inv.
  - vm_compute. reflexivity.
  - reflexivity.
  - intros nm t seg Ht Hs. destruct (broker1_room_for nm t seg Ht Hs) as [Hp Hn].
    unfold room_for, maxPayload. rewrite Hp, Hn. simpl. lia.
  - vm_compute. reflexivity.
  - constructor; [|constructor]. split; [reflexivity|]. apply kv0_carriable.
  - exact HC.
  - exists l'. split; [exact HI|]. by rewrite HA.
Defined.

(** A call alone is its sections in a row. *)
Theorem commit_alone_eq `{E : Env, C : RecordCodec} txID b w n e b' w' :
  CommitTransaction txID b w = (n, e, b', w') ↔
  ∃ m, let '(pc, b1) := commit_begin txID b in
       commit_alone m pc b1 w = (CommitReturned n e, b', w').
Proof.
  assert (∀ pc b0 w0 m m' n1 e1 b1 w1 n2 e2 b2 w2,
    commit_alone m pc b0 w0 = (CommitReturned n1 e1, b1, w1) →
    commit_alone m' pc b0 w0 = (CommitReturned n2 e2, b2, w2) →
    (n1, e1, b1, w1) = (n2, e2, b2, w2)) as Hdet.
  { intros pc b0 w0 m. revert pc b0 w0. induction m as [|m IH]; intros pc b0 w0 [|m'] *;
      destruct pc as [c|n0 e0]; cbn [commit_alone]; try done;
      try (intros [= <- <- <- <-] [= <- <- <- <-]; done).
    destruct (commit_section c b0 w0) as [[pc1 b1'] w1']. apply IH. }
  assert (∃ m, let '(pc, b1) := commit_begin txID b in
    commit_alone m pc b1 w = (let '(n, e, b', w') := CommitTransaction txID b w in (CommitReturned n e, b', w')))
    as [m Hm].
  { unfold commit_begin, CommitTransaction. destruct (txState b !! txID) as [tx|]; [|by exists 0%nat].
    case_decide; [|by exists 0%nat]. eexists. rewrite commit_alone_loop.
    by destruct (commitLoop _ _ _ w) as [[[n0 [e0|]] b0] w0]. }
  destruct (commit_begin txID b) as [pc b1]. destruct (CommitTransaction txID b w) as [[[n0 e0] b0] w0].
  split.
  - intros Heq. exists m. rewrite Hm. by apply (f_equal (λ x, (CommitReturned x.1.1.1 x.1.1.2, x.1.2, x.2))) in Heq.
  - intros [m' Hm']. exact (Hdet _ _ _ _ _ _ _ _ _ _ _ _ _ Hm Hm').
Qed.

(** C28: a transaction that is no longer open is final, up to the end of its own
    commit.  Interleave the critical sections of any commits, begins, aborts,
    (idempotent and transactional) produces and other broker operations, with
    any faults and with any other commits in flight.  A transaction that is
    committing, committed or aborted, and whose ID no later begin draws again,
    stays exactly as it is, unless it is committing and its own commit, which
    was in flight, returned without an error after all its records: then it is
    committed.  Once no commit of it is in flight it never changes, so a commit
    that failed half-way can be neither finished nor aborted.  No second commit
    of it starts, and a commit, an abort and a produce (to a non-empty topic)
    are refused with [ErrTxClosed] and change nothing. *)
Theorem closed_transaction_is_final `{E : Env, C : RecordCodec} b0 w0 t0 st tr st' txID tx :
  con_run (MkCon b0 w0 ∅) t0 st → con_run st tr st' → EvBegun txID ∉ tr →
  txState (cs_broker st) !! txID = Some tx → tx_Status tx ≠ TxOpen →
  (∃ tx', txState (cs_broker st') !! txID = Some tx'
     ∧ (tx' = tx ∨ (tx_Status tx = TxCommitting ∧ tx' = set_tx_Status TxCommitted tx
                    ∧ EvFinished txID (zlen (tx_Records tx)) None ∈ tr))
     ∧ ((∀ g c, cs_flight st !! g = Some c → cm_ID c ≠ txID) → tx' = tx))
  ∧ EvStarted txID ∉ tr
  ∧ commit_begin txID (cs_broker st') = (CommitReturned 0 (Some ErrTxClosed), cs_broker st')
  ∧ (∀ w, CommitTransaction txID (cs_broker st') w = (0, Some ErrTxClosed, cs_broker st', w))
  ∧ AbortTransaction txID (cs_broker st') = (Err ErrTxClosed, cs_broker st')
  ∧ (∀ topic key value headers, topic ≠ EmptyString →
       TxProduce txID topic key value headers (cs_broker st') = (Err ErrTxClosed, cs_broker st')).
Proof.
  intros H0 HR Hb Htx Hcl.
  pose proof (con_run_inv _ _ _ H0 (con_inv_start _ _)) as HI.
  destruct (con_run_closed _ _ _ _ _ HR HI Hb Htx Hcl) as (tx' & Htx' & Hcl' & HM & Hst & Hfl).
  split; [by exists tx'|]. split; [done|].
  unfold commit_begin, CommitTransaction, AbortTransaction, TxProduce. rewrite Htx'.
  split_and!; [by rewrite decide_False|intros w; by rewrite decide_False|by rewrite decide_False|].
  intros topic key value headers Ht. by rewrite bool_decide_eq_false_2, decide_False.
Qed.

(** The commit of [tx0] in flight, after its first section. *)
Definition flying0 : Broker := update_tx txid0 (set_tx_Status TxCommitting) txbroker0.
Definition flight0 : TxCommit := MkTxCommit txid0 true [MkTxRecord "orders" k0 v0 ∅] false 0.

Lemma flying0_run :
  con_run (E := env0) (C := codec0) (MkCon txbroker0 begun0.2 ∅) [EvStarted txid0]
    (MkCon flying0 begun0.2 {[0%nat := flight0]}).
Proof.
  eapply (con_cons _ [EvStarted txid0] _ []); [|apply con_nil].
  eapply (con_commit 0 txid0 txbroker0 begun0.2 ∅ (InFlight flight0)); [apply lookup_empty|].
  vm_compute. reflexivity.
Qed.

Lemma closed_transaction_is_final_witness :
  AbortTransaction txid0 flying0 = (Err ErrTxClosed, flying0).
Proof.
  apply (closed_transaction_is_final (E := env0) (C := codec0) txbroker0 begun0.2 [EvStarted txid0]
    (MkCon flying0 begun0.2 {[0%nat := flight0]}) [] (MkCon flying0 begun0.2 {[0%nat := flight0]})
    txid0 (set_tx_Status TxCommitting tx0) flying0_run (con_nil _));
    [apply not_elem_of_nil|vm_compute; reflexivity|discriminate].
Defined.

Definition aborted0 : Broker := (AbortTransaction txid0 txbroker0).2.

(** Nothing of a transaction shows before its commit: beginning one, adding
    records to it and aborting it change no topic and no file, so every read
    and every log is as before; an aborted transaction keeps no records. *)
Theorem uncommitted_is_invisible `{E : Env, C : RecordCodec}
    logs b w txID producer epoch topic key value headers :
  run_inv logs b w →
  (let '(r, b', w') := BeginTransaction producer epoch b w in
     run_inv logs b' w' ∧ topics b' = topics b ∧ w_nodes w' = w_nodes w)
  ∧ (let '(r, b') := TxProduce txID topic key value headers b in
     run_inv logs b' w ∧ topics b' = topics b)
  ∧ (let '(r, b') := AbortTransaction txID b in
     run_inv logs b' w ∧ topics b' = topics b
     ∧ (r = Ok tt → ∃ tx, txState b' !! txID = Some tx ∧ tx_Status tx = TxAborted ∧ tx_Records tx = [])).
Proof.
  intros HI. split_and!.
  - unfold BeginTransaction, time_now. case_bool_decide; [done|]. split_and!; try done.
    eapply run_inv_same; [exact HI|done..].
  - unfold TxProduce. case_bool_decide; [done|].
    destruct (txState b !! txID) as [tx|]; [|done]. case_decide; [|done].
    split; [eapply run_inv_same; [exact HI|done..]|done].
  - unfold AbortTransaction. destruct (txState b !! txID) as [tx|] eqn:Htx; [|done].
    case_decide; [|done]. split_and!; [eapply run_inv_same; [exact HI|done..]|done|].
    intros _. simpl. rewrite lookup_alter_eq, Htx. eexists. split; [done|by split].
Qed.

Lemma uncommitted_is_invisible_witness :
  run_inv (C := codec0) {["orders"%string := []]} aborted0 begun0.2.
Proof.
  destruct (uncommitted_is_invisible (E := env0) (C := codec0) {["orders"%string := []]} txbroker0
    begun0.2 txid0 "p" 1 "orders" k0 v0 ∅ txbroker0_inv) as (_ & _ & H).
  unfold aborted0. destruct (AbortTransaction txid0 txbroker0) as [r b']. apply H.
Defined.

(** A commit is not atomic: with one system call failing during the second
    record of a transaction (here the write of its length prefix), the first
    record is already visible to a read-committed consumer, the transaction is
    left in the committing state, and neither a second commit nor an abort is
    accepted. *)
Theorem partial_commit_is_visible :
  let E1 := env_failing [16%nat] in
  let b1 := (TxProduce txid0 "orders" k0 v0 ∅ txbroker0).2 in
  let c := CommitTransaction (E := E1) (C := codec0) txid0 b1 begun0.2 in
  let r := ConsumeReadCommitted (E := env0) (C := codec0) "orders" 0 10 c.1.2 c.2 in
  c.1.1 = (1, Some (ErrWrap "write length prefix" ErrIO))
  ∧ (match r.1 with Ok l => Value <$> l | Err _ => [] end) = [v0]
  ∧ (tx_Status <$> txState c.1.2 !! txid0) = Some TxCommitting
  ∧ (AbortTransaction txid0 c.1.2).1 = Err ErrTxClosed.
Proof.
  cbv zeta. split; [vm_compute; reflexivity|]. split; [vm_compute; reflexivity|].
  split; vm_compute; reflexivity.
Qed.
