(* ===== verification/SparseIndex.v ===== *)
(** * The memory-mapped sparse index ([src/broker/sparse_index_mmap.go])

    A fixed-size table of (offset, position) pairs in a file that is mapped
    shared: [s.data] is the contents of the file, so the model keeps it there. *)

From S2P Require Import Prelude Encoding OS.

(** ** Operations *)

(** [binary.BigEndian.PutUint64(b, uint64(v))] and [int64(binary.BigEndian.Uint64(b))] *)
Definition PutUint64 (v : Z) : list byte := be_bytes 8 (uint64_of v).
Definition Uint64 (b : list byte) : Z := wrap64 (be_value (take 8 b)).

(** [mapped] is false after [Close], when [data] is nil. *)
Record SparseMMapIndex := MkSparse {
  sm_file : path;
  sm_mapped : bool;
  entries : nat }.

(** The contents of [s.data]. *)
Definition sm_data (s : SparseMMapIndex) (w : world) : list byte :=
  if sm_mapped s then default [] (file w (sm_file s)) else [].

(** The pair in slot [i]. *)
Definition slot (data : list byte) (i : nat) : Z * Z :=
  (Uint64 (slice data (i * 16) 8), Uint64 (slice data (i * 16 + 8) 8)).

(** The loop that counts the entries of a reopened file, [n] slots from [i] on. *)
Fixpoint countEntries (data : list byte) (i n : nat) : nat :=
  match n with
  | O => 0
  | S n => let '(off, pos) := slot data i in
           if (off =? 0) && (pos =? 0) then 0 else S (countEntries data (S i) n)
  end.

(** The loop of [Find]. *)
Fixpoint findFrom (data : list byte) (offset : Z) (i n : nat) : option Z :=
  match n with
  | O => None
  | S n => let '(off, pos) := slot data i in
           if off =? offset then Some pos else findFrom data offset (S i) n
  end.

Section operations.
Context {E : Env}.

(** [f.Truncate(n)]: cut, or fill up with zeros. *)
Definition Truncate (p : path) (n : Z) (w : world) : res unit * world :=
  match env_fault (w_tick w), file w p with
  | None, Some d =>
      if n <? 0 then (Err ErrInvalid, tick w)
      else (Ok tt, set_node p (File (take (Z.to_nat n) (d ++ replicate (Z.to_nat n) x00))) (tick w))
  | _, _ => (Err ErrIO, tick w)
  end.

(** [unix.Mmap] and [unix.Munmap] *)
Definition Mmap (w : world) : res unit * world :=
  match env_fault (w_tick w) with None => (Ok tt, tick w) | Some _ => (Err ErrIO, tick w) end.

Definition OpenSparseMMapIndex (p : path) (maxEntries : Z) (w : world)
    : res SparseMMapIndex * world :=
  let maxEntries := if maxEntries <=? 0 then 1024 else maxEntries in
  let sz := wrap64 (maxEntries * 16) in
  match OpenFile p w with
  | (Err e, w) => (Err e, w)
  | (Ok _, w) =>
      match Truncate p sz w with
      | (Err e, w) => (Err e, w)
      | (Ok _, w) =>
          match Mmap w with
          | (Err e, w) => (Err e, w)
          | (Ok _, w) =>
              let idx := MkSparse p true 0 in
              (Ok (MkSparse p true (countEntries (sm_data idx w) 0 (Z.to_nat maxEntries))), w)
          end
      end
  end.

(** Stores into the mapping reach the file. *)
Definition SparseAppend (offset position : Z) (s : SparseMMapIndex) (w : world)
    : res unit * SparseMMapIndex * world :=
  let base := (entries s * 16)%nat in
  let data := sm_data s w in
  if bool_decide (length data < base + 16)%nat then (Err (ErrMsg "sparse mmap index full"), s, w)
  else
    let data := write_at data base (PutUint64 offset) in
    let data := write_at data (base + 8) (PutUint64 position) in
    (Ok tt, MkSparse (sm_file s) (sm_mapped s) (S (entries s)), set_node (sm_file s) (File data) w).

Definition Find (offset : Z) (s : SparseMMapIndex) (w : world) : option Z :=
  findFrom (sm_data s w) offset 0 (entries s).

Definition SparseClose (s : SparseMMapIndex) (w : world) : res unit * SparseMMapIndex * world :=
  if sm_mapped s then
    match Mmap w with
    | (Err e, w) => (Err e, s, w)
    | (Ok _, w) => (Ok tt, MkSparse (sm_file s) false (entries s), w)
    end
  else (Ok tt, s, w).
End operations.

(** ** Specification

    The table implements an association list of at most [cap] pairs. *)

Definition table (l : list (Z * Z)) (cap : nat) : list byte :=
  mjoin (encode_pair <$> l) ++ replicate (16 * (cap - length l)) x00.

Record sparse_rep (l : list (Z * Z)) (cap : nat) (s : SparseMMapIndex) (w : world) : Prop := {
  sr_mapped : sm_mapped s = true;
  sr_entries : entries s = length l;
  sr_cap : (length l ≤ cap)%nat;
  sr_ints : Forall (λ p, int64 p.1 ∧ int64 p.2) l;
  sr_file : file w (sm_file s) = Some (table l cap) }.

Definition assoc (l : list (Z * Z)) (offset : Z) : option Z :=
  snd <$> head (filter (λ p, p.1 = offset) l).

(** ** Lemmas *)

Lemma PutUint64_int64ToBytes v : PutUint64 v = int64ToBytes v.
Proof.
  unfold PutUint64, uint64_of. rewrite (int64ToBytes_be_bytes v).
  apply (be_bytes_mod 8).
Qed.

Lemma Uint64_bytesToInt64 b : Uint64 b = bytesToInt64 b.
Proof. symmetry. apply bytesToInt64_be_value. Qed.

Lemma table_length l cap : (length l ≤ cap)%nat → length (table l cap) = (16 * cap)%nat.
Proof. intros H. unfold table. rewrite length_app, encode_pairs_length, length_replicate. lia. Qed.

Lemma table_split l1 p l2 cap :
  table (l1 ++ p :: l2) cap
  = mjoin (encode_pair <$> l1) ++ encode_pair p
    ++ (mjoin (encode_pair <$> l2) ++ replicate (16 * (cap - length (l1 ++ p :: l2))) x00).
Proof. unfold table. rewrite fmap_app, fmap_cons, join_app. cbn [mjoin list_join]. by rewrite <- !app_assoc. Qed.

(** Reading a slot that lies at the right place. *)
Lemma slot_app pre p post i :
  length pre = (i * 16)%nat → int64 p.1 → int64 p.2 → slot (pre ++ encode_pair p ++ post) i = p.
Proof.
  intros Hl H1 H2. unfold slot, slice. rewrite !Uint64_bytesToInt64.
  rewrite (drop_app_length' pre) by done.
  replace (drop (i * 16 + 8) (pre ++ encode_pair p ++ post)) with (int64ToBytes p.2 ++ post).
  - unfold encode_pair. rewrite <- app_assoc, !take_app_length' by done.
    rewrite !bytesToInt64_int64ToBytes by done. by destruct p.
  - rewrite <- drop_drop, (drop_app_length' pre) by done. unfold encode_pair.
    by rewrite <- app_assoc, drop_app_length' by done.
Qed.

Lemma slot_table l cap i p :
  Forall (λ p, int64 p.1 ∧ int64 p.2) l → l !! i = Some p → slot (table l cap) i = p.
Proof.
  intros HF Hi. pose proof (take_drop_middle l i p Hi) as Hl.
  destruct (Forall_lookup_1 _ _ _ _ HF Hi) as [H1 H2].
  rewrite <- Hl, table_split. apply slot_app; [|done|done].
  rewrite encode_pairs_length, length_take. apply lookup_lt_Some in Hi. lia.
Qed.

(** An unused slot reads as (0, 0). *)
Lemma slot_unused l cap i : (length l ≤ i < cap)%nat → slot (table l cap) i = (0, 0).
Proof.
  intros Hi. unfold table.
  replace (16 * (cap - length l))%nat with (16 * (i - length l) + (16 + 16 * (cap - i - 1)))%nat by lia.
  rewrite !replicate_add, app_assoc.
  change (replicate 16 x00) with (encode_pair (0, 0)).
  apply slot_app; [|unfold int64; simpl; lia..].
  rewrite length_app, encode_pairs_length, length_replicate. lia.
Qed.

Lemma findFrom_table l cap offset n i :
  Forall (λ p, int64 p.1 ∧ int64 p.2) l → (i + n = length l)%nat →
  findFrom (table l cap) offset i n = assoc (drop i l) offset.
Proof.
  intros HF. revert i. induction n as [|n IH]; intros i Hi; cbn [findFrom].
  { by rewrite drop_ge by lia. }
  destruct (lookup_lt_is_Some_2 l i) as [p Hp]; [lia|].
  rewrite (slot_table _ _ _ _ HF Hp), (drop_S _ _ _ Hp). destruct p as [o q]. unfold assoc.
  destruct (o =? offset) eqn:Ho; bool_prop.
  - by rewrite filter_cons_True by done.
  - rewrite filter_cons_False by done. apply IH. lia.
Qed.

Lemma countEntries_table l cap n i :
  Forall (λ p, int64 p.1 ∧ int64 p.2) l → (0, 0) ∉ drop i l → (i + n = cap)%nat →
  (length l ≤ cap)%nat → countEntries (table l cap) i n = (length l - i)%nat.
Proof.
  intros HF. revert i. induction n as [|n IH]; intros i Hz Hi Hc; cbn [countEntries]; [lia|].
  destruct (l !! i) as [[o q]|] eqn:Hp.
  - pose proof (lookup_lt_Some _ _ _ Hp). rewrite (slot_table _ _ _ _ HF Hp).
    rewrite (drop_S _ _ _ Hp) in Hz. apply not_elem_of_cons in Hz as [Hz Hz'].
    destruct ((o =? 0) && (q =? 0)) eqn:H0; bool_prop; [congruence|].
    rewrite IH by (done || lia). lia.
  - apply lookup_ge_None in Hp. rewrite slot_unused by lia. simpl. lia.
Qed.

Lemma write_at_zeros pre data n :
  data ≠ [] → (length data ≤ n)%nat →
  write_at (pre ++ replicate n x00) (length pre) data
  = pre ++ data ++ replicate (n - length data) x00.
Proof.
  intros Hd Hn. unfold write_at. destruct data as [|d data]; [done|].
  rewrite length_app, length_replicate.
  replace (length pre - (length pre + n))%nat with 0%nat by lia. cbn [replicate].
  rewrite app_nil_r, take_app_length. f_equal. f_equal.
  rewrite drop_app_ge by lia.
  replace (length pre + length (d :: data) - length pre)%nat with (length (d :: data)) by lia.
  by rewrite drop_replicate.
Qed.

Lemma SparseAppend_rep l cap s w offset position :
  sparse_rep l cap s w → int64 offset → int64 position →
  let '(r, s', w') := SparseAppend offset position s w in
  if decide (length l < cap)%nat
  then r = Ok tt ∧ sparse_rep (l ++ [(offset, position)]) cap s' w'
  else r = Err (ErrMsg "sparse mmap index full") ∧ s' = s ∧ w' = w.
Proof.
  intros [Hm He Hc HF Hfile] Ho Hp. unfold SparseAppend, sm_data. rewrite Hm, Hfile, He.
  cbn [from_option id]. rewrite (table_length l cap) by done.
  case_decide as Hlt.
  2:{ rewrite bool_decide_eq_true_2 by lia. done. }
  rewrite bool_decide_eq_false_2 by lia. split; [done|].
  assert (table (l ++ [(offset, position)]) cap
    = write_at (write_at (table l cap) (length l * 16) (PutUint64 offset))
        (length l * 16 + 8) (PutUint64 position)) as HT.
  { rewrite !PutUint64_int64ToBytes. unfold table at 2. set (m := mjoin (encode_pair <$> l)).
    assert (length m = (length l * 16)%nat) as Hml by (unfold m; rewrite encode_pairs_length; lia).
    rewrite <- Hml. rewrite write_at_zeros; [|done|rewrite int64ToBytes_length; lia].
    rewrite app_assoc. rewrite int64ToBytes_length.
    replace (length m + 8)%nat with (length (m ++ int64ToBytes offset))
      by (rewrite length_app, int64ToBytes_length; lia).
    rewrite write_at_zeros; [|done|rewrite int64ToBytes_length; lia].
    rewrite table_split. fold m. unfold encode_pair. cbn [fst snd fmap list_fmap mjoin list_join].
    rewrite int64ToBytes_length, length_app, <- !app_assoc. cbn [length app].
    do 4 f_equal. lia. }
  split; simpl; [done| | | |].
  - rewrite length_app. simpl. lia.
  - rewrite length_app. simpl. lia.
  - apply Forall_app. split; [done|]. constructor; [by split|constructor].
  - rewrite file_set_node_eq. by rewrite HT.
Qed.

Section reopening.
Context {E : Env}.

Lemma Truncate_same p d n w w' :
  file w p = Some d → Z.of_nat (length d) = n → Truncate p n w = (Ok tt, w') → file w' p = Some d.
Proof.
  intros Hf Hn. unfold Truncate. rewrite Hf. destruct (env_fault (w_tick w)); [done|].
  case_match; [done|]. intros [= <-]. rewrite file_set_node_eq. f_equal.
  rewrite <- Hn, Nat2Z.id. apply take_app_length.
Qed.

(** Opening the file of a table with the same capacity. *)
Lemma OpenSparse_reopen p l cap maxEntries w s' w' :
  file w p = Some (table l cap) → (length l ≤ cap)%nat →
  Forall (λ p, int64 p.1 ∧ int64 p.2) l →
  Z.of_nat cap = (if maxEntries <=? 0 then 1024 else maxEntries) → Z.of_nat cap < 2 ^ 59 →
  OpenSparseMMapIndex p maxEntries w = (Ok s', w') →
  sm_file s' = p ∧ sm_mapped s' = true ∧ file w' p = Some (table l cap)
  ∧ entries s' = countEntries (table l cap) 0 cap.
Proof.
  intros Hf Hl HF Hcap Hb. unfold OpenSparseMMapIndex. rewrite <- Hcap.
  rewrite wrap64_id by (unfold int64; lia).
  destruct (OpenFile p w) as [[[]|] w1] eqn:E1; [|done]. apply OpenFile_file in E1. rewrite Hf in E1.
  destruct (Truncate _ _ w1) as [[[]|] w2] eqn:E2; [|done].
  apply (Truncate_same p (table l cap)) in E2; [|done|rewrite table_length by done; lia].
  unfold Mmap. destruct (env_fault _); [done|]. intros [= <- <-].
  rewrite file_tick. split_and!; try done. unfold sm_data. cbn [entries sm_mapped sm_file].
  by rewrite file_tick, E2, Nat2Z.id.
Qed.
End reopening.

(** * Properties *)

(** C37: the table refines a bounded association list: [Append] adds the pair at
    the end while there is a free slot and is refused, without effect, when
    there is none; [Find] returns the position of the first pair with that
    offset, and nothing when there is no such pair. *)
Theorem sparse_index_refines_assoc l cap s w offset position o :
  sparse_rep l cap s w → int64 offset → int64 position →
  Find o s w = assoc l o
  ∧ let '(r, s', w') := SparseAppend offset position s w in
    if decide (length l < cap)%nat
    then r = Ok tt ∧ sparse_rep (l ++ [(offset, position)]) cap s' w'
         ∧ Find o s' w' = assoc (l ++ [(offset, position)]) o
    else r = Err (ErrMsg "sparse mmap index full") ∧ s' = s ∧ w' = w.
Proof.
  intros HR Ho Hp.
  assert (∀ l s w, sparse_rep l cap s w → Find o s w = assoc l o) as HFind.
  { intros l0 s0 w0 [Hm He Hc HF Hf]. unfold Find, sm_data. rewrite Hm, Hf, He.
    cbn [from_option id]. by rewrite findFrom_table. }
  split; [by apply HFind|]. pose proof (SparseAppend_rep _ _ _ _ _ _ HR Ho Hp) as HA.
  destruct (SparseAppend offset position s w) as [[r s'] w']. case_decide; [|done].
  destruct HA as [-> HA]. split_and!; [done|done|by apply HFind].
Qed.

Definition sparse0 : SparseMMapIndex := MkSparse (true, ["idx"; "data"]%string) true 0.
Definition wsparse0 : world := World {[(true, ["idx"; "data"]%string) := File (table [] 2)]} 0.

Lemma sparse0_rep : sparse_rep [] 2 sparse0 wsparse0.
Proof. split; [done|done|simpl; lia|constructor|reflexivity]. Qed.

Lemma sparse_index_refines_assoc_witness :
  ∃ s' w', SparseAppend 7 100 sparse0 wsparse0 = (Ok tt, s', w') ∧ Find 7 s' w' = Some 100.
Proof.
  pose proof (sparse_index_refines_assoc [] 2 sparse0 wsparse0 7 100 7 sparse0_rep
    ltac:(unfold int64; lia) ltac:(unfold int64; lia)) as [_ H].
  destruct (SparseAppend 7 100 sparse0 wsparse0) as [[r s'] w'].
  rewrite decide_True in H by (simpl; lia). destruct H as (-> & _ & H).
  exists s', w'. split; [reflexivity|exact H].
Defined.

(** Closing the index and opening its file again with the same capacity
    gives the same table, when no pair is (0, 0); the pair (0, 0) ends the scan,
    so a table whose first pair is (0, 0), the pair of the first record of a
    log, reopens empty and the next append overwrites it. *)
Theorem sparse_index_reopen `{E : Env} l cap maxEntries s w s' w' :
  sparse_rep l cap s w → Z.of_nat cap < 2 ^ 59 →
  Z.of_nat cap = (if maxEntries <=? 0 then 1024 else maxEntries) →
  OpenSparseMMapIndex (sm_file s) maxEntries w = (Ok s', w') →
  ((0, 0) ∉ l → sparse_rep l cap s' w')
  ∧ (∀ l', l = (0, 0) :: l' → entries s' = 0%nat).
Proof.
  intros [Hm He Hc HF Hf] Hb Hcap HO.
  destruct (OpenSparse_reopen _ l cap _ _ _ _ Hf Hc HF Hcap Hb HO) as (Hp & Hm' & Hf' & He').
  split.
  - intros Hz. rewrite countEntries_table in He'; [|done|by rewrite drop_0|lia|done].
    split; [done|rewrite He'; lia|done|done|by rewrite Hp].
  - intros l' ->. rewrite He'. destruct cap as [|cap]; [done|]. cbn [countEntries].
    by rewrite (slot_table _ _ 0 (0, 0) HF eq_refl).
Qed.

Definition sparse_env : Env := {| env_fault := λ _, None; env_clock := Z.of_nat |}.

Lemma sparse_index_reopen_witness :
  ∃ s' w', OpenSparseMMapIndex (E := sparse_env) (sm_file sparse0) 2 wsparse0 = (Ok s', w')
    ∧ sparse_rep [] 2 s' w'.
Proof.
  destruct (OpenSparseMMapIndex (E := sparse_env) (sm_file sparse0) 2 wsparse0) as [[s'|e] w'] eqn:HO.
  - exists s', w'. split; [reflexivity|].
    apply (sparse_index_reopen (E := sparse_env) [] 2 2 sparse0 wsparse0 s' w' sparse0_rep);
      [simpl; lia|reflexivity|exact HO|apply not_elem_of_nil].
  - assert (is_ok (OpenSparseMMapIndex (E := sparse_env) (sm_file sparse0) 2 wsparse0).1 = true) as H
      by (vm_compute; reflexivity). rewrite HO in H. discriminate H.
Defined.
