(* ===== verification/SendFile.v ===== *)
(** * Zero-copy transfer ([src/broker/sendfile.go], [sendfile_linux.go],
    [sendfile_nonlinux.go], [sendfile_export.go])

    The copy loop of the fallback and the [sendfile(2)] loop of Linux, against
    a file and a writer whose calls may be short, fail or be interrupted. *)

From S2P Require Import Prelude Encoding OS.

(** ** The file and the writer *)

(** What the next [f.Read] does besides reaching the end of the file: read at
    most [S n] bytes, or fail.  Without an entry it fills the buffer. *)
Inductive read_beh := RdShort (n : nat) | RdErr.

(** What the next [w.Write] does: take only [n] bytes, with or without an
    error.  Without an entry it takes everything. *)
Inductive write_beh := WrErr (n : nat) | WrShort (n : nat).

(** What the next [sendfile] call does: move at most [S n] bytes, be interrupted,
    or fail after [n] bytes. *)
Inductive send_beh := SfMoves (n : nat) | SfAgain | SfErr (n : nat).

Definition bufSize : Z := 32 * 1024.

(** The remaining bytes of the file come first; the bytes the writer took are
    collected in [out]. *)
Fixpoint copyLoop (fuel : nat) (rest : list byte) (remain copied : Z)
    (rb : list read_beh) (wb : list write_beh) (out : list byte)
    : option (Z * option error * list byte) :=
  if remain <=? 0 then Some (copied, None, out)
  else match fuel with
  | O => None
  | S fuel =>
      let toRead := Z.to_nat (if remain <? bufSize then remain else bufSize) in
      match head rb with
      | Some RdErr => Some (copied, Some ErrIO, out)
      | beh =>
          let cap := match beh with Some (RdShort n) => Nat.min toRead (S n) | _ => toRead end in
          let got := take cap rest in
          if decide (got = []) then Some (copied, None, out)
          else
            let '(wn, werr) := match head wb with
                               | Some (WrErr n) => (Nat.min n (length got), true)
                               | Some (WrShort n) => (Nat.min n (length got), false)
                               | None => (length got, false)
                               end in
            let copied := copied + Z.of_nat wn in
            let out := out ++ take wn got in
            if werr : bool then Some (copied, Some ErrIO, out)
            else if decide (length got = wn) then
              copyLoop fuel (drop cap rest) (remain - zlen got) copied (tail rb) (tail wb) out
            else Some (copied, Some (ErrMsg "short write"), out)
      end
  end.

(** Every turn reads at least one byte, so [count] turns are enough. *)
Definition sendFileFallback (f : list byte) (off count : Z) (rb : list read_beh)
    (wb : list write_beh) : option (Z * option error * list byte) :=
  if off <? 0 then Some (0, Some ErrInvalid, [])
  else copyLoop (Z.to_nat count) (drop (Z.to_nat off) f) count 0 rb wb [].

(** The Linux loop; after the scripted calls each call moves all that is left. *)
Fixpoint sendLoop (fuel : nat) (rest : list byte) (total count : Z) (sb : list send_beh)
    (out : list byte) : option (Z * option error * list byte) :=
  if count <=? total then Some (total, None, out)
  else match fuel with
  | O => None
  | S fuel =>
      let toSend := Z.to_nat (count - total) in
      let '(n, err) := match head sb with
                       | Some (SfMoves n) => (Nat.min (S n) toSend, None)
                       | Some SfAgain => (0%nat, Some true)
                       | Some (SfErr n) => (Nat.min n toSend, Some false)
                       | None => (toSend, None)
                       end in
      let moved := take n rest in
      let total := total + zlen moved in
      let out := out ++ moved in
      match err with
      | Some true => sendLoop fuel (drop n rest) total count (tail sb) out
      | Some false => Some (total, Some ErrIO, out)
      | None =>
          if decide (moved = []) then Some (total, None, out)
          else sendLoop fuel (drop n rest) total count (tail sb) out
      end
  end.

(** [isFile] tells whether the writer is an [*os.File]. *)
Definition sendFile (isFile : bool) (f : list byte) (off count : Z) (sb : list send_beh)
    : option (Z * option error * list byte) :=
  if negb isFile then Some (0, Some ErrInvalid, [])
  else sendLoop (length sb + 2) (drop (Z.to_nat off) f) 0 count sb [].

(** [SendFile] on Linux. *)
Definition SendFile := sendFile.

(** ** Lemmas *)

Lemma zlen_pos_ne {A} (l : list A) : l ≠ [] → 0 < zlen l.
Proof. destruct l; [done|]. intros _. rewrite zlen_cons. pose proof (zlen_nonneg l). lia. Qed.

(** Taking [cap] bytes first and the rest later. *)
Lemma take_split (rest : list byte) (cap : nat) (remain : Z) :
  Z.of_nat cap <= remain →
  take (Z.to_nat remain) rest
  = take cap rest ++ take (Z.to_nat (remain - zlen (take cap rest))) (drop cap rest).
Proof.
  intros Hc. unfold zlen. rewrite length_take.
  destruct (decide (length rest ≤ cap)%nat) as [Hl|Hl].
  - rewrite (drop_ge rest), take_nil, app_nil_r by lia. rewrite !take_ge by lia. done.
  - rewrite <- (take_drop cap rest) at 1. rewrite take_app_ge by (rewrite length_take; lia).
    rewrite length_take. f_equal. f_equal. lia.
Qed.

(** The loop copies a prefix of what is left, and all of it without errors. *)
Definition copies (rest : list byte) (remain copied : Z) (clean : Prop) (out : list byte)
    (r : option (Z * option error * list byte)) : Prop :=
  ∃ sent e, r = Some (copied + zlen sent, e, out ++ sent)
    ∧ sent `prefix_of` take (Z.to_nat remain) rest
    ∧ (e = None → sent = take (Z.to_nat remain) rest) ∧ (clean → e = None).

Lemma copies_nothing rest remain copied clean out e :
  (e = None → take (Z.to_nat remain) rest = []) → (clean → e = None) →
  copies rest remain copied clean out (Some (copied, e, out)).
Proof.
  intros He Hc. exists [], e. rewrite app_nil_r, Z.add_0_r. split_and!; [done|apply prefix_nil| |done].
  intros H. by rewrite He.
Qed.

(** One turn that moves [moved] followed by the rest of the loop. *)
Lemma copies_cons rest cap remain copied clean clean' out r :
  Z.of_nat cap <= remain → (clean → clean') →
  copies (drop cap rest) (remain - zlen (take cap rest)) (copied + zlen (take cap rest)) clean'
    (out ++ take cap rest) r →
  copies rest remain copied clean out r.
Proof.
  intros Hcap Hc (sent & e & -> & Hp & He & Hcl). exists (take cap rest ++ sent), e.
  rewrite (take_split rest cap remain Hcap), zlen_app, app_assoc. split_and!.
  - by rewrite Z.add_assoc.
  - by apply prefix_app.
  - intros H. by rewrite He.
  - auto.
Qed.

(** What a turn does with the up to [cap] bytes it reads. *)
Definition copy_turn (fuel cap : nat) (rest : list byte) (remain copied : Z) (rb : list read_beh)
    (wb : list write_beh) (out : list byte) : option (Z * option error * list byte) :=
  let got := take cap rest in
  if decide (got = []) then Some (copied, None, out)
  else let '(wn, werr) := match head wb with
                          | Some (WrErr n) => (Nat.min n (length got), true)
                          | Some (WrShort n) => (Nat.min n (length got), false)
                          | None => (length got, false)
                          end in
       let copied := copied + Z.of_nat wn in
       let out := out ++ take wn got in
       if werr : bool then Some (copied, Some ErrIO, out)
       else if decide (length got = wn) then
         copyLoop fuel (drop cap rest) (remain - zlen got) copied (tail rb) (tail wb) out
       else Some (copied, Some (ErrMsg "short write"), out).

(** A write that stops early. *)
Lemma copies_short rest cap remain copied clean out wn e :
  Z.of_nat cap <= remain → (wn ≤ length (take cap rest))%nat → e ≠ None → (clean → False) →
  copies rest remain copied clean out (Some (copied + Z.of_nat wn, e, out ++ take wn (take cap rest))).
Proof.
  intros Hcap Hwn He Hcl. exists (take wn (take cap rest)), e. split_and!.
  - unfold zlen. by rewrite length_take_le by done.
  - rewrite (take_split rest cap remain) by lia. etrans; [apply prefix_take|]. by apply prefix_app_r.
  - done.
  - by intros ?%Hcl.
Qed.

Lemma copy_turn_copies fuel cap rest remain copied rb wb out :
  (0 < cap)%nat → Z.of_nat cap <= remain →
  (take cap rest ≠ [] →
   copies (drop cap rest) (remain - zlen (take cap rest)) (copied + zlen (take cap rest))
     (Forall (λ b, b ≠ RdErr) (tail rb) ∧ tail wb = []) (out ++ take cap rest)
     (copyLoop fuel (drop cap rest) (remain - zlen (take cap rest))
        (copied + zlen (take cap rest)) (tail rb) (tail wb) (out ++ take cap rest))) →
  copies rest remain copied (Forall (λ b, b ≠ RdErr) rb ∧ wb = []) out
    (copy_turn fuel cap rest remain copied rb wb out).
Proof.
  intros Hc1 Hc2 IH. unfold copy_turn. cbv zeta. case_decide as Hg.
  { apply copies_nothing; [|done]. intros _. destruct rest; [apply take_nil|]. destruct cap; [lia|done]. }
  assert (copies rest remain copied (Forall (λ b, b ≠ RdErr) rb ∧ wb = []) out
    (copyLoop fuel (drop cap rest) (remain - zlen (take cap rest))
      (copied + zlen (take cap rest)) (tail rb) (tail wb) (out ++ take cap rest))) as Hgo.
  { eapply (copies_cons rest cap); [lia| |by apply IH].
    intros [H1 ->]. split; [|done]. by destruct rb; [|inversion H1]. }
  destruct (head wb) as [[n|n]|] eqn:Hwb.
  - apply copies_short; [lia|lia|done|by intros [_ ->]].
  - case_decide as Hn; [|apply copies_short; [lia|lia|done|by intros [_ ->]]].
    rewrite <- Hn, firstn_all. exact Hgo.
  - rewrite decide_True, firstn_all by done. exact Hgo.
Qed.

Lemma copyLoop_spec fuel rest remain copied rb wb out :
  remain <= Z.of_nat fuel →
  copies rest remain copied (Forall (λ b, b ≠ RdErr) rb ∧ wb = []) out
    (copyLoop fuel rest remain copied rb wb out).
Proof.
  revert rest remain copied rb wb out.
  induction fuel as [|fuel IH]; intros rest remain copied rb wb out Hf; cbn [copyLoop];
    (destruct (remain <=? 0) eqn:Hr; bool_prop;
     [apply copies_nothing; [intros _; by replace (Z.to_nat remain) with 0%nat by lia|done]|]).
  { lia. }
  set (toRead := Z.to_nat (if remain <? bufSize then remain else bufSize)).
  assert ((0 < toRead)%nat ∧ Z.of_nat toRead <= remain) as [Ht1 Ht2].
  { unfold toRead, bufSize. destruct (remain <? 32 * 1024) eqn:Hc; bool_prop; lia. }
  assert (∀ cap, (0 < cap ≤ toRead)%nat →
    copies rest remain copied (Forall (λ b, b ≠ RdErr) rb ∧ wb = []) out
      (copy_turn fuel cap rest remain copied rb wb out)) as Hturn.
  { intros cap Hc. apply copy_turn_copies; [lia|lia|]. intros Hg. apply IH. apply zlen_pos_ne in Hg. lia. }
  destruct (head rb) as [[n|]|] eqn:Hrb.
  - apply Hturn. lia.
  - destruct rb; [done|]. injection Hrb as ->. apply copies_nothing; [done|].
    intros [H _]. by inversion H.
  - apply Hturn. lia.
Qed.

Lemma sendLoop_spec fuel rest total count sb out :
  (length sb + 2 ≤ fuel)%nat ∨ (rest = [] ∧ sb = [] ∧ (1 ≤ fuel)%nat) →
  copies rest (count - total) total (Forall (λ b, ∀ n, b ≠ SfErr n) sb) out
    (sendLoop fuel rest total count sb out).
Proof.
  revert rest total sb out. induction fuel as [|fuel IH]; intros rest total sb out Hf;
    cbn [sendLoop]; [lia|].
  destruct (count <=? total) eqn:Hc; bool_prop.
  { apply copies_nothing; [intros _; by replace (Z.to_nat (count - total)) with 0%nat by lia|done]. }
  set (toSend := Z.to_nat (count - total)).
  assert (Z.of_nat toSend = count - total) as Hts by (unfold toSend; lia).
  (* the loop goes on after moving [n] bytes *)
  assert (∀ n, (n ≤ toSend)%nat →
    (length (tail sb) + 2 ≤ fuel)%nat ∨ (drop n rest = [] ∧ tail sb = [] ∧ (1 ≤ fuel)%nat) →
    copies rest (count - total) total (Forall (λ b, ∀ n, b ≠ SfErr n) sb) out
      (sendLoop fuel (drop n rest) (total + zlen (take n rest)) count (tail sb)
         (out ++ take n rest))) as Hgo.
  { intros n Hn Hfuel.
    eapply (copies_cons rest n _ _ _ (Forall (λ b, ∀ n, b ≠ SfErr n) (tail sb))); [lia| |].
    - intros H. by destruct sb; [|inversion H].
    - replace (count - total - zlen (take n rest)) with (count - (total + zlen (take n rest))) by lia.
      by apply IH. }
  (* a call that ends the loop because nothing was moved *)
  assert (∀ n, (0 < n)%nat → take n rest = [] →
    copies rest (count - total) total (Forall (λ b, ∀ n, b ≠ SfErr n) sb) out
      (Some (total + zlen (take n rest), None, out ++ take n rest))) as Hend.
  { intros n Hn Ht. rewrite Ht, app_nil_r. change (zlen (@nil byte)) with 0. rewrite Z.add_0_r.
    apply copies_nothing; [|done]. intros _. destruct rest; [apply take_nil|destruct n; [lia|done]]. }
  destruct sb as [|[n| |n] sb]; cbn [head tail length] in *.
  - case_decide as Hm; [apply Hend; [lia|done]|]. 
    destruct fuel as [|fuel]; [destruct Hf as [?|(-> & _)]; [lia|by rewrite take_nil in Hm]|].
    destruct (decide (toSend ≤ length rest)%nat) as [Hl|Hl].
    + (* everything asked for was moved *)
      cbn [sendLoop]. rewrite (proj2 (Z.leb_le _ _)) by (unfold zlen; rewrite length_take_le by done; lia).
      exists (take toSend rest), None. split_and!; try done. 
    + apply Hgo; [lia|]. right. split_and!; [by apply drop_ge; lia|done|lia].
  - case_decide as Hm; [apply Hend; [lia|done]|]. apply Hgo; [lia|]. left.
    destruct Hf as [|(_ & ? & _)]; [lia|done].
  - apply (Hgo 0%nat); [lia|]. left. destruct Hf as [|(_ & ? & _)]; [lia|done].
  - exists (take (Nat.min n toSend) rest), (Some ErrIO). split_and!; try done.
    + replace (take (Nat.min n toSend) rest) with (take n (take toSend rest)) by apply take_take.
      apply prefix_take.
    + intros H. inversion H as [|? ? Hn _]. by destruct (Hn n).
Qed.

(** * Properties *)

(** C36: the fallback copies exactly the requested range and always returns.
    Whatever the reads and writes do, the count returned is the number of bytes
    the writer took and those are the first bytes of the range; without an
    error they are the whole range, cut at the end of the file; and there is no
    error when no read fails and every write is complete. *)
Theorem sendfile_fallback_exact f off count rb wb :
  0 <= off →
  ∃ sent e, sendFileFallback f off count rb wb = Some (zlen sent, e, sent)
    ∧ sent `prefix_of` slice f (Z.to_nat off) (Z.to_nat count)
    ∧ (e = None → sent = slice f (Z.to_nat off) (Z.to_nat count))
    ∧ (Forall (λ b, b ≠ RdErr) rb ∧ wb = [] → e = None).
Proof.
  intros Hoff. unfold sendFileFallback, slice. rewrite (proj2 (Z.ltb_ge _ _)) by done.
  apply (copyLoop_spec (Z.to_nat count) _ count 0 rb wb []). lia.
Qed.

Lemma sendfile_fallback_exact_witness :
  ∃ sent e, sendFileFallback [x01; x02; x03; x04] 1 2 [RdShort 0] [] = Some (zlen sent, e, sent)
    ∧ e = None ∧ sent = [x02; x03].
Proof.
  destruct (sendfile_fallback_exact [x01; x02; x03; x04] 1 2 [RdShort 0] []) as (sent & e & H1 & _ & H2 & H3);
    [lia|].
  exists sent, e. split; [exact H1|].
  assert (e = None) as He by (apply H3; split; [constructor; [discriminate|constructor]|reflexivity]).
  split; [exact He|]. exact (H2 He).
Defined.

(** On Linux [SendFile] to a file moves exactly the requested range, cut at
    the end of the file, through any number of partial and interrupted calls,
    and always returns when they are finitely many; an error leaves a prefix
    moved.  To a writer that is not a file it moves nothing and returns
    [os.ErrInvalid]: there is no fallback on Linux. *)
Theorem sendfile_linux_exact f off count sb :
  (∃ sent e, SendFile true f off count sb = Some (zlen sent, e, sent)
    ∧ sent `prefix_of` slice f (Z.to_nat off) (Z.to_nat count)
    ∧ (e = None → sent = slice f (Z.to_nat off) (Z.to_nat count))
    ∧ (Forall (λ b, ∀ n, b ≠ SfErr n) sb → e = None))
  ∧ SendFile false f off count sb = Some (0, Some ErrInvalid, []).
Proof.
  split; [|done]. unfold SendFile, sendFile, slice. cbn [negb].
  pose proof (sendLoop_spec (length sb + 2) (drop (Z.to_nat off) f) 0 count sb [] (or_introl (Nat.le_refl _)))
    as H. by rewrite Z.sub_0_r in H.
Qed.
