(* ===== verification/Clients.v ===== *)
(** * Users of the broker: namespaces and the embedded SDK
    ([src/broker/multitenant.go], [src/sdk/sdk.go])

    [TenantBroker.CreateTopicNS] and the embedded [Producer] and [Consumer],
    on top of the broker's operations. *)

From S2P Require Import Prelude Encoding OS Segment Samples SegmentFacts ConsumerGroup Broker.
From S2P Require Import BrokerFacts BrokerRun BrokerProps.

(** ** Namespaces *)

Section tenant.
Context {E : Env} {C : RecordCodec}.

(** The tenant broker wraps the broker; its own mutex guards only this call. *)
Definition CreateTopicNS (namespace name : string) (b : Broker) (w : world)
    : res Topic * Broker * world :=
  let nsDir := OS.Join (b_dir b) namespace in
  match MkdirAll nsDir w with
  | (Err e, w) => (Err (ErrWrap "create ns dir" e), b, w)
  | (Ok _, w) =>
      let topicDir := OS.Join nsDir name in
      match MkdirAll topicDir w with
      | (Err e, w) => (Err (ErrWrap "create topic dir" e), b, w)
      | (Ok _, w) =>
          match topics b !! name with
          | Some t => (Ok t, b, w)
          | None =>
              match newSegment (OS.Join topicDir "000000") 0 w with
              | (Err e, w) => (Err e, b, w)
              | (Ok seg, w) =>
                  let topic := MkTopic name 0 topicDir [seg] 0 in
                  (Ok topic, set_topics (<[name := topic]> (topics b)) b, w)
              end
          end
      end
  end.

Lemma CreateTopicNS_existing ns name b w t r b' w' :
  topics b !! name = Some t → CreateTopicNS ns name b w = (r, b', w') →
  b' = b ∧ (is_ok r = true → r = Ok t).
Proof.
  unfold CreateTopicNS. intros Ht.
  destruct (MkdirAll _ w) as [[[]|] w1]; [|by intros [= <- <- _]].
  destruct (MkdirAll _ w1) as [[[]|] w2]; [|by intros [= <- <- _]].
  rewrite Ht. by intros [= <- <- _].
Qed.

Lemma CreateTopicNS_new ns name b w t b' w' :
  CreateTopicNS ns name b w = (Ok t, b', w') → topics b' !! name = Some t.
Proof.
  unfold CreateTopicNS.
  destruct (MkdirAll _ w) as [[[]|] w1]; [|done].
  destruct (MkdirAll _ w1) as [[[]|] w2]; [|done].
  destruct (topics b !! name) eqn:Ht; [by intros [= <- <- _]|].
  destruct (newSegment _ 0 w2) as [[seg|] w3]; [|done]. intros [= <- <- _]. simpl.
  by rewrite lookup_insert_eq.
Qed.

(** ** The embedded SDK: a producer and a consumer each own a broker. *)

Definition Producer : Type := Broker.
Definition Consumer : Type := Broker.

Definition NewProducer (dir : path) (w : world) : res Producer * world := NewBroker dir w.
Definition ProducerCreateTopic (name : string) (p : Producer) (w : world)
    : res unit * Producer * world :=
  match CreateTopic name p w with
  | (Ok _, p, w) => (Ok tt, p, w)
  | (Err e, p, w) => (Err e, p, w)
  end.
Definition Send (topic : string) (key value : list byte) (headers : gmap string string)
    (p : Producer) (w : world) : res LogRecord * Producer * world :=
  Produce topic key value headers p w.

Definition NewConsumer (dir : path) (w : world) : res Consumer * world := NewBroker dir w.
Definition Poll (topic : string) (offset max : Z) (c : Consumer) (w : world)
    : res (list LogRecord) * world := Consume topic offset max c w.
Definition Commit (topic group : string) (offset : Z) (c : Consumer) (w : world)
    : res unit * world := CommitOffset topic group offset c w.
End tenant.

(** * Properties *)

(** The namespace is not part of a topic's identity.  Once a topic name
    exists in any namespace, creating it in another one changes nothing in the
    broker and, when the directories can be made, returns that same topic: two
    tenants that use the same topic name read and write one log. *)
Theorem namespaces_share_topics `{E : Env} ns1 ns2 name b w t b1 w1 w2 r b2 w3 :
  CreateTopicNS ns1 name b w = (Ok t, b1, w1) →
  CreateTopicNS ns2 name b1 w2 = (r, b2, w3) →
  topics b1 !! name = Some t ∧ b2 = b1 ∧ (is_ok r = true → r = Ok t).
Proof.
  intros H1 H2. apply CreateTopicNS_new in H1. split; [done|].
  by eapply CreateTopicNS_existing.
Qed.

Definition ns0 : res Topic * Broker * world := CreateTopicNS (E := env0) "acme" "orders" broker0 wb0.

Lemma namespaces_share_topics_witness :
  ∃ t, ns0.1.1 = Ok t ∧ (CreateTopicNS (E := env0) "globex" "orders" ns0.1.2 ns0.2).1.1 = Ok t.
Proof.
  destruct ns0 as [[r1 b1] w1] eqn:H1.
  assert (is_ok r1 = true) as Hr.
  { assert (is_ok ns0.1.1 = true) as H by (vm_compute; reflexivity). by rewrite H1 in H. }
  destruct r1 as [t|]; [|discriminate Hr]. exists t. split; [reflexivity|]. cbn [fst snd].
  destruct (CreateTopicNS (E := env0) "globex" "orders" b1 w1) as [[r b2] w3] eqn:H2.
  destruct (namespaces_share_topics (E := env0) "acme" "globex" "orders" broker0 wb0 t b1 w1 w1 r b2 w3
    H1 H2) as (_ & _ & H).
  apply H.
  assert (is_ok (CreateTopicNS (E := env0) "globex" "orders" ns0.1.2 ns0.2).1.1 = true) as Hok
    by (vm_compute; reflexivity). rewrite H1 in Hok. cbn [fst snd] in Hok. by rewrite H2 in Hok.
Defined.

(** An embedded consumer can never read.  It opens a broker of its own,
    which knows no topics and is given no way to learn any: whatever is on disk
    and whatever it commits, every poll of every topic fails with "topic not
    found". *)
Theorem sdk_consumer_never_polls `{E : Env, C : RecordCodec} dir w c w' topic offset max w'' :
  NewConsumer dir w = (Ok c, w') →
  (Poll topic offset max c w'').1 = Err (ErrTopicNotFound topic).
Proof.
  unfold NewConsumer, NewBroker. destruct (MkdirAll dir w) as [[]]; [|done]. intros [= <- _].
  unfold Poll, Consume. simpl. by rewrite lookup_empty.
Qed.

Lemma sdk_consumer_never_polls_witness :
  (Poll (E := env0) (C := codec0) "orders" 0 10 broker0 wb2).1 = Err (ErrTopicNotFound "orders").
Proof.
  apply (sdk_consumer_never_polls (E := env0) (C := codec0) dir0 wb2 broker0
    (NewBroker (E := env0) dir0 wb2).2).
  exact restart0_ok.
Defined.
