(* ===== verification/Wal.v ===== *)
(** * The raft write-ahead log and snapshots
    ([src/broker/internal/raft/wal.go], [storage.go], [persistent_mem.go],
    [persistent_storage.go], the entry codec of [node.go],
    [src/broker/storage/offload.go])

    The directory operations the log uses, the storage with its append, read,
    rotate, compact and snapshot operations, and the two adapters on top. *)

From S2P Require Import Prelude Encoding OS.

(** ** Directories and whole files *)

Definition is_dir (n : node) : bool := match n with Dir => true | File _ => false end.

(** The entry a node gives in the directory [p]. *)
Definition entry_in (p : path) (kn : path * node) : option (string * bool) :=
  match kn.1.2 with
  | name :: r => if decide ((kn.1.1, r) = p) then Some (name, is_dir kn.2) else None
  | [] => None
  end.

Definition dir_entries (p : path) (w : world) : list (string * bool) :=
  sort_by fst String.le (omap (entry_in p) (map_to_list (w_nodes w))).

Section dirs.
Context {E : Env}.

(** [os.ReadDir(p)]: the entries sorted by name, with their [IsDir()]. *)
Definition ReadDir (p : path) (w : world) : res (list (string * bool)) * world :=
  match env_fault (w_tick w), w_nodes w !! p with
  | Some _, _ => (Err ErrIO, tick w)
  | None, Some Dir => (Ok (dir_entries p w), tick w)
  | None, Some (File _) => (Err ErrIO, tick w)
  | None, None => (Err ErrNotExist, tick w)
  end.

(** [os.Stat(p)] *)
Definition Stat (p : path) (w : world) : res unit * world :=
  match env_fault (w_tick w), w_nodes w !! p with
  | Some _, _ => (Err ErrIO, tick w)
  | None, Some _ => (Ok tt, tick w)
  | None, None => (Err ErrNotExist, tick w)
  end.

(** [os.Remove(p)] of a file. *)
Definition Remove (p : path) (w : world) : res unit * world :=
  match env_fault (w_tick w), file w p with
  | None, Some _ => (Ok tt, World (delete p (w_nodes w)) (S (w_tick w)))
  | Some _, _ => (Err ErrIO, tick w)
  | None, None => (Err ErrNotExist, tick w)
  end.

(** [os.Rename(p, q)] of a file inside one directory. *)
Definition Rename (p q : path) (w : world) : res unit * world :=
  match env_fault (w_tick w), w_nodes w !! p, w_nodes w !! q with
  | None, Some (File d), Some Dir => (Err ErrIO, tick w)
  | None, Some (File d), _ =>
      (Ok tt, World (<[q := File d]> (delete p (w_nodes w))) (S (w_tick w)))
  | _, _, _ => (Err ErrIO, tick w)
  end.

(** [os.OpenFile(p, O_CREATE|O_WRONLY|O_TRUNC, 0o644)] and [os.Create(p)] *)
Definition OpenTrunc (p : path) (w : world) : res unit * world :=
  match env_fault (w_tick w), w_nodes w !! p with
  | Some _, _ => (Err ErrIO, tick w)
  | None, Some Dir => (Err ErrIO, tick w)
  | None, Some (File _) => (Ok tt, set_node p (File []) (tick w))
  | None, None => if parent_ok w p then (Ok tt, set_node p (File []) (tick w))
                  else (Err ErrIO, tick w)
  end.

(** [f.Write(data)] at the end of the file. *)
Definition Write (p : path) (data : list byte) (w : world) : res unit * world :=
  match file w p with
  | None => (Err ErrIO, tick w)
  | Some d =>
      match env_fault (w_tick w) with
      | None => (Ok tt, set_node p (File (d ++ data)) (tick w))
      | Some FaultBefore => (Err ErrIO, tick w)
      | Some (FaultAfter k) => (Err ErrIO, set_node p (File (d ++ take k data)) (tick w))
      end
  end.

(** [os.Open(p)] for reading, the contents standing for the reader. *)
Definition Open (p : path) (w : world) : res (list byte) * world := ReadFile p w.
End dirs.

(** ** Offloading ([src/broker/storage/offload.go]) *)

(** The interface; a reader is its contents. *)
Class Offloader := {
  Upload : string → string → list byte → world → res unit * world;
  Download : string → string → world → res (list byte) * world;
  List : string → string → world → res (list string) * world }.

(** [s[:len(p)] == p] *)
Definition has_prefix (p s : string) : bool := String.prefix p s.

Section local_offloader.
Context {E : Env} (Dir0 : path).

Definition LocalUpload (bucket key : string) (r : list byte) (w : world) : res unit * world :=
  let bucketDir := Join Dir0 bucket in
  match MkdirAll bucketDir w with
  | (Err e, w) => (Err e, w)
  | (Ok _, w) =>
      let dst := Join bucketDir key in
      match OpenTrunc dst w with
      | (Err e, w) => (Err e, w)
      | (Ok _, w) => Write dst r w
      end
  end.

Definition LocalDownload (bucket key : string) (w : world) : res (list byte) * world :=
  Open (Join (Join Dir0 bucket) key) w.

Definition LocalList (bucket prefix : string) (w : world) : res (list string) * world :=
  match ReadDir (Join Dir0 bucket) w with
  | (Err e, w) => (Err e, w)
  | (Ok entries, w) =>
      (Ok (omap (λ e : string * bool,
             if e.2 then None
             else if bool_decide (prefix = EmptyString) || has_prefix prefix e.1 then Some e.1 else None)
           entries), w)
  end.

Definition LocalOffloader : Offloader :=
  {| Upload := LocalUpload; Download := LocalDownload; List := LocalList |}.
End local_offloader.

(** ** Entries ([node.go]) *)

(** [raftpb.Entry] *)
Record Entry := MkEntry { Term : Z; Index : Z; EType : Z; Data : list byte }.

(** [proto.Marshal] and [proto.Unmarshal] of an entry. *)
Class EntryCodec := {
  proto_marshal : Entry → option (list byte);
  proto_unmarshal : list byte → option Entry }.

Section entries.
Context {P : EntryCodec}.

Fixpoint marshalEntries (ents : list Entry) : option (list byte) :=
  match ents with
  | [] => Some []
  | e :: ents =>
      b ← proto_marshal e; out ← marshalEntries ents; Some (putUint32 (zlen b) ++ b ++ out)
  end.

(** A short frame ends with no entries at all and no error; the fuel is the
    length of the data, of which every turn consumes four bytes or more. *)
Fixpoint unmarshalLoop (fuel : nat) (data : list byte) (ents : list Entry) : res (list Entry) :=
  if decide (data = []) then Ok ents
  else match fuel with
  | O => Ok ents
  | S fuel =>
      if decide (length data < 4)%nat then Ok []
      else
        let l := Z.to_nat (getUint32 data) in
        let data := drop 4 data in
        if decide (length data < l)%nat then Ok []
        else match proto_unmarshal (take l data) with
             | None => Err ErrInvalid
             | Some e => unmarshalLoop fuel (drop l data) (ents ++ [e])
             end
  end.
Definition unmarshalEntries (data : list byte) : res (list Entry) :=
  unmarshalLoop (length data) data [].
End entries.

(** ** The storage *)

(** The frames of one log file, as [ReadWAL] scans them. *)
Fixpoint scanFrames (fuel : nat) (b : list byte) : list byte :=
  match fuel with
  | O => []
  | S fuel =>
      if decide (length b < 4)%nat then []
      else
        let l := Z.to_nat (getUint32 b) in
        let b := drop 4 b in
        if decide (length b < l)%nat then [] else take l b ++ scanFrames fuel (drop l b)
  end.
Definition scanFile (b : list byte) : list byte := scanFrames (length b) b.

(** The names [ReadWAL] reads; the order of the paths is that of the names. *)
Definition is_wal_name (name : string) : bool :=
  bool_decide (name = "wal.log"%string)
  || (bool_decide (4 < String.length name)%nat && has_prefix "wal." name).
Definition wal_names (entries : list (string * bool)) : list string :=
  sort_strings (omap (λ e : string * bool,
    if e.2 then None else if is_wal_name e.1 then Some e.1 else None) entries).
Definition is_snap_name (name : string) : bool :=
  bool_decide (9 < String.length name)%nat && has_prefix "snapshot." name.

Section storage.
Context {E : Env} {P : EntryCodec}.

Definition NewWALStorage (dir : path) (w : world) : res path * world :=
  match MkdirAll dir w with
  | (Err e, w) => (Err e, w)
  | (Ok _, w) => (Ok dir, w)
  end.

Definition walPath (dir : path) : path := Join dir "wal.log".

Definition AppendWAL (dir : path) (entries : list byte) (w : world) : res unit * world :=
  match OpenFile (walPath dir) w with
  | (Err e, w) => (Err e, w)
  | (Ok _, w) =>
      match Write (walPath dir) (putUint32 (zlen entries)) w with
      | (Err e, w) => (Err e, w)
      | (Ok _, w) => Write (walPath dir) entries w
      end
  end.

Fixpoint readFiles (dir : path) (names : list string) (out : list byte) (w : world)
    : res (list byte) * world :=
  match names with
  | [] => (Ok out, w)
  | name :: names =>
      match ReadFile (Join dir name) w with
      | (Err e, w) => (Err e, w)
      | (Ok b, w) => readFiles dir names (out ++ scanFile b) w
      end
  end.

Definition ReadWAL (dir : path) (fromIndex : Z) (w : world) : res (list byte) * world :=
  match ReadDir dir w with
  | (Err e, w) => (Err e, w)
  | (Ok entries, w) =>
      match wal_names entries with
      | [] => (Ok [], w)
      | files =>
          match readFiles dir files [] w with
          | (Err e, w) => (Err e, w)
          | (Ok out, w) =>
              (Ok (if zlen out <=? fromIndex then [] else drop (Z.to_nat fromIndex) out), w)
          end
      end
  end.

(** [fmt.Sprintf("%d", timeNowUnixNano())] *)
Definition nano_string (now : Z) : string := String.string_of_list_byte (sprintf_d (wrap64 now)).
Definition rotName (now : Z) : string := "wal." +:+ nano_string now +:+ ".log".

Definition RotateWAL (dir : path) (w : world) : res unit * world :=
  let old := walPath dir in
  match Stat old w with
  | (Err ErrNotExist, w) => (Ok tt, w)
  | (_, w) =>
      let '(now, w) := time_now w in
      let newname := Join dir (rotName now) in
      match Rename old newname w with
      | (Err e, w) => (Err e, w)
      | (Ok _, w) => OpenTrunc old w
      end
  end.

(** [for ... os.Remove(...)], the errors ignored. *)
Fixpoint removeAll (dir : path) (names : list string) (w : world) : world :=
  match names with
  | [] => w
  | name :: names => removeAll dir names (Remove (Join dir name) w).2
  end.

Definition snap_names (entries : list (string * bool)) : list string :=
  omap (λ e : string * bool,
    if e.2 then None else if is_snap_name e.1 then Some e.1 else None) entries.

Definition PurgeOldSnapshots (dir : path) (keep : Z) (w : world) : res unit * world :=
  match ReadDir dir w with
  | (Err e, w) => (Err e, w)
  | (Ok entries, w) =>
      if zlen (snap_names entries) <=? keep then (Ok tt, w)
      else
        match ReadDir dir w with
        | (Err e, w) => (Err e, w)
        | (Ok files, w) =>
            let snapFiles := snap_names files in
            if keep <? 0 then (Err (ErrMsg "index out of range"), removeAll dir snapFiles w)
            else (Ok tt, removeAll dir (take (Z.to_nat (zlen snapFiles - keep)) snapFiles) w)
        end
  end.

(** The entries that survive a compaction; without indexes the position counts. *)
Definition keepEntries (compactIndex : Z) (ents : list Entry) : list Entry :=
  if existsb (λ e, 0 <? Index e) ents
  then filter (λ e, compactIndex < Index e) ents
  else drop (Z.to_nat compactIndex) ents.

(** The files removed after a compaction: all but the current one. *)
Definition old_logs (entries : list (string * bool)) : list string :=
  omap (λ e : string * bool,
    if e.2 then None
    else if negb (bool_decide (e.1 = "wal.log"%string)) && has_prefix "wal." e.1
    then Some e.1 else None) entries.

Definition Compact (dir : path) (compactIndex : Z) (w : world) : res unit * world :=
  match ReadWAL dir 0 w with
  | (Err e, w) => (Err e, w)
  | (Ok data, w) =>
      match unmarshalEntries data with
      | Err e => (Err e, w)
      | Ok ents =>
          match marshalEntries (keepEntries compactIndex ents) with
          | None => (Err ErrInvalid, w)
          | Some b =>
              match OpenTrunc (walPath dir) w with
              | (Err e, w) => (Err e, w)
              | (Ok _, w) =>
                  match Write (walPath dir) (putUint32 (zlen b)) w with
                  | (Err e, w) => (Err e, w)
                  | (Ok _, w) =>
                      match Write (walPath dir) b w with
                      | (Err e, w) => (Err e, w)
                      | (Ok _, w) =>
                          match ReadDir dir w with
                          | (Err _, w) => (Ok tt, w)
                          | (Ok entries, w) =>
                              (Ok tt, removeAll dir (old_logs entries) w)
                          end
                      end
                  end
              end
          end
      end
  end.
End storage.

(** ** Snapshots *)

Section snapshots.
Context {E : Env}.

(** [filepath.Base(path)] is the name itself; a failed upload is ignored. *)
Definition SaveSnapshot (off : option Offloader) (dir : path) (r : list byte) (w : world)
    : res string * world :=
  let '(now, w) := time_now w in
  let id := nano_string now in
  let name := "snapshot." +:+ id +:+ ".snap" in
  let p := Join dir name in
  match OpenTrunc p w with
  | (Err e, w) => (Err e, w)
  | (Ok _, w) =>
      match Write p r w with
      | (Err e, w) => (Err e, w)
      | (Ok _, w) =>
          match off with
          | None => (Ok id, w)
          | Some o =>
              match Open p w with
              | (Err _, w) => (Ok id, w)
              | (Ok data, w) => (Ok id, (Upload (Offloader := o) "snapshots" name data w).2)
              end
          end
      end
  end.

(** [if latest == "" || name > latest] over the names. *)
Definition latest_name (names : list string) : string :=
  fold_left (λ latest name,
    if bool_decide (latest = EmptyString) || negb (bool_decide (String.le name latest))
    then name else latest) names EmptyString.

(** The largest key, from the first one on. *)
Definition latest_key (keys : list string) (k0 : string) : string :=
  fold_left (λ latest k, if bool_decide (String.le k latest) then latest else k) keys k0.

(** A short copy of the download is not noticed. *)
Definition LoadSnapshot (off : option Offloader) (dir : path) (w : world)
    : res (list byte) * world :=
  match ReadDir dir w with
  | (Err e, w) => (Err e, w)
  | (Ok entries, w) =>
      let latest := latest_name (snap_names entries) in
      if negb (bool_decide (latest = EmptyString)) then Open (Join dir latest) w
      else match off with
      | None => (Err ErrNotExist, w)
      | Some o =>
          match List (Offloader := o) "snapshots" "snapshot." w with
          | (Ok (k0 :: ks), w) =>
              let latestKey := latest_key (k0 :: ks) k0 in
              match Download (Offloader := o) "snapshots" latestKey w with
              | (Ok rc, w) =>
                  let dst := Join dir latestKey in
                  match OpenTrunc dst w with
                  | (Ok _, w) => let '(_, w) := Write dst rc w in Open dst w
                  | (Err _, w) => (Err ErrNotExist, w)
                  end
              | (Err _, w) => (Err ErrNotExist, w)
              end
          | (_, w) => (Err ErrNotExist, w)
          end
      end
  end.
End snapshots.
