(* ===== verification/WalFacts.v ===== *)
(** * The write-ahead log: proofs

    Lemmas on [Wal.v]: what a directory listing contains, the frames of a log
    file, and the effect of appending, rotating and compacting on what a read
    returns. *)

From S2P Require Import Prelude Encoding OS SegmentFacts Wal.

(** ** Directory listings *)

Lemma elem_of_dir_entries p w name d :
  (name, d) ∈ dir_entries p w
  ↔ ∃ n, w_nodes w !! (p.1, name :: p.2) = Some n ∧ d = is_dir n.
Proof.
  unfold dir_entries. rewrite elem_of_sort_by, list_elem_of_omap. split.
  - intros ([[a r] n] & Hin%elem_of_map_to_list & He). unfold entry_in in He. simpl in He.
    destruct r as [|x r]; [done|]. case_decide as Hd; [|done]. simplify_eq. simpl. eauto.
  - intros (n & Hn & ->). exists ((p.1, name :: p.2), n). rewrite elem_of_map_to_list.
    split; [done|]. unfold entry_in. simpl. rewrite decide_True by (by destruct p). done.
Qed.

Lemma dir_entries_nodup p w : NoDup (dir_entries p w).*1.
Proof.
  unfold dir_entries. rewrite sort_by_perm.
  assert (∀ l : list (path * node), NoDup l.*1 → NoDup (omap (entry_in p) l).*1) as H.
  { induction l as [|[[a r] n] l IH]; simpl; [intros _; constructor|].
    intros [Hx Hl]%NoDup_cons. unfold entry_in at 1. simpl.
    destruct r as [|x r]; [auto|]. case_decide as Hd; [|auto]. subst p. simpl.
    constructor; [|auto]. intros ([y d] & Hy & Hin)%list_elem_of_fmap. simpl in Hy. subst y.
    apply list_elem_of_omap in Hin as ([[a' r'] n'] & Hin & He). unfold entry_in in He. simpl in He.
    destruct r' as [|x' r']; [done|]. case_decide as Hd; [|done]. simplify_eq.
    apply Hx. apply list_elem_of_fmap. eexists. split; [|exact Hin]. done. }
  apply H, NoDup_fst_map_to_list.
Qed.

(** ** What the log holds *)

(** The names of the log files, and their scanned contents in order. *)
Definition names_of (dir : path) (w : world) : list string := wal_names (dir_entries dir w).
Definition wal_file (dir : path) (w : world) (name : string) : list byte :=
  default [] (file w (Join dir name)).
Definition wal_data (dir : path) (w : world) : list byte :=
  mjoin ((λ n, scanFile (wal_file dir w n)) <$> names_of dir w).

Lemma elem_of_names_of dir w name :
  name ∈ names_of dir w ↔ is_wal_name name = true ∧ is_Some (file w (dir.1, name :: dir.2)).
Proof.
  unfold names_of, wal_names, sort_strings. rewrite elem_of_sort_by, list_elem_of_omap. split.
  - intros ([x d] & Hin & He). apply elem_of_dir_entries in Hin as (n & Hn & ->). simpl in He.
    destruct n as [|data]; [done|]. simpl in He. destruct (is_wal_name x) eqn:Hx; [|done].
    injection He as <-. split; [done|]. unfold file. rewrite Hn. by eexists.
  - intros [Hx [data Hd]]. unfold file in Hd.
    destruct (w_nodes w !! _) as [[|d]|] eqn:Hn; try done.
    exists (name, false). split; [apply elem_of_dir_entries; by exists (File d)|].
    simpl. by rewrite Hx.
Qed.

Lemma names_of_nodup dir w : NoDup (names_of dir w).
Proof.
  unfold names_of, wal_names, sort_strings. rewrite sort_by_perm.
  pose proof (dir_entries_nodup dir w) as H. induction (dir_entries dir w) as [|[x d] l IH]; simpl.
  { constructor. }
  apply NoDup_cons in H as [Hx Hl]. destruct d; simpl; [auto|].
  destruct (is_wal_name x); simpl; [|auto]. constructor; [|auto].
  intros ([y e] & Hin & He)%list_elem_of_omap. simpl in He.
  destruct e; [done|]. destruct (is_wal_name y); [|done]. injection He as ->.
  apply Hx. apply list_elem_of_fmap. by exists (x, false).
Qed.

(** A sorted list without duplicates that has the right elements is the list. *)
Lemma names_of_unique dir w l :
  NoDup l → StronglySorted String.le l → (∀ x, x ∈ l ↔ x ∈ names_of dir w) → names_of dir w = l.
Proof.
  intros Hnd Hs Hel. symmetry.
  assert (l ≡ₚ names_of dir w) as Hp
    by (apply NoDup_Permutation; [done|apply names_of_nodup|done]).
  unfold names_of, wal_names, sort_strings in *.
  apply (sort_by_unique id String.le).
  - rewrite list_fmap_id, <- (sort_by_perm id String.le). apply names_of_nodup.
  - by rewrite sort_by_perm in Hp.
  - exact Hs.
Qed.

(** ** Frames *)

Definition frame (p : list byte) : list byte := putUint32 (zlen p) ++ p.
Definition frames (ps : list (list byte)) : list byte := mjoin (frame <$> ps).
Definition small (p : list byte) : Prop := zlen p < 2 ^ 32.

Lemma frame_length p : length (frame p) = (4 + length p)%nat.
Proof. unfold frame. by rewrite length_app, putUint32_length. Qed.

Lemma frames_snoc ps p : frames (ps ++ [p]) = frames ps ++ frame p.
Proof. unfold frames. rewrite fmap_app, join_app. simpl. by rewrite app_nil_r. Qed.

(** More fuel changes nothing. *)
Lemma scanFrames_fuel fuel b : (length b ≤ fuel)%nat → scanFrames fuel b = scanFile b.
Proof.
  unfold scanFile. revert b.
  assert (∀ f1 f2 b, (length b ≤ f1)%nat → (length b ≤ f2)%nat → scanFrames f1 b = scanFrames f2 b) as H.
  { induction f1 as [|f1 IH]; intros f2 b H1 H2.
    - destruct f2; [done|]. simpl. by rewrite decide_True by lia.
    - destruct f2 as [|f2]; cbn [scanFrames].
      + by rewrite decide_True by lia.
      + case_decide; [done|]. case_decide as H4; [done|]. f_equal.
        apply IH; rewrite length_drop, length_drop; lia. }
  intros b Hb. by apply H.
Qed.

Lemma scanFile_short b : (length b < 4)%nat → scanFile b = [].
Proof.
  intros H. unfold scanFile. destruct (length b) eqn:Hb; [done|]. cbn [scanFrames].
  by rewrite decide_True by lia.
Qed.

Lemma scanFile_frame p rest : small p → scanFile (frame p ++ rest) = p ++ scanFile rest.
Proof.
  intros Hp. unfold scanFile at 1. rewrite length_app, frame_length.
  replace (4 + length p + length rest)%nat with (S (3 + length p + length rest)) by lia.
  cbn [scanFrames]. rewrite decide_False by (rewrite length_app, frame_length; lia).
  unfold frame. rewrite <- app_assoc.
  rewrite getUint32_putUint32_small by (unfold small in Hp; pose proof (zlen_nonneg p); lia).
  rewrite drop_app_length' by done.
  unfold zlen. rewrite Nat2Z.id. rewrite decide_False by (rewrite length_app; lia).
  rewrite take_app_length, drop_app_length. f_equal. apply scanFrames_fuel. lia.
Qed.

Lemma scanFile_frames ps rest :
  Forall small ps → scanFile (frames ps ++ rest) = mjoin ps ++ scanFile rest.
Proof.
  induction 1 as [|p ps Hp _ IH]; [done|].
  change (frames (p :: ps)) with (frame p ++ frames ps).
  change (mjoin (p :: ps)) with (p ++ mjoin ps).
  by rewrite <- !app_assoc, scanFile_frame, IH by done.
Qed.

Lemma scanFile_all_frames ps : Forall small ps → scanFile (frames ps) = mjoin ps.
Proof.
  intros H. rewrite <- (app_nil_r (frames ps)), scanFile_frames by done. by rewrite app_nil_r.
Qed.

(** A torn frame at the end of a file reads as nothing. *)
Lemma scanFile_torn p k :
  small p → (k < length (frame p))%nat → scanFile (take k (frame p)) = [].
Proof.
  intros Hp Hk. rewrite frame_length in Hk.
  destruct (decide (k < 4)%nat) as [H4|H4].
  { apply scanFile_short. rewrite length_take, frame_length. lia. }
  unfold frame. rewrite take_app_ge by (rewrite putUint32_length; lia).
  rewrite putUint32_length. unfold scanFile.
  rewrite length_app, putUint32_length. cbn [scanFrames Nat.add].
  rewrite decide_False by (rewrite length_app, putUint32_length; lia).
  rewrite getUint32_putUint32_small by (unfold small in Hp; pose proof (zlen_nonneg p); lia).
  rewrite drop_app_length' by done. unfold zlen. rewrite Nat2Z.id.
  by rewrite decide_True by (rewrite length_take; lia).
Qed.

(** ** Splitting off the current file *)

Definition log_name : string := "wal.log".
Definition rotated (dir : path) (w : world) : list string :=
  filter (λ n, n ≠ log_name) (names_of dir w).
(** The log files have proper names, and the current one is the last. *)
Definition well_named (dir : path) (w : world) : Prop :=
  ∀ n, n ∈ names_of dir w → String.le n log_name ∧ plain n = true.

Lemma names_of_sorted dir w : StronglySorted String.le (names_of dir w).
Proof.
  pose proof (sort_by_sorted id String.le) as H. unfold names_of, wal_names, sort_strings.
  set (l := omap _ _). specialize (H l). unfold le_by in H. exact H.
Qed.

Lemma sorted_filter (P : string → Prop) `{∀ x, Decision (P x)} l :
  StronglySorted String.le l → StronglySorted String.le (filter P l).
Proof.
  induction 1 as [|x l Hs IH Hx]; [constructor|]. rewrite filter_cons. case_decide; [|done].
  constructor; [done|]. rewrite Forall_forall in Hx |- *. intros y [_ Hy]%list_elem_of_filter. auto.
Qed.

Lemma elem_of_rotated dir w n : n ∈ rotated dir w ↔ n ≠ log_name ∧ n ∈ names_of dir w.
Proof. unfold rotated. by rewrite list_elem_of_filter. Qed.

Lemma sorted_unique (l k : list string) :
  NoDup l → NoDup k → StronglySorted String.le l → StronglySorted String.le k →
  (∀ x, x ∈ l ↔ x ∈ k) → l = k.
Proof.
  intros H1 H2 H3 H4 H5. apply (StronglySorted_unique String.le); [done|done|].
  by apply NoDup_Permutation.
Qed.

Lemma wal_data_split dir w :
  well_named dir w →
  wal_data dir w
  = mjoin ((λ n, scanFile (wal_file dir w n)) <$> rotated dir w) ++ scanFile (wal_file dir w log_name).
Proof.
  intros HL. unfold wal_data.
  assert (names_of dir w = rotated dir w ++ (if decide (log_name ∈ names_of dir w) then [log_name] else []))
    as Hn.
  { apply sorted_unique.
    - apply names_of_nodup.
    - apply NoDup_app. split_and!; [apply NoDup_filter, names_of_nodup| |].
      + intros x [Hx _]%elem_of_rotated. case_decide; [by rewrite list_elem_of_singleton|apply not_elem_of_nil].
      + case_decide; [apply NoDup_singleton|constructor].
    - apply names_of_sorted.
    - apply StronglySorted_app. split_and!; [|apply sorted_filter, names_of_sorted|].
      + intros x y [_ Hx]%elem_of_rotated Hy. case_decide; [|by apply not_elem_of_nil in Hy].
        apply list_elem_of_singleton in Hy as ->. by apply HL.
      + case_decide; repeat constructor.
    - intros x. rewrite elem_of_app, elem_of_rotated.
      destruct (decide (x = log_name)) as [->|Hx].
      + case_decide as Hd; [rewrite list_elem_of_singleton; naive_solver|].
        split; [done|]. intros [[? ?]|[]%not_elem_of_nil]; done.
      + case_decide; [rewrite list_elem_of_singleton; naive_solver|].
        split; [auto|]. intros [[? ?]|[]%not_elem_of_nil]; done. }
  rewrite Hn at 1. rewrite fmap_app, join_app. f_equal.
  case_decide as Hd; [simpl; by rewrite app_nil_r|]. simpl.
  unfold wal_file. destruct (file w (Join dir log_name)) as [d|] eqn:Hf; [|done].
  destruct Hd. apply elem_of_names_of. split; [done|].
  rewrite Join_plain in Hf by done. by eexists.
Qed.

(** The rotated files do not depend on the current one. *)
Lemma rotated_frame dir w w' :
  (∀ n, n ≠ log_name → is_wal_name n = true →
     (is_Some (file w' (dir.1, n :: dir.2)) ↔ is_Some (file w (dir.1, n :: dir.2)))) →
  rotated dir w' = rotated dir w.
Proof.
  intros H. apply sorted_unique; try (apply NoDup_filter, names_of_nodup);
    try (apply sorted_filter, names_of_sorted).
  intros x. rewrite !elem_of_rotated, !elem_of_names_of. naive_solver.
Qed.

(** ** Appending *)

Section appending.
Context {E : Env}.

Lemma Write_cases p data w r w' :
  Write p data w = (r, w') →
  (∀ q, q ≠ p → w_nodes w' !! q = w_nodes w !! q)
  ∧ match file w p with
    | None => file w' p = None ∧ is_ok r = false
    | Some d => ∃ k, (k ≤ length data)%nat ∧ file w' p = Some (d ++ take k data)
                  ∧ (is_ok r = true → k = length data)
    end.
Proof.
  unfold Write. destruct (file w p) as [d|] eqn:Hf.
  - destruct (env_fault (w_tick w)) as [[|k]|]; intros [= <- <-].
    + split; [done|]. exists 0%nat. rewrite app_nil_r. split_and!; [lia|done|done].
    + split; [intros; unfold set_node; simpl; by rewrite lookup_insert_ne|].
      rewrite file_set_node_eq. destruct (decide (k ≤ length data)%nat).
      * exists k. by split_and!.
      * exists (length data). rewrite firstn_all, take_ge by lia. split_and!; [lia|done|done].
    + split; [intros; unfold set_node; simpl; by rewrite lookup_insert_ne|].
      rewrite file_set_node_eq. exists (length data). by rewrite firstn_all.
  - intros [= <- <-]. by split_and!.
Qed.

Lemma OpenFile_nodes_ne p w r w' q :
  OpenFile p w = (r, w') → q ≠ p → w_nodes w' !! q = w_nodes w !! q.
Proof.
  unfold OpenFile. intros H Hq. repeat case_match; simplify_eq; try done.
  simpl. by rewrite lookup_insert_ne.
Qed.

(** An append adds a prefix of the frame to the current file, all of it when it
    succeeds, and touches nothing else. *)
Lemma AppendWAL_cases dir entries w r w' :
  AppendWAL dir entries w = (r, w') →
  (∀ q, q ≠ walPath dir → w_nodes w' !! q = w_nodes w !! q)
  ∧ (∃ k, (k ≤ length (frame entries))%nat
      ∧ wal_file dir w' log_name = wal_file dir w log_name ++ take k (frame entries)
      ∧ (is_ok r = true → k = length (frame entries))).
Proof.
  unfold AppendWAL. destruct (OpenFile (walPath dir) w) as [r1 w1] eqn:E1.
  pose proof (λ q, OpenFile_nodes_ne _ _ _ _ q E1) as Hn1.
  destruct r1 as [[]|e].
  2:{ intros [= <- <-]. split; [done|]. exists 0%nat. unfold wal_file. fold log_name.
      change (Join dir log_name) with (walPath dir).
      rewrite (OpenFile_err_file _ _ _ _ _ E1), app_nil_r. split_and!; [lia|done|done]. }
  apply OpenFile_file in E1. unfold wal_file. change (Join dir log_name) with (walPath dir).
  set (d := default [] (file w (walPath dir))) in *.
  destruct (Write _ _ w1) as [r2 w2] eqn:E2.
  pose proof (Write_cases _ _ _ _ _ E2) as [Hn2 HW2]. rewrite E1 in HW2.
  destruct HW2 as (k2 & Hk2 & Hf2 & Hok2). rewrite putUint32_length in *.
  destruct r2 as [[]|e].
  2:{ intros [= <- <-]. split; [intros q Hq; by rewrite Hn2, Hn1|]. exists k2.
      rewrite Hf2. cbn [from_option id]. split_and!; [rewrite frame_length; lia| |done].
      f_equal. unfold frame. by rewrite take_app_le by (rewrite putUint32_length; lia). }
  specialize (Hok2 eq_refl). subst k2.
  rewrite take_ge in Hf2 by (rewrite putUint32_length; lia).
  intros E3. pose proof (Write_cases _ _ _ _ _ E3) as [Hn3 HW3]. rewrite Hf2 in HW3.
  destruct HW3 as (k3 & Hk3 & Hf3 & Hok3).
  split; [intros q Hq; by rewrite Hn3, Hn2, Hn1|]. exists (4 + k3)%nat.
  rewrite Hf3. cbn [from_option id]. rewrite frame_length. split_and!; [lia| |].
  - unfold frame. by rewrite <- app_assoc.
  - intros Hr. rewrite Hok3 by done. done.
Qed.

Lemma AppendWAL_data dir entries w r w' ps :
  well_named dir w → small entries → Forall small ps → wal_file dir w log_name = frames ps →
  AppendWAL dir entries w = (r, w') →
  well_named dir w' ∧ rotated dir w' = rotated dir w
  ∧ ((wal_data dir w' = wal_data dir w ++ entries ∧ wal_file dir w' log_name = frames (ps ++ [entries]))
     ∨ (is_ok r = false ∧ wal_data dir w' = wal_data dir w)).
Proof.
  intros HL Hsm Hps Hfr HA. destruct (AppendWAL_cases _ _ _ _ _ HA) as (Hn & k & Hk & Hf & Hok).
  assert (walPath dir = (dir.1, log_name :: dir.2)) as Hp by (by apply Join_plain).
  assert (∀ n, n ≠ log_name → file w' (dir.1, n :: dir.2) = file w (dir.1, n :: dir.2)) as Hff.
  { intros n Hne. unfold file. rewrite Hn; [done|]. rewrite Hp. congruence. }
  assert (rotated dir w' = rotated dir w) as Hrot.
  { apply rotated_frame. intros n Hne _. by rewrite Hff. }
  assert (well_named dir w') as HL'.
  { intros n Hin. destruct (decide (n = log_name)) as [->|Hne]; [by split|]. apply HL.
    apply elem_of_names_of in Hin as [H1 H2]. apply elem_of_names_of. by rewrite <- Hff. }
  split_and!; [done..|]. rewrite !wal_data_split by done. rewrite Hrot.
  assert ((λ n, scanFile (wal_file dir w' n)) <$> rotated dir w
          = (λ n, scanFile (wal_file dir w n)) <$> rotated dir w) as Hsame.
  { apply list_fmap_ext. intros i n Hi%list_elem_of_lookup_2.
    apply elem_of_rotated in Hi as [Hne Hw]. unfold wal_file. f_equal. f_equal.
    rewrite !Join_plain by (by apply HL). by apply Hff. }
  rewrite Hsame, Hf, Hfr. destruct (decide (k = length (frame entries))) as [->|Hk'].
  - left. rewrite firstn_all, frames_snoc. split; [|done].
    rewrite (scanFile_all_frames ps), scanFile_frames by done.
    rewrite <- (app_nil_r (frame entries)), scanFile_frame by done. by rewrite app_nil_r, app_assoc.
  - right. split; [destruct r; [by rewrite Hok in Hk'|done]|]. f_equal.
    rewrite scanFile_frames, scanFile_torn by (done || lia).
    by rewrite (scanFile_all_frames ps), app_nil_r by done.
Qed.
End appending.

(** ** Names of rotated files *)

Definition is_num (b : byte) : bool :=
  match b with
  | x2d | x30 | x31 | x32 | x33 | x34 | x35 | x36 | x37 | x38 | x39 => true
  | _ => false
  end.

Lemma digit_byte_num d : 0 <= d < 10 → is_num (digit_byte d) = true.
Proof.
  intros H. assert (d = 0 ∨ d = 1 ∨ d = 2 ∨ d = 3 ∨ d = 4 ∨ d = 5 ∨ d = 6 ∨ d = 7 ∨ d = 8 ∨ d = 9)
    as Hd by lia.
  destruct Hd as [->|[->|[->|[->|[->|[->|[->|[->|[->| ->]]]]]]]]]; reflexivity.
Qed.

Lemma sprintf_d_num v : int64 v → sprintf_d v ≠ [] ∧ Forall (λ x, is_num x = true) (sprintf_d v).
Proof.
  intros Hv. unfold sprintf_d, int64 in *.
  assert (∀ n, 0 <= n < 10 ^ Z.of_nat 20 →
    Forall (λ x, is_num x = true) (digit_byte <$> dec_digits 20 n)) as H.
  { intros n Hn. apply Forall_fmap. eapply Forall_impl; [by apply dec_digits_range|].
    intros d Hd. by apply digit_byte_num. }
  destruct (v <? 0) eqn:Hz; bool_prop; (split; [|]).
  - done.
  - constructor; [done|apply H; cbn; lia].
  - intros He%fmap_nil_inv. by apply dec_digits_nonempty in He.
  - apply H. cbn. lia.
Qed.

Lemma num_bytes_no_slash l :
  Forall (λ x, is_num x = true) l → has_char slash (String.string_of_list_byte l) = false.
Proof.
  induction 1 as [|x l Hx _ IH]; [done|].
  change (String.string_of_list_byte (x :: l))
    with (String (Ascii.ascii_of_byte x) (String.string_of_list_byte l)).
  cbn [has_char]. rewrite IH, orb_false_r. apply bool_decide_eq_false_2. intros Heq.
  revert Hx. apply (f_equal Ascii.byte_of_ascii) in Heq. rewrite Ascii.byte_of_ascii_of_byte in Heq.
  by subst x.
Qed.

Lemma has_char_append c s t : has_char c (s +:+ t) = has_char c s || has_char c t.
Proof. induction s as [|a s IH]; [done|]. simpl. by rewrite IH, orb_assoc. Qed.

Lemma rotName_ok now :
  plain (rotName now) = true ∧ is_wal_name (rotName now) = true
  ∧ String.le (rotName now) log_name ∧ rotName now ≠ log_name.
Proof.
  destruct (sprintf_d_num (wrap64 now)) as [Hne HF]; [apply wrap64_int64|].
  unfold rotName, nano_string. pose proof (num_bytes_no_slash _ HF) as Hs.
  destruct (sprintf_d (wrap64 now)) as [|x l]; [done|]. apply Forall_cons in HF as [Hx _].
  change (String.string_of_list_byte (x :: l))
    with (String (Ascii.ascii_of_byte x) (String.string_of_list_byte l)) in *.
  set (rest := String.string_of_list_byte l) in *.
  split_and!.
  - unfold plain. rewrite has_char_append, has_char_append, Hs.
    rewrite !bool_decide_eq_false_2 by done. done.
  - unfold is_wal_name, has_prefix. rewrite (bool_decide_eq_true_2 (4 < _)%nat) by (simpl; lia).
    by rewrite orb_true_r.
  - destruct x; try discriminate Hx; exact I.
  - intros Heq. destruct x; try discriminate Hx; discriminate Heq.
Qed.

(** ** Rotating *)

Section rotating.
Context {E : Env}.

Lemma OpenTrunc_cases p w r w' :
  OpenTrunc p w = (r, w') →
  (∀ q, q ≠ p → w_nodes w' !! q = w_nodes w !! q)
  ∧ (if is_ok r then file w' p = Some [] else w_nodes w' !! p = w_nodes w !! p).
Proof.
  unfold OpenTrunc. intros H.
  repeat case_match; simplify_eq; (split; [|by rewrite ?file_set_node_eq]); intros q Hq; try done;
    simpl; by rewrite lookup_insert_ne.
Qed.

(** What a rename inside the directory does. *)
Lemma Rename_cases p q w r w' :
  p ≠ q → Rename p q w = (r, w') →
  (is_ok r = false ∧ w_nodes w' = w_nodes w)
  ∨ (r = Ok tt ∧ file w' q = file w p ∧ is_Some (file w p) ∧ file w' p = None
     ∧ ∀ x, x ≠ p → x ≠ q → w_nodes w' !! x = w_nodes w !! x).
Proof.
  intros Hpq. unfold Rename, file. intros H.
  destruct (env_fault (w_tick w)); [simplify_eq; by left|].
  destruct (w_nodes w !! p) as [[|d]|] eqn:Hp; try (simplify_eq; by left).
  destruct (w_nodes w !! q) as [[|d']|] eqn:Hq; simplify_eq; [by left|right|right]; simpl;
    rewrite lookup_insert_eq, lookup_insert_ne, lookup_delete_eq by done;
    (split_and!; [done|done|by eexists|done|]); intros x H1 H2;
    by rewrite lookup_insert_ne, lookup_delete_ne by done.
Qed.

(** The current file has become the last rotated one. *)
Lemma rotated_move dir w w' n :
  well_named dir w → plain n = true → is_wal_name n = true → String.le n log_name → n ≠ log_name →
  (∀ m, m ∈ rotated dir w → m ≠ n ∧ String.le m n) →
  file w' (dir.1, n :: dir.2) = file w (dir.1, log_name :: dir.2) →
  is_Some (file w (dir.1, log_name :: dir.2)) →
  (∀ m, m ≠ n → m ≠ log_name → file w' (dir.1, m :: dir.2) = file w (dir.1, m :: dir.2)) →
  default [] (file w' (dir.1, log_name :: dir.2)) = [] →
  wal_data dir w' = wal_data dir w ∧ well_named dir w' ∧ rotated dir w' = rotated dir w ++ [n].
Proof.
  intros HW Hpn Hwn Hle Hne Hmax Hn Hlog Hother Hempty.
  assert (rotated dir w' = rotated dir w ++ [n]) as Hrot.
  { apply sorted_unique.
    - apply NoDup_filter, names_of_nodup.
    - apply NoDup_app. split_and!; [apply NoDup_filter, names_of_nodup| |apply NoDup_singleton].
      intros x Hx. rewrite list_elem_of_singleton. by apply Hmax.
    - apply sorted_filter, names_of_sorted.
    - apply StronglySorted_app. split_and!; [|apply sorted_filter, names_of_sorted|repeat constructor].
      intros x y Hx ->%list_elem_of_singleton. by apply Hmax.
    - intros x. rewrite elem_of_app, list_elem_of_singleton, !elem_of_rotated, !elem_of_names_of.
      destruct (decide (x = n)) as [->|Hx]; [rewrite Hn; naive_solver|].
      destruct (decide (x = log_name)) as [->|Hx']; [naive_solver|]. rewrite Hother by done.
      naive_solver. }
  assert (well_named dir w') as HW'.
  { intros m Hm. destruct (decide (m = log_name)) as [->|Hml]; [by split|].
    assert (m ∈ rotated dir w') as Hr by (by apply elem_of_rotated).
    rewrite Hrot, elem_of_app, list_elem_of_singleton in Hr.
    destruct Hr as [Hr| ->]; [|done]. apply elem_of_rotated in Hr as [_ Hr]. by apply HW. }
  split_and!; [|done|done].
  rewrite !wal_data_split by done. rewrite Hrot, fmap_app, join_app. cbn [fmap list_fmap mjoin list_join].
  rewrite app_nil_r. unfold wal_file.
  rewrite !(Join_plain dir log_name) by done. rewrite Hempty. change (scanFile []) with (@nil byte).
  rewrite app_nil_r. rewrite (Join_plain dir n), Hn by done. f_equal. f_equal.
  apply list_fmap_ext. intros i m Hi%list_elem_of_lookup_2. f_equal. f_equal.
  destruct (Hmax m Hi). apply elem_of_rotated in Hi as [Hml Hm].
  rewrite !Join_plain by (by apply HW). by apply Hother.
Qed.

(** Rotation keeps what a read returns, whatever fails. *)
Lemma RotateWAL_data dir w r w' :
  well_named dir w → is_Some (file w (walPath dir)) →
  (∀ m, m ∈ rotated dir w →
     m ≠ rotName (env_clock (S (w_tick w))) ∧ String.le m (rotName (env_clock (S (w_tick w))))) →
  RotateWAL dir w = (r, w') →
  wal_data dir w' = wal_data dir w ∧ well_named dir w'.
Proof.
  intros HW Hlog Hmax. unfold RotateWAL.
  destruct (rotName_ok (env_clock (S (w_tick w)))) as (H1 & H2 & H3 & H4).
  assert (∀ x y : world, w_nodes x = w_nodes y → wal_data dir x = wal_data dir y ∧
    (well_named dir y → well_named dir x)) as Hsame.
  { intros x y Hxy. unfold wal_data, well_named, names_of, wal_file, dir_entries, file.
    rewrite Hxy. done. }
  destruct (Stat (walPath dir) w) as [rs ws] eqn:ES.
  assert (ws = tick w) as -> by (revert ES; unfold Stat; repeat case_match; by intros [= _ <-]).
  unfold time_now. cbn [w_tick tick]. set (n := rotName _) in *.
  assert (walPath dir ≠ Join dir n) as Hpn.
  { unfold walPath. rewrite !Join_plain by done. intros He%(f_equal (λ x : path, head x.2)).
    apply (inj Some) in He. by apply H4. }
  set (w1 := tick (tick w)).
  assert (∀ r w', (match Rename (walPath dir) (Join dir n) w1 with
           | (Err e, w) => (Err e, w)
           | (Ok _, w) => OpenTrunc (walPath dir) w end) = (r, w') →
    wal_data dir w' = wal_data dir w ∧ well_named dir w') as Hmain.
  { clear r w'. intros r w'. destruct (Rename _ _ w1) as [r1 w2] eqn:ER.
    apply Rename_cases in ER as [[Hr1 Hn2]|(-> & Hq & Hp & Hp' & Hx)]; [| |done].
    - destruct r1; [done|]. intros [= _ <-]. destruct (Hsame w2 w Hn2) as [HS1 HS2]. auto.
    - intros HO. apply OpenTrunc_cases in HO as [Ho1 Ho2].
      assert (∀ x, x ≠ walPath dir → file w' x = file w2 x) as Hf2
        by (intros x Hx'; unfold file; by rewrite Ho1).
      unfold walPath in *. rewrite (Join_plain dir "wal.log") in * by done.
      rewrite (Join_plain dir n) in * by done. fold log_name in *.
      destruct (rotated_move dir w w' n) as (HR1 & HR2 & _); try done.
      + rewrite Hf2 by done. by rewrite Hq.
      + intros m Hm1 Hm2. rewrite Hf2 by congruence. unfold file. rewrite Hx by congruence. done.
      + destruct (is_ok r); [by rewrite Ho2|]. unfold file in *. rewrite Ho2. by rewrite Hp'. }
  destruct rs as [[]|e]; [apply Hmain|].
  destruct e; try apply Hmain. intros [= <- <-].
  destruct (Hsame (tick w) w eq_refl) as [HS1 HS2]. auto.
Qed.
End rotating.

(** ** Reading *)

Section reading.
Context {E : Env}.

Lemma readFiles_ok dir names out w o w' :
  readFiles dir names out w = (Ok o, w') →
  o = out ++ mjoin ((λ n, scanFile (wal_file dir w n)) <$> names) ∧ w_nodes w' = w_nodes w.
Proof.
  revert out w. induction names as [|n names IH]; intros out w; cbn [readFiles].
  { intros [= <- <-]. by rewrite app_nil_r. }
  destruct (ReadFile (Join dir n) w) as [[b|] w1] eqn:E1; [|done].
  apply ReadFile_inv in E1 as (-> & Hb & _). intros [-> ->]%IH. split; [|done].
  assert (wal_file dir w n = b) as Hwb by (unfold wal_file; by rewrite (Hb b)).
  cbn [fmap list_fmap mjoin list_join]. by rewrite Hwb, <- app_assoc.
Qed.

Lemma readFiles_reliable `{!Reliable E} dir names out w :
  (∀ n, n ∈ names → is_Some (file w (Join dir n))) → is_ok (readFiles dir names out w).1 = true.
Proof.
  revert out w. induction names as [|n names IH]; intros out w Hn; cbn [readFiles]; [done|].
  unfold ReadFile. rewrite reliable. destruct (Hn n) as [d Hd]; [set_solver|].
  unfold file in Hd. destruct (w_nodes w !! Join dir n) as [[|]|]; try done.
  apply IH. intros m Hm. rewrite file_tick. apply Hn. set_solver.
Qed.

Lemma ReadWAL_ok dir from w out w' :
  ReadWAL dir from w = (Ok out, w') →
  out = drop (Z.to_nat from) (wal_data dir w) ∧ w_nodes w' = w_nodes w.
Proof.
  unfold ReadWAL, ReadDir. destruct (env_fault (w_tick w)); [done|].
  destruct (w_nodes w !! dir) as [[|]|]; [|done..].
  change (wal_names (dir_entries dir w)) with (names_of dir w).
  destruct (names_of dir w) as [|n ns] eqn:Hn.
  { intros [= <- <-]. unfold wal_data. rewrite Hn. split; [|done].
    change (mjoin _) with (@nil byte). by rewrite drop_nil. }
  destruct (readFiles dir (n :: ns) [] (tick w)) as [[o|] w1] eqn:E1; [|done].
  apply readFiles_ok in E1 as [-> Hw]. intros [= <- <-]. split; [|done].
  assert (∀ (o : list byte), (if zlen o <=? from then [] else drop (Z.to_nat from) o)
            = drop (Z.to_nat from) o) as Hd.
  { intros o. destruct (zlen o <=? from) eqn:Hl; bool_prop; [|done].
    rewrite drop_ge; [done|]. unfold zlen in Hl. lia. }
  rewrite Hd. unfold wal_data. by rewrite Hn.
Qed.

Lemma ReadWAL_reliable `{!Reliable E} dir from w :
  w_nodes w !! dir = Some Dir → well_named dir w → is_ok (ReadWAL dir from w).1 = true.
Proof.
  intros Hd HW. unfold ReadWAL, ReadDir. rewrite reliable, Hd.
  change (wal_names (dir_entries dir w)) with (names_of dir w).
  destruct (names_of dir w) as [|n ns] eqn:Hn; [done|].
  pose proof (readFiles_reliable dir (n :: ns) [] (tick w)) as H.
  destruct (readFiles dir (n :: ns) [] (tick w)) as [[o|] w1]; [done|]. apply H.
  intros m Hm. rewrite <- Hn in Hm. rewrite file_tick, Join_plain by (by apply HW).
  by apply elem_of_names_of in Hm as [_ ?].
Qed.
End reading.

(** ** Entries *)

Class EntryCodecLaws `{P : EntryCodec} : Prop :=
  proto_roundtrip : ∀ e b, proto_marshal e = Some b → proto_unmarshal b = Some e.

Section codec.
Context {P : EntryCodec} {PL : EntryCodecLaws}.

(** Every entry fits a frame. *)
Definition small_entry (e : Entry) : Prop :=
  ∀ b, proto_marshal e = Some b → small b.

Lemma unmarshalLoop_marshal ents b fuel acc :
  marshalEntries ents = Some b → Forall small_entry ents → (length b ≤ fuel)%nat →
  unmarshalLoop fuel b acc = Ok (acc ++ ents).
Proof.
  revert b fuel acc. induction ents as [|e ents IH]; intros b fuel acc HM HF Hl.
  { injection HM as <-. rewrite app_nil_r. by destruct fuel. }
  cbn [marshalEntries] in HM. destruct (proto_marshal e) as [be|] eqn:He; [|done].
  cbn [mbind option_bind] in HM. destruct (marshalEntries ents) as [out|] eqn:Ho; [|done].
  apply (inj Some) in HM. subst b.
  inversion HF as [|? ? Hse HF']; subst. specialize (Hse _ He). unfold small in Hse.
  rewrite length_app, length_app, putUint32_length in Hl.
  destruct fuel as [|fuel]; [lia|]. cbn [unmarshalLoop].
  rewrite decide_False by done. rewrite decide_False by (rewrite length_app, putUint32_length; lia).
  rewrite getUint32_putUint32_small by (pose proof (zlen_nonneg be); lia).
  rewrite drop_app_length' by done. unfold zlen. rewrite Nat2Z.id.
  rewrite decide_False by (rewrite length_app; lia).
  rewrite take_app_length, drop_app_length, (proto_roundtrip _ _ He).
  rewrite (IH out) by (done || lia). by rewrite <- app_assoc.
Qed.

Lemma unmarshal_marshal ents b :
  marshalEntries ents = Some b → Forall small_entry ents → unmarshalEntries b = Ok ents.
Proof. intros HM HF. unfold unmarshalEntries. by rewrite (unmarshalLoop_marshal ents). Qed.

Lemma marshal_app a b ba bb :
  marshalEntries a = Some ba → marshalEntries b = Some bb → marshalEntries (a ++ b) = Some (ba ++ bb).
Proof.
  revert ba. induction a as [|e a IH]; intros ba Ha Hb; [by injection Ha as <-|].
  cbn [marshalEntries app] in *. destruct (proto_marshal e) as [be|]; [|done]. simpl in *.
  destruct (marshalEntries a) as [oa|]; [|done]. injection Ha as <-. simpl.
  by rewrite (IH oa), <- !app_assoc by done.
Qed.

Lemma marshal_filter (Q : Entry → Prop) `{∀ e, Decision (Q e)} ents b :
  marshalEntries ents = Some b → is_Some (marshalEntries (filter Q ents)).
Proof.
  revert b. induction ents as [|e ents IH]; intros b HM; [done|].
  cbn [marshalEntries] in HM. destruct (proto_marshal e) as [be|] eqn:He; [|done].
  simpl in HM. destruct (marshalEntries ents) as [o|]; [|done].
  destruct (IH o) as [x Hx]; [done|]. rewrite filter_cons. case_decide; [|by eexists].
  cbn [marshalEntries]. rewrite He. simpl. rewrite Hx. by eexists.
Qed.

Lemma marshal_drop n ents b :
  marshalEntries ents = Some b → is_Some (marshalEntries (drop n ents)).
Proof.
  revert n b. induction ents as [|e ents IH]; intros n b HM; [by rewrite drop_nil|].
  destruct n as [|n]; [by eexists|]. cbn [marshalEntries] in HM.
  destruct (proto_marshal e) as [be|]; [|done]. simpl in HM.
  destruct (marshalEntries ents) as [o|] eqn:Ho; [|done]. by apply (IH n o).
Qed.

Lemma keepEntries_marshal idx ents b :
  marshalEntries ents = Some b → is_Some (marshalEntries (keepEntries idx ents)).
Proof.
  intros H. unfold keepEntries. destruct (existsb _ ents); [by eapply marshal_filter|by eapply marshal_drop].
Qed.

Lemma keepEntries_small idx ents : Forall small_entry ents → Forall small_entry (keepEntries idx ents).
Proof.
  intros H. unfold keepEntries. destruct (existsb _ ents).
  - rewrite Forall_forall in H |- *. intros e [_ He]%list_elem_of_filter. auto.
  - by apply Forall_drop.
Qed.
End codec.

(** ** What an operation touches *)

(** In [dir], only children with a name in [S] differ. *)
Record only (dir : path) (S : string → Prop) (w w' : world) : Prop := {
  only_dir : w_nodes w' !! dir = w_nodes w !! dir;
  only_child n : ¬ S n → w_nodes w' !! (dir.1, n :: dir.2) = w_nodes w !! (dir.1, n :: dir.2) }.

Lemma only_trans dir S w1 w2 w3 : only dir S w1 w2 → only dir S w2 w3 → only dir S w1 w3.
Proof. intros [H1 H2] [H3 H4]. split; [congruence|]. intros n Hn. by rewrite H4, H2. Qed.
Lemma only_mono dir (S S' : string → Prop) w w' :
  (∀ n, S n → S' n) → only dir S w w' → only dir S' w w'.
Proof. intros HS [H1 H2]. split; [done|]. intros n Hn. apply H2. auto. Qed.
Lemma only_nodes dir S w w' : w_nodes w' = w_nodes w → only dir S w w'.
Proof. intros Hn. split; intros; by rewrite Hn. Qed.
Lemma child_ne (dir : path) n : dir ≠ (dir.1, n :: dir.2).
Proof. intros He. apply (f_equal (λ x : path, length x.2)) in He. simpl in He. lia. Qed.
(** An operation that leaves all but one child alone. *)
Lemma only_one dir m w w' :
  (∀ q, q ≠ (dir.1, m :: dir.2) → w_nodes w' !! q = w_nodes w !! q) → only dir (eq m) w w'.
Proof. intros H. split; [apply H, child_ne|]. intros n Hn. apply H. congruence. Qed.

(** ** Compacting *)

Section compacting.
Context {E : Env} {HRel : Reliable E}.

Lemma Remove_reliable p w :
  let w' := (Remove p w).2 in
  (∀ q, q ≠ p → w_nodes w' !! q = w_nodes w !! q) ∧ file w' p = None.
Proof.
  unfold Remove, file. rewrite reliable. destruct (w_nodes w !! p) as [[|d]|] eqn:Hp; simpl.
  - by rewrite Hp.
  - split; [intros q Hq; by rewrite lookup_delete_ne|]. by rewrite lookup_delete_eq.
  - by rewrite Hp.
Qed.

(** After removing files of the directory, the others are as before. *)
Lemma removeAll_other dir names w q :
  (∀ n, n ∈ names → q ≠ Join dir n) → w_nodes (removeAll dir names w) !! q = w_nodes w !! q.
Proof.
  revert w. induction names as [|n names IH]; intros w Hq; cbn [removeAll]; [done|].
  rewrite IH by (intros; apply Hq; set_solver). apply Remove_reliable. apply Hq. set_solver.
Qed.

Lemma removeAll_gone dir names w n :
  n ∈ names → file (removeAll dir names w) (Join dir n) = None.
Proof.
  revert w. induction names as [|m names IH]; intros w Hn; [by apply not_elem_of_nil in Hn|].
  cbn [removeAll]. destruct (decide (n ∈ names)) as [Hin|Hin]; [by apply IH|].
  apply elem_of_cons in Hn as [->|]; [|done].
  assert (∀ names w, file w (Join dir m) = None → file (removeAll dir names w) (Join dir m) = None) as H.
  { clear -HRel. induction names as [|x names IH]; intros w Hw; cbn [removeAll]; [done|]. apply IH.
    destruct (Remove_reliable (Join dir x) w) as [H1 H2].
    destruct (decide (Join dir m = Join dir x)) as [He|He]; [by rewrite He|].
    unfold file. rewrite H1 by done. exact Hw. }
  apply H, Remove_reliable.
Qed.

Lemma wal_prefix_name n :
  has_prefix "wal." n = true → n ≠ log_name → is_wal_name n = true ∨ n = "wal."%string.
Proof.
  intros Hp Hne. unfold is_wal_name. rewrite Hp, andb_true_r.
  destruct (decide (4 < String.length n)%nat) as [Hl|Hl].
  - left. rewrite (bool_decide_eq_true_2 (4 < _)%nat) by done. apply orb_true_r.
  - right. unfold has_prefix in Hp. revert Hp Hl.
    destruct n as [|a1 [|a2 [|a3 [|a4 [|]]]]]; simpl; try done; try lia.
    all: repeat (case_match; simpl; try done); intros; by subst.
Qed.

(** The truncated and rewritten current file. *)
Lemma OpenTrunc_reliable p w :
  w_nodes w !! p ≠ Some Dir → is_Some (w_nodes w !! p) ∨ parent_ok w p = true →
  OpenTrunc p w = (Ok tt, set_node p (File []) (tick w)).
Proof.
  intros Hd Hp. unfold OpenTrunc. rewrite reliable.
  destruct (w_nodes w !! p) as [[|]|]; [done|done|]. by destruct Hp as [[]| ->].
Qed.

Lemma Write_reliable p data d w :
  file w p = Some d → Write p data w = (Ok tt, set_node p (File (d ++ data)) (tick w)).
Proof. intros Hf. unfold Write. by rewrite Hf, reliable. Qed.

(** Only the current file is left once the others are removed. *)
Lemma only_log_left dir w b :
  small b → file w (dir.1, log_name :: dir.2) = Some (frame b) →
  (∀ n, n ≠ log_name → is_wal_name n = true → file w (dir.1, n :: dir.2) = None) →
  wal_data dir w = b ∧ well_named dir w ∧ rotated dir w = [].
Proof.
  intros Hb Hf Hnone.
  assert (names_of dir w = [log_name]) as Hn.
  { apply names_of_unique; [apply NoDup_singleton|repeat constructor|].
    intros x. rewrite list_elem_of_singleton, elem_of_names_of. split.
    - intros ->. split; [done|]. by eexists.
    - intros [H1 [d H2]]. destruct (decide (x = log_name)); [done|]. by rewrite Hnone in H2. }
  split_and!.
  - unfold wal_data. rewrite Hn. cbn [fmap list_fmap mjoin list_join]. rewrite app_nil_r.
    unfold wal_file. rewrite Join_plain, Hf by done. cbn [from_option id].
    rewrite <- (app_nil_r (frame b)), scanFile_frame by done. by rewrite app_nil_r.
  - intros n. rewrite Hn, list_elem_of_singleton. by intros ->.
  - unfold rotated. rewrite Hn. by rewrite filter_cons_False by naive_solver.
Qed.

Context {P : EntryCodec}.

Lemma walPath_eq dir : walPath dir = (dir.1, log_name :: dir.2).
Proof. by apply Join_plain. Qed.

(** The current file truncated and written with one frame. *)
Lemma rewrite_log dir b w :
  w_nodes w !! dir = Some Dir → dir.2 ≠ [] → w_nodes w !! walPath dir ≠ Some Dir →
  ∃ w1 w2 w3, OpenTrunc (walPath dir) w = (Ok tt, w1) ∧
    Write (walPath dir) (putUint32 (zlen b)) w1 = (Ok tt, w2) ∧ Write (walPath dir) b w2 = (Ok tt, w3) ∧
    file w3 (walPath dir) = Some (frame b) ∧ only dir (eq log_name) w w3.
Proof.
  intros Hdir Hne Hlog. eexists _, _, _. split; [apply OpenTrunc_reliable; [done|]|].
  - right. rewrite walPath_eq. unfold parent_ok. simpl. destruct (dir.2) as [|x r] eqn:Hd2; [done|].
    by rewrite <- Hd2, <- surjective_pairing, Hdir.
  - split; [apply (Write_reliable _ _ []), file_set_node_eq|]. cbn [app].
    split; [apply (Write_reliable _ _ (putUint32 (zlen b))), file_set_node_eq|].
    split; [apply file_set_node_eq|]. apply only_one. intros q Hq. rewrite <- walPath_eq in Hq.
    simpl. by rewrite !lookup_insert_ne.
Qed.

Lemma elem_of_old_logs dir w n :
  n ∈ old_logs (dir_entries dir w)
  ↔ n ≠ log_name ∧ has_prefix "wal." n = true ∧ is_Some (file w (dir.1, n :: dir.2)).
Proof.
  unfold old_logs. rewrite list_elem_of_omap. split.
  - intros ([x d] & Hin%elem_of_dir_entries & He). destruct Hin as (nd & Hnd & ->). simpl in He.
    destruct nd as [|dt]; [done|]. simpl in He.
    destruct (negb _ && _) eqn:Hc; [|done]. injection He as ->. bool_prop.
    split_and!; [|done|unfold file; rewrite Hnd; by eexists].
    intros ->. by rewrite bool_decide_eq_true_2 in *.
  - intros (H1 & H2 & [d Hd]). unfold file in Hd.
    destruct (w_nodes w !! _) as [[|dt]|] eqn:Hnd; try done.
    exists (n, false). split; [apply elem_of_dir_entries; by eexists|]. simpl.
    by rewrite bool_decide_eq_false_2, H2.
Qed.

(** The names a compaction touches. *)
Definition log_child (n : string) : Prop := has_prefix "wal." n = true ∧ plain n = true.

Lemma remove_old_logs dir w b :
  well_named dir w → small b → file w (dir.1, log_name :: dir.2) = Some (frame b) →
  let w' := removeAll dir (old_logs (dir_entries dir w)) (tick w) in
  wal_data dir w' = b ∧ well_named dir w' ∧ rotated dir w' = [] ∧ wal_file dir w' log_name = frame b
  ∧ only dir log_child w w'.
Proof.
  intros HW Hb Hf. set (rm := old_logs _). cbv zeta.
  assert (∀ n, n ∈ rm → n ≠ log_name ∧ log_child n) as Hrm.
  { intros n (H1 & H2 & H3)%elem_of_old_logs. split; [done|]. split; [done|].
    destruct (wal_prefix_name n H2 H1) as [Hw| ->]; [|done]. by apply HW, elem_of_names_of. }
  assert (∀ m, m ∉ rm → w_nodes (removeAll dir rm (tick w)) !! (dir.1, m :: dir.2)
                          = w_nodes w !! (dir.1, m :: dir.2)) as Hother.
  { intros m Hm. rewrite removeAll_other; [done|]. intros n Hn He.
    rewrite Join_plain in He by apply Hrm, Hn. injection He as ->. done. }
  assert (file (removeAll dir rm (tick w)) (dir.1, log_name :: dir.2) = Some (frame b)) as Hlog.
  { unfold file. rewrite Hother; [exact Hf|]. by intros [? _]%Hrm. }
  destruct (only_log_left dir (removeAll dir rm (tick w)) b) as (H1 & H2 & H3); [done|done| |].
  - intros n Hn Hwn. destruct (decide (n ∈ rm)) as [Hin|Hin].
    + rewrite <- Join_plain by apply Hrm, Hin. by apply removeAll_gone.
    + unfold file. rewrite Hother by done. destruct (file w (dir.1, n :: dir.2)) eqn:Hd; [|exact Hd].
      destruct Hin. apply elem_of_old_logs. split_and!; [done| |by eexists].
      unfold is_wal_name in Hwn. rewrite bool_decide_eq_false_2 in Hwn by done. simpl in Hwn. by bool_prop.
  - split_and!; try done.
    + unfold wal_file. by rewrite Join_plain, Hlog by done.
    + split; [rewrite removeAll_other; [done|]; intros n Hn; rewrite Join_plain by apply Hrm, Hn; apply child_ne|].
      intros n Hn. apply Hother. by intros [_ ?]%Hrm.
Qed.

Lemma well_named_log dir w w' :
  only dir (eq log_name) w w' → well_named dir w → well_named dir w'.
Proof.
  intros Ho HW n [Hn Hf]%elem_of_names_of. destruct (decide (n = log_name)) as [->|Hne]; [by split|].
  apply HW, elem_of_names_of. split; [done|]. unfold file in *.
  by rewrite (only_child _ _ _ _ Ho) in Hf by congruence.
Qed.

Lemma Compact_data dir idx w ents b :
  w_nodes w !! dir = Some Dir → dir.2 ≠ [] → w_nodes w !! walPath dir ≠ Some Dir → well_named dir w →
  unmarshalEntries (wal_data dir w) = Ok ents →
  marshalEntries (keepEntries idx ents) = Some b → small b →
  ∃ w', Compact dir idx w = (Ok tt, w') ∧ wal_data dir w' = b ∧ well_named dir w'
        ∧ rotated dir w' = [] ∧ wal_file dir w' log_name = frame b ∧ only dir log_child w w'.
Proof.
  intros Hdir Hne Hlog HW HU HM Hb. unfold Compact.
  pose proof (ReadWAL_reliable dir 0 w Hdir HW) as HR.
  destruct (ReadWAL dir 0 w) as [[data|] w1] eqn:E1; [|done]. clear HR.
  apply ReadWAL_ok in E1 as [-> Hn1]. rewrite drop_0, HU, HM.
  destruct (rewrite_log dir b w1) as (w2 & w3 & w4 & -> & -> & -> & Hf4 & Ho4); [by rewrite Hn1|done|by rewrite Hn1|].
  assert (only dir (eq log_name) w w4) as Ho by (eapply only_trans; [by apply only_nodes|exact Ho4]).
  unfold ReadDir. rewrite reliable, (only_dir _ _ _ _ Ho), Hdir.
  rewrite walPath_eq in Hf4. eexists. split; [done|].
  destruct (remove_old_logs dir w4 b) as (H1 & H2 & H3 & H4 & H5); [by eapply well_named_log|done|done|].
  split_and!; [done..|]. eapply only_trans; [|exact H5]. eapply only_mono; [|exact Ho].
  intros n <-. by split.
Qed.
End compacting.

(** ** Appending without faults *)

(** A log in good shape: the directory is there, the files are well named and
    the current one holds the frames [ps]. *)
Record wal_shape (dir : path) (ps : list (list byte)) (w : world) : Prop := {
  ws_dir : w_nodes w !! dir = Some Dir;
  ws_parent : dir.2 ≠ [];
  ws_log : w_nodes w !! walPath dir ≠ Some Dir;
  ws_named : well_named dir w;
  ws_framed : wal_file dir w log_name = frames ps;
  ws_small : Forall small ps }.

Lemma wal_shape_nodes dir ps w w' :
  w_nodes w' = w_nodes w → wal_shape dir ps w → wal_shape dir ps w' ∧ wal_data dir w' = wal_data dir w.
Proof.
  intros Hn [H1 H2 H3 H4 H5 H6].
  assert (wal_data dir w' = wal_data dir w ∧ (well_named dir w → well_named dir w')
    ∧ wal_file dir w' log_name = wal_file dir w log_name) as (HD & HW & HF).
  { unfold wal_data, well_named, names_of, wal_file, dir_entries, file. by rewrite Hn. }
  split; [|done]. split; rewrite ?Hn, ?HF; auto.
Qed.

Section append_reliable.
Context {E : Env} {HRel : Reliable E}.

Lemma walPath_parent dir ps w : wal_shape dir ps w → parent_ok w (walPath dir) = true.
Proof.
  intros [Hd Hne _ _ _ _]. unfold walPath. rewrite Join_plain by done. unfold parent_ok. simpl.
  destruct (dir.2) as [|y r] eqn:Hd2; [done|]. by rewrite <- Hd2, <- surjective_pairing, Hd.
Qed.

Lemma AppendWAL_succeeds dir x ps w : wal_shape dir ps w → is_ok (AppendWAL dir x w).1 = true.
Proof.
  intros HS. unfold AppendWAL, OpenFile. rewrite reliable.
  assert (∀ d w2, file w2 (walPath dir) = Some d →
    is_ok (match Write (walPath dir) (putUint32 (zlen x)) w2 with
           | (Err e, w) => (Err e, w) | (Ok _, w) => Write (walPath dir) x w end).1 = true) as HWr.
  { intros d w2 H2. rewrite (Write_reliable _ _ _ _ H2).
    by rewrite (Write_reliable _ _ (d ++ putUint32 (zlen x))) by apply file_set_node_eq. }
  pose proof (ws_log _ _ _ HS) as Hl.
  destruct (w_nodes w !! walPath dir) as [[|d]|] eqn:Hn; [done| |].
  - apply (HWr d). unfold file. simpl. by rewrite Hn.
  - rewrite (walPath_parent _ _ _ HS). apply (HWr []). apply file_set_node_eq.
Qed.

Lemma AppendWAL_reliable dir x ps w :
  wal_shape dir ps w → small x →
  ∃ w', AppendWAL dir x w = (Ok tt, w') ∧ wal_shape dir (ps ++ [x]) w'
    ∧ wal_data dir w' = wal_data dir w ++ x.
Proof.
  intros HS Hx. pose proof (AppendWAL_succeeds dir x ps w HS) as Hok.
  destruct HS as [Hd Hne Hl HW Hf Hps].
  destruct (AppendWAL dir x w) as [r w1] eqn:HA.
  destruct (AppendWAL_cases _ _ _ _ _ HA) as (Hother & _).
  destruct (AppendWAL_data _ _ _ _ _ _ HW Hx Hps Hf HA) as (HW1 & _ & [[HD1 Hf1]|[Hr _]]).
  2:{ simpl in Hok. congruence. }
  destruct r as [[]|]; [|done]. exists w1. split_and!; try done. split; try done.
  - rewrite Hother; [done|]. intros He. apply (f_equal (λ x : path, length x.2)) in He.
    unfold walPath in He. rewrite Join_plain in He by done. simpl in He. lia.
  - intros He. assert (wal_file dir w1 log_name = []) as H0.
    { unfold wal_file, file. change (Join dir log_name) with (walPath dir). by rewrite He. }
    rewrite Hf1, frames_snoc in H0. apply app_eq_nil in H0 as [_ H0].
    apply (f_equal length) in H0. rewrite frame_length in H0. simpl in H0. lia.
  - apply Forall_app. split; [done|]. constructor; [done|constructor].
Qed.
End append_reliable.
