(* ===== verification/Raft.v ===== *)
(** * The raft node around the library
    ([src/broker/internal/raft/node.go], [persistent_mem.go],
    [persistent_storage.go], [storage.go], [isr.go], [transport.go],
    [transport_inproc.go])

    What the node does with its storage and transport: recovery at start, the
    handling of a ready batch, compaction, the storage adapter that serves
    entries to the library, the in-sync replica set and the in-process
    transport.  The raft library itself is a parameter: its memory storage is
    an abstract type with an [Append]. *)

From S2P Require Import Prelude Encoding OS Segment Samples SegmentFacts Wal WalFacts.

(** ** Persistent memory *)

(** [raftpb.Snapshot]: the index and term of its metadata, and the data. *)
Record Snapshot := MkSnapshot { SnapIndex : Z; SnapTerm : Z; SnapData : list byte }.
(** [raft.IsEmptySnap] *)
Definition IsEmptySnap (s : Snapshot) : bool := SnapIndex s =? 0.

(** The library's [MemoryStorage]. *)
Class MemoryStorage := {
  Mem : Type;
  NewMemoryStorage : Mem;
  MemAppend : list Entry → Mem → res unit * Mem;
  MemApplySnapshot : Snapshot → Mem → Mem }.

Section node.
Context {E : Env} {P : EntryCodec} {M : MemoryStorage}.

(** [persistentMemory.Append]: the log first, then the memory. *)
Definition persistentAppend (dir : path) (ents : list Entry) (m : Mem) (w : world)
    : res unit * Mem * world :=
  match ents with
  | [] => (Ok tt, m, w)
  | _ =>
      match marshalEntries ents with
      | None => (Err ErrInvalid, m, w)
      | Some b =>
          match AppendWAL dir b w with
          | (Err e, w) => (Err e, m, w)
          | (Ok _, w) => let '(r, m) := MemAppend ents m in (r, m, w)
          end
      end
  end.

(** ** Starting a node *)

(** [appendable]: the plain memory, or the memory that also writes the log. *)
Record NodeState := MkNode { n_mem : Mem; n_persistent : bool }.

(** The recovery at the head of [Start]; all errors are ignored.  [store] is the
    directory of a [walStorage], or nil. *)
Definition recover (off : option Offloader) (store : option path) (w : world) : NodeState * world :=
  let mem := NewMemoryStorage in
  match store with
  | None => (MkNode mem false, w)
  | Some dir =>
      let '(rs, w) := LoadSnapshot off dir w in
      let mem := match rs with
                 | Ok snapBytes =>
                     match snapBytes with [] => mem | _ => MemApplySnapshot (MkSnapshot 0 0 snapBytes) mem end
                 | Err _ => mem
                 end in
      match ReadWAL dir 0 w with
      | (Err _, w) => (MkNode mem false, w)
      | (Ok data, w) =>
          match data with
          | [] => (MkNode mem false, w)
          | _ =>
              match unmarshalEntries data with
              | Err _ | Ok [] => (MkNode mem false, w)
              | Ok ents =>
                  let '(_, mem, w) := persistentAppend dir ents mem w in (MkNode mem true, w)
              end
          end
      end
  end.

(** ** One ready batch *)

(** [n.Compact(index)] on a [walStorage]. *)
Definition NodeCompact (dir : path) (index : Z) (w : world) : res unit * world :=
  match Compact dir index w with
  | (Err e, w) => (Err e, w)
  | (Ok _, w) =>
      match RotateWAL dir w with
      | (Err e, w) => (Err e, w)
      | (Ok _, w) => PurgeOldSnapshots dir 2 w
      end
  end.

Definition snapshotThreshold : Z := 50.

(** The head of the loop body: the snapshot and the entries; the memory of a node
    that recovered entries writes the log a second time.  That memory is only
    there with a store. *)
Definition applyReady (store : option path) (snapshot : Snapshot) (ents : list Entry)
    (n : NodeState) (w : world) : NodeState * world :=
  let mem := if IsEmptySnap snapshot then n_mem n else MemApplySnapshot snapshot (n_mem n) in
  match ents with
  | [] => (MkNode mem (n_persistent n), w)
  | _ =>
      let w := match store, marshalEntries ents with
               | Some dir, Some b => (AppendWAL dir b w).2
               | _, _ => w
               end in
      match store, n_persistent n with
      | Some dir, true =>
          let '(_, mem, w) := persistentAppend dir ents mem w in (MkNode mem true, w)
      | _, _ => (MkNode (MemAppend ents mem).2 (n_persistent n), w)
      end
  end.

(** [json.NewEncoder(&buf).Encode(snap)]: the keys in order, and a newline. *)
Definition json_key (k : string) : list byte := [x22] ++ String.list_byte_of_string k ++ [x22; x3a].
Definition snapJSON (id timestamp : Z) : list byte :=
  [x7b] ++ json_key "node_id" ++ sprintf_d id ++ [x2c] ++ json_key "timestamp" ++ sprintf_d timestamp ++ [x7d; x0a].

(** The tail of the loop body: a snapshot and a compaction after a large batch. *)
Definition checkpoint (off : option Offloader) (store : option path) (id : Z) (ents : list Entry)
    (w : world) : world :=
  match store with
  | None => w
  | Some dir =>
      if snapshotThreshold <=? zlen ents then
        let '(now, w) := time_now w in
        match SaveSnapshot off dir (snapJSON id (wrap64 now)) w with
        | (Ok _, w) => (NodeCompact dir 0 w).2
        | (Err _, w) => w
        end
      else w
  end.
End node.

(** ** The storage adapter *)

Section adapter.
Context {E : Env} {P : EntryCodec}.

(** [NewEtcdStorageAdapter]: the entries of the log, none when it is unreadable. *)
Definition NewEtcdStorageAdapter (dir : path) (w : world) : list Entry * world :=
  match ReadWAL dir 0 w with
  | (Ok ((_ :: _) as data), w) =>
      match unmarshalEntries data with Ok ents => (ents, w) | Err _ => ([], w) end
  | (_, w) => ([], w)
  end.

(** The loop of [Entries]; [maxSize] counts entries, 0 is no limit. *)
Fixpoint entriesLoop (lo hi maxSize : Z) (ents out : list Entry) : list Entry :=
  match ents with
  | [] => out
  | e :: ents =>
      if (lo <=? Index e) && (Index e <? hi) then
        let out := out ++ [e] in
        if (0 <? maxSize) && (maxSize <=? zlen out) then out
        else entriesLoop lo hi maxSize ents out
      else entriesLoop lo hi maxSize ents out
  end.

Definition Entries (lo hi maxSize : Z) (ents : list Entry) : res (list Entry) :=
  match entriesLoop lo hi maxSize ents [] with
  | [] => Err ErrUnavailable
  | out => Ok out
  end.

Definition TermOf (i : Z) (ents : list Entry) : res Z :=
  if i =? 0 then Ok 0
  else match list_find (λ e, Index e = i) ents with
       | Some (_, e) => Ok (Term e)
       | None => Err ErrUnavailable
       end.

Definition LastIndex (ents : list Entry) : Z :=
  match last ents with None => 0 | Some e => Index e end.
Definition FirstIndex (ents : list Entry) : Z :=
  match ents with [] => 1 | e :: _ => Index e end.
End adapter.

(** ** In-sync replicas *)

Record ISRManager := MkISR { isr_members : gset Z; minISR : Z; leaderID : Z }.

Definition NewISRManager (min : Z) : ISRManager := MkISR ∅ (if min <=? 0 then 1 else min) 0.
Definition SetLeader (id : Z) (m : ISRManager) : ISRManager :=
  MkISR ({[id]} ∪ isr_members m) (minISR m) id.
Definition MarkInSync (id : Z) (m : ISRManager) : ISRManager :=
  MkISR ({[id]} ∪ isr_members m) (minISR m) (leaderID m).
Definition MarkOutOfSync (id : Z) (m : ISRManager) : ISRManager :=
  MkISR (isr_members m ∖ {[id]}) (minISR m) (leaderID m).
Definition CanAcceptWrites (m : ISRManager) : bool := minISR m <=? Z.of_nat (size (isr_members m)).
Definition Members (m : ISRManager) : list Z := elements (isr_members m).

(** ** The in-process transport *)

(** Where the goroutine that receives on a channel is: elsewhere, blocked on the
    empty channel, or handed a message it has not taken up yet. *)
Inductive receiver := Away | Waiting | Handed (m : list byte).

(** A channel: its queue, whether it is closed, and its receiver. *)
Record chan := MkChan { queue : list (list byte); c_closed : bool; c_recv : receiver }.

(** Channels are shared: the map of peers has their identities. *)
Record InProcTransport := MkInProc {
  ip_peers : gmap string nat;
  ip_chans : list chan;
  ip_buf : nat;
  ip_closed : bool }.

Definition NewInProcTransport (buf : nat) : InProcTransport := MkInProc ∅ [] buf false.

Definition set_chan (i : nat) (c : chan) (t : InProcTransport) : InProcTransport :=
  MkInProc (ip_peers t) (<[i := c]> (ip_chans t)) (ip_buf t) (ip_closed t).

Definition Register (addr : string) (t : InProcTransport) : res nat * InProcTransport :=
  if ip_closed t then (Err (ErrMsg "transport closed"), t)
  else match ip_peers t !! addr with
  | Some _ => (Err (ErrMsg "address already registered"), t)
  | None =>
      let i := length (ip_chans t) in
      (Ok i, MkInProc (<[addr := i]> (ip_peers t)) (ip_chans t ++ [MkChan [] false Away])
               (ip_buf t) (ip_closed t))
  end.

(** [close(ch)] *)
Definition close_chan (i : nat) (cs : list chan) : list chan :=
  alter (λ c, MkChan (queue c) true (c_recv c)) i cs.

Definition Unregister (addr : string) (t : InProcTransport) : InProcTransport :=
  match ip_peers t !! addr with
  | Some i => MkInProc (delete addr (ip_peers t)) (close_chan i (ip_chans t)) (ip_buf t) (ip_closed t)
  | None => t
  end.

(** The two halves of [Send]: the lookup under the lock, and the [select] on the
    channel after it.  A send on a closed channel panics ([None]); a receiver that
    is blocked takes the message, with or without a buffer; otherwise it is
    queued if there is room, and refused if not. *)
Definition SendLookup (to : string) (t : InProcTransport) : option nat := ip_peers t !! to.
Definition SendChan (to : string) (i : nat) (payload : list byte) (t : InProcTransport)
    : option (res unit * InProcTransport) :=
  match ip_chans t !! i with
  | None => None
  | Some c =>
      if c_closed c then None
      else match c_recv c with
      | Waiting => Some (Ok tt, set_chan i (MkChan (queue c) false (Handed payload)) t)
      | _ =>
          if decide (length (queue c) < ip_buf t)%nat
          then Some (Ok tt, set_chan i (MkChan (queue c ++ [payload]) false (c_recv c)) t)
          else Some (Err (ErrPeerFull to), t)
      end
  end.
Definition Send (to : string) (payload : list byte) (t : InProcTransport)
    : option (res unit * InProcTransport) :=
  match SendLookup to t with
  | None => Some (Err (ErrPeerNotFound to), t)
  | Some i => SendChan to i payload t
  end.

(** A move of the goroutine that receives on the channel, [for b := range ch]:
    it takes the message it was handed or the next one of the queue, or blocks;
    a closed channel wakes it up without a message once the queue is empty. *)
Definition Receive (i : nat) (t : InProcTransport) : option (list byte) * InProcTransport :=
  match ip_chans t !! i with
  | None => (None, t)
  | Some c =>
      match c_recv c, queue c with
      | Handed m, _ => (Some m, set_chan i (MkChan (queue c) (c_closed c) Away) t)
      | Waiting, _ => (None, t)
      | Away, m :: q => (Some m, set_chan i (MkChan q (c_closed c) Away) t)
      | Away, [] =>
          (None, if c_closed c then t else set_chan i (MkChan [] false Waiting) t)
      end
  end.

Definition Close (t : InProcTransport) : InProcTransport :=
  if ip_closed t then t
  else MkInProc ∅ (foldr (λ kv cs, close_chan kv.2 cs) (ip_chans t) (map_to_list (ip_peers t)))
         (ip_buf t) true.
