(* ===== verification/RaftProps.v ===== *)
(** * The raft storage and transport: properties

    Properties of [Wal.v] and [Raft.v], proved from the lemmas of
    [WalFacts.v], each with a concrete instance. *)

From S2P Require Import Prelude Encoding OS Segment Samples SegmentFacts Wal WalFacts Raft.

(** ** A concrete log *)

(** A binary entry codec: term, index and type as int64, then the data. *)
Definition proto0 : EntryCodec := {|
  proto_marshal e :=
    if decide (int64 (Term e) ∧ int64 (Index e) ∧ int64 (EType e)) then
      Some (int64ToBytes (Term e) ++ int64ToBytes (Index e) ++ int64ToBytes (EType e) ++ Data e)
    else None;
  proto_unmarshal b :=
    if decide (24 ≤ length b)%nat then
      Some (MkEntry (bytesToInt64 b) (bytesToInt64 (drop 8 b)) (bytesToInt64 (drop 16 b)) (drop 24 b))
    else None |}.

#[export] Instance proto0_laws : @EntryCodecLaws proto0.
Proof.
  intros [t i y d] b. cbn [proto_marshal proto0 Term Index EType Data].
  case_decide as H; [|done]. destruct H as (H1 & H2 & H3). intros Hb. apply (inj Some) in Hb. subst b.
  cbn [proto_unmarshal proto0].
  rewrite decide_True by (rewrite !length_app, !int64ToBytes_length; lia).
  rewrite bytesToInt64_int64ToBytes_app by done.
  change 16%nat with (8 + 8)%nat. change 24%nat with (8 + (8 + 8))%nat. rewrite <- !drop_drop.
  rewrite (drop_app_length' (int64ToBytes t)) by done.
  rewrite bytesToInt64_int64ToBytes_app by done.
  rewrite (drop_app_length' (int64ToBytes i)) by done.
  rewrite bytesToInt64_int64ToBytes_app by done.
  done.
Qed.

Definition mem0 : MemoryStorage := {|
  Mem := list Entry; NewMemoryStorage := []; MemAppend ents m := (Ok tt, m ++ ents);
  MemApplySnapshot _ m := m |}.

Definition raft_dir : path := (true, ["raft"%string]).
Definition wraft0 : world := World {[raft_dir := Dir]} 0.
Definition ent (i : Z) : Entry := MkEntry 1 i 0 [x61].
Definition blob (ents : list Entry) : list byte := default [] (marshalEntries (P := proto0) ents).

(** A log with the entries 1 and 2. *)
Definition wraft1 : world := (AppendWAL (E := env0) raft_dir (blob [ent 1; ent 2]) wraft0).2.

Lemma wraft0_named : well_named raft_dir wraft0 ∧ wal_file raft_dir wraft0 log_name = frames [].
Proof.
  split; [|reflexivity]. intros n Hn. assert (names_of raft_dir wraft0 = []) as H
    by (vm_compute; reflexivity). rewrite H in Hn. exfalso. exact (not_elem_of_nil _ Hn).
Qed.

Lemma small_entries ents : Forall (λ e, length (Data e) = 1%nat) ents →
  Forall (small_entry (P := proto0)) ents.
Proof.
  intros H. eapply Forall_impl; [exact H|]. intros e He b Hb. cbn [proto_marshal proto0] in Hb.
  case_decide; [|done]. apply (inj Some) in Hb. subst b. unfold small, zlen.
  rewrite !length_app, !int64ToBytes_length, He. vm_compute. done.
Qed.

(** * Properties *)

(** C8: an append to a log whose current file is well framed, as every append
    that reported success leaves it, is atomic
    for readers, whatever fails and wherever the write stops: afterwards a read
    returns the old bytes followed by all the new ones, and the file is well
    framed again, or, only when an error was reported, exactly the old bytes.
    After an error the file may end in part of a frame, and then the next append
    is not covered: [torn_append_loses_log].  A read returns all bytes from the
    given byte on. *)
Theorem wal_append_atomic `{E : Env} dir entries w r w' ps :
  well_named dir w → small entries → Forall small ps → wal_file dir w log_name = frames ps →
  AppendWAL dir entries w = (r, w') →
  well_named dir w'
  ∧ ((wal_data dir w' = wal_data dir w ++ entries
      ∧ wal_file dir w' log_name = frames (ps ++ [entries]))
     ∨ (is_ok r = false ∧ wal_data dir w' = wal_data dir w))
  ∧ ∀ from out w2, ReadWAL dir from w' = (Ok out, w2) →
      out = drop (Z.to_nat from) (wal_data dir w').
Proof.
  intros HW Hs Hps Hf HA. destruct (AppendWAL_data _ _ _ _ _ _ HW Hs Hps Hf HA) as (H1 & _ & H2).
  split_and!; [done|done|]. intros from out w2 HR. by apply ReadWAL_ok in HR as [-> _].
Qed.

Lemma wal_append_atomic_witness :
  (ReadWAL (E := env0) raft_dir 0 wraft1).1 = Ok (blob [ent 1; ent 2]).
Proof.
  destruct wraft0_named as [HW Hf].
  destruct (AppendWAL (E := env0) raft_dir (blob [ent 1; ent 2]) wraft0) as [r w'] eqn:HA.
  destruct (wal_append_atomic (E := env0) raft_dir (blob [ent 1; ent 2]) wraft0 r w' [] HW)
    as (_ & HD & HR); [vm_compute; reflexivity|constructor|exact Hf|exact HA|].
  unfold wraft1. rewrite HA. cbn [snd].
  destruct (ReadWAL (E := env0) raft_dir 0 w') as [[out|e] w2] eqn:HRW.
  - cbn [fst]. rewrite (HR _ _ _ HRW). destruct HD as [[HD _]|[Hr _]].
    + rewrite HD. reflexivity.
    + assert (is_ok (AppendWAL (E := env0) raft_dir (blob [ent 1; ent 2]) wraft0).1 = true) as H
        by (vm_compute; reflexivity). rewrite HA in H. cbn [fst] in H. congruence.
  - exfalso. assert (is_ok (ReadWAL (E := env0) raft_dir 0
      (AppendWAL (E := env0) raft_dir (blob [ent 1; ent 2]) wraft0).2).1 = true) as H
      by (vm_compute; reflexivity). rewrite HA in H. cbn [snd] in H. by rewrite HRW in H.
Defined.

(** Rotating the log, whatever fails on the way, changes nothing of what a
    read returns, when the clock gives the rotated file a name after those of
    the older ones. *)
Theorem wal_rotate_keeps_data `{E : Env} dir w r w' :
  well_named dir w → is_Some (file w (walPath dir)) →
  (∀ m, m ∈ rotated dir w →
     m ≠ rotName (env_clock (S (w_tick w))) ∧ String.le m (rotName (env_clock (S (w_tick w))))) →
  RotateWAL dir w = (r, w') → wal_data dir w' = wal_data dir w ∧ well_named dir w'.
Proof. apply RotateWAL_data. Qed.

Lemma wraft1_named : well_named raft_dir wraft1.
Proof.
  intros n Hn. assert (names_of raft_dir wraft1 = [log_name]) as H by (vm_compute; reflexivity).
  rewrite H in Hn. apply list_elem_of_singleton in Hn as ->. by split.
Qed.

Lemma wal_rotate_keeps_data_witness :
  wal_data raft_dir (RotateWAL (E := env0) raft_dir wraft1).2 = blob [ent 1; ent 2].
Proof.
  destruct (RotateWAL (E := env0) raft_dir wraft1) as [r w'] eqn:HR.
  destruct (wal_rotate_keeps_data (E := env0) raft_dir wraft1 r w' wraft1_named) as [H _];
    [by eexists| |exact HR|].
  - intros m Hm. assert (rotated raft_dir wraft1 = []) as H0 by (vm_compute; reflexivity).
    rewrite H0 in Hm. exfalso. exact (not_elem_of_nil _ Hm).
  - cbn [snd]. rewrite H. vm_compute. reflexivity.
Defined.



Section restart.
Context {E : Env} {P : EntryCodec} {M : MemoryStorage} {HRel : Reliable E} {PL : EntryCodecLaws}.

Lemma marshal_nonempty ents b : ents ≠ [] → marshalEntries ents = Some b → b ≠ [].
Proof.
  intros Hne HM ->. destruct ents as [|e ents]; [done|]. cbn [marshalEntries] in HM.
  destruct (proto_marshal e); [|done]. cbn [mbind option_bind] in HM.
  by destruct (marshalEntries ents).
Qed.

Lemma persistentAppend_reliable dir ents b ps m w :
  wal_shape dir ps w → ents ≠ [] → marshalEntries ents = Some b → small b →
  ∃ w', (persistentAppend dir ents m w).2 = w' ∧ wal_shape dir (ps ++ [b]) w'
    ∧ wal_data dir w' = wal_data dir w ++ b.
Proof.
  intros HS Hne HM Hb. destruct (AppendWAL_reliable dir b ps w HS Hb) as (w1 & HA & HS1 & HD1).
  exists w1. unfold persistentAppend. destruct ents as [|e ents]; [done|]. rewrite HM, HA.
  by destruct (MemAppend _ m).
Qed.
End restart.

(** A restart writes the whole log again.  Recovery appends the entries it
    has just read from the log to that log: without faults, a node that starts
    on a non-empty log leaves every entry in it twice, and from then on each
    ready batch is written twice as well. *)
Theorem restart_doubles_log `{E : Env, P : EntryCodec, M : MemoryStorage, !Reliable E, !EntryCodecLaws}
    off dir w ws rs ents b ps :
  LoadSnapshot off dir w = (rs, ws) → wal_shape dir ps ws →
  ents ≠ [] → marshalEntries ents = Some b → Forall small_entry ents → small b →
  wal_data dir ws = b →
  let '(n, w') := recover off (Some dir) w in
  n_persistent n = true ∧ unmarshalEntries (wal_data dir w') = Ok (ents ++ ents)
  ∧ ∀ ents' b', ents' ≠ [] → marshalEntries ents' = Some b' → small b' →
      wal_data dir (applyReady (Some dir) (MkSnapshot 0 0 []) ents' n w').2 = b ++ b ++ b' ++ b'.
Proof.
  intros HL HS Hne HM HF Hsb HD. unfold recover. rewrite HL.
  pose proof (ReadWAL_reliable dir 0 ws (ws_dir _ _ _ HS) (ws_named _ _ _ HS)) as HRR.
  destruct (ReadWAL dir 0 ws) as [[data|] wr] eqn:HRW; [|done]. clear HRR.
  apply ReadWAL_ok in HRW as [-> Hnr]. rewrite drop_0, HD.
  destruct (wal_shape_nodes _ _ _ _ Hnr HS) as [HSr HDr].
  destruct b as [|b0 b1] eqn:Hb; [by destruct (marshal_nonempty ents [])|]. rewrite <- Hb in *.
  rewrite (unmarshal_marshal ents b) by done.
  destruct ents as [|e0 ents0] eqn:Hents; [done|]. rewrite <- Hents in *.
  set (mem := match rs with Ok _ => _ | Err _ => _ end).
  destruct (persistentAppend_reliable dir ents b ps mem wr HSr Hne HM Hsb) as (w1 & Hpa & HS1 & HD1).
  destruct (persistentAppend dir ents mem wr) as [[r1 m1] w1'] eqn:Epa. simpl in Hpa. subst w1'.
  split_and!; [done| |].
  - rewrite HD1, HDr, HD. apply unmarshal_marshal; [by apply marshal_app|]. by apply Forall_app.
  - intros ents' b' Hne' HM' Hsb'. unfold applyReady. cbn [n_mem n_persistent].
    change (IsEmptySnap (MkSnapshot 0 0 [])) with true. cbv iota.
    destruct ents' as [|e' ents'']; [done|]. rewrite HM'.
    destruct (AppendWAL_reliable dir b' _ w1 HS1 Hsb') as (w2 & -> & HS2 & HD2). cbn [snd].
    destruct (persistentAppend_reliable dir (e' :: ents'') b' _ m1 w2 HS2 Hne' HM' Hsb')
      as (w3 & Hpa3 & _ & HD3).
    destruct (persistentAppend dir (e' :: ents'') m1 w2) as [[r3 m3] w3'] eqn:Epa3.
    simpl in Hpa3. subst w3'. cbn [snd].
    by rewrite HD3, HD2, HD1, HDr, HD, <- !app_assoc.
Qed.

Lemma restart_doubles_log_witness :
  unmarshalEntries (P := proto0)
    (wal_data raft_dir (recover (E := env0) (P := proto0) (M := mem0) None (Some raft_dir) wraft1).2)
  = Ok [ent 1; ent 2; ent 1; ent 2].
Proof.
  destruct (LoadSnapshot (E := env0) None raft_dir wraft1) as [rs ws] eqn:HL.
  assert (w_nodes ws = w_nodes wraft1) as Hn.
  { revert HL. unfold LoadSnapshot, ReadDir. cbn [env_fault env0].
    assert (w_nodes wraft1 !! raft_dir = Some Dir) as -> by (vm_compute; reflexivity).
    assert (latest_name (snap_names (dir_entries raft_dir wraft1)) = EmptyString) as ->
      by (vm_compute; reflexivity). cbn [bool_decide decide]. intros H. by injection H as _ <-. }
  assert (wal_shape raft_dir [blob [ent 1; ent 2]] wraft1) as HS0.
  { split; [vm_compute; reflexivity|discriminate| |apply wraft1_named|vm_compute; reflexivity|].
    - intros H. assert (is_Some (file wraft1 (walPath raft_dir))) as [d Hd] by (by eexists).
      unfold file in Hd. rewrite H in Hd. discriminate Hd.
    - constructor; [vm_compute; reflexivity|constructor]. }
  destruct (wal_shape_nodes _ _ _ _ Hn HS0) as [HS HD].
  pose proof (restart_doubles_log (E := env0) (P := proto0) (M := mem0) None raft_dir wraft1 ws rs
    [ent 1; ent 2] (blob [ent 1; ent 2]) _ HL HS) as H.
  destruct (recover (E := env0) (P := proto0) (M := mem0) None (Some raft_dir) wraft1) as [n w'].
  apply H; [discriminate|vm_compute; reflexivity|apply small_entries; repeat constructor
    |vm_compute; reflexivity|]. rewrite HD. vm_compute. reflexivity.
Defined.

(** Stops the write at tick [n] after [k] bytes. *)
Definition env_torn (n k : nat) : Env :=
  {| env_fault := λ t, if decide (t = n) then Some (FaultAfter k) else None; env_clock := clock0 |}.

(** A torn append poisons the log.  When the payload write of an append
    fails, the append reports it and the log still decodes to the old entries;
    but the header stays in the file, so the next append, which succeeds, is
    swallowed by that frame: the log with the acknowledged entry decodes to no
    entries at all, the old ones included. *)
Theorem torn_append_loses_log :
  let torn := AppendWAL (E := env_torn (w_tick wraft1 + 2) 0) raft_dir (blob [ent 3]) wraft1 in
  let next := AppendWAL (E := env0) raft_dir (blob [ent 4]) torn.2 in
  torn.1 = Err ErrIO
  ∧ unmarshalEntries (P := proto0) (wal_data raft_dir torn.2) = Ok [ent 1; ent 2]
  ∧ next.1 = Ok tt
  ∧ unmarshalEntries (P := proto0) (wal_data raft_dir next.2) = Ok [].
Proof.
  split; [vm_compute; reflexivity|]. split; [vm_compute; reflexivity|].
  split; vm_compute; reflexivity.
Qed.

(** ** The adapter *)

(** Consecutive indexes from [first] on, as in a raft log. *)
Definition consecutive (first : Z) (ents : list Entry) : Prop :=
  ∀ i e, ents !! i = Some e → Index e = first + Z.of_nat i.

Lemma consecutive_cons first e ents :
  consecutive first (e :: ents) → Index e = first ∧ consecutive (first + 1) ents.
Proof.
  intros H. split; [rewrite (H 0%nat e eq_refl); lia|].
  intros i x Hx. rewrite (H (S i) x Hx). lia.
Qed.

Lemma entriesLoop_spec first lo hi mx ents out :
  consecutive first ents → 0 <= mx → (mx = 0 ∨ zlen out < mx) →
  entriesLoop lo hi mx ents out
  = out ++ take (if decide (mx = 0) then length ents else Z.to_nat (mx - zlen out))
             (take (Z.to_nat (hi - Z.max lo first)) (drop (Z.to_nat (lo - first)) ents)).
Proof.
  revert first out. induction ents as [|e ents IH]; intros first out Hc Hm Ho; cbn [entriesLoop].
  { by rewrite drop_nil, !take_nil, app_nil_r. }
  apply consecutive_cons in Hc as [He Hc]. rewrite He.
  destruct (lo <=? first) eqn:H1; bool_prop.
  - replace (Z.to_nat (lo - first)) with 0%nat by lia. rewrite drop_0.
    replace (Z.max lo first) with first by lia.
    destruct (first <? hi) eqn:H2; bool_prop; cbn [andb].
    + replace (Z.to_nat (hi - first)) with (S (Z.to_nat (hi - (first + 1)))) by lia.
      cbn [take]. rewrite zlen_app. change (zlen [e]) with 1.
      destruct ((0 <? mx) && (mx <=? zlen out + 1)) eqn:H3; [bool_prop|].
      * rewrite decide_False by lia.
        replace (Z.to_nat (mx - zlen out)) with 1%nat by lia. done.
      * rewrite IH with (first := first + 1); [|done|done|].
        2:{ rewrite zlen_app. change (zlen [e]) with 1. destruct Ho; [by left|right].
            pose proof (zlen_nonneg out). apply andb_false_iff in H3 as [H3|H3]; bool_prop; lia. }
        replace (Z.max lo (first + 1)) with (first + 1) by lia.
        replace (Z.to_nat (lo - (first + 1))) with 0%nat by lia. rewrite drop_0, <- app_assoc.
        f_equal. cbn [app]. rewrite zlen_app. change (zlen [e]) with 1. case_decide.
        -- done.
        -- destruct Ho as [|Ho]; [done|].
           replace (Z.to_nat (mx - zlen out)) with (S (Z.to_nat (mx - (zlen out + 1)))) by lia. done.
    + rewrite IH with (first := first + 1) by done. f_equal.
      replace (Z.to_nat (hi - Z.max lo (first + 1))) with 0%nat by lia.
      replace (Z.to_nat (hi - first)) with 0%nat by lia. by rewrite !take_0, !take_nil.
  - cbn [andb]. rewrite IH with (first := first + 1) by done. f_equal.
    replace (Z.to_nat (lo - first)) with (S (Z.to_nat (lo - (first + 1)))) by lia.
    cbn [drop length]. replace (Z.max lo (first + 1)) with (Z.max lo first) by lia.
    case_decide; [|done]. rewrite (take_ge _ (length ents)), (take_ge _ (S (length ents))); [done|..];
      rewrite length_take, length_drop; lia.
Qed.

Lemma list_find_index first ents i :
  consecutive first ents → first <= i < first + zlen ents →
  ∃ e, list_find (λ e, Index e = i) ents = Some (Z.to_nat (i - first), e)
    ∧ ents !! Z.to_nat (i - first) = Some e.
Proof.
  intros Hc Hi. destruct (lookup_lt_is_Some_2 ents (Z.to_nat (i - first))) as [e He].
  { unfold zlen in Hi. lia. }
  exists e. split; [|done]. apply list_find_Some. split_and!; [done|rewrite (Hc _ _ He); lia|].
  intros j y Hj Hlt. rewrite (Hc _ _ Hj). lia.
Qed.

(** The adapter reads the log it is made for: without faults it holds exactly the
    entries the log was written with. *)
Theorem adapter_loads_log `{E : Env, P : EntryCodec, !Reliable E, !EntryCodecLaws} dir ps ents w :
  wal_shape dir ps w → marshalEntries ents = Some (wal_data dir w) → Forall small_entry ents →
  (NewEtcdStorageAdapter dir w).1 = ents.
Proof.
  intros HS HM HF. unfold NewEtcdStorageAdapter.
  pose proof (ReadWAL_reliable dir 0 w (ws_dir _ _ _ HS) (ws_named _ _ _ HS)) as HR.
  destruct (ReadWAL dir 0 w) as [[data|] w1] eqn:E1; [|done]. clear HR.
  apply ReadWAL_ok in E1 as [-> _]. rewrite drop_0.
  pose proof (unmarshal_marshal ents (wal_data dir w) HM HF) as HU.
  destruct (wal_data dir w) as [|b0 data]; [|by rewrite HU].
  destruct ents as [|e ents]; [done|]. by apply marshal_nonempty in HM.
Qed.

Lemma adapter_loads_log_witness :
  (NewEtcdStorageAdapter (E := env0) (P := proto0) raft_dir wraft1).1 = [ent 1; ent 2].
Proof.
  destruct wraft0_named as [HW Hf].
  assert (wal_shape raft_dir [] wraft0) as HS0.
  { split; [vm_compute; reflexivity|discriminate|vm_compute; discriminate|exact HW|exact Hf|constructor]. }
  destruct (AppendWAL_reliable (E := env0) raft_dir (blob [ent 1; ent 2]) [] wraft0 HS0)
    as (w1 & HA & HS1 & HD); [vm_compute; reflexivity|].
  assert (wraft1 = w1) as Hw by (unfold wraft1; by rewrite HA). rewrite Hw.
  apply (adapter_loads_log (E := env0) (P := proto0) raft_dir _ [ent 1; ent 2] w1 HS1).
  - rewrite HD. vm_compute. reflexivity.
  - apply small_entries. repeat constructor.
Defined.

(** C35: what the adapter answers about a log of consecutive entries, for every
    index, range and limit: the first and last index; the term of every entry,
    0 for index 0, and [ErrUnavailable] for any other index; and for a range
    [lo, hi) its entries in order, no more than the limit (which counts entries)
    when there is one, or [ErrUnavailable] when that is none.  A range that
    begins below the first index is not an error: it is answered from the first
    entry on. *)
Theorem adapter_serves_log first ents lo hi mx :
  ents ≠ [] → consecutive first ents → 0 < first → 0 <= mx →
  FirstIndex ents = first ∧ LastIndex ents = first + zlen ents - 1
  ∧ (∀ i, TermOf i ents =
       if decide (i = 0) then Ok 0
       else if decide (first <= i)
       then match ents !! Z.to_nat (i - first) with
            | Some e => Ok (Term e)
            | None => Err ErrUnavailable
            end
       else Err ErrUnavailable)
  ∧ let range := take (Z.to_nat (hi - Z.max lo first)) (drop (Z.to_nat (lo - first)) ents) in
    let limited := if decide (mx = 0) then range else take (Z.to_nat mx) range in
    Entries lo hi mx ents = (if decide (limited = []) then Err ErrUnavailable else Ok limited).
Proof.
  intros Hne Hc Hf Hm. split_and!.
  - destruct ents as [|e ents]; [done|]. by apply consecutive_cons in Hc as [He _].
  - unfold LastIndex. rewrite last_lookup.
    destruct (lookup_lt_is_Some_2 ents (Nat.pred (length ents))) as [e He].
    { destruct ents; [done|simpl; lia]. }
    rewrite He, (Hc _ _ He). unfold zlen. destruct ents; [done|simpl; lia].
  - intros i. unfold TermOf. case_decide as H0; [by rewrite (proj2 (Z.eqb_eq _ _))|].
    rewrite (proj2 (Z.eqb_neq _ _)) by done.
    destruct (decide (first <= i < first + zlen ents)) as [Hi|Hi].
    + destruct (list_find_index first ents i Hc Hi) as (e & -> & ->). by rewrite decide_True by lia.
    + destruct (list_find _ ents) as [[j e]|] eqn:HF.
      { apply list_find_Some in HF as (Hj & He & _). rewrite (Hc _ _ Hj) in He.
        apply lookup_lt_Some in Hj. unfold zlen in Hi. lia. }
      case_decide; [|done]. rewrite lookup_ge_None_2; [done|]. unfold zlen in Hi. lia.
  - cbv zeta. unfold Entries. rewrite (entriesLoop_spec first) by (try done; change (zlen []) with 0; lia).
    change (zlen (@nil Entry)) with 0. rewrite Z.sub_0_r. cbn [app].
    set (range := take (Z.to_nat (hi - Z.max lo first)) _).
    replace (take (if decide (mx = 0) then length ents else Z.to_nat mx) range)
      with (if decide (mx = 0) then range else take (Z.to_nat mx) range).
    + by destruct (if decide (mx = 0) then range else take (Z.to_nat mx) range).
    + case_decide; [|done]. rewrite take_ge; [done|].
      unfold range. rewrite length_take, length_drop. lia.
Qed.

Lemma adapter_serves_log_witness :
  Entries 1 5 1 [ent 2; ent 3; ent 4] = Ok [ent 2] ∧ LastIndex [ent 2; ent 3; ent 4] = 4.
Proof.
  destruct (adapter_serves_log 2 [ent 2; ent 3; ent 4] 1 5 1) as (_ & HL & _ & HE);
    [discriminate| |lia|lia|].
  - intros i e He. destruct i as [|[|[|i]]]; simpl in He; try (injection He as <-; reflexivity).
    discriminate He.
  - split; [exact HE|exact HL].
Defined.

(** ** The transport *)

Inductive tr_op :=
  | TrRegister (addr : string)
  | TrUnregister (addr : string)
  | TrSend (to : string) (payload : list byte)
  | TrReceive (i : nat)
  | TrClose.

(** What happened on each channel: the messages accepted and those received. *)
Record tr_log := MkTrLog { accepted : nat → list (list byte); received : nat → list (list byte) }.

Definition note (f : nat → list (list byte)) (i : nat) (m : list byte) : nat → list (list byte) :=
  λ j, if decide (j = i) then f j ++ [m] else f j.

(** One operation; [None] is a panic. *)
Definition tr_step (o : tr_op) (t : InProcTransport) (l : tr_log) : option (InProcTransport * tr_log) :=
  match o with
  | TrRegister addr => Some ((Register addr t).2, l)
  | TrUnregister addr => Some (Unregister addr t, l)
  | TrSend to payload =>
      match Send to payload t with
      | None => None
      | Some (r, t') =>
          match r, SendLookup to t with
          | Ok _, Some i => Some (t', MkTrLog (note (accepted l) i payload) (received l))
          | _, _ => Some (t', l)
          end
      end
  | TrReceive i =>
      match Receive i t with
      | (Some m, t') => Some (t', MkTrLog (accepted l) (note (received l) i m))
      | (None, t') => Some (t', l)
      end
  | TrClose => Some (Close t, l)
  end.

Fixpoint tr_run (os : list tr_op) (t : InProcTransport) (l : tr_log)
    : option (InProcTransport * tr_log) :=
  match os with
  | [] => Some (t, l)
  | o :: os => match tr_step o t l with None => None | Some (t, l) => tr_run os t l end
  end.

(** What channel [i] holds for its receiver, in order; empty when it does not exist. *)
Definition pending (c : chan) : list (list byte) :=
  match c_recv c with Handed m => m :: queue c | _ => queue c end.
Definition pending_of (t : InProcTransport) (i : nat) : list (list byte) :=
  match ip_chans t !! i with Some c => pending c | None => [] end.

(** A channel within its buffer; a blocked receiver has nothing to take. *)
Definition chan_ok (buf : nat) (c : chan) : Prop :=
  (length (queue c) ≤ buf)%nat ∧ (c_recv c = Waiting → queue c = []).

Record tr_inv (t : InProcTransport) (l : tr_log) : Prop := {
  ti_fifo : ∀ i, accepted l i = received l i ++ pending_of t i;
  ti_chans : Forall (chan_ok (ip_buf t)) (ip_chans t);
  ti_open : ∀ addr i, ip_peers t !! addr = Some i →
    ∃ c, ip_chans t !! i = Some c ∧ c_closed c = false;
  ti_inj : ∀ a a' i, ip_peers t !! a = Some i → ip_peers t !! a' = Some i → a = a' }.

Lemma pending_close_chan cs i j :
  match close_chan i cs !! j with Some c => pending c | None => [] end
  = match cs !! j with Some c => pending c | None => [] end.
Proof.
  unfold close_chan. destruct (decide (i = j)) as [->|Hne].
  - rewrite list_lookup_alter_eq. by destruct (cs !! j).
  - by rewrite list_lookup_alter_ne.
Qed.

Lemma pending_close_all (kvs : list (string * nat)) cs j :
  match foldr (λ kv cs, close_chan kv.2 cs) cs kvs !! j with Some c => pending c | None => [] end
  = match cs !! j with Some c => pending c | None => [] end.
Proof. induction kvs as [|kv kvs IH]; simpl; [done|]. by rewrite pending_close_chan. Qed.

Lemma chans_close buf i cs : Forall (chan_ok buf) cs → Forall (chan_ok buf) (close_chan i cs).
Proof. intros H. unfold close_chan. apply Forall_alter; [done|]. by intros c _ Hc. Qed.

Lemma chans_close_all buf (kvs : list (string * nat)) cs :
  Forall (chan_ok buf) cs → Forall (chan_ok buf) (foldr (λ kv cs, close_chan kv.2 cs) cs kvs).
Proof. intros H. induction kvs as [|kv kvs IH]; simpl; [done|by apply chans_close]. Qed.

(** Replacing the channel a peer is registered with. *)
Lemma set_chan_pending k c c' t j :
  ip_chans t !! k = Some c →
  pending_of (set_chan k c' t) j = if decide (j = k) then pending c' else pending_of t j.
Proof.
  intros Hc. pose proof (lookup_lt_Some _ _ _ Hc). unfold pending_of, set_chan. simpl. case_decide.
  - subst. by rewrite list_lookup_insert_eq.
  - by rewrite list_lookup_insert_ne.
Qed.

Lemma set_chan_open k c c' t a i :
  ip_chans t !! k = Some c → c_closed c' = c_closed c →
  (∃ c, ip_chans t !! i = Some c ∧ c_closed c = false) →
  ip_peers t !! a = Some i → ∃ c, ip_chans (set_chan k c' t) !! i = Some c ∧ c_closed c = false.
Proof.
  intros Hc Hcl (c1 & Hc1 & Hcl1) _. pose proof (lookup_lt_Some _ _ _ Hc). unfold set_chan. simpl.
  destruct (decide (i = k)) as [->|Hne].
  - rewrite list_lookup_insert_eq by done. simplify_eq. exists c'. split; [done|congruence].
  - rewrite list_lookup_insert_ne by done. by exists c1.
Qed.

(** What [SendChan] does on an open channel. *)
Lemma SendChan_open to k payload t c :
  ip_chans t !! k = Some c → c_closed c = false → chan_ok (ip_buf t) c →
  (∃ c', SendChan to k payload t = Some (Ok tt, set_chan k c' t) ∧ c_closed c' = false
     ∧ chan_ok (ip_buf t) c' ∧ pending c' = pending c ++ [payload])
  ∨ (SendChan to k payload t = Some (Err (ErrPeerFull to), t)
     ∧ c_recv c ≠ Waiting ∧ length (queue c) = ip_buf t).
Proof.
  intros Hc Hcl [Hb Hw]. unfold SendChan. rewrite Hc, Hcl. destruct c as [q cl r]. simpl in *.
  destruct r as [| |m].
  - case_decide; [left|right; split_and!; [done|done|lia]]. eexists. split; [done|]. unfold chan_ok, pending. simpl.
    rewrite length_app. simpl. split_and!; [done|lia|done|done].
  - left. rewrite Hw by done. eexists. split; [done|]. unfold chan_ok, pending. simpl.
    split_and!; [done|lia|done|done].
  - case_decide; [left|right; split_and!; [done|done|lia]]. eexists. split; [done|]. unfold chan_ok, pending. simpl.
    rewrite length_app. simpl. split_and!; [done|lia|done|done].
Qed.

(** What [Receive] does: the first of what is pending, or nothing when there is none. *)
Lemma Receive_chan i t c :
  ip_chans t !! i = Some c → chan_ok (ip_buf t) c →
  ∃ c', (Receive i t).2 = set_chan i c' t ∧ c_closed c' = c_closed c ∧ chan_ok (ip_buf t) c'
    ∧ match (Receive i t).1 with
      | Some m => pending c = m :: pending c'
      | None => pending c = [] ∧ pending c' = []
      end.
Proof.
  intros Hc [Hb Hw]. unfold Receive. rewrite Hc.
  assert (set_chan i c t = t) as Hsame.
  { unfold set_chan. destruct t. simpl in *. by rewrite list_insert_id. }
  destruct c as [q cl r]. unfold chan_ok, pending in *. simpl in *.
  destruct r as [| |m]; simpl.
  - destruct q as [|m q]; simpl in *; [destruct cl; simpl|].
    + eexists. rewrite Hsame at 1. split; [done|]. simpl. by split_and!.
    + eexists. split; [done|]. simpl. split_and!; [done|lia|done|done|done].
    + eexists. split; [done|]. simpl. split_and!; [done|lia|done|done].
  - rewrite Hw in * by done. eexists. rewrite Hsame at 1. split; [done|]. simpl. by split_and!.
  - eexists. split; [done|]. simpl. by split_and!.
Qed.

(** Every operation keeps the invariant. *)
Lemma register_inv addr t l t' l' :
  tr_inv t l → tr_step (TrRegister addr) t l = Some (t', l') → tr_inv t' l' ∧ ip_buf t' = ip_buf t.
Proof.
  intros HI. pose proof HI as [Hf Hb Ho Hi]. cbn [tr_step].
  intros [= <- <-]. unfold Register. destruct (ip_closed t); [done|].
  destruct (ip_peers t !! addr) as [|] eqn:Hp; [done|]. split; [|done].
  assert (∀ i, pending_of (MkInProc (<[addr:=length (ip_chans t)]> (ip_peers t))
    (ip_chans t ++ [MkChan [] false Away]) (ip_buf t) false) i = pending_of t i) as Hq.
  { intros i. unfold pending_of. simpl. destruct (decide (i < length (ip_chans t))%nat) as [Hlt|Hge].
    - by rewrite lookup_app_l.
    - rewrite lookup_app_r by lia. rewrite (lookup_ge_None_2 (ip_chans t)) by lia.
      destruct (i - length (ip_chans t))%nat as [|[]]; done. }
  split; simpl.
  - intros i. by rewrite Hq.
  - apply Forall_app. split; [done|]. constructor; [|constructor]. split; simpl; [lia|done].
  - intros a i. rewrite lookup_insert. case_decide.
    + intros [= <-]. exists (MkChan [] false Away). by rewrite lookup_app_r, Nat.sub_diag by lia.
    + intros (c & Hc & Hcl)%Ho. exists c. split; [by apply lookup_app_l_Some|done].
  - intros a a' i. rewrite !lookup_insert. repeat case_decide; intros H1 H2; simplify_eq; try done.
    + apply Ho in H2 as (c & Hc%lookup_lt_Some & _). lia.
    + apply Ho in H1 as (c & Hc%lookup_lt_Some & _). lia.
    + by eapply Hi.
Qed.
Lemma unregister_inv addr t l t' l' :
  tr_inv t l → tr_step (TrUnregister addr) t l = Some (t', l') → tr_inv t' l' ∧ ip_buf t' = ip_buf t.
Proof.
  intros HI. pose proof HI as [Hf Hb Ho Hi]. cbn [tr_step].
  intros [= <- <-]. unfold Unregister. destruct (ip_peers t !! addr) as [k|] eqn:Hp; [|done].
  split; [|done]. split; simpl.
  - intros i. unfold pending_of. simpl. rewrite pending_close_chan. apply Hf.
  - by apply chans_close.
  - intros a i. rewrite lookup_delete_Some. intros [Hne Ha]. destruct (Ho _ _ Ha) as (c & Hc & Hcl).
    exists c. split; [|done]. unfold close_chan. rewrite list_lookup_alter_ne; [done|].
    intros ->. apply Hne. by eapply Hi.
  - intros a a' i. rewrite !lookup_delete_Some. intros [_ H1] [_ H2]. by eapply Hi.
Qed.
Lemma send_op_inv to payload t l t' l' :
  tr_inv t l → tr_step (TrSend to payload) t l = Some (t', l') → tr_inv t' l' ∧ ip_buf t' = ip_buf t.
Proof.
  intros HI. pose proof HI as [Hf Hb Ho Hi]. cbn [tr_step].
  unfold Send. destruct (SendLookup to t) as [k|] eqn:Hl; [|intros [= <- <-]; done].
  destruct (Ho _ _ Hl) as (c & Hc & Hcl). pose proof (Forall_lookup_1 _ _ _ _ Hb Hc) as Hok.
  destruct (SendChan_open to k payload t c Hc Hcl Hok) as [(c' & -> & Hcl' & Hok' & Hp)|(-> & _)];
    intros [= <- <-]; [|done]. split; [|done]. split; simpl.
  - intros i. rewrite (set_chan_pending _ c) by done. unfold note. case_decide; [|done]. subst.
    rewrite Hp, Hf, app_assoc. unfold pending_of. by rewrite Hc.
  - by apply Forall_insert.
  - intros a i Ha. eapply set_chan_open; [done|congruence|by eapply Ho|done].
  - done.
Qed.
Lemma receive_inv i t l t' l' :
  tr_inv t l → tr_step (TrReceive i) t l = Some (t', l') → tr_inv t' l' ∧ ip_buf t' = ip_buf t.
Proof.
  intros HI. pose proof HI as [Hf Hb Ho Hi]. cbn [tr_step].
  destruct (ip_chans t !! i) as [c|] eqn:Hc.
  2:{ unfold Receive. rewrite Hc. by intros [= <- <-]. }
  pose proof (Forall_lookup_1 _ _ _ _ Hb Hc) as Hok.
  destruct (Receive_chan i t c Hc Hok) as (c' & Ht & Hcl & Hok' & Hp).
  destruct (Receive i t) as [m t1]. cbn [fst snd] in *. subst t1.
  assert (∀ l1, (∀ j, accepted l1 j = received l1 j ++ pending_of (set_chan i c' t) j) →
    tr_inv (set_chan i c' t) l1) as Hmk.
  { intros l1 H1. split; [exact H1|by apply Forall_insert| |done].
    intros a j Ha. eapply set_chan_open; [done|done|by eapply Ho|done]. }
  destruct m as [m|]; intros [= <- <-]; (split; [|done]); apply Hmk; intros j; simpl;
    rewrite (set_chan_pending _ c) by done; rewrite Hf; unfold note; case_decide; try done; subst;
    unfold pending_of; rewrite Hc.
  - by rewrite Hp, <- app_assoc.
  - by destruct Hp as [-> ->].
Qed.
Lemma close_inv t l t' l' :
  tr_inv t l → tr_step (TrClose) t l = Some (t', l') → tr_inv t' l' ∧ ip_buf t' = ip_buf t.
Proof.
  intros HI. pose proof HI as [Hf Hb Ho Hi]. cbn [tr_step].
  intros [= <- <-]. unfold Close. destruct (ip_closed t); [done|]. split; [|done]. split; simpl.
  - intros i. unfold pending_of. simpl. rewrite pending_close_all. apply Hf.
  - by apply chans_close_all.
  - intros a i Ha. by rewrite lookup_empty in Ha.
  - intros a a' i Ha. by rewrite lookup_empty in Ha.
Qed.
Lemma tr_step_inv o t l t' l' :
  tr_inv t l → tr_step o t l = Some (t', l') → tr_inv t' l' ∧ ip_buf t' = ip_buf t.
Proof.
  destruct o; [apply register_inv|apply unregister_inv|apply send_op_inv|apply receive_inv|apply close_inv].
Qed.
(** No operation, run as a whole, panics. *)
Lemma tr_step_total o t l : tr_inv t l → ∃ t1 l1, tr_step o t l = Some (t1, l1).
Proof.
  intros HI. destruct o as [| |to payload|i|]; cbn [tr_step]; try by eexists _, _.
  - unfold Send. destruct (SendLookup to t) as [k|] eqn:Hl; [|by eexists _, _].
    destruct (ti_open _ _ HI _ _ Hl) as (c & Hc & Hcl).
    destruct (SendChan_open to k payload t c Hc Hcl (Forall_lookup_1 _ _ _ _ (ti_chans _ _ HI) Hc))
      as [(c' & -> & _)|(-> & _)]; by eexists _, _.
  - destruct (Receive i t) as [[m|] t1]; by eexists _, _.
Qed.

(** The in-process transport is a set of bounded FIFO channels: in every run of
    registrations, sends, moves of the receivers and closes, from the start on,
    what a channel's receiver has taken is a prefix of what was accepted for it,
    in order, the rest is still pending, at most the buffer and one message that
    was handed over; and no operation that is not interrupted panics. *)
Theorem transport_fifo buf os :
  ∃ t l, tr_run os (NewInProcTransport buf) (MkTrLog (λ _, []) (λ _, [])) = Some (t, l)
    ∧ ∀ i, accepted l i = received l i ++ pending_of t i ∧ (length (pending_of t i) ≤ S buf)%nat.
Proof.
  assert (∀ os0 t l, tr_inv t l → ip_buf t = buf → ∃ t' l', tr_run os0 t l = Some (t', l')
    ∧ tr_inv t' l' ∧ ip_buf t' = buf) as H.
  { intros os0. induction os0 as [|o os' IH]; intros t l HI Hb; cbn [tr_run]; [by exists t, l|].
    destruct (tr_step_total o t l HI) as (t1 & l1 & Hs).
    rewrite Hs. destruct (tr_step_inv _ _ _ _ _ HI Hs) as [HI1 Hb1].
    apply IH; [done|congruence]. }
  destruct (H os (NewInProcTransport buf) (MkTrLog (λ _, []) (λ _, []))) as (t & l & Hr & HI & Hb).
  - split; simpl; [done|constructor| |].
    + intros a i Ha. by rewrite lookup_empty in Ha.
    + intros a a' i Ha. by rewrite lookup_empty in Ha.
  - done.
  - exists t, l. split; [done|]. intros i. split; [apply HI|]. unfold pending_of.
    destruct (ip_chans t !! i) as [c|] eqn:Hc; [|simpl; lia].
    destruct (Forall_lookup_1 _ _ _ _ (ti_chans _ _ HI) Hc) as [Hq _]. rewrite Hb in Hq.
    unfold pending. destruct (c_recv c); simpl; lia.
Qed.

(** [Send] looks the channel up under the lock but sends after releasing
    it: when the peer is unregistered in between, the send panics. *)
Theorem send_unregister_race to payload t i :
  SendLookup to t = Some i → (i < length (ip_chans t))%nat →
  SendChan to i payload (Unregister to t) = None.
Proof.
  unfold SendLookup, Unregister, SendChan. intros Hl Hi. rewrite Hl. cbn [ip_chans].
  unfold close_chan. rewrite list_lookup_alter_eq.
  by destruct (lookup_lt_is_Some_2 _ _ Hi) as [c ->].
Qed.

Lemma send_unregister_race_witness :
  let t := (Register "1" (NewInProcTransport 4)).2 in
  SendLookup "1" t = Some 0%nat ∧ SendChan "1" 0 [x01] (Unregister "1" t) = None.
Proof.
  split; [reflexivity|].
  apply (send_unregister_race "1" [x01] (Register "1" (NewInProcTransport 4)).2 0);
    [reflexivity|vm_compute; apply le_n].
Defined.

(** ** In-sync replicas *)

Inductive isr_op := IsrLeader (id : Z) | IsrIn (id : Z) | IsrOut (id : Z).

Definition isr_step (m : ISRManager) (o : isr_op) : ISRManager :=
  match o with
  | IsrLeader id => SetLeader id m
  | IsrIn id => MarkInSync id m
  | IsrOut id => MarkOutOfSync id m
  end.

(** The replicas whose last event was not a removal. *)
Fixpoint in_sync (os : list isr_op) : gset Z :=
  match os with
  | [] => ∅
  | IsrLeader id :: os | IsrIn id :: os => {[id]} ∪ in_sync os
  | IsrOut id :: os => in_sync os ∖ {[id]}
  end.

(** After any history of events (the latest first), the members are exactly
    the replicas whose latest event put them in, each listed once, and writes
    are accepted exactly when there are at least [max 1 minISR] of them. *)
Theorem isr_tracks_history min os :
  let m := foldr (λ o m, isr_step m o) (NewISRManager min) os in
  isr_members m = in_sync os ∧ NoDup (Members m)
  ∧ (∀ id, id ∈ Members m ↔ id ∈ in_sync os)
  ∧ (CanAcceptWrites m = true ↔ Z.max 1 min <= Z.of_nat (size (in_sync os))).
Proof.
  cbv zeta. set (m := foldr _ _ os).
  assert (isr_members m = in_sync os ∧ minISR m = Z.max 1 min) as [Hm Hmin].
  { unfold m. induction os as [|o os' [IH1 IH2]]; simpl.
    - split; [done|]. destruct (min <=? 0) eqn:H; bool_prop; lia.
    - destruct o; simpl; by rewrite IH1, IH2. }
  split_and!; [done|unfold Members; apply NoDup_elements| |].
  - intros id. unfold Members. by rewrite elem_of_elements, Hm.
  - unfold CanAcceptWrites. rewrite Hm, Hmin. apply Z.leb_le.
Qed.
