(* ===== verification/Processor.v ===== *)
(** * Stream operators ([src/processor/op.go], [runtime.go])

    An operator reads a channel until it is closed and writes another one: a
    function from the list of records received to the list of records sent.  A
    time window also sees the ticks of its ticker, at any place between the
    records.  Numbers are int64 and IEEE binary64 (the specification floats of
    the standard library). *)

From Stdlib Require Import SpecFloat.
From S2P Require Import Prelude Encoding.

(** ** Values *)

(** [float64] *)
Definition float64 : Type := spec_float.
Definition float_of_int (n : Z) : float64 := binary_normalize 53 1024 n 0 false.
Definition fadd : float64 → float64 → float64 := SFadd 53 1024.
Definition fdiv : float64 → float64 → float64 := SFdiv 53 1024.
Definition fzero : float64 := S754_zero false.

(** The dynamic values in a record ([interface{}]). *)
Inductive value :=
  | VString (s : string)
  | VInt (n : Z)
  | VFloat (f : float64)
  | VBool (b : bool)
  | VNil
  | VCounts (m : gmap string Z)
  | VGroups (m : gmap string (gmap string value)).

Definition Record0 : Type := gmap string value.

(** [fmt.Sprintf("%v", v)] of the values whose format is not simple: floats and
    maps. *)
Class Formatter := fmt_v : value → string.

(** The group or join key of a value: a string as it is, others printed. *)
Definition key_of `{Formatter} (v : value) : string :=
  match v with
  | VString s => s
  | VInt n => String.string_of_list_byte (sprintf_d n)
  | VBool true => "true"
  | VBool false => "false"
  | VNil => "<nil>"
  | _ => fmt_v v
  end.

(** ** Map, filter and join *)

(** [Fn] returns nil for a record to drop. *)
Definition MapOperator (Fn : Record0 → option Record0) (inp : list Record0) : list Record0 :=
  omap Fn inp.

Definition FilterOperator (Pred : Record0 → bool) (inp : list Record0) : list Record0 :=
  filter (λ r, Pred r = true) inp.

Section operators.
Context `{Formatter}.

(** The fields of [r] win over those of [l]. *)
Definition merge_records (l r : Record0) : Record0 := r ∪ l.

Definition join_one (LeftKey : string) (RightMap : gmap string Record0) (l : Record0)
    : option Record0 :=
  let lk := match l !! LeftKey with Some v => key_of v | None => EmptyString end in
  match RightMap !! lk with Some r => Some (merge_records l r) | None => None end.

Definition JoinOperator (LeftKey : string) (RightMap : gmap string Record0)
    (inp : list Record0) : list Record0 :=
  omap (join_one LeftKey RightMap) inp.

(** ** Counting *)

(** [counts[s]++] *)
Definition incr (s : string) (counts : gmap string Z) : gmap string Z :=
  <[s := wrap64 (default 0 (counts !! s) + 1)]> counts.

Definition count_step (Key : string) (counts : gmap string Z) (r : Record0) : gmap string Z :=
  match r !! Key with Some v => incr (key_of v) counts | None => counts end.

Definition counts_record (counts : gmap string Z) : Record0 := {["counts"%string := VCounts counts]}.

Definition AggregateOperator (Key : string) (inp : list Record0) : list Record0 :=
  [counts_record (fold_left (count_step Key) inp ∅)].

(** The loop of [WindowAggregateOperator]. *)
Fixpoint windowLoop (Key : string) (WindowSize : Z) (inp : list Record0) (counts : gmap string Z)
    (seen : Z) : list Record0 :=
  match inp with
  | [] => if decide (counts = ∅) then [] else [counts_record counts]
  | r :: inp =>
      let counts := count_step Key counts r in
      let seen := wrap64 (seen + 1) in
      if (0 <? WindowSize) && (Z.rem seen WindowSize =? 0)
      then counts_record counts :: windowLoop Key WindowSize inp ∅ seen
      else windowLoop Key WindowSize inp counts seen
  end.
Definition WindowAggregateOperator (Key : string) (WindowSize : Z) (inp : list Record0)
    : list Record0 := windowLoop Key WindowSize inp ∅ 0.

(** ** Sums, averages and counts per group *)

Record AggSpec := MkAggSpec { Func : string; Field : string; Alias : string }.

Definition alias_of (spec : AggSpec) : string :=
  if bool_decide (Alias spec = EmptyString) then Func spec +:+ "_" +:+ Field spec else Alias spec.

(** [sums] and [counts]; both have the same groups. *)
Record AggState := MkAgg {
  sums : gmap string (gmap string float64);
  cnts : gmap string (gmap string Z) }.

Definition agg_empty : AggState := MkAgg ∅ ∅.

(** [sums[g][alias] += x; counts[g][alias]++] *)
Definition add_sum (g alias : string) (x : float64) (st : AggState) : AggState :=
  let s := default ∅ (sums st !! g) in
  let c := default ∅ (cnts st !! g) in
  MkAgg (<[g := <[alias := fadd (default fzero (s !! alias)) x]> s]> (sums st))
        (<[g := incr alias c]> (cnts st)).
Definition add_count (g alias : string) (st : AggState) : AggState :=
  MkAgg (sums st) (<[g := incr alias (default ∅ (cnts st !! g))]> (cnts st)).

(** The numeric value of a field. *)
Definition numeric (v : value) : option float64 :=
  match v with VInt n => Some (float_of_int n) | VFloat f => Some f | _ => None end.

(** The body of the loop over the specs. *)
Definition agg_spec (g : string) (r : Record0) (st : AggState) (spec : AggSpec) : AggState :=
  let alias := alias_of spec in
  if bool_decide (Func spec = "count"%string) then add_count g alias st
  else if bool_decide (Func spec = "sum"%string ∨ Func spec = "avg"%string) then
    match r !! Field spec with
    | None => st
    | Some v => match numeric v with Some x => add_sum g alias x st | None => st end
    end
  else st.

(** The body of the loop over the records. *)
Definition group_of (Key : string) (r : Record0) : string :=
  match r !! Key with Some v => key_of v | None => EmptyString end.
Definition agg_step (Key : string) (Aggs : list AggSpec) (st : AggState) (r : Record0) : AggState :=
  let g := group_of Key r in
  let st := match sums st !! g with
            | Some _ => st
            | None => MkAgg (<[g := ∅]> (sums st)) (<[g := ∅]> (cnts st))
            end in
  fold_left (agg_spec g r) Aggs st.

(** [isAvg] *)
Definition is_avg (Aggs : list AggSpec) (alias : string) : bool :=
  existsb (λ spec, bool_decide (alias_of spec = alias ∧ Func spec = "avg"%string)) Aggs.

(** One group of the result: the sums and averages, then the plain counts. *)
Definition group_result (Aggs : list AggSpec) (s : gmap string float64) (c : gmap string Z)
    : gmap string value :=
  let averaged := map_imap (λ alias sum,
    let n := default 0 (c !! alias) in
    Some (if n =? 0 then VFloat sum
          else if is_avg Aggs alias then VFloat (fdiv sum (float_of_int n)) else VFloat sum)) s in
  averaged ∪ (VInt <$> c).

Definition groups_record (Aggs : list AggSpec) (st : AggState) : Record0 :=
  {["groups"%string := VGroups (map_imap (λ g s,
     Some (group_result Aggs s (default ∅ (cnts st !! g)))) (sums st))]}.

Definition AggregateFuncsOperator (Key : string) (Aggs : list AggSpec) (inp : list Record0)
    : list Record0 := [groups_record Aggs (fold_left (agg_step Key Aggs) inp agg_empty)].

(** ** Time windows *)

(** What the [select] receives. *)
Inductive tw_event := TwRecord (r : Record0) | TwTick.

Definition flush (Aggs : list AggSpec) (st : AggState) : list Record0 * AggState :=
  if decide (sums st = ∅ ∧ cnts st = ∅) then ([], st) else ([groups_record Aggs st], agg_empty).

Fixpoint timeWindowLoop (Key : string) (Aggs : list AggSpec) (evs : list tw_event) (st : AggState)
    : list Record0 :=
  match evs with
  | [] => (flush Aggs st).1
  | TwRecord r :: evs => timeWindowLoop Key Aggs evs (agg_step Key Aggs st r)
  | TwTick :: evs => let '(out, st) := flush Aggs st in out ++ timeWindowLoop Key Aggs evs st
  end.

(** [time.NewTicker] panics when the duration is not positive; the product with
    [time.Millisecond] is one of int64. *)
Definition TimeWindowAggregateOperator (Key : string) (Aggs : list AggSpec) (Duration : Z)
    (evs : list tw_event) : option (list Record0) :=
  if wrap64 (Duration * 1000000) <=? 0 then None else Some (timeWindowLoop Key Aggs evs agg_empty).
End operators.

(** ** The runtime *)

Definition Operator : Type := list Record0 → list Record0.
Definition Run (ops : list Operator) (inp : list Record0) : list Record0 :=
  fold_left (λ ch op, op ch) ops inp.
