(* ===== verification/ProcessorFacts.v ===== *)
(** * What the stream operators compute

    Counting operators against the number of records per key, windows against
    the chunks of the stream, the aggregation functions against sums and
    averages over the records of a group, and the time window against the batch
    operator run on every interval between two ticks. *)

From Stdlib Require Import SpecFloat.
From S2P Require Import Prelude Encoding Processor.

Section facts.
Context `{Formatter}.

(** ** Counts *)

(** The records that carry [k] in their key field. *)
Definition carries (Key k : string) (r : Record0) : Prop := key_of <$> r !! Key = Some k.
#[global] Instance carries_dec Key k r : Decision (carries Key k r).
Proof. unfold carries; apply _. Defined.

Definition occurrences (Key k : string) (inp : list Record0) : Z :=
  Z.of_nat (length (filter (carries Key k) inp)).

Definition tally (Key : string) (inp : list Record0) : gmap string Z :=
  fold_left (count_step Key) inp ∅.

Definition counted (n : Z) : option Z := if decide (n = 0) then None else Some n.

Lemma wrap64_small n : 0 ≤ n < 2 ^ 63 → wrap64 n = n.
Proof. intros; apply wrap64_id; unfold int64; lia. Qed.

Lemma count_step_lookup Key counts r k n :
  0 ≤ n < 2 ^ 63 - 1 → counts !! k = counted n →
  count_step Key counts r !! k = counted (n + if decide (carries Key k r) then 1 else 0).
Proof.
  intros Hn Hk. unfold count_step.
  destruct (decide (carries Key k r)) as [Hc|Hc]; unfold carries in Hc;
    destruct (r !! Key) as [v|]; cbn [fmap option_fmap option_map] in Hc; try done.
  - injection Hc as Hc. unfold incr. rewrite Hc, lookup_insert_eq, Hk.
    replace (default 0 (counted n)) with n by (unfold counted; case_decide; simpl; lia).
    rewrite wrap64_small by lia. unfold counted. rewrite decide_False by lia. done.
  - unfold incr. rewrite lookup_insert_ne by congruence. rewrite Hk. f_equal; lia.
  - rewrite Hk. f_equal; lia.
Qed.

Lemma fold_count_lookup Key inp : ∀ counts k n,
  0 ≤ n → n + Z.of_nat (length inp) < 2 ^ 63 → counts !! k = counted n →
  fold_left (count_step Key) inp counts !! k = counted (n + occurrences Key k inp).
Proof.
  unfold occurrences. induction inp as [|r inp IH]; intros counts k n Hn Hlen Hk.
  - cbn. rewrite Hk. f_equal; lia.
  - cbn [fold_left]. cbn [length] in Hlen.
    erewrite (IH _ k); [|..|apply (count_step_lookup Key counts r k n)]; try done;
      [|case_decide; lia..|lia].
    rewrite filter_cons. case_decide; cbn [length]; f_equal; lia.
Qed.

Lemma tally_lookup Key inp k :
  Z.of_nat (length inp) < 2 ^ 63 → tally Key inp !! k = counted (occurrences Key k inp).
Proof.
  intros Hlen. unfold tally. rewrite (fold_count_lookup Key inp ∅ k 0); try lia.
  - f_equal; lia.
  - rewrite lookup_empty. reflexivity.
Qed.

(** ** Count windows *)

(** The stream cut into runs of [n] records; the last may be shorter. *)
Fixpoint chunks_fuel (fuel n : nat) (inp : list Record0) : list (list Record0) :=
  match fuel, inp with
  | O, _ | _, [] => []
  | S fuel, _ => take n inp :: chunks_fuel fuel n (drop n inp)
  end.
Definition chunks (n : nat) (inp : list Record0) : list (list Record0) :=
  chunks_fuel (length inp) n inp.

(** A full chunk is always emitted, the last partial one when it counted
    something. *)
Definition emitted (Key : string) (n : nat) (c : list Record0) : bool :=
  bool_decide (length c = n ∨ tally Key c ≠ ∅).

Definition window_spec (Key : string) (n : nat) (inp : list Record0) : list Record0 :=
  (λ c, counts_record (tally Key c)) <$> filter (λ c, emitted Key n c = true) (chunks n inp).

Lemma chunks_fuel_irrel n : (0 < n)%nat → ∀ f1 f2 inp,
  (length inp ≤ f1)%nat → (length inp ≤ f2)%nat → chunks_fuel f1 n inp = chunks_fuel f2 n inp.
Proof.
  intros Hn. induction f1 as [|f1 IH]; intros f2 inp H1 H2.
  - destruct inp; [|cbn in H1; lia]. destruct f2; done.
  - destruct inp as [|r inp]; [destruct f2; done|].
    destruct f2 as [|f2]; [cbn in H2; lia|]. cbn [chunks_fuel]. f_equal.
    apply IH; rewrite length_drop; cbn [length] in *; lia.
Qed.

Lemma chunks_app n c inp :
  (0 < n)%nat → length c = n → chunks n (c ++ inp) = c :: chunks n inp.
Proof.
  intros Hn Hc. unfold chunks. rewrite length_app, Hc.
  destruct (n + length inp)%nat as [|f] eqn:Hf; [lia|].
  assert (c ++ inp ≠ []) as Hne by (destruct c; [cbn in Hc; lia|done]).
  destruct (c ++ inp) as [|x l] eqn:Hci; [done|]. cbn [chunks_fuel]. rewrite <- Hci.
  rewrite take_app_length', drop_app_length' by done. f_equal.
  apply chunks_fuel_irrel; lia.
Qed.

Lemma chunks_short n c :
  (0 < length c < n)%nat → chunks n c = [c].
Proof.
  intros Hc. unfold chunks. destruct c as [|r c]; [cbn in Hc; lia|].
  cbn [length chunks_fuel]. rewrite take_ge, drop_ge by (cbn in *; lia).
  destruct (length c); done.
Qed.

Lemma chunks_concat n inp : (0 < n)%nat → concat (chunks n inp) = inp.
Proof.
  intros Hn. unfold chunks. generalize (reflexivity (R := le) (length inp)).
  generalize (length inp) at 2 3. intros f; revert inp.
  induction f as [|f IH]; intros [|r inp] Hf; try done; [cbn in Hf; lia|].
  cbn [chunks_fuel concat]. rewrite IH by (rewrite length_drop; cbn [length] in *; lia).
  apply take_drop.
Qed.

Lemma windowLoop_spec Key n inp : ∀ done cur,
  (0 < n)%nat → (length cur < n)%nat → Z.of_nat n < 2 ^ 63 →
  Z.of_nat (done * n + length cur + length inp) < 2 ^ 63 →
  windowLoop Key (Z.of_nat n) inp (tally Key cur) (Z.of_nat (done * n + length cur))
    = window_spec Key n (cur ++ inp).
Proof.
  induction inp as [|r inp IH]; intros d cur Hn Hcur Hn' Hlen.
  - rewrite app_nil_r. cbn [windowLoop]. unfold window_spec.
    destruct (decide (cur = [])) as [->|Hne].
    { case_decide as Hd; [done|]. destruct Hd. reflexivity. }
    rewrite chunks_short by (destruct cur; [done|cbn [length] in *; lia]).
    rewrite filter_cons, filter_nil. unfold emitted.
    case_decide as Hd.
    + rewrite decide_False; [done|]. rewrite bool_decide_eq_true. intros [?|?]; [lia|done].
    + rewrite decide_True; [done|]. rewrite bool_decide_eq_true. by right.
  - cbn [windowLoop]. cbn [length] in Hlen.
    replace (count_step Key (tally Key cur) r) with (tally Key (cur ++ [r]))
      by (unfold tally; rewrite fold_left_app; reflexivity).
    rewrite wrap64_small by lia.
    replace (Z.of_nat (d * n + length cur) + 1) with (Z.of_nat (d * n + length (cur ++ [r])))
      by (rewrite length_app; cbn [length]; lia).
    replace (0 <? Z.of_nat n) with true by lia. cbn [andb].
    rewrite Z.rem_mod_nonneg by lia. rewrite <- Nat2Z.inj_mod, Nat.add_comm, Nat.Div0.mod_add.
    replace (cur ++ r :: inp) with ((cur ++ [r]) ++ inp) by (rewrite <- app_assoc; done).
    assert (length (cur ++ [r]) = S (length cur)) as Hl by (rewrite length_app; cbn [length]; lia).
    destruct (decide (S (length cur) = n)) as [Heq|Hne].
    + rewrite Hl, Heq, Nat.Div0.mod_same. cbn [Z.eqb Z.of_nat].
      unfold window_spec at 1. rewrite (chunks_app n (cur ++ [r]) inp) by (try lia; congruence).
      rewrite filter_cons, decide_True
        by (unfold emitted; apply bool_decide_eq_true; left; congruence).
      rewrite fmap_cons. f_equal.
      pose proof (IH (S d) [] Hn ltac:(cbn; lia) Hn') as IH'.
      cbn [length app] in IH'.
      replace (S d * n + 0)%nat with (n + d * n)%nat in IH' by lia.
      etransitivity; [|apply IH'; lia]. reflexivity.
    + rewrite Nat.mod_small by lia.
      replace (Z.of_nat (length (cur ++ [r])) =? 0) with false by lia.
      rewrite Nat.add_comm. apply IH; rewrite ?Hl; lia.
Qed.

Lemma windowLoop_unbounded Key n inp : n ≤ 0 → ∀ counts seen,
  windowLoop Key n inp counts seen
    = let c := fold_left (count_step Key) inp counts in
      if decide (c = ∅) then [] else [counts_record c].
Proof.
  intros Hn. induction inp as [|r inp IH]; intros counts seen; [done|].
  cbn [windowLoop fold_left]. replace (0 <? n) with false by lia. cbn [andb]. apply IH.
Qed.

(** ** Groups *)

Definition cells : Type := gmap string float64 * gmap string Z.

(** The state of one group. *)
Definition group_is (st : AggState) (g : string) (o : option cells) : Prop :=
  sums st !! g = fst <$> o ∧ cnts st !! g = snd <$> o.

(** One spec on one record, inside its group. *)
Definition cells_step (r : Record0) (p : cells) (spec : AggSpec) : cells :=
  let alias := alias_of spec in
  if bool_decide (Func spec = "count"%string) then (p.1, incr alias p.2)
  else if bool_decide (Func spec = "sum"%string ∨ Func spec = "avg"%string) then
    match r !! Field spec ≫= numeric with
    | Some x => (<[alias := fadd (default fzero (p.1 !! alias)) x]> p.1, incr alias p.2)
    | None => p
    end
  else p.

Lemma agg_spec_same g r st spec p :
  group_is st g (Some p) → group_is (agg_spec g r st spec) g (Some (cells_step r p spec)).
Proof.
  intros [Hs Hc]. unfold agg_spec, cells_step, group_is.
  case_bool_decide; [|case_bool_decide]; try done.
  - unfold add_count; cbn. rewrite Hs, Hc. by rewrite lookup_insert_eq.
  - destruct (r !! Field spec) as [v|]; cbn; [|done].
    destruct (numeric v) as [x|]; cbn; [|done].
    rewrite Hs, Hc; cbn. by rewrite !lookup_insert_eq.
Qed.

Lemma agg_spec_other g g' r st spec o :
  g ≠ g' → group_is st g' o → group_is (agg_spec g r st spec) g' o.
Proof.
  intros Hne [Hs Hc]. unfold agg_spec, group_is.
  case_bool_decide; [|case_bool_decide]; try done.
  - cbn. by rewrite lookup_insert_ne.
  - destruct (r !! Field spec) as [v|]; [|done].
    destruct (numeric v) as [x|]; cbn; [|done]. by rewrite !lookup_insert_ne.
Qed.

Lemma fold_agg_same g r specs : ∀ st p,
  group_is st g (Some p) →
  group_is (fold_left (agg_spec g r) specs st) g (Some (fold_left (cells_step r) specs p)).
Proof.
  induction specs as [|spec specs IH]; intros st p Hp; [done|].
  apply IH, agg_spec_same, Hp.
Qed.

Lemma fold_agg_other g g' r specs : ∀ st o,
  g ≠ g' → group_is st g' o → group_is (fold_left (agg_spec g r) specs st) g' o.
Proof.
  induction specs as [|spec specs IH]; intros st o Hne Ho; [done|].
  apply IH; [done|]. by apply agg_spec_other.
Qed.

Definition cells_record (Aggs : list AggSpec) (p : cells) (r : Record0) : cells :=
  fold_left (cells_step r) Aggs p.

Lemma agg_step_group Key Aggs st r g o :
  group_is st g o →
  group_is (agg_step Key Aggs st r) g
    (if decide (group_of Key r = g) then Some (cells_record Aggs (default (∅, ∅) o) r) else o).
Proof.
  intros [Hs Hc]. unfold agg_step. case_decide as Hg.
  - rewrite Hg. apply fold_agg_same. rewrite Hs.
    destruct o as [p|]; cbn; [done|]. unfold group_is; cbn. by rewrite !lookup_insert_eq.
  - apply fold_agg_other; [done|]. destruct (sums st !! group_of Key r); [done|].
    unfold group_is; cbn. by rewrite !lookup_insert_ne.
Qed.

(** The records of a group. *)
Definition in_group (Key g : string) (inp : list Record0) : list Record0 :=
  filter (λ r, group_of Key r = g) inp.

Definition group_cells (Aggs : list AggSpec) (o : option cells) (rs : list Record0)
    : option cells :=
  match rs with
  | [] => o
  | _ => Some (fold_left (cells_record Aggs) rs (default (∅, ∅) o))
  end.

Lemma agg_fold_group Key Aggs inp g : ∀ st o,
  group_is st g o →
  group_is (fold_left (agg_step Key Aggs) inp st) g (group_cells Aggs o (in_group Key g inp)).
Proof.
  unfold in_group. induction inp as [|r inp IH]; intros st o Ho; [done|].
  cbn [fold_left]. specialize (IH _ _ (agg_step_group Key Aggs st r g o Ho)).
  rewrite filter_cons. destruct (decide (group_of Key r = g)); [|done].
  unfold group_cells in *. cbn [fold_left default].
  by destruct (filter _ inp).
Qed.

(** ** One output column of a group *)

Definition cell (p : cells) (a : string) : option float64 * option Z := (p.1 !! a, p.2 !! a).

Definition bump (n : option Z) : option Z := Some (wrap64 (default 0 n + 1)).

Definition cell_step (spec : AggSpec) (c : option float64 * option Z) (r : Record0)
    : option float64 * option Z :=
  if bool_decide (Func spec = "count"%string) then (c.1, bump c.2)
  else if bool_decide (Func spec = "sum"%string ∨ Func spec = "avg"%string) then
    match r !! Field spec ≫= numeric with
    | Some x => (Some (fadd (default fzero c.1) x), bump c.2)
    | None => c
    end
  else c.

Lemma cells_step_cell r p spec a :
  cell (cells_step r p spec) a
    = if decide (alias_of spec = a) then cell_step spec (cell p a) r else cell p a.
Proof.
  unfold cells_step, cell_step, cell, incr, bump.
  case_decide as Ha; [rewrite <- Ha|]; case_bool_decide; try case_bool_decide;
    try destruct (r !! Field spec ≫= numeric); cbn;
    by rewrite ?lookup_insert_eq, ?lookup_insert_ne by done.
Qed.

Lemma cells_record_absent Aggs r a : ∀ p,
  a ∉ alias_of <$> Aggs → cell (cells_record Aggs p r) a = cell p a.
Proof.
  unfold cells_record. induction Aggs as [|sp Aggs IH]; intros p Ha; [done|].
  rewrite fmap_cons, not_elem_of_cons in Ha. destruct Ha as [Ha1 Ha2].
  cbn [fold_left]. rewrite IH by done. rewrite cells_step_cell.
  by rewrite decide_False.
Qed.

Lemma cells_record_cell Aggs r spec : ∀ p,
  NoDup (alias_of <$> Aggs) → spec ∈ Aggs →
  cell (cells_record Aggs p r) (alias_of spec) = cell_step spec (cell p (alias_of spec)) r.
Proof.
  induction Aggs as [|sp Aggs IH]; intros p Hnd Hin; [by apply elem_of_nil in Hin|].
  rewrite fmap_cons, NoDup_cons in Hnd. destruct Hnd as [Hsp Hnd].
  change (cells_record (sp :: Aggs) p r) with (cells_record Aggs (cells_step r p sp) r).
  apply elem_of_cons in Hin as [->|Hin].
  - rewrite cells_record_absent by done. rewrite cells_step_cell. by rewrite decide_True.
  - rewrite IH by done. rewrite cells_step_cell. rewrite decide_False; [done|].
    intros Heq. apply Hsp. rewrite Heq. by apply list_elem_of_fmap_2.
Qed.

Lemma records_cell Aggs spec rs : ∀ p,
  NoDup (alias_of <$> Aggs) → spec ∈ Aggs →
  cell (fold_left (cells_record Aggs) rs p) (alias_of spec)
    = fold_left (cell_step spec) rs (cell p (alias_of spec)).
Proof.
  induction rs as [|r rs IH]; intros p Hnd Hin; [done|].
  cbn [fold_left]. rewrite IH by done. by rewrite cells_record_cell.
Qed.

Lemma records_cell_absent Aggs a rs : ∀ p,
  a ∉ alias_of <$> Aggs →
  cell (fold_left (cells_record Aggs) rs p) a = cell p a.
Proof.
  induction rs as [|r rs IH]; intros p Ha; [done|].
  cbn [fold_left]. rewrite IH by done. by apply cells_record_absent.
Qed.

(** The numbers a spec reads. *)
Definition numbers (spec : AggSpec) (rs : list Record0) : list float64 :=
  omap (λ r, r !! Field spec ≫= numeric) rs.

Definition total (xs : list float64) : float64 := fold_left fadd xs fzero.

Definition some_if {A} (n : nat) (x : A) : option A := if decide (n = 0%nat) then None else Some x.

Lemma bump_some_if n :
  Z.of_nat n < 2 ^ 63 - 1 → bump (some_if n (Z.of_nat n)) = some_if (S n) (Z.of_nat (S n)).
Proof.
  intros Hn. unfold bump, some_if. rewrite (decide_False (P := S n = 0%nat)) by lia.
  f_equal. rewrite <- (wrap64_small (Z.of_nat (S n))) by lia. f_equal.
  case_decide; cbn; lia.
Qed.

Lemma count_cell spec rs : ∀ n,
  Func spec = "count"%string → Z.of_nat (n + length rs) < 2 ^ 63 →
  fold_left (cell_step spec) rs (None, some_if n (Z.of_nat n))
    = (None, some_if (n + length rs) (Z.of_nat (n + length rs))).
Proof.
  induction rs as [|r rs IH]; intros n Hf Hlen; cbn [fold_left length].
  - by rewrite Nat.add_0_r.
  - cbn [length] in Hlen. unfold cell_step at 2. rewrite bool_decide_true by done. cbn.
    rewrite bump_some_if by lia. rewrite IH by (done || lia). by rewrite <- plus_n_Sm.
Qed.

Lemma sum_cell spec rs : ∀ xs,
  Func spec = "sum"%string ∨ Func spec = "avg"%string →
  Z.of_nat (length xs + length rs) < 2 ^ 63 →
  fold_left (cell_step spec) rs
      (some_if (length xs) (total xs), some_if (length xs) (Z.of_nat (length xs)))
    = let ys := xs ++ numbers spec rs in
      (some_if (length ys) (total ys), some_if (length ys) (Z.of_nat (length ys))).
Proof.
  unfold numbers. induction rs as [|r rs IH]; intros xs Hf Hlen.
  - cbn. by rewrite app_nil_r.
  - cbn [fold_left]. cbn [length] in Hlen. unfold cell_step at 2.
    rewrite bool_decide_false by (destruct Hf as [Hf|Hf]; rewrite Hf; done).
    rewrite bool_decide_true by done. cbn [omap list_omap].
    destruct (r !! Field spec ≫= numeric) as [x|]; [|apply IH; [done|lia]].
    cbn [fst snd]. rewrite bump_some_if by lia.
    assert (length (xs ++ [x]) = S (length xs)) as Hl by (rewrite length_app; cbn; lia).
    replace (Some (fadd (default fzero (some_if (length xs) (total xs))) x))
      with (some_if (length (xs ++ [x])) (total (xs ++ [x]))).
    2:{ rewrite Hl. unfold some_if at 1. rewrite decide_False by lia. f_equal.
        unfold total. rewrite fold_left_app. cbn. f_equal.
        unfold some_if. case_decide as H0; [|done].
        by apply nil_length_inv in H0 as ->. }
    rewrite <- Hl. cbn [snd]. rewrite IH by (done || lia). cbn zeta.
    by rewrite <- app_assoc.
Qed.

Lemma count_cell_0 spec rs :
  Func spec = "count"%string → Z.of_nat (length rs) < 2 ^ 63 →
  fold_left (cell_step spec) rs (None, None)
    = (None, some_if (length rs) (Z.of_nat (length rs))).
Proof. intros Hf Hlen. exact (count_cell spec rs 0 Hf Hlen). Qed.

Lemma sum_cell_0 spec rs :
  Func spec = "sum"%string ∨ Func spec = "avg"%string → Z.of_nat (length rs) < 2 ^ 63 →
  fold_left (cell_step spec) rs (None, None)
    = let ys := numbers spec rs in
      (some_if (length ys) (total ys), some_if (length ys) (Z.of_nat (length ys))).
Proof. intros Hf Hlen. exact (sum_cell spec rs [] Hf Hlen). Qed.

Lemma other_cell spec rs c :
  Func spec ≠ "count"%string → Func spec ≠ "sum"%string → Func spec ≠ "avg"%string →
  fold_left (cell_step spec) rs c = c.
Proof.
  intros H1 H2 H3. revert c. induction rs as [|r rs IH]; intros c; [done|].
  cbn [fold_left]. rewrite IH. unfold cell_step.
  rewrite !bool_decide_false; naive_solver.
Qed.

(** The value a spec promises for the records of a group. *)
Definition agg_value (spec : AggSpec) (rs : list Record0) : option value :=
  let xs := numbers spec rs in
  if bool_decide (Func spec = "count"%string) then some_if (length rs) (VInt (Z.of_nat (length rs)))
  else if bool_decide (Func spec = "sum"%string) then some_if (length xs) (VFloat (total xs))
  else if bool_decide (Func spec = "avg"%string)
       then some_if (length xs) (VFloat (fdiv (total xs) (float_of_int (Z.of_nat (length xs)))))
  else None.

(** What is printed of a cell. *)
Definition cell_value (avg : bool) (c : option float64 * option Z) : option value :=
  match c.1 with
  | Some s =>
      let n := default 0 c.2 in
      Some (if n =? 0 then VFloat s else if avg then VFloat (fdiv s (float_of_int n)) else VFloat s)
  | None => VInt <$> c.2
  end.

Lemma group_result_cell Aggs p a :
  group_result Aggs p.1 p.2 !! a = cell_value (is_avg Aggs a) (cell p a).
Proof.
  unfold group_result, cell_value, cell. cbn [fst snd].
  rewrite lookup_union, map_lookup_imap, lookup_fmap.
  destruct (p.1 !! a); cbn; [by destruct (p.2 !! a)|]. by destruct (p.2 !! a).
Qed.

Lemma is_avg_spec Aggs spec :
  NoDup (alias_of <$> Aggs) → spec ∈ Aggs →
  is_avg Aggs (alias_of spec) = bool_decide (Func spec = "avg"%string).
Proof.
  induction Aggs as [|sp Aggs IH]; intros Hnd Hin; [by apply elem_of_nil in Hin|].
  rewrite fmap_cons, NoDup_cons in Hnd. destruct Hnd as [Hsp Hnd].
  cbn [is_avg existsb]. apply elem_of_cons in Hin as [->|Hin].
  - destruct (existsb _ Aggs) eqn:He.
    + apply existsb_exists in He as (s2 & Hs2 & Heq%bool_decide_eq_true).
      destruct Hsp. destruct Heq as [<- _]. apply list_elem_of_fmap_2.
      by apply list_elem_of_In.
    + rewrite orb_false_r. apply bool_decide_ext. naive_solver.
  - rewrite (bool_decide_false (alias_of sp = _ ∧ _)); [by apply IH|].
    intros [Heq _]. apply Hsp. rewrite Heq. by apply list_elem_of_fmap_2.
Qed.

Lemma spec_cell_value Aggs spec rs :
  NoDup (alias_of <$> Aggs) → spec ∈ Aggs → Z.of_nat (length rs) < 2 ^ 63 →
  cell_value (is_avg Aggs (alias_of spec)) (fold_left (cell_step spec) rs (None, None))
    = agg_value spec rs.
Proof.
  intros Hnd Hin Hlen. rewrite is_avg_spec by done. unfold agg_value.
  destruct (decide (Func spec = "count"%string)) as [Hc|Hc].
  { rewrite (bool_decide_true _ Hc), (count_cell_0 spec rs Hc Hlen).
    unfold cell_value, some_if. cbn. by destruct (length rs). }
  rewrite (bool_decide_false _ Hc).
  destruct (decide (Func spec = "sum"%string)) as [Hs|Hs].
  { rewrite (bool_decide_true _ Hs), (sum_cell_0 spec rs (or_introl Hs) Hlen).
    unfold cell_value, some_if. cbn. rewrite bool_decide_false by (by rewrite Hs).
    case_decide; [done|]. cbn. by case_match. }
  rewrite (bool_decide_false _ Hs).
  destruct (decide (Func spec = "avg"%string)) as [Ha|Ha].
  - rewrite (bool_decide_true _ Ha), (sum_cell_0 spec rs (or_intror Ha) Hlen).
    unfold cell_value, some_if. cbn.
    case_decide; [done|]. cbn. by destruct (length (numbers spec rs)).
  - by rewrite (bool_decide_false _ Ha), other_cell.
Qed.

(** ** Time windows *)

(** The records between two ticks. *)
Fixpoint intervals (evs : list tw_event) (cur : list Record0) : list (list Record0) :=
  match evs with
  | [] => [cur]
  | TwRecord r :: evs => intervals evs (cur ++ [r])
  | TwTick :: evs => cur :: intervals evs []
  end.

Lemma fold_agg_spec_nonempty g r specs : ∀ st,
  is_Some (sums st !! g) → is_Some (sums (fold_left (agg_spec g r) specs st) !! g).
Proof.
  induction specs as [|spec specs IH]; intros st Hst; [done|].
  cbn [fold_left]. apply IH. unfold agg_spec.
  case_bool_decide; [done|]. case_bool_decide; [|done].
  destruct (r !! Field spec) as [v|]; [|done].
  destruct (numeric v); [|done]. cbn. by rewrite lookup_insert_eq.
Qed.

Lemma agg_step_nonempty Key Aggs st r : sums (agg_step Key Aggs st r) ≠ ∅.
Proof.
  intros He. unfold agg_step in He.
  eassert (is_Some (sums _ !! group_of Key r)) as [x Hx];
    [|rewrite He, lookup_empty in Hx; discriminate].
  apply fold_agg_spec_nonempty. destruct (sums st !! group_of Key r) eqn:Hg; [by rewrite Hg|].
  cbn. by rewrite lookup_insert_eq.
Qed.

Lemma agg_batch_nonempty Key Aggs rs :
  rs ≠ [] → sums (fold_left (agg_step Key Aggs) rs agg_empty) ≠ ∅.
Proof.
  destruct rs as [|r rs _] using rev_ind; [done|]. intros _.
  rewrite fold_left_app. apply agg_step_nonempty.
Qed.

Lemma flush_batch Key Aggs rs :
  flush Aggs (fold_left (agg_step Key Aggs) rs agg_empty)
    = (if decide (rs = []) then [] else AggregateFuncsOperator Key Aggs rs, agg_empty).
Proof.
  unfold flush. destruct (decide (rs = [])) as [Hr|Hr].
  - subst rs. by rewrite decide_True.
  - rewrite decide_False; [done|]. intros [Hs _]. by apply (agg_batch_nonempty Key Aggs rs).
Qed.

Lemma timeWindowLoop_spec Key Aggs evs : ∀ cur,
  timeWindowLoop Key Aggs evs (fold_left (agg_step Key Aggs) cur agg_empty)
    = filter (λ rs, rs ≠ []) (intervals evs cur) ≫= AggregateFuncsOperator Key Aggs.
Proof.
  induction evs as [|[r|] evs IH]; intros cur; cbn [timeWindowLoop intervals].
  - rewrite flush_batch, filter_cons. cbn [fst].
    case_decide as H1; case_decide as H2; try done; naive_solver.
  - rewrite <- IH. by rewrite fold_left_app.
  - rewrite flush_batch, filter_cons.
    pose proof (IH []) as IH0. cbn [fold_left] in IH0. rewrite IH0.
    case_decide as H1; case_decide as H2; try done; naive_solver.
Qed.

Lemma chunks_lengths n inp : (0 < n)%nat → ∀ i c,
  chunks n inp !! i = Some c →
  (length c ≤ n)%nat ∧ (S i < length (chunks n inp) → length c = n)%nat.
Proof.
  intros Hn. unfold chunks. generalize (length inp) at 1 2. intros f; revert inp.
  induction f as [|f IH]; intros [|r inp] i c Hc; try done.
  cbn [chunks_fuel] in Hc |- *. destruct i as [|i]; cbn in Hc.
  - injection Hc as <-. rewrite length_take. split; [lia|].
    cbn [length]. intros Hi. destruct (drop n (r :: inp)) as [|x l] eqn:Hd.
    { destruct f; cbn in Hi; lia. }
    assert (length (drop n (r :: inp)) = S (length l)) as Hl by (rewrite Hd; done).
    rewrite length_drop in Hl. cbn [length] in *. lia.
  - apply IH in Hc as [Hc1 Hc2]. split; [done|]. cbn [length]. intros Hi. apply Hc2. lia.
Qed.

Lemma intervals_concat evs : ∀ cur,
  concat (intervals evs cur) = cur ++ omap (λ e, match e with TwRecord r => Some r | TwTick => None end) evs.
Proof.
  induction evs as [|[r|] evs IH]; intros cur; cbn [intervals omap list_omap concat].
  - by rewrite !app_nil_r.
  - rewrite IH, <- app_assoc. done.
  - by rewrite IH.
Qed.

(** C24: A count window emits the counts of every run of [WindowSize] records of
    the stream, and of the shorter rest when it counted anything; the counts
    are the numbers of records with each key.  The runs cover the stream, in
    order, without overlap.  A window size that is not positive gives one
    window at the end, the one [AggregateOperator] emits. *)
Theorem window_aggregate_exact Key n inp :
  0 < n < 2 ^ 63 → Z.of_nat (length inp) < 2 ^ 63 →
  let cs := chunks (Z.to_nat n) inp in
  WindowAggregateOperator Key n inp = window_spec Key (Z.to_nat n) inp ∧
  concat cs = inp ∧
  (∀ i c, cs !! i = Some c →
     Z.of_nat (length c) ≤ n ∧ ((S i < length cs)%nat → Z.of_nat (length c) = n)) ∧
  (∀ c k, c ∈ inp :: cs → tally Key c !! k = counted (occurrences Key k c)) ∧
  (∀ n', n' ≤ 0 →
     WindowAggregateOperator Key n' inp
       = if decide (tally Key inp = ∅) then [] else AggregateOperator Key inp).
Proof.
  intros Hn Hlen cs. assert (0 < Z.to_nat n)%nat as Hn' by lia. repeat split.
  - pose proof (windowLoop_spec Key (Z.to_nat n) inp 0 [] Hn' ltac:(cbn; lia)) as Hw.
    cbn [length app Nat.mul Nat.add] in Hw. rewrite Z2Nat.id in Hw by lia. apply Hw; lia.
  - by apply chunks_concat.
  - apply (chunks_lengths _ _ Hn') in H0 as [? _]. lia.
  - intros Hi. apply (chunks_lengths _ _ Hn') in H0 as [_ Hl]. apply Hl in Hi. lia.
  - intros c k Hc. apply tally_lookup.
    enough (length c ≤ length inp)%nat by lia.
    apply elem_of_cons in Hc as [->|Hc]; [done|].
    apply list_elem_of_split in Hc as (l1 & l2 & Hc).
    rewrite <- (chunks_concat (Z.to_nat n) inp Hn') at 1. fold cs. rewrite Hc.
    rewrite concat_app, length_app. cbn [concat]. rewrite length_app. lia.
  - intros n' Hle. by apply windowLoop_unbounded.
Qed.

(** C23: The grouped aggregation returns one row for every group that occurs;
    with distinct column names, a count column is the number of records of the
    group, a sum column the floating-point sum of its numbers in order of
    arrival, an average column that sum over their number, and there is no
    other column. *)
Theorem aggregate_funcs_exact Key Aggs inp :
  NoDup (alias_of <$> Aggs) → Z.of_nat (length inp) < 2 ^ 63 →
  ∃ groups, AggregateFuncsOperator Key Aggs inp = [{["groups"%string := VGroups groups]}] ∧
  ∀ g, match in_group Key g inp with
       | [] => groups !! g = None
       | rs => ∃ row, groups !! g = Some row ∧
                 (∀ spec, spec ∈ Aggs → row !! alias_of spec = agg_value spec rs) ∧
                 (∀ a, a ∉ alias_of <$> Aggs → row !! a = None)
       end.
Proof.
  intros Hnd Hlen. eexists; split; [reflexivity|]. intros g. rewrite map_lookup_imap.
  destruct (agg_fold_group Key Aggs inp g agg_empty None) as [Hs Hc]; [done|].
  rewrite Hs. assert (length (in_group Key g inp) ≤ length inp)%nat as Hle by apply length_filter.
  destruct (in_group Key g inp) as [|r rs] eqn:Hg; [done|].
  cbn [group_cells fmap option_fmap option_map default] in *.
  set (p := fold_left (cells_record Aggs) (r :: rs) (∅, ∅)) in *.
  cbn [mbind option_bind]. eexists; split; [reflexivity|]. rewrite Hc. cbn [default from_option id].
  split; [intros spec Hin|intros a Ha]; rewrite group_result_cell; subst p.
  - rewrite records_cell by done. apply spec_cell_value; [done..|lia].
  - rewrite records_cell_absent by done. done.
Qed.

(** C10: A time window emits, for every interval between two ticks in which a
    record arrived, exactly what the batch operator emits for the records of
    the interval; the intervals partition the records received.  A duration
    whose nanoseconds are not positive panics. *)
Theorem time_window_is_batch Key Aggs Duration evs :
  TimeWindowAggregateOperator Key Aggs Duration evs
    = (if decide (0 < wrap64 (Duration * 1000000))
       then Some (filter (λ rs, rs ≠ []) (intervals evs []) ≫= AggregateFuncsOperator Key Aggs)
       else None) ∧
  concat (intervals evs [])
    = omap (λ e, match e with TwRecord r => Some r | TwTick => None end) evs.
Proof.
  split; [|apply intervals_concat]. unfold TimeWindowAggregateOperator.
  destruct (decide _).
  - replace (wrap64 (Duration * 1000000) <=? 0) with false by lia. f_equal.
    exact (timeWindowLoop_spec Key Aggs evs []).
  - by replace (wrap64 (Duration * 1000000) <=? 0) with true by lia.
Qed.
End facts.

(** ** Witnesses *)

#[local] Instance fmt0 : Formatter := λ _, "?"%string.

Definition user (u : string) (n : Z) : Record0 := {["user"%string := VString u; "n"%string := VInt n]}.
Definition stream0 : list Record0 := [user "a" 1; user "b" 2; user "a" 4; user "c" 8; user "a" 16].

Lemma window_aggregate_exact_witness :
  WindowAggregateOperator "user" 2 stream0
    = [counts_record {["a"%string := 1; "b"%string := 1]};
       counts_record {["a"%string := 1; "c"%string := 1]};
       counts_record {["a"%string := 1]}] ∧
  tally "user" stream0 !! "a"%string = Some 3.
Proof.
  destruct (window_aggregate_exact "user" 2 stream0) as (Hw & _ & _ & Ht & _); [lia|vm_compute; done|].
  split; [rewrite Hw; vm_compute; reflexivity|].
  rewrite Ht; [vm_compute; reflexivity|apply list_elem_of_here].
Defined.

Lemma aggregate_funcs_exact_witness :
  ∃ groups row, AggregateFuncsOperator "user" [MkAggSpec "avg" "n" "m"; MkAggSpec "count" "" "c"] stream0
      = [{["groups"%string := VGroups groups]}] ∧
    groups !! "a"%string = Some row ∧ row !! "c"%string = Some (VInt 3) ∧
    row !! "m"%string = Some (VFloat (float_of_int 7)).
Proof.
  destruct (aggregate_funcs_exact "user" [MkAggSpec "avg" "n" "m"; MkAggSpec "count" "" "c"] stream0)
    as (groups & Hout & Hg).
  - apply (bool_decide_unpack _). vm_compute. done.
  - vm_compute. done.
  - specialize (Hg "a"%string).
    replace (in_group "user" "a" stream0) with [user "a" 1; user "a" 4; user "a" 16] in Hg
      by (vm_compute; reflexivity).
    destruct Hg as (row & Hrow & Hval & _). exists groups, row. repeat split; [done..| |].
    + etransitivity; [apply (Hval (MkAggSpec "count" "" "c")); set_solver|vm_compute; reflexivity].
    + etransitivity; [apply (Hval (MkAggSpec "avg" "n" "m")); set_solver|vm_compute; reflexivity].
Defined.
