(* ===== verification/Windows.v ===== *)
(** * Event-time windows, watermarks and patterns ([src/processor/advanced_streaming.go])

    Instants are nanoseconds since the zero [time.Time]; all of one location, so
    that equal instants are equal map keys.  [sort.Slice] is any function that
    permutes the slice into time order: it need not be stable.  It works in
    place, so the functions that sort also return the caller's slice. *)

From Stdlib Require Import SpecFloat.
From S2P Require Import Prelude Encoding Processor.

Record TimedRecord := MkTimed { At : Z; Rec : Record0 }.

(** ** Instants and durations *)

(** [t.Truncate(d)] *)
Definition Truncate (t d : Z) : Z := if d <=? 0 then t else t - t mod d.

(** [t.Sub(u)], which saturates. *)
Definition Sub (t u : Z) : Z := Z.max (- 2 ^ 63) (Z.min (2 ^ 63 - 1) (t - u)).

(** [sort.Slice] by [Before]. *)
Class TimeSort := {
  sort_times : list TimedRecord → list TimedRecord;
  sort_times_perm l : sort_times l ≡ₚ l;
  sort_times_sorted l : StronglySorted (λ a b, At a ≤ At b) (sort_times l) }.

(** ** Windows *)

(** [out[b] = append(out[b], r)] *)
Definition push (out : gmap Z (list Record0)) (b : Z) (r : Record0) : gmap Z (list Record0) :=
  <[b := default [] (out !! b) ++ [r]]> out.

Definition TumblingWindows (inp : list TimedRecord) (size : Z) : gmap Z (list Record0) :=
  fold_left (λ out tr, push out (Truncate (At tr) size) (Rec tr)) inp ∅.

Definition in_window (w size : Z) (tr : TimedRecord) : bool :=
  negb (At tr <? w) && (At tr <? w + size).

(** The inner loop. *)
Definition fill_window (inp : list TimedRecord) (size w : Z) (out : gmap Z (list Record0))
    : gmap Z (list Record0) :=
  fold_left (λ out tr, if in_window w size tr then push out w (Rec tr) else out) inp out.

(** The loop [for w := start; !w.After(end); w = w.Add(slide)]. *)
Fixpoint slideLoop (fuel : nat) (inp : list TimedRecord) (size slide wend w : Z)
    (out : gmap Z (list Record0)) : option (gmap Z (list Record0)) :=
  if wend <? w then Some out
  else match fuel with
       | O => None
       | S fuel => slideLoop fuel inp size slide wend (w + slide) (fill_window inp size w out)
       end.

Definition SlidingWindows `{TimeSort} (fuel : nat) (inp : list TimedRecord) (size slide : Z)
    : option (gmap Z (list Record0) * list TimedRecord) :=
  match inp with
  | [] => Some (∅, [])
  | _ =>
      let inp := sort_times inp in
      match head inp, last inp with
      | Some first, Some final =>
          match slideLoop fuel inp size slide (At final) (Truncate (At first) slide) ∅ with
          | Some out => Some (out, inp)
          | None => None
          end
      | _, _ => None
      end
  end.

(** The loop of [SessionWindows]. *)
Fixpoint sessionLoop (inp : list TimedRecord) (gap : Z) (current : list Record0) (lastAt : Z)
    : list (list Record0) :=
  match inp with
  | [] => [current]
  | tr :: inp =>
      if gap <? Sub (At tr) lastAt
      then current :: sessionLoop inp gap [Rec tr] (At tr)
      else sessionLoop inp gap (current ++ [Rec tr]) (At tr)
  end.

Definition SessionWindows `{TimeSort} (inp : list TimedRecord) (gap : Z)
    : list (list Record0) * list TimedRecord :=
  match inp with
  | [] => ([], [])
  | _ =>
      let inp := sort_times inp in
      match inp with
      | tr :: rest => (sessionLoop rest gap [Rec tr] (At tr), inp)
      | [] => ([], [])
      end
  end.

(** ** Watermarks and late data *)

Record WatermarkGenerator := MkWatermark { AllowedLateness : Z; maxEvent : Z }.

Definition Observe (w : WatermarkGenerator) (ts : Z) : Z * WatermarkGenerator :=
  let w := if maxEvent w <? ts then MkWatermark (AllowedLateness w) ts else w in
  (maxEvent w + - AllowedLateness w, w).

Record LateDataResult := MkLate { RetractKey : string; UpsertKey : string }.
Definition ApplyLateDataPipeline (primaryKey : string) : LateDataResult :=
  MkLate (primaryKey +:+ ":retract") (primaryKey +:+ ":upsert").

(** ** Patterns *)

Record CEPStateMachine := MkCEP { Pattern : list string; idx : nat }.
Definition NewCEPStateMachine (pattern : list string) : CEPStateMachine := MkCEP pattern 0.

(** None is an index out of range. *)
Definition Next (c : CEPStateMachine) (event : string) : option (bool * CEPStateMachine) :=
  match Pattern c with
  | [] => Some (false, c)
  | first :: _ =>
      match Pattern c !! idx c with
      | None => None
      | Some p =>
          if bool_decide (p = event) then
            if (S (idx c) =? length (Pattern c))%nat
            then Some (true, MkCEP (Pattern c) 0)
            else Some (false, MkCEP (Pattern c) (S (idx c)))
          else Some (false, MkCEP (Pattern c) (if bool_decide (first = event) then 1 else 0)%nat)
      end
  end.

(** ** The interval join *)

(** [a != b] of two dynamic values, negated; None is the panic on values of one
    type that cannot be compared. *)
Definition iface_eq (a b : value) : option bool :=
  match a, b with
  | VString s, VString t => Some (bool_decide (s = t))
  | VInt n, VInt m => Some (n =? m)
  | VFloat f, VFloat g => Some (SFeqb f g)
  | VBool x, VBool y => Some (Bool.eqb x y)
  | VNil, VNil => Some true
  | VCounts _, VCounts _ | VGroups _, VGroups _ => None
  | _, _ => Some false
  end.

Definition left_key (k : string) : string := "left." +:+ k.
Definition right_key (k : string) : string := "right." +:+ k.

Definition merge_sides (l r : Record0) : Record0 := kmap right_key r ∪ kmap left_key l.

(** [delta] made positive, the negation being one of int64. *)
Definition abs_delta (t u : Z) : Z :=
  let delta := Sub t u in if delta <? 0 then wrap64 (- delta) else delta.

Fixpoint joinRight (l : TimedRecord) (lv : value) (rights : list TimedRecord) (key : string)
    (bound : Z) : option (list Record0) :=
  match rights with
  | [] => Some []
  | r :: rights =>
      match Rec r !! key with
      | None => joinRight l lv rights key bound
      | Some rv =>
          match iface_eq rv lv with
          | None => None
          | Some false => joinRight l lv rights key bound
          | Some true =>
              if abs_delta (At l) (At r) <=? bound
              then (λ out, merge_sides (Rec l) (Rec r) :: out) <$> joinRight l lv rights key bound
              else joinRight l lv rights key bound
          end
      end
  end.

Fixpoint StreamJoinWithin (lefts rights : list TimedRecord) (key : string) (bound : Z)
    : option (list Record0) :=
  match lefts with
  | [] => Some []
  | l :: lefts =>
      match Rec l !! key with
      | None => StreamJoinWithin lefts rights key bound
      | Some lv =>
          match joinRight l lv rights key bound with
          | None => None
          | Some out => (λ rest, out ++ rest) <$> StreamJoinWithin lefts rights key bound
          end
      end
  end.
