(* ===== verification/WindowsFacts.v ===== *)
(** * What the event-time windows contain

    Tumbling windows against sliding ones, the exact contents and the
    termination of the sliding loop, sessions as maximal runs without a gap,
    watermarks, the soundness and completeness of the pattern matcher, and the
    interval join. *)

From Stdlib Require Import SpecFloat Sorting.Sorted.
From S2P Require Import Prelude Encoding Processor Windows.

(** ** Filling windows *)

Lemma fold_left_ext {A B} (f g : A → B → A) l :
  (∀ a b, f a b = g a b) → ∀ a, fold_left f l a = fold_left g l a.
Proof. intros Hfg. induction l as [|b l IH]; intros a; [done|]. cbn. by rewrite Hfg. Qed.

Lemma filter_cons_bool {A} (f : A → bool) x l :
  filter (λ y, f y = true) (x :: l)
    = if f x then x :: filter (λ y, f y = true) l else filter (λ y, f y = true) l.
Proof. rewrite filter_cons. case_decide as Hd; destruct (f x); done. Qed.

Definition contents (P : TimedRecord → bool) (inp : list TimedRecord) : list Record0 :=
  Rec <$> filter (λ tr, P tr = true) inp.

Definition nonempty {A} (l : list A) : option (list A) :=
  match l with [] => None | _ => Some l end.

Lemma nonempty_default {A} (l : list A) : default [] (nonempty l) = l.
Proof. by destruct l. Qed.

Lemma nonempty_snoc {A} (l : list A) x : nonempty (l ++ [x]) = Some (l ++ [x]).
Proof. by destruct l. Qed.

(** A loop that pushes records into buckets gives every bucket its records, in
    order. *)
Lemma push_fold (bucket : TimedRecord → option Z) inp : ∀ out b,
  fold_left (λ out tr, match bucket tr with Some c => push out c (Rec tr) | None => out end) inp out !! b
    = match contents (λ tr, bool_decide (bucket tr = Some b)) inp with
      | [] => out !! b
      | l => Some (default [] (out !! b) ++ l)
      end.
Proof.
  induction inp as [|tr inp IH]; intros out b; [done|].
  cbn [fold_left]. rewrite IH. unfold contents. rewrite filter_cons.
  destruct (bucket tr) as [c|]; cycle 1.
  { rewrite decide_False by (rewrite bool_decide_eq_true; done). done. }
  destruct (decide (c = b)) as [->|Hne].
  - rewrite decide_True by (rewrite bool_decide_eq_true; done). rewrite fmap_cons.
    unfold push. rewrite lookup_insert_eq. cbn [default from_option id].
    destruct (Rec <$> filter _ inp); [done|]. by rewrite <- app_assoc.
  - rewrite decide_False by (rewrite bool_decide_eq_true; congruence).
    unfold push. by rewrite lookup_insert_ne.
Qed.

Lemma contents_ext P Q inp : (∀ tr, P tr = Q tr) → contents P inp = contents Q inp.
Proof.
  intros HPQ. unfold contents. f_equal. apply list_filter_iff. intros tr. by rewrite HPQ.
Qed.

Lemma contents_perm P inp inp' : inp ≡ₚ inp' → contents P inp ≡ₚ contents P inp'.
Proof. intros Hp. unfold contents. by rewrite Hp. Qed.

Lemma tumbling_lookup inp size b :
  TumblingWindows inp size !! b
    = nonempty (contents (λ tr, Truncate (At tr) size =? b) inp).
Proof.
  unfold TumblingWindows.
  rewrite (push_fold (λ tr, Some (Truncate (At tr) size)) inp ∅ b).
  rewrite (contents_ext _ (λ tr, Truncate (At tr) size =? b)).
  - rewrite lookup_empty. by destruct (contents _ inp).
  - intros tr. apply eq_true_iff_eq. rewrite bool_decide_eq_true, Z.eqb_eq. naive_solver.
Qed.

Lemma fill_window_lookup inp size w out b :
  out !! w = None →
  fill_window inp size w out !! b
    = if decide (b = w) then nonempty (contents (in_window w size) inp) else out !! b.
Proof.
  intros Hw. unfold fill_window.
  transitivity (fold_left (λ out tr,
    match (if in_window w size tr then Some w else None) with
    | Some c => push out c (Rec tr) | None => out end) inp out !! b).
  { f_equal. apply fold_left_ext. intros o tr. by destruct (in_window w size tr). }
  rewrite (push_fold (λ tr, if in_window w size tr then Some w else None)).
  destruct (decide (b = w)) as [->|Hne].
  - rewrite (contents_ext _ (in_window w size)).
    + rewrite Hw. by destruct (contents _ inp).
    + intros tr. destruct (in_window w size tr); [by rewrite bool_decide_true|].
      by rewrite bool_decide_false.
  - rewrite (contents_ext _ (λ _, false)).
    + replace (contents (λ _, false) inp) with (@nil Record0); [done|].
      unfold contents. clear. by induction inp.
    + intros tr. apply bool_decide_false. destruct (in_window w size tr); congruence.
Qed.

(** ** The sliding loop *)

Definition on_grid (start wend slide b : Z) : Prop :=
  start ≤ b ≤ wend ∧ (b - start) mod slide = 0.

Lemma slideLoop_spec inp size slide wend : 0 < slide → ∀ fuel w out,
  wend - w < Z.of_nat fuel * slide → (∀ b, w ≤ b → out !! b = None) →
  ∃ out', slideLoop fuel inp size slide wend w out = Some out' ∧
    ∀ b, out' !! b = if decide (on_grid w wend slide b)
                     then nonempty (contents (in_window b size) inp) else out !! b.
Proof.
  intros Hs. induction fuel as [|fuel IH]; intros w out Hf Hout.
  - cbn [slideLoop]. replace (wend <? w) with true by lia. eexists; split; [done|].
    intros b. rewrite decide_False; [done|]. unfold on_grid. lia.
  - cbn [slideLoop]. destruct (wend <? w) eqn:Hw.
    + eexists; split; [done|]. intros b. rewrite decide_False; [done|]. unfold on_grid. lia.
    + destruct (IH (w + slide) (fill_window inp size w out)) as (out' & Hl & Hout').
      { rewrite Nat2Z.inj_succ in Hf. nia. }
      { intros b Hb. rewrite fill_window_lookup by (apply Hout; lia).
        rewrite decide_False by lia. apply Hout; lia. }
      exists out'; split; [done|]. intros b. rewrite Hout'.
      rewrite fill_window_lookup by (apply Hout; lia).
      unfold on_grid. destruct (decide (b = w)) as [->|Hne].
      * rewrite decide_False by lia. rewrite decide_True; [done|].
        rewrite Z.sub_diag. split; [lia|]. apply Z.mod_0_l. lia.
      * replace (b - (w + slide)) with (b - w + -1 * slide) by lia.
        rewrite Z.mod_add by lia. apply decide_ext. split; [intros [? ?]; split; [lia|done]|].
        intros [Hb Hm]. split; [|done]. split; [|lia].
        destruct (decide (b < w + slide)); [|lia].
        rewrite Z.mod_small in Hm by lia. lia.
Qed.

Lemma slideLoop_diverges inp size slide wend : slide ≤ 0 → ∀ fuel w out,
  w ≤ wend → slideLoop fuel inp size slide wend w out = None.
Proof.
  intros Hs. induction fuel as [|fuel IH]; intros w out Hw; cbn [slideLoop];
    replace (wend <? w) with false by lia; [done|]. apply IH. lia.
Qed.

Lemma sorted_bounds (l : list TimedRecord) first final :
  StronglySorted (λ a b, At a ≤ At b) l → head l = Some first → last l = Some final →
  ∀ tr, tr ∈ l → At first ≤ At tr ≤ At final.
Proof.
  intros Hs. revert first final. induction Hs as [|a l Hs IH Ha]; intros first final Hh Hl tr Htr;
    [done|].
  injection Hh as <-. rewrite Forall_forall in Ha.
  destruct l as [|b l].
  - injection Hl as <-. apply elem_of_cons in Htr as [->|Htr]; [lia|by apply elem_of_nil in Htr].
  - rewrite last_cons_cons in Hl.
    assert (At a ≤ At b) as Hab by (apply Ha, list_elem_of_here).
    pose proof (IH b final eq_refl Hl) as HIH.
    apply elem_of_cons in Htr as [->|Htr].
    + specialize (HIH b (list_elem_of_here _ _)). lia.
    + specialize (HIH tr Htr). lia.
Qed.

Section sorted.
Context `{TimeSort}.

Lemma sorted_ends inp : inp ≠ [] → ∃ first final,
  head (sort_times inp) = Some first ∧ last (sort_times inp) = Some final ∧
  first ∈ inp ∧ final ∈ inp ∧ ∀ tr, tr ∈ inp → At first ≤ At tr ≤ At final.
Proof.
  intros Hne. assert (sort_times inp ≠ []) as Hne'.
  { intros He. pose proof (sort_times_perm inp) as Hp. rewrite He in Hp.
    by apply Permutation_nil_l in Hp. }
  destruct (head (sort_times inp)) as [first|] eqn:Hh; [|by destruct (sort_times inp)].
  destruct (last (sort_times inp)) as [final|] eqn:Hl.
  2:{ by apply last_None in Hl. }
  exists first, final. split_and!; try done.
  - rewrite <- (sort_times_perm inp). by apply head_Some_elem_of.
  - rewrite <- (sort_times_perm inp). by apply last_Some_elem_of.
  - intros tr Htr. rewrite <- (sort_times_perm inp) in Htr. revert tr Htr.
    apply sorted_bounds; [apply sort_times_sorted|done..].
Qed.

Lemma sliding_spec inp size slide :
  0 < slide → inp ≠ [] →
  ∃ fuel0 first final, first ∈ inp ∧ final ∈ inp ∧
    (∀ tr, tr ∈ inp → At first ≤ At tr ≤ At final) ∧
    ∀ fuel, (fuel0 ≤ fuel)%nat → ∃ out,
      SlidingWindows fuel inp size slide = Some (out, sort_times inp) ∧
      ∀ b, out !! b = if decide (on_grid (Truncate (At first) slide) (At final) slide b)
                      then nonempty (contents (in_window b size) (sort_times inp)) else None.
Proof.
  intros Hs Hne. destruct (sorted_ends inp Hne) as (first & final & Hh & Hl & Hf1 & Hf2 & Hb).
  set (start := Truncate (At first) slide).
  exists (Z.to_nat (Z.max 0 (At final - start + 1))), first, final.
  split_and!; [done..|]. intros fuel Hfuel.
  destruct (slideLoop_spec (sort_times inp) size slide (At final) Hs fuel start ∅) as (out & Ho & Hout).
  - nia.
  - intros b _. apply lookup_empty.
  - exists out. split.
    + unfold SlidingWindows. rewrite Hh, Hl. fold start. rewrite Ho. by destruct inp.
    + intros b. rewrite Hout. by rewrite lookup_empty.
Qed.

Lemma truncate_grid t slide : 0 < slide → Truncate t slide mod slide = 0 ∧
  Truncate t slide ≤ t < Truncate t slide + slide.
Proof.
  intros Hs. unfold Truncate. replace (slide <=? 0) with false by lia.
  pose proof (Z.mod_pos_bound t slide Hs). split; [|lia].
  rewrite Zminus_mod_idemp_r, Z.sub_diag. apply Z.mod_0_l. lia.
Qed.

Lemma truncate_mono t u slide :
  0 < slide → t ≤ u → Truncate t slide ≤ Truncate u slide.
Proof.
  intros Hs Htu. unfold Truncate. replace (slide <=? 0) with false by lia.
  rewrite !Z.mod_eq by lia. pose proof (Z.div_le_mono t u slide Hs Htu). nia.
Qed.

Lemma truncate_unique t slide b :
  0 < slide → b mod slide = 0 → b ≤ t < b + slide → Truncate t slide = b.
Proof.
  intros Hs Hb Ht. pose proof (truncate_grid t slide Hs) as [Hg Hr].
  apply Z.mod_divide in Hb as [x Hx]; [|lia]. apply Z.mod_divide in Hg as [y Hy]; [|lia].
  enough (x = y) by lia. rewrite Hx, Hy in *. clear Hx Hy.
  destruct (Z.lt_trichotomy x y) as [?|[?|?]]; [nia|done|nia].
Qed.

Lemma grid_multiple start wend slide b :
  0 < slide → start mod slide = 0 →
  on_grid start wend slide b ↔ start ≤ b ≤ wend ∧ b mod slide = 0.
Proof.
  intros Hs H0. unfold on_grid. rewrite Zminus_mod, H0, Z.sub_0_r, Zmod_mod. done.
Qed.

(** C25: With a positive slide the sliding loop ends: it returns, for every
    multiple of the slide from the first event's slot to the last event, exactly
    the records with [w <= t < w + size] in time order, and no other window.
    When the windows are at least as long as the slide every record is in one.
    A slide that is not positive never returns. *)
Theorem sliding_windows_exact inp size slide :
  inp ≠ [] →
  (0 < slide → ∃ fuel0 first final, first ∈ inp ∧ final ∈ inp ∧
     (∀ tr, tr ∈ inp → At first ≤ At tr ≤ At final) ∧
     ∀ fuel, (fuel0 ≤ fuel)%nat → ∃ out,
       SlidingWindows fuel inp size slide = Some (out, sort_times inp) ∧
       (∀ b, out !! b
          = if decide (Truncate (At first) slide ≤ b ≤ At final ∧ b mod slide = 0)
            then nonempty (contents (in_window b size) (sort_times inp)) else None) ∧
       (slide ≤ size → ∀ tr, tr ∈ inp →
          ∃ l, out !! Truncate (At tr) slide = Some l ∧ Rec tr ∈ l)) ∧
  (slide ≤ 0 → ∀ fuel, SlidingWindows fuel inp size slide = None).
Proof.
  intros Hne. split; intros Hs.
  - destruct (sliding_spec inp size slide Hs Hne) as (f0 & first & final & H1 & H2 & Hb & Hrun).
    exists f0, first, final. split_and!; [done..|]. intros fuel Hf.
    destruct (Hrun fuel Hf) as (out & Ho & Hout). exists out.
    pose proof (truncate_grid (At first) slide Hs) as [Hg Hr].
    assert (∀ b, out !! b
          = if decide (Truncate (At first) slide ≤ b ≤ At final ∧ b mod slide = 0)
            then nonempty (contents (in_window b size) (sort_times inp)) else None) as Hout'.
    { intros b. rewrite Hout. apply decide_ext. by apply grid_multiple. }
    split_and!; [done..|]. intros Hsz tr Htr. rewrite Hout'.
    pose proof (truncate_grid (At tr) slide Hs) as [Hg' Hr'].
    pose proof (Hb tr Htr) as Hbt. rewrite decide_True.
    + assert (Rec tr ∈ contents (in_window (Truncate (At tr) slide) size) (sort_times inp)) as Hin.
      { unfold contents. apply list_elem_of_fmap_2, list_elem_of_filter. split.
        - unfold in_window. lia.
        - by rewrite sort_times_perm. }
      destruct (contents _ _) as [|x l]; [by apply elem_of_nil in Hin|]. by eexists.
    + split; [|done]. split; [apply truncate_mono|]; lia.
  - intros fuel. destruct (sorted_ends inp Hne) as (first & final & Hh & Hl & _ & Hf & Hb).
    unfold SlidingWindows. rewrite Hh, Hl. unfold Truncate.
    replace (slide <=? 0) with true by lia.
    specialize (Hb final Hf). rewrite slideLoop_diverges by lia. by destruct inp.
Qed.

(** Tumbling windows are sliding windows whose slide is their size: the
    same windows, each with the same records (in arrival order instead of time
    order). *)
Theorem tumbling_is_sliding inp size :
  0 < size → inp ≠ [] →
  ∃ fuel out, SlidingWindows fuel inp size size = Some (out, sort_times inp) ∧
    ∀ b, option_Forall2 (≡ₚ) (TumblingWindows inp size !! b) (out !! b).
Proof.
  intros Hs Hne.
  destruct (sliding_spec inp size size Hs Hne) as (f0 & first & final & H1 & H2 & Hb & Hrun).
  destruct (Hrun f0 (reflexivity _)) as (out & Ho & Hout). exists f0, out. split; [done|].
  intros b. rewrite tumbling_lookup, Hout.
  pose proof (truncate_grid (At first) size Hs) as [Hg Hr].
  destruct (decide (on_grid _ _ _ b)) as [Hon|Hoff].
  - apply grid_multiple in Hon as [Hon Hm]; try done.
    rewrite (contents_ext _ (in_window b size)).
    + pose proof (contents_perm (in_window b size) _ _ (sort_times_perm inp)) as Hp.
      destruct (contents _ inp) eqn:He.
      * apply Permutation_nil_r in Hp. rewrite Hp. constructor.
      * destruct (contents _ (sort_times inp)); [by apply Permutation_nil_l in Hp|].
        by constructor.
    + intros tr. pose proof (truncate_unique (At tr) size b Hs Hm) as Hu.
      pose proof (truncate_grid (At tr) size Hs) as [_ Hr'].
      unfold in_window. apply eq_true_iff_eq. rewrite Z.eqb_eq. split; [intros <-; lia|].
      intros Hin. apply Hu. lia.
  - enough (contents (λ tr, Truncate (At tr) size =? b) inp = []) as -> by constructor.
    destruct (contents _ inp) as [|x l] eqn:He; [done|]. destruct Hoff.
    assert (x ∈ contents (λ tr, Truncate (At tr) size =? b) inp) as Hx
      by (rewrite He; apply list_elem_of_here).
    unfold contents in Hx. apply list_elem_of_fmap in Hx as (tr & _ & Htr).
    apply list_elem_of_filter in Htr as [Ht Htr]. apply Z.eqb_eq in Ht as <-.
    pose proof (truncate_grid (At tr) size Hs) as [Hg' Hr']. specialize (Hb tr Htr).
    apply grid_multiple; [done..|]. split; [|done]. split; [apply truncate_mono|]; lia.
Qed.
End sorted.

(** ** Sessions *)

(** Consecutive events of a session are within the gap. *)
Definition close_run (gap : Z) (l : list TimedRecord) : Prop :=
  ∀ i a b, l !! i = Some a → l !! S i = Some b → At b - At a ≤ gap.

(** The last event of a session and the first of the next are further apart. *)
Definition apart (gap : Z) (ss : list (list TimedRecord)) : Prop :=
  ∀ i s t a b, ss !! i = Some s → ss !! S i = Some t → last s = Some a → head t = Some b →
    gap < At b - At a.

Definition sessions (gap : Z) (inp : list TimedRecord) (ss : list (list TimedRecord)) : Prop :=
  concat ss = inp ∧ Forall (λ s, s ≠ [] ∧ close_run gap s) ss ∧ apart gap ss.

(** Times whose differences fit a [Duration]. *)
Definition near (inp : list TimedRecord) : Prop :=
  ∀ a b, a ∈ inp → b ∈ inp → - 2 ^ 63 ≤ At a - At b < 2 ^ 63.

Lemma Sub_exact t u : - 2 ^ 63 ≤ t - u < 2 ^ 63 → Sub t u = t - u.
Proof. unfold Sub. lia. Qed.

Lemma close_run_snoc gap l a b :
  close_run gap l → last l = Some a → At b - At a ≤ gap → close_run gap (l ++ [b]).
Proof.
  intros Hl Ha Hab i x y Hx Hy. rewrite last_lookup in Ha.
  apply lookup_snoc_Some in Hy as [[Hlt Hy]|[Hi ->]].
  - rewrite lookup_app_l in Hx by lia. by apply (Hl i).
  - rewrite lookup_app_l in Hx by lia. rewrite <- Hi in Ha. cbn in Ha.
    rewrite Hx in Ha. by injection Ha as ->.
Qed.

Lemma close_run_singleton gap a : close_run gap [a].
Proof. by intros [|i] x y Hx Hy. Qed.

Lemma apart_cons gap s t ss a b :
  last s = Some a → head t = Some b → gap < At b - At a → apart gap (t :: ss) →
  apart gap (s :: t :: ss).
Proof.
  intros Ha Hb Hgap Hap [|i] s' t' a' b' Hs Ht Ha' Hb'; cbn in Hs, Ht.
  - injection Hs as <-. injection Ht as <-. congruence.
  - by apply (Hap i s' t' a' b').
Qed.

Lemma sessionLoop_spec gap rest : ∀ cur a,
  near (cur ++ rest) → cur ≠ [] → close_run gap cur → last cur = Some a →
  ∃ s ss, sessionLoop rest gap (Rec <$> cur) (At a) = map (map Rec) (s :: ss) ∧
    sessions gap (cur ++ rest) (s :: ss) ∧ head s = head cur.
Proof.
  induction rest as [|b rest IH]; intros cur a Hnear Hne Hrun Ha; cbn [sessionLoop].
  - exists cur, []. split; [done|]. rewrite app_nil_r. split; [|done]. split_and!.
    + cbn. by rewrite app_nil_r.
    + by repeat constructor.
    + by intros [|i] s t x y Hs Ht.
  - assert (a ∈ cur) as Hac by by apply last_Some_elem_of.
    rewrite Sub_exact by (apply Hnear; set_solver).
    destruct (gap <? At b - At a) eqn:Hgap.
    + destruct (IH [b] b) as (t & ss & Hss & (Hc & Hall & Hap) & Hhead); try apply close_run_singleton; try done.
      { intros x y Hx Hy. apply Hnear; set_solver. }
      exists cur, (t :: ss). split; [|split; [split_and!|done]].
      * cbn [map]. by f_equal.
      * cbn [concat] in *. by rewrite Hc.
      * by constructor.
      * apply (apart_cons gap cur t ss a b); [done..|lia|done].
    + destruct (IH (cur ++ [b]) b) as (s & ss & Hss & Hsess & Hhead).
      { by rewrite <- app_assoc. }
      { by destruct cur. }
      { apply (close_run_snoc gap cur a); [done..|lia]. }
      { apply last_snoc. }
      exists s, ss. rewrite fmap_app in Hss. split; [done|]. rewrite <- app_assoc in Hsess.
      split; [done|]. rewrite Hhead. by destruct cur.
Qed.

Lemma near_perm inp inp' : inp ≡ₚ inp' → near inp → near inp'.
Proof. intros Hp Hn a b Ha Hb. rewrite <- Hp in Ha, Hb. by apply Hn. Qed.

(** C26: Session windows cut the events, in time order, into non-empty sessions
    whose consecutive events are at most the gap apart, while two sessions are
    separated by more than the gap; no event is lost. *)
Theorem session_windows_exact `{TimeSort} inp gap :
  near inp →
  ∃ ss, SessionWindows inp gap = (map (map Rec) ss, sort_times inp) ∧
    sessions gap (sort_times inp) ss ∧ concat ss ≡ₚ inp.
Proof.
  intros Hnear. unfold SessionWindows.
  pose proof (sort_times_perm inp) as Hp.
  destruct inp as [|x0 inp0]; [|set (inp := x0 :: inp0) in *].
  { apply Permutation_nil_r in Hp. rewrite Hp. exists []. split; [done|]. by split_and!. }
  destruct (sort_times inp) as [|tr rest] eqn:Hs; [by apply Permutation_nil_l in Hp|].
  destruct (sessionLoop_spec gap rest [tr] tr) as (s & ss & Hss & Hsess & _); try done.
  - apply (near_perm inp); [by symmetry|done].
  - exists (s :: ss). split; [by rewrite <- Hss|]. split; [done|].
    destruct Hsess as [-> _]. done.
Qed.

(** ** Watermarks *)

Fixpoint observeAll (w : WatermarkGenerator) (tss : list Z) : list Z * WatermarkGenerator :=
  match tss with
  | [] => ([], w)
  | ts :: tss => let '(m, w) := Observe w ts in let '(ms, w) := observeAll w tss in (m :: ms, w)
  end.

Lemma Observe_spec w ts :
  Observe w ts = (Z.max (maxEvent w) ts - AllowedLateness w,
                  MkWatermark (AllowedLateness w) (Z.max (maxEvent w) ts)).
Proof.
  unfold Observe. destruct w as [late mx]; cbn. destruct (mx <? ts) eqn:Hlt; cbn;
    f_equal; try f_equal; lia.
Qed.

(** The watermark after each event is the largest event time seen (never
    below the generator's first maximum) minus the allowed lateness, so
    watermarks never go back. *)
Theorem watermarks_monotone w tss ms w' :
  observeAll w tss = (ms, w') →
  length ms = length tss ∧ maxEvent w' = fold_left Z.max tss (maxEvent w) ∧
  (∀ i m, ms !! i = Some m →
     m = fold_left Z.max (take (S i) tss) (maxEvent w) - AllowedLateness w) ∧
  StronglySorted Z.le ms.
Proof.
  revert w ms w'. induction tss as [|ts tss IH]; intros w ms w' Ho; cbn [observeAll] in Ho.
  - injection Ho as <- <-. split_and!; [done..|constructor].
  - rewrite Observe_spec in Ho.
    destruct (observeAll _ tss) as [ms1 w1] eqn:Hrec. injection Ho as <- <-.
    apply IH in Hrec as (Hlen & Hmax & Hms & Hsort). cbn [maxEvent AllowedLateness] in *.
    split_and!; [cbn; lia|done| |].
    + intros [|i] m Hm; cbn in Hm; [by injection Hm as <-|]. by apply Hms in Hm.
    + constructor; [done|]. apply Forall_forall. intros m Hm.
      apply list_elem_of_lookup in Hm as [i Hi]. apply Hms in Hi as ->.
      assert (∀ l a, a ≤ fold_left Z.max l a) as Hge.
      { clear. induction l as [|x l IH]; intros a; cbn; [lia|]. specialize (IH (Z.max a x)). lia. }
      specialize (Hge (take (S i) tss) (Z.max (maxEvent w) ts)). lia.
Qed.

(** ** Patterns *)

Fixpoint cepRun (c : CEPStateMachine) (events : list string)
    : option (list bool * CEPStateMachine) :=
  match events with
  | [] => Some ([], c)
  | e :: events =>
      '(b, c) ← Next c e; '(bs, c) ← cepRun c events; Some (b :: bs, c)
  end.

(** The matched prefix of the pattern ends the history. *)
Definition tracks (P h : list string) (c : CEPStateMachine) : Prop :=
  Pattern c = P ∧ (idx c < length P)%nat ∧ take (idx c) P `suffix_of` h.

(** No other proper prefix does. *)
Definition tracks_all (P h : list string) (c : CEPStateMachine) : Prop :=
  ∀ i, (0 < i < length P)%nat → take i P `suffix_of` h → i = idx c.

Lemma suffix_extend (P h : list string) i p :
  P !! i = Some p → take i P `suffix_of` h → take (S i) P `suffix_of` h ++ [p].
Proof. intros Hp [k ->]. exists k. rewrite (take_S_r _ _ _ Hp). by rewrite app_assoc. Qed.

Lemma suffix_retract (P h : list string) i p e :
  P !! i = Some p → take (S i) P `suffix_of` h ++ [e] → p = e ∧ take i P `suffix_of` h.
Proof.
  intros Hp Hs. rewrite (take_S_r _ _ _ Hp) in Hs.
  pose proof (suffix_snoc_inv_1 _ _ _ _ Hs) as ->. split; [done|].
  by apply suffix_snoc_inv_2 in Hs.
Qed.

Lemma Next_tracks P h c e :
  P ≠ [] → tracks P h c → ∃ b c', Next c e = Some (b, c') ∧ tracks P (h ++ [e]) c' ∧
    (b = true → P `suffix_of` h ++ [e]).
Proof.
  intros Hne (HP & Hi & Hsuf). unfold Next. rewrite HP.
  destruct P as [|first ps]; [done|]. set (P := first :: ps) in *.
  destruct (lookup_lt_is_Some_2 P (idx c) Hi) as [p Hp]. rewrite Hp.
  case_bool_decide as He; [subst e|].
  - pose proof (suffix_extend P h _ p Hp Hsuf) as Hext.
    destruct (S (idx c) =? length P)%nat eqn:Hl; eexists _, _; (split; [reflexivity|]).
    + apply Nat.eqb_eq in Hl. rewrite take_ge in Hext by lia. split; [|done].
      split_and!; cbn; [done|lia|apply suffix_nil].
    + apply Nat.eqb_neq in Hl. split; [|done]. split_and!; cbn [idx Pattern]; [done|lia|done].
  - eexists _, _; split; [reflexivity|]. split; [|done].
    case_bool_decide as Hf; split_and!; cbn [idx Pattern]; try done; try (cbn; lia).
    + destruct ps; [|cbn; lia]. cbn in Hi.
      assert (idx c = 0%nat) as H0 by lia. rewrite H0 in Hp. cbn in Hp. congruence.
    + subst e. cbn. rewrite firstn_O. by apply suffix_app_r.
    + apply suffix_nil.
Qed.

(** A symbol that does not recur ends no two prefixes at once. *)
Lemma prefix_overlap (p : string) (ps h : list string) (i j : nat) :
  p ∉ ps → (0 < i)%nat → (i < j ≤ length (p :: ps))%nat →
  take i (p :: ps) `suffix_of` h → take j (p :: ps) `suffix_of` h → False.
Proof.
  intros Hp Hi Hj [a Ha] [b Hb]. rewrite Ha in Hb.
  destruct i as [|i]; [lia|]. destruct j as [|j]; [lia|]. cbn [take length] in *.
  assert (length (take i ps) = i) as Hli by (rewrite length_take; lia).
  assert (length (take j ps) = j) as Hlj by (rewrite length_take; lia).
  apply app_eq_inv in Hb as [(k & _ & Hk)|(k & _ & Hk)].
  - destruct k as [|x k]; [cbn in Hk; injection Hk as Hk; rewrite Hk in Hlj; lia|].
    injection Hk as _ Hk. apply Hp. rewrite <- (take_drop j ps), Hk. set_solver.
  - apply (f_equal length) in Hk. rewrite length_app in Hk. cbn in Hk. lia.
Qed.

Lemma Next_tracks_all (p : string) (ps h : list string) c e b c' :
  p ∉ ps → tracks (p :: ps) h c → tracks_all (p :: ps) h c → Next c e = Some (b, c') →
  tracks_all (p :: ps) (h ++ [e]) c' ∧ (p :: ps `suffix_of` h ++ [e] → b = true).
Proof.
  intros Hp Htr Hall HN. pose proof Htr as (HP & Hi & Hsuf).
  destruct (Next_tracks (p :: ps) h c e) as (b2 & c2 & HN2 & Htr2 & Hb2); [done..|].
  rewrite HN in HN2. injection HN2 as <- <-.
  unfold Next in HN. rewrite HP in HN. set (P := p :: ps) in *.
  destruct (lookup_lt_is_Some_2 P (idx c) Hi) as [x Hx]. rewrite Hx in HN.
  assert (∀ i, (0 < i ≤ length P)%nat → take i P `suffix_of` h ++ [e] →
            (i = 1%nat ∧ p = e) ∨ (i = S (idx c) ∧ x = e)) as Hpre.
  { intros i Hi0 Hs. destruct i as [|i]; [lia|].
    destruct (lookup_lt_is_Some_2 P i) as [y Hy]; [lia|].
    pose proof (suffix_retract P h i y e Hy Hs) as [Hye Hs'].
    destruct i as [|i]; [left; split; [done|]; injection Hy as Hy; congruence|right].
    pose proof (Hall (S i) ltac:(lia) Hs') as Hsi. rewrite Hsi in Hy. split; congruence. }
  case_bool_decide as He; [subst e|].
  - pose proof (suffix_extend P h _ x Hx Hsuf) as Hext.
    destruct (S (idx c) =? length P)%nat eqn:Hl; injection HN as <- <-.
    + apply Nat.eqb_eq in Hl. split; [|done]. intros i Hi0 Hs. exfalso.
      apply (prefix_overlap p ps (h ++ [x]) i (S (idx c))); [done|lia|fold P; lia|done..].
    + apply Nat.eqb_neq in Hl. split.
      * intros i Hi0 Hs. cbn [idx]. destruct (decide (i = S (idx c))); [done|]. exfalso.
        destruct (decide (i < S (idx c))%nat).
        -- apply (prefix_overlap p ps (h ++ [x]) i (S (idx c))); [done|lia|fold P; lia|done..].
        -- apply (prefix_overlap p ps (h ++ [x]) (S (idx c)) i); [done|lia|fold P; lia|done..].
      * intros Hs. exfalso.
        apply (prefix_overlap p ps (h ++ [x]) (S (idx c)) (length P)); [done|lia|fold P; lia|done|].
        by rewrite take_ge.
  - injection HN as <- <-. split.
    + intros i Hi0 Hs. cbn [idx]. destruct (Hpre i ltac:(lia) Hs) as [[-> ->]|[_ ?]]; [|done].
      by rewrite bool_decide_true.
    + intros Hs. rewrite <- (take_ge P (length P)) in Hs by done.
      destruct (Hpre (length P) ltac:(cbn; lia) Hs) as [[H1 ->]|[_ ?]]; [|done].
      assert (idx c = 0%nat) as H0 by lia. rewrite H0 in Hx. cbn in Hx. congruence.
Qed.

Lemma cepRun_spec P events : P ≠ [] → ∀ h c, tracks P h c →
  ∃ bs c', cepRun c events = Some (bs, c') ∧ length bs = length events ∧
    (∀ i, bs !! i = Some true → P `suffix_of` h ++ take (S i) events) ∧
    (∀ (p : string) ps, P = p :: ps → p ∉ ps → tracks_all P h c → ∀ i b, bs !! i = Some b →
       P `suffix_of` h ++ take (S i) events → b = true).
Proof.
  intros Hne. induction events as [|e events IH]; intros h c Htr; cbn [cepRun].
  { exists [], c. split_and!; done. }
  destruct (Next_tracks P h c e Hne Htr) as (b & c1 & HN & Htr1 & Hb).
  destruct (IH (h ++ [e]) c1 Htr1) as (bs & c2 & Hrun & Hlen & Hs & Hc).
  rewrite HN; cbn [mbind option_bind]. rewrite Hrun. cbn [mbind option_bind].
  exists (b :: bs), c2. split_and!; [done|cbn; lia| |].
  - intros [|i] Hi; cbn in Hi; [injection Hi as ->; cbn; rewrite firstn_O; by apply Hb|].
    apply Hs in Hi. by rewrite <- app_assoc in Hi.
  - intros p ps HP Hp Hall i b' Hi Hsuf. subst P.
    destruct (Next_tracks_all p ps h c e b c1) as [Hall1 Hbt]; [done..|].
    destruct i as [|i]; cbn in Hi.
    + injection Hi as <-. apply Hbt. cbn in Hsuf. by rewrite firstn_O in Hsuf.
    + apply (Hc p ps eq_refl Hp Hall1 i); [done|]. by rewrite <- app_assoc.
Qed.

(** C27: The pattern matcher never indexes out of range, answers every event,
    and reports a match only when the last events are the pattern; when the
    first symbol of the pattern does not recur in it, it reports every one. *)
Theorem cep_matches P events :
  P ≠ [] →
  ∃ bs c', cepRun (NewCEPStateMachine P) events = Some (bs, c') ∧ length bs = length events ∧
    (∀ i, bs !! i = Some true → P `suffix_of` take (S i) events) ∧
    (∀ (p : string) ps, P = p :: ps → p ∉ ps → ∀ i b, bs !! i = Some b →
       P `suffix_of` take (S i) events → b = true).
Proof.
  intros Hne. destruct (cepRun_spec P events Hne [] (NewCEPStateMachine P)) as (bs & c' & Hrun & Hlen & Hs & Hc).
  - split_and!; cbn; [done|by destruct P; cbn; [|lia]|apply suffix_nil].
  - exists bs, c'. split_and!; [done..|]. intros p ps HP Hp. apply (Hc p ps HP Hp).
    intros i Hi [k Hk]. destruct k; [|done]. cbn in Hk.
    apply (f_equal length) in Hk. rewrite length_take in Hk. cbn in Hk. lia.
Qed.

(** A match that overlaps a longer partial one is missed: A A B in A A A B. *)
Theorem cep_misses_overlap :
  fst <$> cepRun (NewCEPStateMachine ["A"%string; "A"%string; "B"%string])
                 ["A"%string; "A"%string; "A"%string; "B"%string]
    = Some [false; false; false; false] ∧
  ["A"%string; "A"%string; "B"%string] `suffix_of` ["A"%string; "A"%string; "A"%string; "B"%string].
Proof. split; [reflexivity|]. by exists ["A"%string]. Qed.

(** ** The interval join *)

(** The pair belongs in the join. *)
Definition joins (key : string) (bound : Z) (l r : TimedRecord) : bool :=
  match Rec l !! key, Rec r !! key with
  | Some lv, Some rv =>
      bool_decide (iface_eq rv lv = Some true) && (Z.abs (At l - At r) <=? bound)
  | _, _ => false
  end.

(** No two key values that cannot be compared. *)
Definition comparable (key : string) (lefts rights : list TimedRecord) : Prop :=
  ∀ l r lv rv, l ∈ lefts → r ∈ rights → Rec l !! key = Some lv → Rec r !! key = Some rv →
    iface_eq rv lv ≠ None.

Definition join_spec (key : string) (bound : Z) (lefts rights : list TimedRecord) : list Record0 :=
  l ← lefts; (λ r, merge_sides (Rec l) (Rec r)) <$> filter (λ r, joins key bound l r = true) rights.

Lemma abs_delta_exact t u : - 2 ^ 63 < t - u < 2 ^ 63 → abs_delta t u = Z.abs (t - u).
Proof.
  intros Hd. unfold abs_delta. rewrite Sub_exact by lia.
  destruct (t - u <? 0) eqn:Hlt; [|lia]. rewrite wrap64_id by (unfold int64; lia). lia.
Qed.

Lemma joinRight_exact key bound l lv rights :
  Rec l !! key = Some lv →
  (∀ r, r ∈ rights → - 2 ^ 63 < At l - At r < 2 ^ 63) →
  (∀ r rv, r ∈ rights → Rec r !! key = Some rv → iface_eq rv lv ≠ None) →
  joinRight l lv rights key bound
    = Some ((λ r, merge_sides (Rec l) (Rec r)) <$> filter (λ r, joins key bound l r = true) rights).
Proof.
  intros Hl. induction rights as [|r rights IH]; intros Hnear Hcmp; [done|].
  cbn [joinRight]. rewrite filter_cons_bool. unfold joins at 1. rewrite Hl.
  rewrite IH by (intros; (apply Hnear || eapply Hcmp); by try apply list_elem_of_further).
  rewrite abs_delta_exact by (apply Hnear, list_elem_of_here).
  destruct (Rec r !! key) as [rv|] eqn:Hr; [|done].
  pose proof (Hcmp r rv (list_elem_of_here _ _) Hr) as Hc.
  destruct (iface_eq rv lv) as [[]|]; [|done..].
  rewrite bool_decide_true by done. cbn [andb]. by destruct (_ <=? bound).
Qed.

#[local] Instance left_key_inj : Inj (=) (=) left_key.
Proof. intros a b. apply (inj (String.app _)). Qed.
#[local] Instance right_key_inj : Inj (=) (=) right_key.
Proof. intros a b. apply (inj (String.app _)). Qed.

Lemma merge_sides_left l r k : merge_sides l r !! left_key k = l !! k.
Proof.
  unfold merge_sides. etransitivity; [apply (lookup_union_r (M := gmap string))|].
  - by apply (lookup_kmap_None right_key).
  - apply (lookup_kmap left_key).
Qed.

Lemma merge_sides_right l r k : merge_sides l r !! right_key k = r !! k.
Proof.
  unfold merge_sides. etransitivity; [apply (lookup_union_l (M := gmap string))|].
  - by apply (lookup_kmap_None left_key).
  - apply (lookup_kmap right_key).
Qed.

(** With comparable keys and times less than 2^63 ns apart the join returns,
    left record by left record, exactly the pairs with equal keys at most
    [bound] apart, each merged without losing a field of either side.  Two
    records more than that apart are joined whatever the bound, when the left
    one is the earlier. *)
Theorem stream_join_exact lefts rights key bound :
  (comparable key lefts rights →
   (∀ l r, l ∈ lefts → r ∈ rights → - 2 ^ 63 < At l - At r < 2 ^ 63) →
   StreamJoinWithin lefts rights key bound = Some (join_spec key bound lefts rights)) ∧
  (∀ l r k, merge_sides l r !! left_key k = l !! k ∧ merge_sides l r !! right_key k = r !! k) ∧
  (∀ l r s, Rec l !! key = Some (VString s) → Rec r !! key = Some (VString s) →
     At l - At r ≤ - 2 ^ 63 → 0 ≤ bound →
     StreamJoinWithin [l] [r] key bound = Some [merge_sides (Rec l) (Rec r)]).
Proof.
  split_and!.
  - unfold join_spec. induction lefts as [|l lefts IH]; intros Hcmp Hnear; [done|].
    cbn [StreamJoinWithin mbind list_bind].
    rewrite IH by (unfold comparable in *; set_solver).
    destruct (Rec l !! key) as [lv|] eqn:Hl.
    + rewrite (joinRight_exact key bound l lv rights Hl); [done| |].
      * intros r Hr. by apply Hnear; [apply list_elem_of_here|].
      * intros r rv Hr Hrv. by apply (Hcmp l r lv rv (list_elem_of_here _ _)).
    + f_equal. replace (filter _ rights) with (@nil TimedRecord); [done|].
      clear -Hl. induction rights as [|r rights IH]; [done|]. rewrite filter_cons_bool.
      unfold joins at 1. rewrite Hl. done.
  - intros l r k. by rewrite merge_sides_left, merge_sides_right.
  - intros l r s Hl Hr Hfar Hb. cbn. rewrite Hl, Hr. cbn. rewrite bool_decide_true by done.
    unfold abs_delta, Sub. replace (Z.max _ _) with (- 2 ^ 63) by lia.
    replace (_ <=? bound) with true; [done|]. symmetry. apply Z.leb_le.
    etransitivity; [|done]. vm_compute. discriminate.
Qed.

(** ** Witnesses *)

Definition ev (t : Z) (s : string) : TimedRecord := MkTimed t {["id"%string := VString s]}.
Definition id_rec (s : string) : Record0 := {["id"%string := VString s]}.

(** Insertion by time. *)
Fixpoint insert_time (tr : TimedRecord) (l : list TimedRecord) : list TimedRecord :=
  match l with
  | [] => [tr]
  | x :: l => if At tr <=? At x then tr :: x :: l else x :: insert_time tr l
  end.
Definition isort_times (l : list TimedRecord) : list TimedRecord := foldr insert_time [] l.

Lemma insert_time_perm tr l : insert_time tr l ≡ₚ tr :: l.
Proof.
  induction l as [|x l IH]; cbn; [done|]. destruct (_ <=? _); [done|]. rewrite IH. constructor.
Qed.

Lemma insert_time_sorted tr l :
  StronglySorted (λ a b, At a ≤ At b) l → StronglySorted (λ a b, At a ≤ At b) (insert_time tr l).
Proof.
  induction 1 as [|x l Hs IH Hx]; cbn; [repeat constructor|].
  destruct (At tr <=? At x) eqn:Hle.
  - constructor; [by constructor|]. constructor; [lia|].
    eapply Forall_impl; [done|]. intros y Hy. cbn in Hy. lia.
  - constructor; [done|]. rewrite insert_time_perm. constructor; [lia|done].
Qed.

#[local] Program Instance isort : TimeSort := {| sort_times := isort_times |}.
Next Obligation.
  induction l as [|x l IH]; cbn; [done|]. unfold isort_times in IH.
  by rewrite insert_time_perm, IH.
Qed.
Next Obligation.
  induction l as [|x l IH]; cbn; [constructor|]. by apply insert_time_sorted.
Qed.

Definition events0 : list TimedRecord := [ev 12 "b"; ev 3 "a"; ev 14 "c"; ev 31 "d"].

Lemma sliding_windows_exact_witness :
  (∃ fuel out, SlidingWindows fuel events0 20 10 = Some (out, isort_times events0) ∧
     out !! 10 = Some [id_rec "b"; id_rec "c"] ∧ out !! 20 = Some [id_rec "d"] ∧ out !! 5 = None) ∧
  SlidingWindows 1000 events0 20 0 = None.
Proof.
  destruct (sliding_windows_exact events0 20 10) as [Hpos _]; [done|].
  destruct (sliding_windows_exact events0 20 0) as [_ Hneg]; [done|].
  split; [|apply Hneg; lia].
  destruct (Hpos ltac:(lia)) as (f0 & first & final & Hf & Hl & Hb & Hrun).
  assert (At first = 3 ∧ At final = 31) as [E1 E2].
  { pose proof (Hb (ev 3 "a") ltac:(apply list_elem_of_In; cbn; tauto)) as Hb1.
    pose proof (Hb (ev 31 "d") ltac:(apply list_elem_of_In; cbn; tauto)) as Hb2.
    apply list_elem_of_In in Hf, Hl. cbn in Hf, Hl, Hb1, Hb2.
    destruct Hf as [<-|[<-|[<-|[<-|[]]]]], Hl as [<-|[<-|[<-|[<-|[]]]]]; cbn in *; lia. }
  destruct (Hrun f0 (reflexivity _)) as (out & Ho & Hout & _). exists f0, out.
  split; [exact Ho|]. rewrite !Hout, E1, E2.
  split_and!; vm_compute; reflexivity.
Defined.

Lemma tumbling_is_sliding_witness :
  TumblingWindows events0 10 !! 10 = Some [id_rec "b"; id_rec "c"] ∧
  ∃ fuel out, SlidingWindows fuel events0 10 10 = Some (out, isort_times events0) ∧
    is_Some (out !! 10).
Proof.
  split; [vm_compute; reflexivity|].
  destruct (tumbling_is_sliding events0 10) as (fuel & out & Ho & Hall); [lia|done|].
  exists fuel, out. split; [exact Ho|]. specialize (Hall 10).
  destruct (out !! 10); [by eexists|].
  replace (TumblingWindows events0 10 !! 10) with (Some [id_rec "b"; id_rec "c"]) in Hall
    by (vm_compute; reflexivity).
  inversion Hall.
Defined.

Lemma session_windows_exact_witness :
  ∃ ss, SessionWindows events0 9 = (map (map Rec) ss, isort_times events0) ∧
    map (map Rec) ss = [[id_rec "a"; id_rec "b"; id_rec "c"]; [id_rec "d"]] ∧ concat ss ≡ₚ events0.
Proof.
  destruct (session_windows_exact events0 9) as (ss & Hss & _ & Hperm).
  - intros a b Ha Hb. apply list_elem_of_In in Ha, Hb. cbn in Ha, Hb.
    destruct Ha as [<-|[<-|[<-|[<-|[]]]]], Hb as [<-|[<-|[<-|[<-|[]]]]]; cbn; lia.
  - exists ss. split_and!; [exact Hss| |exact Hperm].
    apply (f_equal fst) in Hss. cbn [fst] in Hss. rewrite <- Hss. vm_compute. reflexivity.
Defined.

Lemma watermarks_monotone_witness :
  observeAll (MkWatermark 5 0) [10; 30; 20] = ([5; 25; 25], MkWatermark 5 30) ∧
  StronglySorted Z.le [5; 25; 25].
Proof.
  split; [reflexivity|].
  apply (watermarks_monotone (MkWatermark 5 0) [10; 30; 20] _ (MkWatermark 5 30)). reflexivity.
Defined.

Lemma cep_matches_witness :
  ∃ bs c', cepRun (NewCEPStateMachine ["login"%string; "fail"%string])
             ["login"%string; "login"%string; "fail"%string] = Some (bs, c') ∧
    bs = [false; false; true] ∧
    ["login"%string; "fail"%string] `suffix_of` ["login"%string; "login"%string; "fail"%string].
Proof.
  destruct (cep_matches ["login"%string; "fail"%string] ["login"%string; "login"%string; "fail"%string])
    as (bs & c' & Hrun & _ & Hs & _); [done|].
  exists bs, c'. split; [exact Hrun|]. vm_compute in Hrun. injection Hrun as <- <-.
  split; [reflexivity|]. exact (Hs 2%nat eq_refl).
Defined.

Lemma stream_join_exact_witness :
  StreamJoinWithin [ev 10 "x"] [ev 12 "x"; ev 40 "x"; ev 11 "y"] "id" 5
    = Some [merge_sides (id_rec "x") (id_rec "x")] ∧
  StreamJoinWithin [ev 0 "x"] [ev (2 ^ 63) "x"] "id" 0 = Some [merge_sides (id_rec "x") (id_rec "x")].
Proof.
  split.
  - destruct (stream_join_exact [ev 10 "x"] [ev 12 "x"; ev 40 "x"; ev 11 "y"] "id" 5) as [Hj _].
    rewrite Hj; [vm_compute; reflexivity| |].
    + intros l r lv rv Hl Hr. apply list_elem_of_In in Hl, Hr. cbn in Hl, Hr.
      destruct Hl as [<-|[]], Hr as [<-|[<-|[<-|[]]]];
        intros Hlv Hrv; vm_compute in Hlv, Hrv; injection Hlv as <-; injection Hrv as <-; discriminate.
    + intros l r Hl Hr. apply list_elem_of_In in Hl, Hr. cbn in Hl, Hr.
      destruct Hl as [<-|[]], Hr as [<-|[<-|[<-|[]]]]; cbn; lia.
  - apply (stream_join_exact [] [] "id" 0) with (s := "x"%string); [reflexivity..| |]; cbn; lia.
Defined.
