(* ===== verification/Http.v ===== *)
(** * Requests, responses and JSON

    What the HTTP servers and the client use of the language's library: request
    and response values, [http.Error], JSON values with the decoding of a Go
    struct from them, [strconv.ParseInt], [strings.TrimSpace] and
    [strings.ToLower], and base64, the encoding of a [[]byte].

    The text of a body is not modelled: a request carries the first JSON value
    of its body (none when it is not valid JSON), a response the JSON value it
    encodes. *)

From Stdlib Require Import SpecFloat.
From S2P Require Import Prelude Encoding OS Segment Processor.

(** ** JSON values *)

Inductive json :=
  | JNull
  | JBool (b : bool)
  | JInt (n : Z)            (* a number without fraction and exponent *)
  | JFloat (f : float64)    (* any other number *)
  | JString (s : string)
  | JArr (l : list json)
  | JObj (kvs : list (string * json)).

(** *** Bytes of a string *)

Definition str_bytes (s : string) : list byte := String.list_byte_of_string s.
Definition bytes_str (b : list byte) : string := String.string_of_list_byte b.

Lemma bytes_str_bytes s : bytes_str (str_bytes s) = s.
Proof. apply String.string_of_list_byte_of_string. Qed.

Lemma bytes_str_inv b : str_bytes (bytes_str b) = b.
Proof. apply String.list_byte_of_string_of_list_byte. Qed.

(** *** Struct fields

    Field names match without regard to case (of ASCII letters and of the two
    other characters that fold into them); names are folded to upper case. *)
Definition upper_byte (b : byte) : byte :=
  let n := Z_of_byte b in if (97 <=? n) && (n <=? 122) then byte_of_Z (n - 32) else b.

Fixpoint fold_bytes (bs : list byte) : list byte :=
  match bs with
  | xe2 :: x84 :: xaa :: bs => x4b :: fold_bytes bs   (* the Kelvin sign *)
  | xc5 :: xbf :: bs => x53 :: fold_bytes bs          (* the long s *)
  | b :: bs => upper_byte b :: fold_bytes bs
  | [] => []
  end.
Definition fold_name (s : string) : string := bytes_str (fold_bytes (str_bytes s)).

(** [Decode] into a struct: every key of the object sets the field it names
    ([set], None for a value of the wrong type), null leaves the struct as it
    is, and any other value is an error. *)
Definition decode_struct {R} (set : string → json → R → option R) (zero : R) (j : json) : option R :=
  match j with
  | JNull => Some zero
  | JObj kvs => fold_left (λ acc kv, match acc with
                                     | Some r => set (fold_name kv.1) kv.2 r
                                     | None => None
                                     end) kvs (Some zero)
  | _ => None
  end.

(** [Decode] of a body; a body without a JSON value is an error. *)
Definition decode {R} (set : string → json → R → option R) (zero : R) (body : option json) : option R :=
  match body with Some j => decode_struct set zero j | None => None end.

Definition dec_string (j : json) (old : string) : option string :=
  match j with JString s => Some s | JNull => Some old | _ => None end.
Definition dec_int (j : json) (old : Z) : option Z :=
  match j with
  | JInt n => if decide (int64 n) then Some n else None
  | JNull => Some old
  | _ => None
  end.
Definition dec_float (j : json) (old : float64) : option float64 :=
  match j with
  | JInt n => match float_of_int n with S754_infinity _ => None | f => Some f end
  | JFloat f => Some f
  | JNull => Some old
  | _ => None
  end.
(** [map[string]string]: the entries are added to the map there is. *)
Definition dec_strmap (j : json) (old : gmap string string) : option (gmap string string) :=
  match j with
  | JNull => Some ∅
  | JObj kvs => fold_left (λ acc kv,
                  match acc with
                  | Some m => match dec_string kv.2 EmptyString with
                              | Some s => Some (<[kv.1 := s]> m)
                              | None => None
                              end
                  | None => None
                  end) kvs (Some old)
  | _ => None
  end.

(** *** Encoding *)

(** [json.Marshal] of a [time.Time]: the format is the library's, with the zone
    of the machine; None is a year out of range. *)
Class TimeFormat := time_json : Z → option string.

(** Base64 with padding. *)
Definition b64_digit (n : Z) : byte :=
  byte_of_Z (if n <? 26 then 65 + n else if n <? 52 then 97 + (n - 26)
             else if n <? 62 then 48 + (n - 52) else if n =? 62 then 43 else 47).
Fixpoint base64_bytes (bs : list byte) : list byte :=
  match bs with
  | [] => []
  | [a] => let a := Z_of_byte a in
      [b64_digit (Z.shiftr a 2); b64_digit (Z.shiftl (Z.land a 3) 4); x3d; x3d]
  | [a; b] => let a := Z_of_byte a in let b := Z_of_byte b in
      [b64_digit (Z.shiftr a 2); b64_digit (Z.lor (Z.shiftl (Z.land a 3) 4) (Z.shiftr b 4));
       b64_digit (Z.shiftl (Z.land b 15) 2); x3d]
  | a :: b :: c :: bs => let a := Z_of_byte a in let b := Z_of_byte b in let c := Z_of_byte c in
      b64_digit (Z.shiftr a 2) :: b64_digit (Z.lor (Z.shiftl (Z.land a 3) 4) (Z.shiftr b 4))
      :: b64_digit (Z.lor (Z.shiftl (Z.land b 15) 2) (Z.shiftr c 6))
      :: b64_digit (Z.land c 63) :: base64_bytes bs
  end.
Definition base64 (bs : list byte) : string := bytes_str (base64_bytes bs).

(** A nil [[]byte] is null. *)
Definition json_bytes (bs : list byte) : json :=
  match bs with [] => JNull | _ => JString (base64 bs) end.

(** A map is encoded with sorted keys. *)
Definition json_strmap (m : gmap string string) : json :=
  JObj ((λ k, (k, JString (default EmptyString (m !! k)))) <$> sort_strings (map_to_list m).*1).

Section encode.
Context {TF : TimeFormat}.
(** [Record], with [headers] left out when it is empty. *)
Definition json_record (r : LogRecord) : option json :=
  match time_json (Timestamp r) with
  | None => None
  | Some t =>
      Some (JObj ([("key"%string, json_bytes (Key r)); ("value"%string, json_bytes (Value r))]
                  ++ (if decide (Headers r = ∅) then [] else [("headers"%string, json_strmap (Headers r))])
                  ++ [("timestamp"%string, JString t); ("offset"%string, JInt (Offset r))]))
  end.
Definition json_records (rs : list LogRecord) : option json := JArr <$> mapM json_record rs.
End encode.

(** ** Text *)

(** [strconv.ParseInt(s, 10, 64)] and [strconv.Atoi] of a 64-bit machine. *)
Definition ParseInt (s : string) : option Z :=
  let '(neg, bs) := match str_bytes s with
                    | x2d :: bs => (true, bs)
                    | x2b :: bs => (false, bs)
                    | bs => (false, bs)
                    end in
  let ds := scan_digits bs in
  if decide (ds ≠ [] ∧ length ds = length bs) then
    let v := if neg : bool then - digits_value ds else digits_value ds in
    if decide (int64 v) then Some v else None
  else None.

(** The encodings of the characters [unicode.IsSpace] accepts. *)
Definition space_runes : list (list byte) :=
  [[x09]; [x0a]; [x0b]; [x0c]; [x0d]; [x20]; [xc2; x85]; [xc2; xa0]; [xe1; x9a; x80];
   [xe2; x80; x80]; [xe2; x80; x81]; [xe2; x80; x82]; [xe2; x80; x83]; [xe2; x80; x84];
   [xe2; x80; x85]; [xe2; x80; x86]; [xe2; x80; x87]; [xe2; x80; x88]; [xe2; x80; x89];
   [xe2; x80; x8a]; [xe2; x80; xa8]; [xe2; x80; xa9]; [xe2; x80; xaf]; [xe2; x81; x9f];
   [xe3; x80; x80]].

(** Drop one of [runes] from the front. *)
Fixpoint drop_rune (runes : list (list byte)) (bs : list byte) : option (list byte) :=
  match runes with
  | [] => None
  | r :: runes => if decide (take (length r) bs = r) then Some (drop (length r) bs)
                  else drop_rune runes bs
  end.
Fixpoint trim_front (fuel : nat) (runes : list (list byte)) (bs : list byte) : list byte :=
  match fuel with
  | O => bs
  | S fuel => match drop_rune runes bs with
              | Some bs => trim_front fuel runes bs
              | None => bs
              end
  end.
(** Every turn drops a byte at least. *)
Definition TrimSpace (s : string) : string :=
  let bs := str_bytes s in
  let bs := trim_front (length bs) space_runes bs in
  bytes_str (rev (trim_front (length bs) (@rev byte <$> space_runes) (rev bs))).

(** [strings.ToLower], as far as it concerns ASCII letters: two other characters
    have an ASCII lower case. *)
Definition lower_byte (b : byte) : byte :=
  let n := Z_of_byte b in if (65 <=? n) && (n <=? 90) then byte_of_Z (n + 32) else b.
Fixpoint lower_bytes (bs : list byte) : list byte :=
  match bs with
  | xe2 :: x84 :: xaa :: bs => x6b :: lower_bytes bs
  | xc4 :: xb0 :: bs => x69 :: lower_bytes bs
  | b :: bs => lower_byte b :: lower_bytes bs
  | [] => []
  end.

(** [strings.Contains] *)
Fixpoint contains (sub bs : list byte) : bool :=
  bool_decide (take (length sub) bs = sub)
  || match bs with [] => false | _ :: bs => contains sub bs end.

(** *** UTF-8 *)

Definition cont (b : byte) : bool := let n := Z_of_byte b in (128 <=? n) && (n <=? 191).
Definition between (lo hi : Z) (b : byte) : bool := let n := Z_of_byte b in (lo <=? n) && (n <=? hi).

(** The length of the valid encoding at the front, 0 when there is none. *)
Definition utf8_len (bs : list byte) : nat :=
  match bs with
  | [] => 0
  | b :: bs =>
      if between 0 127 b then 1
      else if between 194 223 b then
        match bs with b1 :: _ => if cont b1 then 2 else 0 | _ => 0 end
      else if between 224 239 b then
        match bs with
        | b1 :: b2 :: _ =>
            let lo := if Z_of_byte b =? 224 then 160 else 128 in
            let hi := if Z_of_byte b =? 237 then 159 else 191 in
            if between lo hi b1 && cont b2 then 3 else 0
        | _ => 0
        end
      else if between 240 244 b then
        match bs with
        | b1 :: b2 :: b3 :: _ =>
            let lo := if Z_of_byte b =? 240 then 144 else 128 in
            let hi := if Z_of_byte b =? 244 then 143 else 191 in
            if between lo hi b1 && cont b2 && cont b3 then 4 else 0
        | _ => 0
        end
      else 0
  end.

(** ** Requests and responses *)

(** [URLPath] is the path as it is sent, without escapes; [Query] holds the first
    value of each parameter; [ReqHeader] the first value of each header by
    canonical name. *)
Record Request := MkRequest {
  Method : string;
  URLPath : string;
  Query : gmap string string;
  ReqHeader : gmap string string;
  Body : option json }.

(** [r.URL.Query().Get(k)] *)
Definition query (r : Request) (k : string) : string := default EmptyString (Query r !! k).

Inductive RespBody :=
  | BText (s : string)
  | BError (e : error)        (* [err.Error()] *)
  | BJson (j : json)
  | BBytes (b : list byte)
  | BRedirect (to : string) (q : gmap string string)  (* the target, with the query *)
  | BEmpty.

Record Response := MkResponse {
  Status : Z;
  RespHeader : gmap string string;
  RespBody_ : RespBody }.

Definition StatusOK : Z := 200.
Definition StatusCreated : Z := 201.
Definition StatusMovedPermanently : Z := 301.
Definition StatusBadRequest : Z := 400.
Definition StatusUnauthorized : Z := 401.
Definition StatusNotFound : Z := 404.
Definition StatusMethodNotAllowed : Z := 405.
Definition StatusConflict : Z := 409.
Definition StatusInternalServerError : Z := 500.

(** [http.Error] on a response whose headers so far are [hdr]. *)
Definition http_Error (hdr : gmap string string) (body : RespBody) (code : Z) : Response :=
  MkResponse code
    (<["Content-Type" := "text/plain; charset=utf-8"]>
     (<["X-Content-Type-Options" := "nosniff"]> (delete "Content-Length" hdr)))%string body.
Definition fail_text (code : Z) (msg : string) : Response := http_Error ∅ (BText msg) code.
Definition fail_err (code : Z) (e : error) : Response := http_Error ∅ (BError e) code.

(** [cleanPath] of [http.ServeMux]: [path.Clean] of the rooted path, with a
    trailing slash put back. *)
Definition cleanPath (p : string) : string :=
  let comps := reverse (fold_left (clean_step true) (split_on slash p) []) in
  let np := String.concat EmptyString ((λ c, "/" +:+ c) <$> comps) in
  if bool_decide (comps = []) then "/"
  else if bool_decide (last (split_on slash p) = Some EmptyString) then np +:+ "/" else np.

(** The answer of [http.ServeMux] to a path without a handler, where the handlers
    are for cleaned paths only: a path that is not clean is redirected to its
    cleaned form (except for a CONNECT request), any other is not found. *)
Definition unmatched (r : Request) : Response :=
  if bool_decide (Method r ≠ "CONNECT"%string ∧ cleanPath (URLPath r) ≠ URLPath r) then
    MkResponse StatusMovedPermanently
      (if bool_decide (Method r = "GET"%string ∨ Method r = "HEAD"%string)
       then {["Content-Type" := "text/html; charset=utf-8"]}%string else ∅)
      (BRedirect (cleanPath (URLPath r)) (Query r))
  else fail_text StatusNotFound "404 page not found".

Lemma unmatched_status r :
  Status (unmatched r) = StatusMovedPermanently ∨ Status (unmatched r) = StatusNotFound.
Proof. unfold unmatched. case_bool_decide; [by left|by right]. Qed.

Lemma cleanPath_examples :
  cleanPath "/produce" = "/produce"%string ∧ cleanPath "//produce" = "/produce"%string
  ∧ cleanPath "/a/../produce/" = "/produce/"%string ∧ cleanPath EmptyString = "/"%string
  ∧ cleanPath "/nope/" = "/nope/"%string ∧ cleanPath "/.." = "/"%string.
Proof. by vm_compute. Qed.

(** A JSON response; when the value cannot be encoded the body stays empty. *)
Definition writeJSON (status : Z) (v : option json) : Response :=
  MkResponse status {["Content-Type" := "application/json"]}%string
    match v with Some j => BJson j | None => BEmpty end.

(** ** Lemmas *)

Lemma ParseInt_sprintf v : int64 v → ParseInt (bytes_str (sprintf_d v)) = Some v.
Proof.
  intros Hv. unfold ParseInt, str_bytes, bytes_str. rewrite String.list_byte_of_string_of_list_byte.
  unfold int64 in Hv. unfold sprintf_d. destruct (v <? 0) eqn:Hneg; bool_prop.
  - assert (0 <= - v < 10 ^ Z.of_nat 20) as Hr by (cbn; lia). unfold minus_byte.
    rewrite scan_digits_bytes by by apply dec_digits_range.
    rewrite decide_True by (split; [apply dec_digits_nonempty|by rewrite length_fmap]).
    rewrite dec_digits_value by done. rewrite decide_True by (unfold int64; lia). f_equal. lia.
  - assert (0 <= v < 10 ^ Z.of_nat 20) as Hr by (cbn; lia).
    pose proof (dec_digits_range 20 v Hr) as Hds. pose proof (dec_digits_value 20 v Hr) as Hval.
    pose proof (dec_digits_nonempty 20 v) as Hne.
    pose proof (scan_digits_bytes _ Hds) as Hscan.
    destruct (dec_digits 20 v) as [|d ds]; [done|].
    pose proof (Forall_inv Hds) as Hd. destruct (digit_byte_plain d Hd) as (_ & Hm & Hp).
    cbn [fmap list_fmap] in *.
    destruct (digit_byte d) eqn:Hb; try done; rewrite Hscan;
      (rewrite decide_True by (split; [done|cbn; by rewrite length_fmap]));
      rewrite Hval; (rewrite decide_True by (unfold int64; lia)); done.
Qed.
