(* ===== verification/BrokerServer.v ===== *)
(** * The broker's HTTP server ([src/apps/broker/main.go]; [src/cmd/broker/main.go]
    is the same file)

    The start of the server and its handlers, as functions from a request, the
    broker and the world to a response and the new state.  Requests of several
    connections interleave only between the broker's operations, each of which
    holds the broker's mutex; the runs here are of requests one after the other. *)

From S2P Require Import Prelude Encoding OS Segment Samples SegmentFacts ConsumerGroup Broker.
From S2P Require Import BrokerFacts BrokerRun BrokerProps SendFile Processor Http.

(** ** Requests *)

Record produceReq := MkProduceReq {
  pr_Topic : string;
  pr_Key : string;
  pr_Value : string;
  pr_Headers : gmap string string }.

Definition produceReq_set (name : string) (j : json) (r : produceReq) : option produceReq :=
  let '(MkProduceReq t k v h) := r in
  if bool_decide (name = "TOPIC"%string) then (λ t, MkProduceReq t k v h) <$> dec_string j t
  else if bool_decide (name = "KEY"%string) then (λ k, MkProduceReq t k v h) <$> dec_string j k
  else if bool_decide (name = "VALUE"%string) then (λ v, MkProduceReq t k v h) <$> dec_string j v
  else if bool_decide (name = "HEADERS"%string) then (λ h, MkProduceReq t k v h) <$> dec_strmap j h
  else Some r.

Definition decode_produceReq : option json → option produceReq :=
  decode produceReq_set (MkProduceReq EmptyString EmptyString EmptyString ∅).

(** The parameters of [/consume]: the response to a bad one, or topic, offset
    and maximum. *)
Definition consume_params (r : Request) : Response + (string * Z * Z) :=
  let topic := query r "topic" in
  if bool_decide (topic = EmptyString) then inl (fail_text StatusBadRequest "topic is required")
  else
    let offset := let v := query r "offset" in
                  if bool_decide (v = EmptyString) then Some 0 else ParseInt v in
    match offset with
    | None => inl (fail_text StatusBadRequest "invalid offset")
    | Some offset =>
        let max := let v := query r "max" in
                   if bool_decide (v = EmptyString) then Some 100
                   else match ParseInt v with
                        | Some parsed => if parsed <=? 0 then None else Some parsed
                        | None => None
                        end in
        match max with
        | None => inl (fail_text StatusBadRequest "invalid max")
        | Some max => inr (topic, offset, max)
        end
    end.

Section server.
Context {E : Env} {C : RecordCodec} {TF : TimeFormat}.

(** ** Handlers *)

Definition serve_produce (r : Request) (b : Broker) (w : world) : Response * Broker * world :=
  if negb (bool_decide (Method r = "POST"%string))
  then (fail_text StatusMethodNotAllowed "method not allowed", b, w)
  else match decode_produceReq (Body r) with
  | None => (fail_text StatusBadRequest "invalid json", b, w)
  | Some req =>
      if bool_decide (pr_Topic req = EmptyString)
      then (fail_text StatusBadRequest "topic is required", b, w)
      else match CreateTopic (pr_Topic req) b w with
      | (Err e, b, w) => (fail_err StatusInternalServerError e, b, w)
      | (Ok _, b, w) =>
          match Produce (pr_Topic req) (str_bytes (pr_Key req)) (str_bytes (pr_Value req))
                  (pr_Headers req) b w with
          | (Err e, b, w) => (fail_err StatusInternalServerError e, b, w)
          | (Ok rec, b, w) => (writeJSON StatusOK (json_record rec), b, w)
          end
      end
  end.

Definition serve_consume (r : Request) (b : Broker) (w : world) : Response * world :=
  if negb (bool_decide (Method r = "GET"%string))
  then (fail_text StatusMethodNotAllowed "method not allowed", w)
  else match consume_params r with
  | inl resp => (resp, w)
  | inr (topic, offset, max) =>
      match Consume topic offset max b w with
      | (Err e, w) => (fail_err StatusNotFound e, w)
      | (Ok recs, w) => (writeJSON StatusOK (json_records recs), w)
      end
  end.

(** The writer is the server's response, not an [*os.File]; bytes sent before an
    error are already on the wire, with status 200. *)
Definition serve_fetchraw (r : Request) (b : Broker) (w : world) : Response * world :=
  if negb (bool_decide (Method r = "GET"%string))
  then (fail_text StatusMethodNotAllowed "method not allowed", w)
  else
    let topic := query r "topic" in
    if bool_decide (topic = EmptyString) then (fail_text StatusBadRequest "topic is required", w)
    else
      let offsetStr := query r "offset" in
      if bool_decide (offsetStr = EmptyString)
      then (fail_text StatusBadRequest "offset is required", w)
      else match ParseInt offsetStr with
      | None => (fail_text StatusBadRequest "invalid offset", w)
      | Some offset =>
          match FetchRaw topic offset b w with
          | (Err e, w) => (fail_err StatusNotFound e, w)
          | (Ok (f, pos, len), w) =>
              let hdr := {["Content-Type" := "application/octet-stream";
                           "Content-Length" := bytes_str (sprintf_d len)]}%string in
              (match SendFile false (default [] (file w f)) pos len [] with
               | Some (_, None, out) => MkResponse StatusOK hdr (BBytes out)
               | Some (_, Some e, []) => http_Error hdr (BError e) StatusInternalServerError
               | Some (_, Some _, out) => MkResponse StatusOK hdr (BBytes out)
               | None => http_Error hdr BEmpty StatusInternalServerError
               end, w)
          end
      end.

(** The [ServeMux]: exact paths. *)
Definition serve (r : Request) (b : Broker) (w : world) : Response * Broker * world :=
  if bool_decide (URLPath r = "/health"%string) then (MkResponse StatusOK ∅ (BText "ok"), b, w)
  else if bool_decide (URLPath r = "/produce"%string) then serve_produce r b w
  else if bool_decide (URLPath r = "/consume"%string)
       then let '(resp, w) := serve_consume r b w in (resp, b, w)
  else if bool_decide (URLPath r = "/fetchraw"%string)
       then let '(resp, w) := serve_fetchraw r b w in (resp, b, w)
  else (unmatched r, b, w).

(** [main] up to [ListenAndServe]; an error panics. *)
Definition server_start (workDir : path) (w : world) : res Broker * world :=
  match MkdirAll workDir w with
  | (Err e, w) => (Err e, w)
  | (Ok _, w) =>
      match NewBroker workDir w with
      | (Err e, w) => (Err e, w)
      | (Ok b, w) =>
          match CreateTopic "orders" b w with
          | (Err e, _, w) => (Err e, w)
          | (Ok _, b, w) => (Ok b, w)
          end
      end
  end.

(** ** Runs *)

(** The requests under which an acknowledged record stays: topic names are single
    path components, records can be stored, and the topic's counters have room
    for one more.  The server itself checks only that the name is not empty;
    [http_aliased_topics_overwrite] is about names this excludes. *)
Definition good_request (r : Request) (b : Broker) (w : world) : Prop :=
  ∀ req, URLPath r = "/produce"%string → decode_produceReq (Body r) = Some req →
    pr_Topic req ≠ EmptyString →
    plain (pr_Topic req) = true ∧
    storable (str_bytes (pr_Key req)) (str_bytes (pr_Value req)) (pr_Headers req) ∧
    ∀ t' b' w', CreateTopic (pr_Topic req) b w = (Ok t', b', w') →
      ∀ t, topics b' !! pr_Topic req = Some t → topic_room t.

Inductive http_run : Broker → world → list (Request * Response) → Broker → world → Prop :=
| http_nil b w : http_run b w [] b w
| http_cons r resp b w b1 w1 tr b' w' :
    good_request r b w → serve r b w = (resp, b1, w1) →
    http_run b1 w1 tr b' w' → http_run b w ((r, resp) :: tr) b' w'.

(** What an exchange acknowledges: the record in a 200 response to [/produce]. *)
Definition acked (x : Request * Response) (a : list ack) : Prop :=
  if decide (URLPath x.1 = "/produce"%string ∧ Status x.2 = StatusOK)
  then ∃ req rec, decode_produceReq (Body x.1) = Some req ∧ pr_Topic req ≠ EmptyString
         ∧ a = [(pr_Topic req, rec)] ∧ x.2 = writeJSON StatusOK (json_record rec)
  else a = [].

Lemma acked_named tr acks name rec :
  Forall2 acked tr acks → (name, rec) ∈ concat acks → name ≠ EmptyString.
Proof.
  induction 1 as [|x a tr acks Ha HA IH]; [intros Hin; by apply elem_of_nil in Hin|].
  cbn. rewrite elem_of_app. intros [Hin|Hin]; [|by apply IH].
  unfold acked in Ha. case_decide; [|subst a; by apply elem_of_nil in Hin].
  destruct Ha as (req & rec' & _ & Hne & -> & _). apply list_elem_of_singleton in Hin. congruence.
Qed.

(** ** Every exchange is a run of broker operations *)

Lemma broker_run_one b w a b' w' : broker_step b w a b' w' → broker_run b w a b' w'.
Proof. intros HS. rewrite <- (app_nil_r a). eapply run_cons; [exact HS|apply run_nil]. Qed.

Lemma broker_run_two b w a b1 w1 a' b' w' :
  broker_step b w a b1 w1 → broker_step b1 w1 a' b' w' → broker_run b w (a ++ a') b' w'.
Proof. intros H1 H2. eapply run_cons; [exact H1|by apply broker_run_one]. Qed.

Lemma acked_none r resp : Status resp ≠ StatusOK ∨ URLPath r ≠ "/produce"%string → acked (r, resp) [].
Proof. intros Hn. unfold acked. cbn. rewrite decide_False; [done|]. naive_solver. Qed.

Lemma serve_produce_run r b w resp b' w' :
  URLPath r = "/produce"%string → good_request r b w → serve_produce r b w = (resp, b', w') →
  ∃ a, acked (r, resp) a ∧ broker_run b w a b' w'.
Proof.
  intros Hp Hg. unfold serve_produce.
  destruct (negb _); [intros [= <- <- <-]; exists []; split; [by apply acked_none; left|constructor]|].
  destruct (decode_produceReq (Body r)) as [req|] eqn:Hdec;
    [|intros [= <- <- <-]; exists []; split; [by apply acked_none; left|constructor]].
  case_bool_decide as Ht;
    [intros [= <- <- <-]; exists []; split; [by apply acked_none; left|constructor]|].
  destruct (Hg req Hp Hdec Ht) as (Hplain & Hst & Hroom).
  destruct (CreateTopic _ b w) as [[[t|e] b1] w1] eqn:HC.
  2:{ intros [= <- <- <-]. exists []. split; [by apply acked_none; left|].
      apply broker_run_one. by eapply step_create. }
  destruct (Produce _ _ _ _ b1 w1) as [[[rec|e] b2] w2] eqn:HP; intros [= <- <- <-].
  - exists ([] ++ acks_of (pr_Topic req) (Ok rec)). split.
    + unfold acked. cbn. rewrite decide_True by done. by exists req, rec.
    + eapply broker_run_two; [by eapply step_create|].
      eapply step_produce; [by eapply Hroom|done|done].
  - exists ([] ++ acks_of (pr_Topic req) (Err e)). split; [by apply acked_none; left|].
    eapply broker_run_two; [by eapply step_create|].
    eapply step_produce; [by eapply Hroom|done|done].
Qed.

Lemma serve_consume_run r b w resp w' :
  serve_consume r b w = (resp, w') → broker_run b w [] b w'.
Proof.
  unfold serve_consume. destruct (negb _); [intros [= _ <-]; constructor|].
  destruct (consume_params r) as [?|[[t o] m]]; [intros [= _ <-]; constructor|].
  destruct (Consume t o m b w) as [[l|e] w1] eqn:HC; intros [= _ <-];
    (apply broker_run_one; by eapply step_consume).
Qed.

Lemma serve_fetchraw_run r b w resp w' :
  serve_fetchraw r b w = (resp, w') → broker_run b w [] b w'.
Proof.
  unfold serve_fetchraw. destruct (negb _); [intros [= _ <-]; constructor|].
  case_bool_decide; [intros [= _ <-]; constructor|].
  case_bool_decide; [intros [= _ <-]; constructor|].
  destruct (ParseInt _) as [o|]; [|intros [= _ <-]; constructor].
  destruct (FetchRaw _ o b w) as [[[[f p] l]|e] w1] eqn:HF; intros [= _ <-];
    (apply broker_run_one; by eapply step_fetch_raw).
Qed.

Lemma serve_run r b w resp b' w' :
  good_request r b w → serve r b w = (resp, b', w') →
  ∃ a, acked (r, resp) a ∧ broker_run b w a b' w'.
Proof.
  intros Hg. unfold serve.
  case_bool_decide as H1.
  { intros [= <- <- <-]. exists []. split; [|constructor]. apply acked_none. right. by rewrite H1. }
  case_bool_decide as H2; [by apply serve_produce_run|].
  case_bool_decide as H3; [|case_bool_decide as H4].
  - destruct (serve_consume r b w) as [rs w1] eqn:Hs. intros [= <- <- <-]. exists [].
    split; [apply acked_none; by right|by eapply serve_consume_run].
  - destruct (serve_fetchraw r b w) as [rs w1] eqn:Hs. intros [= <- <- <-]. exists [].
    split; [apply acked_none; by right|by eapply serve_fetchraw_run].
  - intros [= <- <- <-]. exists []. split; [apply acked_none; by right|constructor].
Qed.

Lemma broker_run_app b w a b1 w1 a' b' w' :
  broker_run b w a b1 w1 → broker_run b1 w1 a' b' w' → broker_run b w (a ++ a') b' w'.
Proof.
  induction 1 as [|? ? ? ? ? ? ? ? HS HR IH]; intros H2; [done|].
  rewrite <- app_assoc. eapply run_cons; [exact HS|by apply IH].
Qed.

Lemma http_run_broker b w tr b' w' :
  http_run b w tr b' w' → ∃ acks, Forall2 acked tr acks ∧ broker_run b w (concat acks) b' w'.
Proof.
  induction 1 as [|r resp b w b1 w1 tr b' w' Hg Hs HR (acks & HA & HB)].
  - exists []. split; constructor.
  - destruct (serve_run _ _ _ _ _ _ Hg Hs) as (a & Ha & Hrun). exists (a :: acks).
    split; [by constructor|]. cbn. by eapply broker_run_app.
Qed.

(** ** Reading over HTTP *)

Definition consume_request (topic : string) (offset max : Z) : Request :=
  MkRequest "GET" "/consume"
    {["topic" := topic; "offset" := bytes_str (sprintf_d offset); "max" := bytes_str (sprintf_d max)]}%string
    ∅ None.

Lemma sprintf_nonempty v : bytes_str (sprintf_d v) ≠ EmptyString.
Proof.
  unfold sprintf_d, bytes_str. destruct (v <? 0); [done|].
  pose proof (dec_digits_nonempty 20 v). by destruct (dec_digits 20 v).
Qed.

Lemma consume_request_params topic offset max :
  topic ≠ EmptyString → int64 offset → 0 < max < 2 ^ 63 →
  consume_params (consume_request topic offset max) = inr (topic, offset, max).
Proof.
  intros Ht Ho Hm. unfold consume_params.
  replace (query (consume_request topic offset max) "topic") with topic by reflexivity.
  replace (query (consume_request topic offset max) "offset") with (bytes_str (sprintf_d offset)) by reflexivity.
  replace (query (consume_request topic offset max) "max") with (bytes_str (sprintf_d max)) by reflexivity.
  rewrite !bool_decide_false by (done || apply sprintf_nonempty).
  rewrite !ParseInt_sprintf by (unfold int64; lia || done).
  by replace (max <=? 0) with false by lia.
Qed.

Lemma serve_consume_request topic offset max b w :
  topic ≠ EmptyString → int64 offset → 0 < max < 2 ^ 63 →
  serve (consume_request topic offset max) b w
    = let '(r, w) := Consume topic offset max b w in
      (match r with
       | Ok recs => writeJSON StatusOK (json_records recs)
       | Err e => fail_err StatusNotFound e
       end, b, w).
Proof.
  intros Ht Ho Hm. unfold serve. cbn [URLPath consume_request].
  rewrite (bool_decide_false ("/consume"%string = "/health"%string)) by done.
  rewrite (bool_decide_false ("/consume"%string = "/produce"%string)) by done.
  rewrite (bool_decide_true ("/consume"%string = "/consume"%string)) by done.
  unfold serve_consume. cbn [Method consume_request]. rewrite bool_decide_true by done.
  cbn [negb]. rewrite consume_request_params by done.
  by destruct (Consume topic offset max b w) as [[l|e] w1].
Qed.
End server.

Lemma server_start_inv `{E : Env, C : RecordCodec, !RecordCodecLaws} dir w0 b w :
  (∀ name, plain name = true → no_segment w0 (OS.Join dir name)) →
  server_start dir w0 = (Ok b, w) → ∃ logs, run_inv logs b w.
Proof.
  intros Hfree. unfold server_start.
  destruct (MkdirAll dir w0) as [[[]|] w1] eqn:H1; [|done].
  destruct (NewBroker dir w1) as [[b1|] w2] eqn:H2; [|done].
  destruct (CreateTopic "orders" b1 w2) as [[[t|] b2] w3] eqn:H3; [|done]. intros [= <- <-].
  assert (∀ name, plain name = true → no_segment w1 (OS.Join dir name)) as Hfree1.
  { intros name Hn. eapply no_segment_files; [|by apply Hfree].
    intros x _. by rewrite (MkdirAll_file _ _ _ _ _ H1). }
  destruct (NewBroker_inv _ _ _ _ Hfree1 H2) as [HI _].
  destruct (create_inv _ "orders" _ _ _ _ _ HI eq_refl H3) as (logs & HI' & _). by exists logs.
Qed.

(** C3: Over HTTP, on a server started in a directory without records, in any run
    of requests one after the other, with any system calls failing, whose topic
    names are single path components, whose records can be stored and for which
    the counters have room ([http_aliased_topics_overwrite] is what happens with
    two names for one directory): every 200 response to
    [/produce] carries a record that stays readable, [/consume] at its offset
    answering with exactly that record (and 200, unless a system call fails),
    and the offsets a topic's responses carry increase strictly. *)
Theorem http_acked_records_stay
    `{E : Env, C : RecordCodec, !RecordCodecLaws, TF : TimeFormat} dir w0 b w tr b' w' :
  (∀ name, plain name = true → no_segment w0 (OS.Join dir name)) →
  server_start dir w0 = (Ok b, w) → http_run b w tr b' w' →
  ∃ acks, Forall2 acked tr acks ∧ acks_ordered (concat acks) ∧
    ∀ name rec, (name, rec) ∈ concat acks → int64 (Offset rec) →
      ∀ resp b'' w'', serve (consume_request name (Offset rec) 1) b' w' = (resp, b'', w'') →
        b'' = b' ∧
        (Status resp = StatusOK → ∃ o, resp = writeJSON StatusOK (json_records [with_offset o rec])) ∧
        (Reliable E → Status resp = StatusOK).
Proof.
  intros Hfree Hstart Hrun. destruct (server_start_inv _ _ _ _ Hfree Hstart) as [logs0 HI].
  destruct (http_run_broker _ _ _ _ _ Hrun) as (acks & HA & HB).
  destruct (run_inv_steps _ _ _ _ _ _ HI HB) as (logs & [HR _] & _ & Hin & _ & Hord).
  exists acks. split_and!; [done..|]. intros name rec Hmem Hoff resp b'' w'' Hs.
  pose proof (acked_named _ _ _ _ HA Hmem) as Hne.
  rewrite serve_consume_request in Hs by (done || lia).
  destruct (Consume name (Offset rec) 1 b' w') as [r w1] eqn:HC. injection Hs as <- <- <-.
  eapply Forall_forall in Hin; [|exact Hmem].
  destruct (in_log_consume logs b' w' (name, rec) r w1 HR Hin HC) as [H1 H2].
  split_and!; [done| |].
  - destruct r as [l|e]; [|done]. intros _. destruct (H1 l eq_refl) as [o ->]. by exists o.
  - intros HRel. specialize (H2 HRel). by destruct r.
Qed.

(** Zero-copy reads do not work over HTTP: on Linux a [/fetchraw] request
    never answers 200, and one for a record that is there gets status 500 with
    the error of a writer that is not a file. *)
Theorem fetchraw_always_fails `{E : Env, C : RecordCodec, TF : TimeFormat} r b w :
  URLPath r = "/fetchraw"%string →
  (∀ resp b' w', serve r b w = (resp, b', w') → Status resp ≠ StatusOK ∧ b' = b) ∧
  (∀ topic off p w', Method r = "GET"%string → Query r !! "topic"%string = Some topic →
     topic ≠ EmptyString → Query r !! "offset"%string = Some (bytes_str (sprintf_d off)) →
     int64 off → FetchRaw topic off b w = (Ok p, w') →
     ∃ hdr, serve r b w = (http_Error hdr (BError ErrInvalid) StatusInternalServerError, b, w')).
Proof.
  intros Hp. unfold serve. rewrite Hp.
  rewrite (bool_decide_false ("/fetchraw"%string = "/health"%string)) by done.
  rewrite (bool_decide_false ("/fetchraw"%string = "/produce"%string)) by done.
  rewrite (bool_decide_false ("/fetchraw"%string = "/consume"%string)) by done.
  rewrite (bool_decide_true ("/fetchraw"%string = "/fetchraw"%string)) by done.
  unfold serve_fetchraw. split.
  - intros resp b' w'. destruct (negb _); [by intros [= <- <- <-]|].
    case_bool_decide; [by intros [= <- <- <-]|]. case_bool_decide; [by intros [= <- <- <-]|].
    destruct (ParseInt _) as [o|]; [|by intros [= <- <- <-]].
    destruct (FetchRaw _ o b w) as [[[[f pos] len]|e] w1]; by intros [= <- <- <-].
  - intros topic off [[f pos] len] w' Hm Ht Hne Ho Hoff HF. rewrite Hm.
    rewrite (bool_decide_true ("GET"%string = "GET"%string)) by done. cbn [negb].
    unfold query. rewrite Ht, Ho. cbn [default from_option id].
    rewrite !bool_decide_false by (done || apply sprintf_nonempty).
    rewrite ParseInt_sprintf by done. rewrite HF. eexists. reflexivity.
Qed.

(** A request that is refused as such (status 400, 404 to an unknown path,
    or 405) changes neither the broker nor any file, and [/consume] and
    [/fetchraw] never change the broker; while draining, [/produce] answers 500. *)
Theorem http_refusals_have_no_effect `{E : Env, C : RecordCodec, TF : TimeFormat}
    r b w resp b' w' :
  serve r b w = (resp, b', w') →
  (Status resp = StatusBadRequest ∨ Status resp = StatusMethodNotAllowed → b' = b ∧ w' = w) ∧
  (URLPath r ≠ "/produce"%string → b' = b ∧ ∀ q, w_nodes w' !! q = w_nodes w !! q) ∧
  (∀ req t, URLPath r = "/produce"%string → Method r = "POST"%string →
     decode_produceReq (Body r) = Some req → pr_Topic req ≠ EmptyString →
     topics b !! pr_Topic req = Some t → (isDrainingLocked b w).1 = true →
     resp = fail_err StatusInternalServerError ErrDraining ∧ b' = b).
Proof.
  intros Hs. split_and!.
  - intros Hst. revert Hs. unfold serve.
    case_bool_decide; [by intros [= <- <- <-]|].
    case_bool_decide.
    { unfold serve_produce. destruct (negb _); [by intros [= <- <- <-]|].
      destruct (decode_produceReq _); [|by intros [= <- <- <-]].
      case_bool_decide; [by intros [= <- <- <-]|].
      destruct (CreateTopic _ b w) as [[[t|e] b1] w1];
        [destruct (Produce _ _ _ _ b1 w1) as [[[rec|e] b2] w2]|];
        intros [= <- <- <-]; destruct Hst; done. }
    case_bool_decide.
    { unfold serve_consume. destruct (negb _); [by intros [= <- <- <-]|].
      destruct (consume_params r) as [?|[[t o] m]]; [by intros [= <- <- <-]|].
      destruct (Consume t o m b w) as [[l|e] w1]; intros [= <- <- <-]; destruct Hst; done. }
    case_bool_decide; [|by intros [= <- <- <-]].
    unfold serve_fetchraw. destruct (negb _); [by intros [= <- <- <-]|].
    case_bool_decide; [by intros [= <- <- <-]|]. case_bool_decide; [by intros [= <- <- <-]|].
    destruct (ParseInt _) as [o|]; [|by intros [= <- <- <-]].
    destruct (FetchRaw _ o b w) as [[[[f pos] len]|e] w1]; intros [= <- <- <-]; destruct Hst; done.
  - intros Hp. revert Hs. unfold serve. rewrite (bool_decide_false (URLPath r = "/produce"%string)) by done.
    case_bool_decide; [by intros [= <- <- <-]|]. case_bool_decide; [|case_bool_decide].
    + destruct (serve_consume r b w) as [rs w1] eqn:Hc. intros [= <- <- <-]. split; [done|].
      revert Hc. unfold serve_consume. destruct (negb _); [by intros [= <- <-]|].
      destruct (consume_params r) as [?|[[t o] m]]; [by intros [= <- <-]|].
      destruct (Consume t o m b w) as [[l|e] w2] eqn:HC; intros [= <- <-] q; by eapply Consume_nodes.
    + destruct (serve_fetchraw r b w) as [rs w1] eqn:Hc. intros [= <- <- <-]. split; [done|].
      revert Hc. unfold serve_fetchraw. destruct (negb _); [by intros [= <- <-]|].
      case_bool_decide; [by intros [= <- <-]|]. case_bool_decide; [by intros [= <- <-]|].
      destruct (ParseInt _) as [o|]; [|by intros [= <- <-]].
      destruct (FetchRaw _ o b w) as [[[[f pos] len]|e] w2] eqn:HF; intros [= <- <-] q;
        by eapply FetchRaw_nodes.
    + by intros [= <- <- <-].
  - intros req t Hp Hm Hd Hne Ht Hdr. revert Hs. unfold serve. rewrite Hp.
    rewrite (bool_decide_false ("/produce"%string = "/health"%string)) by done.
    rewrite (bool_decide_true ("/produce"%string = "/produce"%string)) by done.
    unfold serve_produce. rewrite Hm, (bool_decide_true ("POST"%string = "POST"%string)) by done.
    cbn [negb]. rewrite Hd, bool_decide_false by done. unfold CreateTopic. rewrite Ht.
    unfold Produce. destruct (isDrainingLocked b w) as [dr w1]. cbn in Hdr. subst dr.
    by intros [= <- <- <-].
Qed.

(** ** Witnesses *)

#[local] Instance tf0 : TimeFormat := λ _, Some "2023-11-14T22:13:20Z"%string.

Definition start0 : res Broker * world := server_start (E := env0) dir0 world0.
Definition sbroker : Broker := match start0.1 with Ok b => b | Err _ => broker0 end.
Definition sworld : world := start0.2.

Lemma start0_ok : server_start (E := env0) dir0 world0 = (Ok sbroker, sworld).
Proof.
  unfold sbroker, sworld. change (server_start dir0 world0) with start0.
  assert (is_ok start0.1 = true) as Hok by (vm_compute; reflexivity).
  destruct start0 as [[b|e] w]; [done|discriminate].
Qed.

Lemma CreateTopic_existing `{E : Env} name b w t :
  topics b !! name = Some t → CreateTopic name b w = (Ok t, b, w).
Proof. unfold CreateTopic. by intros ->. Qed.

Definition post0 : Request :=
  MkRequest "POST" "/produce" ∅ ∅
    (Some (JObj [("topic", JString "orders"); ("Key", JString "k"); ("value", JString "v")]))%string.
Definition served0 : Response * Broker * world := serve (E := env0) (C := codec0) post0 sbroker sworld.
Definition srec : LogRecord := MkRecord k0 v0 ∅ (clock0 9) 0.

Definition post_of (topic value : string) : Request :=
  MkRequest "POST" "/produce" ∅ ∅
    (Some (JObj [("topic", JString topic); ("value", JString value)]))%string.

(** The server takes any topic name and [filepath.Join] cleans it: "orders" and
    "./orders" are two topics on the same files.  The record "b" acknowledged on
    "./orders" at offset 1 is overwritten by the next one on "orders". *)
Theorem http_aliased_topics_overwrite :
  let s1 := serve (E := env0) (C := codec0) (post_of "orders" "a") sbroker sworld in
  let s2 := serve (E := env0) (C := codec0) (post_of "./orders" "b") s1.1.2 s1.2 in
  let s3 := serve (E := env0) (C := codec0) (post_of "orders" "c") s2.1.2 s2.2 in
  let read s := (match (Consume (E := env0) (C := codec0) "./orders" 1 1 s.1.2 s.2).1 with
                 | Ok l => Value <$> l | Err _ => [] end) in
  Status s1.1.1 = StatusOK ∧ Status s2.1.1 = StatusOK ∧ Status s3.1.1 = StatusOK
  ∧ read s2 = [bytes_of "b"] ∧ read s3 = [bytes_of "c"].
Proof.
  cbv zeta. split; [vm_compute; reflexivity|]. split; [vm_compute; reflexivity|].
  split; [vm_compute; reflexivity|]. split; vm_compute; reflexivity.
Qed.

Lemma served0_ok : serve (E := env0) (C := codec0) post0 sbroker sworld
  = (writeJSON StatusOK (json_record srec), served0.1.2, served0.2).
Proof.
  assert (served0.1.1 = writeJSON StatusOK (json_record srec)) as <- by (vm_compute; reflexivity).
  unfold served0. by rewrite <- !surjective_pairing.
Qed.

Lemma post0_good : good_request (E := env0) (C := codec0) post0 sbroker sworld.
Proof.
  intros req _ Hd _. vm_compute in Hd. injection Hd as <-. split_and!; [reflexivity|apply kv0_carriable|].
  intros t' b' w' HC t Ht seg Hseg.
  assert (topics sbroker !! "orders"%string = Some topic1) as Heq by (vm_compute; reflexivity).
  cbn [pr_Topic] in HC, Ht. rewrite (CreateTopic_existing _ _ _ _ Heq) in HC.
  apply (f_equal (λ x, x.1.2)) in HC. cbn [fst snd] in HC. subst b'. rewrite Heq in Ht.
  apply (inj Some) in Ht. subst t. exact (proj2 (proj2 broker1_rep) seg Hseg).
Qed.

Lemma http_acked_records_stay_witness :
  ∃ acks, Forall2 acked [(post0, writeJSON StatusOK (json_record srec))] acks ∧
    ∀ name rec, (name, rec) ∈ concat acks → Offset rec = 0 →
      ∃ o, (serve (E := env0) (C := codec0) (consume_request name 0 1) served0.1.2 served0.2).1.1
           = writeJSON StatusOK (json_records [with_offset o rec]).
Proof.
  destruct (http_acked_records_stay (E := env0) (C := codec0) dir0 world0 sbroker sworld
    [(post0, writeJSON StatusOK (json_record srec))] served0.1.2 served0.2) as (acks & HA & _ & Hread).
  - intros name _. apply world0_free.
  - apply start0_ok.
  - eapply http_cons; [apply post0_good|apply served0_ok|apply http_nil].
  - exists acks. split; [exact HA|]. intros name rec Hin Ho.
    destruct (serve (E := env0) (C := codec0) (consume_request name 0 1) served0.1.2 served0.2)
      as [[resp b''] w''] eqn:Hs.
    destruct (Hread name rec Hin) with (resp := resp) (b'' := b'') (w'' := w'') as (_ & H1 & H2).
    + rewrite Ho. unfold int64. lia.
    + rewrite Ho. exact Hs.
    + cbn [fst]. apply H1, H2, env0_reliable.
Defined.

Definition raw0 : Request :=
  MkRequest "GET" "/fetchraw" {["topic" := "orders"; "offset" := "0"]}%string ∅ None.

Lemma fetchraw_always_fails_witness :
  Status (serve (E := env0) (C := codec0) raw0 served0.1.2 served0.2).1.1 ≠ StatusOK ∧
  Status (serve (E := env0) (C := codec0) raw0 served0.1.2 served0.2).1.1 = 500.
Proof.
  destruct (fetchraw_always_fails (E := env0) (C := codec0) raw0 served0.1.2 served0.2) as [Hn _];
    [reflexivity|].
  split; [|vm_compute; reflexivity].
  eapply Hn. rewrite <- !surjective_pairing. reflexivity.
Defined.

Definition bad0 : Request := MkRequest "GET" "/produce" ∅ ∅ None.

Lemma http_refusals_have_no_effect_witness :
  serve (E := env0) (C := codec0) bad0 sbroker sworld
    = (fail_text StatusMethodNotAllowed "method not allowed", sbroker, sworld).
Proof.
  destruct (serve (E := env0) (C := codec0) bad0 sbroker sworld) as [[resp b'] w'] eqn:Hs.
  destruct (http_refusals_have_no_effect (E := env0) (C := codec0) bad0 sbroker sworld resp b' w' Hs)
    as [Hn _].
  assert (resp = fail_text StatusMethodNotAllowed "method not allowed") as ->.
  { transitivity (serve (E := env0) (C := codec0) bad0 sbroker sworld).1.1; [by rewrite Hs|].
    reflexivity. }
  destruct Hn as [-> ->]; [by right|]. reflexivity.
Defined.
