(* ===== verification/Management.v ===== *)
(** * The management API ([src/management/api/server.go])

    The handlers of the management server, its routing, the API key check and
    the metrics, on top of the broker's operations.  The page of [/metrics] is
    rendered by the Prometheus library, a parameter here; durations, the audit
    log and tracing have no effect on the state. *)

From Stdlib Require Import SpecFloat.
From S2P Require Import Prelude Encoding OS Segment ConsumerGroup Broker.
From S2P Require Import BrokerProps Idempotent Transactions Processor Http BrokerServer.

(** ** Request bodies *)

(** The fields of all the request structs. *)
Record ApiReq := MkApiReq {
  a_Name : string; a_Topic : string; a_Key : string; a_Value : string;
  a_Headers : gmap string string; a_ProducerID : string; a_Sequence : Z; a_Group : string;
  a_Offset : Z; a_DurationSeconds : Z; a_Epoch : Z; a_TxID : string; a_Query : string;
  a_LatencyMS : float64 }.

Definition api_zero : ApiReq :=
  MkApiReq EmptyString EmptyString EmptyString EmptyString ∅ EmptyString 0 EmptyString 0 0 0
    EmptyString EmptyString fzero.

(** The fields by folded JSON name. *)
Definition api_field (name : string) (j : json) (r : ApiReq) : option ApiReq :=
  let '(MkApiReq nm t k v h p s g o d e x q l) := r in
  if bool_decide (name = "NAME"%string) then (λ nm, MkApiReq nm t k v h p s g o d e x q l) <$> dec_string j nm
  else if bool_decide (name = "TOPIC"%string) then (λ t, MkApiReq nm t k v h p s g o d e x q l) <$> dec_string j t
  else if bool_decide (name = "KEY"%string) then (λ k, MkApiReq nm t k v h p s g o d e x q l) <$> dec_string j k
  else if bool_decide (name = "VALUE"%string) then (λ v, MkApiReq nm t k v h p s g o d e x q l) <$> dec_string j v
  else if bool_decide (name = "HEADERS"%string) then (λ h, MkApiReq nm t k v h p s g o d e x q l) <$> dec_strmap j h
  else if bool_decide (name = "PRODUCER_ID"%string) then (λ p, MkApiReq nm t k v h p s g o d e x q l) <$> dec_string j p
  else if bool_decide (name = "SEQUENCE"%string) then (λ s, MkApiReq nm t k v h p s g o d e x q l) <$> dec_int j s
  else if bool_decide (name = "GROUP"%string) then (λ g, MkApiReq nm t k v h p s g o d e x q l) <$> dec_string j g
  else if bool_decide (name = "OFFSET"%string) then (λ o, MkApiReq nm t k v h p s g o d e x q l) <$> dec_int j o
  else if bool_decide (name = "DURATION_SECONDS"%string) then (λ d, MkApiReq nm t k v h p s g o d e x q l) <$> dec_int j d
  else if bool_decide (name = "EPOCH"%string) then (λ e, MkApiReq nm t k v h p s g o d e x q l) <$> dec_int j e
  else if bool_decide (name = "TX_ID"%string) then (λ x, MkApiReq nm t k v h p s g o d e x q l) <$> dec_string j x
  else if bool_decide (name = "QUERY"%string) then (λ q, MkApiReq nm t k v h p s g o d e x q l) <$> dec_string j q
  else if bool_decide (name = "LATENCY_MS"%string) then (λ l, MkApiReq nm t k v h p s g o d e x q l) <$> dec_float j l
  else Some r.

(** A handler's struct has only some of the fields; others are ignored. *)
Definition decode_api (fields : list string) : option json → option ApiReq :=
  decode (λ name j r, if decide (name ∈ fields) then api_field name j r else Some r) api_zero.

(** ** State *)

Record Metrics := MkMetrics {
  reqTotal : gmap (string * string * Z) Z;
  produceThroughput : gmap string Z;
  consumerLag : gmap (string * string) float64;
  windowCloseLatency : list float64 }.

Definition no_metrics : Metrics := MkMetrics ∅ ∅ ∅ [].

Record api_state := MkApi { s_broker : Broker; s_metrics : Metrics; s_world : world }.

(** [counter.WithLabelValues(k).Inc()] *)
Definition inc {K} `{Countable K} (k : K) (m : gmap K Z) : gmap K Z := <[k := default 0 (m !! k) + 1]> m.

Definition set_broker (b : Broker) (w : world) (st : api_state) : api_state := MkApi b (s_metrics st) w.
Definition set_world (w : world) (st : api_state) : api_state := MkApi (s_broker st) (s_metrics st) w.
Definition count_produced (topic : string) (st : api_state) : api_state :=
  let m := s_metrics st in
  MkApi (s_broker st)
    (MkMetrics (reqTotal m) (inc topic (produceThroughput m)) (consumerLag m) (windowCloseLatency m))
    (s_world st).
Definition set_lag (topic group : string) (lag : float64) (st : api_state) : api_state :=
  let m := s_metrics st in
  MkApi (s_broker st)
    (MkMetrics (reqTotal m) (produceThroughput m) (<[(topic, group) := lag]> (consumerLag m))
       (windowCloseLatency m)) (s_world st).
Definition observe_close (x : float64) (st : api_state) : api_state :=
  let m := s_metrics st in
  MkApi (s_broker st)
    (MkMetrics (reqTotal m) (produceThroughput m) (consumerLag m) (windowCloseLatency m ++ [x]))
    (s_world st).
Definition count_request (method urlpath : string) (status : Z) (st : api_state) : api_state :=
  let m := s_metrics st in
  MkApi (s_broker st)
    (MkMetrics (inc (method, urlpath, status) (reqTotal m)) (produceThroughput m) (consumerLag m)
       (windowCloseLatency m)) (s_world st).

Definition not_allowed : Response := fail_text StatusMethodNotAllowed "method not allowed".

Section api.
Context {E : Env} {C : RecordCodec} {TF : TimeFormat}.

(** ** Topics, produce and consume *)

Definition handleHealth (r : Request) (st : api_state) : Response * api_state :=
  (MkResponse StatusOK ∅ (BText "ok"), st).

Definition json_topics (b : Broker) : json := JArr (JString <$> ListTopics b).

Definition handleTopics (r : Request) (st : api_state) : Response * api_state :=
  if bool_decide (Method r = "GET"%string)
  then (writeJSON StatusOK (Some (JObj [("topics"%string, json_topics (s_broker st))])), st)
  else if bool_decide (Method r = "POST"%string) then
    match decode_api ["NAME"%string] (Body r) with
    | None => (fail_text StatusBadRequest "invalid topic payload", st)
    | Some req =>
        if bool_decide (a_Name req = EmptyString)
        then (fail_text StatusBadRequest "invalid topic payload", st)
        else match CreateTopic (a_Name req) (s_broker st) (s_world st) with
        | (Err e, b, w) => (fail_err StatusInternalServerError e, set_broker b w st)
        | (Ok _, b, w) =>
            (writeJSON StatusCreated (Some (JObj [("topic"%string, JString (a_Name req))])),
             set_broker b w st)
        end
    end
  else (not_allowed, st).

Definition handleProduce (r : Request) (st : api_state) : Response * api_state :=
  if negb (bool_decide (Method r = "POST"%string)) then (not_allowed, st)
  else match decode_api ["TOPIC"; "KEY"; "VALUE"; "HEADERS"]%string (Body r) with
  | None => (fail_text StatusBadRequest "invalid produce payload", st)
  | Some req =>
      if bool_decide (a_Topic req = EmptyString)
      then (fail_text StatusBadRequest "invalid produce payload", st)
      else match CreateTopic (a_Topic req) (s_broker st) (s_world st) with
      | (Err e, b, w) => (fail_err StatusInternalServerError e, set_broker b w st)
      | (Ok _, b, w) =>
          match Produce (a_Topic req) (str_bytes (a_Key req)) (str_bytes (a_Value req))
                  (a_Headers req) b w with
          | (Err e, b, w) =>
              (fail_err (match e with ErrDraining => StatusConflict | _ => StatusInternalServerError end) e,
               set_broker b w st)
          | (Ok rec, b, w) =>
              (writeJSON StatusOK (json_record rec), count_produced (a_Topic req) (set_broker b w st))
          end
      end
  end.

Definition handleProduceIdempotent (r : Request) (st : api_state) : Response * api_state :=
  if negb (bool_decide (Method r = "POST"%string)) then (not_allowed, st)
  else match decode_api ["TOPIC"; "KEY"; "VALUE"; "HEADERS"; "PRODUCER_ID"; "SEQUENCE"]%string (Body r) with
  | None => (fail_text StatusBadRequest "invalid idempotent produce payload", st)
  | Some req =>
      if bool_decide (a_Topic req = EmptyString ∨ a_ProducerID req = EmptyString)
      then (fail_text StatusBadRequest "invalid idempotent produce payload", st)
      else match CreateTopic (a_Topic req) (s_broker st) (s_world st) with
      | (Err e, b, w) => (fail_err StatusInternalServerError e, set_broker b w st)
      | (Ok _, b, w) =>
          match ProduceIdempotent (MkIdemReq (a_Topic req) (str_bytes (a_Key req))
                  (str_bytes (a_Value req)) (a_Headers req) (a_ProducerID req) (a_Sequence req)) b w with
          | (Err e, b, w) => (fail_err StatusConflict e, set_broker b w st)
          | (Ok (rec, dup), b, w) =>
              (writeJSON StatusOK ((λ j, JObj [("duplicate"%string, JBool dup); ("record"%string, j)])
                                   <$> json_record rec),
               count_produced (a_Topic req) (set_broker b w st))
          end
      end
  end.

Definition handleConsume (r : Request) (st : api_state) : Response * api_state :=
  if negb (bool_decide (Method r = "GET"%string)) then (not_allowed, st)
  else match consume_params r with
  | inl resp => (resp, st)
  | inr (topic, offset, max) =>
      match Consume topic offset max (s_broker st) (s_world st) with
      | (Err e, w) => (fail_err StatusNotFound e, set_world w st)
      | (Ok recs, w) => (writeJSON StatusOK (json_records recs), set_world w st)
      end
  end.

(** ** Offsets *)

(** [latest[0].Offset - req.Offset], not below 0. *)
Definition lag_of (latest : LogRecord) (committed : Z) : Z :=
  let lag := wrap64 (Offset latest - committed) in if lag <? 0 then 0 else lag.

Definition handleCommitOffset (r : Request) (st : api_state) : Response * api_state :=
  if negb (bool_decide (Method r = "POST"%string)) then (not_allowed, st)
  else match decode_api ["TOPIC"; "GROUP"; "OFFSET"]%string (Body r) with
  | None => (fail_text StatusBadRequest "invalid offset commit payload", st)
  | Some req =>
      if bool_decide (a_Topic req = EmptyString ∨ a_Group req = EmptyString)
      then (fail_text StatusBadRequest "invalid offset commit payload", st)
      else match CommitOffset (a_Topic req) (a_Group req) (a_Offset req) (s_broker st) (s_world st) with
      | (Err e, w) => (fail_err StatusInternalServerError e, set_world w st)
      | (Ok _, w) =>
          let '(latest, w) := Consume (a_Topic req) (a_Offset req) 1 (s_broker st) w in
          let st := set_world w st in
          let st := match latest with
                    | Ok (rec :: _) =>
                        set_lag (a_Topic req) (a_Group req) (float_of_int (lag_of rec (a_Offset req))) st
                    | _ => st
                    end in
          (writeJSON StatusOK (Some (JObj [("status", JString "committed")]%string)), st)
      end
  end.

Definition handleOffset (r : Request) (st : api_state) : Response * api_state :=
  if negb (bool_decide (Method r = "GET"%string)) then (not_allowed, st)
  else
    let topic := query r "topic" in
    let group := query r "group" in
    if bool_decide (topic = EmptyString ∨ group = EmptyString)
    then (fail_text StatusBadRequest "topic and group are required", st)
    else match LoadOffset topic group (s_broker st) (s_world st) with
    | (Err e, w) => (fail_err StatusNotFound e, set_world w st)
    | (Ok off, w) =>
        (writeJSON StatusOK (Some (JObj [("group", JString group); ("offset", JInt off);
                                         ("topic", JString topic)]%string)), set_world w st)
    end.

(** ** Draining *)

Definition handleDrain (r : Request) (st : api_state) : Response * api_state :=
  if negb (bool_decide (Method r = "POST"%string)) then (not_allowed, st)
  else match decode_api ["DURATION_SECONDS"%string] (Body r) with
  | None => (fail_text StatusBadRequest "invalid drain payload", st)
  | Some req =>
      if (a_DurationSeconds req <=? 0) || (3600 <? a_DurationSeconds req)
      then (fail_text StatusBadRequest "duration_seconds must be in range 1..3600", st)
      else
        let '(b, w) := Drain (wrap64 (a_DurationSeconds req * 1000000000)) (s_broker st) (s_world st) in
        (writeJSON StatusOK (Some (JObj [("duration_seconds", JInt (a_DurationSeconds req));
                                         ("status", JString "draining")]%string)), set_broker b w st)
  end.

(** ** Transactions *)

Definition handleTxBegin (r : Request) (st : api_state) : Response * api_state :=
  if negb (bool_decide (Method r = "POST"%string)) then (not_allowed, st)
  else match decode_api ["PRODUCER_ID"; "EPOCH"]%string (Body r) with
  | None => (fail_text StatusBadRequest "invalid tx begin payload", st)
  | Some req =>
      if bool_decide (a_ProducerID req = EmptyString)
      then (fail_text StatusBadRequest "invalid tx begin payload", st)
      else match BeginTransaction (a_ProducerID req) (a_Epoch req) (s_broker st) (s_world st) with
      | (Err e, b, w) => (fail_err StatusInternalServerError e, set_broker b w st)
      | (Ok txID, b, w) =>
          (writeJSON StatusOK (Some (JObj [("tx_id"%string, JString txID)])), set_broker b w st)
      end
  end.

Definition handleTxProduce (r : Request) (st : api_state) : Response * api_state :=
  if negb (bool_decide (Method r = "POST"%string)) then (not_allowed, st)
  else match decode_api ["TX_ID"; "TOPIC"; "KEY"; "VALUE"; "HEADERS"]%string (Body r) with
  | None => (fail_text StatusBadRequest "invalid tx produce payload", st)
  | Some req =>
      if bool_decide (a_TxID req = EmptyString ∨ a_Topic req = EmptyString)
      then (fail_text StatusBadRequest "invalid tx produce payload", st)
      else match CreateTopic (a_Topic req) (s_broker st) (s_world st) with
      | (Err e, b, w) => (fail_err StatusInternalServerError e, set_broker b w st)
      | (Ok _, b, w) =>
          match TxProduce (a_TxID req) (a_Topic req) (str_bytes (a_Key req)) (str_bytes (a_Value req))
                  (a_Headers req) b with
          | (Err e, b) => (fail_err StatusConflict e, set_broker b w st)
          | (Ok _, b) =>
              (writeJSON StatusOK (Some (JObj [("status", JString "buffered")]%string)), set_broker b w st)
          end
      end
  end.

Definition handleTxCommit (r : Request) (st : api_state) : Response * api_state :=
  if negb (bool_decide (Method r = "POST"%string)) then (not_allowed, st)
  else match decode_api ["TX_ID"%string] (Body r) with
  | None => (fail_text StatusBadRequest "invalid tx commit payload", st)
  | Some req =>
      if bool_decide (a_TxID req = EmptyString)
      then (fail_text StatusBadRequest "invalid tx commit payload", st)
      else match CommitTransaction (a_TxID req) (s_broker st) (s_world st) with
      | (_, Some e, b, w) => (fail_err StatusConflict e, set_broker b w st)
      | (n, None, b, w) =>
          (writeJSON StatusOK (Some (JObj [("records", JInt n); ("status", JString "committed")]%string)),
           set_broker b w st)
      end
  end.

Definition handleTxAbort (r : Request) (st : api_state) : Response * api_state :=
  if negb (bool_decide (Method r = "POST"%string)) then (not_allowed, st)
  else match decode_api ["TX_ID"%string] (Body r) with
  | None => (fail_text StatusBadRequest "invalid tx abort payload", st)
  | Some req =>
      if bool_decide (a_TxID req = EmptyString)
      then (fail_text StatusBadRequest "invalid tx abort payload", st)
      else match AbortTransaction (a_TxID req) (s_broker st) with
      | (Err e, b) => (fail_err StatusConflict e, set_broker b (s_world st) st)
      | (Ok _, b) =>
          (writeJSON StatusOK (Some (JObj [("status", JString "aborted")]%string)),
           set_broker b (s_world st) st)
      end
  end.

(** ** Queries and metrics *)

Definition handleGraphQL (r : Request) (st : api_state) : Response * api_state :=
  if negb (bool_decide (Method r = "POST"%string)) then (not_allowed, st)
  else match decode_api ["QUERY"%string] (Body r) with
  | None => (fail_text StatusBadRequest "invalid graphql payload", st)
  | Some req =>
      let q := lower_bytes (str_bytes (a_Query req)) in
      if contains (str_bytes "topics") q
      then (writeJSON StatusOK (Some (JObj [("data"%string,
              JObj [("topics"%string, json_topics (s_broker st))])])), st)
      else if contains (str_bytes "health") q
      then (writeJSON StatusOK (Some (JObj [("data", JObj [("health", JString "ok")])]%string)), st)
      else (fail_text StatusBadRequest "unsupported graphql query", st)
  end.

Definition handleWindowClose (r : Request) (st : api_state) : Response * api_state :=
  if negb (bool_decide (Method r = "POST"%string)) then (not_allowed, st)
  else match decode_api ["LATENCY_MS"%string] (Body r) with
  | None => (fail_text StatusBadRequest "invalid payload", st)
  | Some req =>
      if SFltb (a_LatencyMS req) fzero then (fail_text StatusBadRequest "invalid payload", st)
      else (writeJSON StatusOK (Some (JObj [("status", JString "observed")]%string)),
            observe_close (fdiv (a_LatencyMS req) (float_of_int 1000)) st)
  end.

(** ** Routing and middleware *)

(** The page of [/metrics]. *)
Variable metrics_page : Request → Metrics → Response.

Definition route (r : Request) : option (Request → api_state → Response * api_state) :=
  let p := URLPath r in
  if bool_decide (p = "/metrics"%string) then Some (λ r st, (metrics_page r (s_metrics st), st))
  else if bool_decide (p = "/health"%string) then Some handleHealth
  else if bool_decide (p = "/topics"%string) then Some handleTopics
  else if bool_decide (p = "/produce"%string) then Some handleProduce
  else if bool_decide (p = "/produce/idempotent"%string) then Some handleProduceIdempotent
  else if bool_decide (p = "/consume"%string) then Some handleConsume
  else if bool_decide (p = "/offset/commit"%string) then Some handleCommitOffset
  else if bool_decide (p = "/offset"%string) then Some handleOffset
  else if bool_decide (p = "/admin/drain"%string) then Some handleDrain
  else if bool_decide (p = "/tx/begin"%string) then Some handleTxBegin
  else if bool_decide (p = "/tx/produce"%string) then Some handleTxProduce
  else if bool_decide (p = "/tx/commit"%string) then Some handleTxCommit
  else if bool_decide (p = "/tx/abort"%string) then Some handleTxAbort
  else if bool_decide (p = "/graphql"%string) then Some handleGraphQL
  else if bool_decide (p = "/admin/window-close"%string) then Some handleWindowClose
  else None.

Definition mux (r : Request) (st : api_state) : Response * api_state :=
  match route r with
  | Some h => h r st
  | None => (unmatched r, st)
  end.

Definition withAuth (apiKey : string) (next : Request → api_state → Response * api_state)
    (r : Request) (st : api_state) : Response * api_state :=
  if bool_decide (TrimSpace apiKey = EmptyString) then next r st
  else if bool_decide (URLPath r = "/health"%string ∨ URLPath r = "/metrics"%string) then next r st
  else if bool_decide (default EmptyString (ReqHeader r !! "X-Api-Key"%string) ≠ apiKey)
  then (fail_text StatusUnauthorized "unauthorized", st)
  else next r st.

Definition withMetrics (next : Request → api_state → Response * api_state)
    (r : Request) (st : api_state) : Response * api_state :=
  let '(resp, st) := next r st in
  (resp, count_request (Method r) (URLPath r) (Status resp) st).

Definition Handler (apiKey : string) : Request → api_state → Response * api_state :=
  withMetrics (withAuth apiKey mux).
End api.
