(* ===== verification/ManagementProps.v ===== *)
(** * Properties of the management API

    Every request with plain names and storable records keeps the broker's logs
    (they only grow), an unauthorised
    request has no effect, a retried idempotent request is answered from the
    cache, and what the consumer-lag gauge shows. *)

From Stdlib Require Import SpecFloat.
From S2P Require Import Prelude Encoding OS Segment Samples SegmentFacts ConsumerGroup Broker.
From S2P Require Import BrokerFacts BrokerRun BrokerProps Idempotent Transactions.
From S2P Require Import Processor Http BrokerServer Management.

(** ** The logs are kept *)

Definition produce_fields : list string := ["TOPIC"; "KEY"; "VALUE"; "HEADERS"]%string.
Definition idem_fields : list string :=
  ["TOPIC"; "KEY"; "VALUE"; "HEADERS"; "PRODUCER_ID"; "SEQUENCE"]%string.
Definition txproduce_fields : list string := ["TX_ID"; "TOPIC"; "KEY"; "VALUE"; "HEADERS"]%string.

Section keeps.
Context {E : Env} {C : RecordCodec} {L : RecordCodecLaws} {TF : TimeFormat}.

Definition storable_req (req : ApiReq) : Prop :=
  plain (a_Topic req) = true ∧
  storable (str_bytes (a_Key req)) (str_bytes (a_Value req)) (a_Headers req).

(** The requests under which readable records stay: names are single path
    components, records can be stored, and the counters have room for what the
    request appends.  The handlers themselves check only that names are not
    empty; [api_aliased_topics_overwrite] is about names this excludes. *)
Record api_good (r : Request) (st : api_state) : Prop := {
  good_room : broker_room 1 (s_broker st);
  good_topics req : URLPath r = "/topics"%string → decode_api ["NAME"%string] (Body r) = Some req →
    a_Name req ≠ EmptyString → plain (a_Name req) = true;
  good_produce req : URLPath r = "/produce"%string → decode_api produce_fields (Body r) = Some req →
    a_Topic req ≠ EmptyString → storable_req req;
  good_idem req : URLPath r = "/produce/idempotent"%string → decode_api idem_fields (Body r) = Some req →
    a_Topic req ≠ EmptyString → storable_req req;
  good_txproduce req : URLPath r = "/tx/produce"%string →
    decode_api txproduce_fields (Body r) = Some req → a_Topic req ≠ EmptyString →
    plain (a_Topic req) = true;
  good_commit req : URLPath r = "/offset/commit"%string →
    decode_api ["TOPIC"; "GROUP"; "OFFSET"]%string (Body r) = Some req →
    a_Topic req ≠ EmptyString → a_Group req ≠ EmptyString →
    plain (a_Topic req) = true ∧ plain (a_Group req) = true;
  good_txcommit req tx : URLPath r = "/tx/commit"%string →
    decode_api ["TX_ID"%string] (Body r) = Some req →
    txState (s_broker st) !! a_TxID req = Some tx →
    broker_room (length (tx_Records tx)) (s_broker st) ∧
    Z.of_nat (length (tx_Records tx)) * (4 + maxPayload) < 2 ^ 63 ∧ Forall committable (tx_Records tx) }.

Definition kept (logs : gmap string (list LogRecord)) (st : api_state) : Prop :=
  ∃ logs', run_inv logs' (s_broker st) (s_world st) ∧ logs_extend logs logs'.

Lemma kept_same logs st st' :
  run_inv logs (s_broker st) (s_world st) → topics (s_broker st') = topics (s_broker st) →
  b_dir (s_broker st') = b_dir (s_broker st) →
  (∀ q, w_nodes (s_world st') !! q = w_nodes (s_world st) !! q) → kept logs st'.
Proof. intros HI Ht Hd Hn. exists logs. split; [by eapply run_inv_same|reflexivity]. Qed.

Lemma kept_refl logs st : run_inv logs (s_broker st) (s_world st) → kept logs st.
Proof. intros HI. by apply (kept_same logs st). Qed.

Lemma create_kept logs name b w r b' w' :
  run_inv logs b w → plain name = true → broker_room 1 b →
  CreateTopic name b w = (r, b', w') →
  ∃ logs', run_inv logs' b' w' ∧ logs_extend logs logs' ∧ broker_room 1 b'.
Proof.
  intros HI Hp Hroom HC. destruct (create_inv _ _ _ _ _ _ _ HI Hp HC) as (l1 & HI1 & HX1).
  exists l1. split_and!; [done..|].
  eapply CreateTopic_room; [exact Hp|by apply (inv_free _ _ _ HI)| |exact Hroom|exact HC].
  unfold maxPayload. lia.
Qed.

Lemma produce_kept logs name k v h b w r b' w' :
  run_inv logs b w → broker_room 1 b → storable k v h → Produce name k v h b w = (r, b', w') →
  ∃ logs', run_inv logs' b' w' ∧ logs_extend logs logs'.
Proof.
  intros HI Hroom Hst HP.
  destruct (produce_inv logs name k v h b w r b' w') as (l1 & HI1 & HX1 & _); [done| |done|done|].
  - intros t Ht seg Hseg. eapply room_for_room. by eapply Hroom.
  - by exists l1.
Qed.

Lemma idem_kept logs q b w r b' w' :
  run_inv logs b w → broker_room 1 b → storable (i_key q) (i_value q) (i_headers q) →
  ProduceIdempotent q b w = (r, b', w') →
  ∃ logs', run_inv logs' b' w' ∧ logs_extend logs logs'.
Proof.
  intros HI Hroom Hst HP. unfold ProduceIdempotent in HP.
  assert (∀ r0 b0 w0, Produce (i_topicName q) (i_key q) (i_value q) (i_headers q) b w = (r0, b0, w0) →
    ∃ logs', run_inv logs' b0 w0 ∧ logs_extend logs logs') as HPr by (intros; by eapply produce_kept).
  destruct (idem_check q b) as [| |rec0|r0]; [..|injection HP as <- <- <-; by exists logs];
    (destruct (Produce _ _ _ _ b w) as [[[rec|e] b1] w1];
      injection HP as <- <- <-; destruct (HPr _ _ _ eq_refl) as (l & HI' & HX); exists l;
      (split; [|done]); [|done]);
    (eapply run_inv_same; [exact HI'|..|done]; unfold idem_record; cbv zeta; by destruct (_ <? _)).
Qed.

Lemma commitLoop_kept records : ∀ logs n b w m e b' w',
  run_inv logs b w → broker_room (length records) b →
  Z.of_nat (length records) * (4 + maxPayload) < 2 ^ 63 → Forall committable records →
  commitLoop records n b w = (m, e, b', w') →
  ∃ logs', run_inv logs' b' w' ∧ logs_extend logs logs'.
Proof.
  induction records as [|r records IH]; intros logs n b w m e b' w' HI Hroom Hmax HF HL; cbn [commitLoop] in HL.
  { injection HL as <- <- <- <-. by exists logs. }
  inversion HF as [|? ? [Hp Hst] HF']; subst.
  destruct (CreateTopic (tr_Topic r) b w) as [[rc b1] w1] eqn:HC.
  destruct (create_inv _ _ _ _ _ _ _ HI Hp HC) as (l1 & HI1 & HX1).
  pose proof (CreateTopic_room _ _ _ _ _ _ _ Hp (inv_free _ _ _ HI _ Hp) Hmax Hroom HC) as Hroom1.
  destruct rc as [t|e0]; [|injection HL as <- <- <- <-; by exists l1].
  destruct (Produce _ _ _ _ b1 w1) as [[rp b2] w2] eqn:HP.
  destruct (produce_inv l1 (tr_Topic r) (tr_Key r) (tr_Value r) (tr_Headers r) b1 w1 rp b2 w2)
    as (l2 & HI2 & HX2 & _); [done| |done|done|].
  { intros u Hu seg Hseg. eapply room_for_room. by eapply Hroom1. }
  assert (logs_extend logs l2) as HX by (by transitivity l1).
  destruct rp as [rec|e0]; [|injection HL as <- <- <- <-; by exists l2].
  destruct (IH l2 _ _ _ _ _ _ _ HI2 (Produce_room _ _ _ _ _ _ _ _ _ _ _ (inv_rep _ _ _ HI1) Hroom1 HP)
    ltac:(cbn [length] in Hmax; unfold maxPayload in *; lia) HF' HL) as (l' & HI' & HX').
  exists l'. split; [done|by transitivity l2].
Qed.

Lemma commit_kept logs id b w n e b' w' :
  run_inv logs b w →
  (∀ tx, txState b !! id = Some tx →
     broker_room (length (tx_Records tx)) b ∧
     Z.of_nat (length (tx_Records tx)) * (4 + maxPayload) < 2 ^ 63 ∧ Forall committable (tx_Records tx)) →
  CommitTransaction id b w = (n, e, b', w') →
  ∃ logs', run_inv logs' b' w' ∧ logs_extend logs logs'.
Proof.
  intros HI Hg. unfold CommitTransaction. destruct (txState b !! id) as [tx|];
    [|intros [= <- <- <- <-]; by exists logs].
  destruct (Hg tx eq_refl) as (Hroom & Hmax & HF). case_decide; [|intros [= <- <- <- <-]; by exists logs].
  destruct (commitLoop _ 0 _ w) as [[[m e'] b1] w1] eqn:HL.
  apply (commitLoop_kept _ logs) in HL as (l' & HI' & HX);
    [|eapply run_inv_same; [exact HI|done..]|done..].
  intros HC. exists l'. split; [|done].
  destruct e'; injection HC as <- <- <- <-; [done|]. eapply run_inv_same; [exact HI'|done..].
Qed.

(** One lemma per handler that changes the broker. *)

Ltac refused HI := intros [= <- <-]; exact (kept_refl _ _ HI).

Lemma handleTopics_kept logs r st resp st' :
  run_inv logs (s_broker st) (s_world st) → api_good r st → URLPath r = "/topics"%string →
  handleTopics r st = (resp, st') → kept logs st'.
Proof.
  intros HI HG Hp. unfold handleTopics.
  case_bool_decide; [refused HI|]. case_bool_decide; [|refused HI].
  destruct (decode_api _ _) as [req|] eqn:Hd; [|refused HI]. case_bool_decide as Hne; [refused HI|].
  destruct (CreateTopic _ _ _) as [[rc b1] w1] eqn:HC.
  destruct (create_kept _ _ _ _ _ _ _ HI (good_topics _ _ HG req Hp Hd Hne) (good_room _ _ HG) HC)
    as (l & HI' & HX & _).
  destruct rc; intros [= <- <-]; by exists l.
Qed.

Lemma handleProduce_kept logs r st resp st' :
  run_inv logs (s_broker st) (s_world st) → api_good r st → URLPath r = "/produce"%string →
  handleProduce r st = (resp, st') → kept logs st'.
Proof.
  intros HI HG Hp. unfold handleProduce. destruct (negb _); [refused HI|].
  destruct (decode_api _ _) as [req|] eqn:Hd; [|refused HI]. case_bool_decide as Hne; [refused HI|].
  destruct (good_produce _ _ HG req Hp Hd Hne) as [Hpl Hst].
  destruct (CreateTopic _ _ _) as [[rc b1] w1] eqn:HC.
  destruct (create_kept _ _ _ _ _ _ _ HI Hpl (good_room _ _ HG) HC) as (l & HI1 & HX & Hroom).
  destruct rc as [t|e]; [|intros [= <- <-]; by exists l].
  destruct (Produce _ _ _ _ b1 w1) as [[rp b2] w2] eqn:HP.
  destruct (produce_kept _ _ _ _ _ _ _ _ _ _ HI1 Hroom Hst HP) as (l2 & HI2 & HX2).
  destruct rp; intros [= <- <-]; exists l2; (split; [exact HI2|by transitivity l]).
Qed.

Lemma handleProduceIdempotent_kept logs r st resp st' :
  run_inv logs (s_broker st) (s_world st) → api_good r st → URLPath r = "/produce/idempotent"%string →
  handleProduceIdempotent r st = (resp, st') → kept logs st'.
Proof.
  intros HI HG Hp. unfold handleProduceIdempotent. destruct (negb _); [refused HI|].
  destruct (decode_api _ _) as [req|] eqn:Hd; [|refused HI]. case_bool_decide as Hne; [refused HI|].
  apply Decidable.not_or in Hne as [Hne _].
  destruct (good_idem _ _ HG req Hp Hd Hne) as [Hpl Hst].
  destruct (CreateTopic _ _ _) as [[rc b1] w1] eqn:HC.
  destruct (create_kept _ _ _ _ _ _ _ HI Hpl (good_room _ _ HG) HC) as (l & HI1 & HX & Hroom).
  destruct rc as [t|e]; [|intros [= <- <-]; by exists l].
  destruct (ProduceIdempotent _ b1 w1) as [[rp b2] w2] eqn:HP.
  apply (idem_kept _ _ _ _ _ _ _ HI1 Hroom) in HP as (l2 & HI2 & HX2); [|exact Hst].
  destruct rp as [[rec dup]|]; intros [= <- <-]; exists l2; (split; [exact HI2|by transitivity l]).
Qed.

Lemma handleConsume_kept logs r st resp st' :
  run_inv logs (s_broker st) (s_world st) → handleConsume r st = (resp, st') → kept logs st'.
Proof.
  intros HI. unfold handleConsume. destruct (negb _); [refused HI|].
  destruct (consume_params r) as [?|[[t o] m]]; [refused HI|].
  destruct (Consume t o m _ _) as [[l|e] w1] eqn:HC; intros [= <- <-];
    (apply (kept_same _ st); [done..|]); intros q; by eapply Consume_nodes.
Qed.

Lemma handleCommitOffset_kept logs r st resp st' :
  run_inv logs (s_broker st) (s_world st) → api_good r st → URLPath r = "/offset/commit"%string →
  handleCommitOffset r st = (resp, st') → kept logs st'.
Proof.
  intros HI HG Hp. unfold handleCommitOffset. destruct (negb _); [refused HI|].
  destruct (decode_api _ _) as [req|] eqn:Hd; [|refused HI]. case_bool_decide as Hne; [refused HI|].
  apply Decidable.not_or in Hne as [Hne1 Hne2].
  destruct (good_commit _ _ HG req Hp Hd Hne1 Hne2) as [Hp1 Hp2].
  destruct (CommitOffset _ _ _ _ _) as [rc w1] eqn:HC.
  pose proof (commit_inv _ _ _ _ _ _ _ _ HI Hp1 Hp2 HC) as HI1.
  destruct rc as [[]|e]; [|intros [= <- <-]; exists logs; by split].
  destruct (Consume _ _ _ _ w1) as [rl w2] eqn:HCo. intros [= <- <-].
  assert (run_inv logs (s_broker st) w2) as HI2.
  { eapply run_inv_same; [exact HI1|done..|]. intros q. by eapply Consume_nodes. }
  exists logs. split; [|reflexivity]. by destruct rl as [[|]|].
Qed.

Lemma handleOffset_kept logs r st resp st' :
  run_inv logs (s_broker st) (s_world st) → handleOffset r st = (resp, st') → kept logs st'.
Proof.
  intros HI. unfold handleOffset. destruct (negb _); [refused HI|]. case_bool_decide; [refused HI|].
  destruct (LoadOffset _ _ _ _) as [[l|e] w1] eqn:HC; intros [= <- <-];
    (apply (kept_same _ st); [done..|]); intros q; by eapply LoadOffset_nodes.
Qed.

Lemma handleDrain_kept logs r st resp st' :
  run_inv logs (s_broker st) (s_world st) → handleDrain r st = (resp, st') → kept logs st'.
Proof.
  intros HI. unfold handleDrain. destruct (negb _); [refused HI|].
  destruct (decode_api _ _) as [req|]; [|refused HI]. destruct (_ || _); [refused HI|].
  unfold Drain, time_now. intros [= <- <-]. by apply (kept_same _ st).
Qed.

Lemma handleTxBegin_kept logs r st resp st' :
  run_inv logs (s_broker st) (s_world st) → handleTxBegin r st = (resp, st') → kept logs st'.
Proof.
  intros HI. unfold handleTxBegin. destruct (negb _); [refused HI|].
  destruct (decode_api _ _) as [req|]; [|refused HI]. case_bool_decide as Hne; [refused HI|].
  unfold BeginTransaction, time_now. rewrite bool_decide_false by done.
  intros [= <- <-]. by apply (kept_same _ st).
Qed.

Lemma handleTxProduce_kept logs r st resp st' :
  run_inv logs (s_broker st) (s_world st) → api_good r st → URLPath r = "/tx/produce"%string →
  handleTxProduce r st = (resp, st') → kept logs st'.
Proof.
  intros HI HG Hp. unfold handleTxProduce. destruct (negb _); [refused HI|].
  destruct (decode_api _ _) as [req|] eqn:Hd; [|refused HI]. case_bool_decide as Hne; [refused HI|].
  apply Decidable.not_or in Hne as [_ Hne]. pose proof (good_txproduce _ _ HG req Hp Hd Hne) as Hpl.
  destruct (CreateTopic _ _ _) as [[rc b1] w1] eqn:HC.
  destruct (create_kept _ _ _ _ _ _ _ HI Hpl (good_room _ _ HG) HC) as (l & HI1 & HX & _).
  destruct rc as [t|e]; [|intros [= <- <-]; by exists l].
  unfold TxProduce. case_bool_decide; [intros [= <- <-]; by exists l|].
  destruct (txState b1 !! _) as [tx|]; [case_decide|]; intros [= <- <-]; exists l; (split; [|done]);
    [eapply run_inv_same; [exact HI1|done..]|done..].
Qed.

Lemma handleTxCommit_kept logs r st resp st' :
  run_inv logs (s_broker st) (s_world st) → api_good r st → URLPath r = "/tx/commit"%string →
  handleTxCommit r st = (resp, st') → kept logs st'.
Proof.
  intros HI HG Hp. unfold handleTxCommit. destruct (negb _); [refused HI|].
  destruct (decode_api _ _) as [req|] eqn:Hd; [|refused HI]. case_bool_decide as Hne; [refused HI|].
  destruct (CommitTransaction _ _ _) as [[[n e] b1] w1] eqn:HC.
  destruct (commit_kept _ _ _ _ _ _ _ _ HI (λ tx, good_txcommit _ _ HG req tx Hp Hd) HC) as (l & HI' & HX).
  destruct e; intros [= <- <-]; by exists l.
Qed.

Lemma handleTxAbort_kept logs r st resp st' :
  run_inv logs (s_broker st) (s_world st) → handleTxAbort r st = (resp, st') → kept logs st'.
Proof.
  intros HI. unfold handleTxAbort. destruct (negb _); [refused HI|].
  destruct (decode_api _ _) as [req|]; [|refused HI]. case_bool_decide as Hne; [refused HI|].
  unfold AbortTransaction. destruct (txState _ !! _) as [tx|]; [case_decide|]; intros [= <- <-];
    by apply (kept_same _ st).
Qed.

Lemma handleGraphQL_same r st resp st' : handleGraphQL r st = (resp, st') → st' = st.
Proof.
  unfold handleGraphQL. destruct (negb _); [by intros [= _ <-]|].
  destruct (decode_api _ _); [|by intros [= _ <-]].
  cbv zeta. destruct (contains _ _); [by intros [= _ <-]|].
  destruct (contains _ _); by intros [= _ <-].
Qed.

Lemma handleWindowClose_kept logs r st resp st' :
  run_inv logs (s_broker st) (s_world st) → handleWindowClose r st = (resp, st') → kept logs st'.
Proof.
  intros HI. unfold handleWindowClose. destruct (negb _); [refused HI|].
  destruct (decode_api _ _) as [req|]; [|refused HI]. destruct (SFltb _ _); [refused HI|].
  intros [= <- <-]. by apply (kept_same _ st).
Qed.

Variable metrics_page : Request → Metrics → Response.

Lemma mux_kept logs r st resp st' :
  run_inv logs (s_broker st) (s_world st) → api_good r st →
  mux metrics_page r st = (resp, st') → kept logs st'.
Proof.
  intros HI HG. unfold mux, route.
  case_bool_decide; [refused HI|]. case_bool_decide; [refused HI|].
  case_bool_decide; [by apply handleTopics_kept|].
  case_bool_decide; [by apply handleProduce_kept|].
  case_bool_decide; [by apply handleProduceIdempotent_kept|].
  case_bool_decide; [by apply handleConsume_kept|].
  case_bool_decide; [by apply handleCommitOffset_kept|].
  case_bool_decide; [by apply handleOffset_kept|].
  case_bool_decide; [by apply handleDrain_kept|].
  case_bool_decide; [by apply handleTxBegin_kept|].
  case_bool_decide; [by apply handleTxProduce_kept|].
  case_bool_decide; [by apply handleTxCommit_kept|].
  case_bool_decide; [by apply handleTxAbort_kept|].
  case_bool_decide.
  { intros Hg. apply handleGraphQL_same in Hg as ->. exact (kept_refl _ _ HI). }
  case_bool_decide; [by apply handleWindowClose_kept|]. refused HI.
Qed.

Lemma Handler_kept apiKey logs r st resp st' :
  run_inv logs (s_broker st) (s_world st) → api_good r st →
  Handler metrics_page apiKey r st = (resp, st') → kept logs st'.
Proof.
  intros HI HG. unfold Handler, withMetrics.
  destruct (withAuth apiKey (mux metrics_page) r st) as [rs st1] eqn:Ha. intros [= <- <-].
  assert (kept logs st1) as Hk; [|exact Hk].
  revert Ha. unfold withAuth.
  case_bool_decide; [by apply mux_kept|]. case_bool_decide; [by apply mux_kept|].
  case_bool_decide; [refused HI|by apply mux_kept].
Qed.

(** Requests one after the other. *)
Inductive api_run (apiKey : string) : api_state → list (Request * Response) → api_state → Prop :=
| api_nil st : api_run apiKey st [] st
| api_cons r resp st st1 tr st' :
    api_good r st → Handler metrics_page apiKey r st = (resp, st1) →
    api_run apiKey st1 tr st' → api_run apiKey st ((r, resp) :: tr) st'.

Lemma api_run_kept apiKey st tr st' : api_run apiKey st tr st' → ∀ logs,
  run_inv logs (s_broker st) (s_world st) → kept logs st'.
Proof.
  induction 1 as [st|r resp st st1 tr st' HG HH _ IH]; intros logs HI; [by apply kept_refl|].
  destruct (Handler_kept _ _ _ _ _ _ HI HG HH) as (l1 & HI1 & HX1).
  destruct (IH l1 HI1) as (l2 & HI2 & HX2). exists l2. split; [done|by transitivity l1].
Qed.
End keeps.

(** ** Caches and topics are never dropped *)

Section grows.
Context {E : Env} {C : RecordCodec} {TF : TimeFormat}.

Definition grows (b b' : Broker) : Prop :=
  (∀ k rec, dedupCache b !! k = Some rec → dedupCache b' !! k = Some rec) ∧
  (∀ name, is_Some (topics b !! name) → is_Some (topics b' !! name)).

#[global] Instance grows_preorder : PreOrder grows.
Proof.
  split.
  - by intros b.
  - intros b1 b2 b3 [H1 H2] [H3 H4]. split; eauto.
Qed.

Lemma CreateTopic_grows name b w r b' w' : CreateTopic name b w = (r, b', w') → grows b b'.
Proof.
  intros HC. destruct (CreateTopic_cache _ _ _ _ _ _ HC) as (Hd & _). split; [by rewrite Hd|].
  revert HC. unfold CreateTopic. destruct (topics b !! name) eqn:Ht; [by intros [= _ <- _]|].
  destruct (MkdirAll _ w) as [[[]|] w1]; [|by intros [= _ <- _]].
  destruct (newSegment _ _ w1) as [[s|] w2]; intros [= _ <- _] n Hn; [|done]. cbn.
  rewrite lookup_insert. by case_decide.
Qed.

Lemma Produce_grows name k v h b w r b' w' : Produce name k v h b w = (r, b', w') → grows b b'.
Proof.
  intros HP. destruct (Produce_cache _ _ _ _ _ _ _ _ _ HP) as (Hd & _). split; [by rewrite Hd|].
  revert HP. unfold Produce. destruct (isDrainingLocked b w) as [[] w1]; [by intros [= _ <- _]|].
  destruct (topics b !! name); [|by intros [= _ <- _]]. destruct (time_now w1) as [now w2].
  destruct (last _) as [s|]; [|by intros [= _ <- _]]. destruct (Append _ _ w2) as [[[o|e] s'] w3];
    intros [= _ <- _] n Hn; cbn; rewrite lookup_insert; by case_decide.
Qed.

Lemma ProduceIdempotent_grows q b w r b' w' : ProduceIdempotent q b w = (r, b', w') → grows b b'.
Proof.
  intros HP. destruct (ProduceIdempotent_cases _ _ _ _ _ _ HP) as (_ & Hd & _). split; [done|].
  revert HP. unfold ProduceIdempotent.
  assert (∀ rec b0, topics (idem_record q rec b0) = topics b0) as HR.
  { intros rec b0. unfold idem_record. cbv zeta. by destruct (_ <? _). }
  destruct (Produce (i_topicName q) (i_key q) (i_value q) (i_headers q) b w) as [[rp b1] w1] eqn:E1.
  apply Produce_grows in E1 as [_ H1].
  destruct (idem_check q b); [destruct rp..|]; intros [= _ <- _]; rewrite ?HR; done.
Qed.

Lemma commitLoop_grows records : ∀ n b w m e b' w',
  commitLoop records n b w = (m, e, b', w') → grows b b'.
Proof.
  induction records as [|r records IH]; intros n b w m e b' w'; cbn [commitLoop]; [by intros [= _ _ <- _]|].
  destruct (CreateTopic _ b w) as [[[t|] b1] w1] eqn:HC; apply CreateTopic_grows in HC;
    [|by intros [= _ _ <- _]].
  destruct (Produce _ _ _ _ b1 w1) as [[[rec|] b2] w2] eqn:HP; apply Produce_grows in HP;
    [intros HL; apply IH in HL; by do 2 (etransitivity; [done|])|intros [= _ _ <- _]; by transitivity b1].
Qed.

Lemma CommitTransaction_grows id b w n e b' w' :
  CommitTransaction id b w = (n, e, b', w') → grows b b'.
Proof.
  unfold CommitTransaction. destruct (txState b !! id) as [tx|]; [|by intros [= _ _ <- _]].
  case_decide; [|by intros [= _ _ <- _]].
  destruct (commitLoop _ 0 _ w) as [[[m e'] b1] w1] eqn:HL. apply commitLoop_grows in HL as [H1 H2].
  destruct e'; intros [= _ _ <- _]; by split.
Qed.

Variable metrics_page : Request → Metrics → Response.

Ltac stays := intros [= <- <-]; reflexivity.

(** Every handler only adds to what the broker holds. *)
Lemma handleTopics_grows r st resp st' : handleTopics r st = (resp, st') → grows (s_broker st) (s_broker st').
Proof.
  unfold handleTopics. case_bool_decide; [stays|]. case_bool_decide; [|stays].
  destruct (decode_api _ _); [|stays]. case_bool_decide; [stays|].
  destruct (CreateTopic _ _ _) as [[[t|] b1] w1] eqn:HC; intros [= <- <-]; by eapply CreateTopic_grows.
Qed.
Lemma handleProduce_grows r st resp st' : handleProduce r st = (resp, st') → grows (s_broker st) (s_broker st').
Proof.
  unfold handleProduce. destruct (negb _); [stays|].
  destruct (decode_api _ _); [|stays]. case_bool_decide; [stays|].
  destruct (CreateTopic _ _ _) as [[[t|] b1] w1] eqn:HC; apply CreateTopic_grows in HC; [|by intros [= <- <-]].
  destruct (Produce _ _ _ _ b1 w1) as [[[rec|] b2] w2] eqn:HP; apply Produce_grows in HP;
    intros [= <- <-]; by transitivity b1.
Qed.
Lemma handleProduceIdempotent_grows r st resp st' : handleProduceIdempotent r st = (resp, st') → grows (s_broker st) (s_broker st').
Proof.
  unfold handleProduceIdempotent. destruct (negb _); [stays|].
  destruct (decode_api _ _); [|stays]. case_bool_decide; [stays|].
  destruct (CreateTopic _ _ _) as [[[t|] b1] w1] eqn:HC; apply CreateTopic_grows in HC; [|by intros [= <- <-]].
  destruct (ProduceIdempotent _ b1 w1) as [[[[rec d]|] b2] w2] eqn:HP; apply ProduceIdempotent_grows in HP;
    intros [= <- <-]; by transitivity b1.
Qed.
Lemma handleConsume_grows r st resp st' : handleConsume r st = (resp, st') → grows (s_broker st) (s_broker st').
Proof.
  unfold handleConsume. destruct (negb _); [stays|].
  destruct (consume_params r) as [?|[[t o] m]]; [stays|].
  destruct (Consume t o m _ _) as [[l|e] w1]; stays.
Qed.
Lemma handleCommitOffset_grows r st resp st' : handleCommitOffset r st = (resp, st') → grows (s_broker st) (s_broker st').
Proof.
  unfold handleCommitOffset. destruct (negb _); [stays|].
  destruct (decode_api _ _); [|stays]. case_bool_decide; [stays|].
  destruct (CommitOffset _ _ _ _ _) as [[[]|] w1]; [|stays].
  destruct (Consume _ _ _ _ w1) as [[[|rec l]|e] w2]; stays.
Qed.
Lemma handleOffset_grows r st resp st' : handleOffset r st = (resp, st') → grows (s_broker st) (s_broker st').
Proof.
  unfold handleOffset. destruct (negb _); [stays|]. case_bool_decide; [stays|].
  destruct (LoadOffset _ _ _ _) as [[l|e] w1]; stays.
Qed.
Lemma handleDrain_grows r st resp st' : handleDrain r st = (resp, st') → grows (s_broker st) (s_broker st').
Proof.
  unfold handleDrain. destruct (negb _); [stays|].
  destruct (decode_api _ _); [|stays]. destruct (_ || _); [stays|].
  unfold Drain, time_now. intros [= <- <-]. by split.
Qed.
Lemma handleTxBegin_grows r st resp st' : handleTxBegin r st = (resp, st') → grows (s_broker st) (s_broker st').
Proof.
  unfold handleTxBegin. destruct (negb _); [stays|].
  destruct (decode_api _ _); [|stays]. case_bool_decide; [stays|].
  unfold BeginTransaction, time_now. rewrite bool_decide_false by done. intros [= <- <-]. by split.
Qed.
Lemma handleTxProduce_grows r st resp st' : handleTxProduce r st = (resp, st') → grows (s_broker st) (s_broker st').
Proof.
  unfold handleTxProduce. destruct (negb _); [stays|].
  destruct (decode_api _ _); [|stays]. case_bool_decide; [stays|].
  destruct (CreateTopic _ _ _) as [[[t|] b1] w1] eqn:HC; apply CreateTopic_grows in HC; [|by intros [= <- <-]].
  unfold TxProduce. case_bool_decide; [by intros [= <- <-]|].
  destruct (txState b1 !! _) as [tx|]; [case_decide|]; intros [= <- <-]; by destruct HC.
Qed.
Lemma handleTxCommit_grows r st resp st' : handleTxCommit r st = (resp, st') → grows (s_broker st) (s_broker st').
Proof.
  unfold handleTxCommit. destruct (negb _); [stays|].
  destruct (decode_api _ _); [|stays]. case_bool_decide; [stays|].
  destruct (CommitTransaction _ _ _) as [[[n [e|]] b1] w1] eqn:HC; apply CommitTransaction_grows in HC;
    by intros [= <- <-].
Qed.
Lemma handleTxAbort_grows r st resp st' : handleTxAbort r st = (resp, st') → grows (s_broker st) (s_broker st').
Proof.
  unfold handleTxAbort. destruct (negb _); [stays|].
  destruct (decode_api _ _); [|stays]. case_bool_decide; [stays|].
  unfold AbortTransaction. destruct (txState _ !! _) as [tx|]; [case_decide|]; intros [= <- <-]; by split.
Qed.
Lemma handleWindowClose_grows r st resp st' : handleWindowClose r st = (resp, st') → grows (s_broker st) (s_broker st').
Proof.
  unfold handleWindowClose. destruct (negb _); [stays|].
  destruct (decode_api _ _); [|stays]. destruct (SFltb _ _); stays.
Qed.
Lemma mux_grows r st resp st' :
  mux metrics_page r st = (resp, st') → grows (s_broker st) (s_broker st').
Proof.
  unfold mux, route. do 2 (case_bool_decide; [stays|]).
  case_bool_decide; [apply handleTopics_grows|].
  case_bool_decide; [apply handleProduce_grows|].
  case_bool_decide; [apply handleProduceIdempotent_grows|].
  case_bool_decide; [apply handleConsume_grows|].
  case_bool_decide; [apply handleCommitOffset_grows|].
  case_bool_decide; [apply handleOffset_grows|].
  case_bool_decide; [apply handleDrain_grows|].
  case_bool_decide; [apply handleTxBegin_grows|].
  case_bool_decide; [apply handleTxProduce_grows|].
  case_bool_decide; [apply handleTxCommit_grows|].
  case_bool_decide; [apply handleTxAbort_grows|].
  case_bool_decide; [intros Hg; by apply handleGraphQL_same in Hg as ->|].
  case_bool_decide; [apply handleWindowClose_grows|stays].
Qed.

(** The handler is the mux behind the key check; the metrics count the request. *)
Lemma Handler_mux apiKey r st :
  Handler metrics_page apiKey r st
    = let '(resp, st') :=
        if decide (TrimSpace apiKey ≠ EmptyString ∧ URLPath r ≠ "/health"%string ∧
                   URLPath r ≠ "/metrics"%string ∧
                   default EmptyString (ReqHeader r !! "X-Api-Key"%string) ≠ apiKey)
        then (fail_text StatusUnauthorized "unauthorized", st) else mux metrics_page r st in
      (resp, count_request (Method r) (URLPath r) (Status resp) st').
Proof.
  unfold Handler, withMetrics, withAuth.
  case_bool_decide as H1; [rewrite decide_False by naive_solver; done|].
  case_bool_decide as H2; [rewrite decide_False by naive_solver; done|].
  case_bool_decide as H3; [rewrite decide_True by naive_solver; done|].
  rewrite decide_False by naive_solver. done.
Qed.

Lemma Handler_grows apiKey r st resp st' :
  Handler metrics_page apiKey r st = (resp, st') → grows (s_broker st) (s_broker st').
Proof.
  rewrite Handler_mux. case_decide; [by intros [= <- <-]|].
  destruct (mux _ r st) as [rs st1] eqn:Hm. intros [= <- <-]. by apply mux_grows in Hm.
Qed.

(** Requests of any kind, one after the other. *)
Inductive api_trace (apiKey : string) : api_state → list (Request * Response) → api_state → Prop :=
| trace_nil st : api_trace apiKey st [] st
| trace_cons r resp st st1 tr st' :
    Handler metrics_page apiKey r st = (resp, st1) → api_trace apiKey st1 tr st' →
    api_trace apiKey st ((r, resp) :: tr) st'.

Lemma api_trace_grows apiKey st tr st' :
  api_trace apiKey st tr st' → grows (s_broker st) (s_broker st').
Proof.
  induction 1 as [|r resp st st1 tr st' HH _ IH]; [reflexivity|].
  transitivity (s_broker st1); [by eapply Handler_grows|done].
Qed.
End grows.

(** * Properties *)

(** C17: On a management server started in a directory without records, with
    requests one after the other (transactions, idempotent and plain produce,
    commits, drains) and any system calls failing, where topic and group names
    are single path components, records can be stored and the counters have
    room ([api_good]; with two names for one directory records are lost, as
    [api_aliased_topics_overwrite] shows), a record that can be read at an offset is read
    there for good: a later read of the offset that succeeds returns it. *)
Theorem api_records_stay `{E : Env, C : RecordCodec, L : !RecordCodecLaws, TF : TimeFormat}
    mpage apiKey dir w0 b w tr1 st1 tr2 st2 name off rec w1 :
  (∀ n, plain n = true → no_segment w0 (OS.Join dir n)) →
  NewBroker dir w0 = (Ok b, w) →
  api_run mpage apiKey (MkApi b no_metrics w) tr1 st1 → api_run mpage apiKey st1 tr2 st2 →
  Consume name off 1 (s_broker st1) (s_world st1) = (Ok [rec], w1) →
  ∀ r w2, Consume name off 1 (s_broker st2) (s_world st2) = (r, w2) →
    (∀ l, r = Ok l → l = [rec]) ∧ (Reliable E → is_ok r = true).
Proof.
  intros Hfree HN H1 H2 HC r w2 HC2.
  destruct (NewBroker_inv _ _ _ _ Hfree HN) as [HI _].
  destruct (api_run_kept _ _ _ _ _ H1 _ HI) as (l1 & HI1 & _).
  destruct (api_run_kept _ _ _ _ _ H2 _ HI1) as (l2 & HI2 & HX).
  assert (is_Some (l1 !! name)) as [recs Hl].
  { apply (rep_names _ _ _ (inv_rep _ _ _ HI1)). revert HC. unfold Consume.
    by destruct (topics _ !! name). }
  destruct (HX _ _ Hl) as [more Hm].
  pose proof (Consume_ok _ _ _ _ _ _ _ _ _ (inv_rep _ _ _ HI1) Hl HC) as Hrec.
  change (page 1) with 1%nat in Hrec. split.
  - intros l ->. rewrite (Consume_ok _ _ _ _ _ _ _ _ _ (inv_rep _ _ _ HI2) Hm HC2).
    change (page 1) with 1%nat.
    assert (Z.to_nat off < length recs)%nat as Hlt.
    { destruct (decide (Z.to_nat off < length recs)%nat); [done|]. by rewrite drop_ge in Hrec by lia. }
    rewrite drop_app_le by lia. rewrite take_app_le by (rewrite length_drop; lia). done.
  - intros HR. destruct (Consume_reliable l2 name (recs ++ more) off 1 _ _ (inv_rep _ _ _ HI2) Hm) as [w3 H3].
    rewrite HC2 in H3. by injection H3 as -> _.
Qed.

(** C38: With an API key configured (not blank), a request to any path but
    [/health] and [/metrics] that does not carry exactly that key is answered
    401 and changes nothing but the request counter; with the key, or without
    one configured, the request reaches its handler. *)
Theorem api_key_guards `{E : Env, C : RecordCodec, TF : TimeFormat} mpage apiKey r st resp st' :
  Handler mpage apiKey r st = (resp, st') →
  let guarded := TrimSpace apiKey ≠ EmptyString ∧ URLPath r ≠ "/health"%string ∧
                 URLPath r ≠ "/metrics"%string in
  let presented := default EmptyString (ReqHeader r !! "X-Api-Key"%string) in
  (guarded ∧ presented ≠ apiKey →
     Status resp = StatusUnauthorized ∧
     st' = count_request (Method r) (URLPath r) StatusUnauthorized st) ∧
  (¬ guarded ∨ presented = apiKey →
     ∃ st1, mux mpage r st = (resp, st1) ∧
       st' = count_request (Method r) (URLPath r) (Status resp) st1).
Proof.
  rewrite Handler_mux. intros HH guarded presented. subst guarded presented. split.
  - intros [Hg Hp]. rewrite decide_True in HH by naive_solver. by injection HH as <- <-.
  - intros Hor. rewrite decide_False in HH by naive_solver.
    destruct (mux mpage r st) as [rs st1] eqn:Hm. injection HH as <- <-. by exists st1.
Qed.

(** C18: A client may retry an idempotent produce request after any other
    requests: once it was answered 200, the same request is answered with the
    same record, flagged as a duplicate, and changes neither the broker nor a
    file (it is counted as produced once more). *)
Theorem api_idempotent_retry `{E : Env, C : RecordCodec, TF : TimeFormat}
    mpage apiKey r st resp st1 tr st2 :
  URLPath r = "/produce/idempotent"%string →
  Handler mpage apiKey r st = (resp, st1) → Status resp = StatusOK →
  api_trace mpage apiKey st1 tr st2 →
  ∃ req rec dup st3, decode_api idem_fields (Body r) = Some req ∧
    let body d := writeJSON StatusOK
      ((λ j, JObj [("duplicate"%string, JBool d); ("record"%string, j)]) <$> json_record rec) in
    resp = body dup ∧ Handler mpage apiKey r st2 = (body true, st3) ∧
    s_broker st3 = s_broker st2 ∧ s_world st3 = s_world st2 ∧
    produceThroughput (s_metrics st3) = inc (a_Topic req) (produceThroughput (s_metrics st2)).
Proof.
  intros Hp HH Hst Htr. rewrite Handler_mux in HH.
  destruct (decide _) as [Hd|Hauth]; [by injection HH as <- <-|].
  assert (∀ st, mux mpage r st = handleProduceIdempotent r st) as Hmux.
  { intros st0. unfold mux, route. rewrite Hp.
    repeat (rewrite (bool_decide_false (_ = _)) by done). by rewrite bool_decide_true. }
  rewrite Hmux in HH. unfold handleProduceIdempotent in HH.
  destruct (negb _) eqn:Hm; [by injection HH as <- <-|].
  destruct (decode_api _ _) as [req|] eqn:Hdec; [|by injection HH as <- <-].
  case_bool_decide as Hne; [by injection HH as <- <-|].
  destruct (CreateTopic _ _ _) as [[[t|e] b1] w1] eqn:HC; [|by injection HH as <- <-].
  destruct (ProduceIdempotent _ b1 w1) as [[[[rec dup]|e] b2] w2] eqn:HP; [|by injection HH as <- <-].
  injection HH as <- <-. apply api_trace_grows in Htr as [Hcache Htop]. cbn in Hcache, Htop.
  set (q := MkIdemReq _ _ _ _ _ _) in *.
  destruct (ProduceIdempotent_cases _ _ _ _ _ _ HP) as (_ & _ & Hc).
  pose proof (Hcache _ _ (Hc rec dup eq_refl)) as Hk.
  destruct (Htop (a_Topic req)) as [t2 Ht2].
  { apply ProduceIdempotent_grows in HP as [_ HP]. apply HP. revert HC. unfold CreateTopic.
    destruct (topics _ !! a_Topic req) eqn:Ht; [intros [= _ <- _]; by rewrite Ht|].
    destruct (MkdirAll _ _) as [[[]|] ?]; [|done]. destruct (newSegment _ _ _) as [[s|] ?]; [|done].
    intros [= _ <- _]. cbn. by rewrite lookup_insert_eq. }
  eexists req, rec, dup, _. split; [done|]. cbv zeta. split; [reflexivity|].
  rewrite Handler_mux, decide_False by done. rewrite Hmux. unfold handleProduceIdempotent.
  rewrite Hm, Hdec, bool_decide_false by done. rewrite (CreateTopic_existing _ _ _ _ Ht2).
  fold q. unfold ProduceIdempotent, idem_check.
  rewrite (bool_decide_false (i_producerID q = EmptyString)) by (intros ?; apply Hne; by right).
  rewrite Hk. split; [reflexivity|]. by cbn.
Qed.

(** The consumer-lag gauge never shows a lag: as long as the records carry
    offsets not above their place in the log, committing an offset sets the
    gauge to 0 or leaves it alone, however far behind the consumer is. *)
Theorem consumer_lag_is_zero `{E : Env, C : RecordCodec, L : !RecordCodecLaws, TF : TimeFormat}
    logs r st resp st' req :
  run_inv logs (s_broker st) (s_world st) → api_good r st → URLPath r = "/offset/commit"%string →
  decode_api ["TOPIC"; "GROUP"; "OFFSET"]%string (Body r) = Some req → 0 ≤ a_Offset req < 2 ^ 63 →
  (∀ recs i rec, logs !! a_Topic req = Some recs → recs !! i = Some rec →
     0 ≤ Offset rec ≤ Z.of_nat i) →
  handleCommitOffset r st = (resp, st') →
  consumerLag (s_metrics st') = consumerLag (s_metrics st) ∨
  consumerLag (s_metrics st') = <[(a_Topic req, a_Group req) := fzero]> (consumerLag (s_metrics st)).
Proof.
  intros HI HG Hp Hd Ho Hoffs. unfold handleCommitOffset. rewrite Hd.
  destruct (negb _); [intros [= _ <-]; by left|]. case_bool_decide as Hne; [intros [= _ <-]; by left|].
  apply Decidable.not_or in Hne as [Hne1 Hne2].
  destruct (good_commit _ _ HG req Hp Hd Hne1 Hne2) as [Hp1 Hp2].
  destruct (CommitOffset _ _ _ _ _) as [rc w1] eqn:HC.
  pose proof (commit_inv _ _ _ _ _ _ _ _ HI Hp1 Hp2 HC) as HI1.
  destruct rc as [[]|e]; [|intros [= _ <-]; by left].
  destruct (Consume _ _ _ _ w1) as [rl w2] eqn:HCo. intros [= _ <-].
  destruct rl as [[|rec l]|e]; [by left| |by left]. right. cbn.
  assert (is_Some (logs !! a_Topic req)) as [recs Hl].
  { apply (rep_names _ _ _ (inv_rep _ _ _ HI1)). revert HCo. unfold Consume.
    by destruct (topics _ !! a_Topic req). }
  pose proof (Consume_ok _ _ _ _ _ _ _ _ _ (inv_rep _ _ _ HI1) Hl HCo) as Hrec.
  change (page 1) with 1%nat in Hrec.
  assert (recs !! Z.to_nat (a_Offset req) = Some rec) as Hlk.
  { rewrite <- (Nat.add_0_r (Z.to_nat _)), <- lookup_drop. destruct (drop _ recs); [done|].
    by injection Hrec as ->. }
  specialize (Hoffs _ _ _ Hl Hlk). f_equal. unfold lag_of.
  rewrite wrap64_id by (unfold int64; lia).
  replace (if Offset rec - a_Offset req <? 0 then 0 else Offset rec - a_Offset req) with 0
    by (destruct (_ <? 0) eqn:Hlt; lia).
  reflexivity.
Qed.

(** ** Witnesses *)

#[local] Instance tf1 : TimeFormat := λ _, Some "2023-11-14T22:13:20Z"%string.
Definition page0 : Request → Metrics → Response := λ _ _, MkResponse StatusOK ∅ BEmpty.

Definition api0 : api_state := MkApi broker0 no_metrics wb0.
Definition produce0 : Request :=
  MkRequest "POST" "/produce" ∅ {["X-Api-Key" := "secret"]}%string
    (Some (JObj [("topic", JString "orders"); ("key", JString "k"); ("value", JString "v")]))%string.
Definition health0 : Request := MkRequest "GET" "/health" ∅ ∅ None.

Definition api1 : api_state :=
  count_request "POST" "/produce" 200 (count_produced "orders" (MkApi broker2 no_metrics wb2)).

Lemma produce0_ok :
  Handler (E := env0) (C := codec0) page0 "secret" produce0 api0
    = (writeJSON StatusOK (json_record rec1), api1).
Proof.
  rewrite Handler_mux, decide_False by (intros (_ & _ & _ & Hn); by apply Hn).
  change (mux page0 produce0 api0) with (handleProduce (E := env0) (C := codec0) produce0 api0).
  unfold handleProduce.
  replace (decode_api _ (Body produce0))
    with (Some (MkApiReq EmptyString "orders" "k" "v" ∅ EmptyString 0 EmptyString 0 0 0
                  EmptyString EmptyString fzero)) by (vm_compute; reflexivity).
  cbn [negb bool_decide a_Topic a_Key a_Value a_Headers s_broker s_world api0 Method produce0].
  change (bool_decide ("POST"%string = "POST"%string)) with true.
  change (bool_decide ("orders"%string = EmptyString)) with false. cbn [negb].
  rewrite created0_ok. change (str_bytes "k") with k0. change (str_bytes "v") with v0.
  rewrite produced0_ok. reflexivity.
Qed.

Definition produce_of (topic value : string) : Request :=
  MkRequest "POST" "/produce" ∅ {["X-Api-Key" := "secret"]}%string
    (Some (JObj [("topic", JString topic); ("value", JString value)]))%string.

(** The handlers check only that a topic name is not empty, and "orders" and
    "./orders" are two topics on the same files: the record "b" that a read of
    "./orders" returns at offset 1 is replaced by the next one produced to "orders". *)
Theorem api_aliased_topics_overwrite :
  let s1 := Handler (E := env0) (C := codec0) page0 "secret" (produce_of "orders" "a") api0 in
  let s2 := Handler (E := env0) (C := codec0) page0 "secret" (produce_of "./orders" "b") s1.2 in
  let s3 := Handler (E := env0) (C := codec0) page0 "secret" (produce_of "orders" "c") s2.2 in
  let read st := (match (Consume (E := env0) (C := codec0) "./orders" 1 1 (s_broker st) (s_world st)).1 with
                  | Ok l => Value <$> l | Err _ => [] end) in
  Status s1.1 = StatusOK ∧ Status s2.1 = StatusOK ∧ Status s3.1 = StatusOK
  ∧ read s2.2 = [bytes_of "b"] ∧ read s3.2 = [bytes_of "c"].
Proof.
  cbv zeta. split; [vm_compute; reflexivity|]. split; [vm_compute; reflexivity|].
  split; [vm_compute; reflexivity|]. split; vm_compute; reflexivity.
Qed.

Ltac wrong_path :=
  try (intros; match goal with Hu : URLPath _ = _ |- _ => discriminate Hu end).

Lemma broker0_room n : broker_room n broker0.
Proof.
  intros name t seg Ht. unfold broker0 in Ht. cbn [topics] in Ht. by rewrite lookup_empty in Ht.
Qed.

Lemma produce0_good : api_good (E := env0) (C := codec0) produce0 api0.
Proof.
  split; [exact (broker0_room 1)|wrong_path..].
  intros req _ Hd _. vm_compute in Hd. injection Hd as <-. split; [reflexivity|apply kv0_carriable].
Qed.

Lemma api1_room : broker_room 1 broker2.
Proof.
  refine (Produce_room (E := env0) (C := codec0) _ _ _ _ _ _ _ 1 _ _ _
    (inv_rep _ _ _ broker1_inv) _ produced0_ok).
  refine (CreateTopic_room (E := env0) (C := codec0) "orders" broker0 wb0 2 _ _ _ eq_refl _ _ (broker0_room 2) created0_ok).
  - intros _. apply (inv_free (C := codec0) _ _ _ broker0_inv "orders"); reflexivity.
  - unfold maxPayload. lia.
Qed.

Lemma api_records_stay_witness :
  ∃ r w2, Consume (E := env0) (C := codec0) "orders" 0 1 broker2 wb2 = (r, w2) ∧
    is_ok r = true ∧ ∀ l, r = Ok l → l = [rec1].
Proof.
  destruct (Consume (E := env0) (C := codec0) "orders" 0 1 broker2 wb2) as [r w2] eqn:HC.
  exists r, w2. split; [done|].
  destruct (api_records_stay (E := env0) (C := codec0) page0 "secret" dir0 world0 broker0 wb0
    [(produce0, writeJSON StatusOK (json_record rec1))] api1
    [(health0, MkResponse StatusOK ∅ (BText "ok"))] (count_request "GET" "/health" 200 api1)
    "orders" 0 rec1 w2) with (r := r) (w2 := w2) as [H1 H2].
  - intros n _. apply world0_free.
  - apply broker0_ok.
  - eapply api_cons; [apply produce0_good|apply produce0_ok|apply api_nil].
  - eapply api_cons; [|reflexivity|apply api_nil].
    split; [exact api1_room|wrong_path..].
  - cbn [s_broker s_world api1 count_request count_produced]. rewrite HC. f_equal.
    transitivity (Consume (E := env0) (C := codec0) "orders" 0 1 broker2 wb2).1;
      [by rewrite HC|vm_compute; reflexivity].
  - exact HC.
  - split; [apply H2, env0_reliable|exact H1].
Defined.

Lemma api_key_guards_witness :
  Handler (E := env0) (C := codec0) page0 "secret" (MkRequest "GET" "/topics" ∅ ∅ None) api1
    = (fail_text StatusUnauthorized "unauthorized",
       count_request "GET" "/topics" StatusUnauthorized api1).
Proof.
  destruct (Handler (E := env0) (C := codec0) page0 "secret" (MkRequest "GET" "/topics" ∅ ∅ None) api1)
    as [resp st'] eqn:HH.
  assert (resp = fail_text StatusUnauthorized "unauthorized") as ->.
  { transitivity (Handler (E := env0) (C := codec0) page0 "secret"
      (MkRequest "GET" "/topics" ∅ ∅ None) api1).1; [by rewrite HH|reflexivity]. }
  destruct (api_key_guards (E := env0) (C := codec0) page0 "secret" _ _ _ _ HH) as [Hg _].
  destruct Hg as [_ ->]; [|reflexivity]. split_and!; vm_compute; discriminate.
Defined.

Definition retry0 : Request :=
  MkRequest "POST" "/produce/idempotent" ∅ ∅
    (Some (JObj [("topic", JString "orders"); ("key", JString "k"); ("value", JString "v");
                 ("producer_id", JString "p1"); ("sequence", JInt 5)]))%string.
Definition mapi1 : api_state := MkApi broker1 no_metrics wb1.
Definition tried0 : Response * api_state := Handler (E := env0) (C := codec0) page0 "" retry0 mapi1.

Lemma api_idempotent_retry_witness :
  ∃ req rec dup st3, decode_api idem_fields (Body retry0) = Some req ∧
    tried0.1 = writeJSON StatusOK
      ((λ j, JObj [("duplicate"%string, JBool dup); ("record"%string, j)]) <$> json_record rec) ∧
    Handler (E := env0) (C := codec0) page0 "" retry0 tried0.2
      = (writeJSON StatusOK
          ((λ j, JObj [("duplicate"%string, JBool true); ("record"%string, j)]) <$> json_record rec), st3).
Proof.
  destruct (api_idempotent_retry (E := env0) (C := codec0) page0 "" retry0 mapi1 tried0.1 tried0.2 [] tried0.2)
    as (req & rec & dup & st3 & Hd & Hr & HH & _).
  - reflexivity.
  - unfold tried0. by rewrite <- surjective_pairing.
  - vm_compute. reflexivity.
  - apply trace_nil.
  - exists req, rec, dup, st3. split; [exact Hd|]. split; [exact Hr|exact HH].
Defined.

Definition commit0 : Request :=
  MkRequest "POST" "/offset/commit" ∅ ∅
    (Some (JObj [("topic", JString "orders"); ("group", JString "g"); ("offset", JInt 0)]))%string.
Definition capi : api_state := MkApi broker1 no_metrics wb1.

Lemma consumer_lag_is_zero_witness :
  consumerLag (s_metrics (handleCommitOffset (E := env0) (C := codec0) commit0 capi).2) = ∅ ∨
  consumerLag (s_metrics (handleCommitOffset (E := env0) (C := codec0) commit0 capi).2)
    = {[("orders"%string, "g"%string) := fzero]}.
Proof.
  destruct (handleCommitOffset (E := env0) (C := codec0) commit0 capi) as [resp st'] eqn:HH.
  destruct (decode_api ["TOPIC"; "GROUP"; "OFFSET"]%string (Body commit0)) as [req|] eqn:Hd;
    [|vm_compute in Hd; discriminate].
  assert (a_Topic req = "orders"%string ∧ a_Group req = "g"%string ∧ a_Offset req = 0) as (Ht & Hg & Ho).
  { vm_compute in Hd. injection Hd as <-. split_and!; reflexivity. }
  pose proof (consumer_lag_is_zero (E := env0) (C := codec0) {["orders"%string := []]}
    commit0 capi resp st' req) as Hz.
  rewrite Ht, Hg, Ho in Hz. apply Hz; [apply broker1_inv| |reflexivity|exact Hd|lia| |exact HH].
  - split; wrong_path.
    + intros n t seg Hn Hs. destruct (broker1_room_for n t seg Hn Hs) as [H1 H2].
      unfold room_for. rewrite H1, H2. unfold maxPayload. lia.
    + intros q _ Hq _ _. rewrite Hd in Hq. injection Hq as <-. rewrite Ht, Hg. split; reflexivity.
  - intros recs i rec Hl Hi. rewrite lookup_singleton_eq in Hl. injection Hl as <-. done.
Defined.
