(* ===== verification/HttpClient.v ===== *)
(** * The HTTP client of the SDK ([src/sdk/client.go])

    The client builds requests, sends them to a server and reads the responses.
    The network is a parameter: a function from the server's base address, a
    request and the server's state to a response (none when the exchange fails)
    and the new state.  The file composes the client with the management API. *)

From Stdlib Require Import SpecFloat.
From S2P Require Import Prelude Encoding OS Segment Samples SegmentFacts ConsumerGroup Broker.
From S2P Require Import BrokerFacts BrokerRun BrokerProps Idempotent Transactions.
From S2P Require Import Processor Http BrokerServer Management ManagementProps.

(** ** Strings in JSON

    [json.Marshal] writes a Go string as UTF-8 text: every byte that is not part
    of a valid encoding becomes U+FFFD. *)

Fixpoint utf8_fix_bytes (fuel : nat) (bs : list byte) : list byte :=
  match fuel, bs with
  | O, _ | _, [] => []
  | S fuel, _ :: rest =>
      match utf8_len bs with
      | O => [xef; xbf; xbd] ++ utf8_fix_bytes fuel rest
      | n => take n bs ++ utf8_fix_bytes fuel (drop n bs)
      end
  end.
Definition utf8_fix (s : string) : string :=
  bytes_str (utf8_fix_bytes (length (str_bytes s)) (str_bytes s)).
Definition valid_utf8 (s : string) : Prop := utf8_fix s = s.

(** ** The client *)

Record Client := MkClient { baseURL : string; c_apiKey : string }.

(** [strings.TrimRight(s, "/")] *)
Definition trim_right_slash (s : string) : string :=
  bytes_str (rev (trim_front (length (str_bytes s)) [[x2f]] (rev (str_bytes s)))).
Definition has_prefix (p s : string) : bool :=
  bool_decide (take (length (str_bytes p)) (str_bytes s) = str_bytes p).

Definition NewClient (brokerAddr : string) : Client :=
  let base := trim_right_slash brokerAddr in
  let base := if negb (has_prefix "http://" base) && negb (has_prefix "https://" base)
              then "http://" +:+ base else base in
  MkClient base EmptyString.

Definition WithAPIKey (apiKey : string) (c : Client) : Client := MkClient (baseURL c) apiKey.

(** [fmt.Sprint] of a decoded JSON value that is not a string. *)
Class JsonFormat := sprint_json : json → string.

Inductive client_error := TransportError | RequestFailed (status : Z) (body : RespBody)
  | ConsumeFailed (body : RespBody) | DecodeError.

Section client.
Context {St : Type} {JF : JsonFormat}.
Variable network : string → Request → St → option Response * St.

Definition client_headers (c : Client) (hdr : gmap string string) : gmap string string :=
  if bool_decide (c_apiKey c = EmptyString) then hdr else <["X-Api-Key"%string := c_apiKey c]> hdr.

(** The decoded object, empty when the body is empty. *)
Definition postJSON (c : Client) (urlpath : string) (payload : list (string * json)) (st : St)
    : (client_error + list (string * json)) * St :=
  let req := MkRequest "POST" urlpath ∅
               (client_headers c {["Content-Type" := "application/json"]}%string)
               (Some (JObj payload)) in
  match network (baseURL c) req st with
  | (None, st) => (inl TransportError, st)
  | (Some resp, st) =>
      if 300 <=? Status resp then (inl (RequestFailed (Status resp) (RespBody_ resp)), st)
      else (match RespBody_ resp with
            | BJson (JObj kvs) => inr kvs
            | BJson JNull | BEmpty => inr []
            | _ => inl DecodeError
            end, st)
  end.

Definition gostring (b : list byte) : json := JString (utf8_fix (bytes_str b)).

Definition ignore_result {A} (r : (client_error + A) * St) : option client_error * St :=
  (match r.1 with inl e => Some e | inr _ => None end, r.2).

(** Maps are marshalled with sorted keys. *)
Definition client_Produce (c : Client) (topic : string) (key value : list byte) (st : St)
    : option client_error * St :=
  ignore_result (postJSON c "/produce"
    [("key", gostring key); ("topic", JString (utf8_fix topic)); ("value", gostring value)]%string st).

Definition client_ProduceIdempotent (c : Client) (topic : string) (key value : list byte)
    (producerID : string) (sequence : Z) (st : St) : option client_error * St :=
  ignore_result (postJSON c "/produce/idempotent"
    [("key", gostring key); ("producer_id", JString (utf8_fix producerID)); ("sequence", JInt sequence);
     ("topic", JString (utf8_fix topic)); ("value", gostring value)]%string st).

(** [fmt.Sprint(resp["tx_id"])]; of two equal keys the later counts. *)
Definition sprint_key (k : string) (kvs : list (string * json)) : string :=
  match last (filter (λ kv, kv.1 = k) kvs) with
  | Some (_, JString s) => s
  | Some (_, j) => sprint_json j
  | None => "<nil>"
  end.

Definition client_BeginTransaction (c : Client) (producerID : string) (epoch : Z) (st : St)
    : (client_error + string) * St :=
  match postJSON c "/tx/begin"
          [("epoch", JInt epoch); ("producer_id", JString (utf8_fix producerID))]%string st with
  | (inl e, st) => (inl e, st)
  | (inr resp, st) => (inr (sprint_key "tx_id" resp), st)
  end.

Definition client_TxProduce (c : Client) (txID topic : string) (key value : list byte) (st : St)
    : option client_error * St :=
  ignore_result (postJSON c "/tx/produce"
    [("key", gostring key); ("topic", JString (utf8_fix topic)); ("tx_id", JString (utf8_fix txID));
     ("value", gostring value)]%string st).

Definition client_CommitTransaction (c : Client) (txID : string) (st : St) : option client_error * St :=
  ignore_result (postJSON c "/tx/commit" [("tx_id"%string, JString (utf8_fix txID))] st).

Definition client_AbortTransaction (c : Client) (txID : string) (st : St) : option client_error * St :=
  ignore_result (postJSON c "/tx/abort" [("tx_id"%string, JString (utf8_fix txID))] st).

(** [consumedRecord] *)
Definition consumedRecord_set (name : string) (j : json) (v : string) : option string :=
  if bool_decide (name = "VALUE"%string) then dec_string j v else Some v.
Definition decode_consumed (j : json) : option (list string) :=
  match j with
  | JArr l => mapM (decode_struct consumedRecord_set EmptyString) l
  | JNull => Some []
  | _ => None
  end.

Definition getRecords (c : Client) (topic : string) (st : St)
    : (client_error + list string) * St :=
  let req := MkRequest "GET" "/consume" {["topic" := topic; "offset" := "0"; "max" := "100"]}%string
               (client_headers c ∅) None in
  match network (baseURL c) req st with
  | (None, st) => (inl TransportError, st)
  | (Some resp, st) =>
      if 300 <=? Status resp then (inl (ConsumeFailed (RespBody_ resp)), st)
      else (match RespBody_ resp with
            | BJson j => match decode_consumed j with Some l => inr l | None => inl DecodeError end
            | _ => inl DecodeError
            end, st)
  end.

(** What the channel delivers before it is closed, when nobody cancels. *)
Definition client_Consume (c : Client) (topic : string) (st : St) : list (list byte) * St :=
  match getRecords c topic st with
  | (inl _, st) => ([], st)
  | (inr recs, st) => (str_bytes <$> recs, st)
  end.
End client.

(** ** The client of the management API *)

Section composed.
Context {E : Env} {C : RecordCodec} {TF : TimeFormat} {JF : JsonFormat}.
Variable metrics_page : Request → Metrics → Response.

(** A network on which the server at [addr] always answers. *)
Definition lan (addr apiKey : string) (base : string) (r : Request) (st : api_state)
    : option Response * api_state :=
  if bool_decide (base = addr)
  then let '(resp, st) := Handler metrics_page apiKey r st in (Some resp, st)
  else (None, st).

(** The text a value arrives as. *)
Definition delivered (v : list byte) : list byte := base64_bytes v.

Lemma consumed_record r t j :
  time_json (Timestamp r) = Some t → json_record r = Some j →
  ∃ s, decode_struct consumedRecord_set EmptyString j = Some s ∧ str_bytes s = delivered (Value r).
Proof.
  intros Ht. unfold json_record. rewrite Ht. intros [= <-].
  assert (∀ s kvs, (∀ kv, kv ∈ kvs → fold_name kv.1 ≠ "VALUE"%string) →
    fold_left (λ acc kv, match acc with
                         | Some r => consumedRecord_set (fold_name kv.1) kv.2 r
                         | None => None end) kvs (Some s) = Some s) as Hskip.
  { intros s kvs. induction kvs as [|kv kvs IH]; intros Hk; [done|]. cbn.
    unfold consumedRecord_set at 2. rewrite bool_decide_false by (apply Hk, list_elem_of_here).
    apply IH. intros kv' Hin. by apply Hk, list_elem_of_further. }
  cbn [decode_struct app fold_left fst snd].
  change (consumedRecord_set (fold_name "key") (json_bytes (Key r)) EmptyString)
    with (Some EmptyString).
  cbv beta iota.
  change (consumedRecord_set (fold_name "value") (json_bytes (Value r)) EmptyString)
    with (dec_string (json_bytes (Value r)) EmptyString).
  assert (∃ s, dec_string (json_bytes (Value r)) EmptyString = Some s ∧ str_bytes s = delivered (Value r))
    as (s & -> & Hs).
  { unfold json_bytes, delivered. destruct (Value r) as [|x v]; [by exists EmptyString|].
    eexists; split; [reflexivity|]. unfold base64. apply bytes_str_inv. }
  exists s. split; [|done]. apply Hskip. intros kv Hin. rewrite elem_of_app in Hin.
  destruct Hin as [Hin|Hin].
  - case_decide; [by apply elem_of_nil in Hin|]. apply list_elem_of_singleton in Hin as ->.
    vm_compute. discriminate.
  - apply elem_of_cons in Hin as [->|Hin]; [vm_compute; discriminate|].
    apply list_elem_of_singleton in Hin as ->. vm_compute. discriminate.
Qed.

Lemma consumed_records rs :
  (∀ r, r ∈ rs → is_Some (time_json (Timestamp r))) →
  ∃ js ss, mapM json_record rs = Some js ∧
    mapM (decode_struct consumedRecord_set EmptyString) js = Some ss ∧
    str_bytes <$> ss = (λ r, delivered (Value r)) <$> rs.
Proof.
  induction rs as [|r rs IH]; intros Ht; [by exists [], []|].
  destruct IH as (js & ss & H1 & H2 & H3); [intros x Hx; by apply Ht, list_elem_of_further|].
  destruct (Ht r (list_elem_of_here _ _)) as [t Hr].
  assert (∃ j, json_record r = Some j) as [j Hj] by (unfold json_record; rewrite Hr; by eexists).
  destruct (consumed_record r t j Hr Hj) as (s & Hs1 & Hs2).
  exists (j :: js), (s :: ss). cbn. rewrite Hj, H1, Hs1. cbn. rewrite H2.
  split_and!; [done..|]. by rewrite Hs2, H3.
Qed.

(** A client with the server's key gets through. *)
Lemma Handler_client apiKey hdr c r st :
  c_apiKey c = apiKey → ReqHeader r = client_headers c hdr →
  Handler metrics_page apiKey r st
    = let '(resp, st') := mux metrics_page r st in
      (resp, count_request (Method r) (URLPath r) (Status resp) st').
Proof.
  intros Hk Hh. rewrite Handler_mux, decide_False; [done|]. intros (Ht & _ & _ & Hp).
  rewrite Hh in Hp. unfold client_headers in Hp. subst apiKey.
  case_bool_decide as He; [rewrite He in Ht; by apply Ht|].
  rewrite lookup_insert_eq in Hp. by apply Hp.
Qed.

Lemma client_Consume_exact addr apiKey c topic logs recs st `{!Reliable E} :
  baseURL c = addr → c_apiKey c = apiKey → topic ≠ EmptyString →
  broker_rep logs (s_broker st) (s_world st) → logs !! topic = Some recs →
  (∀ r, r ∈ recs → is_Some (time_json (Timestamp r))) →
  ∃ st', client_Consume (lan addr apiKey) c topic st
         = ((λ r, delivered (Value r)) <$> take 100 recs, st') ∧ s_broker st' = s_broker st.
Proof.
  intros Hb Hk Ht HB Hl Hpr. unfold client_Consume, getRecords, lan.
  set (req := MkRequest _ _ _ _ _). rewrite bool_decide_true by done.
  rewrite (Handler_client apiKey ∅ c req st) by done.
  change (mux metrics_page req st) with (handleConsume req st). unfold handleConsume.
  assert (consume_params req = inr (topic, 0, 100)) as ->.
  { unfold consume_params. replace (query req "topic") with topic by reflexivity.
    rewrite (bool_decide_false (topic = EmptyString)) by done. reflexivity. }
  change (Method req) with "GET"%string. rewrite bool_decide_true by done. cbn [negb].
  destruct (Consume_reliable logs topic recs 0 100 (s_broker st) (s_world st) HB Hl) as [w1 ->].
  change (take (page 100) (drop (Z.to_nat 0) recs)) with (take 100 recs).
  destruct (consumed_records (take 100 recs)) as (js & ss & H1 & H2 & H3).
  { intros r Hr. apply Hpr. rewrite <- (take_drop 100 recs). apply elem_of_app. by left. }
  unfold json_records, writeJSON. rewrite H1. cbn [fmap option_fmap option_map Status RespBody_].
  change (300 <=? StatusOK) with false. cbv iota. cbn [decode_consumed]. rewrite H2, H3.
  eexists; split; [reflexivity|]. done.
Qed.

Lemma client_Produce_ok addr apiKey c topic key value st st' :
  baseURL c = addr → c_apiKey c = apiKey →
  valid_utf8 topic → valid_utf8 (bytes_str key) → valid_utf8 (bytes_str value) →
  client_Produce (lan addr apiKey) c topic key value st = (None, st') →
  topic ≠ EmptyString ∧
  ∃ t b1 w1 rec, CreateTopic topic (s_broker st) (s_world st) = (Ok t, b1, w1) ∧
    Produce topic key value ∅ b1 w1 = (Ok rec, s_broker st', s_world st').
Proof.
  intros Hb Hk Ht Hkey Hval. unfold client_Produce, postJSON, lan. set (req := MkRequest _ _ _ _ _).
  rewrite bool_decide_true by done. rewrite (Handler_client apiKey _ c req st) by done.
  change (mux metrics_page req st) with (handleProduce req st). unfold handleProduce.
  change (Method req) with "POST"%string. rewrite bool_decide_true by done. cbn [negb].
  assert (decode_api ["TOPIC"; "KEY"; "VALUE"; "HEADERS"]%string (Body req)
    = Some (MkApiReq EmptyString topic (bytes_str key) (bytes_str value) ∅ EmptyString 0 EmptyString 0 0 0
              EmptyString EmptyString fzero)) as ->.
  { subst req. unfold gostring. cbn [Body]. rewrite Ht, Hkey, Hval. reflexivity. }
  cbn [a_Topic a_Key a_Value a_Headers]. rewrite !bytes_str_inv.
  case_bool_decide as Hne; [intros HX; injection HX; discriminate|].
  destruct (CreateTopic topic _ _) as [[[t|e] b1] w1] eqn:HC; [|intros HX; injection HX; discriminate].
  destruct (Produce topic _ _ _ b1 w1) as [[[rec|e] b2] w2] eqn:HP.
  - unfold ignore_result. cbn. destruct (json_record rec) as [[]|]; intros [= <-] || (intros HX; injection HX; discriminate);
      (split; [done|]); by exists t, b1, w1, rec.
  - destruct e; intros HX; injection HX; discriminate.
Qed.

Lemma Produce_timestamp name k v h b w rec b' w' :
  Produce name k v h b w = (Ok rec, b', w') → ∃ n, Timestamp rec = env_clock n.
Proof.
  unfold Produce, time_now. destruct (isDrainingLocked b w) as [[] w1]; [done|].
  destruct (topics b !! name) as [t|]; [|done]. destruct (last _) as [s|]; [|done].
  destruct (Append s _ _) as [[[o|e] s'] w3]; [|done]. intros [= <- _ _]. cbn. by eexists.
Qed.
End composed.

(** C19: Client and management API together, without faults: after a successful
    [Produce] of a valid UTF-8 topic, key and value, [Consume] delivers the
    first 100 values of the topic, the new one at the end; each arrives as the
    base64 text of the value, not as the value. *)
Theorem client_produce_then_consume
    `{E : Env, C : RecordCodec, L : !RecordCodecLaws, TF : TimeFormat, HRel : !Reliable E}
    mpage addr apiKey c topic key value logs st st' :
  baseURL c = addr → c_apiKey c = apiKey →
  valid_utf8 topic → valid_utf8 (bytes_str key) → valid_utf8 (bytes_str value) →
  run_inv logs (s_broker st) (s_world st) → broker_room 1 (s_broker st) →
  plain topic = true → storable key value ∅ →
  (∀ n, is_Some (time_json (env_clock n))) →
  (∀ r, r ∈ log_of logs topic → is_Some (time_json (Timestamp r))) →
  client_Produce (lan mpage addr apiKey) c topic key value st = (None, st') →
  (client_Consume (lan mpage addr apiKey) c topic st').1
    = take 100 (((λ r, delivered (Value r)) <$> log_of logs topic) ++ [base64_bytes value]).
Proof.
  intros Hb Hk Ht Hkey Hval HI Hroom Hpl Hst Hclock Hold HP.
  apply client_Produce_ok in HP as (Hne & t & b1 & w1 & rec & HC & HP); [|done..].
  pose proof (CreateTopic_outcome _ _ _ _ _ _ _ (inv_rep _ _ _ HI) Hpl (inv_free _ _ _ HI _ Hpl) HC)
    as (_ & HB1 & _).
  destruct (create_kept _ _ _ _ _ _ _ HI Hpl Hroom HC) as (_ & _ & _ & Hroom1).
  set (logsc := match logs !! topic with Some _ => logs | None => <[topic:=[]]> logs end) in *.
  assert (∀ u, topics b1 !! topic = Some u → topic_room u) as Hr1.
  { intros u Hu seg Hseg. eapply room_for_room. by eapply Hroom1. }
  destruct (Produce_timestamp _ _ _ _ _ _ _ _ _ HP) as [n Hn].
  destruct (Produce_outcome _ _ _ _ _ _ _ _ _ _ HB1 Hr1 Hst HP)
    as (recs & u & Hl & _ & _ & _ & Hv & _ & HB2 & _).
  assert (recs = log_of logs topic) as ->.
  { revert Hl. unfold logsc, log_of. destruct (logs !! topic) eqn:Hlt; [by rewrite Hlt; intros [= <-]|].
    rewrite lookup_insert_eq. by intros [= <-]. }
  destruct (client_Consume_exact mpage addr apiKey c topic _
    (log_of logs topic ++ [with_offset (NextOffset u) rec]) st' Hb Hk Hne HB2) as (st2 & -> & _).
  - by rewrite lookup_insert_eq.
  - intros r Hr. apply elem_of_app in Hr as [Hr|Hr]; [by apply Hold|].
    apply list_elem_of_singleton in Hr as ->. cbn. rewrite Hn. apply Hclock.
  - cbn [fst]. rewrite fmap_take, fmap_app. cbn [fmap list_fmap Value with_offset].
    unfold delivered at 2. by rewrite Hv.
Qed.

#[local] Instance tf2 : TimeFormat := λ _, Some "2023-11-14T22:13:20Z"%string.
Definition client0 : Client := WithAPIKey "secret" (NewClient "localhost:8094/").
Definition sent0 : option client_error * api_state :=
  client_Produce (lan (E := env0) (C := codec0) page0 "http://localhost:8094" "secret")
    client0 "orders" k0 v0 api0.

Lemma client_produce_then_consume_witness :
  (client_Consume (lan (E := env0) (C := codec0) page0 "http://localhost:8094" "secret")
     client0 "orders" sent0.2).1 = [str_bytes "dg=="] ∧ v0 ≠ str_bytes "dg==".
Proof.
  split; [|vm_compute; discriminate].
  rewrite (client_produce_then_consume (E := env0) (C := codec0) (HRel := env0_reliable)
    page0 "http://localhost:8094" "secret" client0 "orders" k0 v0 ∅ api0 sent0.2).
  - vm_compute. reflexivity.
  - vm_compute. reflexivity.
  - reflexivity.
  - vm_compute. reflexivity.
  - vm_compute. reflexivity.
  - vm_compute. reflexivity.
  - exact broker0_inv.
  - exact (broker0_room 1).
  - reflexivity.
  - apply kv0_carriable.
  - intros n. by eexists.
  - intros r Hr. unfold log_of in Hr. rewrite lookup_empty in Hr. by apply elem_of_nil in Hr.
  - assert (sent0.1 = None) as <- by (vm_compute; reflexivity). exact (surjective_pairing sent0).
Defined.
