(* ===== verification/Schema.v ===== *)
(** * Schema registries ([src/schema/registry.go], [src/schema/advanced_registry.go])

    The simple registry with its inline schemas "{field:type,...}" and their
    validation, and the versioned registry.  Each operation holds the registry's
    mutex. *)

From Stdlib Require Import SpecFloat.
From S2P Require Import Prelude Encoding OS Segment Processor Http.

(** ** Text *)

(** [strings.Split] by a separator of one byte. *)
Fixpoint split_on (sep : byte) (bs : list byte) : list (list byte) :=
  match bs with
  | [] => [[]]
  | b :: bs =>
      if decide (b = sep) then [] :: split_on sep bs
      else match split_on sep bs with
           | [] => [[b]]
           | p :: ps => (b :: p) :: ps
           end
  end.

Definition trim_bytes (bs : list byte) : list byte :=
  let bs := trim_front (length bs) space_runes bs in
  rev (trim_front (length bs) (@rev byte <$> space_runes) (rev bs)).

Definition splitAndTrim (s : list byte) (sep : byte) : list (list byte) :=
  filter (λ t, t ≠ []) (trim_bytes <$> split_on sep s).

Definition trimBraces (s : list byte) : list byte :=
  if (2 <=? length s)%nat && bool_decide (head s = Some x7b) && bool_decide (last s = Some x7d)
  then take (length s - 2) (drop 1 s) else s.

(** ** The simple registry *)

Definition add_field (out : gmap string string) (p : list byte) : gmap string string :=
  match splitAndTrim p x3a with
  | [k; v] => <[bytes_str k := bytes_str v]> out
  | _ => out
  end.
Definition splitSchema (s : string) : gmap string string :=
  let s := trimBraces (str_bytes s) in
  if decide (s = []) then ∅ else fold_left add_field (splitAndTrim s x2c) ∅.

Definition Registry : Type := gmap string string.
Definition NewRegistry : Registry := ∅.
Definition RegisterSchema (name schema : string) (r : Registry) : Registry := <[name := schema]> r.
Definition GetSchema (name : string) (r : Registry) : option string := r !! name.

(** The type switch on a field. *)
Definition type_ok (typ : string) (v : value) : bool :=
  if bool_decide (typ = "int"%string) then match v with VInt _ => true | _ => false end
  else if bool_decide (typ = "string"%string) then match v with VString _ => true | _ => false end
  else true.

(** The loop over the fields returns false at the first that fails, in any
    order. *)
Definition Validate (name : string) (rec : Record0) (r : Registry) : bool :=
  match GetSchema name r with
  | None => false
  | Some s =>
      if bool_decide (s = EmptyString) then true
      else forallb (λ kt, match rec !! kt.1 with Some v => type_ok kt.2 v | None => false end)
             (map_to_list (splitSchema s))
  end.

(** ** The versioned registry *)

Inductive SchemaFormat := FormatJSONSchema | FormatAvro | FormatProtobuf | FormatOther (s : string).

Record SchemaVersion := MkSchemaVersion {
  sv_ID : Z; sv_Name : string; sv_Format : SchemaFormat; sv_Content : string }.

Record AdvancedRegistry := MkAdvanced { nextID : Z; versions : gmap string (list SchemaVersion) }.

Definition NewAdvancedRegistry : AdvancedRegistry := MkAdvanced 1 ∅.

Definition isBackwardCompatible (oldSchema newSchema : string) : bool :=
  if bool_decide (oldSchema = EmptyString) then true
  else (length (str_bytes oldSchema) <=? length (str_bytes newSchema))%nat.

Definition supported (format : SchemaFormat) : bool :=
  match format with FormatOther _ => false | _ => true end.

Definition RegisterVersion (name : string) (format : SchemaFormat) (content : string)
    (r : AdvancedRegistry) : res SchemaVersion * AdvancedRegistry :=
  if bool_decide (name = EmptyString ∨ content = EmptyString)
  then (Err (ErrMsg "name and content are required"), r)
  else if negb (supported format) then (Err (ErrMsg "unsupported schema format"), r)
  else
    let vs := default [] (versions r !! name) in
    let compatible := match last vs with
                      | Some l => isBackwardCompatible (sv_Content l) content
                      | None => true
                      end in
    if negb compatible then (Err (ErrMsg "schema is not backward compatible"), r)
    else
      let sv := MkSchemaVersion (nextID r) name format content in
      (Ok sv, MkAdvanced (wrap64 (nextID r + 1)) (<[name := vs ++ [sv]]> (versions r))).

Definition Latest (name : string) (r : AdvancedRegistry) : option SchemaVersion :=
  last (default [] (versions r !! name)).

(** ** Parsing a schema *)

(** A name without separators, braces and blanks. *)
Definition word_byte (b : byte) : bool :=
  let n := Z_of_byte b in
  (33 <=? n) && (n <=? 126) && negb (n =? 44) && negb (n =? 58) && negb (n =? 123) && negb (n =? 125).
Definition word (s : list byte) : Prop := s ≠ [] ∧ Forall (λ b, word_byte b = true) s.

Definition field_bytes (kt : list byte * list byte) : list byte := kt.1 ++ [x3a] ++ kt.2.

Fixpoint join_with (sep : byte) (ps : list (list byte)) : list byte :=
  match ps with
  | [] => []
  | [p] => p
  | p :: ps => p ++ sep :: join_with sep ps
  end.

(** The text of a list of fields: "{k:t,k:t}". *)
Definition print_schema (fields : list (list byte * list byte)) : list byte :=
  [x7b] ++ join_with x2c (field_bytes <$> fields) ++ [x7d].

Lemma split_on_no_sep sep p : sep ∉ p → split_on sep p = [p].
Proof.
  induction p as [|b p IH]; intros Hn; [done|]. rewrite not_elem_of_cons in Hn. destruct Hn as [Hb Hp].
  cbn. rewrite decide_False by congruence. by rewrite IH.
Qed.

Lemma split_on_app sep p rest : sep ∉ p → split_on sep (p ++ sep :: rest) = p :: split_on sep rest.
Proof.
  induction p as [|b p IH]; intros Hn; cbn; [by rewrite decide_True|].
  rewrite not_elem_of_cons in Hn. destruct Hn as [Hb Hp].
  rewrite decide_False by congruence. by rewrite IH.
Qed.

Lemma split_join sep ps :
  ps ≠ [] → Forall (λ p, sep ∉ p) ps → split_on sep (join_with sep ps) = ps.
Proof.
  induction ps as [|p ps IH]; intros Hne HF; [done|]. inversion HF; subst.
  destruct ps as [|q ps]; [by apply split_on_no_sep|].
  change (join_with sep (p :: q :: ps)) with (p ++ sep :: join_with sep (q :: ps)).
  rewrite split_on_app by done. f_equal. by apply IH.
Qed.

(** No blank starts or ends with a visible ASCII byte. *)
Lemma drop_rune_visible runes b bs :
  Forall (λ r, ∀ x, head r = Some x → x ≠ b) runes → Forall (λ r, r ≠ []) runes →
  drop_rune runes (b :: bs) = None.
Proof.
  induction runes as [|r runes IH]; intros H1 H2; [done|].
  inversion H1; subst. inversion H2; subst. cbn. rewrite decide_False; [by apply IH|].
  destruct r as [|x r]; [done|]. cbn. intros [= Hx _]. by apply (H3 x).
Qed.

Definition visible (b : byte) : bool := let n := Z_of_byte b in (33 <=? n) && (n <=? 126).

Lemma visible_front b bs : visible b = true → drop_rune space_runes (b :: bs) = None.
Proof.
  intros Hv. apply drop_rune_visible.
  - unfold space_runes. repeat constructor; intros x [= <-]; intros <-; vm_compute in Hv; discriminate.
  - unfold space_runes. by repeat constructor.
Qed.
Lemma visible_back b bs : visible b = true → drop_rune (@rev byte <$> space_runes) (b :: bs) = None.
Proof.
  intros Hv. apply drop_rune_visible.
  - unfold space_runes. repeat constructor; intros x [= <-]; intros <-; vm_compute in Hv; discriminate.
  - unfold space_runes. by repeat constructor.
Qed.

Lemma trim_front_none fuel runes bs : drop_rune runes bs = None → trim_front fuel runes bs = bs.
Proof. intros Hd. destruct fuel; [done|]. cbn. by rewrite Hd. Qed.

Lemma trim_visible b1 mid b2 bs :
  bs = b1 :: mid → last bs = Some b2 → visible b1 = true → visible b2 = true → trim_bytes bs = bs.
Proof.
  intros -> Hl H1 H2. unfold trim_bytes. cbv zeta.
  rewrite (trim_front_none _ space_runes) by by apply visible_front.
  apply last_Some in Hl as [l ->]. rewrite rev_unit, trim_front_none by by apply visible_back.
  cbn [rev]. by rewrite rev_involutive.
Qed.

Lemma word_byte_visible b : word_byte b = true → visible b = true.
Proof. unfold word_byte, visible. intros. lia. Qed.

Lemma word_trim s : word s → trim_bytes s = s.
Proof.
  intros [Hne HF]. destruct s as [|b s]; [done|].
  destruct (last (b :: s)) as [b2|] eqn:Hl; [|by apply last_None in Hl].
  apply (trim_visible b s b2); [done..| |]; apply word_byte_visible.
  - by inversion HF.
  - apply last_Some_elem_of in Hl. by eapply Forall_forall in HF.
Qed.

Lemma word_no b s : word s → word_byte b = false → b ∉ s.
Proof. intros [_ HF] Hb Hin. eapply Forall_forall in HF; [|exact Hin]. cbn in HF. congruence. Qed.

Lemma field_trim kt : word kt.1 → word kt.2 → trim_bytes (field_bytes kt) = field_bytes kt.
Proof.
  destruct kt as [k t]; cbn [fst snd]. intros [Hk1 Hk2] [Ht1 Ht2].
  destruct k as [|b k]; [done|]. destruct (last t) as [b2|] eqn:Hl; [|by apply last_None in Hl].
  apply (trim_visible b (k ++ [x3a] ++ t) b2); [done|..].
  - unfold field_bytes. cbn [fst snd]. rewrite !last_app, Hl. done.
  - apply word_byte_visible. by inversion Hk2.
  - apply word_byte_visible. apply last_Some_elem_of in Hl. by eapply Forall_forall in Ht2.
Qed.

Lemma field_split kt : word kt.1 → word kt.2 → splitAndTrim (field_bytes kt) x3a = [kt.1; kt.2].
Proof.
  intros H1 H2. unfold splitAndTrim, field_bytes. cbn [app].
  rewrite split_on_app by by apply word_no. rewrite split_on_no_sep by by apply word_no.
  cbn [fmap list_fmap]. rewrite !word_trim by done.
  rewrite filter_cons_True by apply H1. rewrite filter_cons_True by apply H2. done.
Qed.

Lemma field_no b kt : word kt.1 → word kt.2 → word_byte b = false → b ≠ x3a → b ∉ field_bytes kt.
Proof.
  intros H1 H2 Hb Hne Hin. unfold field_bytes in Hin. rewrite !elem_of_app in Hin.
  destruct Hin as [Hin|[Hin|Hin]]; [by eapply word_no in Hin|set_solver|by eapply word_no in Hin].
Qed.

Lemma trimBraces_print fields :
  trimBraces (print_schema fields) = join_with x2c (field_bytes <$> fields).
Proof.
  unfold trimBraces, print_schema. set (j := join_with _ _).
  assert (length ([x7b] ++ j ++ [x7d]) = length j + 2)%nat as Hl by (rewrite !length_app; cbn; lia).
  rewrite Hl. replace (2 <=? length j + 2)%nat with true by (symmetry; apply Nat.leb_le; lia).
  rewrite (bool_decide_true (head _ = _)) by done.
  rewrite (bool_decide_true (last _ = _)) by (rewrite app_assoc; apply last_snoc). cbn [andb].
  change (drop 1 ([x7b] ++ j ++ [x7d])) with (j ++ [x7d]). apply take_app_length'. lia.
Qed.

Definition fields_ok (fields : list (list byte * list byte)) : Prop :=
  fields ≠ [] ∧ Forall (λ kt, word kt.1 ∧ word kt.2) fields.

Definition ins (out : gmap string string) (kt : list byte * list byte) : gmap string string :=
  <[bytes_str kt.1 := bytes_str kt.2]> out.

Lemma split_fields fields :
  Forall (λ kt, word kt.1 ∧ word kt.2) fields →
  filter (λ t, t ≠ []) (trim_bytes <$> (field_bytes <$> fields)) = field_bytes <$> fields.
Proof.
  induction 1 as [|kt fields [H1 H2] _ IH]; [done|]. cbn [fmap list_fmap].
  rewrite field_trim by done. rewrite filter_cons_True.
  - f_equal. exact IH.
  - unfold field_bytes. by destruct kt.1.
Qed.

Lemma fold_fields fields : ∀ out,
  Forall (λ kt, word kt.1 ∧ word kt.2) fields →
  fold_left add_field (field_bytes <$> fields) out = fold_left ins fields out.
Proof.
  induction fields as [|kt fields IH]; intros out HF; [done|]. inversion HF as [|? ? [H1 H2] HF']; subst.
  cbn. unfold add_field at 2. rewrite field_split by done. by apply IH.
Qed.

Lemma splitSchema_print fields :
  fields_ok fields → splitSchema (bytes_str (print_schema fields)) = fold_left ins fields ∅.
Proof.
  intros [Hne HF]. unfold splitSchema. cbv zeta.
  rewrite bytes_str_inv, trimBraces_print.
  rewrite decide_False.
  - unfold splitAndTrim. rewrite split_join.
    + rewrite split_fields by done. by apply fold_fields.
    + by destruct fields.
    + apply Forall_fmap. eapply Forall_impl; [exact HF|]. intros kt [H1 H2]. by apply field_no.
  - destruct fields as [|kt fields]; [done|]. inversion HF as [|? ? [[H1 _] _] _]; subst.
    cbn. destruct fields; cbn; unfold field_bytes; by destruct kt.1.
Qed.

Lemma bytes_str_inj a b : bytes_str a = bytes_str b → a = b.
Proof.
  intros Hab. rewrite <- (bytes_str_inv a), Hab. apply bytes_str_inv.
Qed.

Lemma fold_ins_lookup fields : ∀ out k t,
  NoDup fields.*1 →
  fold_left ins fields out !! k = Some t ↔
    (∃ kt, kt ∈ fields ∧ bytes_str kt.1 = k ∧ bytes_str kt.2 = t) ∨
    (out !! k = Some t ∧ ∀ kt, kt ∈ fields → bytes_str kt.1 ≠ k).
Proof.
  induction fields as [|kt fields IH]; intros out k t Hnd; cbn [fold_left].
  - split; [intros H; right; split; [done|]; intros kt Hin; by apply elem_of_nil in Hin|].
    intros [(kt & Hin & _)|[H _]]; [by apply elem_of_nil in Hin|done].
  - rewrite fmap_cons, NoDup_cons in Hnd. destruct Hnd as [Hkt Hnd].
    rewrite IH by done. unfold ins. rewrite lookup_insert. split.
    + intros [(kt' & Hin & H1 & H2)|[Hlk Hno]].
      * left. exists kt'. split_and!; [by apply list_elem_of_further|done..].
      * case_decide as Hk; [injection Hlk as <-; left; exists kt; split_and!; [apply list_elem_of_here|done..]|].
        right. split; [done|]. intros kt' [->|Hin]%elem_of_cons; [done|by apply Hno].
    + intros [(kt' & Hin & H1 & H2)|[Hlk Hno]].
      * apply elem_of_cons in Hin as [->|Hin]; [|left; by exists kt'].
        right. rewrite decide_True by done. split; [by f_equal|].
        intros kt' Hin Heq. apply Hkt. rewrite <- H1 in Heq. apply bytes_str_inj in Heq.
        rewrite <- Heq. by apply list_elem_of_fmap_2.
      * right. rewrite decide_False by (apply Hno, list_elem_of_here).
        split; [done|]. intros kt' Hin. by apply Hno, list_elem_of_further.
Qed.

Lemma type_ok_spec typ v :
  type_ok typ v = true ↔
  (typ = "int"%string → ∃ n, v = VInt n) ∧ (typ = "string"%string → ∃ str, v = VString str).
Proof.
  unfold type_ok. split.
  - intros Hv. split; intros ->; cbn in Hv; destruct v; (done || by eexists).
  - intros [H1 H2]. case_bool_decide as Hi; [by destruct (H1 Hi) as [n ->]|].
    case_bool_decide as Hs; [by destruct (H2 Hs) as [str ->]|done].
Qed.

(** * Properties *)

(** C39: A schema written "{field:type,...}", with distinct plain field names, is
    read back field by field: [Validate] accepts exactly the records that have
    every field, with an int where the type is "int" and a string where it is
    "string"; a field with any other type name may have any value.  Everything is
    refused under a name that is not registered. *)
Theorem schema_validate_exact name fields rec r :
  fields_ok fields → NoDup fields.*1 →
  (Validate name rec (RegisterSchema name (bytes_str (print_schema fields)) r) = true ↔
   ∀ k t, (k, t) ∈ fields → ∃ v, rec !! bytes_str k = Some v
     ∧ (bytes_str t = "int"%string → ∃ n, v = VInt n)
     ∧ (bytes_str t = "string"%string → ∃ str, v = VString str)) ∧
  (r !! name = None → Validate name rec r = false).
Proof.
  intros Hok Hnd. split.
  2:{ intros Hr. unfold Validate, GetSchema. by rewrite Hr. }
  unfold Validate, GetSchema, RegisterSchema, Registry in *. rewrite lookup_insert_eq.
  rewrite bool_decide_false by done. rewrite splitSchema_print by done.
  rewrite forallb_forall. split.
  - intros HV k t Hin.
    assert (fold_left ins fields ∅ !! bytes_str k = Some (bytes_str t)) as Hlk.
    { apply fold_ins_lookup; [done|]. left. by exists (k, t). }
    apply elem_of_map_to_list, list_elem_of_In in Hlk. apply HV in Hlk. cbn [fst snd] in Hlk.
    destruct (rec !! bytes_str k) as [v|]; [exists v; split; [done|by apply type_ok_spec]|done].
  - intros Hall [k t] Hin. apply list_elem_of_In, elem_of_map_to_list in Hin.
    apply fold_ins_lookup in Hin; [|done]. destruct Hin as [([k' t'] & Hin & <- & <-)|[He _]].
    + cbn [fst snd]. destruct (Hall _ _ Hin) as (v & -> & Hv). by apply type_ok_spec.
    + by rewrite lookup_empty in He.
Qed.

Lemma schema_validate_exact_witness :
  Validate "user" {["id"%string := VInt 7; "name"%string := VString "a"]}
    (RegisterSchema "user" "{id:int,name:string}" ∅) = true ∧
  Validate "user" {["id"%string := VString "7"; "name"%string := VString "a"]}
    (RegisterSchema "user" "{id:int,name:string}" ∅) = false.
Proof.
  split; [|vm_compute; reflexivity].
  destruct (schema_validate_exact "user"
    [(str_bytes "id", str_bytes "int"); (str_bytes "name", str_bytes "string")]
    {["id"%string := VInt 7; "name"%string := VString "a"]} ∅) as [Hv _].
  - split; [done|]. repeat constructor; done.
  - apply (bool_decide_unpack _). vm_compute. exact I.
  - apply Hv. intros k t [[= -> ->]|[[= -> ->]|Hin]%elem_of_cons]%elem_of_cons.
    + exists (VInt 7). split; [vm_compute; reflexivity|]. split; [by eexists|intros Ht; vm_compute in Ht; discriminate].
    + exists (VString "a"). split; [vm_compute; reflexivity|]. split; [intros Ht; vm_compute in Ht; discriminate|by eexists].
    + by apply elem_of_nil in Hin.
Defined.

(** ** Versions *)

(** What a sequence of registrations did. *)
Definition RegCall : Type := string * SchemaFormat * string.
Fixpoint register_all (calls : list RegCall) (r : AdvancedRegistry)
    : list (res SchemaVersion) * AdvancedRegistry :=
  match calls with
  | [] => ([], r)
  | (name, format, content) :: calls =>
      let '(x, r) := RegisterVersion name format content r in
      let '(xs, r) := register_all calls r in (x :: xs, r)
  end.

(** IDs are positive, below the next one, and increase along every name's list;
    contents are never empty and never get shorter. *)
Record registry_inv (r : AdvancedRegistry) : Prop := {
  inv_next : 1 ≤ nextID r;
  inv_ids name vs i v : versions r !! name = Some vs → vs !! i = Some v →
    1 ≤ sv_ID v < nextID r ∧ sv_Name v = name ∧ sv_Content v ≠ EmptyString;
  inv_order name vs i j v v' : versions r !! name = Some vs → (i < j)%nat →
    vs !! i = Some v → vs !! j = Some v' →
    sv_ID v < sv_ID v' ∧ (length (str_bytes (sv_Content v)) ≤ length (str_bytes (sv_Content v')))%nat;
  inv_unique name name' vs vs' i j v v' : versions r !! name = Some vs → versions r !! name' = Some vs' →
    vs !! i = Some v → vs' !! j = Some v' → sv_ID v = sv_ID v' → name = name' ∧ i = j }.

Lemma registry_inv_empty : registry_inv NewAdvancedRegistry.
Proof. split; cbn; [lia|..]; intros; by rewrite lookup_empty in *. Qed.

Lemma compatible_length old new :
  old ≠ EmptyString →
  isBackwardCompatible old new = (length (str_bytes old) <=? length (str_bytes new))%nat.
Proof. intros Hne. unfold isBackwardCompatible. by rewrite bool_decide_false. Qed.

(** One registration on every branch. *)
Lemma RegisterVersion_cases name format content r x r' :
  RegisterVersion name format content r = (x, r') →
  match x with
  | Ok sv =>
      name ≠ EmptyString ∧ content ≠ EmptyString ∧ supported format = true ∧
      sv = MkSchemaVersion (nextID r) name format content ∧
      r' = MkAdvanced (wrap64 (nextID r + 1)) (<[name := default [] (versions r !! name) ++ [sv]]> (versions r)) ∧
      ∀ l, Latest name r = Some l → isBackwardCompatible (sv_Content l) content = true
  | Err _ => r' = r ∧ (name = EmptyString ∨ content = EmptyString ∨ supported format = false ∨
      ∃ l, Latest name r = Some l ∧ isBackwardCompatible (sv_Content l) content = false)
  end.
Proof.
  unfold RegisterVersion. case_bool_decide as Hne; [intros [= <- <-]; naive_solver|].
  destruct (supported format) eqn:Hs; cbn [negb]; [|intros [= <- <-]; naive_solver].
  destruct (match last _ with Some _ => _ | None => _ end) eqn:Hc; cbn [negb]; intros [= <- <-].
  - split_and!; try done; try naive_solver. intros l Hl. unfold Latest in Hl. by rewrite Hl in Hc.
  - split; [done|]. right; right; right. unfold Latest.
    destruct (last (default [] (versions r !! name))) as [l|] eqn:Hl; [by exists l|done].
Qed.

Lemma RegisterVersion_error name format content r x r' :
  RegisterVersion name format content r = (x, r') →
  match x with
  | Ok _ => True
  | Err e =>
      e = ErrMsg (if decide (name = EmptyString ∨ content = EmptyString) then "name and content are required"
                  else match format with
                       | FormatOther _ => "unsupported schema format"
                       | _ => "schema is not backward compatible"
                       end)
  end.
Proof.
  unfold RegisterVersion. case_bool_decide as Hne; [intros [= <- <-]; by rewrite decide_True|].
  rewrite decide_False by done. destruct format; cbn [supported negb];
    try (destruct (match last _ with Some _ => _ | None => _ end); cbn [negb]); by intros [= <- <-].
Qed.

Lemma versions_insert_lookup r name vs sv n ws i v :
  versions r !! name = vs →
  <[name := default [] vs ++ [sv]]> (versions r) !! n = Some ws → ws !! i = Some v →
  (n = name ∧ v = sv ∧ i = length (default [] vs)) ∨
  (∃ ws0, versions r !! n = Some ws0 ∧ ws0 !! i = Some v ∧ (n = name → i < length (default [] vs))%nat).
Proof.
  intros Hvs Hl Hi. rewrite lookup_insert in Hl. case_decide as Hn.
  - injection Hl as <-. subst n. apply lookup_snoc_Some in Hi as [[Hlt Hi]|[-> <-]]; [|by left].
    right. destruct vs as [ws|]; [|done]. exists ws. split_and!; [done..|]. done.
  - right. exists ws. split_and!; [done..|]. congruence.
Qed.

Lemma RegisterVersion_inv name format content r x r' :
  registry_inv r → nextID r + 1 < 2 ^ 63 → RegisterVersion name format content r = (x, r') →
  registry_inv r' ∧ nextID r ≤ nextID r' ≤ nextID r + 1.
Proof.
  intros [Hn Hids Hord Huniq] Hroom HR. apply RegisterVersion_cases in HR.
  destruct x as [sv|e]; [|destruct HR as [-> _]; split; [by split|lia]].
  destruct HR as (_ & Hcne & _ & -> & -> & Hcomp). cbn [nextID].
  rewrite wrap64_id by (unfold int64; lia). split; [|lia].
  set (sv := MkSchemaVersion (nextID r) name format content) in *.
  assert (∀ n ws i v, versions r !! n = Some ws → ws !! i = Some v → sv_ID v < sv_ID sv) as Hold.
  { intros n ws i v H1 H2. by apply (Hids n ws i v H1 H2). }
  assert (∀ ws i v, versions r !! name = Some ws → ws !! i = Some v →
    (length (str_bytes (sv_Content v)) ≤ length (str_bytes content))%nat) as Hlen.
  { intros ws i v H1 H2. pose proof (lookup_lt_Some _ _ _ H2) as Hlt.
    destruct (last ws) as [l|] eqn:Hl; [|apply last_None in Hl; by subst ws].
    assert (Latest name r = Some l) as HL by (unfold Latest; by rewrite H1).
    pose proof (Hcomp l HL) as Hc. rewrite last_lookup in Hl.
    rewrite compatible_length in Hc by (by apply (Hids name ws _ l H1 Hl)).
    apply Nat.leb_le in Hc. destruct (decide (i = pred (length ws))) as [->|Hne]; [congruence|].
    destruct (Hord name ws i (pred (length ws)) v l H1) as [_ Hle]; [lia|done..|]. lia. }
  split; cbn [nextID versions]; [lia|..].
  - intros n ws i v Hl Hi. destruct (versions_insert_lookup _ _ _ _ _ _ _ _ eq_refl Hl Hi)
      as [(-> & -> & _)|(ws0 & H1 & H2 & _)]; [cbn; split_and!; [lia|lia|done..]|].
    destruct (Hids n ws0 i v H1 H2) as ([? ?] & ? & ?). split_and!; [lia|lia|done..].
  - intros n ws i j v v' Hl Hij Hi Hj.
    destruct (versions_insert_lookup _ _ _ _ _ _ _ _ eq_refl Hl Hi) as [(-> & -> & Hi')|(ws0 & H1 & H2 & Hlt)];
    destruct (versions_insert_lookup _ _ _ _ _ _ _ _ eq_refl Hl Hj) as [(Hn2 & -> & Hj')|(ws1 & H3 & H4 & Hlt')].
    + lia.
    + specialize (Hlt' eq_refl). lia.
    + subst n. split; [by eapply Hold|by eapply Hlen].
    + rewrite H1 in H3. injection H3 as <-. by eapply (Hord n ws0 i j).
  - intros n n' ws ws' i j v v' Hl Hl' Hi Hj Heq.
    destruct (versions_insert_lookup _ _ _ _ _ _ _ _ eq_refl Hl Hi) as [(-> & -> & Hi')|(ws0 & H1 & H2 & Hlt)];
    destruct (versions_insert_lookup _ _ _ _ _ _ _ _ eq_refl Hl' Hj) as [(-> & -> & Hj')|(ws1 & H3 & H4 & Hlt')].
    + split; [done|congruence].
    + pose proof (Hold _ _ _ _ H3 H4). lia.
    + pose proof (Hold _ _ _ _ H1 H2). lia.
    + by eapply (Huniq n n' ws0 ws1 i j v v').
Qed.

Lemma register_all_inv calls : ∀ r xs r',
  registry_inv r → nextID r + Z.of_nat (length calls) < 2 ^ 63 → register_all calls r = (xs, r') →
  registry_inv r'.
Proof.
  induction calls as [|[[name format] content] calls IH]; intros r xs r' HI Hroom; cbn [register_all].
  { by intros [= _ <-]. }
  cbn [length] in Hroom.
  destruct (RegisterVersion name format content r) as [x r1] eqn:H1.
  destruct (register_all calls r1) as [ys r2] eqn:H2. intros [= _ <-].
  apply RegisterVersion_inv in H1 as [HI1 Hn]; [|done|lia]. eapply IH; [exact HI1| |exact H2]. lia.
Qed.

(** C40: After any registrations, version IDs are unique over all names and
    increase along every name, and contents never get shorter.  A registration
    succeeds exactly when the name and the content are not empty, the format is
    JSON Schema, Avro or Protobuf, and the content is not shorter than the latest
    one of the name (nothing else of the schemas is compared).  Then the version
    is appended to those of its name, with the next ID, and is the latest one;
    other names keep theirs.  Otherwise the registry is unchanged and the error
    says which check failed.  (Up to 2^63 - 3 earlier registrations.) *)
Theorem registry_versions calls xs r name format content x r' :
  Z.of_nat (length calls) < 2 ^ 63 - 2 →
  register_all calls NewAdvancedRegistry = (xs, r) →
  RegisterVersion name format content r = (x, r') →
  registry_inv r ∧ registry_inv r' ∧
  (is_ok x = true ↔
     name ≠ EmptyString ∧ content ≠ EmptyString
     ∧ (format = FormatJSONSchema ∨ format = FormatAvro ∨ format = FormatProtobuf)
     ∧ ∀ l, Latest name r = Some l →
         (length (str_bytes (sv_Content l)) ≤ length (str_bytes content))%nat) ∧
  match x with
  | Ok sv => sv = MkSchemaVersion (nextID r) name format content ∧ Latest name r' = Some sv ∧
      versions r' !! name = Some (default [] (versions r !! name) ++ [sv]) ∧
      ∀ n, n ≠ name → versions r' !! n = versions r !! n
  | Err e => r' = r ∧
      e = ErrMsg (if decide (name = EmptyString ∨ content = EmptyString) then "name and content are required"
                  else match format with
                       | FormatOther _ => "unsupported schema format"
                       | _ => "schema is not backward compatible"
                       end)
  end.
Proof.
  intros Hlen Hall HR.
  assert (∀ cs ys q, register_all cs NewAdvancedRegistry = (ys, q) → Z.of_nat (length cs) < 2 ^ 63 - 1 →
    registry_inv q) as Hinv.
  { intros cs ys q Hq Hl. eapply register_all_inv; [apply registry_inv_empty| |exact Hq]. cbn. lia. }
  pose proof (Hinv _ _ _ Hall ltac:(lia)) as HI.
  assert (∀ l, Latest name r = Some l → sv_Content l ≠ EmptyString) as Hne.
  { intros l Hl. unfold Latest in Hl. destruct (versions r !! name) as [vs|] eqn:Hv; [|done].
    cbn in Hl. rewrite last_lookup in Hl. by apply (inv_ids _ HI name vs _ l Hv Hl). }
  split; [done|]. split.
  { eapply (Hinv (calls ++ [(name, format, content)]) (xs ++ [x])).
    - clear -Hall HR. revert r xs Hall HR. generalize NewAdvancedRegistry.
      induction calls as [|[[n f] c] calls IH]; intros r0 r xs Hall HR; cbn in *.
      + injection Hall as <- <-. by rewrite HR.
      + destruct (RegisterVersion n f c r0) as [y r1]. destruct (register_all calls r1) as [ys r2] eqn:Ha.
        injection Hall as <- <-. by rewrite (IH _ _ _ Ha HR).
    - rewrite length_app. cbn. lia. }
  pose proof (RegisterVersion_error _ _ _ _ _ _ HR) as Herr.
  apply RegisterVersion_cases in HR. destruct x as [sv|e].
  - destruct HR as (Hn0 & Hc0 & Hs & -> & -> & Hc). split; [split; [intros _|done]|].
    + split_and!; [done|done|destruct format; naive_solver|].
      intros l Hl. specialize (Hc l Hl). rewrite compatible_length in Hc by by apply Hne.
      by apply Nat.leb_le.
    + unfold Latest. cbn [versions].
      rewrite lookup_insert_eq. cbn [default from_option id]. rewrite last_snoc. split_and!; [done..|].
      intros n Hn. by rewrite lookup_insert_ne.
  - destruct HR as [-> Hcase]. split; [split; [done|]|by split].
    intros (Hn0 & Hc0 & Hf & Hl0). destruct Hcase as [?|[?|[?|(l & Hl & Hc)]]]; [done|done| |].
    + by destruct Hf as [->|[->| ->]].
    + rewrite compatible_length in Hc by by apply Hne. apply Nat.leb_gt in Hc. specialize (Hl0 _ Hl). lia.
Qed.

Lemma registry_versions_witness :
  let r := (register_all [("user"%string, FormatAvro, "{a}"%string)] NewAdvancedRegistry).2 in
  Latest "user" (RegisterVersion "user" FormatAvro "{id:int}" r).2
    = Some (MkSchemaVersion 2 "user" FormatAvro "{id:int}").
Proof.
  cbv zeta.
  destruct (RegisterVersion "user" FormatAvro "{id:int}"
    (register_all [("user"%string, FormatAvro, "{a}"%string)] NewAdvancedRegistry).2) as [x r'] eqn:HR.
  destruct (registry_versions [("user"%string, FormatAvro, "{a}"%string)]
    (register_all [("user"%string, FormatAvro, "{a}"%string)] NewAdvancedRegistry).1
    (register_all [("user"%string, FormatAvro, "{a}"%string)] NewAdvancedRegistry).2
    "user" FormatAvro "{id:int}" x r') as (_ & _ & _ & Hx).
  - cbn. lia.
  - apply surjective_pairing.
  - exact HR.
  - vm_compute in HR. injection HR as <- <-. destruct Hx as (_ & Hx & _). exact Hx.
Defined.
