(* ===== verification/Regex.v ===== *)
(** * Regular expressions

    What StreamQL uses of Go's [regexp]: expressions over characters, in which
    only character classes are repeated, matched with the leftmost-first rule
    (alternatives in order, repetitions longest or shortest first).  A character
    is the byte sequence of a UTF-8 encoding; a byte that belongs to none is a
    character of its own. *)

From S2P Require Import Prelude Encoding OS Segment Processor Http.

Definition rune : Type := list byte.
Definition text : Type := list rune.

Fixpoint runes_fuel (fuel : nat) (bs : list byte) : text :=
  match fuel, bs with
  | O, _ | _, [] => []
  | S fuel, _ => let n := Nat.max 1 (utf8_len bs) in take n bs :: runes_fuel fuel (drop n bs)
  end.
Definition runes (bs : list byte) : text := runes_fuel (length bs) bs.

(** The bytes of a text. *)
Definition unrunes (t : text) : list byte := concat t.

(** ** Expressions *)

Definition cclass : Type := rune → bool.

Inductive regex :=
  | REnd                                   (* [$] *)
  | RChar (p : cclass)
  | RPlus (greedy : bool) (p : cclass)     (* [p+], [p+?] *)
  | RStar (p : cclass)                     (* [p*] *)
  | RSeq (r1 r2 : regex)
  | RAlt (r1 r2 : regex)
  | ROpt (r : regex)                       (* [(?:r)?] *)
  | RGroup (n : nat) (r : regex).          (* the [n]-th [(r)] *)

Definition captures : Type := gmap nat text.

Section matcher.
Context {A : Type}.

(** One more character while it can, then stop. *)
Fixpoint plus_greedy (p : cclass) (s : text) (k : text → option A) : option A :=
  match s with
  | [] => None
  | c :: s =>
      if p c then match plus_greedy p s k with Some x => Some x | None => k s end else None
  end.

(** Stop as soon as the rest matches. *)
Fixpoint plus_lazy (p : cclass) (s : text) (k : text → option A) : option A :=
  match s with
  | [] => None
  | c :: s => if p c then match k s with Some x => Some x | None => plus_lazy p s k end else None
  end.

Definition star_greedy (p : cclass) (s : text) (k : text → option A) : option A :=
  match plus_greedy p s k with Some x => Some x | None => k s end.

(** [k] matches what follows. *)
Fixpoint rmatch (r : regex) (s : text) (caps : captures) (k : text → captures → option A)
    : option A :=
  match r with
  | REnd => match s with [] => k [] caps | _ => None end
  | RChar p => match s with c :: s => if p c then k s caps else None | [] => None end
  | RPlus true p => plus_greedy p s (λ s, k s caps)
  | RPlus false p => plus_lazy p s (λ s, k s caps)
  | RStar p => star_greedy p s (λ s, k s caps)
  | RSeq r1 r2 => rmatch r1 s caps (λ s caps, rmatch r2 s caps k)
  | RAlt r1 r2 => match rmatch r1 s caps k with Some x => Some x | None => rmatch r2 s caps k end
  | ROpt r => match rmatch r s caps k with Some x => Some x | None => k s caps end
  | RGroup n r =>
      rmatch r s caps (λ s' caps', k s' (<[n := take (length s - length s') s]> caps'))
  end.
End matcher.

(** [FindStringSubmatch] of an expression that starts with [^]. *)
Definition FindSubmatch (r : regex) (s : string) : option captures :=
  rmatch r (runes (str_bytes s)) ∅ (λ _ caps, Some caps).

(** A group that did not take part is empty. *)
Definition group (n : nat) (m : captures) : string := bytes_str (unrunes (default [] (m !! n))).

(** ** Character classes *)

Definition ascii_in (p : byte → bool) : cclass := λ r, match r with [b] => p b | _ => false end.
(** [\s] *)
Definition re_space : cclass :=
  ascii_in (λ b, match b with x09 | x0a | x0c | x0d | x20 => true | _ => false end).
(** [.] *)
Definition re_dot : cclass := λ r, bool_decide (r ≠ [x0a]).
Definition re_digit : cclass := ascii_in (between 48 57).
(** The two characters that fold to ASCII letters under [(?i)]. *)
Definition long_s : rune := [xc5; xbf].
Definition kelvin : rune := [xe2; x84; xaa].
(** A letter under [(?i)], given in lower case. *)
Definition re_letter (c : byte) : cclass := λ r,
  match r with
  | [b] => bool_decide (lower_byte b = c)
  | _ => bool_decide (r = long_s ∧ c = x73) || bool_decide (r = kelvin ∧ c = x6b)
  end.
(** A class with all letters, digits, the underscore and [extra], under [(?i)]. *)
Definition re_word (extra : byte → bool) : cclass := λ r,
  match r with
  | [b] => between 48 57 b || between 65 90 b || between 97 122 b || bool_decide (b = x5f) || extra b
  | _ => bool_decide (r = long_s ∨ r = kelvin)
  end.

(** A keyword under [(?i)]. *)
Fixpoint re_lit (bs : list byte) : regex :=
  match bs with
  | [] => RStar (λ _, false)
  | [b] => RChar (re_letter b)
  | b :: bs => RSeq (RChar (re_letter b)) (re_lit bs)
  end.
Definition re_kw (s : string) : regex := re_lit (str_bytes s).
(** Any other character. *)
Definition re_byte (c : byte) : regex := RChar (ascii_in (λ b, bool_decide (b = c))).

Definition re_spaces : regex := RPlus true re_space.       (* [\s+] *)
Definition re_maybe_spaces : regex := RStar re_space.      (* [\s*] *)

Notation "a ▷ b" := (RSeq a b) (at level 60, right associativity) : go_scope.

(** ** Matching lemmas *)

Section lemmas.
Context {A : Type}.
Implicit Types (k : text → option A) (s w : text).

Lemma plus_greedy_none p s k :
  (∀ a b, s = a ++ b → a ≠ [] → Forall (λ c, p c = true) a → k b = None) → plus_greedy p s k = None.
Proof.
  induction s as [|c s IH]; intros Hno; [done|]. cbn.
  destruct (p c) eqn:Hc; [|done]. rewrite IH.
  - apply (Hno [c] s); [done..|]. by repeat constructor.
  - intros a b -> Ha HF. apply (Hno (c :: a) b); [done..|]. by constructor.
Qed.

(** The longest repetitions fail, this one succeeds. *)
Lemma plus_greedy_here p w s k x :
  w ≠ [] → Forall (λ c, p c = true) w →
  (∀ a b, s = a ++ b → a ≠ [] → Forall (λ c, p c = true) a → k b = None) →
  k s = Some x → plus_greedy p (w ++ s) k = Some x.
Proof.
  intros Hne HF Hno Hk. induction HF as [|c w Hc HF IH]; [done|].
  cbn [app plus_greedy]. rewrite Hc. destruct w as [|c' w'].
  - cbn [app]. by rewrite plus_greedy_none.
  - by rewrite IH.
Qed.

(** The next character is not in the class. *)
Definition stops (p : cclass) (s : text) : Prop := ∀ c s', s = c :: s' → p c = false.

Lemma stops_no p s a b : stops p s → s = a ++ b → a ≠ [] → Forall (λ c, p c = true) a → False.
Proof.
  intros Hs -> Ha HF. destruct a as [|c a]; [done|]. inversion HF; subst.
  specialize (Hs c (a ++ b) eq_refl). congruence.
Qed.

Lemma plus_greedy_stop p w s k x :
  w ≠ [] → Forall (λ c, p c = true) w → stops p s → k s = Some x →
  plus_greedy p (w ++ s) k = Some x.
Proof.
  intros Hw HF Hs Hk. apply plus_greedy_here; [done..| |done].
  intros a b Hab Ha HFa. by destruct (stops_no p s a b).
Qed.

Lemma star_greedy_stop p w s k x :
  Forall (λ c, p c = true) w → stops p s → k s = Some x → star_greedy p (w ++ s) k = Some x.
Proof.
  intros HF Hs Hk. unfold star_greedy. destruct w as [|c w].
  - cbn [app]. rewrite plus_greedy_none; [done|]. intros a b Hab Ha HFa. by destruct (stops_no p s a b).
  - by rewrite (plus_greedy_stop p (c :: w) s k x).
Qed.

Lemma plus_lazy_here p w s k x :
  w ≠ [] → Forall (λ c, p c = true) w →
  (∀ a b, w = a ++ b → a ≠ [] → b ≠ [] → k (b ++ s) = None) →
  k s = Some x → plus_lazy p (w ++ s) k = Some x.
Proof.
  intros Hne HF. induction HF as [|c w Hc HF IH]; intros Hno Hk; [done|].
  cbn [app plus_lazy]. rewrite Hc. destruct w as [|c' w'].
  - cbn [app]. by rewrite Hk.
  - rewrite (Hno [c] (c' :: w')) by done. apply IH; [done| |done].
    intros a b Hab Ha Hb. apply (Hno (c :: a) b); [by rewrite Hab|done..].
Qed.
End lemmas.
