(* ===== verification/StreamQL.v ===== *)
(** * StreamQL ([src/streamql/ast.go], [parser.go], [planner.go], [executor.go])

    A query is matched by one regular expression, planned, and compiled to stream
    operators.  [None] as the result of a run is a panic. *)

From Stdlib Require Import SpecFloat.
From S2P Require Import Prelude Encoding OS Segment Processor Http Schema Regex.
Local Open Scope go_scope.

(** ** Queries *)

Record Query := MkQuery {
  Select : list string;
  From : string;
  Where : string;
  GroupBy : list string;
  WindowMs : Z }.

(** [(?i)^\s*select\s+(.+)\s+from\s+([a-zA-Z0-9_\.]+)(?:\s+where\s+(.+?))?
    (?:\s+group\s+by\s+(.+?))?(?:\s+window\s+([0-9]+)(ms|s)?)?\s*$] *)
Definition where_clause : regex :=
  re_spaces ▷ re_kw "where" ▷ re_spaces ▷ RGroup 3 (RPlus false re_dot).
Definition group_clause : regex :=
  re_spaces ▷ re_kw "group" ▷ re_spaces ▷ re_kw "by" ▷ re_spaces ▷ RGroup 4 (RPlus false re_dot).
Definition window_clause : regex :=
  re_spaces ▷ re_kw "window" ▷ re_spaces ▷ RGroup 5 (RPlus true re_digit) ▷
  ROpt (RGroup 6 (RAlt (re_kw "ms") (re_kw "s"))).
Definition selectRe : regex :=
  re_maybe_spaces ▷ re_kw "select" ▷ re_spaces ▷ RGroup 1 (RPlus true re_dot) ▷
  re_spaces ▷ re_kw "from" ▷ re_spaces ▷ RGroup 2 (RPlus true (re_word (λ b, bool_decide (b = x2e)))) ▷
  ROpt where_clause ▷ ROpt group_clause ▷ ROpt window_clause ▷ re_maybe_spaces ▷ REnd.

(** [strings.Split(s, ",")], every part trimmed. *)
Definition split_trim (s : string) : list string :=
  (λ p, bytes_str (trim_bytes p)) <$> split_on x2c (str_bytes s).

Definition window_ms (m : captures) : Z :=
  let n := TrimSpace (group 5 m) in
  if bool_decide (n = EmptyString) then 0
  else match ParseInt n with
       | None => 0
       | Some v => if bool_decide (TrimSpace (group 6 m) = "s"%string) then wrap64 (v * 1000) else v
       end.

Definition Parse (input : string) : option Query :=
  match FindSubmatch selectRe (TrimSpace input) with
  | None => None
  | Some m =>
      Some (MkQuery (split_trim (group 1 m)) (group 2 m) (TrimSpace (group 3 m))
              (if bool_decide (TrimSpace (group 4 m) = EmptyString) then [] else split_trim (group 4 m))
              (window_ms m))
  end.

(** ** Plans *)

Record Plan := MkPlan {
  Source : string;
  Projections : list string;
  Filter : string;
  PGroupBy : list string;
  Aggregates : list string;
  PWindowMs : Z }.

Definition has_prefix (pre : string) (bs : list byte) : bool :=
  bool_decide (take (length (str_bytes pre)) bs = str_bytes pre).
Definition is_aggregate (s : string) : bool :=
  let ls := lower_bytes (str_bytes s) in
  has_prefix "count(" ls || has_prefix "sum(" ls || has_prefix "avg(" ls.

(** [None] is the nil query and the nil plan. *)
Definition Planify (q : option Query) : option Plan :=
  match q with
  | None => None
  | Some q => Some (MkPlan (From q) (Select q) (Where q) (GroupBy q)
                      (filter (λ s, is_aggregate s = true) (Select q)) (WindowMs q))
  end.

(** ** Predicates *)

(** [strings.Fields] *)
Fixpoint fields_loop (rs : text) (cur : list byte) : list (list byte) :=
  match rs with
  | [] => if decide (cur = []) then [] else [cur]
  | r :: rs =>
      if decide (r ∈ space_runes)
      then (if decide (cur = []) then [] else [cur]) ++ fields_loop rs []
      else fields_loop rs (cur ++ r)
  end.
Definition Fields (s : string) : list string := bytes_str <$> fields_loop (runes (str_bytes s)) [].

(** [strings.Trim] of both quotation marks. *)
Definition trim_quotes (s : string) : string :=
  let bs := str_bytes s in
  let bs := trim_front (length bs) [[x27]; [x22]] bs in
  bytes_str (rev (trim_front (length bs) [[x27]; [x22]] (rev bs))).

Definition join_space (ps : list string) : string :=
  bytes_str (join_with x20 (str_bytes <$> ps)).

(** The closure's body: the value of the field against the literal. *)
Definition compare_value (op val : string) (v : value) : bool :=
  match v with
  | VInt t =>
      match ParseInt val with
      | None => false
      | Some iv =>
          if bool_decide (op = "="%string ∨ op = "=="%string) then bool_decide (t = iv)
          else if bool_decide (op = ">"%string) then iv <? t
          else if bool_decide (op = "<"%string) then t <? iv
          else false
      end
  | VString t =>
      if bool_decide (op = "="%string ∨ op = "=="%string) then bool_decide (t = val) else false
  | _ => false
  end.

Definition compilePredicate (expr : string) : Record0 → bool :=
  match Fields (TrimSpace expr) with
  | field :: op :: p :: parts =>
      let val := trim_quotes (join_space (p :: parts)) in
      λ r, match r !! field with None => false | Some v => compare_value op val v end
  | _ => λ _, true
  end.

(** ** Operators *)

(** [(?i)^\s*(sum|avg|count)\s*\(\s*([a-zA-Z0-9_*]+)\s*\)\s*
    (?:as\s+([a-zA-Z0-9_]+))?\s*$] *)
Definition aggRe : regex :=
  re_maybe_spaces ▷ RGroup 1 (RAlt (re_kw "sum") (RAlt (re_kw "avg") (re_kw "count"))) ▷
  re_maybe_spaces ▷ re_byte x28 ▷ re_maybe_spaces ▷
  RGroup 2 (RPlus true (re_word (λ b, bool_decide (b = x2a)))) ▷ re_maybe_spaces ▷ re_byte x29 ▷
  re_maybe_spaces ▷
  ROpt (re_kw "as" ▷ re_spaces ▷ RGroup 3 (RPlus true (re_word (λ _, false)))) ▷
  re_maybe_spaces ▷ REnd.

(** One turn of the loop over the aggregates. *)
Definition agg_spec_of (a : string) : option AggSpec :=
  match FindSubmatch aggRe a with
  | None => None
  | Some m => Some (MkAggSpec (bytes_str (lower_bytes (str_bytes (group 1 m)))) (group 2 m) (group 3 m))
  end.

Inductive operator :=
  | OpFilter (pred : Record0 → bool)
  | OpCount (Key : string)
  | OpTimeWindow (Key : string) (Aggs : list AggSpec) (Duration : Z)
  | OpFuncs (Key : string) (Aggs : list AggSpec)
  | OpMap (Fn : Record0 → option Record0).

(** The record with the projected fields it has. *)
Definition pick (projections : list string) (r : Record0) : Record0 :=
  fold_left (λ out f, match r !! f with Some v => <[f := v]> out | None => out end) projections ∅.
Definition project (projections : list string) (r : Record0) : option Record0 :=
  Some (match projections with
        | [] => r
        | [p] => if bool_decide (p = "*"%string) then r else pick projections r
        | _ => pick projections r
        end).

Definition BuildOperators (p : Plan) : list operator :=
  let filt := if bool_decide (TrimSpace (Filter p) = EmptyString) then []
              else [OpFilter (compilePredicate (Filter p))] in
  match Aggregates p, PGroupBy p with
  | _ :: _, key :: _ =>
      let specs := omap agg_spec_of (Aggregates p) in
      let count_all := match specs with
        | [s] => bool_decide (Func s = "count"%string) && bool_decide (Field s = "*"%string)
        | _ => false
        end in
      filt ++ (if count_all then [OpCount key]
               else if 0 <? PWindowMs p then [OpTimeWindow key specs (PWindowMs p)]
               else [OpFuncs key specs])
  | _, _ => filt ++ [OpMap (project (Projections p))]
  end.

(** ** Running a plan *)

Section run.
Context `{Formatter}.

(** The records among the events. *)
Definition records_of (evs : list tw_event) : list Record0 :=
  omap (λ e, match e with TwRecord r => Some r | TwTick => None end) evs.

(** An operator in the pipeline: its input is a list of records and of the moments
    at which a ticker fires, its output a list of records; a filter passes the
    moments on.  Only the last operator of a pipeline is not a filter. *)
Definition keeps (pred : Record0 → bool) (e : tw_event) : bool :=
  match e with TwRecord r => pred r | TwTick => true end.

Fixpoint run_ops (ops : list operator) (evs : list tw_event) : option (list Record0) :=
  match ops with
  | [] => Some (records_of evs)
  | OpFilter pred :: ops => run_ops ops (filter (λ e, keeps pred e = true) evs)
  | OpTimeWindow key aggs d :: ops =>
      out ← TimeWindowAggregateOperator key aggs d evs; run_ops ops (TwRecord <$> out)
  | OpCount key :: ops => run_ops ops (TwRecord <$> AggregateOperator key (records_of evs))
  | OpFuncs key aggs :: ops => run_ops ops (TwRecord <$> AggregateFuncsOperator key aggs (records_of evs))
  | OpMap fn :: ops => run_ops ops (TwRecord <$> MapOperator fn (records_of evs))
  end.

Definition RunPlan (p : option Plan) (evs : list tw_event) : option (list Record0) :=
  p ← p; run_ops (BuildOperators p) evs.
End run.

(** The queries of the tests. *)
Example parse_where :
  Parse "SELECT x, group FROM src WHERE x > 1" = Some (MkQuery ["x"; "group"] "src" "x > 1" [] 0)%string.
Proof. vm_compute. reflexivity. Qed.
Example parse_aggregates :
  Parse "SELECT group, SUM(x) as total, AVG(x) as avg FROM src WHERE x > 0 GROUP BY group window 5s"
  = Some (MkQuery ["group"; "SUM(x) as total"; "AVG(x) as avg"] "src" "x > 0" ["group"] 5000)%string.
Proof. vm_compute. reflexivity. Qed.
Example agg_alias : agg_spec_of "SUM(x) as total" = Some (MkAggSpec "sum" "x" "total")%string.
Proof. vm_compute. reflexivity. Qed.
