(* ===== verification/StreamQLFacts.v ===== *)
(** * StreamQL: the text of a query and its meaning

    What the two expressions match on the text of a statement, and that parsing,
    planning and running that text computes the statement's meaning. *)

From Stdlib Require Import SpecFloat.
From S2P Require Import Prelude Encoding OS Segment Processor Http Schema Regex StreamQL.
Local Open Scope go_scope.

(** ** Texts of ASCII bytes *)

Definition sing (bs : list byte) : text := (λ b, [b]) <$> bs.
Definition ascii (b : byte) : bool := Z_of_byte b <? 128.

Lemma sing_app a b : sing (a ++ b) = sing a ++ sing b.
Proof. apply fmap_app. Qed.
Lemma unrunes_sing bs : unrunes (sing bs) = bs.
Proof. unfold unrunes, sing. induction bs as [|b bs IH]; cbn in *; [done|]. by rewrite IH. Qed.

Lemma utf8_len_ascii b bs : ascii b = true → Nat.max 1 (utf8_len (b :: bs)) = 1%nat.
Proof. intros Hb. destruct b; try discriminate Hb; reflexivity. Qed.

Lemma runes_ascii bs : Forall (λ b, ascii b = true) bs → runes bs = sing bs.
Proof.
  unfold runes. intros HF. induction HF as [|b bs Hb HF IH]; [done|].
  cbn [length runes_fuel]. rewrite utf8_len_ascii by done. cbn. f_equal. exact IH.
Qed.

Lemma take_prefix (a b : text) : take (length (a ++ b) - length b) (a ++ b) = a.
Proof. rewrite length_app. apply take_app_length'. lia. Qed.

(** ** Keywords and blanks *)

(** The keyword is at the front, in any case. *)
Fixpoint kw_here (kw : list byte) (t : text) : bool :=
  match kw, t with
  | [], _ => true
  | b :: kw, c :: t => re_letter b c && kw_here kw t
  | _, [] => false
  end.
(** Blanks and the keyword are at the front. *)
Fixpoint kw_next (kw : list byte) (t : text) : bool :=
  match t with [] => false | c :: t => re_space c && (kw_here kw t || kw_next kw t) end.
(** No blank is followed by the keyword. *)
Fixpoint kw_free (kw : list byte) (t : text) : bool :=
  match t with [] => true | c :: t' => negb (kw_next kw t) && kw_free kw t' end.

Section matching.
Context {A : Type}.
Implicit Types (k : text → captures → option A) (t : text) (caps : captures).

Lemma match_lit bs t caps k :
  rmatch (re_lit bs) t caps k = if kw_here bs t then k (drop (length bs) t) caps else None.
Proof.
  revert t. induction bs as [|b bs IH]; intros t.
  - cbn. unfold star_greedy. by destruct t.
  - destruct bs as [|b' bs].
    + destruct t as [|c t]; [done|]. cbn. rewrite andb_true_r. by destruct (re_letter b c).
    + change (re_lit (b :: b' :: bs)) with (RChar (re_letter b) ▷ re_lit (b' :: bs)).
      cbn [rmatch]. destruct t as [|c t]; [done|]. rewrite IH.
      change (kw_here (b :: b' :: bs) (c :: t)) with (re_letter b c && kw_here (b' :: bs) t).
      by destruct (re_letter b c).
Qed.

Lemma spaces_none t caps k : stops re_space t → rmatch re_spaces t caps k = None.
Proof.
  intros Hs. apply plus_greedy_none. intros a b Hab Ha HF. by destruct (stops_no re_space t a b).
Qed.
Lemma spaces_one t caps k : stops re_space t → rmatch re_spaces ([x20] :: t) caps k = k t caps.
Proof.
  intros Hs. cbn. change (plus_greedy re_space t (λ s, k s caps)) with (rmatch re_spaces t caps k).
  by rewrite spaces_none.
Qed.
Lemma maybe_spaces_skip t caps k : stops re_space t → rmatch re_maybe_spaces t caps k = k t caps.
Proof.
  intros Hs. cbn. unfold star_greedy.
  change (plus_greedy re_space t (λ s, k s caps)) with (rmatch re_spaces t caps k).
  by rewrite spaces_none.
Qed.

Lemma kw_next_none s r t caps k :
  kw_next (str_bytes s) t = false → rmatch (re_spaces ▷ re_kw s ▷ r) t caps k = None.
Proof.
  cbn [rmatch re_spaces]. induction t as [|c t IH]; intros Hk; [done|]. cbn in *.
  destruct (re_space c); [|done]. cbn in Hk. apply orb_false_elim in Hk as [H1 H2].
  rewrite IH by done. unfold re_kw. rewrite match_lit, H1. done.
Qed.

(** Something that is not blank is left. *)
Lemma end_none t caps k :
  Exists (λ c, re_space c = false) t → rmatch (re_maybe_spaces ▷ REnd) t caps k = None.
Proof.
  intros He. assert (∀ a b, t = a ++ b → Forall (λ c, re_space c = true) a → b ≠ []) as Hb.
  { intros a b -> Ha ->. rewrite app_nil_r in He. apply Exists_exists in He as (c & Hc & Hn).
    eapply Forall_forall in Ha; [|exact Hc]. cbn in Ha. congruence. }
  cbn [rmatch re_maybe_spaces]. unfold star_greedy. rewrite plus_greedy_none.
  - destruct t; [|done]. by destruct (Hb [] []).
  - intros a b Hab _ HF. destruct b; [|done]. by destruct (Hb a []).
Qed.
Lemma end_match caps k : rmatch (re_maybe_spaces ▷ REnd) [] caps k = k [] caps.
Proof. done. Qed.
End matching.

(** ** Keyword-free suffixes *)

Definition no_space_kw (kw : list byte) : bool := forallb (λ b, negb (re_space [b])) kw.

(** The text ends here or goes on with a blank. *)
Definition blank_start (s : text) : Prop := s = [] ∨ ∃ s', s = [x20] :: s'.

Lemma kw_here_app kw b s :
  no_space_kw kw = true → blank_start s → kw_here kw (b ++ s) = kw_here kw b.
Proof.
  intros Hkw Hs. revert kw Hkw. induction b as [|c b IH]; intros [|x kw] Hkw; cbn; try done.
  - destruct Hs as [->|[s' ->]]; [done|]. cbn in Hkw. apply andb_prop in Hkw as [Hx _].
    cbn. case_bool_decide as Hl; [|done]. subst x. done.
  - cbn in Hkw. apply andb_prop in Hkw as [_ Hkw]. by rewrite IH.
Qed.

Definition ends_visible (t : text) : Prop := ∃ c, last t = Some c ∧ re_space c = false.

Lemma kw_next_app kw b s :
  no_space_kw kw = true → blank_start s → ends_visible b → kw_next kw (b ++ s) = kw_next kw b.
Proof.
  intros Hkw Hs. induction b as [|c b IH]; intros (x & Hx & Hn); [done|].
  destruct b as [|c' b].
  - injection Hx as ->. cbn. by rewrite Hn.
  - change (kw_next kw ((c :: c' :: b) ++ s))
      with (re_space c && (kw_here kw ((c' :: b) ++ s) || kw_next kw ((c' :: b) ++ s))).
    rewrite kw_here_app, IH by (try done; by exists x). done.
Qed.

Lemma kw_free_suffix kw a b : kw_free kw (a ++ b) = true → kw_free kw b = true.
Proof.
  induction a as [|c a IH]; [done|]. cbn. intros H. apply andb_prop in H as [_ H]. by apply IH.
Qed.
Lemma kw_free_next kw t : kw_free kw t = true → kw_next kw t = false.
Proof. destruct t; [done|]. cbn. intros H. apply andb_prop in H as [H _]. by apply negb_true_iff. Qed.

Lemma ends_visible_suffix a b : ends_visible (a ++ b) → b ≠ [] → ends_visible b.
Proof.
  intros (c & Hc & Hn) Hb. exists c. split; [|done].
  rewrite last_app in Hc. destruct (last b) eqn:Hl; [done|]. by apply last_None in Hl.
Qed.
Lemma ends_visible_exists b s : ends_visible b → Exists (λ c, re_space c = false) (b ++ s).
Proof.
  intros (c & Hc & Hn). apply Exists_app. left. apply Exists_exists. exists c.
  split; [|done]. by apply last_Some_elem_of in Hc.
Qed.

(** ** The clauses of a query *)

Definition bytes (s : string) : list byte := str_bytes s.

(** A text of one line with no blank at either end. *)
Definition printable (b : byte) : bool := let n := Z_of_byte b in (32 <=? n) && (n <=? 126).
Definition clause (bs : list byte) : Prop :=
  Forall (λ b, printable b = true) bs ∧
  (∃ b, head bs = Some b ∧ visible b = true) ∧ (∃ b, last bs = Some b ∧ visible b = true).

Lemma visible_not_space b : visible b = true → re_space [b] = false.
Proof. destruct b; done. Qed.
Lemma printable_dot b : printable b = true → re_dot [b] = true.
Proof. intros Hb. unfold re_dot. apply bool_decide_eq_true. intros [= ->]. done. Qed.
Lemma printable_ascii b : printable b = true → ascii b = true.
Proof. unfold printable, ascii. lia. Qed.

Lemma clause_nonempty bs : clause bs → bs ≠ [].
Proof. intros (_ & (b & Hb & _) & _) ->. done. Qed.
Lemma clause_dots bs : clause bs → Forall (λ c, re_dot c = true) (sing bs).
Proof.
  intros (HF & _). apply Forall_fmap. eapply Forall_impl; [exact HF|]. intros b Hb. by apply printable_dot.
Qed.
Lemma clause_ends bs : clause bs → ends_visible (sing bs).
Proof.
  intros (_ & _ & b & Hb & Hv). exists [b]. split; [|by apply visible_not_space].
  unfold sing. by rewrite fmap_last, Hb.
Qed.
Lemma clause_stops bs t : clause bs → stops re_space (sing bs ++ t).
Proof.
  intros (_ & (b & Hb & Hv) & _) c s' Hs. destruct bs; [done|]. injection Hb as ->.
  injection Hs as <- _. by apply visible_not_space.
Qed.
Lemma clause_trim bs : clause bs → trim_bytes bs = bs.
Proof.
  intros (_ & (b & Hb & Hv) & b2 & Hb2 & Hv2). destruct bs as [|x bs]; [done|]. injection Hb as ->.
  by apply (trim_visible b bs b2).
Qed.
Lemma TrimSpace_bytes s : TrimSpace s = bytes_str (trim_bytes (str_bytes s)).
Proof. reflexivity. Qed.
Lemma clause_TrimSpace bs : clause bs → TrimSpace (bytes_str bs) = bytes_str bs.
Proof. intros Hc. by rewrite TrimSpace_bytes, bytes_str_inv, clause_trim. Qed.

(** Nothing of [b], a suffix of a clause, starts the keyword. *)
Lemma clause_suffix_next kw bs a b s :
  clause bs → kw_free kw (sing bs) = true → no_space_kw kw = true → blank_start s →
  sing bs = a ++ b → b ≠ [] → kw_next kw (b ++ s) = false ∧ Exists (λ c, re_space c = false) (b ++ s).
Proof.
  intros Hc Hf Hkw Hs Hab Hb.
  assert (ends_visible b) as He.
  { apply (ends_visible_suffix a); [|done]. rewrite <- Hab. by apply clause_ends. }
  split; [|by apply ends_visible_exists].
  rewrite kw_next_app by done. apply kw_free_next, (kw_free_suffix kw a). by rewrite <- Hab.
Qed.

Definition where_text (W : list byte) : list byte := if decide (W = []) then [] else bytes " WHERE " ++ W.
Definition group_text (G : list byte) : list byte := if decide (G = []) then [] else bytes " GROUP BY " ++ G.
Definition window_text (z : Z) : list byte := if 0 <? z then bytes " WINDOW " ++ sprintf_d z else [].

Lemma blank_where W t : blank_start t → blank_start (sing (where_text W) ++ t).
Proof. unfold where_text. intros Ht. case_decide; [done|]. right. by eexists. Qed.
Lemma blank_group G t : blank_start t → blank_start (sing (group_text G) ++ t).
Proof. unfold group_text. intros Ht. case_decide; [done|]. right. by eexists. Qed.
Lemma blank_window z : blank_start (sing (window_text z)).
Proof. unfold window_text. destruct (0 <? z); [right; by eexists|by left]. Qed.

(** The expressions from a clause on. *)
Definition from_window : regex := ROpt window_clause ▷ re_maybe_spaces ▷ REnd.
Definition from_group : regex := ROpt group_clause ▷ from_window.
Definition from_where : regex := ROpt where_clause ▷ from_group.

Definition fin : text → captures → option captures := λ _ caps, Some caps.

Lemma opt_none {A} r1 r t caps (k : text → captures → option A) :
  (∀ k' : text → captures → option A, rmatch r1 t caps k' = None) → rmatch (ROpt r1 ▷ r) t caps k = rmatch r t caps k.
Proof. intros Hn. cbn [rmatch]. by rewrite Hn. Qed.

Lemma from_window_none t caps :
  kw_next (bytes "window") t = false → Exists (λ c, re_space c = false) t →
  rmatch from_window t caps fin = None.
Proof.
  intros Hk He. unfold from_window. rewrite opt_none by (intros; by apply kw_next_none). by apply end_none.
Qed.
Lemma from_group_none t caps :
  kw_next (bytes "group") t = false → kw_next (bytes "window") t = false →
  Exists (λ c, re_space c = false) t → rmatch from_group t caps fin = None.
Proof.
  intros Hg Hk He. unfold from_group. rewrite opt_none by (intros; by apply kw_next_none).
  by apply from_window_none.
Qed.

Lemma digit_between d : 0 <= d < 10 → between 48 57 (digit_byte d) = true.
Proof.
  intros H. assert (d = 0 ∨ d = 1 ∨ d = 2 ∨ d = 3 ∨ d = 4 ∨ d = 5 ∨ d = 6 ∨ d = 7 ∨ d = 8 ∨ d = 9)
    as Hd by lia.
  destruct Hd as [->|[->|[->|[->|[->|[->|[->|[->|[->| ->]]]]]]]]]; reflexivity.
Qed.
Lemma sprintf_digits z :
  0 ≤ z < 2 ^ 63 → sprintf_d z ≠ [] ∧ Forall (λ b, between 48 57 b = true) (sprintf_d z).
Proof.
  intros Hz. unfold sprintf_d. replace (z <? 0) with false by lia. split.
  - intros He%fmap_nil_inv. by apply dec_digits_nonempty in He.
  - apply Forall_fmap. eapply Forall_impl; [apply dec_digits_range; lia|].
    intros d Hd. by apply digit_between.
Qed.
Lemma digit_printable b : between 48 57 b = true → visible b = true ∧ printable b = true.
Proof. unfold between, visible, printable. lia. Qed.
Lemma digits_clause z : 0 ≤ z < 2 ^ 63 → clause (sprintf_d z).
Proof.
  intros Hz. destruct (sprintf_digits z Hz) as [Hne HF]. split; [|split].
  - eapply Forall_impl; [exact HF|]. intros b Hb. by apply digit_printable.
  - destruct HF as [|b l Hb _]; [done|]. exists b. split; [done|]. by apply digit_printable.
  - destruct (last (sprintf_d z)) as [b|] eqn:Hl; [|by apply last_None in Hl].
    exists b. split; [done|]. apply last_Some_elem_of in Hl. eapply Forall_forall in HF; [|exact Hl].
    by apply digit_printable.
Qed.

(** *** What every clause matches *)

Definition set_if (n : nat) (bs : list byte) (caps : captures) : captures :=
  if decide (bs = []) then caps else <[n := sing bs]> caps.
Definition window_caps (z : Z) (caps : captures) : captures :=
  if 0 <? z then <[5%nat := sing (sprintf_d z)]> caps else caps.

Lemma kw_here_lower kw us t :
  lower_byte <$> us = kw → kw_here kw (sing us ++ t) = true ∧ drop (length kw) (sing us ++ t) = t.
Proof.
  intros <-. split.
  - induction us as [|u us IH]; [done|]. cbn. by rewrite bool_decide_eq_true_2.
  - rewrite length_fmap. apply drop_app_length'. unfold sing. by rewrite length_fmap.
Qed.

Section matching.
Context {A : Type}.
Implicit Types (k : text → captures → option A) (t : text) (caps : captures).

Lemma match_blank r t caps k :
  stops re_space t → rmatch (re_spaces ▷ r) ([x20] :: t) caps k = rmatch r t caps k.
Proof. intros Hs. cbn [rmatch]. by rewrite (spaces_one t caps (λ s caps, rmatch r s caps k)). Qed.

Lemma match_lower s us r t caps k :
  lower_byte <$> us = str_bytes s → rmatch (re_kw s ▷ r) (sing us ++ t) caps k = rmatch r t caps k.
Proof.
  intros Hl. destruct (kw_here_lower _ us t Hl) as [H1 H2].
  cbn [rmatch]. unfold re_kw. by rewrite match_lit, H1, H2.
Qed.

Lemma match_keyword s u us r t caps k :
  lower_byte <$> (u :: us) = str_bytes s → re_space [u] = false →
  rmatch (re_spaces ▷ re_kw s ▷ r) ([x20] :: sing (u :: us) ++ t) caps k = rmatch r t caps k.
Proof.
  intros Hl Hu. rewrite match_blank by (intros ? ? [= <- _]; done). by apply match_lower.
Qed.

(** A group of characters of one class, as long as it can be. *)
Lemma match_group_plus n p bs r t caps k x :
  bs ≠ [] → Forall (λ b, p [b] = true) bs → stops p t →
  rmatch r t (<[n := sing bs]> caps) k = Some x →
  rmatch (RGroup n (RPlus true p) ▷ r) (sing bs ++ t) caps k = Some x.
Proof.
  intros Hne HF Hs Hk. cbn [rmatch]. apply plus_greedy_stop.
  - by destruct bs.
  - by apply Forall_fmap.
  - done.
  - by rewrite take_prefix.
Qed.

(** A group of any characters, as long as it can be. *)
Lemma match_group_greedy n bs r t caps k x :
  clause bs → (∀ a b, t = a ++ b → a ≠ [] → ∀ caps, rmatch r b caps k = None) →
  rmatch r t (<[n := sing bs]> caps) k = Some x →
  rmatch (RGroup n (RPlus true re_dot) ▷ r) (sing bs ++ t) caps k = Some x.
Proof.
  intros Hc Hno Hk. cbn [rmatch]. apply plus_greedy_here.
  - destruct bs; [by apply clause_nonempty in Hc|done].
  - by apply clause_dots.
  - intros a b Hab Ha _. by apply (Hno a b).
  - by rewrite take_prefix.
Qed.

(** A group of any characters, as short as it can be. *)
Lemma match_group_lazy n bs t caps k x :
  clause bs → (∀ a b, sing bs = a ++ b → b ≠ [] → ∀ caps, k (b ++ t) caps = None) →
  k t (<[n := sing bs]> caps) = Some x →
  rmatch (RGroup n (RPlus false re_dot)) (sing bs ++ t) caps k = Some x.
Proof.
  intros Hc Hno Hk. cbn [rmatch]. apply plus_lazy_here.
  - destruct bs; [by apply clause_nonempty in Hc|done].
  - by apply clause_dots.
  - intros a b Hab _ Hb. by apply (Hno a b).
  - by rewrite take_prefix.
Qed.
End matching.

Lemma opt_some {A} r1 r t caps (k : text → captures → option A) x :
  rmatch r1 t caps (λ s caps, rmatch r s caps k) = Some x → rmatch (ROpt r1 ▷ r) t caps k = Some x.
Proof. intros Hm. cbn [rmatch]. by rewrite Hm. Qed.

Lemma stops_nil p : stops p [].
Proof. by intros ? ?. Qed.

Lemma window_match z caps :
  z < 2 ^ 63 → rmatch from_window (sing (window_text z)) caps fin = Some (window_caps z caps).
Proof.
  intros Hz. unfold window_text, window_caps. destruct (0 <? z) eqn:Hp; [|done]. bool_prop.
  destruct (sprintf_digits z) as [Hne HF]; [lia|].
  apply opt_some. unfold window_clause. rewrite sing_app, <- (app_nil_r (sing (sprintf_d z))).
  change (sing (bytes " WINDOW ") ++ ?t) with ([x20] :: sing (x57 :: bytes "INDOW") ++ [x20] :: t).
  rewrite match_keyword by done. rewrite match_blank by (apply clause_stops, digits_clause; lia).
  apply match_group_plus; [done|exact HF|apply stops_nil|by rewrite app_nil_r].
Qed.

Lemma group_match G z caps :
  z < 2 ^ 63 → G = [] ∨ clause G ∧ kw_free (bytes "window") (sing G) = true →
  rmatch from_group (sing (group_text G) ++ sing (window_text z)) caps fin
    = Some (window_caps z (set_if 4 G caps)).
Proof.
  intros Hz HG. unfold group_text, set_if. case_decide as Hne.
  - cbn [sing fmap list_fmap app]. unfold from_group. rewrite opt_none; [by apply window_match|].
    intros k'. apply kw_next_none. unfold window_text. by destruct (0 <? z).
  - destruct HG as [?|[HG Hf]]; [done|]. apply opt_some. unfold group_clause.
    rewrite sing_app, <- app_assoc.
    change (sing (bytes " GROUP BY ") ++ ?t)
      with ([x20] :: sing (x47 :: bytes "ROUP") ++ [x20] :: sing (x42 :: bytes "Y") ++ [x20] :: t).
    rewrite !match_keyword by done. rewrite match_blank by by apply clause_stops.
    apply match_group_lazy; [done| |by apply window_match].
    intros a b Hab Hb caps'. destruct (clause_suffix_next (bytes "window") G a b (sing (window_text z)))
      as [H1 H2]; try done; [apply blank_window|]. by apply from_window_none.
Qed.

Lemma where_match W G z caps :
  z < 2 ^ 63 → G = [] ∨ clause G ∧ kw_free (bytes "window") (sing G) = true →
  W = [] ∨ clause W ∧ kw_free (bytes "group") (sing W) = true ∧ kw_free (bytes "window") (sing W) = true →
  rmatch from_where (sing (where_text W) ++ sing (group_text G) ++ sing (window_text z)) caps fin
    = Some (window_caps z (set_if 4 G (set_if 3 W caps))).
Proof.
  intros Hz HG HW. set (rest := sing (group_text G) ++ sing (window_text z)).
  assert (blank_start rest) as Hb by apply blank_group, blank_window.
  unfold where_text, set_if at 2. case_decide as Hne.
  - cbn [sing fmap list_fmap app]. unfold from_where. rewrite opt_none; [by apply group_match|].
    intros k'. apply kw_next_none. unfold rest, group_text, window_text.
    case_decide; [|done]. by destruct (0 <? z).
  - destruct HW as [?|(HW & Hf1 & Hf2)]; [done|]. apply opt_some. unfold where_clause.
    rewrite sing_app, <- app_assoc.
    change (sing (bytes " WHERE ") ++ ?t) with ([x20] :: sing (x57 :: bytes "HERE") ++ [x20] :: t).
    rewrite match_keyword by done. rewrite match_blank by by apply clause_stops.
    apply match_group_lazy; [done| |by apply group_match].
    intros a b Hab Hbn caps'.
    destruct (clause_suffix_next (bytes "window") W a b rest) as [H1 H2]; try done.
    destruct (clause_suffix_next (bytes "group") W a b rest) as [H3 _]; try done.
    by apply from_group_none.
Qed.

(** *** The whole query *)

Definition rest_text (src W G : list byte) (z : Z) : list byte :=
  src ++ where_text W ++ group_text G ++ window_text z.
Definition query_text (sel src W G : list byte) (z : Z) : list byte :=
  bytes "SELECT " ++ sel ++ bytes " FROM " ++ rest_text src W G z.

Definition name_byte (b : byte) : bool := re_word (λ b, bool_decide (b = x2e)) [b].
Definition name (bs : list byte) : Prop := bs ≠ [] ∧ Forall (λ b, name_byte b = true) bs.

(** The texts of the clauses can be told apart: after FROM no blank is followed by
    FROM, and neither WHERE nor GROUP BY holds a later keyword. *)
Definition unambiguous (src W G : list byte) (z : Z) : Prop :=
  kw_free (bytes "from") ([x20] :: sing (rest_text src W G z)) = true ∧
  (G = [] ∨ clause G ∧ kw_free (bytes "window") (sing G) = true) ∧
  (W = [] ∨ clause W ∧ kw_free (bytes "group") (sing W) = true ∧ kw_free (bytes "window") (sing W) = true).

Definition query_caps (sel src W G : list byte) (z : Z) : captures :=
  window_caps z (set_if 4 G (set_if 3 W (<[2%nat := sing src]> (<[1%nat := sing sel]> ∅)))).

Lemma name_visible b : name_byte b = true → visible b = true ∧ printable b = true.
Proof. destruct b; try discriminate; split; reflexivity. Qed.
Lemma name_clause bs : name bs → clause bs.
Proof.
  intros [Hne HF]. split; [|split].
  - eapply Forall_impl; [exact HF|]. intros b Hb. by apply name_visible.
  - destruct HF as [|b l Hb _]; [done|]. exists b. split; [done|]. by apply name_visible.
  - destruct (last bs) as [b|] eqn:Hl; [|by apply last_None in Hl].
    exists b. split; [done|]. apply last_Some_elem_of in Hl. eapply Forall_forall in HF; [|exact Hl].
    by apply name_visible.
Qed.

Lemma select_match sel src W G z :
  z < 2 ^ 63 → clause sel → name src → unambiguous src W G z →
  rmatch selectRe (sing (query_text sel src W G z)) ∅ fin = Some (query_caps sel src W G z).
Proof.
  intros Hz Hsel Hsrc (Hfrom & HG & HW). unfold query_text, selectRe. rewrite sing_app.
  change (sing (bytes "SELECT ") ++ ?t) with (sing (x53 :: bytes "ELECT") ++ [x20] :: t).
  set (r1 := re_kw "select" ▷ _). cbn [rmatch].
  rewrite maybe_spaces_skip by (intros ? ? [= <- _]; done). subst r1.
  rewrite match_lower by done. rewrite sing_app, match_blank by by apply clause_stops.
  rewrite sing_app. set (rest := sing (rest_text src W G z)).
  change (sing (bytes " FROM ") ++ rest) with ([x20] :: sing (x46 :: bytes "ROM") ++ [x20] :: rest).
  apply match_group_greedy; [done|..].
  - intros a b Hab Ha caps. apply kw_next_none. destruct a as [|x a]; [done|]. injection Hab as _ Hab.
    change (sing (x46 :: bytes "ROM") ++ [x20] :: rest) with ([x46] :: sing (bytes "ROM") ++ [x20] :: rest) in Hab.
    apply kw_free_next, (kw_free_suffix _ a). rewrite <- Hab. cbn. exact Hfrom.
  - rewrite match_keyword by done. unfold rest, rest_text. rewrite !sing_app.
    rewrite match_blank by by apply clause_stops, name_clause.
    apply match_group_plus; [apply Hsrc|apply Hsrc| |by apply where_match].
    assert (blank_start (sing (where_text W) ++ sing (group_text G) ++ sing (window_text z))) as [->|[t ->]]
      by apply blank_where, blank_group, blank_window; [apply stops_nil|].
    intros ? ? [= <- _]. done.
Qed.

Lemma clause_printable W : W = [] ∨ clause W → Forall (λ b, printable b = true) W.
Proof. intros [->|[HF _]]; done. Qed.

Lemma keyword_printable (s : string) :
  forallb printable (bytes s) = true → Forall (λ b, printable b = true) (bytes s).
Proof. intros H. apply Forall_forall. intros b Hb. by eapply forallb_forall in H; [|apply list_elem_of_In]. Qed.

Lemma clauses_printable W G z :
  0 ≤ z < 2 ^ 63 → W = [] ∨ clause W → G = [] ∨ clause G →
  Forall (λ b, printable b = true) (where_text W ++ group_text G ++ window_text z).
Proof.
  intros Hz HW HG. unfold where_text, group_text, window_text.
  apply Forall_app; split; [|apply Forall_app; split].
  - case_decide; [done|]. apply Forall_app; split; [by apply keyword_printable|by apply clause_printable].
  - case_decide; [done|]. apply Forall_app; split; [by apply keyword_printable|by apply clause_printable].
  - destruct (0 <? z); [|done]. apply Forall_app; split; [by apply keyword_printable|].
    by apply digits_clause.
Qed.

Lemma query_text_clause sel src W G z :
  0 ≤ z < 2 ^ 63 → clause sel → name src → W = [] ∨ clause W → G = [] ∨ clause G →
  clause (query_text sel src W G z).
Proof.
  intros Hz Hsel Hsrc HW HG. unfold query_text. split; [|split].
  - apply Forall_app; split; [by apply keyword_printable|].
    apply Forall_app; split; [apply Hsel|]. apply Forall_app; split; [by apply keyword_printable|].
    apply Forall_app; split; [by apply name_clause|by apply clauses_printable].
  - exists x53. done.
  - unfold rest_text. rewrite !last_app.
    assert (∀ l, clause l → ∃ b, last l = Some b ∧ visible b = true) as Hl by (intros l (_ & _ & ?); done).
    unfold where_text, group_text, window_text.
    destruct (0 <? z); [rewrite last_app; destruct (Hl (sprintf_d z)) as (b & -> & Hb); [by apply digits_clause|by exists b]|].
    case_decide as Hg; [|destruct HG; [done|]; rewrite last_app; destruct (Hl G) as (b & -> & Hb); [done|by exists b]].
    case_decide as Hw; [|destruct HW; [done|]; rewrite last_app; destruct (Hl W) as (b & -> & Hb); [done|by exists b]].
    destruct (Hl src) as (b & -> & Hb); [by apply name_clause|]. by exists b.
Qed.

Definition group_bytes (n : nat) (m : captures) : list byte := unrunes (default [] (m !! n)).

Lemma query_groups sel src W G z :
  let m := query_caps sel src W G z in
  group_bytes 1 m = sel ∧ group_bytes 2 m = src ∧ group_bytes 3 m = W ∧ group_bytes 4 m = G ∧
  group_bytes 5 m = (if 0 <? z then sprintf_d z else []) ∧ group_bytes 6 m = [].
Proof.
  unfold query_caps, group_bytes, window_caps, set_if.
  destruct (0 <? z); (destruct (decide (G = [])) as [->|]); (destruct (decide (W = [])) as [->|]);
    repeat split; simplify_map_eq; rewrite ?unrunes_sing; reflexivity.
Qed.

Lemma optional_TrimSpace W : W = [] ∨ clause W → TrimSpace (bytes_str W) = bytes_str W.
Proof. intros [->|HW]; [reflexivity|by apply clause_TrimSpace]. Qed.
Lemma clause_not_empty W : clause W → bytes_str W ≠ EmptyString.
Proof.
  intros HW He. apply (clause_nonempty W HW). rewrite <- (bytes_str_inv W), He. reflexivity.
Qed.

Lemma parse_query_text sel src W G z :
  0 ≤ z < 2 ^ 63 → clause sel → name src → unambiguous src W G z →
  Parse (bytes_str (query_text sel src W G z))
  = Some (MkQuery (split_trim (bytes_str sel)) (bytes_str src) (bytes_str W)
            (if decide (G = []) then [] else split_trim (bytes_str G)) z).
Proof.
  intros Hz Hsel Hsrc Hu. destruct Hu as (Hfrom & HG & HW).
  assert (W = [] ∨ clause W) as HW' by naive_solver. assert (G = [] ∨ clause G) as HG' by naive_solver.
  assert (clause (query_text sel src W G z)) as Hc by by apply query_text_clause.
  unfold Parse. rewrite clause_TrimSpace by done. unfold FindSubmatch.
  rewrite bytes_str_inv, runes_ascii
    by (eapply Forall_impl; [apply Hc|]; intros b Hb; by apply printable_ascii).
  change (λ _ caps, Some caps) with fin. rewrite select_match by (done || lia).
  destruct (query_groups sel src W G z) as (H1 & H2 & H3 & H4 & H5 & H6).
  unfold window_ms, group. unfold group_bytes in *. rewrite H1, H2, H3, H4, H5, H6. f_equal.
  rewrite (optional_TrimSpace W), (optional_TrimSpace G) by done. f_equal.
  - destruct (decide (G = [])) as [->|Hne]; [reflexivity|]. destruct HG'; [done|].
    rewrite bool_decide_eq_false_2; [done|]. by apply clause_not_empty.
  - destruct (0 <? z) eqn:Hp; bool_prop; [|assert (z = 0) as -> by lia; reflexivity].
    pose proof (digits_clause z Hz) as Hd. rewrite clause_TrimSpace by done.
    rewrite bool_decide_eq_false_2 by by apply clause_not_empty.
    rewrite ParseInt_sprintf by (unfold int64; lia). reflexivity.
Qed.
