(* ===== verification/StreamQLProps.v ===== *)
(** * StreamQL: statements, their text and their meaning

    A statement is what a query says; [stmt_text] prints it, [meaning] is what it
    asks for.  Parsing, planning and running the text computes the meaning. *)

From Stdlib Require Import SpecFloat.
From S2P Require Import Prelude Encoding OS Segment Processor Http Schema Regex StreamQL StreamQLFacts.
Local Open Scope go_scope.

(** ** Lists of names *)

(** Parts separated by a comma and a blank. *)
Definition pad (ps : list (list byte)) : list (list byte) :=
  match ps with [] => [] | p :: ps => p :: (cons x20 <$> ps) end.
Definition list_text (ps : list (list byte)) : list byte := join_with x2c (pad ps).

Definition part (p : list byte) : Prop := clause p ∧ x2c ∉ p.

Lemma trim_padded p : clause p → trim_bytes (x20 :: p) = p.
Proof.
  intros Hc. rewrite <- (clause_trim p Hc) at 2. unfold trim_bytes. cbv zeta.
  destruct Hc as (_ & (b & Hb & Hv) & _). destruct p as [|x p]; [done|]. injection Hb as ->.
  assert (trim_front (length (x20 :: b :: p)) space_runes (x20 :: b :: p) = b :: p) as ->.
  { change (length (x20 :: b :: p)) with (S (length (b :: p))). cbn [trim_front].
    change (drop_rune space_runes (x20 :: b :: p)) with (Some (b :: p)). cbv beta iota.
    apply trim_front_none. by apply visible_front. }
  by rewrite (trim_front_none _ space_runes) by by apply visible_front.
Qed.

Lemma pad_trim ps : Forall part ps → trim_bytes <$> pad ps = ps.
Proof.
  destruct 1 as [|p ps [Hp _] HF]; [done|]. cbn [pad]. rewrite fmap_cons, clause_trim by done. f_equal.
  induction HF as [|q qs [Hq _] _ IH]; [done|]. by rewrite !fmap_cons, trim_padded, IH.
Qed.
Lemma pad_no_comma ps : Forall part ps → Forall (λ p, x2c ∉ p) (pad ps).
Proof.
  destruct 1 as [|p ps [_ Hp] HF]; [done|]. constructor; [done|].
  apply Forall_fmap. eapply Forall_impl; [exact HF|]. intros q [_ Hq].
  cbn. rewrite not_elem_of_cons. done.
Qed.

Lemma split_list_text ps :
  ps ≠ [] → Forall part ps → split_trim (bytes_str (list_text ps)) = bytes_str <$> ps.
Proof.
  intros Hne HF. unfold split_trim, list_text. rewrite bytes_str_inv, split_join.
  - rewrite <- (pad_trim ps HF) at 2. by rewrite <- list_fmap_compose.
  - by destruct ps.
  - by apply pad_no_comma.
Qed.

Lemma join_last sep ps p : p ≠ [] → last (join_with sep (ps ++ [p])) = last p.
Proof.
  intros Hp. induction ps as [|q ps IH]; [done|]. cbn [app].
  destruct (ps ++ [p]) as [|x l] eqn:He; [by destruct ps|].
  change (join_with sep (q :: x :: l)) with (q ++ sep :: join_with sep (x :: l)).
  rewrite last_app, last_cons, IH. destruct (last p) eqn:Hl; [done|]. by apply last_None in Hl.
Qed.
Lemma join_Forall (P : byte → Prop) sep ps : P sep → Forall (Forall P) ps → Forall P (join_with sep ps).
Proof.
  intros Hs HF. induction HF as [|p ps Hp HF IH]; [done|]. destruct ps as [|q ps]; [done|].
  apply Forall_app; split; [done|]. by constructor.
Qed.

Lemma list_text_clause ps : ps ≠ [] → Forall part ps → clause (list_text ps).
Proof.
  intros Hne HF. split; [|split].
  - apply join_Forall; [done|]. destruct HF as [|p ps [[Hp _] _] HF]; [done|]. constructor; [done|].
    apply Forall_fmap. eapply Forall_impl; [exact HF|]. intros q [[Hq _] _]. by constructor.
  - destruct HF as [|p ps [(_ & (b & Hb & Hv) & _) _] HF]; [done|]. exists b. split; [|done].
    unfold list_text. cbn [pad]. destruct p as [|x p]; [done|]. injection Hb as ->.
    by destruct ps.
  - destruct (exists_last Hne) as (qs & q & ->). apply Forall_app in HF as [_ HF].
    inversion HF as [|? ? [(_ & (b' & Hb' & _) & b & Hb & Hv) _] _]; subst. exists b. split; [|done].
    unfold list_text. destruct qs as [|p qs]; [done|]. cbn [pad app].
    rewrite fmap_app. cbn [fmap list_fmap]. rewrite app_comm_cons, join_last by done.
    rewrite last_cons, Hb. done.
Qed.

(** ** Conditions *)

(** Words of visible characters, separated by one blank. *)
Definition token (p : list byte) : Prop := p ≠ [] ∧ Forall (λ b, visible b = true) p.

Lemma visible_printable b : visible b = true → printable b = true.
Proof. unfold visible, printable. lia. Qed.
Lemma visible_space_rune b : visible b = true → [b] ∉ space_runes.
Proof. intros Hb. apply (bool_decide_eq_true_1 ([b] ∉ space_runes)). by destruct b. Qed.

Lemma fields_loop_token p rs cur :
  Forall (λ b, visible b = true) p → fields_loop (sing p ++ rs) cur = fields_loop rs (cur ++ p).
Proof.
  intros HF. revert cur. induction HF as [|b p Hb HF IH]; intros cur; [by rewrite app_nil_r|].
  cbn [sing fmap list_fmap app fields_loop]. rewrite decide_False by by apply visible_space_rune.
  rewrite IH. by rewrite <- app_assoc.
Qed.

Lemma fields_loop_join ps : Forall token ps → ps ≠ [] → fields_loop (sing (join_with x20 ps)) [] = ps.
Proof.
  induction 1 as [|p ps [Hp Hv] HF IH]; intros Hne; [done|]. destruct ps as [|q ps].
  - cbn [join_with]. rewrite <- (app_nil_r (sing p)), fields_loop_token by done. cbn. by rewrite decide_False.
  - change (join_with x20 (p :: q :: ps)) with (p ++ x20 :: join_with x20 (q :: ps)).
    rewrite sing_app, fields_loop_token by done. cbn [app sing fmap list_fmap fields_loop].
    rewrite decide_True by (vm_compute; repeat constructor).
    change ((λ b, [b]) <$> ?l) with (sing l). rewrite IH by done. by rewrite decide_False.
Qed.

Lemma tokens_printable ps : Forall token ps → Forall (λ b, printable b = true) (join_with x20 ps).
Proof.
  intros HF. apply join_Forall; [done|]. eapply Forall_impl; [exact HF|]. intros p [_ Hp].
  eapply Forall_impl; [exact Hp|]. intros b. apply visible_printable.
Qed.
Lemma Fields_join ps :
  Forall token ps → ps ≠ [] → Fields (bytes_str (join_with x20 ps)) = bytes_str <$> ps.
Proof.
  intros HF Hne. unfold Fields. rewrite bytes_str_inv, runes_ascii, fields_loop_join; try done.
  eapply Forall_impl; [by apply tokens_printable|]. intros b. apply printable_ascii.
Qed.
Lemma tokens_clause ps : Forall token ps → ps ≠ [] → clause (join_with x20 ps).
Proof.
  intros HF Hne. split; [by apply tokens_printable|split].
  - destruct HF as [|p ps [Hp Hv] _]; [done|]. destruct Hv as [|b p Hb _]; [done|].
    exists b. split; [|done]. by destruct ps.
  - destruct (exists_last Hne) as (qs & q & ->). apply Forall_app in HF as [_ HF].
    inversion HF as [|? ? [Hq Hv] _]; subst. rewrite join_last by done.
    destruct (last q) as [b|] eqn:Hl; [|by apply last_None in Hl]. exists b. split; [done|].
    apply last_Some_elem_of in Hl. by eapply Forall_forall in Hv.
Qed.

Inductive cmp := CEq | CGt | CLt.
Definition cmp_text (c : cmp) : string := match c with CEq => "=" | CGt => ">" | CLt => "<" end.

(** [field op words], the words in single quotes or not. *)
Record cond := MkCond { c_field : string; c_op : cmp; c_words : list string; c_quoted : bool }.

Definition literal (c : cond) : string := bytes_str (join_with x20 (bytes <$> c_words c)).

(** A field that is an integer is compared with the number the literal denotes,
    one that is a string is the literal or not; other fields never match. *)
Definition cond_holds (c : cond) (r : Record0) : bool :=
  match r !! c_field c with
  | Some (VInt t) =>
      match ParseInt (literal c), c_op c with
      | Some iv, CEq => bool_decide (t = iv)
      | Some iv, CGt => iv <? t
      | Some iv, CLt => t <? iv
      | None, _ => false
      end
  | Some (VString t) => match c_op c with CEq => bool_decide (t = literal c) | _ => false end
  | _ => false
  end.

Definition quote (q : bool) : list byte := if q then [x27] else [].
(** The words with a quotation mark before the first and after the last. *)
Fixpoint quote_last (q : bool) (ws : list (list byte)) : list (list byte) :=
  match ws with
  | [] => []
  | [w] => [w ++ quote q]
  | w :: ws => w :: quote_last q ws
  end.
Definition quote_words (q : bool) (ws : list (list byte)) : list (list byte) :=
  match ws with [] => [] | w :: ws => quote_last q ((quote q ++ w) :: ws) end.
Definition cond_text (c : cond) : list byte :=
  join_with x20 (bytes (c_field c) :: bytes (cmp_text (c_op c))
                 :: quote_words (c_quoted c) (bytes <$> c_words c)).

(** A word of a literal holds no quotation mark. *)
Definition lit_byte (b : byte) : bool :=
  visible b && negb (bool_decide (b = x27)) && negb (bool_decide (b = x22)).
Definition lit_word (w : list byte) : Prop := w ≠ [] ∧ Forall (λ b, lit_byte b = true) w.
Definition cond_ok (c : cond) : Prop :=
  token (bytes (c_field c)) ∧ c_words c ≠ [] ∧ Forall (λ w, lit_word (bytes w)) (c_words c).

Lemma lit_byte_visible b : lit_byte b = true → visible b = true.
Proof. unfold lit_byte. intros. by do 2 apply andb_prop in H as [H _]. Qed.
Lemma lit_word_token w : lit_word w → token w.
Proof. intros [Hne HF]. split; [done|]. eapply Forall_impl; [exact HF|]. intros b. apply lit_byte_visible. Qed.
Lemma quote_visible q : Forall (λ b, visible b = true) (quote q).
Proof. destruct q; repeat constructor. Qed.

Lemma quote_last_tokens q ws : Forall token ws → Forall token (quote_last q ws).
Proof.
  induction 1 as [|w ws [Hne Hw] HF IH]; [done|]. destruct ws as [|w' ws].
  - repeat constructor; [by destruct w|]. apply Forall_app; split; [done|apply quote_visible].
  - by constructor.
Qed.
Lemma quote_words_tokens q ws : Forall token ws → Forall token (quote_words q ws).
Proof.
  destruct 1 as [|w ws [Hne Hw] HF]; [done|]. apply quote_last_tokens. constructor; [|done]. split.
  - intros He. by apply app_eq_nil in He as [_ ?].
  - apply Forall_app; split; [apply quote_visible|done].
Qed.
Lemma quote_last_join q ws : ws ≠ [] → join_with x20 (quote_last q ws) = join_with x20 ws ++ quote q.
Proof.
  induction ws as [|w ws IH]; intros Hne; [done|]. destruct ws as [|w' ws]; [done|].
  change (quote_last q (w :: w' :: ws)) with (w :: quote_last q (w' :: ws)).
  assert (∃ x l, quote_last q (w' :: ws) = x :: l) as (x & l & Hq) by (destruct ws; by do 2 eexists).
  rewrite Hq. change (join_with x20 (w :: x :: l)) with (w ++ x20 :: join_with x20 (x :: l)).
  rewrite <- Hq, IH by done.
  change (join_with x20 (w :: w' :: ws)) with (w ++ x20 :: join_with x20 (w' :: ws)).
  by rewrite <- app_assoc.
Qed.
Lemma quote_words_join q ws :
  ws ≠ [] → join_with x20 (quote_words q ws) = quote q ++ join_with x20 ws ++ quote q.
Proof.
  destruct ws as [|w ws]; intros Hne; [done|]. cbn [quote_words]. rewrite quote_last_join by done.
  rewrite app_assoc. f_equal. destruct ws; [done|]. cbn [join_with]. by rewrite <- app_assoc.
Qed.

Lemma trim_quote_front q v :
  (∀ b, head v = Some b → lit_byte b = true) → v ≠ [] →
  ∀ fuel, (0 < fuel)%nat → trim_front fuel [[x27]; [x22]] (quote q ++ v) = v.
Proof.
  intros Hv Hne fuel Hf. destruct v as [|b v]; [done|]. specialize (Hv b eq_refl).
  assert (drop_rune [[x27]; [x22]] (b :: v) = None) as Hd.
  { unfold lit_byte in Hv. apply andb_prop in Hv as [Hv H2]. apply andb_prop in Hv as [_ H1].
    apply negb_true_iff, bool_decide_eq_false in H1, H2.
    cbn. rewrite !decide_False by congruence. done. }
  destruct q; cbn [quote app]; [|by apply trim_front_none].
  destruct fuel as [|fuel]; [lia|]. cbn [trim_front].
  change (drop_rune [[x27]; [x22]] (x27 :: b :: v)) with (Some (b :: v)). by apply trim_front_none.
Qed.

Lemma trim_quotes_quoted q v :
  (∀ b, head v = Some b → lit_byte b = true) → (∀ b, last v = Some b → lit_byte b = true) → v ≠ [] →
  trim_quotes (bytes_str (quote q ++ v ++ quote q)) = bytes_str v.
Proof.
  intros Hh Hl Hne. unfold trim_quotes. rewrite bytes_str_inv. cbv zeta.
  assert (head (v ++ quote q) = head v) as Hhd by by destruct v.
  assert (v ++ quote q ≠ []) as Hne' by by destruct v.
  rewrite (trim_quote_front q (v ++ quote q)).
  - rewrite rev_app_distr. replace (rev (quote q)) with (quote q) by by destruct q.
    rewrite trim_quote_front; [by rewrite rev_involutive|..].
    + intros b Hb. apply Hl. by rewrite <- head_reverse, <- Hb, rev_alt.
    + intros He. apply (f_equal (@rev byte)) in He. by rewrite rev_involutive in He.
    + destruct v; [done|]. rewrite length_app. cbn. lia.
  - intros b Hb. apply Hh. by rewrite <- Hhd.
  - done.
  - rewrite length_app. destruct v; [done|]. cbn. lia.
Qed.

Lemma lit_words_ends ws :
  ws ≠ [] → Forall lit_word ws → let v := join_with x20 ws in
  (∀ b, head v = Some b → lit_byte b = true) ∧ (∀ b, last v = Some b → lit_byte b = true) ∧ v ≠ [].
Proof.
  intros Hne HF v. split; [|split].
  - intros b Hb. subst v. destruct HF as [|w ws [Hw Hl] _]; [done|]. destruct Hl as [|x w Hx _]; [done|].
    destruct ws; by injection Hb as <-.
  - intros b Hb. subst v. destruct (exists_last Hne) as (qs & q & ->). apply Forall_app in HF as [_ HF].
    inversion HF as [|? ? [Hq Hv] _]; subst. rewrite join_last in Hb by done.
    apply last_Some_elem_of in Hb. by eapply Forall_forall in Hv.
  - subst v. destruct HF as [|w ws [Hw Hl] _]; [done|]. destruct w; [done|]. by destruct ws.
Qed.

Lemma cond_tokens c :
  cond_ok c → Forall token (bytes (c_field c) :: bytes (cmp_text (c_op c))
                            :: quote_words (c_quoted c) (bytes <$> c_words c)).
Proof.
  intros (Hf & Hne & HF). constructor; [done|]. constructor.
  - by destruct (c_op c); repeat constructor.
  - apply quote_words_tokens, Forall_fmap. eapply Forall_impl; [exact HF|]. intros w. apply lit_word_token.
Qed.
Lemma cond_clause c : cond_ok c → clause (cond_text c).
Proof. intros Hc. apply tokens_clause; [by apply cond_tokens|done]. Qed.

(** The compiled predicate of a condition's text is the condition. *)
Lemma compile_cond c r :
  cond_ok c → compilePredicate (bytes_str (cond_text c)) r = cond_holds c r.
Proof.
  intros Hc. unfold compilePredicate. rewrite clause_TrimSpace by by apply cond_clause.
  unfold cond_text. rewrite Fields_join by (done || by apply cond_tokens).
  destruct Hc as (Hf & Hne & HF).
  assert (Forall lit_word (bytes <$> c_words c)) as HL by by apply Forall_fmap.
  assert (bytes <$> c_words c ≠ []) as Hne' by by destruct (c_words c).
  destruct (lit_words_ends _ Hne' HL) as (H1 & H2 & H3).
  pose proof (trim_quotes_quoted (c_quoted c) _ H1 H2 H3) as Ht.
  rewrite <- quote_words_join in Ht by done.
  assert (∃ p ps, quote_words (c_quoted c) (bytes <$> c_words c) = p :: ps) as (p & ps & Hq).
  { destruct (bytes <$> c_words c) as [|w ws]; [done|]. cbn. destruct ws; by do 2 eexists. }
  rewrite Hq in *. rewrite !fmap_cons. rewrite <- (fmap_cons bytes_str p ps).
  unfold join_space. rewrite <- list_fmap_compose.
  replace ((str_bytes ∘ bytes_str) <$> (p :: ps)) with (p :: ps)
    by (symmetry; rewrite <- (list_fmap_id (p :: ps)) at 2; apply list_fmap_ext; intros; apply bytes_str_inv).
  rewrite Ht. unfold cond_holds, literal, bytes. rewrite !bytes_str_bytes.
  destruct (r !! c_field c) as [v|]; [|done]. unfold compare_value.
  destruct v; try done; destruct (c_op c); cbn; try done; by destruct (ParseInt _).
Qed.

(** ** Aggregates *)

Inductive agg_fn := ASum | AAvg | ACount.
Definition fn_name (f : agg_fn) : string := match f with ASum => "sum" | AAvg => "avg" | ACount => "count" end.
Definition fn_word (f : agg_fn) : string := match f with ASum => "SUM" | AAvg => "AVG" | ACount => "COUNT" end.

Definition word_of (extra : byte → bool) (w : list byte) : Prop :=
  w ≠ [] ∧ Forall (λ b, re_word extra [b] = true) w.
Definition star_byte (b : byte) : bool := bool_decide (b = x2a).
Definition no_byte (b : byte) : bool := false.

Definition alias_text (alias : list byte) : list byte :=
  if decide (alias = []) then [] else bytes " AS " ++ alias.
Definition agg_text (f : agg_fn) (field alias : list byte) : list byte :=
  bytes (fn_word f) ++ [x28] ++ field ++ [x29] ++ alias_text alias.

Section matching.
Context {A : Type}.
Implicit Types (k : text → captures → option A) (t : text) (caps : captures).

Lemma match_byte c r t caps k : rmatch (re_byte c ▷ r) ([c] :: t) caps k = rmatch r t caps k.
Proof. cbn. by rewrite bool_decide_eq_true_2. Qed.
Lemma match_maybe r t caps k :
  stops re_space t → rmatch (re_maybe_spaces ▷ r) t caps k = rmatch r t caps k.
Proof. intros Hs. cbn [rmatch]. by rewrite (maybe_spaces_skip t caps (λ s caps, rmatch r s caps k)). Qed.
Lemma match_maybe_one r t caps k x :
  stops re_space t → rmatch r t caps k = Some x →
  rmatch (re_maybe_spaces ▷ r) ([x20] :: t) caps k = Some x.
Proof.
  intros Hs Hk. cbn [rmatch]. apply (star_greedy_stop re_space [[x20]] t); [|done..].
  by repeat constructor.
Qed.
Lemma first_some (o y : option A) x : o = Some x → match o with Some x => Some x | None => y end = Some x.
Proof. by intros ->. Qed.
Lemma match_fn f r t caps k x :
  rmatch r t (<[1%nat := sing (bytes (fn_word f))]> caps) k = Some x →
  rmatch (RGroup 1 (RAlt (re_kw "sum") (RAlt (re_kw "avg") (re_kw "count"))) ▷ r)
    (sing (bytes (fn_word f)) ++ t) caps k = Some x.
Proof.
  intros Hk. cbn [rmatch]. unfold re_kw. rewrite !match_lit.
  assert (drop (length (bytes (fn_name f))) (sing (bytes (fn_word f)) ++ t) = t) as Hd
    by (by destruct f).
  destruct f; cbn [fn_word fn_name] in *; unfold bytes in *.
  - change (kw_here (str_bytes "sum") _) with true. cbv iota. rewrite Hd, take_prefix. first [exact Hk | apply first_some; exact Hk].
  - change (kw_here (str_bytes "sum") _) with false. change (kw_here (str_bytes "avg") _) with true.
    cbv iota. rewrite Hd, take_prefix. first [exact Hk | apply first_some; exact Hk].
  - change (kw_here (str_bytes "sum") _) with false. change (kw_here (str_bytes "avg") _) with false.
    change (kw_here (str_bytes "count") _) with true. cbv iota. rewrite Hd, take_prefix. first [exact Hk | apply first_some; exact Hk].
Qed.
End matching.

Lemma word_stops extra w t : word_of extra w → (∀ b, re_word extra [b] = true → re_space [b] = false) →
  stops re_space (sing w ++ t).
Proof.
  intros [Hne HF] He c s' Hs. destruct HF as [|b w Hb _]; [done|]. injection Hs as <- _. by apply He.
Qed.

Lemma agg_match f field alias :
  word_of star_byte field → alias = [] ∨ word_of no_byte alias →
  rmatch aggRe (sing (agg_text f field alias)) ∅ fin
  = Some (set_if 3 alias (<[2%nat := sing field]> (<[1%nat := sing (bytes (fn_word f))]> ∅))).
Proof.
  intros Hf Ha. unfold aggRe, agg_text. rewrite !sing_app.
  rewrite match_maybe by (destruct f; intros ? ? [= <- _]; done).
  apply match_fn. change (sing [x28] ++ ?t) with ([x28] :: t).
  rewrite match_maybe by (intros ? ? [= <- _]; done). rewrite match_byte.
  rewrite match_maybe by (eapply word_stops; [exact Hf|]; intros []; done).
  apply match_group_plus; [apply Hf|apply Hf|intros ? ? [= <- _]; done|].
  change (sing [x29] ++ ?t) with ([x29] :: t).
  rewrite match_maybe by (intros ? ? [= <- _]; done). rewrite match_byte.
  unfold alias_text, set_if. case_decide as Hne; [reflexivity|].
  destruct Ha as [?|Ha]; [done|].
  rewrite sing_app, <- (app_nil_r (sing alias)).
  change (sing (bytes " AS ") ++ ?t) with ([x20] :: sing (bytes "AS") ++ [x20] :: t).
  apply match_maybe_one; [intros ? ? [= <- _]; done|].
  apply opt_some. rewrite match_lower by done.
  rewrite match_blank by (eapply word_stops; [exact Ha|]; intros []; done).
  cbn [rmatch]. apply plus_greedy_stop; [by destruct Ha as [? _]; destruct alias| |apply stops_nil|].
  - apply Forall_fmap, Ha.
  - by rewrite take_prefix, app_nil_r.
Qed.

Lemma agg_text_ascii f field alias :
  word_of star_byte field → alias = [] ∨ word_of no_byte alias →
  Forall (λ b, printable b = true) (agg_text f field alias).
Proof.
  intros [_ Hf] Ha. unfold agg_text, alias_text.
  apply Forall_app; split; [by destruct f; repeat constructor|]. constructor; [done|].
  apply Forall_app; split; [eapply Forall_impl; [exact Hf|]; by intros []|]. constructor; [done|].
  case_decide; [done|]. destruct Ha as [?|[_ Ha]]; [done|].
  apply Forall_app; split; [by repeat constructor|]. eapply Forall_impl; [exact Ha|]. by intros [].
Qed.

(** The expression reads an aggregate back. *)
Lemma agg_spec_text f field alias :
  word_of star_byte field → alias = [] ∨ word_of no_byte alias →
  agg_spec_of (bytes_str (agg_text f field alias))
  = Some (MkAggSpec (fn_name f) (bytes_str field) (bytes_str alias)).
Proof.
  intros Hf Ha. unfold agg_spec_of, FindSubmatch. rewrite bytes_str_inv, runes_ascii.
  - change (λ _ caps, Some caps) with fin. rewrite agg_match by done. unfold group.
    set (m := set_if _ _ _).
    assert (group_bytes 1 m = bytes (fn_word f) ∧ group_bytes 2 m = field ∧ group_bytes 3 m = alias)
      as (H1 & H2 & H3).
    { subst m. unfold set_if, group_bytes.
      destruct (decide (alias = [])) as [->|]; repeat split; simplify_map_eq; rewrite ?unrunes_sing; done. }
    unfold group_bytes in *. rewrite H1, H2, H3, bytes_str_inv. by destruct f.
  - eapply Forall_impl; [by apply agg_text_ascii|]. intros b. apply printable_ascii.
Qed.

(** ** Statements *)

Inductive item := Column (c : string) | Agg (f : agg_fn) (field alias : string).

Definition item_text (i : item) : list byte :=
  match i with Column c => bytes c | Agg f field alias => agg_text f (bytes field) (bytes alias) end.

Record stmt := MkStmt {
  s_items : list item;
  s_from : string;
  s_where : option cond;
  s_keys : list string;
  s_window : Z }.

Definition where_bytes (s : stmt) : list byte := from_option cond_text [] (s_where s).
Definition stmt_text (s : stmt) : string :=
  bytes_str (query_text (list_text (item_text <$> s_items s)) (bytes (s_from s)) (where_bytes s)
               (list_text (bytes <$> s_keys s)) (s_window s)).

(** A column is a name or the star. *)
Definition item_ok (i : item) : Prop :=
  match i with
  | Column c => c = "*"%string ∨ name (bytes c)
  | Agg f field alias =>
      word_of star_byte (bytes field) ∧ (alias = EmptyString ∨ word_of no_byte (bytes alias))
  end.
Definition stmt_ok (s : stmt) : Prop :=
  s_items s ≠ [] ∧ Forall item_ok (s_items s) ∧ name (bytes (s_from s)) ∧
  from_option cond_ok True (s_where s) ∧ Forall (λ k, name (bytes k)) (s_keys s) ∧
  0 ≤ s_window s < 2 ^ 63 ∧
  unambiguous (bytes (s_from s)) (where_bytes s) (list_text (bytes <$> s_keys s)) (s_window s).

(** *** Meaning *)

Definition aggs_of (s : stmt) : list AggSpec :=
  omap (λ i, match i with
             | Column _ => None
             | Agg f field alias => Some (MkAggSpec (fn_name f) field alias)
             end) (s_items s).

Definition is_star (i : item) : bool :=
  match i with Column c => bool_decide (c = "*"%string) | _ => false end.
Definition columns (s : stmt) : list string := bytes_str ∘ item_text <$> s_items s.
(** The fields of a record a list of columns names; [*] alone names them all. *)
Definition restrict (s : stmt) (r : Record0) : Record0 :=
  match s_items s with
  | [i] => if is_star i then r else filter (λ kv, kv.1 ∈ columns s) r
  | _ => filter (λ kv, kv.1 ∈ columns s) r
  end.

Definition holds (s : stmt) (e : tw_event) : bool :=
  match e with TwTick => true | TwRecord r => from_option (λ c, cond_holds c r) true (s_where s) end.

Section meaning.
Context `{Formatter}.

(** What a statement asks of a stream of records and ticks: the restricted
    records that satisfy the condition; with aggregates and a key, the number of
    records per key, the aggregates per key of every window, or the aggregates per
    key of the whole stream. *)
Definition meaning (s : stmt) (evs : list tw_event) : option (list Record0) :=
  let evs := filter (λ e, holds s e = true) evs in
  match aggs_of s, s_keys s with
  | a :: aggs, key :: _ =>
      if bool_decide (aggs = [] ∧ Func a = "count"%string ∧ Field a = "*"%string)
      then Some (AggregateOperator key (records_of evs))
      else if 0 <? s_window s then TimeWindowAggregateOperator key (a :: aggs) (s_window s) evs
      else Some (AggregateFuncsOperator key (a :: aggs) (records_of evs))
  | _, _ => Some (restrict s <$> records_of evs)
  end.
End meaning.

(** *** The parts of a statement's text *)

Lemma name_no b bs : name bs → name_byte b = false → b ∉ bs.
Proof. intros [_ HF] Hb Hin. eapply Forall_forall in HF; [|exact Hin]. cbv beta in HF. congruence. Qed.

Lemma name_part bs : name bs → part bs.
Proof. intros Hn. split; [by apply name_clause|by apply name_no]. Qed.

Lemma word_visible extra w b :
  word_of extra w → last w = Some b → (∀ b, re_word extra [b] = true → visible b = true) → visible b = true.
Proof.
  intros [_ HF] Hl Hv. apply last_Some_elem_of in Hl. eapply Forall_forall in HF; [|exact Hl]. by apply Hv.
Qed.

Lemma agg_part f field alias :
  word_of star_byte field → alias = [] ∨ word_of no_byte alias → part (agg_text f field alias).
Proof.
  intros Hf Ha. split; [split; [by apply agg_text_ascii|split]|].
  - destruct f; by eexists.
  - unfold agg_text, alias_text. rewrite !last_app. case_decide as Hne; [by eexists|].
    destruct Ha as [?|Ha]; [done|]. rewrite last_app.
    destruct (last alias) as [b|] eqn:Hl; [|by apply last_None in Hl]. exists b. split; [done|].
    eapply word_visible; [exact Ha|exact Hl|]. by intros [].
  - unfold agg_text, alias_text. rewrite !not_elem_of_app.
    assert (∀ extra w, word_of extra w → re_word extra [x2c] = false → x2c ∉ w) as Hno.
    { intros extra w [_ HF] Hx Hin. eapply Forall_forall in HF; [|exact Hin]. congruence. }
    assert (∀ s, forallb (λ b, negb (bool_decide (b = x2c))) (bytes s) = true → x2c ∉ bytes s) as Hkw.
    { intros s Hs Hin. eapply forallb_forall in Hs; [|by apply list_elem_of_In]. done. }
    split; [by apply Hkw; destruct f|]. split; [by apply (Hkw "("%string)|].
    split; [by apply (Hno star_byte)|]. split; [by apply (Hkw ")"%string)|].
    case_decide; [by apply not_elem_of_nil|]. destruct Ha; [done|].
    rewrite not_elem_of_app. split; [by apply Hkw|by apply (Hno no_byte)].
Qed.

Lemma bytes_empty s : s = EmptyString ∨ word_of no_byte (bytes s) → bytes s = [] ∨ word_of no_byte (bytes s).
Proof. intros [->|?]; [by left|by right]. Qed.

Lemma item_part i : item_ok i → part (item_text i).
Proof.
  destruct i as [c|f field alias]; cbn.
  - intros [->|Hn]; [|by apply name_part]. split; [split; [by repeat constructor|split; by eexists]|].
    apply (bool_decide_eq_true_1 (x2c ∉ bytes "*")). reflexivity.
  - intros [Hf Ha]. by apply agg_part, bytes_empty.
Qed.

Lemma lower_bytes_ascii bs : Forall (λ b, ascii b = true) bs → lower_bytes bs = lower_byte <$> bs.
Proof.
  induction 1 as [|b bs Hb HF IH]; [done|]. rewrite fmap_cons, <- IH.
  destruct b; try discriminate Hb; reflexivity.
Qed.
Lemma lower_byte_paren b : lower_byte b = x28 → b = x28.
Proof. by destruct b. Qed.

Lemma column_not_aggregate c : c = "*"%string ∨ name (bytes c) → is_aggregate c = false.
Proof.
  intros [->|Hn]; [reflexivity|]. unfold is_aggregate.
  assert (x28 ∉ lower_bytes (str_bytes c)) as Hp.
  { rewrite lower_bytes_ascii.
    - intros (b & Hb & Hin)%list_elem_of_fmap. symmetry in Hb. apply lower_byte_paren in Hb as ->.
      by eapply name_no in Hin.
    - destruct Hn as [_ HF]. eapply Forall_impl; [exact HF|]. by intros []. }
  assert (∀ pre, x28 ∈ str_bytes pre → has_prefix pre (lower_bytes (str_bytes c)) = false) as Hf.
  { intros pre Hpre. unfold has_prefix. apply bool_decide_eq_false. intros Ht. apply Hp.
    rewrite <- Ht in Hpre. apply list_elem_of_lookup in Hpre as [i Hi].
    apply lookup_take_Some in Hi as [Hi _]. by apply list_elem_of_lookup_2 in Hi. }
  rewrite !Hf; [done|..]; apply (bool_decide_eq_true_1 (x28 ∈ _)); reflexivity.
Qed.
Lemma agg_is_aggregate f field alias :
  word_of star_byte field → alias = [] ∨ word_of no_byte alias →
  is_aggregate (bytes_str (agg_text f field alias)) = true.
Proof.
  intros Hf Ha. unfold is_aggregate. rewrite bytes_str_inv, lower_bytes_ascii.
  - unfold agg_text. rewrite fmap_app. by destruct f.
  - eapply Forall_impl; [by apply agg_text_ascii|]. intros b. apply printable_ascii.
Qed.

(** *** The query and the plan *)

Definition query_of (s : stmt) : Query :=
  MkQuery (columns s) (s_from s) (bytes_str (where_bytes s)) (s_keys s) (s_window s).

Lemma parse_stmt s : stmt_ok s → Parse (stmt_text s) = Some (query_of s).
Proof.
  intros (Hne & Hit & Hfrom & Hw & Hk & Hz & Hu). unfold stmt_text.
  assert (Forall part (item_text <$> s_items s)) as Hparts.
  { apply Forall_fmap. eapply Forall_impl; [exact Hit|]. intros i. apply item_part. }
  assert (item_text <$> s_items s ≠ []) as Hne' by by destruct (s_items s).
  rewrite parse_query_text by (done || by apply list_text_clause). unfold query_of. do 2 f_equal.
  - rewrite split_list_text by done. unfold columns. by rewrite <- list_fmap_compose.
  - apply bytes_str_bytes.
  - assert (Forall part (bytes <$> s_keys s)) as Hkeys.
    { apply Forall_fmap. eapply Forall_impl; [exact Hk|]. intros k. apply name_part. }
    destruct (decide (s_keys s = [])) as [->|Hkn]; [done|].
    assert (bytes <$> s_keys s ≠ []) as Hkn' by by destruct (s_keys s).
    rewrite decide_False by (apply clause_nonempty, list_text_clause; done).
    rewrite split_list_text, <- list_fmap_compose by done.
    rewrite <- (list_fmap_id (s_keys s)) at 2. apply list_fmap_ext. intros. apply bytes_str_bytes.
Qed.

Lemma aggregates_of s :
  Forall item_ok (s_items s) →
  omap agg_spec_of (filter (λ c, is_aggregate c = true) (columns s)) = aggs_of s ∧
  (filter (λ c, is_aggregate c = true) (columns s) = [] ↔ aggs_of s = []).
Proof.
  unfold columns, aggs_of. induction 1 as [|i items Hi HF IH]; [done|]. rewrite fmap_cons, filter_cons.
  destruct i as [c|f field alias]; cbn [compose item_text].
  - rewrite decide_False; [exact IH|]. unfold bytes. rewrite bytes_str_bytes.
    rewrite column_not_aggregate by done. done.
  - destruct Hi as [Hf Ha]. apply bytes_empty in Ha. rewrite decide_True by by apply agg_is_aggregate.
    cbn [omap list_omap]. rewrite agg_spec_text by done. unfold bytes. rewrite !bytes_str_bytes.
    split; [|done]. f_equal. apply IH.
Qed.

Lemma pick_lookup ps r k : pick ps r !! k = if decide (k ∈ ps) then r !! k else None.
Proof.
  unfold pick. cut (∀ out : Record0, fold_left (λ out f, match r !! f with Some v => <[f := v]> out | None => out end)
    ps out !! k = if decide (k ∈ ps) then from_option Some (out !! k) (r !! k) else out !! k).
  { intros ->. case_decide; [|done]. by destruct (r !! k). }
  induction ps as [|p ps IH]; intros out; cbn [fold_left].
  - by rewrite decide_False by by apply not_elem_of_nil.
  - rewrite IH. destruct (decide (k = p)) as [->|Hkp].
    + rewrite (decide_True (P := p ∈ p :: ps)) by left.
      destruct (r !! p) as [v|] eqn:Hp; [|by case_decide]. case_decide; [done|].
      apply (lookup_insert_eq (M := gmap string)).
    + assert (match r !! p with Some v => <[p := v]> out | None => out end !! k = out !! k) as ->
        by (destruct (r !! p); [by apply (lookup_insert_ne (M := gmap string))|done]).
      destruct (decide (k ∈ ps)) as [Hin|Hin]; [by rewrite decide_True by by right|].
      by rewrite decide_False by by intros [?|?]%elem_of_cons.
Qed.
Lemma pick_filter ps r : pick ps r = filter (λ kv, kv.1 ∈ ps) r.
Proof.
  apply map_eq. intros k. rewrite pick_lookup. etransitivity; [|symmetry; apply (map_lookup_filter (M := gmap string))].
  destruct (decide (k ∈ ps)); destruct (r !! k) as [v|] eqn:Hr; rewrite ?Hr; simplify_option_eq; done.
Qed.

Section exact.
Context `{Formatter}.

Lemma project_restrict s r :
  s_items s ≠ [] → Forall item_ok (s_items s) → project (columns s) r = Some (restrict s r).
Proof.
  unfold project, restrict, columns. intros Hne HF.
  destruct HF as [|i items Hi HF]; [done|]. destruct items as [|j items]; cbn [fmap list_fmap].
  - f_equal. destruct i as [c|f field alias]; cbn [is_star].
    + replace ((bytes_str ∘ item_text) (Column c)) with c by (symmetry; apply bytes_str_bytes).
      case_bool_decide; [done|]. apply pick_filter.
    + rewrite bool_decide_eq_false_2; [apply pick_filter|].
      intros He. apply (f_equal str_bytes) in He. unfold compose in He. rewrite bytes_str_inv in He.
      by destruct f.
  - f_equal. apply pick_filter.
Qed.

(** The filter of the pipeline is the condition. *)
Lemma run_filter s ops evs :
  from_option cond_ok True (s_where s) →
  run_ops ((if bool_decide (TrimSpace (bytes_str (where_bytes s)) = EmptyString) then []
            else [OpFilter (compilePredicate (bytes_str (where_bytes s)))]) ++ ops) evs
  = run_ops ops (filter (λ e, holds s e = true) evs).
Proof.
  unfold where_bytes, holds. destruct (s_where s) as [c|]; cbn [from_option]; intros Hc.
  - rewrite bool_decide_eq_false_2
      by (rewrite clause_TrimSpace by (by apply cond_clause); by apply clause_not_empty, cond_clause).
    cbn [app run_ops]. f_equal. apply list_filter_iff. intros [r|]; cbn [keeps]; [|done].
    by rewrite compile_cond.
  - rewrite bool_decide_eq_true_2 by reflexivity. cbn [app]. f_equal.
    induction evs as [|[r|] evs IH]; [done|..]; (rewrite filter_cons_True by done; by f_equal).
Qed.

Lemma omap_Some_fmap {X Y} (f : X → option Y) (g : X → Y) (l : list X) : (∀ x, f x = Some (g x)) → omap f l = g <$> l.
Proof. intros Hf. induction l as [|x l IH]; [done|]. cbn. by rewrite Hf, IH. Qed.
Lemma records_of_records l : records_of (TwRecord <$> l) = l.
Proof. unfold records_of. induction l as [|r l IH]; [done|]. cbn in *. by rewrite IH. Qed.

Lemma run_stmt s evs :
  stmt_ok s → RunPlan (Planify (Some (query_of s))) evs = meaning s evs.
Proof.
  intros Hok. unfold query_of.
  destruct Hok as (Hne & Hit & _ & Hw & _ & Hz & _). unfold Planify, RunPlan, BuildOperators.
  cbn [mbind option_bind Aggregates PGroupBy Projections Filter PWindowMs Select From Where GroupBy WindowMs].
  destruct (aggregates_of s Hit) as [Ha He]. set (texts := filter _ (columns s)) in *. clearbody texts.
  unfold meaning. set (evs' := filter _ evs).
  assert (run_ops [OpMap (project (columns s))] evs' = Some (restrict s <$> records_of evs')) as Hmap.
  { cbn [run_ops]. rewrite records_of_records. unfold MapOperator.
    rewrite (omap_Some_fmap _ (restrict s)); [done|]. intros r. by apply project_restrict. }
  destruct texts as [|a texts].
  { destruct (aggs_of s); [|by destruct He as [He _]; specialize (He eq_refl)].
    rewrite run_filter by done. exact Hmap. }
  destruct (aggs_of s) as [|x aggs] eqn:Hx; [by destruct He as [_ He]; specialize (He eq_refl)|].
  destruct (s_keys s) as [|key keys]; [rewrite run_filter by done; exact Hmap|].
  rewrite Ha, run_filter by done. fold evs'.
  replace (match aggs with [] => _ | _ :: _ => _ end)
    with (bool_decide (aggs = [] ∧ Func x = "count"%string ∧ Field x = "*"%string)).
  2: { destruct aggs; [|by rewrite bool_decide_eq_false_2 by naive_solver].
       repeat case_bool_decide; naive_solver. }
  case_bool_decide; [cbn [run_ops]; by rewrite records_of_records|].
  destruct (0 <? s_window s); cbn [run_ops]; [|by rewrite records_of_records].
  destruct (TimeWindowAggregateOperator _ _ _ _); [|done]. cbn. by rewrite records_of_records.
Qed.
(** C12: the text of a well-formed statement (any columns and aggregates, any
    condition, any grouping keys, any window) is parsed to the query it was printed
    from, and planning and running that query on any stream of records and window
    ticks computes what the statement means: the restricted records that satisfy
    the condition, the number of records per key, or the sums, averages and counts
    per key, of the stream or of every window. *)
Theorem streamql_exact s evs :
  stmt_ok s →
  Parse (stmt_text s) = Some (query_of s) ∧
  RunPlan (Planify (Parse (stmt_text s))) evs = meaning s evs.
Proof.
  intros Hok. rewrite (parse_stmt s Hok). split; [done|]. by apply run_stmt.
Qed.
End exact.

(** ** Samples *)

Definition sample_stmt : stmt :=
  MkStmt [Column "group"; Agg ASum "x" "total"; Agg AAvg "x" ""] "src"
    (Some (MkCond "x" CGt ["0"]%string true)) ["group"]%string 50.

Lemma sample_text :
  stmt_text sample_stmt
  = "SELECT group, SUM(x) AS total, AVG(x) FROM src WHERE x > '0' GROUP BY group WINDOW 50"%string.
Proof. vm_compute. reflexivity. Qed.

Ltac ends_in := split; [repeat constructor|split; eexists; split; reflexivity].

Lemma sample_stmt_ok : stmt_ok sample_stmt.
Proof.
  split; [done|]. split; [|split; [|split; [|split; [|split; [cbn; lia|split; [|split]]]]]].
  - constructor; [right; by repeat constructor|]. constructor; [by repeat constructor|].
    constructor; [|constructor]. split; [by repeat constructor|by left].
  - by repeat constructor.
  - by repeat constructor.
  - by repeat constructor.
  - vm_compute. reflexivity.
  - right. split; [ends_in|vm_compute; reflexivity].
  - right. split; [ends_in|split; vm_compute; reflexivity].
Qed.

#[local] Instance plain_format : Formatter := λ _, "?"%string.

Definition sample_record (g : string) (x : Z) : Record0 := {["group" := VString g; "x" := VInt x]}%string.
Definition sample_events : list tw_event :=
  [TwRecord (sample_record "a" 1); TwRecord (sample_record "a" 2); TwTick;
   TwRecord (sample_record "b" 0); TwRecord (sample_record "b" 3)].

(** Two windows, and the record that fails the condition in none. *)
Lemma streamql_exact_witness :
  stmt_ok sample_stmt ∧
  RunPlan (Planify (Parse (stmt_text sample_stmt))) sample_events = meaning sample_stmt sample_events ∧
  (λ o, length <$> o) (meaning sample_stmt sample_events) = Some 2%nat.
Proof.
  split; [exact sample_stmt_ok|]. split; [|vm_compute; reflexivity].
  apply (streamql_exact sample_stmt sample_events). exact sample_stmt_ok.
Defined.

(** ** Queries that do not mean what they say *)

(** A condition without blanks around its operator is no condition: every record
    passes. *)
Theorem unspaced_where_keeps_all evs :
  RunPlan (Planify (Parse "SELECT * FROM src WHERE x>1")) evs = Some (records_of evs).
Proof.
  replace (Parse "SELECT * FROM src WHERE x>1")
    with (Some (MkQuery ["*"] "src" "x>1" [] 0))%string by (vm_compute; reflexivity).
  replace (RunPlan _ evs) with (run_ops [OpFilter (λ _, true); OpMap (project ["*"%string])] evs)
    by reflexivity.
  cbn [run_ops].
  assert (filter (λ e, keeps (λ _, true) e = true) evs = evs) as ->.
  { induction evs as [|[r|] evs IH]; [done|..]; (rewrite filter_cons_True by done; by rewrite IH). }
  rewrite records_of_records. unfold MapOperator.
  rewrite (omap_Some_fmap _ id); [by rewrite list_fmap_id|done].
Qed.

(** The unit is matched in any case and compared in lower case: five seconds are
    five milliseconds. *)
Theorem window_unit_case :
  WindowMs <$> Parse "SELECT SUM(x) FROM src GROUP BY g WINDOW 5S" = Some 5 ∧
  WindowMs <$> Parse "SELECT SUM(x) FROM src GROUP BY g WINDOW 5s" = Some 5000.
Proof. split; vm_compute; reflexivity. Qed.

(** A window longer than int64 nanoseconds panics in the ticker's constructor. *)
Theorem long_window_panics evs :
  RunPlan (Planify (Parse "SELECT SUM(x) FROM src GROUP BY g WINDOW 9223372036855")) evs = None.
Proof.
  replace (Parse _) with (Some (MkQuery ["SUM(x)"] "src" "" ["g"] 9223372036855))%string
    by (vm_compute; reflexivity).
  replace (RunPlan _ evs)
    with (run_ops [OpTimeWindow "g" [MkAggSpec "sum" "x" ""] 9223372036855]%string evs); [reflexivity|].
  unfold RunPlan, Planify, BuildOperators. cbn [mbind option_bind Filter Aggregates PGroupBy PWindowMs].
  reflexivity.
Qed.

(** With no GROUP BY an aggregate is a column of that name. *)
Theorem aggregate_needs_key r :
  RunPlan (Planify (Parse "SELECT SUM(x) FROM src")) [TwRecord r]
  = Some [filter (λ kv, kv.1 ∈ ["SUM(x)"%string]) r].
Proof.
  replace (Parse _) with (Some (MkQuery ["SUM(x)"] "src" "" [] 0))%string by (vm_compute; reflexivity).
  rewrite <- pick_filter. reflexivity.
Qed.
