(* ===== verification/Connectors.v ===== *)
(** * Connectors and the query runner
    ([src/connectors/simple.go], [kafka.go], [src/cmd/streamql-runner/main.go])

    Sources and sinks of records, the bridge between them, and the command that
    runs one query on its built-in records. *)

From Stdlib Require Import SpecFloat.
From S2P Require Import Prelude Encoding OS Segment Processor Http Schema Regex StreamQL StreamQLFacts StreamQLProps.

(** ** Sources and sinks *)

(** [Source] and [Sink]: a channel is the list of what is sent on it. *)
Class Source (S : Type) := source_Run : S → list Record0.
Class Sink (K : Type) := sink_Consume : list Record0 → K → K.

Record InMemorySource := MkSource {
  src_Records : list Record0;
  src_Registry : option Registry;
  src_SchemaName : string }.

(** Records that do not validate are skipped, when there is a schema to check. *)
Definition InMemorySource_Run (s : InMemorySource) : list Record0 :=
  filter (λ r, match src_Registry s with
               | Some reg => if bool_decide (src_SchemaName s = EmptyString) then true
                             else Validate (src_SchemaName s) r reg
               | None => true
               end = true) (src_Records s).
#[export] Instance InMemorySource_source : Source InMemorySource := InMemorySource_Run.

(** [Collected] *)
Definition InMemorySink : Type := list Record0.
Fixpoint InMemorySink_Consume (inp : list Record0) (collected : InMemorySink) : InMemorySink :=
  match inp with [] => collected | r :: inp => InMemorySink_Consume inp (collected ++ [r]) end.
#[export] Instance InMemorySink_sink : Sink InMemorySink := InMemorySink_Consume.

(** [KafkaBridgeConnector.Run]: nothing without both ends. *)
Definition KafkaBridge_Run {S K : Type} `{Source S} `{Sink K} (source : option S) (sink : option K)
    : option K :=
  match source, sink with
  | Some s, Some k => Some (sink_Consume (source_Run s) k)
  | _, _ => sink
  end.
Definition ToRecord (k v : string) : Record0 := {["key" := VString k; "value" := VString v]}%string.

(** The names of the built-in connectors. *)
Inductive connector := CKafka | CPostgres | CS3 | CHTTP.
Definition connector_Name (c : connector) : string :=
  match c with CKafka => "kafka-bridge" | CPostgres => "postgres-cdc" | CS3 => "s3" | CHTTP => "http" end.

Lemma consume_app inp collected : InMemorySink_Consume inp collected = collected ++ inp.
Proof.
  revert collected. induction inp as [|r inp IH]; intros collected; cbn; [by rewrite app_nil_r|].
  by rewrite IH, <- app_assoc.
Qed.

(** ** The query runner *)

Section runner.
Context `{Formatter}.

Definition runner_records : list Record0 :=
  [{["x" := VInt 1; "group" := VString "a"]}%string;
   {["x" := VInt 2; "group" := VString "a"]}%string;
   {["x" := VInt 3; "group" := VString "b"]}%string].

(** The exit code and the records printed; [evs] is the stream with the moments at
    which a window's ticker fires, [None] a panic. *)
Definition runner (q : string) (interleave : list Record0 → list tw_event) : option (Z * list Record0) :=
  if bool_decide (q = EmptyString) then Some (2, [])
  else match Parse q with
       | None => Some (1, [])
       | Some parsed =>
           let src := MkSource runner_records None EmptyString in
           out ← RunPlan (Planify (Some parsed)) (interleave (InMemorySource_Run src));
           Some (0, out)
       end.

(** A record passes the source. *)
Definition passes (s : InMemorySource) (r : Record0) : Prop :=
  ∀ reg, src_Registry s = Some reg → src_SchemaName s ≠ EmptyString → Validate (src_SchemaName s) r reg = true.
#[export] Instance passes_dec s r : Decision (passes s r).
Proof.
  unfold passes. destruct (src_Registry s) as [reg|]; [|left; naive_solver].
  destruct (decide (src_SchemaName s = EmptyString)) as [He|He]; [left; naive_solver|].
  destruct (Validate (src_SchemaName s) r reg) eqn:Hv; [left; naive_solver|right].
  intros Hp. specialize (Hp reg eq_refl He). congruence.
Defined.

(** The bridge from an in-memory source to an in-memory sink appends exactly the
    records that validate against the source's schema, in order. *)
Theorem bridge_exact s k :
  KafkaBridge_Run (Some s) (Some k) = Some (k ++ filter (passes s) (src_Records s)).
Proof.
  unfold KafkaBridge_Run, sink_Consume, InMemorySink_sink. rewrite consume_app. do 2 f_equal.
  unfold source_Run, InMemorySource_source, InMemorySource_Run. apply list_filter_iff. intros r.
  unfold passes. destruct (src_Registry s) as [reg|]; [|naive_solver].
  case_bool_decide; naive_solver.
Qed.

(** The runner prints what the statement means of its records. *)
Theorem runner_exact s interleave :
  stmt_ok s →
  runner (stmt_text s) interleave = out ← meaning s (interleave runner_records); Some (0, out).
Proof.
  intros Hok. pose proof (parse_stmt s Hok) as Hp. unfold runner. rewrite Hp.
  rewrite bool_decide_eq_false_2 by (intros He; by rewrite He in Hp).
  rewrite run_stmt by done. done.
Qed.
End runner.
