(* ===== verification/Typing.v ===== *)
(** * Typed queries ([src/connectors/simple.go], [src/schema/registry.go], [src/streamql/])

    The pipeline of a source that checks a schema and a query on its records.
    [plan_type] computes, from the schema and the plan alone, the shape
    of every record the query emits; [query_type_sound] says that no accepted
    query emits anything else. *)

From Stdlib Require Import SpecFloat.
From S2P Require Import Prelude Encoding OS Segment Processor ProcessorFacts Http Schema Regex StreamQL StreamQLFacts StreamQLProps Connectors.

(** ** Types *)

(** A row type: field names and the type names of the schema. *)
Definition row_type : Type := gmap string string.

Definition has_row (Γ : row_type) (r : Record0) : Prop :=
  ∀ k t, Γ !! k = Some t → ∃ v, r !! k = Some v ∧ type_ok t v = true.

(** A column of a group: a float or an integer that is there, or any number or
    nothing. *)
Inductive cell_type := CFloat | CInt | CNumber.

Definition sums_up (spec : AggSpec) : Prop := Func spec = "sum"%string ∨ Func spec = "avg"%string.
#[export] Instance sums_up_dec spec : Decision (sums_up spec).
Proof. unfold sums_up. apply _. Defined.

(** The specs that write a column. *)
Definition writers (Aggs : list AggSpec) (a : string) : list AggSpec :=
  filter (λ spec, alias_of spec = a) Aggs.

Definition cell_type_of (Γ : row_type) (Aggs : list AggSpec) (a : string) : option cell_type :=
  match writers Aggs a with
  | [] => None
  | ws =>
      if existsb (λ spec, bool_decide (sums_up spec ∧ Γ !! Field spec = Some "int"%string)) ws
      then Some CFloat
      else if forallb (λ spec, bool_decide (Func spec = "count"%string)) ws then Some CInt
      else Some CNumber
  end.

Definition has_cell (t : option cell_type) (v : option value) : bool :=
  match t, v with
  | None, None => true
  | Some CFloat, Some (VFloat _) => true
  | Some CInt, Some (VInt _) => true
  | Some CNumber, (None | Some (VFloat _) | Some (VInt _)) => true
  | _, _ => false
  end.

Inductive out_type :=
  | TRow (Γ : row_type) (only : option (list string))
  | TCounts
  | TGroups (cols : string → option cell_type).

Definition has_type (r : Record0) (t : out_type) : Prop :=
  match t with
  | TRow Γ only => has_row Γ r ∧ ∀ ps k, only = Some ps → is_Some (r !! k) → k ∈ ps
  | TCounts => ∃ m, r = {["counts"%string := VCounts m]}
  | TGroups cols => ∃ m, r = {["groups"%string := VGroups m]} ∧
      ∀ g row a, m !! g = Some row → has_cell (cols a) (row !! a) = true
  end.

(** The type of a plan, by the cases of [BuildOperators]. *)
Definition only_of (projections : list string) : option (list string) :=
  match projections with
  | [] => None
  | [p] => if bool_decide (p = "*"%string) then None else Some [p]
  | ps => Some ps
  end.
Definition row_of (Γ : row_type) (projections : list string) : out_type :=
  match only_of projections with
  | None => TRow Γ None
  | Some ps => TRow (filter (λ kt, kt.1 ∈ ps) Γ) (Some ps)
  end.
Definition plan_type (Γ : row_type) (p : Plan) : out_type :=
  match Aggregates p, PGroupBy p with
  | _ :: _, _ :: _ =>
      let specs := omap agg_spec_of (Aggregates p) in
      let count_all := match specs with
        | [s] => bool_decide (Func s = "count"%string) && bool_decide (Field s = "*"%string)
        | _ => false
        end in
      if count_all then TCounts else TGroups (cell_type_of Γ specs)
  | _, _ => row_of Γ (Projections p)
  end.

(** ** Rows *)

Lemma source_typed s reg sch r :
  src_Registry s = Some reg → src_SchemaName s ≠ EmptyString →
  GetSchema (src_SchemaName s) reg = Some sch → sch ≠ EmptyString →
  r ∈ InMemorySource_Run s → has_row (splitSchema sch) r.
Proof.
  intros Hreg Hn Hs Hne [Hv _]%list_elem_of_filter k t Hk. rewrite Hreg in Hv.
  rewrite bool_decide_eq_false_2 in Hv by done. unfold Validate in Hv. rewrite Hs in Hv.
  rewrite bool_decide_eq_false_2 in Hv by done.
  apply elem_of_map_to_list, list_elem_of_In in Hk.
  rewrite forallb_forall in Hv. specialize (Hv _ Hk). cbn [fst snd] in Hv.
  destruct (r !! k) as [v|]; [by exists v|done].
Qed.

Lemma project_typed Γ ps r r' :
  has_row Γ r → project ps r = Some r' → has_type r' (row_of Γ ps).
Proof.
  intros Hr [= <-]. unfold row_of.
  assert (∀ qs, has_type (pick qs r) (TRow (filter (λ kt, kt.1 ∈ qs) Γ) (Some qs))) as Hpick.
  { intros qs. split.
    - intros k t [Hk Hin]%map_lookup_filter_Some. destruct (Hr k t Hk) as (v & Hv & Ht).
      exists v. by rewrite pick_lookup, decide_True.
    - intros ? k [= <-] [v Hv]. rewrite pick_lookup in Hv. by case_decide. }
  destruct ps as [|p [|q ps]]; cbn [only_of]; [by split| |apply Hpick].
  case_bool_decide; [by split|apply Hpick].
Qed.

(** ** Groups *)

Section groups.
Context `{Formatter} (Γ : row_type) (Aggs : list AggSpec).

(** Only the columns of the specs are written, sums only by sums and averages. *)
Definition cells_within (p : cells) : Prop :=
  ∀ a, (is_Some (p.1 !! a) → ∃ spec, spec ∈ writers Aggs a ∧ sums_up spec) ∧
       (is_Some (p.2 !! a) → writers Aggs a ≠ []).

(** What one typed record leaves in its group. *)
Definition cells_full (specs : list AggSpec) (p : cells) : Prop :=
  ∀ spec, spec ∈ specs →
    (sums_up spec → Γ !! Field spec = Some "int"%string → is_Some (p.1 !! alias_of spec)) ∧
    (Func spec = "count"%string → is_Some (p.2 !! alias_of spec)).

Lemma sums_not_count spec : sums_up spec → Func spec ≠ "count"%string.
Proof. intros [->| ->]; done. Qed.

Lemma incr_mono a k m : is_Some (m !! k) → is_Some (incr a m !! k).
Proof. unfold incr. rewrite lookup_insert. by case_decide. Qed.

Lemma cells_step_mono r p spec a :
  (is_Some (p.1 !! a) → is_Some ((cells_step r p spec).1 !! a)) ∧
  (is_Some (p.2 !! a) → is_Some ((cells_step r p spec).2 !! a)).
Proof.
  unfold cells_step. case_bool_decide; [split; [done|apply incr_mono]|].
  case_bool_decide; [|done]. destruct (r !! Field spec ≫= numeric); [|done].
  split; [|apply incr_mono]. cbn [fst]. rewrite lookup_insert. by case_decide.
Qed.

Lemma cells_step_within r p spec :
  spec ∈ Aggs → cells_within p → cells_within (cells_step r p spec).
Proof.
  intros Hin Hp a. destruct (Hp a) as [Hs Hc].
  assert (alias_of spec = a → spec ∈ writers Aggs a) as Hw by (intros; by apply list_elem_of_filter).
  assert (is_Some (incr (alias_of spec) p.2 !! a) → writers Aggs a ≠ []) as Hi.
  { unfold incr. rewrite lookup_insert. case_decide as Ha; [|done].
    intros _ He. specialize (Hw Ha). rewrite He in Hw. by apply not_elem_of_nil in Hw. }
  unfold cells_step. case_bool_decide as H1; [by split|].
  case_bool_decide as H2; [|by split]. destruct (r !! Field spec ≫= numeric); [|by split].
  split; [|done]. cbn [fst]. rewrite lookup_insert. case_decide as Ha; [|done].
  intros _. exists spec. split; [by apply Hw|done].
Qed.

Lemma cells_step_full r p spec : has_row Γ r → cells_full [spec] (cells_step r p spec).
Proof.
  intros Hr sp ->%list_elem_of_singleton. unfold cells_step. split.
  - intros Hs HΓ. rewrite bool_decide_eq_false_2 by by apply sums_not_count.
    rewrite bool_decide_eq_true_2 by done. destruct (Hr _ _ HΓ) as (v & Hv & Ht).
    rewrite Hv. destruct v; try done. cbn [mbind option_bind numeric fst].
    rewrite lookup_insert_eq. by eexists.
  - intros Hc. rewrite bool_decide_eq_true_2 by done. cbn [snd]. unfold incr.
    rewrite lookup_insert_eq. by eexists.
Qed.

Lemma cells_steps r specs : ∀ p,
  specs ⊆ Aggs → has_row Γ r → cells_within p →
  let q := fold_left (cells_step r) specs p in
  cells_within q ∧ cells_full specs q ∧
  ∀ a, (is_Some (p.1 !! a) → is_Some (q.1 !! a)) ∧ (is_Some (p.2 !! a) → is_Some (q.2 !! a)).
Proof.
  induction specs as [|spec specs IH]; intros p Hsub Hr Hp; cbn [fold_left].
  { split_and!; [done| |done]. intros sp Hin. by apply not_elem_of_nil in Hin. }
  destruct (IH (cells_step r p spec)) as (Hw & Hf & Hm);
    [set_solver|done|by apply cells_step_within; [set_solver|]|].
  split_and!; [done| |].
  - intros sp [->|Hin]%elem_of_cons; [|by apply Hf].
    destruct (cells_step_full r p spec Hr spec) as [H1 H2]; [set_solver|].
    split; intros; apply Hm; auto.
  - intros a. destruct (cells_step_mono r p spec a). split; intros; apply Hm; auto.
Qed.

Lemma records_typed rs : ∀ p,
  rs ≠ [] → Forall (has_row Γ) rs → cells_within p →
  let q := fold_left (cells_record Aggs) rs p in cells_within q ∧ cells_full Aggs q.
Proof.
  induction rs as [|r rs IH]; intros p Hne HF Hp; [done|]. inversion HF; subst. cbn [fold_left].
  destruct (cells_steps r Aggs p) as (Hw & Hf & _); [set_solver|done..|].
  destruct rs as [|r' rs]; [done|]. by apply IH.
Qed.

(** A group with those cells has its columns' types. *)
Lemma group_typed p a :
  cells_within p → cells_full Aggs p →
  has_cell (cell_type_of Γ Aggs a) (group_result Aggs p.1 p.2 !! a) = true.
Proof.
  intros Hw Hf. destruct (Hw a) as [Hs Hc].
  assert (∀ spec, spec ∈ writers Aggs a → spec ∈ Aggs ∧ alias_of spec = a) as Hin
    by (intros spec [? ?]%list_elem_of_filter; done).
  rewrite group_result_cell. unfold cell_value, cell. cbn [fst snd].
  assert (∀ s : float64, has_cell (Some CFloat) (Some (if default 0 (p.2 !! a) =? 0 then VFloat s
     else if is_avg Aggs a then VFloat (fdiv s (float_of_int (default 0 (p.2 !! a)))) else VFloat s)) = true
     ∧ has_cell (Some CNumber) (Some (if default 0 (p.2 !! a) =? 0 then VFloat s
     else if is_avg Aggs a then VFloat (fdiv s (float_of_int (default 0 (p.2 !! a)))) else VFloat s)) = true) as Hfl
    by (intros s; destruct (_ =? 0); [done|]; by destruct (is_avg _ _)).
  unfold cell_type_of. destruct (writers Aggs a) as [|w ws] eqn:Hws.
  { destruct (p.1 !! a); [destruct Hs as (? & Hin' & _); [by eexists|]; by apply not_elem_of_nil in Hin'|].
    destruct (p.2 !! a); [by destruct Hc; [by eexists|]|done]. }
  rewrite <- Hws in *. clear Hc.
  destruct (existsb _ _) eqn:He.
  - apply existsb_exists in He as (spec & Hi & [Hsu HΓ]%bool_decide_eq_true).
    apply list_elem_of_In, Hin in Hi as [Hi <-].
    destruct (Hf spec Hi) as [Hf1 _]. destruct (Hf1 Hsu HΓ) as [s Hsa]. rewrite Hsa. apply Hfl.
  - destruct (forallb _ _) eqn:Ha.
    + rewrite forallb_forall in Ha.
      destruct (p.1 !! a) as [s|].
      { destruct Hs as (spec & Hi & Hsu); [by eexists|]. apply list_elem_of_In, Ha, bool_decide_eq_true in Hi.
        by apply sums_not_count in Hsu. }
      assert (w ∈ writers Aggs a) as Hw1 by (rewrite Hws; left).
      pose proof Hw1 as Hw2. apply list_elem_of_In, Ha, bool_decide_eq_true in Hw2.
      apply Hin in Hw1 as [Hw1 <-]. destruct (Hf w Hw1) as [_ Hf2].
      destruct (Hf2 Hw2) as [n ->]. done.
    + destruct (p.1 !! a) as [s|]; [apply Hfl|]. by destruct (p.2 !! a).
Qed.

(** Every record the batch aggregation emits. *)
Lemma funcs_typed Key rs :
  Forall (has_row Γ) rs →
  Forall (λ r, has_type r (TGroups (cell_type_of Γ Aggs))) (AggregateFuncsOperator Key Aggs rs).
Proof.
  intros HF. constructor; [|done]. unfold groups_record. eexists. split; [reflexivity|].
  intros g row a Hg. rewrite map_lookup_imap in Hg.
  destruct (agg_fold_group Key Aggs rs g agg_empty None) as [Hs Hc]; [by split|].
  rewrite Hs in Hg. rewrite Hc in Hg. unfold group_cells in Hg.
  destruct (in_group Key g rs) as [|r rs'] eqn:Hrs; [done|].
  cbn [fmap option_fmap option_map mbind option_bind default from_option id] in Hg.
  apply (inj Some) in Hg as <-.
  destruct (records_typed (r :: rs') (∅, ∅)) as [Hw Hf]; [done|..].
  - rewrite <- Hrs. apply Forall_forall. intros x [_ Hx]%list_elem_of_filter. by eapply Forall_forall in HF.
  - intros b. split; intros [? ?]; cbn in *; by rewrite lookup_empty in *.
  - by apply group_typed.
Qed.
End groups.

(** ** Plans *)

Section plans.
Context `{Formatter}.

(** The input of an operator: typed records, and ticks. *)
Definition typed_events (Γ : row_type) (evs : list tw_event) : Prop := Forall (has_row Γ) (records_of evs).

Lemma typed_events_filter Γ pred evs :
  typed_events Γ evs → typed_events Γ (filter (λ e, keeps pred e = true) evs).
Proof.
  unfold typed_events. induction evs as [|[r|] evs IH]; intros HF; [done|..].
  - inversion HF; subst. rewrite filter_cons. case_decide; [constructor; [done|]|]; by apply IH.
  - rewrite filter_cons_True by done. by apply IH.
Qed.

Lemma intervals_typed Γ evs rs :
  typed_events Γ evs → rs ∈ intervals evs [] → Forall (has_row Γ) rs.
Proof.
  unfold typed_events, records_of. intros HF Hin. apply Forall_forall. intros r Hr.
  eapply Forall_forall in HF; [exact HF|].
  rewrite <- (app_nil_l (omap _ _)), <- (intervals_concat evs []).
  apply list_elem_of_In, in_concat. exists rs. by rewrite <- !list_elem_of_In.
Qed.

Lemma time_window_typed Γ Key Aggs Duration evs :
  typed_events Γ evs →
  match TimeWindowAggregateOperator Key Aggs Duration evs with
  | Some out => Forall (λ r, has_type r (TGroups (cell_type_of Γ Aggs))) out
  | None => wrap64 (Duration * 1000000) ≤ 0
  end.
Proof.
  intros HF. unfold TimeWindowAggregateOperator.
  destruct (wrap64 (Duration * 1000000) <=? 0) eqn:Hd; bool_prop; [done|].
  rewrite (timeWindowLoop_spec Key Aggs evs []).
  apply Forall_forall. intros r (rs & Hr & Hin)%list_elem_of_bind. apply list_elem_of_filter in Hin as [_ Hin].
  pose proof (funcs_typed Γ Aggs Key rs (intervals_typed Γ evs rs HF Hin)) as Hrs.
  by eapply Forall_forall in Hrs.
Qed.

Lemma project_all_typed Γ ps rs :
  Forall (has_row Γ) rs → Forall (λ r, has_type r (row_of Γ ps)) (MapOperator (project ps) rs).
Proof.
  intros HF. apply Forall_forall. intros r' (r & Hin & Hr)%list_elem_of_omap.
  eapply Forall_forall in HF; [|exact Hin]. by eapply project_typed.
Qed.

Lemma plan_typed Γ p evs :
  typed_events Γ evs →
  match RunPlan (Some p) evs with
  | Some out => Forall (λ r, has_type r (plan_type Γ p)) out
  | None => Aggregates p ≠ [] ∧ PGroupBy p ≠ [] ∧ 0 < PWindowMs p
            ∧ wrap64 (PWindowMs p * 1000000) ≤ 0
  end.
Proof.
  intros HF. unfold RunPlan, BuildOperators, plan_type. cbn [mbind option_bind].
  set (filt := if bool_decide _ then _ else _).
  assert (∃ evs', typed_events Γ evs' ∧ ∀ ops, run_ops (filt ++ ops) evs = run_ops ops evs') as (evs' & HF' & Hrun).
  { subst filt. case_bool_decide; [by exists evs|].
    exists (filter (λ e, keeps (compilePredicate (Filter p)) e = true) evs).
    split; [by apply typed_events_filter|done]. }
  assert (∃ out, run_ops (filt ++ [OpMap (project (Projections p))]) evs = Some out ∧
    Forall (λ r, has_type r (row_of Γ (Projections p))) out) as Hmap.
  { rewrite Hrun. cbn [run_ops]. rewrite records_of_records. eexists. split; [reflexivity|].
    by apply project_all_typed. }
  destruct (Aggregates p) as [|a aggs]; [by destruct Hmap as (out & -> & ?)|].
  destruct (PGroupBy p) as [|key keys]; [by destruct Hmap as (out & -> & ?)|].
  set (specs := omap agg_spec_of (a :: aggs)). cbv zeta. rewrite Hrun.
  destruct (match specs with [s] => _ | _ => _ end).
  { cbn [run_ops]. rewrite records_of_records. repeat constructor. by eexists. }
  destruct (0 <? PWindowMs p) eqn:Hw; bool_prop; cbn [run_ops].
  - pose proof (time_window_typed Γ key specs (PWindowMs p) evs' HF') as Hout.
    destruct (TimeWindowAggregateOperator _ _ _ _); cbn [mbind option_bind]; [by rewrite records_of_records|].
    by split_and!.
  - rewrite records_of_records. by apply funcs_typed.
Qed.

(** C13: Queries on a source with a schema are type-sound.  Take any query text that
    parses, whatever its columns, condition, aggregates and window, and run it on
    the records the source lets through, with window ticks anywhere between
    them.  Every record of the result has the type computed from the schema and
    the plan alone: a projection keeps the declared type of each declared field
    it names and has no other field; COUNT of everything is one map of counts;
    sums and averages of a field declared int are floats present in every group,
    counts integers present in every group, and no group has any other column.
    The run panics instead of giving a result only for a grouped aggregate over
    a window so long that its nanoseconds overflow [int64] to a number that is
    not positive ([long_window_panics] is one), never for a window of up to
    9223372036854 milliseconds. *)
Theorem query_type_sound s reg sch text p evs :
  src_Registry s = Some reg → src_SchemaName s ≠ EmptyString →
  GetSchema (src_SchemaName s) reg = Some sch → sch ≠ EmptyString →
  records_of evs = InMemorySource_Run s →
  Planify (Parse text) = Some p →
  match RunPlan (Planify (Parse text)) evs with
  | Some out => Forall (λ r, has_type r (plan_type (splitSchema sch) p)) out
  | None => Aggregates p ≠ [] ∧ PGroupBy p ≠ [] ∧ 0 < PWindowMs p
            ∧ wrap64 (PWindowMs p * 1000000) ≤ 0
  end
  ∧ (PWindowMs p ≤ 9223372036854 → is_Some (RunPlan (Planify (Parse text)) evs)).
Proof.
  intros Hreg Hn Hs Hne Hevs Hp. rewrite Hp.
  assert (typed_events (splitSchema sch) evs) as HF.
  { unfold typed_events. rewrite Hevs. apply Forall_forall. intros r Hr. by eapply source_typed. }
  pose proof (plan_typed _ p evs HF) as HT. split; [done|]. intros HW.
  destruct (RunPlan (Some p) evs); [by eexists|]. destruct HT as (_ & _ & Hpos & Hwrap). exfalso.
  rewrite wrap64_id in Hwrap by (unfold int64; lia). lia.
Qed.
End plans.

(** ** A typed query *)

#[local] Instance typed_fmt : Formatter := λ _, "?"%string.

Definition typed_registry : Registry := RegisterSchema "events" "{group:string, x:int}" NewRegistry.
Definition typed_source : InMemorySource :=
  MkSource [sample_record "a" 1; {["group" := VString "b"; "x" := VString "no"]}%string; sample_record "b" 2]
    (Some typed_registry) "events".
Definition typed_text : string := "SELECT group, SUM(x) AS total, COUNT(*) AS n FROM events GROUP BY group WINDOW 5s".

(** The record with a string for x does not reach the query; the sum and the count
    of both groups are a float and an integer. *)
Lemma query_type_sound_witness :
  ∃ p out, Planify (Parse typed_text) = Some p ∧
    RunPlan (Planify (Parse typed_text)) (TwRecord <$> InMemorySource_Run typed_source) = Some out ∧
    length out = 1%nat ∧ length (InMemorySource_Run typed_source) = 2%nat ∧
    (∃ cols, plan_type (splitSchema "{group:string, x:int}") p = TGroups cols ∧
       cols "total"%string = Some CFloat ∧ cols "n"%string = Some CInt ∧ cols "x"%string = None) ∧
    Forall (λ r, has_type r (plan_type (splitSchema "{group:string, x:int}") p)) out.
Proof.
  destruct (Planify (Parse typed_text)) as [p|] eqn:Hp; [|by vm_compute in Hp].
  assert (p = MkPlan "events" ["group"; "SUM(x) AS total"; "COUNT(*) AS n"] EmptyString ["group"]
                ["SUM(x) AS total"; "COUNT(*) AS n"] 5000)%string as Hpv.
  { vm_compute in Hp. injection Hp as <-. reflexivity. }
  destruct (query_type_sound typed_source typed_registry "{group:string, x:int}" typed_text p
    (TwRecord <$> InMemorySource_Run typed_source)) as [HF Hsome];
    [reflexivity|done|vm_compute; reflexivity|done|apply records_of_records|exact Hp|].
  destruct Hsome as [out Hout]; [subst p; cbn; lia|]. rewrite Hout in HF. rewrite Hp in Hout. exists p, out. split; [done|]. split; [exact Hout|]. split; [|split; [|split; [|exact HF]]].
  - assert ((λ o, length <$> o) (RunPlan (Some p) (TwRecord <$> InMemorySource_Run typed_source)) = Some 1%nat)
      as Hl by (subst p; vm_compute; reflexivity).
    rewrite Hout in Hl. by injection Hl.
  - vm_compute. reflexivity.
  - subst p. eexists. split; [vm_compute; reflexivity|]. split_and!; vm_compute; reflexivity.
Defined.
