(* ===== verification/Planner.v ===== *)
(** * The distributed planner and the processor transport
    ([src/planner/planner.go], [src/planner/runner.go],
    [src/processor/transport_grpc.go])

    Records travel as lines of JSON over one connection per worker; a worker
    echoes every line it can decode.  [RunDistributed] deals the records of its
    source to the workers in turn while one goroutine per worker collects the
    answers: a step relation interleaves them. *)

From stdpp Require Import relations.
From S2P Require Import Prelude Encoding Processor.

(** ** JSON lines *)

(** A decoded record; [None] is the nil map. *)
Definition jrec : Type := option Record0.

(** [encoding/json] on records; [None] is an error. *)
Class JsonRecords := {
  Marshal : jrec → option (list byte);
  Unmarshal : list byte → option jrec }.

Definition newline : byte := x0a.
Definition json_null : list byte := String.list_byte_of_string "null".

(** What the code relies on: no line feed in the encoding, a blank after it does
    not matter, nil is [null], and a decoded record is encoded and decoded to
    itself. *)
Class JsonRecordLaws `{JsonRecords} : Prop := {
  marshal_line : ∀ r b, Marshal r = Some b → newline ∉ b;
  unmarshal_line : ∀ b, Unmarshal (b ++ [newline]) = Unmarshal b;
  nil_roundtrip : Marshal None = Some json_null ∧ Unmarshal json_null = Some None;
  unmarshal_stable : ∀ b r, Unmarshal b = Some r → ∃ b', Marshal r = Some b' ∧ Unmarshal b' = Some r }.

(** [ReadBytes('\n')] on the bytes of a connection: the first line and the rest;
    [None] while there is no line feed. *)
Fixpoint ReadBytes (bs : list byte) : option (list byte * list byte) :=
  match bs with
  | [] => None
  | b :: bs =>
      if decide (b = newline) then Some ([b], bs)
      else '(line, rest) ← ReadBytes bs; Some (b :: line, rest)
  end.

Section planner.
Context `{JsonRecords}.

(** ** The server *)

(** One turn of the loop of [handle]: what is written for a line. *)
Definition handle_line (line : list byte) : list byte :=
  match Unmarshal line with
  | None => []
  | Some rec => default [] (Marshal rec) ++ [newline]
  end.

(** What [Accept] returns: a connection, the error of a closed listener, another
    error. *)
Inductive accepted := AConn (c : nat) | AClosed | AError.
(** The connections [serve] hands to [handle], and whether it returned. *)
Fixpoint serve (evs : list accepted) : list nat * bool :=
  match evs with
  | [] => ([], false)
  | AClosed :: _ => ([], true)
  | AError :: evs => serve evs
  | AConn c :: evs => let '(cs, stop) := serve evs in (c :: cs, stop)
  end.

(** ** The client *)

Record conn := MkConn {
  up : bool;             (* the peer can be reached *)
  c2s : list byte;       (* sent and not read by the server *)
  s2c : list byte;       (* sent back and not read by the client *)
  reading : bool }.      (* the goroutine that collects the answers runs *)

(** [NewClientStream] *)
Definition NewClientStream : conn := MkConn true [] [] true.

(** [Send]; the caller ignores the error. *)
Definition Send (rec : jrec) (c : conn) : conn :=
  match Marshal rec with
  | None => c
  | Some b => if up c then MkConn true (c2s c ++ b ++ [newline]) (s2c c) (reading c) else c
  end.

(** [Recv], when a line is there: [None] is a decoding error. *)
Definition Recv (line : list byte) : option jrec := Unmarshal line.

(** ** Plans *)

Record PlanFragment := MkFragment { ID : string; Address : string; Projections : list string }.

Fixpoint distribute_from (i : Z) (addresses projections : list string) : list PlanFragment :=
  match addresses with
  | [] => []
  | addr :: addresses =>
      MkFragment (String.string_of_list_byte (sprintf_d i)) addr projections
      :: distribute_from (i + 1) addresses projections
  end.
Definition Distribute (addresses projections : list string) : list PlanFragment :=
  distribute_from 0 addresses projections.

(** Dial every fragment in turn; at the first that fails the clients made so far
    are closed and the error is returned. *)
Fixpoint open_clients (dial : string → bool) (frags : list PlanFragment) (clients : list conn)
    : option (list conn) :=
  match frags with
  | [] => Some clients
  | f :: frags =>
      if dial (Address f) then open_clients dial frags (clients ++ [NewClientStream]) else None
  end.

(** ** Running *)

(** The record that is sent for [r]: encoded and decoded; nil when that fails. *)
Definition norm (r : Record0) : jrec := default None (Marshal (Some r) ≫= Unmarshal).

Record run := MkRun {
  src : list Record0;              (* what the source still delivers *)
  idx : Z;                         (* [i] *)
  clients : list conn;
  outputs : list (nat * jrec) }.   (* each with the number of its goroutine *)

Definition set_client (j : nat) (c : conn) (s : run) : run :=
  MkRun (src s) (idx s) (<[j := c]> (clients s)) (outputs s).

(** [clients[i%len(clients)]] *)
Definition next_client (s : run) : nat := Z.to_nat (Z.rem (idx s) (Z.of_nat (length (clients s)))).

Inductive step : run → run → Prop :=
  (* the main loop *)
  | step_send s r rest c :
      src s = r :: rest → clients s !! next_client s = Some c →
      step s (MkRun rest (wrap64 (idx s + 1)) (<[next_client s := Send (norm r) c]> (clients s)) (outputs s))
  (* [handle] of a worker *)
  | step_handle s j c line rest :
      clients s !! j = Some c → up c = true → ReadBytes (c2s c) = Some (line, rest) →
      step s (set_client j (MkConn true rest (s2c c ++ handle_line line) (reading c)) s)
  (* the goroutine of a client *)
  | step_collect s j c line rest rec :
      clients s !! j = Some c → reading c = true → ReadBytes (s2c c) = Some (line, rest) →
      Recv line = Some rec →
      step s (MkRun (src s) (idx s) (<[j := MkConn (up c) (c2s c) rest true]> (clients s))
                (outputs s ++ [(j, rec)]))
  | step_bad_line s j c line rest :
      clients s !! j = Some c → reading c = true → ReadBytes (s2c c) = Some (line, rest) →
      Recv line = None →
      step s (set_client j (MkConn (up c) (c2s c) rest false) s)
  | step_eof s j c :
      clients s !! j = Some c → reading c = true → up c = false → ReadBytes (s2c c) = None →
      step s (set_client j (MkConn false (c2s c) (s2c c) false) s).

(** A connection breaks: what was not read by the server is lost, and any end of
    what was sent back. *)
Inductive break : run → run → Prop :=
  | break_conn s j c k :
      clients s !! j = Some c → up c = true →
      break s (set_client j (MkConn false [] (take k (s2c c)) (reading c)) s).

Definition fault_step (s s' : run) : Prop := step s s' ∨ break s s'.

Definition start (input : list Record0) (n : nat) : run :=
  MkRun input 0 (replicate n NewClientStream) [].

(** [RunDistributed] up to its loops: [None] is the error of a dial. *)
Definition begin (dial : string → bool) (addrs : list string) (input : list Record0) : option run :=
  cs ← open_clients dial (Distribute addrs []) []; Some (MkRun input 0 cs []).

(** The wait group is done: every goroutine returned. *)
Definition all_returned (s : run) : Prop := Forall (λ c, reading c = false) (clients s).

(** [RunDistributed] may return once the source is drained: when the wait group
    is done, or when the timeout fires. *)
Definition returns (timed_out : bool) (s : run) (result : list jrec) : Prop :=
  src s = [] ∧ (timed_out = true ∨ all_returned s) ∧ result = snd <$> outputs s.

(** The index expression of the main loop panics without clients. *)
Definition index_panics (s : run) : Prop := src s ≠ [] ∧ clients s !! next_client s = None.
End planner.
