(* ===== verification/PlannerFacts.v ===== *)
(** * What a distributed run delivers

    Every worker's answers are, in order, a prefix of the records dealt to it,
    also when connections break; without breaks a run that cannot go on has
    delivered every record once, after a bounded number of steps, and no goroutine
    has returned. *)

From stdpp Require Import relations.
From S2P Require Import Prelude Encoding Processor Planner.

(** ** Dealing *)

(** The elements dealt to one of [n] hands. *)
Definition of_tag {X} (j : nat) (l : list (nat * X)) : list X := snd <$> filter (λ p, p.1 = j) l.
Definition tagged {X} (n : nat) (l : list X) : list (nat * X) := imap (λ i x, ((i mod n)%nat, x)) l.
Definition share {X} (n j : nat) (l : list X) : list X := of_tag j (tagged n l).

Section dealing.
Context {X : Type}.
Implicit Types (l : list (nat * X)) (x : X).

Lemma of_tag_app j l1 l2 : of_tag j (l1 ++ l2) = of_tag j l1 ++ of_tag j l2.
Proof. unfold of_tag. by rewrite filter_app, fmap_app. Qed.
Lemma of_tag_one j i x : of_tag j [(i, x)] = if decide (i = j) then [x] else [].
Proof. unfold of_tag. rewrite filter_cons, filter_nil. cbn. by case_decide. Qed.
Lemma dealt_snoc n j (xs : list X) x :
  share n j (xs ++ [x]) = share n j xs ++ (if decide (length xs mod n = j)%nat then [x] else []).
Proof.
  unfold share, tagged. rewrite imap_app, of_tag_app. f_equal. cbn [imap].
  rewrite of_tag_one. by rewrite Nat.add_0_r.
Qed.

(** The hands together are the whole. *)
Lemma of_tag_all n l :
  Forall (λ p, p.1 < n)%nat l → snd <$> l ≡ₚ mjoin ((λ j, of_tag j l) <$> seq 0 n).
Proof.
  intros HF. cut (∀ js, NoDup js → (∀ p, p ∈ l → p.1 ∈ js) → snd <$> l ≡ₚ mjoin ((λ j, of_tag j l) <$> js)).
  { intros Hc. apply Hc; [apply NoDup_seq|]. intros p Hp. eapply Forall_forall in HF; [|exact Hp].
    cbn in HF. apply elem_of_seq. lia. }
  clear HF n. induction l as [|[i x] l IH] using rev_ind; intros js Hnd Hin.
  - cbn. clear. induction js as [|j js IH]; [done|]. exact IH.
  - rewrite fmap_app, (IH js) by (done || (intros p Hp; apply Hin, elem_of_app; by left)). cbn [fmap list_fmap snd].
    assert (i ∈ js) as Hi by (apply (Hin (i, x)), elem_of_app; right; by left).
    clear Hin IH. induction Hnd as [|j js Hj Hnd IH]; [by apply not_elem_of_nil in Hi|].
    rewrite !fmap_cons. cbn [mjoin list_join]. rewrite of_tag_app, of_tag_one.
    destruct (decide (i = j)) as [->|Hne].
    + rewrite <- !app_assoc. f_equiv. rewrite (Permutation_app_comm _ [x]). cbn [app]. f_equiv.
      apply reflexive_eq. clear -Hj. f_equal. apply list_fmap_ext. intros k j' Hk.
      rewrite of_tag_app, of_tag_one, decide_False, app_nil_r; [done|].
      intros ->. apply Hj. by apply list_elem_of_lookup_2 in Hk.
    + rewrite app_nil_r, <- app_assoc. f_equiv. apply IH. by apply elem_of_cons in Hi as [?|?].
Qed.

Lemma share_all n (xs : list X) :
  (0 < n)%nat → mjoin ((λ j, share n j xs) <$> seq 0 n) ≡ₚ xs.
Proof.
  intros Hn. unfold share. rewrite <- of_tag_all.
  - apply reflexive_eq. unfold tagged. rewrite fmap_imap.
    rewrite <- (list_fmap_id xs) at 2. rewrite <- imap_const. apply imap_ext. done.
  - unfold tagged. apply Forall_forall. intros p (i & x & -> & _)%elem_of_lookup_imap_1. cbn.
    apply Nat.mod_upper_bound. lia.
Qed.
End dealing.

Section facts.
Context `{JsonRecordLaws}.

(** ** Lines *)

Definition line_of (rec : jrec) : list byte := default [] (Marshal rec) ++ [newline].
Definition enc (rs : list jrec) : list byte := mjoin (line_of <$> rs).
(** A record that survives the wire. *)
Definition good (rec : jrec) : Prop := ∃ b, Marshal rec = Some b ∧ Unmarshal b = Some rec.

Lemma norm_good r : good (norm r).
Proof.
  unfold norm. destruct (Marshal (Some r)) as [b|]; cbn; [|eexists; apply nil_roundtrip].
  destruct (Unmarshal b) as [rec|] eqn:Hu; cbn; [|eexists; apply nil_roundtrip].
  by eapply unmarshal_stable.
Qed.

Lemma enc_app a b : enc (a ++ b) = enc a ++ enc b.
Proof. unfold enc. by rewrite fmap_app, join_app. Qed.
Lemma enc_cons r a : enc (r :: a) = line_of r ++ enc a.
Proof. done. Qed.

Lemma ReadBytes_line b rest : newline ∉ b → ReadBytes (b ++ newline :: rest) = Some (b ++ [newline], rest).
Proof.
  induction b as [|x b IH]; intros Hn; cbn; [by rewrite decide_True|].
  apply not_elem_of_cons in Hn as [Hx Hn]. rewrite decide_False by done. by rewrite IH.
Qed.
Lemma ReadBytes_more p q line rest :
  ReadBytes p = Some (line, rest) → ReadBytes (p ++ q) = Some (line, rest ++ q).
Proof.
  revert line rest. induction p as [|x p IH]; intros line rest Hr; [done|]. cbn in *.
  case_decide; [by simplify_eq|]. destruct (ReadBytes p) as [[l r]|]; [|done]. cbn in *.
  simplify_eq. by rewrite (IH l rest).
Qed.
Lemma ReadBytes_cons_enc r a : good r → ReadBytes (enc (r :: a)) = Some (line_of r, enc a).
Proof.
  intros (b & Hb & _). rewrite enc_cons. unfold line_of. rewrite Hb. cbn [default]. rewrite <- app_assoc.
  apply ReadBytes_line. by eapply marshal_line.
Qed.
(** A line read from a prefix of an encoding is its first record's. *)
Lemma ReadBytes_enc p a line rest :
  Forall good a → p `prefix_of` enc a → ReadBytes p = Some (line, rest) →
  ∃ r a', a = r :: a' ∧ line = line_of r ∧ rest `prefix_of` enc a' ∧ (p = enc a → rest = enc a').
Proof.
  intros Ha [q Hq] Hr. apply (ReadBytes_more p q) in Hr as Hr'. rewrite <- Hq in Hr'.
  destruct a as [|r a']; [done|]. inversion Ha; subst. rewrite ReadBytes_cons_enc in Hr' by done.
  injection Hr' as Hl Hrest. exists r, a'. split; [done|]. split; [done|]. split; [by exists q|].
  intros ->. rewrite ReadBytes_cons_enc in Hr by done. by injection Hr.
Qed.
Lemma handle_good r : good r → handle_line (line_of r) = line_of r.
Proof. intros (b & Hb & Hu). unfold handle_line, line_of. by rewrite Hb; cbn; rewrite unmarshal_line, Hu, Hb. Qed.
Lemma recv_good r : good r → Recv (line_of r) = Some r.
Proof. intros (b & Hb & Hu). unfold Recv, line_of. by rewrite Hb; cbn; rewrite unmarshal_line. Qed.

(** ** The invariant *)

(** [a] is on its way back and [b] on its way out. *)
Definition conn_inv (n : nat) (ds : list jrec) (outs : list (nat * jrec)) (j : nat) (c : conn) : Prop :=
  ∃ a b, Forall good a ∧ Forall good b ∧ c2s c = enc b ∧ s2c c `prefix_of` enc a ∧
    of_tag j outs ++ a ++ b `prefix_of` share n j ds ∧
    (up c = true → s2c c = enc a ∧ of_tag j outs ++ a ++ b = share n j ds ∧ reading c = true).

Definition run_inv (input : list Record0) (n : nat) (s : run) : Prop :=
  ∃ dealt, input = dealt ++ src s ∧ idx s = Z.of_nat (length dealt) ∧ length (clients s) = n ∧
    Forall (λ p, p.1 < n)%nat (outputs s) ∧
    ∀ j c, clients s !! j = Some c → conn_inv n (norm <$> dealt) (outputs s) j c.

Lemma start_inv input n : run_inv input n (start input n).
Proof.
  exists []. split; [done|]. split; [done|]. split; [apply length_replicate|]. split; [done|].
  intros j c [-> _]%lookup_replicate. exists [], []. by repeat split.
Qed.

(** A change of one client, of which the others see nothing. *)
Lemma update_inv n ds outs ds' outs' cs j c' :
  (∀ i c, cs !! i = Some c → conn_inv n ds outs i c) →
  (j < length cs)%nat → conn_inv n ds' outs' j c' →
  (∀ i, i ≠ j → of_tag i outs' = of_tag i outs ∧ share n i ds' = share n i ds) →
  ∀ i c, <[j := c']> cs !! i = Some c → conn_inv n ds' outs' i c.
Proof.
  intros Hcs Hj Hc' Hother i c Hi. destruct (decide (i = j)) as [->|Hne].
  - rewrite list_lookup_insert_eq in Hi by done. by simplify_eq.
  - rewrite list_lookup_insert_ne in Hi by done. destruct (Hother i Hne) as [Ho Hs].
    destruct (Hcs i c Hi) as (a & b & Hab). exists a, b. by rewrite Ho, Hs.
Qed.

Lemma send_inv n ds outs j c r :
  conn_inv n ds outs j c → (length ds mod n = j)%nat → good r → conn_inv n (ds ++ [r]) outs j (Send r c).
Proof.
  intros (a & b & Ha & Hb & Hc & Hs & Hp & Hu) Hj Hr. destruct Hr as (x & Hx & Hux).
  unfold Send. rewrite Hx. rewrite <- Hj in *. unfold conn_inv. rewrite dealt_snoc, decide_True by done.
  destruct (up c) eqn:Hup.
  - destruct (Hu eq_refl) as (Hs' & Heq & Hrd). exists a, (b ++ [r]). cbn [up c2s s2c reading].
    split; [done|]. split; [apply Forall_app; split; [done|]; repeat constructor; by exists x|].
    rewrite enc_app, Hc. split; [f_equal; unfold enc, line_of; cbn; by rewrite Hx, app_nil_r|].
    split; [done|]. rewrite <- Heq. split; [by rewrite <- !app_assoc|].
    intros _. by rewrite <- !app_assoc.
  - exists a, b. do 4 (split; [done|]). split; [by apply prefix_app_r|]. by rewrite Hup.
Qed.

Lemma handle_inv n ds outs j c line rest :
  conn_inv n ds outs j c → up c = true → ReadBytes (c2s c) = Some (line, rest) →
  conn_inv n ds outs j (MkConn true rest (s2c c ++ handle_line line) (reading c)).
Proof.
  intros (a & b & Ha & Hb & Hc & Hs & Hp & Hu) Hup Hr. destruct (Hu Hup) as (Hs' & Heq & Hrd).
  destruct (ReadBytes_enc (c2s c) b line rest) as (r & b' & -> & -> & _ & Hrest); [done|by rewrite Hc|done|].
  inversion Hb; subst. exists (a ++ [r]), b'. cbn [up c2s s2c reading].
  rewrite handle_good, Hs', enc_app by done. unfold enc at 2 4 6. cbn. rewrite app_nil_r.
  split; [apply Forall_app; by repeat constructor|]. split; [done|]. split; [by apply Hrest|]. split; [done|].
  rewrite <- Heq, <- !app_assoc. by split.
Qed.

Lemma collect_inv n ds outs j c line rest rec :
  conn_inv n ds outs j c → ReadBytes (s2c c) = Some (line, rest) → Recv line = Some rec →
  reading c = true → conn_inv n ds (outs ++ [(j, rec)]) j (MkConn (up c) (c2s c) rest true).
Proof.
  intros (a & b & Ha & Hb & Hc & Hs & Hp & Hu) Hr Hrec Hrd.
  destruct (ReadBytes_enc (s2c c) a line rest) as (r & a' & -> & -> & Hpre & Hrest); [done..|].
  inversion Ha; subst. rewrite recv_good in Hrec by done. injection Hrec as ->.
  exists a', b. cbn [up c2s s2c reading]. rewrite of_tag_app, of_tag_one, decide_True, <- app_assoc by done.
  do 4 (split; [done|]). split; [done|]. intros Hup. destruct (Hu Hup) as (Hs' & Heq & _).
  split; [by apply Hrest|]. done.
Qed.

(** The invariant only asks for less when a connection is down. *)
Lemma down_inv n ds outs j c p rd :
  conn_inv n ds outs j c → p `prefix_of` s2c c → conn_inv n ds outs j (MkConn false [] p rd).
Proof.
  intros (a & b & Ha & Hb & Hc & Hs & Hp & Hu) Hpre. exists a, []. cbn [up c2s s2c reading].
  do 3 (split; [done|]). split; [by etransitivity|]. split; [|done].
  etransitivity; [|exact Hp]. rewrite app_nil_r. apply prefix_app, prefix_app_r. done.
Qed.

Lemma next_client_inv n s (dealt : list Record0) :
  (0 < n)%nat → idx s = Z.of_nat (length dealt) → length (clients s) = n →
  next_client s = (length dealt mod n)%nat.
Proof.
  intros Hn Hi Hl. unfold next_client. rewrite Hi, Hl, Z.rem_mod_nonneg by lia.
  rewrite <- Nat2Z.inj_mod. apply Nat2Z.id.
Qed.

Lemma fault_step_inv input n s s' :
  (0 < n)%nat → Z.of_nat (length input) < 2 ^ 63 → run_inv input n s → fault_step s s' → run_inv input n s'.
Proof.
  intros Hn Hlen (dealt & Hin & Hidx & Hcl & Htags & Hcs) Hstep.
  assert (∀ j c, clients s !! j = Some c → (j < length (clients s))%nat) as Hlt
    by (intros j c Hj; by apply lookup_lt_Some in Hj).
  destruct Hstep as [Hstep|Hbreak]; [destruct Hstep as
    [? r rest c Hsrc Hj|? j c line rest Hj Hup Hr|? j c line rest rec Hj Hrd Hr Hrec
    |? j c line rest Hj Hrd Hr Hrec|? j c Hj Hrd Hup Hr]|destruct Hbreak as [? j c k Hj Hup]];
    rename select run into s.
  - pose proof (next_client_inv n s dealt Hn Hidx Hcl) as Hnext.
    exists (dealt ++ [r]). cbn [src idx clients outputs]. rewrite length_insert, length_app, fmap_app.
    split; [by rewrite Hin, Hsrc, <- app_assoc|]. split.
    { rewrite Hin, length_app, Hsrc in Hlen. cbn [length] in *. rewrite Hidx, wrap64_id; [lia|unfold int64; lia]. }
    split; [done|]. split; [done|].
    apply (update_inv n (norm <$> dealt) (outputs s)); [done|by eapply Hlt| |].
    + apply send_inv; [by apply Hcs|by rewrite length_fmap|apply norm_good].
    + intros i Hi. split; [done|]. cbn [fmap list_fmap]. rewrite dealt_snoc, decide_False, app_nil_r; [done|].
      rewrite length_fmap. congruence.
  - exists dealt. cbn [set_client src idx clients outputs]. rewrite length_insert. do 4 (split; [done|]).
    apply (update_inv n (norm <$> dealt) (outputs s)); [done|by eapply Hlt| |done].
    apply handle_inv; [by apply Hcs|done..].
  - exists dealt. cbn [src idx clients outputs]. rewrite length_insert. do 3 (split; [done|]). split.
    { apply Forall_app; split; [done|]. constructor; [|done]. cbn. rewrite <- Hcl. by eapply Hlt. }
    apply (update_inv n (norm <$> dealt) (outputs s)); [done|by eapply Hlt| |].
    + eapply collect_inv; [by apply Hcs|done..].
    + intros i Hi. split; [|done]. by rewrite of_tag_app, of_tag_one, decide_False, app_nil_r.
  - exfalso. destruct (Hcs j c Hj) as (a & b & Ha & _ & _ & Hs & _).
    destruct (ReadBytes_enc (s2c c) a line rest) as (r & a' & -> & -> & _); [done..|].
    inversion Ha; subst. by rewrite recv_good in Hrec.
  - exists dealt. cbn [set_client src idx clients outputs]. rewrite length_insert. do 4 (split; [done|]).
    apply (update_inv n (norm <$> dealt) (outputs s)); [done|by eapply Hlt| |done].
    destruct (Hcs j c Hj) as (a & b & Hab). exists a, b. cbn [up c2s s2c reading].
    destruct Hab as (? & ? & ? & ? & ? & ?). by repeat split.
  - exists dealt. cbn [set_client src idx clients outputs]. rewrite length_insert. do 4 (split; [done|]).
    apply (update_inv n (norm <$> dealt) (outputs s)); [done|by eapply Hlt| |done].
    eapply down_inv; [by apply Hcs|]. apply prefix_take.
Qed.

(** ** Termination *)

Definition lines (bs : list byte) : nat := length (filter (λ b, b = newline) bs).
Definition conn_work (c : conn) : nat :=
  2 * lines (c2s c) + lines (s2c c) + Nat.b2n (reading c) + Nat.b2n (up c).
Fixpoint total (cs : list conn) : nat := match cs with [] => 0 | c :: cs => conn_work c + total cs end.
(** A record is dealt, echoed and collected. *)
Definition work (s : run) : nat := 3 * length (src s) + total (clients s).

Lemma lines_app a b : lines (a ++ b) = (lines a + lines b)%nat.
Proof. unfold lines. by rewrite filter_app, length_app. Qed.
Lemma lines_none b : newline ∉ b → lines b = 0%nat.
Proof.
  intros Hn. unfold lines. induction b as [|x b IH]; [done|]. apply not_elem_of_cons in Hn as [Hx Hn].
  rewrite filter_cons_False by done. by apply IH.
Qed.
Lemma ReadBytes_lines p line rest : ReadBytes p = Some (line, rest) → lines p = S (lines rest).
Proof.
  revert line rest. induction p as [|x p IH]; intros line rest Hr; [done|]. cbn in Hr.
  unfold lines. case_decide as Hx.
  - injection Hr as <- <-. rewrite filter_cons_True by done. done.
  - rewrite filter_cons_False by done. destruct (ReadBytes p) as [[l r]|]; [|done]. cbn in Hr.
    injection Hr as <- <-. by apply (IH l).
Qed.
Lemma lines_prefix p q : p `prefix_of` q → (lines p ≤ lines q)%nat.
Proof. intros [r ->]. rewrite lines_app. lia. Qed.
Lemma lines_line rec : (lines (line_of rec) ≤ 1)%nat.
Proof.
  unfold line_of. rewrite lines_app. destruct (Marshal rec) as [b|] eqn:Hb; cbn [default];
    change (lines [newline]) with 1%nat; [|by change (lines []) with 0%nat].
  rewrite lines_none; [done|]. by eapply marshal_line.
Qed.
Lemma lines_handle line : (lines (handle_line line) ≤ 1)%nat.
Proof. unfold handle_line. destruct (Unmarshal line) as [rec|]; [apply lines_line|change (lines []) with 0%nat; lia]. Qed.

Lemma work_insert (cs : list conn) j c c' :
  cs !! j = Some c →
  (total (<[j := c']> cs) + conn_work c = total cs + conn_work c')%nat.
Proof.
  revert j. induction cs as [|x cs IH]; intros [|j] Hj; [done|done|injection Hj as ->; change (<[0%nat := c']> (c :: cs)) with (c' :: cs); cbn [total]; lia|].
  change (<[S j := c']> (x :: cs)) with (x :: <[j := c']> cs). cbn [total]. specialize (IH j Hj). lia.
Qed.

Lemma step_work s s' : fault_step s s' → (work s' < work s)%nat.
Proof.
  assert (∀ b : bool, Nat.b2n b ≤ 1)%nat as Hb by (intros []; cbn; lia).
  intros [Hs|Hs]; [destruct Hs as
    [s r rest c Hsrc Hj|s j c line rest Hj Hup Hr|s j c line rest rec Hj Hrd Hr Hrec
    |s j c line rest Hj Hrd Hr Hrec|s j c Hj Hrd Hup Hr]|destruct Hs as [s j c k Hj Hup]];
    unfold work; cbn [set_client src clients];
    match goal with |- context [<[?j := ?c']> (clients s)] =>
      pose proof (work_insert (clients s) j c c' Hj) as Hw end.
  - assert (conn_work (Send (norm r) c) ≤ conn_work c + 2)%nat as Hc.
    { unfold Send. destruct (Marshal (norm r)) as [b|] eqn:Hm; [|lia]. destruct (up c) eqn:Hup; [|lia].
      unfold conn_work. cbn [c2s s2c reading up]. rewrite Hup, !lines_app, (lines_none b) by (by eapply marshal_line).
      change (lines [newline]) with 1%nat. lia. }
    rewrite Hsrc. cbn [length]. lia.
  - apply ReadBytes_lines in Hr. pose proof (lines_handle line). unfold conn_work in Hw.
    cbn [c2s s2c reading up] in Hw. rewrite lines_app, Hr, Hup in Hw. lia.
  - apply ReadBytes_lines in Hr. unfold conn_work in Hw. cbn [c2s s2c reading up] in Hw.
    rewrite Hr, Hrd in Hw. lia.
  - apply ReadBytes_lines in Hr. unfold conn_work in Hw. cbn [c2s s2c reading up] in Hw.
    rewrite Hr, Hrd in Hw. cbn in Hw. lia.
  - unfold conn_work in Hw. cbn [c2s s2c reading up] in Hw. rewrite Hup, Hrd in Hw. cbn in Hw. lia.
  - unfold conn_work in Hw. cbn [c2s s2c reading up] in Hw. rewrite Hup in Hw.
    pose proof (lines_prefix (take k (s2c c)) (s2c c) (prefix_take _ _)).
    change (lines []) with 0%nat in Hw. cbn in Hw. lia.
Qed.

Lemma steps_work k s s' : nsteps fault_step k s s' → (k + work s' ≤ work s)%nat.
Proof. induction 1 as [|k s s1 s' Hs _ IH]; [lia|]. apply step_work in Hs. lia. Qed.
Lemma start_work input n : work (start input n) = (3 * length input + 2 * n)%nat.
Proof.
  unfold work. cbn [start src clients]. f_equal. induction n as [|n IH]; [done|].
  cbn [replicate total]. rewrite IH. cbn. lia.
Qed.

(** ** What arrives *)

Lemma fault_steps_inv input n s s' :
  (0 < n)%nat → Z.of_nat (length input) < 2 ^ 63 → run_inv input n s → rtc fault_step s s' →
  run_inv input n s'.
Proof. intros Hn Hl Hi Hs. induction Hs as [|s s1 s' Hs _ IH]; [done|]. apply IH. by eapply fault_step_inv. Qed.

Lemma share_prefix {X} n j (a b : list X) : share n j a `prefix_of` share n j (a ++ b).
Proof. unfold share, tagged. rewrite imap_app, of_tag_app. by apply prefix_app_r. Qed.

Lemma outputs_prefix input n s j :
  run_inv input n s → (j < n)%nat → of_tag j (outputs s) `prefix_of` share n j (norm <$> input).
Proof.
  intros (dealt & -> & _ & Hcl & _ & Hcs) Hj.
  destruct (lookup_lt_is_Some_2 (clients s) j) as [c Hc]; [lia|].
  destruct (Hcs j c Hc) as (a & b & _ & _ & _ & _ & Hp & _).
  rewrite fmap_app. etransitivity; [|apply share_prefix].
  etransitivity; [|exact Hp]. by apply prefix_app_r.
Qed.

Lemma mjoin_submseteq {X} (f g : nat → list X) js :
  (∀ j, j ∈ js → f j `prefix_of` g j) → mjoin (f <$> js) ⊆+ mjoin (g <$> js).
Proof.
  induction js as [|j js IH]; intros Hp; [done|]. cbn [fmap list_fmap mjoin list_join].
  apply submseteq_app; [|apply IH; intros; apply Hp; by right].
  destruct (Hp j ltac:(by left)) as [l ->]. apply submseteq_inserts_r. done.
Qed.

(** C15: whatever the interleaving, and whatever connections break at whatever
    moment, the answers of each worker that a distributed run has collected are, in
    order, a beginning of the records dealt to it in turn; so the result the run
    returns holds no record more often than the source delivered it. *)
Theorem distributed_no_invention input n s timed_out result :
  (0 < n)%nat → Z.of_nat (length input) < 2 ^ 63 →
  rtc fault_step (start input n) s → returns timed_out s result →
  (∀ j, (j < n)%nat → of_tag j (outputs s) `prefix_of` share n j (norm <$> input)) ∧
  result ⊆+ norm <$> input.
Proof.
  intros Hn Hlen Hs (_ & _ & ->).
  pose proof (fault_steps_inv _ _ _ _ Hn Hlen (start_inv input n) Hs) as Hi.
  split; [intros j Hj; by apply outputs_prefix|].
  destruct Hi as (dealt & Hin & Hidx & Hcl & Htags & Hcs) eqn:Heq. clear Heq.
  rewrite (of_tag_all n) by done. rewrite <- (share_all n (norm <$> input)) by done.
  apply mjoin_submseteq. intros j Hj%elem_of_seq. apply outputs_prefix; [|lia].
  by exists dealt.
Qed.

Lemma steps_up s s' :
  rtc step s s' → Forall (λ c, up c = true) (clients s) → Forall (λ c, up c = true) (clients s').
Proof.
  induction 1 as [|s s1 s' Hs _ IH]; intros Hup; [done|]. apply IH.
  destruct Hs as [s r rest c Hsrc Hj|s j c line rest Hj Hu Hr|s j c line rest rec Hj Hrd Hr Hrec
    |s j c line rest Hj Hrd Hr Hrec|s j c Hj Hrd Hu Hr]; cbn [set_client clients];
    (apply Forall_insert; [done|]); pose proof (Forall_lookup_1 _ _ _ _ Hup Hj) as Hc; cbn in *; try done.
  - unfold Send. destruct (Marshal (norm r)); [|done]. by rewrite Hc.
  - congruence.
Qed.

Lemma ReadBytes_stuck a : Forall good a → ReadBytes (enc a) = None → a = [].
Proof. destruct 1 as [|r a Hr _]; [done|]. by rewrite ReadBytes_cons_enc. Qed.

(** A state without breaks in which nothing can move has everything. *)
Lemma stuck_complete input n s :
  (0 < n)%nat → run_inv input n s → Forall (λ c, up c = true) (clients s) → nf step s →
  src s = [] ∧ ∀ j, (j < n)%nat → of_tag j (outputs s) = share n j (norm <$> input).
Proof.
  intros Hn (dealt & Hin & Hidx & Hcl & _ & Hcs) Hup Hnf.
  assert (src s = []) as Hsrc.
  { destruct (src s) as [|r rest] eqn:Hsrc; [done|]. destruct Hnf.
    destruct (lookup_lt_is_Some_2 (clients s) (next_client s)) as [c Hc].
    { rewrite (next_client_inv n s dealt), Hcl by done. apply Nat.mod_upper_bound. lia. }
    eexists. by eapply step_send. }
  split; [done|]. intros j Hj. destruct (lookup_lt_is_Some_2 (clients s) j) as [c Hc]; [lia|].
  destruct (Hcs j c Hc) as (a & b & Ha & Hb & Hc2 & _ & _ & Hu).
  pose proof (Forall_lookup_1 _ _ _ _ Hup Hc) as Hupc. cbn in Hupc.
  destruct (Hu Hupc) as (Hs2 & Heq & Hrd).
  assert (b = []) as ->.
  { apply ReadBytes_stuck; [done|]. rewrite <- Hc2. destruct (ReadBytes (c2s c)) as [[l r]|] eqn:Hr; [|done].
    destruct Hnf. eexists. by eapply step_handle. }
  assert (a = []) as ->.
  { apply ReadBytes_stuck; [done|]. rewrite <- Hs2. destruct (ReadBytes (s2c c)) as [[l r]|] eqn:Hr; [|done].
    destruct Hnf. destruct (Recv l) as [rec|] eqn:Hrec; eexists; [by eapply step_collect|by eapply step_bad_line]. }
  rewrite !app_nil_r in Heq. rewrite Heq. by rewrite Hin, Hsrc, app_nil_r.
Qed.

(** C14: without broken connections every run makes at most three steps per record
    and two per worker, and one that can go no further has drained its source and
    collected, from every worker and in order, exactly the records dealt to it:
    the outputs are a rearrangement of the input.  Still no goroutine has returned,
    so the wait ends by the timeout only. *)
Theorem distributed_delivers_all input n :
  (0 < n)%nat → Z.of_nat (length input) < 2 ^ 63 →
  (∀ k s, nsteps step k (start input n) s → (k ≤ 3 * length input + 2 * n)%nat) ∧
  (∀ s, rtc step (start input n) s → ¬ all_returned s) ∧
  ∀ s, rtc step (start input n) s → nf step s →
    (∀ j, (j < n)%nat → of_tag j (outputs s) = share n j (norm <$> input)) ∧
    ∃ result, returns true s result ∧ result ≡ₚ norm <$> input.
Proof.
  intros Hn Hlen.
  assert (∀ s, rtc step (start input n) s → run_inv input n s ∧ Forall (λ c, up c = true) (clients s)) as Hinv.
  { intros s Hs. split.
    - apply (fault_steps_inv _ _ (start input n)); [done..|apply start_inv|].
      eapply rtc_subrel; [|exact Hs]. by left.
    - eapply steps_up; [exact Hs|]. by apply Forall_replicate. }
  split; [|split].
  - intros k s Hs. rewrite <- start_work.
    assert (nsteps fault_step k (start input n) s) as Hk%steps_work; [|lia].
    clear Hinv. induction Hs as [|k s1 s2 s3 Hs _ IH]; [constructor|]. econstructor; [by left|done].
  - intros s Hs Hall. destruct (Hinv s Hs) as [(dealt & _ & _ & Hcl & _ & Hcs) Hup].
    destruct (lookup_lt_is_Some_2 (clients s) 0) as [c Hc]; [lia|].
    destruct (Hcs _ _ Hc) as (a & b & _ & _ & _ & _ & _ & Hu).
    destruct Hu as (_ & _ & Hrd); [exact (Forall_lookup_1 _ _ _ _ Hup Hc)|].
    pose proof (Forall_lookup_1 _ _ _ _ Hall Hc) as Hf. cbn in Hf. congruence.
  - intros s Hs Hnf. destruct (Hinv s Hs) as [Hi Hup].
    destruct (stuck_complete input n s) as [Hsrc Hout]; [done..|]. split; [done|].
    exists (snd <$> outputs s). split; [by repeat split; try left|].
    destruct Hi as (dealt & _ & _ & _ & Htags & _). rewrite (of_tag_all n) by done.
    rewrite <- (share_all n (norm <$> input)) by done. apply reflexive_eq. f_equal.
    apply list_fmap_ext. intros i j Hj. apply Hout. apply lookup_seq in Hj. lia.
Qed.

(** With no worker the first record panics. *)
Theorem no_workers_panic r input : index_panics (start (r :: input) 0).
Proof. split; done. Qed.
End facts.

(** ** The start *)

Lemma open_clients_all dial addrs : ∀ i ps cs,
  open_clients dial (distribute_from i addrs ps) cs
  = if forallb dial addrs then Some (cs ++ replicate (length addrs) NewClientStream) else None.
Proof.
  induction addrs as [|a addrs IH]; intros i ps cs; cbn; [by rewrite app_nil_r|].
  destruct (dial a); [|done]. cbn. rewrite IH. destruct (forallb dial addrs); [|done]. by rewrite <- app_assoc.
Qed.
Lemma begin_start dial addrs input :
  begin dial addrs input = if forallb dial addrs then Some (start input (length addrs)) else None.
Proof. unfold begin, Distribute. rewrite open_clients_all. by destruct (forallb dial addrs). Qed.

(** ** Witnesses *)

(** A codec of records with one string field. *)
Fixpoint drop_newlines (bs : list byte) : list byte :=
  match bs with b :: bs' => if decide (b = newline) then drop_newlines bs' else bs | [] => [] end.
Definition strip (bs : list byte) : list byte := rev (drop_newlines (rev bs)).
Definition one_field (s : list byte) : Record0 := {["x" := VString (String.string_of_list_byte s)]}%string.

#[local] Instance line_codec : JsonRecords := {|
  Marshal r := match r with
    | None => Some json_null
    | Some r => match r !! "x"%string with
                | Some (VString s) =>
                    let b := String.list_byte_of_string s in
                    if decide (newline ∈ b) then None else Some (x7b :: b)
                | _ => Some [x5b]
                end
    end;
  Unmarshal b :=
    if decide (strip b = json_null) then Some None
    else match strip b with
         | x7b :: s => if decide (newline ∈ s) then None else Some (Some (one_field s))
         | [x5b] => Some (Some ∅)
         | _ => None
         end |}.

Lemma strip_line b : strip (b ++ [newline]) = strip b.
Proof. unfold strip. by rewrite rev_unit. Qed.
Lemma strip_clean b : newline ∉ b → strip b = b.
Proof.
  intros Hn. unfold strip. destruct (rev b) as [|x l] eqn:Hr; [by apply (f_equal (@rev byte)) in Hr; rewrite rev_involutive in Hr|].
  cbn. rewrite decide_False; [rewrite <- Hr; apply rev_involutive|].
  intros ->. apply Hn. rewrite <- (rev_involutive b), Hr. apply list_elem_of_In, in_rev. rewrite rev_involutive. by left.
Qed.

#[local] Instance line_codec_laws : JsonRecordLaws.
Proof.
  assert (newline ∉ json_null) as Hnull by (apply (bool_decide_eq_true_1 (newline ∉ json_null)); reflexivity).
  split.
  - intros [r|] b Hb; cbn in Hb; [|by simplify_eq].
    destruct (r !! "x"%string) as [[]|]; try (simplify_eq; apply (bool_decide_eq_true_1 (newline ∉ [x5b])); reflexivity).
    case_decide; [done|]. simplify_eq. apply not_elem_of_cons. done.
  - intros b. cbn [Unmarshal line_codec]. by rewrite strip_line.
  - split; [done|]. cbn [Unmarshal line_codec]. rewrite strip_clean by done. by rewrite decide_True.
  - intros b r Hb. cbn [Unmarshal line_codec] in Hb.
    case_decide; [simplify_eq; exists json_null; split; [done|]; cbn [Unmarshal line_codec]; rewrite strip_clean by done; by rewrite decide_True|].
    destruct (strip b) as [|x s] eqn:Hs; [done|].
    destruct (decide (x = x7b)) as [->|H1].
    + case_decide as Hin; [done|]. injection Hb as <-. exists (x7b :: s). cbn [Marshal line_codec].
      assert (one_field s !! "x"%string = Some (VString (String.string_of_list_byte s))) as ->
        by apply (lookup_singleton_eq (M := gmap string)).
      rewrite String.list_byte_of_string_of_list_byte, decide_False by done. split; [done|].
      cbn [Unmarshal line_codec]. rewrite strip_clean by (by apply not_elem_of_cons).
      rewrite decide_False by done. by rewrite decide_False.
    + assert (x = x5b ∧ s = []) as [-> ->] by (destruct x; try done; by destruct s).
      injection Hb as <-. exists [x5b]. split; [done|]. cbn [Unmarshal line_codec].
      rewrite strip_clean by (apply (bool_decide_eq_true_1 (newline ∉ [x5b])); reflexivity). done.
Qed.

Definition abc : list Record0 := [one_field [x61]; one_field [x62]; one_field [x63]].

(** Nothing moves once nothing is on its way. *)
Lemma quiet_nf s :
  src s = [] → Forall (λ c, up c = true ∧ c2s c = [] ∧ s2c c = []) (clients s) → nf step s.
Proof.
  intros Hsrc Hq [s' Hs].
  assert (∀ j c, clients s !! j = Some c → up c = true ∧ c2s c = [] ∧ s2c c = []) as Hc
    by (intros j c Hj; exact (Forall_lookup_1 _ _ _ _ Hq Hj)).
  destruct Hs as [s r rest c Hs Hj|s j c line rest Hj Hu Hr|s j c line rest rec Hj Hrd Hr Hrec
    |s j c line rest Hj Hrd Hr Hrec|s j c Hj Hrd Hu Hr]; destruct (Hc _ _ Hj) as (H1 & H2 & H3).
  - congruence.
  - by rewrite H2 in Hr.
  - by rewrite H3 in Hr.
  - by rewrite H3 in Hr.
  - congruence.
Qed.

(** A schedule, executed. *)
Inductive action := ADeal | AEcho (j : nat) | ACollect (j : nat) | ABreak (j k : nat).

Definition exec (a : action) (s : run) : option run :=
  match a with
  | ADeal =>
      match src s with
      | [] => None
      | r :: rest =>
          c ← clients s !! next_client s;
          Some (MkRun rest (wrap64 (idx s + 1)) (<[next_client s := Send (norm r) c]> (clients s)) (outputs s))
      end
  | AEcho j =>
      c ← clients s !! j;
      if up c then '(line, rest) ← ReadBytes (c2s c);
        Some (set_client j (MkConn true rest (s2c c ++ handle_line line) (reading c)) s)
      else None
  | ACollect j =>
      c ← clients s !! j;
      if reading c then '(line, rest) ← ReadBytes (s2c c); rec ← Recv line;
        Some (MkRun (src s) (idx s) (<[j := MkConn (up c) (c2s c) rest true]> (clients s))
                (outputs s ++ [(j, rec)]))
      else None
  | ABreak j k =>
      c ← clients s !! j;
      if up c then Some (set_client j (MkConn false [] (take k (s2c c)) (reading c)) s) else None
  end.
Fixpoint exec_all (acts : list action) (s : run) : option run :=
  match acts with [] => Some s | a :: acts => s ← exec a s; exec_all acts s end.

Definition is_break (a : action) : bool := match a with ABreak _ _ => true | _ => false end.

Lemma exec_step a s s' : exec a s = Some s' → if is_break a then break s s' else step s s'.
Proof.
  destruct a as [|j|j|j k]; cbn [exec is_break]; intros He.
  - destruct (src s) as [|r rest] eqn:Hs; [done|].
    destruct (clients s !! next_client s) as [c|] eqn:Hc; [|done]. injection He as <-. by apply step_send.
  - destruct (clients s !! j) as [c|] eqn:Hc; [|done]. cbn [mbind option_bind] in He. destruct (up c) eqn:Hu; [|done].
    destruct (ReadBytes (c2s c)) as [[line rest]|] eqn:Hr; [|done]. injection He as <-. by apply step_handle.
  - destruct (clients s !! j) as [c|] eqn:Hc; [|done]. cbn [mbind option_bind] in He. destruct (reading c) eqn:Hu; [|done].
    destruct (ReadBytes (s2c c)) as [[line rest]|] eqn:Hr; [|done]. cbn [mbind option_bind] in He.
    destruct (Recv line) as [rec|] eqn:Hrec; [|done]. injection He as <-. by eapply step_collect.
  - destruct (clients s !! j) as [c|] eqn:Hc; [|done]. cbn [mbind option_bind] in He. destruct (up c) eqn:Hu; [|done].
    injection He as <-. by apply break_conn.
Qed.
Lemma exec_all_steps acts s s' :
  exec_all acts s = Some s' → forallb (negb ∘ is_break) acts = true → rtc step s s'.
Proof.
  revert s. induction acts as [|a acts IH]; intros s He Hb; [injection He as ->; apply rtc_refl|].
  cbn in He, Hb. apply andb_prop in Hb as [Ha Hb]. destruct (exec a s) as [s1|] eqn:H1; [|done].
  apply exec_step in H1. destruct (is_break a); [done|]. eapply rtc_l; [exact H1|]. by apply IH.
Qed.
Lemma exec_all_fault_steps acts s s' : exec_all acts s = Some s' → rtc fault_step s s'.
Proof.
  revert s. induction acts as [|a acts IH]; intros s He; [injection He as ->; apply rtc_refl|].
  cbn in He. destruct (exec a s) as [s1|] eqn:H1; [|done].
  apply exec_step in H1. eapply rtc_l; [|by apply IH]. destruct (is_break a); [by right|by left].
Qed.

(** A run of two workers that collects everything. *)
Definition abc_end : run := MkRun [] 3 [NewClientStream; NewClientStream]
  [(1%nat, Some (one_field [x62])); (0%nat, Some (one_field [x61])); (0%nat, Some (one_field [x63]))].
Lemma abc_run : rtc step (start abc 2) abc_end ∧ nf step abc_end.
Proof.
  split; [|apply quiet_nf; [done|by repeat constructor]].
  apply (exec_all_steps [ADeal; ADeal; AEcho 1; ADeal; ACollect 1; AEcho 0; AEcho 0; ACollect 0; ACollect 0]);
    [vm_compute; reflexivity|done].
Qed.

Lemma distributed_delivers_all_witness :
  ∃ result, returns true abc_end result ∧ result ≡ₚ norm <$> abc.
Proof.
  destruct abc_run as (Hs & Hnf).
  destruct (distributed_delivers_all abc 2) as (_ & _ & Hall); [lia|vm_compute; reflexivity|].
  destruct (Hall abc_end Hs Hnf) as (_ & result & Hr & Hp). by exists result.
Defined.

(** The second worker's connection breaks before it answers. *)
Definition abc_broken : run :=
  MkRun [] 3 [MkConn true (String.list_byte_of_string "{c" ++ [newline]) [] true; MkConn false [] [] true]
    [(0%nat, Some (one_field [x61]))].
Lemma abc_broken_run : rtc fault_step (start abc 2) abc_broken.
Proof.
  apply (exec_all_fault_steps [ADeal; ADeal; ADeal; ABreak 1 0; AEcho 0; ACollect 0]).
  vm_compute. reflexivity.
Qed.

Lemma distributed_no_invention_witness :
  returns true abc_broken [Some (one_field [x61])] ∧ [Some (one_field [x61])] ⊆+ norm <$> abc.
Proof.
  assert (returns true abc_broken [Some (one_field [x61])]) as Hr by (split; [done|split; [by left|done]]).
  split; [done|].
  apply (distributed_no_invention abc 2 abc_broken true [Some (one_field [x61])]);
    [lia|vm_compute; reflexivity|exact abc_broken_run|done].
Defined.
