(* ===== verification/Grpc.v ===== *)
(** * The gRPC transport of the raft node
    ([src/broker/internal/raft/transport_grpc.go])

    The transport caches one connection and one stream per address.  The library
    underneath is what it was asked to do: connections, streams and messages in the
    order of the calls, each of which may fail.  A [Send] takes three locks one
    after the other; the step relation interleaves any number of them. *)

From stdpp Require Import relations.
From S2P Require Import Prelude Encoding.

(** ** The library *)

(** Which calls succeed. *)
Class NetEnv := net_ok : nat → bool.

Inductive creds := Insecure | TLS (client_cert : bool).

Record net := MkNet {
  dialed : list (string * creds);             (* connections, by number *)
  opened : list nat;                          (* streams, by number: their connection *)
  sent : list (nat * list byte * bool);       (* messages: stream, payload, accepted *)
  calls : nat }.
Definition NewNet : net := MkNet [] [] [] 0.

Section transport.
Context {N : NetEnv}.

Definition ErrRpc : error := ErrMsg "rpc error".

Definition Dial (addr : string) (c : creds) (n : net) : res nat * net :=
  if net_ok (calls n)
  then (Ok (length (dialed n)), MkNet (dialed n ++ [(addr, c)]) (opened n) (sent n) (S (calls n)))
  else (Err ErrRpc, MkNet (dialed n) (opened n) (sent n) (S (calls n))).
Definition NewStream (conn : nat) (n : net) : res nat * net :=
  if net_ok (calls n)
  then (Ok (length (opened n)), MkNet (dialed n) (opened n ++ [conn]) (sent n) (S (calls n)))
  else (Err ErrRpc, MkNet (dialed n) (opened n) (sent n) (S (calls n))).
Definition SendMsg (stream : nat) (payload : list byte) (n : net) : res unit * net :=
  let ok := net_ok (calls n) in
  (if ok then Ok tt else Err ErrRpc,
   MkNet (dialed n) (opened n) (sent n ++ [(stream, payload, ok)]) (S (calls n))).

(** ** The codec *)

(** What a message may be: a slice, a pointer to one, anything else. *)
Inductive message := MSlice (b : list byte) | MPointer (b : list byte) | MOther.
Definition rawMarshal (v : message) : res (list byte) :=
  match v with
  | MSlice b | MPointer b => Ok b
  | MOther => Err (ErrMsg "rawCodec: unsupported marshal type")
  end.
Definition rawUnmarshal (data : list byte) (v : message) : res message :=
  match v with
  | MPointer _ => Ok (MPointer data)
  | _ => Err (ErrMsg "rawCodec: unsupported unmarshal type")
  end.

(** ** The transport *)

Record GRPCTransport := MkGrpc {
  g_conns : gmap string nat;
  g_streams : gmap string nat;    (* the [clientStream] of an address, by number *)
  g_cs : list nat;                (* the stream of each [clientStream] *)
  g_tls : bool;
  g_caPool : bool;
  g_clientCert : bool }.

(** *** Construction *)

(** The files named in the configuration; an empty name is no file. *)
Record config := MkConfig {
  serverCertFile : string; serverKeyFile : string; caFile : string;
  clientCertFile : string; clientKeyFile : string }.

(** [tls.LoadX509KeyPair] and reading a CA file into a pool succeed or not. *)
Record certs := MkCerts { load_pair : string → string → bool; load_ca : string → bool }.

Definition given (s : string) : bool := negb (bool_decide (s = EmptyString)).

(** The outcome, and whether the listener is left open. *)
Definition NewGRPCTransport (listen : bool) (files : certs) (c : config)
    : res GRPCTransport * bool :=
  if negb listen then (Err (ErrMsg "listen"), false)
  else
    let server := given (serverCertFile c) && given (serverKeyFile c) in
    let client := given (clientCertFile c) && given (clientKeyFile c) in
    let ca := given (caFile c) in
    if server && negb (load_pair files (serverCertFile c) (serverKeyFile c)) then (Err ErrRpc, true)
    else if server && ca && negb (load_ca files (caFile c)) then (Err ErrRpc, true)
    else if client && negb (load_pair files (clientCertFile c) (clientKeyFile c)) then (Err ErrRpc, true)
    else if ca && negb (load_ca files (caFile c)) then (Err ErrRpc, true)
    else (Ok (MkGrpc ∅ ∅ [] server ca client), true).

(** What a stream of the server sees: a message, or that a handler was registered
    ([RegisterHandler]) in the meantime. *)
Inductive server_event (S : Type) :=
  | SMessage (payload : list byte)
  | SRegister (h : list byte → S → res unit * S).
#[global] Arguments SMessage {S} _.
#[global] Arguments SRegister {S} _.

(** The loop of a stream: a message with no handler is dropped, an error of the
    handler ends the stream. *)
Fixpoint serveStream {S : Type} (handler : option (list byte → S → res unit * S))
    (evs : list (server_event S)) (s : S) : res unit * S :=
  match evs with
  | [] => (Ok tt, s)
  | SRegister h :: evs => serveStream (Some h) evs s
  | SMessage payload :: evs =>
      match handler with
      | None => serveStream handler evs s
      | Some h => match h payload s with
                  | (Err e, s) => (Err e, s)
                  | (Ok _, s) => serveStream handler evs s
                  end
      end
  end.

(** *** Sending *)

Definition creds_of (g : GRPCTransport) : creds :=
  if g_tls g then if g_caPool g then TLS (g_clientCert g) else Insecure else Insecure.

Definition set_conns (m : gmap string nat) (g : GRPCTransport) : GRPCTransport :=
  MkGrpc m (g_streams g) (g_cs g) (g_tls g) (g_caPool g) (g_clientCert g).
Definition set_streams (m : gmap string nat) (cs : list nat) (g : GRPCTransport) : GRPCTransport :=
  MkGrpc (g_conns g) m cs (g_tls g) (g_caPool g) (g_clientCert g).

Definition getConn (addr : string) (g : GRPCTransport) (n : net) : res nat * GRPCTransport * net :=
  match g_conns g !! addr with
  | Some c => (Ok c, g, n)
  | None =>
      match Dial addr (creds_of g) n with
      | (Err e, n) => (Err e, g, n)
      | (Ok c, n) => (Ok c, set_conns (<[addr := c]> (g_conns g)) g, n)
      end
  end.

(** The part of [Send] under the transport's lock. *)
Definition getStream (to : string) (conn : nat) (g : GRPCTransport) (n : net)
    : res nat * GRPCTransport * net :=
  match g_streams g !! to with
  | Some cs => (Ok cs, g, n)
  | None =>
      match NewStream conn n with
      | (Err e, n) => (Err e, g, n)
      | (Ok s, n) =>
          let cs := length (g_cs g) in
          (Ok cs, set_streams (<[to := cs]> (g_streams g)) (g_cs g ++ [s]) g, n)
      end
  end.

(** The part under the stream's lock: one new stream and one more try. *)
Definition sendOn (conn cs : nat) (payload : list byte) (g : GRPCTransport) (n : net)
    : res unit * GRPCTransport * net :=
  match g_cs g !! cs with
  | None => (Err ErrRpc, g, n)
  | Some s =>
      match SendMsg s payload n with
      | (Ok _, n) => (Ok tt, g, n)
      | (Err e, n) =>
          match NewStream conn n with
          | (Err _, n) => (Err e, g, n)
          | (Ok s', n) =>
              let g := set_streams (g_streams g) (<[cs := s']> (g_cs g)) g in
              let '(r, n) := SendMsg s' payload n in (r, g, n)
          end
      end
  end.

Definition GSend (to : string) (payload : list byte) (g : GRPCTransport) (n : net)
    : res unit * GRPCTransport * net :=
  match getConn to g n with
  | (Err e, g, n) => (Err e, g, n)
  | (Ok conn, g, n) =>
      match getStream to conn g n with
      | (Err e, g, n) => (Err e, g, n)
      | (Ok cs, g, n) => sendOn conn cs payload g n
      end
  end.

(** The connections are closed and forgotten, the streams are not. *)
Definition GClose (g : GRPCTransport) : GRPCTransport := set_conns ∅ g.

(** ** Concurrent sends *)

Inductive pc :=
  | Called
  | GotConn (conn : nat)
  | GotStream (conn cs : nat)
  | Returned (r : res unit).
Record call := MkCall { c_to : string; c_payload : list byte; c_pc : pc }.
Record sys := MkSys { s_g : GRPCTransport; s_net : net; s_calls : list call }.

Definition set_call (i : nat) (c : call) (p : pc) (s : sys) (g : GRPCTransport) (n : net) : sys :=
  MkSys g n (<[i := MkCall (c_to c) (c_payload c) p]> (s_calls s)).

Inductive gstep : sys → sys → Prop :=
  | g_call s to payload :
      gstep s (MkSys (s_g s) (s_net s) (s_calls s ++ [MkCall to payload Called]))
  | g_getConn s i c r g n :
      s_calls s !! i = Some c → c_pc c = Called →
      getConn (c_to c) (s_g s) (s_net s) = (r, g, n) →
      gstep s (set_call i c (match r with Ok conn => GotConn conn | Err e => Returned (Err e) end) s g n)
  | g_getStream s i c conn r g n :
      s_calls s !! i = Some c → c_pc c = GotConn conn →
      getStream (c_to c) conn (s_g s) (s_net s) = (r, g, n) →
      gstep s (set_call i c (match r with Ok cs => GotStream conn cs | Err e => Returned (Err e) end) s g n)
  | g_sendOn s i c conn cs r g n :
      s_calls s !! i = Some c → c_pc c = GotStream conn cs →
      sendOn conn cs (c_payload c) (s_g s) (s_net s) = (r, g, n) →
      gstep s (set_call i c (Returned r) s g n)
  | g_close s : gstep s (MkSys (GClose (s_g s)) (s_net s) (s_calls s)).
End transport.
