(* ===== verification/GrpcFacts.v ===== *)
(** * What the gRPC transport guarantees

    Whatever calls fail and however concurrent sends interleave: a message only
    goes to the address it was sent to, a send that returned nil had its message
    accepted exactly once and one that returned an error never, at most two tries
    per send, one client stream per address, and the configured credentials. *)

From stdpp Require Import relations.
From S2P Require Import Prelude Encoding Grpc.

Section facts.
Context {N : NetEnv}.

Definition conn_addr (n : net) (c : nat) : option string := fst <$> dialed n !! c.
Definition stream_addr (n : net) (s : nat) : option string := opened n !! s ≫= conn_addr n.

(** The library only adds. *)
Definition net_ext (n n' : net) : Prop :=
  dialed n `prefix_of` dialed n' ∧ opened n `prefix_of` opened n'.
#[global] Instance net_ext_preorder : PreOrder net_ext.
Proof. split; [done|]. intros n1 n2 n3 [? ?] [? ?]. split; by etransitivity. Qed.

Lemma conn_addr_ext n n' c a : net_ext n n' → conn_addr n c = Some a → conn_addr n' c = Some a.
Proof.
  unfold conn_addr. intros [[l Hl] _] Hc. apply fmap_Some in Hc as (d & Hd & ->).
  rewrite Hl, lookup_app_l by (by eapply lookup_lt_Some). by rewrite Hd.
Qed.
Lemma stream_addr_ext n n' s a : net_ext n n' → stream_addr n s = Some a → stream_addr n' s = Some a.
Proof.
  unfold stream_addr. intros He Hs. apply bind_Some in Hs as (c & Hc & Ha).
  destruct He as [Hd [l Hl]] eqn:?. rewrite Hl, lookup_app_l by (by eapply lookup_lt_Some).
  rewrite Hc. cbn. by eapply conn_addr_ext.
Qed.

(** [A] has the address of every client stream. *)
Record ginv (A : list string) (g : GRPCTransport) (n : net) : Prop := {
  gi_conns a c : g_conns g !! a = Some c → conn_addr n c = Some a;
  gi_streams a cs : g_streams g !! a = Some cs ↔ A !! cs = Some a;
  gi_length : length A = length (g_cs g);
  gi_cs cs s a : g_cs g !! cs = Some s → A !! cs = Some a → stream_addr n s = Some a;
  gi_creds : Forall (λ d, d.2 = creds_of g) (dialed n) }.

Lemma ginv_ext A g n n' :
  ginv A g n → net_ext n n' → Forall (λ d, d.2 = creds_of g) (dialed n') → ginv A g n'.
Proof.
  intros [H1 H2 H3 H4 H5] He Hc. split; [|done|done| |done].
  - intros a c Ha. by eapply conn_addr_ext, H1.
  - intros cs s a Hs Ha. by eapply stream_addr_ext, H4.
Qed.

Lemma getConn_spec A g n a r g' n' :
  ginv A g n → getConn a g n = (r, g', n') →
  ginv A g' n' ∧ net_ext n n' ∧ sent n' = sent n ∧ creds_of g' = creds_of g ∧
  ∀ c, r = Ok c → conn_addr n' c = Some a.
Proof.
  intros Hi. unfold getConn, Dial. destruct (g_conns g !! a) as [c|] eqn:Hc.
  { intros [= <- <- <-]. split; [done|]. split; [done|]. do 2 (split; [done|]).
    intros c' [= <-]. by apply (gi_conns _ _ _ Hi). }
  destruct (net_ok (calls n)); intros [= <- <- <-].
  - assert (net_ext n (MkNet (dialed n ++ [(a, creds_of g)]) (opened n) (sent n) (S (calls n)))) as He
      by (split; [by eexists|done]).
    set (n' := MkNet _ _ _ _) in *.
    assert (conn_addr n' (length (dialed n)) = Some a) as Ha.
    { unfold conn_addr, n'. cbn [dialed]. by rewrite list_lookup_middle. }
    split; [|split; [done|split; [done|split; [done|by intros c [= <-]]]]].
    assert (ginv A g n') as Hi'.
    { apply (ginv_ext A g n); [done..|]. apply Forall_app; split; [apply Hi|by repeat constructor]. }
    destruct Hi' as [H1 H2 H3 H4 H5]. split; [|done..]. cbn [set_conns g_conns].
    intros b c Hb. destruct (decide (b = a)) as [->|Hne].
    + rewrite lookup_insert_eq in Hb. by simplify_eq.
    + rewrite lookup_insert_ne in Hb by done. by apply H1.
  - split; [|split; [done|split; [done|split; [done|done]]]].
    apply (ginv_ext A g n); [done|done|apply Hi].
Qed.

Lemma getStream_spec A g n to k r g' n' :
  ginv A g n → conn_addr n k = Some to → getStream to k g n = (r, g', n') →
  ∃ A', A `prefix_of` A' ∧ ginv A' g' n' ∧ net_ext n n' ∧ sent n' = sent n ∧ creds_of g' = creds_of g ∧
    ∀ cs, r = Ok cs → A' !! cs = Some to.
Proof.
  intros Hi Hk. unfold getStream, NewStream. destruct (g_streams g !! to) as [cs|] eqn:Hs.
  { intros [= <- <- <-]. exists A. do 5 (split; [done|]).
    intros cs' [= <-]. by apply (gi_streams _ _ _ Hi). }
  destruct (net_ok (calls n)); intros [= <- <- <-].
  - set (n' := MkNet _ _ _ _).
    assert (net_ext n n') as He by (split; [done|by eexists]).
    exists (A ++ [to]). split; [by eexists|].
    assert (ginv A g n') as [H1 H2 H3 H4 H5] by (apply (ginv_ext A g n); [done|done|apply Hi]).
    split; [|split; [done|split; [done|split; [done|]]]].
    + split; cbn [set_streams g_conns g_streams g_cs]; [done| | | |done].
      * intros a cs. destruct (decide (a = to)) as [->|Hne].
        { rewrite lookup_insert_eq, lookup_app. rewrite <- H3. split.
          - intros [= <-]. rewrite (lookup_ge_None_2 A) by lia. by rewrite Nat.sub_diag.
          - destruct (A !! cs) as [b|] eqn:Hb; [intros [= ->]; apply H2 in Hb; congruence|].
            intros Hl. apply lookup_lt_Some in Hl as Hlt. apply lookup_ge_None_1 in Hb. cbn in Hlt. f_equal. lia. }
        rewrite lookup_insert_ne by done. rewrite H2, lookup_app.
        destruct (A !! cs) as [b|] eqn:Hb; [done|]. split; [done|].
        intros [= Hl]%list_elem_of_lookup_2%list_elem_of_singleton. congruence.
      * by rewrite !length_app, H3.
      * intros cs s a Hcs Ha. destruct (decide (cs < length A)%nat) as [Hlt|Hge].
        { rewrite lookup_app_l in Hcs by lia. rewrite lookup_app_l in Ha by done. by apply (H4 cs). }
        rewrite lookup_app_r in Hcs by lia. rewrite lookup_app_r in Ha by lia.
        apply list_lookup_singleton_Some in Hcs as [_ <-], Ha as [_ <-].
        unfold stream_addr, n'. cbn [opened]. rewrite list_lookup_middle by done. exact Hk.
    + intros cs [= <-]. rewrite lookup_app_r by lia. by rewrite H3, Nat.sub_diag.
  - exists A. split; [done|]. split; [|done]. apply (ginv_ext A g n); [done|done|apply Hi].
Qed.

Definition accepted_here (e : nat * list byte * bool) : Prop := e.2 = true.
#[global] Instance accepted_here_dec e : Decision (accepted_here e).
Proof. unfold accepted_here; apply _. Defined.
Definition is_ok {A} (r : res A) : bool := match r with Ok _ => true | Err _ => false end.

(** The tries of one send. *)
Definition tries_of (n : net) (to : string) (p : list byte) (r : res unit)
    (evs : list (nat * list byte * bool)) : Prop :=
  (length evs ≤ 2)%nat ∧ Forall (λ e, e.1.2 = p ∧ stream_addr n e.1.1 = Some to) evs ∧
  length (filter accepted_here evs) = Nat.b2n (is_ok r).

Lemma sendOn_spec A g n to p k cs r g' n' :
  ginv A g n → conn_addr n k = Some to → A !! cs = Some to → sendOn k cs p g n = (r, g', n') →
  ginv A g' n' ∧ net_ext n n' ∧ creds_of g' = creds_of g ∧
  ∃ evs, sent n' = sent n ++ evs ∧ tries_of n' to p r evs.
Proof.
  intros Hi Hk Hcs. unfold sendOn.
  destruct (g_cs g !! cs) as [s|] eqn:Hs.
  2: { apply lookup_ge_None_1 in Hs. apply lookup_lt_Some in Hcs. rewrite (gi_length _ _ _ Hi) in Hcs. lia. }
  pose proof (gi_cs _ _ _ Hi cs s to Hs Hcs) as Ha. unfold SendMsg at 1.
  set (n1 := MkNet _ _ _ _). assert (net_ext n n1) as He1 by done.
  assert (ginv A g n1) as Hi1 by (apply (ginv_ext A g n); [done|done|apply Hi]).
  destruct (net_ok (calls n)) eqn:H1.
  { intros [= <- <- <-]. do 3 (split; [done|]). exists [(s, p, true)]. split; [done|].
    split; [cbn; lia|]. split; [by repeat constructor|done]. }
  unfold NewStream. destruct (net_ok (calls n1)) eqn:H2; unfold SendMsg; intros [= <- <- <-].
  - set (n2 := MkNet _ _ _ _). assert (net_ext n n2) as He2 by (split; [done|by eexists]).
    assert (stream_addr n2 (length (opened n1)) = Some to) as Ha2.
    { unfold stream_addr, n2. cbn [opened]. rewrite list_lookup_middle by done. exact Hk. }
    split; [|split; [done|split; [done|]]].
    + assert (ginv A g n2) as [I1 I2 I3 I4 I5] by (apply (ginv_ext A g n); [done|done|apply Hi]).
      split; cbn [set_streams g_conns g_streams g_cs]; [done|done|by rewrite length_insert| |done].
      intros cs' s' a Hs' Ha'. destruct (decide (cs' = cs)) as [->|Hne].
      * rewrite list_lookup_insert_eq in Hs' by (by eapply lookup_lt_Some). simplify_eq. done.
      * rewrite list_lookup_insert_ne in Hs' by done. by apply (I4 cs').
    + eexists [_; _]. split; [unfold n2, n1; cbn [sent]; rewrite <- app_assoc; reflexivity|].
      split; [cbn; lia|]. split.
      * repeat constructor; [|done]. cbn. by eapply stream_addr_ext.
      * rewrite filter_cons_False by done. unfold n1. cbn [calls]. by destruct (net_ok (S (S (calls n)))).
  - split; [|split; [done|split; [done|]]].
    + apply (ginv_ext A g n); [done|done|apply Hi].
    + exists [(s, p, false)]. split; [done|]. split; [cbn; lia|]. split; [by repeat constructor|done].
Qed.

(** ** All calls together *)

Definition call_inv (A : list string) (n : net) (c : call) : Prop :=
  match c_pc c with
  | Called | Returned _ => True
  | GotConn k => conn_addr n k = Some (c_to c)
  | GotStream k cs => conn_addr n k = Some (c_to c) ∧ A !! cs = Some (c_to c)
  end.

(** The sends of [p] to [to] that returned, and those that returned nil. *)
Definition returned (to : string) (p : list byte) (c : call) : bool :=
  bool_decide (c_to c = to) && bool_decide (c_payload c = p)
  && match c_pc c with Returned _ => true | _ => false end.
Definition returned_nil (to : string) (p : list byte) (c : call) : bool :=
  bool_decide (c_to c = to) && bool_decide (c_payload c = p)
  && match c_pc c with Returned r => is_ok r | _ => false end.
Definition count {X} (f : X → bool) (l : list X) : nat := length (filter (λ x, f x = true) l).

(** The messages with [p] handed to a stream of [to], and those accepted. *)
Definition tried (n : net) (to : string) (p : list byte) (e : nat * list byte * bool) : bool :=
  bool_decide (e.1.2 = p) && bool_decide (stream_addr n e.1.1 = Some to).
Definition accepted (n : net) (to : string) (p : list byte) (e : nat * list byte * bool) : bool :=
  tried n to p e && e.2.

Definition sys_inv (A : list string) (s : sys) : Prop :=
  ginv A (s_g s) (s_net s) ∧ Forall (call_inv A (s_net s)) (s_calls s) ∧
  Forall (λ e, is_Some (stream_addr (s_net s) e.1.1)) (sent (s_net s)) ∧
  ∀ to p,
    count (accepted (s_net s) to p) (sent (s_net s)) = count (returned_nil to p) (s_calls s) ∧
    (count (tried (s_net s) to p) (sent (s_net s)) ≤ 2 * count (returned to p) (s_calls s))%nat.

Lemma count_app {X} (f : X → bool) l1 l2 : count f (l1 ++ l2) = (count f l1 + count f l2)%nat.
Proof. unfold count. by rewrite filter_app, length_app. Qed.
Lemma count_one {X} (f : X → bool) x : count f [x] = Nat.b2n (f x).
Proof. unfold count. rewrite filter_cons, filter_nil. by destruct (f x). Qed.
Lemma count_insert {X} (f : X → bool) l i x y :
  l !! i = Some x → (count f (<[i := y]> l) + Nat.b2n (f x) = count f l + Nat.b2n (f y))%nat.
Proof.
  intros Hi. rewrite <- (take_drop_middle l i x Hi) at 2.
  rewrite insert_take_drop by (by eapply lookup_lt_Some).
  change (y :: drop (S i) l) with ([y] ++ drop (S i) l). change (x :: drop (S i) l) with ([x] ++ drop (S i) l).
  rewrite !count_app, !count_one. lia.
Qed.
Lemma count_ext {X} (f g : X → bool) l : Forall (λ x, f x = g x) l → count f l = count g l.
Proof.
  unfold count. induction 1 as [|x l Hx _ IH]; [done|]. rewrite !filter_cons, Hx.
  case_decide; cbn [length]; [by rewrite IH|done].
Qed.

Lemma count_none {X} (f : X → bool) l : Forall (λ x, f x = false) l → count f l = 0%nat.
Proof.
  unfold count. induction 1 as [|x l Hf _ IH]; [done|]. rewrite filter_cons_False; [exact IH|]. by rewrite Hf.
Qed.

(** What was known of a message stays. *)
Lemma tried_ext n n' to p e :
  net_ext n n' → is_Some (stream_addr n e.1.1) → tried n' to p e = tried n to p e.
Proof.
  intros He [a Ha]. unfold tried. by rewrite Ha, (stream_addr_ext n n' _ a).
Qed.
Lemma counts_ext n n' to p evs :
  net_ext n n' → Forall (λ e, is_Some (stream_addr n e.1.1)) evs →
  count (accepted n' to p) evs = count (accepted n to p) evs ∧ count (tried n' to p) evs = count (tried n to p) evs.
Proof.
  intros He HF. split; apply count_ext; (eapply Forall_impl; [exact HF|]); intros e Hs; unfold accepted;
    by rewrite (tried_ext n n').
Qed.
Lemma call_inv_ext A A' n n' c : A `prefix_of` A' → net_ext n n' → call_inv A n c → call_inv A' n' c.
Proof.
  intros [l ->] He. unfold call_inv. destruct (c_pc c) as [|k|k cs|r]; try done.
  - by apply conn_addr_ext.
  - intros [Hk Hc]. split; [by eapply conn_addr_ext|]. rewrite lookup_app_l; [done|by eapply lookup_lt_Some].
Qed.

(** The first two sections of a send change neither count. *)
Lemma section_inv A A' s i c p g n :
  sys_inv A s → s_calls s !! i = Some c → (∀ r, c_pc c ≠ Returned r) →
  A `prefix_of` A' → ginv A' g n → net_ext (s_net s) n → sent n = sent (s_net s) →
  call_inv A' n (MkCall (c_to c) (c_payload c) p) → (∀ r, p = Returned r → is_ok r = false) →
  sys_inv A' (set_call i c p s g n).
Proof.
  intros (Hg & Hc & Hk & Hn) Hi Hpc HA Hg' He Hsent Hci Hp. split; [done|].
  cbn [set_call s_g s_net s_calls]. split.
  { apply Forall_insert; [|done]. eapply Forall_impl; [exact Hc|]. intros c'. by apply call_inv_ext. }
  rewrite Hsent. split.
  { eapply Forall_impl; [exact Hk|]. intros e [a Ha]. exists a. by eapply stream_addr_ext. }
  intros to q. destruct (counts_ext (s_net s) n to q (sent (s_net s)) He Hk) as [-> ->].
  destruct (Hn to q) as [H1 H2].
  pose proof (count_insert (returned_nil to q) _ i c (MkCall (c_to c) (c_payload c) p) Hi) as C1.
  pose proof (count_insert (returned to q) _ i c (MkCall (c_to c) (c_payload c) p) Hi) as C2.
  assert (returned_nil to q c = false ∧ returned to q c = false) as [R1 R2].
  { unfold returned_nil, returned. destruct (c_pc c) as [| | |r] eqn:Hr; [..|by destruct (Hpc r)];
      by rewrite !andb_false_r. }
  assert (returned_nil to q (MkCall (c_to c) (c_payload c) p) = false) as R3.
  { unfold returned_nil. cbn [c_to c_payload c_pc]. destruct p as [| | |r]; rewrite ?andb_false_r; try done.
    by rewrite (Hp r), andb_false_r. }
  rewrite R1, R3 in C1. rewrite R2 in C2. cbn [Nat.b2n] in *. split; lia.
Qed.

Lemma tries_counts n to p r evs to' q :
  tries_of n to p r evs →
  count (accepted n to' q) evs = (if decide (to = to' ∧ p = q) then Nat.b2n (is_ok r) else 0)%nat ∧
  (count (tried n to' q) evs ≤ if decide (to = to' ∧ p = q) then 2 else 0)%nat.
Proof.
  intros (Hl & HF & Ha). case_decide as Hd.
  - destruct Hd as [-> ->]. split; [|etransitivity; [apply length_filter|done]].
    rewrite <- Ha. unfold count. f_equal. clear -HF. induction HF as [|e evs [Hp He] _ IH]; [done|].
    rewrite !filter_cons, IH. unfold accepted, tried, accepted_here.
    rewrite !bool_decide_eq_true_2 by done. cbn [andb]. done.
  - assert (Forall (λ e, tried n to' q e = false) evs) as HF'.
    { eapply Forall_impl; [exact HF|]. intros e [Hp He]. unfold tried. rewrite Hp, He.
      destruct (decide (p = q)); [rewrite (bool_decide_eq_false_2 (Some to = Some to')) by naive_solver; by rewrite andb_false_r|].
      by rewrite (bool_decide_eq_false_2 (p = q)). }
    rewrite !count_none; [lia|done|]. eapply Forall_impl; [exact HF'|]. intros e He. unfold accepted. by rewrite He.
Qed.

Lemma returned_inv A s i c r g n evs :
  sys_inv A s → s_calls s !! i = Some c → (∀ r, c_pc c ≠ Returned r) →
  ginv A g n → net_ext (s_net s) n → sent n = sent (s_net s) ++ evs → tries_of n (c_to c) (c_payload c) r evs →
  sys_inv A (set_call i c (Returned r) s g n).
Proof.
  intros (Hg & Hc & Hk & Hn) Hi Hpc Hg' He Hsent Ht. split; [done|].
  cbn [set_call s_g s_net s_calls]. split.
  { apply Forall_insert; [|done]. eapply Forall_impl; [exact Hc|]. intros c'. by apply call_inv_ext. }
  rewrite Hsent. split.
  { apply Forall_app; split; [|destruct Ht as (_ & HF & _); eapply Forall_impl; [exact HF|]; intros e [_ ->]; by eexists].
    eapply Forall_impl; [exact Hk|]. intros e [a Ha]. exists a. by eapply stream_addr_ext. }
  intros to q. rewrite !count_app.
  destruct (counts_ext (s_net s) n to q (sent (s_net s)) He Hk) as [-> ->].
  destruct (Hn to q) as [H1 H2]. destruct (tries_counts n _ _ _ _ to q Ht) as [T1 T2].
  pose proof (count_insert (returned_nil to q) _ i c (MkCall (c_to c) (c_payload c) (Returned r)) Hi) as C1.
  pose proof (count_insert (returned to q) _ i c (MkCall (c_to c) (c_payload c) (Returned r)) Hi) as C2.
  assert (returned_nil to q c = false ∧ returned to q c = false) as [R1 R2].
  { unfold returned_nil, returned. destruct (c_pc c) as [| | |r'] eqn:Hr; [..|by destruct (Hpc r')];
      by rewrite !andb_false_r. }
  rewrite R1 in C1. rewrite R2 in C2.
  unfold returned_nil at 3 in C1. unfold returned at 3 in C2. cbn [c_to c_payload c_pc Nat.b2n] in *.
  case_decide as Hd.
  - destruct Hd as [<- <-]. rewrite (bool_decide_eq_true_2 (c_to c = c_to c)), (bool_decide_eq_true_2 (c_payload c = c_payload c)) in C1, C2 by done.
    cbn [andb Nat.b2n] in *. split; lia.
  - assert (bool_decide (c_to c = to) && bool_decide (c_payload c = q) = false) as Hf.
    { destruct (decide (c_to c = to)); [|by rewrite bool_decide_eq_false_2].
      rewrite (bool_decide_eq_false_2 (c_payload c = q)) by naive_solver. apply andb_false_r. }
    rewrite Hf in C1, C2. cbn [andb Nat.b2n] in *. split; lia.
Qed.

Lemma gstep_inv A s s' : sys_inv A s → gstep s s' → ∃ A', sys_inv A' s'.
Proof.
  intros Hs Hstep. pose proof Hs as (Hg & Hc & Hk & Hn).
  destruct Hstep as [s to p|s i c r g n Hi Hpc Hr|s i c k r g n Hi Hpc Hr|s i c k cs r g n Hi Hpc Hr|s];
    try (pose proof (Forall_lookup_1 _ _ _ _ Hc Hi) as Hci; unfold call_inv in Hci; rewrite Hpc in Hci).
  - exists A. split; [done|]. cbn [s_g s_net s_calls]. split; [apply Forall_app; by repeat constructor|].
    split; [done|]. intros to' q. rewrite !count_app, !count_one. unfold returned_nil at 2, returned at 2.
    cbn [c_pc]. rewrite !andb_false_r. cbn [Nat.b2n]. destruct (Hn to' q). split; lia.
  - destruct (getConn_spec A _ _ _ _ _ _ Hg Hr) as (Hg' & He & Hsent & _ & Hok). exists A.
    apply (section_inv A); try done; [by rewrite Hpc| |].
    + destruct r as [k|e]; cbn; [by apply Hok|done].
    + intros r' Heq. destruct r; [done|]. by injection Heq as <-.
  - destruct (getStream_spec A _ _ _ _ _ _ _ Hg Hci Hr) as (A' & HA & Hg' & He & Hsent & _ & Hok). exists A'.
    apply (section_inv A); try done; [by rewrite Hpc| |].
    + destruct r as [cs|e]; cbn; [|done]. split; [by eapply conn_addr_ext|by apply Hok].
    + intros r' Heq. destruct r; [done|]. by injection Heq as <-.
  - destruct Hci as [Hk' Hcs].
    destruct (sendOn_spec A _ _ _ _ _ _ _ _ _ Hg Hk' Hcs Hr) as (Hg' & He & _ & evs & Hsent & Ht).
    exists A. eapply returned_inv; [done|done| |done|done|done|done]. by rewrite Hpc.
  - exists A. split; [|done]. destruct Hg as [I1 I2 I3 I4 I5]. split; try done.
Qed.

(** The configuration of a transport does not change. *)
Lemma gstep_creds s s' : gstep s s' → creds_of (s_g s') = creds_of (s_g s).
Proof.
  destruct 1 as [s to p|s i c r g n _ _ Hr|s i c k r g n _ _ Hr|s i c k cs r g n _ _ Hr|s]; [done|..|done];
    cbn [set_call s_g]; revert Hr.
  - unfold getConn. destruct (g_conns _ !! _); [by intros [= _ <- _]|].
    destruct (Dial _ _ _) as [[]]; by intros [= _ <- _].
  - unfold getStream. destruct (g_streams _ !! _); [by intros [= _ <- _]|].
    destruct (NewStream _ _) as [[]]; by intros [= _ <- _].
  - unfold sendOn. destruct (g_cs _ !! _); [|by intros [= _ <- _]].
    destruct (SendMsg _ _ _) as [[] ?]; [by intros [= _ <- _]|].
    destruct (NewStream _ _) as [[] ?]; [|by intros [= _ <- _]].
    destruct (SendMsg _ _ _) as [? ?]. by intros [= _ <- _].
Qed.

(** There are as many client streams as addresses that have one. *)
Lemma ginv_streams A g n : ginv A g n → length (g_cs g) = size (g_streams g).
Proof.
  intros [_ H2 H3 _ _]. rewrite <- H3.
  assert (NoDup A) as Hnd.
  { apply NoDup_alt. intros i j a Hi%H2 Hj%H2. congruence. }
  rewrite <- (size_list_to_set (C := gset string) A) by done. rewrite <- (size_dom (D := gset string)).
  f_equal. apply set_eq. intros a. rewrite elem_of_list_to_set, elem_of_dom, list_elem_of_lookup. split.
  - intros [i Hi%H2]. by eexists.
  - intros [i Hi%H2]. by eexists.
Qed.

(** The credentials a configuration calls for. *)
Lemma new_creds listen files c g b :
  NewGRPCTransport listen files c = (Ok g, b) →
  creds_of g = if decide (serverCertFile c ≠ EmptyString ∧ serverKeyFile c ≠ EmptyString ∧ caFile c ≠ EmptyString)
               then TLS (bool_decide (clientCertFile c ≠ EmptyString ∧ clientKeyFile c ≠ EmptyString))
               else Insecure.
Proof.
  unfold NewGRPCTransport. destruct listen; cbn [negb]; [|done].
  repeat match goal with |- (if ?b then _ else _) = _ → _ => destruct b; [done|] end.
  intros [= <- _]. unfold creds_of, given. cbn [g_tls g_caPool g_clientCert].
  repeat case_bool_decide; cbn [andb negb]; case_decide; naive_solver.
Qed.

Definition sys_start (g : GRPCTransport) : sys := MkSys g NewNet [].
Definition fresh (g : GRPCTransport) : Prop := g_conns g = ∅ ∧ g_streams g = ∅ ∧ g_cs g = [].

Lemma sys_start_inv g : fresh g → sys_inv [] (sys_start g).
Proof.
  intros (H1 & H2 & H3). split; [|split; [done|split; [done|done]]].
  split; cbn [sys_start s_g s_net].
  - intros a c. by rewrite H1, lookup_empty.
  - intros a cs. rewrite H2, lookup_empty. by split.
  - by rewrite H3.
  - intros cs s a. by rewrite H3.
  - done.
Qed.
Lemma new_fresh listen files c g b : NewGRPCTransport listen files c = (Ok g, b) → fresh g.
Proof.
  unfold NewGRPCTransport. destruct listen; cbn [negb]; [|done].
  repeat match goal with |- (if ?b then _ else _) = _ → _ => destruct b end; try done.
  by intros [= <- _].
Qed.

(** C16: for a transport that was created, any number of concurrent sends, in any
    interleaving of their locked sections, with a close at any moment and any of
    the library's calls failing: as many messages with a payload were accepted by
    the streams of an address as sends of that payload to it returned nil (so a
    send that returned an error delivered nothing), and each send tried at most
    twice.  Every connection was made with the configured credentials: TLS when
    a server key pair and a CA were given, with the client certificate if one
    was given, and in the clear otherwise.  The stream of an address is made once
    and reused: there are exactly as many client streams as addresses that have
    one, and no two addresses share one. *)
Theorem grpc_send_exact listen files c g b s :
  NewGRPCTransport listen files c = (Ok g, b) → rtc gstep (sys_start g) s →
  (∀ to p,
    count (accepted (s_net s) to p) (sent (s_net s)) = count (returned_nil to p) (s_calls s) ∧
    (count (tried (s_net s) to p) (sent (s_net s)) ≤ 2 * count (returned to p) (s_calls s))%nat) ∧
  Forall (λ d, d.2 =
      if decide (serverCertFile c ≠ EmptyString ∧ serverKeyFile c ≠ EmptyString ∧ caFile c ≠ EmptyString)
      then TLS (bool_decide (clientCertFile c ≠ EmptyString ∧ clientKeyFile c ≠ EmptyString))
      else Insecure) (dialed (s_net s)) ∧
  Forall (λ e, ∃ to, tried (s_net s) to e.1.2 e = true) (sent (s_net s)) ∧
  length (g_cs (s_g s)) = size (g_streams (s_g s)) ∧
  (∀ a a' cs, g_streams (s_g s) !! a = Some cs → g_streams (s_g s) !! a' = Some cs → a = a').
Proof.
  intros Hnew Hs.
  assert ((∃ A, sys_inv A s) ∧ creds_of (s_g s) = creds_of g) as [(A & Hg & _ & Hk & Hn) Hcr].
  { assert ((∃ A, sys_inv A (sys_start g)) ∧ creds_of (s_g (sys_start g)) = creds_of g) as Hi
      by (split; [exists []; eapply sys_start_inv, new_fresh, Hnew|done]).
    clear Hnew. induction Hs as [|s1 s2 s3 H12 _ IH]; [done|]. apply IH. destruct Hi as [[A Hi] Hc].
    split; [by eapply gstep_inv|]. by rewrite (gstep_creds _ _ H12). }
  split; [done|]. rewrite (new_creds _ _ _ _ _ Hnew) in Hcr. split_and!.
  - pose proof (gi_creds _ _ _ Hg) as Hf. by rewrite Hcr in Hf.
  - eapply Forall_impl; [exact Hk|]. intros e [a Ha]. exists a. unfold tried.
    by rewrite !bool_decide_eq_true_2.
  - by eapply ginv_streams.
  - intros a a' cs H1 H2. apply (gi_streams _ _ _ Hg) in H1, H2. congruence.
Qed.

(** ** Configurations *)

(** A transport is created exactly when it can listen and every file it was
    given loads; its peers are dialled with TLS when it has a server key pair and
    a CA, and in the clear otherwise, whatever client certificate it has. *)
Theorem grpc_config_outcomes listen files c :
  (∃ g b, NewGRPCTransport listen files c = (Ok g, b) ∧
     creds_of g = (if given (serverCertFile c) && given (serverKeyFile c) && given (caFile c)
                   then TLS (given (clientCertFile c) && given (clientKeyFile c)) else Insecure))
  ↔ listen = true ∧
    (given (serverCertFile c) && given (serverKeyFile c) = true →
       load_pair files (serverCertFile c) (serverKeyFile c) = true) ∧
    (given (clientCertFile c) && given (clientKeyFile c) = true →
       load_pair files (clientCertFile c) (clientKeyFile c) = true) ∧
    (given (caFile c) = true → load_ca files (caFile c) = true).
Proof.
  unfold NewGRPCTransport. destruct listen; cbn [negb]; [|naive_solver].
  destruct (given (serverCertFile c) && given (serverKeyFile c)) eqn:Hs,
    (given (clientCertFile c) && given (clientKeyFile c)) eqn:Hc, (given (caFile c)) eqn:Ha,
    (load_pair files (serverCertFile c) (serverKeyFile c)) eqn:L1,
    (load_pair files (clientCertFile c) (clientKeyFile c)) eqn:L2,
    (load_ca files (caFile c)) eqn:L3; cbn [andb negb];
    (split; [intros (g & b & He & _); try discriminate; repeat split; done|];
     intros (_ & H1 & H2 & H3);
     try (specialize (H1 eq_refl); discriminate); try (specialize (H2 eq_refl); discriminate);
     try (specialize (H3 eq_refl); discriminate); by eexists _, _).
Qed.

(** The listener stays open when the files are refused. *)
Theorem grpc_refused_config_listens files c e b :
  NewGRPCTransport true files c = (Err e, b) → b = true.
Proof.
  unfold NewGRPCTransport. cbn [negb].
  repeat match goal with |- (if ?b then _ else _) = _ → _ => destruct b end; by intros [= _ <-].
Qed.

(** A transport whose server requires TLS dials its peers in the clear when it
    was given no CA. *)
Theorem grpc_plaintext_without_ca files c g b :
  NewGRPCTransport true files c = (Ok g, b) → caFile c = EmptyString → creds_of g = Insecure.
Proof.
  intros Hn Hca. unfold NewGRPCTransport in Hn. cbn [negb] in Hn.
  rewrite Hca in Hn. change (given EmptyString) with false in Hn.
  repeat match type of Hn with (if ?b then _ else _) = _ => destruct b end; try done.
  injection Hn as <- _. unfold creds_of. cbn. by destruct (_ && _).
Qed.
End facts.

(** ** Witnesses *)

(** The fourth call fails: the first message of the second send. *)
#[local] Instance flaky : NetEnv := λ k, negb (Nat.eqb k 3).
Definition all_files : certs := MkCerts (λ _ _, true) (λ _, true).
Definition tls_config : config := MkConfig "s.crt" "s.key" "ca.crt" "c.crt" "c.key".
Definition tls_transport : GRPCTransport := MkGrpc ∅ ∅ [] true true true.

Definition two_sends : sys :=
  MkSys (MkGrpc {["n2"%string := 0%nat]} {["n2"%string := 0%nat]} [1%nat] true true true)
    (MkNet [("n2"%string, TLS true)] [0; 0]%nat
       [(0%nat, [x61], true); (0%nat, [x62], false); (1%nat, [x62], true)] 6)
    [MkCall "n2" [x61] (Returned (Ok tt)); MkCall "n2" [x62] (Returned (Ok tt))].

Lemma two_sends_run : rtc gstep (sys_start tls_transport) two_sends.
Proof.
  eapply rtc_l; [apply (g_call _ "n2" [x61])|]. eapply rtc_l; [apply (g_call _ "n2" [x62])|]. cbn.
  eapply rtc_l; [eapply (g_getConn _ 0%nat); vm_compute; reflexivity|].
  eapply rtc_l; [eapply (g_getConn _ 1%nat); vm_compute; reflexivity|].
  eapply rtc_l; [eapply (g_getStream _ 0%nat); vm_compute; reflexivity|].
  eapply rtc_l; [eapply (g_getStream _ 1%nat); vm_compute; reflexivity|].
  eapply rtc_l; [eapply (g_sendOn _ 0%nat); vm_compute; reflexivity|].
  eapply rtc_l; [eapply (g_sendOn _ 1%nat); vm_compute; reflexivity|].
  vm_compute. apply rtc_refl.
Qed.

Lemma grpc_send_exact_witness :
  count (accepted (s_net two_sends) "n2" [x62]) (sent (s_net two_sends)) = 1%nat ∧
  count (tried (s_net two_sends) "n2" [x62]) (sent (s_net two_sends)) = 2%nat.
Proof.
  destruct (grpc_send_exact true all_files tls_config tls_transport true two_sends) as (Hc & _);
    [vm_compute; reflexivity|exact two_sends_run|].
  destruct (Hc "n2"%string [x62]) as [Ha _]. rewrite Ha. split; vm_compute; reflexivity.
Defined.
