(* ===== verification/Node.v ===== *)
(** * The raft node: messages and life cycle
    ([src/broker/internal/raft/node.go], [transport.go])

    The loops that [Start] runs beside the storage: outgoing messages are resolved
    to an address, encoded and handed to the transport, incoming ones decoded and
    stepped; [Stop] and [Propose].  The raft library and its message encoding are
    parameters; the transport is an interface with the code's three instances. *)

From S2P Require Import Prelude Encoding OS Segment Samples SegmentFacts Wal WalFacts Raft Grpc.

(** ** Transports *)

(** [Transport]; [None] is a panic. *)
Class Transport (T : Type) := {
  tr_send : string → list byte → T → option (res unit * T);
  tr_close : T → T }.

(** [noopTransport] *)
#[export] Instance noopTransport : Transport unit :=
  {| tr_send _ _ t := Some (Ok tt, t); tr_close t := t |}.
#[export] Instance inprocTransport : Transport InProcTransport :=
  {| tr_send := Raft.Send; tr_close := Raft.Close |}.
#[export] Instance grpcTransport {N : NetEnv} : Transport (GRPCTransport * net) :=
  {| tr_send to payload gn :=
       let '(r, g, n) := GSend to payload gn.1 gn.2 in Some (r, (g, n));
     tr_close gn := (GClose gn.1, gn.2) |}.

(** Where a node's messages come in, by the type of its transport: a channel of its
    own, the handler of the server, or nowhere. *)
Inductive inbox := NoInbox | ChanInbox (i : nat) | HandlerInbox.
Class Attach (T : Type) := attach : Z → T → inbox * T.
#[export] Instance noop_attach : Attach unit := λ _ t, (NoInbox, t).
(** A refused registration leaves the node without a receiver. *)
#[export] Instance inproc_attach : Attach InProcTransport := λ id t,
  match Register (String.string_of_list_byte (sprintf_d id)) t with
  | (Ok i, t) => (ChanInbox i, t)
  | (Err _, t) => (NoInbox, t)
  end.
#[export] Instance grpc_attach {N : NetEnv} : Attach (GRPCTransport * net) := λ _ t, (HandlerInbox, t).

(** ** Messages *)

(** [raftpb.Message]: where it goes, and the rest. *)
Record Message := MkMessage { To : Z; Body : list byte }.
Class MessageCodec := {
  marshalMessage : Message → option (list byte);
  unmarshalMessage : list byte → option Message }.
Class MessageCodecLaws `{MessageCodec} : Prop :=
  message_roundtrip m b : marshalMessage m = Some b → unmarshalMessage b = Some m.

(** What the node uses of the library besides its storage. *)
Class RaftLib := {
  RaftNode : Type;
  StartNode : Z → list Z → RaftNode;
  lib_Step : Message → RaftNode → res unit * RaftNode;
  lib_Propose : list byte → RaftNode → res unit * RaftNode;
  lib_Tick : RaftNode → RaftNode;
  lib_Stop : RaftNode → RaftNode }.

Section node.
Context `{MessageCodec} `{RaftLib} {T : Type} `{Transport T}.

(** *** Out *)

Definition addr_of (peerAddrs : option (gmap Z string)) (to : Z) : string :=
  let addr := String.string_of_list_byte (sprintf_d to) in
  match peerAddrs with None => addr | Some m => default addr (m !! to) end.

(** One message; the error of the transport is ignored. *)
Definition sendMessage (peerAddrs : option (gmap Z string)) (m : Message) (t : T) : option T :=
  match marshalMessage m with
  | None => Some t
  | Some b => '(_, t) ← tr_send (addr_of peerAddrs (To m)) b t; Some t
  end.
(** The loop over [rd.Messages]; a nil transport drops them. *)
Fixpoint sendMessages (peerAddrs : option (gmap Z string)) (msgs : list Message) (tr : option T)
    : option (option T) :=
  match msgs with
  | [] => Some tr
  | m :: msgs =>
      match tr with
      | None => sendMessages peerAddrs msgs tr
      | Some t => t ← sendMessage peerAddrs m t; sendMessages peerAddrs msgs (Some t)
      end
  end.

(** *** In *)

(** The goroutine on an in-process channel: what cannot be decoded is skipped,
    errors of the library are ignored. *)
Fixpoint receiveLoop (payloads : list (list byte)) (n : RaftNode) : RaftNode :=
  match payloads with
  | [] => n
  | b :: payloads =>
      match unmarshalMessage b with
      | None => receiveLoop payloads n
      | Some m => receiveLoop payloads (lib_Step m n).2
      end
  end.
(** The handler registered with the gRPC transport. *)
Definition grpcHandler (b : list byte) (n : RaftNode) : res unit * RaftNode :=
  match unmarshalMessage b with
  | None => (Err (ErrMsg "proto"), n)
  | Some m => lib_Step m n
  end.

(** *** Life cycle *)

Record Node := MkRaftNode {
  nd_id : Z;
  nd_store : option path;        (* the directory of the [walStorage], or nil *)
  nd_tr : option T;
  nd_lib : option RaftNode;      (* nil before [Start] *)
  nd_stopped : bool;             (* [stopc] is closed *)
  nd_peers : list Z;
  nd_peerAddrs : option (gmap Z string) }.

Definition NewNode (id : Z) (store : option path) (tr : option T) : Node :=
  MkRaftNode id store tr None false [] None.

Definition set_lib (lib : option RaftNode) (n : Node) : Node :=
  MkRaftNode (nd_id n) (nd_store n) (nd_tr n) lib (nd_stopped n) (nd_peers n) (nd_peerAddrs n).
Definition set_tr (tr : option T) (n : Node) : Node :=
  MkRaftNode (nd_id n) (nd_store n) tr (nd_lib n) (nd_stopped n) (nd_peers n) (nd_peerAddrs n).

(** The part of [Start] that makes the library's node: alone when it has no peers. *)
Definition startLib (n : Node) : Node :=
  let peers := match nd_peers n with [] => [nd_id n] | ps => ps end in
  set_lib (Some (StartNode (nd_id n) peers)) n.

Definition Stop (n : Node) : Node :=
  if nd_stopped n then n
  else MkRaftNode (nd_id n) (nd_store n) (nd_tr n) (lib_Stop <$> nd_lib n) true (nd_peers n) (nd_peerAddrs n).

Definition Propose (data : list byte) (n : Node) : res unit * Node :=
  match nd_lib n with
  | None => (Ok tt, n)
  | Some lib => (Ok tt, set_lib (Some (lib_Propose data lib).2) n)
  end.

(** The ticker's goroutine, on the list of its ticks and the stop ([None]). *)
Fixpoint tickLoop (evs : list (option unit)) (lib : RaftNode) : RaftNode :=
  match evs with
  | [] | None :: _ => lib
  | Some _ :: evs => tickLoop evs (lib_Tick lib)
  end.
End node.

(** ** The ready loop *)

Section ready.
Context {E : Env} {P : EntryCodec} {M : MemoryStorage} `{MessageCodec} {T : Type} `{Transport T}.

Record Ready := MkReady {
  rd_Snapshot : Snapshot;        (* index 0 for none *)
  rd_Entries : list Entry;
  rd_Messages : list Message }.

(** One turn: the snapshot and the entries, the messages, the checkpoint. *)
Definition readyTurn (off : option Offloader) (store : option path) (id : Z)
    (peerAddrs : option (gmap Z string)) (rd : Ready) (n : NodeState) (tr : option T) (w : world)
    : option (NodeState * option T * world) :=
  let '(n, w) := applyReady store (rd_Snapshot rd) (rd_Entries rd) n w in
  tr ← sendMessages peerAddrs (rd_Messages rd) tr;
  Some (n, tr, checkpoint off store id (rd_Entries rd) w).

(** Until the stop ([None]) is received. *)
Fixpoint readyLoop (off : option Offloader) (store : option path) (id : Z)
    (peerAddrs : option (gmap Z string)) (evs : list (option Ready)) (n : NodeState) (tr : option T)
    (w : world) : option (NodeState * option T * world) :=
  match evs with
  | [] | None :: _ => Some (n, tr, w)
  | Some rd :: evs =>
      '(n, tr, w) ← readyTurn off store id peerAddrs rd n tr w;
      readyLoop off store id peerAddrs evs n tr w
  end.

(** [Start] up to its goroutines: recovery, the library's node, the inbox; it
    returns no error. *)
Definition Start `{RaftLib} `{Attach T} (off : option Offloader) (nd : Node (T := T)) (w : world)
    : Node * NodeState * inbox * world :=
  let '(st, w) := recover off (nd_store nd) w in
  let nd := startLib nd in
  match nd_tr nd with
  | None => (nd, st, NoInbox, w)
  | Some t => let '(i, t) := attach (nd_id nd) t in (set_tr (Some t) nd, st, i, w)
  end.
End ready.
