(* ===== verification/NodeFacts.v ===== *)
(** * What the raft node's loops deliver

    Over the in-process transport: a batch of messages sent while the receiving
    goroutine runs, in every interleaving of the two.  What the receiver steps is
    an in-order selection of the messages addressed to it; a message is dropped,
    without an error, when the buffer is full and the receiver is not waiting. *)

From S2P Require Import Prelude Encoding OS Segment Samples SegmentFacts Wal WalFacts Raft RaftProps Grpc Node.

Section facts.
Context `{MessageCodec} `{RaftLib}.

(** Registered channels are open and no two addresses share one. *)
Definition usable (t : InProcTransport) : Prop :=
  (∀ a i, ip_peers t !! a = Some i → ∃ c, ip_chans t !! i = Some c ∧ c_closed c = false) ∧
  (∀ a a' i, ip_peers t !! a = Some i → ip_peers t !! a' = Some i → a = a').

(** *** Sending while the receiver runs *)

(** Who moves: the sender with its next message, the goroutine on channel [i], or
    another user of the transport. *)
Inductive dv_ev := DvSend | DvRecv | DvOther (o : tr_op).

(** Others may register, send to other addresses and receive on other channels,
    but not unregister or close. *)
Definition other_ok (addr : string) (i : nat) (ev : dv_ev) : Prop :=
  match ev with
  | DvSend | DvRecv | DvOther (TrRegister _) => True
  | DvOther (TrSend to _) => to ≠ addr
  | DvOther (TrReceive j) => j ≠ i
  | DvOther (TrUnregister _) | DvOther TrClose => False
  end.

Definition nothing_noted : tr_log := MkTrLog (λ _, []) (λ _, []).

(** The loop over [rd.Messages] and the receiving loop of another node, step by
    step; [None] is a panic. *)
Fixpoint deliver (pa : option (gmap Z string)) (i : nat) (evs : list dv_ev) (msgs : list Message)
    (t : InProcTransport) (n : RaftNode) : option (list Message * InProcTransport * RaftNode) :=
  match evs with
  | [] => Some (msgs, t, n)
  | DvSend :: evs =>
      match msgs with
      | [] => deliver pa i evs [] t n
      | m :: msgs => t ← sendMessage pa m t; deliver pa i evs msgs t n
      end
  | DvRecv :: evs =>
      let '(b, t) := Receive i t in
      deliver pa i evs msgs t (match b with Some b => receiveLoop [b] n | None => n end)
  | DvOther o :: evs => '(t, _) ← tr_step o t nothing_noted; deliver pa i evs msgs t n
  end.

(** Nobody in between: the loop that [readyTurn] runs. *)
Lemma deliver_alone pa i msgs : ∀ t n,
  deliver pa i (replicate (length msgs) DvSend) msgs t n =
  (r ← sendMessages pa msgs (Some t); t ← r; Some ([], t, n)).
Proof.
  induction msgs as [|m msgs IH]; intros t n; cbn [length replicate deliver sendMessages]; [done|].
  destruct (sendMessage pa m t) as [t1|]; cbn [mbind option_bind]; [apply IH|done].
Qed.

(** The transport while it is used: open, distinct channels within their buffers. *)
Definition sound (t : InProcTransport) : Prop := usable t ∧ Forall (chan_ok (ip_buf t)) (ip_chans t).

Lemma sound_inv t :
  sound t ↔ tr_inv t (MkTrLog (pending_of t) (λ _, [])).
Proof. unfold sound, usable. split; [intros [[? ?] ?]; by split|intros [_ ? ? ?]; done]. Qed.

(** Any send, with the effect on one peer's channel. *)
Lemma send_sound addr i to b t :
  sound t → ip_peers t !! addr = Some i →
  ∃ r t', Raft.Send to b t = Some (r, t') ∧ sound t' ∧ ip_peers t' = ip_peers t ∧ ip_buf t' = ip_buf t ∧
    (pending_of t' i = pending_of t i ++ [b] ∧ to = addr
     ∨ pending_of t' i = pending_of t i ∧ (to = addr → ip_buf t ≤ length (pending_of t i))%nat).
Proof.
  intros [[Ho Hinj] Hok] Hi. unfold Raft.Send, SendLookup. destruct (ip_peers t !! to) as [k|] eqn:Hk.
  2: { eexists _, t. split; [done|]. split; [by split|]. do 2 (split; [done|]). right. split; [done|].
       intros ->. congruence. }
  destruct (Ho _ _ Hk) as (c & Hc & Hcl). pose proof (Forall_lookup_1 _ _ _ _ Hok Hc) as Hcok.
  assert (k = i ↔ to = addr) as Hki.
  { split; [intros ->; by apply (Hinj _ _ i)|intros ->; congruence]. }
  destruct (SendChan_open to k b t c Hc Hcl Hcok) as [(c' & -> & Hcl' & Hok' & Hp)|(-> & _ & Hlen)].
  - eexists _, _. split; [done|]. split_and!; [|done|done|].
    + split; [split; [|done]|by apply Forall_insert]. intros a j Ha.
      eapply set_chan_open; [exact Hc|congruence|by eapply Ho|exact Ha].
    + rewrite (set_chan_pending _ c) by done. case_decide as Hd.
      * left. split; [|apply Hki; congruence]. subst. rewrite Hp. unfold pending_of. by rewrite Hc.
      * right. split; [done|]. intros <-%Hki. done.
  - eexists _, t. split; [done|]. split; [by split|]. do 2 (split; [done|]). right. split; [done|].
    intros ->%Hki. unfold pending_of. rewrite Hc, <- Hlen. unfold pending. destruct (c_recv c); simpl; lia.
Qed.

(** Another user's move leaves the peer's channel alone. *)
Lemma other_sound addr i o t :
  sound t → ip_peers t !! addr = Some i → other_ok addr i (DvOther o) →
  ∃ t' l', tr_step o t nothing_noted = Some (t', l') ∧ sound t' ∧ ip_peers t' !! addr = Some i
    ∧ ip_buf t' = ip_buf t ∧ pending_of t' i = pending_of t i.
Proof.
  intros HS Hi Ho.
  assert (∀ l t' l', tr_step o t l = Some (t', l') → sound t' ∧ ip_buf t' = ip_buf t) as Hk.
  { intros l t' l' Hs.
    assert (∃ l2, tr_step o t (MkTrLog (pending_of t) (λ _, [])) = Some (t', l2)) as [l2 Hs2].
    { revert Hs. destruct o; cbn [tr_step]; try (intros [= <- _]; by eexists);
        repeat case_match; intros [= <- _]; by eexists. }
    destruct (tr_step_inv _ _ _ _ _ (proj1 (sound_inv t) HS) Hs2) as [HI Hb]. split; [|done].
    destruct HI as [_ ? ? ?]. by split. }
  destruct o as [a|a|to b|j|]; try done.
  - eexists _, _. split; [done|]. destruct (Hk nothing_noted _ _ eq_refl) as [H1 H2]. split_and!; [done| |done|].
    + cbn. unfold Register. destruct (ip_closed t); [done|]. destruct (ip_peers t !! a) eqn:Ha; [done|].
      cbn. rewrite lookup_insert_ne; [done|]. congruence.
    + unfold Register. destruct (ip_closed t); [done|]. destruct (ip_peers t !! a); [done|].
      unfold pending_of. cbn. destruct HS as [[Hop _] _]. destruct (Hop _ _ Hi) as (c & Hc & _).
      by rewrite lookup_app_l by (by eapply lookup_lt_Some).
  - destruct (send_sound addr i to b t HS Hi) as (r & t' & Hs & HS' & Hp & Hb & Hq). cbn [other_ok] in Ho.
    cbn [tr_step]. rewrite Hs.
    assert (pending_of t' i = pending_of t i) as Hq' by (destruct Hq as [[_ ?]|[? _]]; done).
    destruct r; [destruct (SendLookup to t)|]; eexists _, _; (split; [done|]); rewrite Hp; done.
  - cbn [tr_step]. cbn [other_ok] in Ho.
    assert (∃ l', (match Receive j t with
      | (Some m, t') => Some (t', MkTrLog (accepted nothing_noted) (note (received nothing_noted) j m))
      | (None, t') => Some (t', nothing_noted) end) = Some ((Receive j t).2, l')) as [l' Hl]
      by (destruct (Receive j t) as [[m|] t']; by eexists).
    eexists _, l'. split; [exact Hl|]. destruct (Hk _ _ _ Hl) as [H1 H2]. split_and!; [done| |done|].
    + unfold Receive. destruct (ip_chans t !! j) as [c|]; [|done].
      destruct (c_recv c), (queue c); try done. by destruct (c_closed c).
    + destruct (ip_chans t !! j) as [c|] eqn:Hc; [|unfold Receive; by rewrite Hc].
      destruct (Receive_chan j t c Hc) as (c' & -> & _); [by eapply Forall_lookup_1; [apply HS|]|].
      rewrite (set_chan_pending _ c) by done. by rewrite decide_False.
Qed.

Lemma receiveLoop_messages `{!MessageCodecLaws} ms bs n :
  Forall2 (λ m b, marshalMessage m = Some b) ms bs →
  receiveLoop bs n = fold_left (λ n m, (lib_Step m n).2) ms n.
Proof.
  intros HF. revert n. induction HF as [|m b ms bs Hm _ IH]; intros n; [done|].
  cbn [receiveLoop fold_left]. by rewrite (message_roundtrip m b), IH.
Qed.

(** The delivery so far: what was stepped, what is pending, and what was sent. *)
Record delivery (addr : string) (i : nat) (buf : nat) (n0 : RaftNode) (sent : list Message)
    (stepped pend : list Message) (t : InProcTransport) (n : RaftNode) : Prop := {
  dv_sound : sound t;
  dv_peer : ip_peers t !! addr = Some i;
  dv_buf : ip_buf t = buf;
  dv_pend : Forall2 (λ m b, marshalMessage m = Some b) pend (pending_of t i);
  dv_node : n = fold_left (λ n m, (lib_Step m n).2) stepped n0;
  dv_order : sublist (stepped ++ pend) sent;
  dv_first : take buf sent `prefix_of` stepped ++ pend }.

(** Within the buffer nothing is lost. *)
Lemma delivery_full {X} buf (got sent : list X) :
  sublist got sent → take buf sent `prefix_of` got → (length sent ≤ buf)%nat → got = sent.
Proof.
  intros Hs Hp Hl. rewrite take_ge in Hp by done. symmetry.
  apply prefix_length_eq; [done|by apply sublist_length].
Qed.

Lemma delivery_send addr i buf n0 sent stepped pend t n m b r t' :
  delivery addr i buf n0 sent stepped pend t n → marshalMessage m = Some b →
  sound t' → ip_peers t' !! addr = Some i → ip_buf t' = ip_buf t →
  (pending_of t' i = pending_of t i ++ [b] ∧ r = true
   ∨ pending_of t' i = pending_of t i ∧ (buf ≤ length (pending_of t i))%nat ∧ r = false) →
  delivery addr i buf n0 (sent ++ [m]) stepped (if r : bool then pend ++ [m] else pend) t' n.
Proof.
  intros [H1 H2 H3 H4 H5 H6 H7] Hm Hs Hp Hb Hq.
  pose proof (Forall2_length _ _ _ H4) as Hlen. pose proof (sublist_length _ _ H6) as Hle. rewrite length_app in Hle.
  destruct Hq as [[Hq ->]|(Hq & Hfull & ->)].
  - split; try done; [congruence|rewrite Hq; apply Forall2_app; [done|by constructor]| |].
    + rewrite app_assoc. by apply sublist_app.
    + rewrite app_assoc. destruct (decide (length sent < buf)%nat) as [Hlt|Hge].
      * rewrite (delivery_full buf (stepped ++ pend) sent) by (done || lia). apply prefix_take.
      * rewrite take_app_le by lia. by apply prefix_app_r.
  - split; try done; [congruence|by rewrite Hq|by apply sublist_inserts_r|].
    rewrite take_app_le by lia. done.
Qed.

(** The sender's move. *)
Lemma deliver_send pa addr i buf n0 sent stepped pend t n m :
  delivery addr i buf n0 sent stepped pend t n → is_Some (marshalMessage m) →
  ∃ t1 pend1, sendMessage pa m t = Some t1
    ∧ delivery addr i buf n0 (sent ++ filter (λ m, addr_of pa (To m) = addr) [m]) stepped pend1 t1 n.
Proof.
  intros HD [b Hb]. pose proof HD as [D1 D2 D3 D4 D5 D6 D7]. subst buf. unfold sendMessage. rewrite Hb.
  destruct (send_sound addr i (addr_of pa (To m)) b t D1 D2) as (r & t1 & Hs & HS1 & Hp1 & Hb1 & Hq).
  change (tr_send (addr_of pa (To m)) b t) with (Raft.Send (addr_of pa (To m)) b t). rewrite Hs.
  cbn [mbind option_bind]. exists t1. rewrite filter_cons, filter_nil.
  destruct (decide (addr_of pa (To m) = addr)) as [Ha|Ha].
  - destruct Hq as [[Hq _]|[Hq Hfull]].
    + exists (pend ++ [m]). split; [done|].
      apply (delivery_send _ _ _ _ _ _ _ _ _ m b true _ HD Hb HS1); [by rewrite Hp1|done|by left].
    + exists pend. split; [done|].
      apply (delivery_send _ _ _ _ _ _ _ _ _ m b false _ HD Hb HS1); [by rewrite Hp1|done|right; auto].
  - exists pend. split; [done|]. rewrite app_nil_r. destruct Hq as [[_ ?]|[Hq _]]; [done|].
    split; try done; [by rewrite Hp1|by rewrite Hq].
Qed.

(** The receiver's move. *)
Lemma deliver_receive `{!MessageCodecLaws} addr i buf n0 sent stepped pend t n :
  delivery addr i buf n0 sent stepped pend t n →
  let '(ob, t1) := Receive i t in
  ∃ stepped1 pend1, delivery addr i buf n0 sent stepped1 pend1 t1
    (match ob with Some b => receiveLoop [b] n | None => n end).
Proof.
  intros [[[Hop Hinj] Hok] D2 D3 D4 D5 D6 D7]. destruct (Hop _ _ D2) as (c & Hc & Hcl).
  destruct (Receive_chan i t c Hc) as (c' & Ht & Hcl' & Hok' & Hp); [by eapply Forall_lookup_1|].
  destruct (Receive i t) as [ob t1]. cbn [fst snd] in *. subst t1.
  assert (sound (set_chan i c' t)) as HS1.
  { split; [split; [|done]|by apply Forall_insert]. intros a j Ha.
    eapply set_chan_open; [exact Hc|done|by eapply Hop|exact Ha]. }
  assert (pending_of (set_chan i c' t) i = pending c') as Hpc
    by (rewrite (set_chan_pending _ c) by done; by rewrite decide_True).
  assert (pending_of t i = pending c) as Hpt by (unfold pending_of; by rewrite Hc).
  rewrite Hpt in D4. destruct ob as [b|].
  - rewrite Hp in D4. inversion D4 as [|m ? pend1 ? Hmb Hrest]; subst. cbn [receiveLoop].
    rewrite (message_roundtrip m b Hmb). exists (stepped ++ [m]), pend1.
    rewrite cons_middle, app_assoc in D6, D7.
    split; try done; [by rewrite Hpc|by rewrite fold_left_app].
  - destruct Hp as [Hp0 Hp1]. exists stepped, pend.
    split; try done. rewrite Hpc, Hp1. by rewrite Hp0 in D4.
Qed.

Lemma deliver_inv `{!MessageCodecLaws} pa addr i buf n0 evs : ∀ sent stepped pend msgs t n,
  delivery addr i buf n0 sent stepped pend t n →
  Forall (λ m, is_Some (marshalMessage m)) msgs → Forall (other_ok addr i) evs →
  ∃ gone rest t' n' stepped' pend', deliver pa i evs msgs t n = Some (rest, t', n') ∧ msgs = gone ++ rest ∧
    delivery addr i buf n0 (sent ++ filter (λ m, addr_of pa (To m) = addr) gone) stepped' pend' t' n'.
Proof.
  induction evs as [|ev evs IH]; intros sent stepped pend msgs t n HD HM HF.
  { exists [], msgs, t, n, stepped, pend. cbn. by rewrite app_nil_r. }
  inversion HF as [|? ? Hev HF']; subst. destruct ev as [| |o]; cbn [deliver].
  - destruct msgs as [|m msgs]; [by eapply IH|]. inversion HM as [|? ? Hm HM']; subst.
    destruct (deliver_send pa _ _ _ _ _ _ _ _ _ m HD Hm) as (t1 & pend1 & -> & HD1). cbn [mbind option_bind].
    destruct (IH _ _ _ msgs _ _ HD1 HM' HF') as (gone & rest & t' & n' & st' & pe' & Hr & -> & HD').
    exists (m :: gone), rest, t', n', st', pe'. split; [done|]. split; [done|].
    by rewrite <- app_assoc, <- filter_app in HD'.
  - pose proof (deliver_receive _ _ _ _ _ _ _ _ _ HD) as HR. destruct (Receive i t) as [ob t1].
    destruct HR as (stepped1 & pend1 & HD1). by eapply IH.
  - pose proof HD as [D1 D2 D3 D4 D5 D6 D7].
    destruct (other_sound addr i o t D1 D2 Hev) as (t1 & l1 & -> & HS1 & Hp1 & Hb1 & Hq1).
    cbn [mbind option_bind]. apply (IH sent stepped pend); [|done|done].
    split; try done; [congruence|by rewrite Hq1].
Qed.

(** C32: a node sends a batch of messages over the in-process transport while the
    goroutine of a registered peer receives, and others register, send to other
    peers and receive on other channels, in any interleaving.  As long as nobody
    unregisters or closes, nothing panics (with an unregister in between it
    does: [send_unregister_race]).  At every point the peer has stepped its
    library with a selection, in order, of the messages addressed to it that
    were sent so far; together with what is pending for it that selection has
    all of the first ones, as many as the buffer holds, so none is lost while
    they fit.  Only the batch goes to that peer, and its channel starts empty. *)
Theorem node_inproc_delivery `{!MessageCodecLaws} pa addr i evs msgs t n :
  sound t → ip_peers t !! addr = Some i → pending_of t i = [] →
  Forall (λ m, is_Some (marshalMessage m)) msgs → Forall (other_ok addr i) evs →
  ∃ gone rest t' n' stepped pend,
    deliver pa i evs msgs t n = Some (rest, t', n') ∧ msgs = gone ++ rest
    ∧ n' = fold_left (λ n m, (lib_Step m n).2) stepped n
    ∧ Forall2 (λ m b, marshalMessage m = Some b) pend (pending_of t' i)
    ∧ (length pend ≤ S (ip_buf t))%nat
    ∧ let sent := filter (λ m, addr_of pa (To m) = addr) gone in
      sublist (stepped ++ pend) sent ∧ take (ip_buf t) sent `prefix_of` stepped ++ pend.
Proof.
  intros HS Hi Hq HM HF.
  assert (delivery addr i (ip_buf t) n [] [] [] t n) as HD.
  { split; try done; [by rewrite Hq|by rewrite take_nil]. }
  destruct (deliver_inv pa addr i (ip_buf t) n evs [] [] [] msgs t n HD HM HF)
    as (gone & rest & t' & n' & stepped & pend & Hr & Hm & [[[Hop _] Hok] Hp Hb H4 H5 H6 H7]).
  exists gone, rest, t', n', stepped, pend. split_and!; try done.
  rewrite (Forall2_length _ _ _ H4). unfold pending_of. destruct (Hop _ _ Hp) as (c & Hc & _). rewrite Hc.
  destruct (Forall_lookup_1 _ _ _ _ Hok Hc) as [Hl _]. rewrite Hb in Hl.
  unfold pending. destruct (c_recv c); simpl; lia.
Qed.

(** A message the peer cannot decode is skipped in process, and ends the stream
    over gRPC: what follows it is not stepped. *)
Theorem undecodable_message b payloads n h :
  unmarshalMessage b = None →
  receiveLoop (b :: payloads) n = receiveLoop payloads n ∧
  ∃ e, serveStream (Some grpcHandler) (SMessage b :: h) n = (Err e, n).
Proof. intros Hb. cbn. unfold grpcHandler. rewrite Hb. split; [done|by eexists]. Qed.

(** [Stop] stops the library once, and [Propose] reports success whatever became
    of the proposal. *)
Theorem stop_once_propose_nil {T} (nd : Node (T := T)) data id store (tr : option T) :
  Stop (Stop nd) = Stop nd ∧ (Propose data nd).1 = Ok tt ∧
  (Propose data (NewNode id store tr)).2 = NewNode id store tr.
Proof.
  split; [|split; [|done]].
  - unfold Stop. destruct (nd_stopped nd) eqn:Hs; [by rewrite Hs|done].
  - unfold Propose. by destruct (nd_lib nd).
Qed.
End facts.

(** ** Witnesses *)

#[local] Instance byte_messages : MessageCodec := {|
  marshalMessage m := if decide (0 ≤ To m < 256) then Some (byte_of_Z (To m) :: Body m) else None;
  unmarshalMessage b := match b with x :: body => Some (MkMessage (Z_of_byte x) body) | [] => None end |}.
#[local] Instance byte_messages_laws : MessageCodecLaws.
Proof.
  intros [to body] b. cbn. case_decide as Hr; [|done]. intros [= <-]. by rewrite Z_of_byte_of_Z, Z.mod_small by lia.
Qed.
(** A library that remembers what it was given. *)
#[local] Instance recorder : RaftLib := {|
  RaftNode := list Message; StartNode _ _ := []; lib_Step m n := (Ok tt, n ++ [m]);
  lib_Propose _ n := (Ok tt, n); lib_Tick n := n; lib_Stop n := n |}.

Definition idle : RaftNode := @nil Message.

(** No buffer at all: a message gets through when the receiver waits for it. *)
Definition two_peers : InProcTransport :=
  MkInProc {["1" := 0%nat; "2" := 1%nat]}%string [MkChan [] false Away; MkChan [] false Away] 0 false.
Lemma two_peers_sound : sound two_peers.
Proof.
  assert (∀ a i, ip_peers two_peers !! a = Some i → a = "1"%string ∧ i = 0%nat ∨ a = "2"%string ∧ i = 1%nat) as Hp.
  { intros a i Ha. cbn in Ha. apply lookup_insert_Some in Ha as [[<- <-]|[_ Ha]]; [by left|].
    apply lookup_singleton_Some in Ha as [<- <-]. by right. }
  split; [split|].
  - intros a i [[-> ->]|[-> ->]]%Hp; by eexists.
  - intros a a' i Ha%Hp Ha'%Hp. naive_solver.
  - repeat constructor.
Qed.

Definition batch : list Message :=
  [MkMessage 2 [x61]; MkMessage 1 [x62]; MkMessage 2 [x63]; MkMessage 9 [x64]; MkMessage 2 [x65]].

(** The receiver of node 2 waits, is handed the first message, misses the second
    while it steps the first, waits again and gets the third. *)
Definition turns : list dv_ev :=
  [DvRecv; DvSend; DvSend; DvSend; DvOther (TrReceive 0); DvRecv; DvRecv; DvSend; DvSend; DvRecv].

Lemma node_inproc_delivery_witness :
  ∃ t' n', deliver None 1 turns batch two_peers idle = Some ([], t', n') ∧
    n' = [MkMessage 2 [x61]; MkMessage 2 [x65]] ∧ pending_of t' 1 = [] ∧
    sublist n' (filter (λ m, To m = 2) batch).
Proof.
  destruct (node_inproc_delivery None "2"%string 1 turns batch two_peers idle)
    as (gone & rest & t' & n' & stepped & pend & Hr & Hm & Hn & HP & _ & Hsub & _).
  - exact two_peers_sound.
  - reflexivity.
  - reflexivity.
  - repeat constructor; by eexists.
  - repeat constructor; discriminate.
  - vm_compute in Hr. injection Hr as <- <- <-. eexists _, _. split; [reflexivity|].
    split; [reflexivity|]. split; [reflexivity|]. vm_compute. repeat constructor.
Defined.
