(* ===== verification/Offload.v ===== *)
(** * Backups and snapshots kept elsewhere
    ([src/broker/storage/offload.go], [src/cmd/backup/main.go])

    The S3 offloader over its client library, the backup command over either
    offloader, and what a round trip of a backup or of a snapshot returns. *)

From S2P Require Import Prelude Encoding OS Segment Samples SegmentFacts Wal WalFacts.

(** ** The S3 offloader *)

(** The client library. *)
Class Minio := {
  mc_New : string → bool;
  BucketExists : string → world → res bool * world;
  MakeBucket : string → world → res unit * world;
  PutObject : string → string → list byte → Z → world → res unit * world;
  GetObject : string → string → world → res (list byte) * world;
  ListObjects : string → string → world → list (res string) * world }.

Section s3.
Context {S3 : Minio}.

(** The location the code returns is only printed. *)
Definition S3Upload (bucket key : string) (r : list byte) (w : world) : res unit * world :=
  match BucketExists bucket w with
  | (Err e, w) => (Err e, w)
  | (Ok exists', w) =>
      match (if exists' then (Ok tt, w) else MakeBucket bucket w) with
      | (Err e, w) => (Err e, w)
      | (Ok _, w) => PutObject bucket key r (zlen r) w
      end
  end.
Definition S3Download (bucket key : string) (w : world) : res (list byte) * world :=
  GetObject bucket key w.
Fixpoint collectKeys (objs : list (res string)) (out : list string) : res (list string) :=
  match objs with
  | [] => Ok out
  | Err e :: _ => Err e
  | Ok k :: objs => collectKeys objs (out ++ [k])
  end.
Definition S3List (bucket prefix : string) (w : world) : res (list string) * world :=
  let '(objs, w) := ListObjects bucket prefix w in (collectKeys objs [], w).

Definition S3Offloader : Offloader := {| Upload := S3Upload; Download := S3Download; List := S3List |}.
Definition NewS3Offloader (endpoint : string) : option Offloader :=
  if mc_New endpoint then Some S3Offloader else None.
End s3.

(** ** The local offloader *)

(** The error of making the directory is ignored. *)
Definition NewLocalOffloader `{Env} (dir : path) (w : world) : Offloader * world :=
  (LocalOffloader dir, (MkdirAll dir w).2).

(** ** The backup command *)

Record flags := MkFlags {
  f_s3 : bool;
  f_dir : path;
  f_endpoint : string;
  f_bucket : string;
  f_key : string;
  f_download : bool;
  f_args : list path }.

Section backup.
Context {E : Env} {S3 : Minio}.

(** What [io.Copy] reads of the file being uploaded: the destination is truncated
    before, so nothing when it is the same file. *)
Definition upload_reads (f : flags) (src : path) (data : list byte) : list byte :=
  if decide (f_s3 f = false ∧ Join (Join (f_dir f) (f_bucket f)) (f_key f) = src) then [] else data.

Definition download (off : Offloader) (f : flags) (dst : path) (w : world) : option (Z * world) :=
  match Download (Offloader := off) (f_bucket f) (f_key f) w with
  | (Err _, w) => Some (1, w)
  | (Ok rc, w) =>
      match OpenTrunc dst w with
      | (Err _, w) => Some (1, w)
      | (Ok _, w) => match Write dst rc w with (Err _, w) => Some (1, w) | (Ok _, w) => Some (0, w) end
      end
  end.

(** The result of [Stat] is used whether it failed or not: [None] is the panic. *)
Definition upload (off : Offloader) (f : flags) (src : path) (w : world) : option (Z * world) :=
  match Open src w with
  | (Err _, w) => Some (1, w)
  | (Ok data, w) =>
      match StatSize src w with
      | (Err _, w) => None
      | (Ok _, w) =>
          match Upload (Offloader := off) (f_bucket f) (f_key f) (upload_reads f src data) w with
          | (Err _, w) => Some (1, w)
          | (Ok _, w) => Some (0, w)
          end
      end
  end.

(** The exit code. *)
Definition backup (f : flags) (w : world) : option (Z * world) :=
  match f_args f with
  | [] => Some (2, w)
  | file :: _ =>
      let '(off, w) :=
        if f_s3 f then (NewS3Offloader (f_endpoint f), w)
        else let '(o, w) := NewLocalOffloader (f_dir f) w in (Some o, w) in
      match off with
      | None => Some (1, w)
      | Some off => if f_download f then download off f file w else upload off f file w
      end
  end.
End backup.

(** ** Round trips *)

Section facts.
Context {E : Env} {HR : Reliable E} {S3 : Minio}.

(** Directories can be made down to [p]. *)
Definition dirs_free (w : world) (p : path) : Prop :=
  Forall (λ r, file w (p.1, r) = None) (suffixes p.2).

Lemma MkdirAll_reliable p w :
  dirs_free w p →
  ∃ w', MkdirAll p w = (Ok tt, w') ∧ (∀ q, file w' q = file w q) ∧
    ∀ q, w_nodes w' !! q = if decide (q.1 = p.1 ∧ q.2 ∈ suffixes p.2) then Some Dir else w_nodes w !! q.
Proof.
  intros Hf. destruct (MkdirAll p w) as [r w'] eqn:Hm. pose proof Hm as Hm'.
  unfold MkdirAll in Hm. rewrite bool_decide_eq_false_2, reliable in Hm.
  - injection Hm as <- <-. eexists. split; [done|]. split; [intros q; by eapply MkdirAll_file|].
    intros q. rewrite add_dirs_lookup. cbn [tick w_nodes].
    destruct (decide (q.1 = p.1 ∧ q.2 ∈ suffixes p.2)) as [[H1 H2]|Hn].
    + rewrite decide_True; [done|]. split; [done|]. by apply elem_of_reverse.
    + rewrite decide_False; [done|]. intros [H1 H2]. rewrite elem_of_reverse in H2. by apply Hn.
  - intros (r0 & Hin & Hs)%Exists_exists. rewrite elem_of_reverse in Hin.
    eapply Forall_forall in Hf; [|exact Hin]. cbn in Hf. rewrite Hf in Hs. by destruct Hs.
Qed.

Lemma Open_reliable p w d : file w p = Some d → Open p w = (Ok d, tick w).
Proof.
  unfold Open, ReadFile, file. intros Hf. rewrite reliable.
  destruct (w_nodes w !! p) as [[|d']|]; by simplify_eq.
Qed.
Lemma StatSize_reliable p w d : file w p = Some d → StatSize p w = (Ok (zlen d), tick w).
Proof. intros Hf. unfold StatSize. by rewrite reliable, Hf. Qed.

(** Creating a file and copying into it. *)
Lemma create_copy p data w :
  w_nodes w !! p ≠ Some Dir → is_Some (w_nodes w !! p) ∨ parent_ok w p = true →
  ∃ w1 w', OpenTrunc p w = (Ok tt, w1) ∧ Write p data w1 = (Ok tt, w') ∧ file w' p = Some data ∧
    ∀ q, q ≠ p → w_nodes w' !! q = w_nodes w !! q.
Proof.
  intros Hd Hp. eexists _, _. split; [by apply OpenTrunc_reliable|].
  split; [apply Write_reliable; apply file_set_node_eq|]. split; [apply file_set_node_eq|].
  intros q Hq. cbn. by rewrite !lookup_insert_ne.
Qed.

(** What an upload to the local directory leaves. *)
Lemma local_upload_spec D B K d w :
  plain B = true → plain K = true → dirs_free w (Join D B) →
  let obj := (D.1, K :: B :: D.2) in
  w_nodes w !! obj ≠ Some Dir →
  ∃ w', LocalUpload D B K d w = (Ok tt, w') ∧ file w' obj = Some d ∧
    ∀ q, q ≠ obj →
      w_nodes w' !! q = if decide (q.1 = D.1 ∧ q.2 ∈ suffixes (B :: D.2)) then Some Dir else w_nodes w !! q.
Proof.
  intros HB HK Hfree obj Hobj. unfold LocalUpload.
  destruct (MkdirAll_reliable (Join D B) w Hfree) as (w1 & Hm & _ & Hn). rewrite Hm.
  rewrite (Join_plain D B) in * by done. cbn [fst snd] in *.
  rewrite (Join_plain (D.1, B :: D.2) K) by done. cbn [fst snd]. fold obj.
  assert (w_nodes w1 !! obj = w_nodes w !! obj) as Ho.
  { rewrite Hn, decide_False; [done|]. intros [_ Hin%suffixes_length]. cbn in Hin. lia. }
  destruct (create_copy obj d w1) as (w2 & w3 & H1 & H2 & H3 & H4).
  - by rewrite Ho.
  - right. unfold obj, parent_ok. cbn [fst snd]. rewrite Hn. cbn [fst snd].
    rewrite decide_True; [done|]. split; [done|]. by left.
  - exists w3. rewrite H1. split; [done|]. split; [done|]. intros q Hq. by rewrite H4, Hn.
Qed.

Lemma dirs_free_sub w D B : plain B = true → dirs_free w (Join D B) → dirs_free w D.
Proof.
  intros HB Hf. unfold dirs_free in *. rewrite Join_plain in Hf by done. cbn in Hf. by inversion Hf.
Qed.

Definition made (D : path) (l : list string) (q : path) : Prop := q.1 = D.1 ∧ q.2 ∈ suffixes l.
#[export] Instance made_dec D l q : Decision (made D l q).
Proof. unfold made; apply _. Defined.

(** Where a file can be written, it still can after directories were made. *)
Lemma writable_kept D l (keep : path → Prop) w w' p :
  writable w p → ¬ made D l p → (∀ q, keep q → w_nodes w !! q ≠ Some Dir) → ¬ keep p →
  (∀ q, ¬ keep q → w_nodes w' !! q = if decide (made D l q) then Some Dir else w_nodes w !! q) →
  w_nodes w' !! p ≠ Some Dir ∧ (is_Some (w_nodes w' !! p) ∨ parent_ok w' p = true).
Proof.
  intros Hw Hm Hkeep Hp Hn. rewrite Hn, decide_False by done. unfold writable, file in Hw.
  destruct (w_nodes w !! p) as [[|d]|]; [by destruct Hw as [[? ?]|[? _]]|by split; [|left; eexists]|].
  split; [done|]. right. destruct Hw as [[? ?]|[_ Hpar]]; [done|]. unfold parent_ok in *.
  destruct (p.2) as [|x [|y r]]; [done|done|].
  destruct (w_nodes w !! (p.1, y :: r)) as [[|]|] eqn:Hd; try done.
  rewrite Hn by (intros Hk; by apply (Hkeep _ Hk)). rewrite Hd. by case_decide.
Qed.

(** The two runs of the command. *)
Lemma backup_upload D B K ep src d w :
  plain B = true → plain K = true → file w src = Some d →
  let obj := (D.1, K :: B :: D.2) in
  dirs_free w (Join D B) → w_nodes w !! obj ≠ Some Dir → src ≠ obj →
  ∃ w1, backup (MkFlags false D ep B K false [src]) w = Some (0, w1) ∧ file w1 obj = Some d ∧
    ∀ q, q ≠ obj →
      w_nodes w1 !! q = if decide (made D (B :: D.2) q) then Some Dir else w_nodes w !! q.
Proof.
  intros HB HK Hsrc obj Hfree Hobj Hso.
  destruct (MkdirAll_reliable D w (dirs_free_sub w D B HB Hfree)) as (w0 & Hm0 & Hf0 & Hn0).
  destruct (local_upload_spec D B K d (tick (tick w0))) as (w1 & Hu & Hd1 & Hn1); [done|done| | |].
  { unfold dirs_free. eapply Forall_impl; [exact Hfree|]. intros r Hr. cbn in *.
    rewrite !file_tick. by rewrite Hf0. }
  { cbn [tick w_nodes]. fold obj. rewrite Hn0, decide_False; [done|].
    intros [_ Hin%suffixes_length]. cbn in Hin. lia. }
  exists w1. split; [|split; [done|]].
  - unfold backup, NewLocalOffloader. cbn [f_args f_s3 f_dir f_download]. rewrite Hm0. cbn [snd].
    unfold upload. rewrite (Open_reliable src w0 d) by (by rewrite Hf0).
    rewrite (StatSize_reliable src _ d) by (by rewrite file_tick, Hf0).
    unfold upload_reads. cbn [f_s3 f_dir f_bucket f_key]. rewrite decide_False.
    + cbn [Upload LocalOffloader]. by rewrite Hu.
    + intros [_ He]. apply Hso. rewrite !Join_plain in He by done. by rewrite <- He.
  - intros q Hq. rewrite Hn1 by done. destruct (decide (made D (B :: D.2) q)) as [Hd|Hd];
      [by rewrite decide_True by exact Hd|]. rewrite decide_False by exact Hd. cbn [tick w_nodes].
    rewrite Hn0, decide_False; [done|]. intros [H1 H2]. apply Hd. split; [done|]. by right.
Qed.

Lemma backup_download D B K ep dst d w :
  plain B = true → plain K = true →
  let obj := (D.1, K :: B :: D.2) in
  file w obj = Some d → dirs_free w D → ¬ made D D.2 dst → writable w dst →
  ∃ w2, backup (MkFlags false D ep B K true [dst]) w = Some (0, w2) ∧ file w2 dst = Some d.
Proof.
  intros HB HK obj Hobj Hfree Hdst Hwr.
  destruct (MkdirAll_reliable D w Hfree) as (w1 & Hm & Hf & Hn).
  destruct (writable_kept D D.2 (λ _, False) w (tick w1) dst) as [H1 H2]; [done|done|done|tauto| |].
  { intros q _. cbn [tick w_nodes]. rewrite Hn.
    destruct (decide (made D D.2 q)) as [Hd|Hd]; [by rewrite decide_True|by rewrite decide_False]. }
  destruct (create_copy dst d (tick w1) H1 H2) as (w3 & w4 & Ht & Hw & Hd4 & _).
  exists w4. split; [|done].
  unfold backup, NewLocalOffloader. cbn [f_args f_s3 f_dir f_download]. rewrite Hm. cbn [snd].
  unfold download. cbn [f_bucket f_key Download LocalOffloader]. unfold LocalDownload.
  assert (Join (Join D B) K = obj) as -> by (by rewrite !Join_plain).
  rewrite (Open_reliable obj w1 d) by (by rewrite Hf). by rewrite Ht, Hw.
Qed.


(** ** Snapshots *)

Definition snap_name (now : Z) : string := "snapshot." +:+ nano_string now +:+ ".snap".
(** The snapshots in a directory. *)
Definition snapshots (dir : path) (w : world) : list string := snap_names (dir_entries dir w).

Lemma elem_of_snapshots dir w name :
  name ∈ snapshots dir w ↔ is_snap_name name = true ∧ is_Some (file w (dir.1, name :: dir.2)).
Proof.
  unfold snapshots, snap_names. rewrite list_elem_of_omap. split.
  - intros ([x b] & Hin & He). apply elem_of_dir_entries in Hin as (n & Hn & ->). cbn in He.
    destruct n as [|data]; [done|]. cbn in He. destruct (is_snap_name x) eqn:Hx; [|done].
    injection He as <-. split; [done|]. unfold file. rewrite Hn. by eexists.
  - intros [Hx [data Hd]]. unfold file in Hd.
    destruct (w_nodes w !! _) as [[|d]|] eqn:Hn; try done.
    exists (name, false). split; [apply elem_of_dir_entries; by exists (File d)|]. cbn. by rewrite Hx.
Qed.

Lemma snap_name_ok now : plain (snap_name now) = true ∧ is_snap_name (snap_name now) = true.
Proof.
  destruct (sprintf_d_num (wrap64 now)) as [Hne HF]; [apply wrap64_int64|].
  pose proof (num_bytes_no_slash _ HF) as Hs. unfold snap_name, nano_string.
  destruct (sprintf_d (wrap64 now)) as [|x l]; [done|].
  change (String.string_of_list_byte (x :: l))
    with (String (Ascii.ascii_of_byte x) (String.string_of_list_byte l)) in *.
  set (rest := String.string_of_list_byte l) in *. split.
  - unfold plain. rewrite has_char_append, has_char_append, Hs. by rewrite !bool_decide_eq_false_2 by done.
  - unfold is_snap_name, has_prefix. rewrite (bool_decide_eq_true_2 (9 < _)%nat); [done|]. simpl. lia.
Qed.

Lemma latest_name_max m names : m ∈ names → (∀ x, x ∈ names → String.le x m) → m ≠ EmptyString → latest_name names = m.
Proof.
  intros Hin Hle Hm. unfold latest_name.
  cut (∀ acc, (acc = EmptyString ∨ String.le acc m) → (m ∈ names ∨ acc = m) →
    fold_left (λ latest name, if bool_decide (latest = EmptyString) || negb (bool_decide (String.le name latest))
      then name else latest) names acc = m); [intros Hc; apply Hc; by left|].
  clear Hin. induction names as [|x names IH]; intros acc Ha Hmem; cbn [fold_left].
  { by destruct Hmem as [?%not_elem_of_nil|]. }
  assert (String.le x m) as Hx by (apply Hle; by left).
  apply IH; [intros y Hy; apply Hle; by right| |].
  - destruct (_ || _); [by right|done].
  - destruct (decide (acc = m)) as [->|Hne].
    + rewrite bool_decide_eq_false_2 by done. rewrite bool_decide_eq_true_2 by done. by right.
    + destruct Hmem as [[->|?]%elem_of_cons|]; [|by left|done]. right.
      destruct Ha as [->|Ha]; [done|]. rewrite (bool_decide_eq_false_2 (String.le x acc)); [by rewrite orb_true_r|].
      intros Hxa. by apply Hne, (anti_symm String.le).
Qed.

(** An upload to a local directory, whatever fails, touches nothing but the object
    and the directories above it. *)
Lemma LocalUpload_frame D B K d w q :
  plain B = true → plain K = true → q ≠ (D.1, K :: B :: D.2) → ¬ made D (B :: D.2) q →
  w_nodes (LocalUpload D B K d w).2 !! q = w_nodes w !! q.
Proof.
  intros HB HK Hq Hm. unfold LocalUpload. rewrite (Join_plain D B) by done.
  assert (w_nodes (MkdirAll (D.1, B :: D.2) w).2 !! q = w_nodes w !! q) as H1.
  { unfold MkdirAll. cbn [fst snd]. case_bool_decide; [done|].
    assert (∀ ds, (∀ x, x ∈ ds → x ∈ reverse (suffixes (B :: D.2))) →
      w_nodes (add_dirs D.1 ds (tick w)) !! q = w_nodes w !! q) as Hd.
    { intros ds Hds. rewrite add_dirs_lookup. rewrite decide_False; [done|].
      intros [Ha Hin%Hds]. rewrite elem_of_reverse in Hin. by apply Hm. }
    destruct (env_fault (w_tick w)) as [[|k]|]; [done| |]; apply Hd; [|done].
    intros x Hx. eapply elem_of_take in Hx as (j & Hj & _). by eapply list_elem_of_lookup_2. }
  destruct (MkdirAll _ w) as [[[]|] w1]; cbn [snd] in H1; [|done].
  rewrite (Join_plain (D.1, B :: D.2) K) by done. cbn [fst snd].
  destruct (OpenTrunc _ w1) as [r2 w2] eqn:E2. apply OpenTrunc_cases in E2 as [E2 _].
  destruct r2; cbn [snd]; [|by rewrite E2].
  destruct (Write _ d w2) as [r3 w3] eqn:E3. apply Write_cases in E3 as [E3 _]. cbn [snd].
  by rewrite E3, E2.
Qed.

(** C33: without faults, a snapshot that is saved in a directory without later
    snapshots is what the next load returns, with any offloader for the load and,
    for the save, none or one whose upload of that snapshot leaves the directory
    and its files alone (such as a local one in another directory,
    [LocalUpload_frame]; its errors are ignored). *)
Theorem snapshot_save_load off off' dir r w :
  let name := snap_name (env_clock (w_tick w)) in
  w_nodes w !! dir = Some Dir → w_nodes w !! (dir.1, name :: dir.2) ≠ Some Dir →
  (∀ x, x ∈ snapshots dir w → String.le x name) →
  (∀ o, off = Some o → ∀ w0 q, q = dir ∨ (∃ x, q = (dir.1, x :: dir.2)) →
     w_nodes (Upload (Offloader := o) "snapshots" name r w0).2 !! q = w_nodes w0 !! q) →
  ∃ id w', SaveSnapshot off dir r w = (Ok id, w') ∧ (LoadSnapshot off' dir w').1 = Ok r.
Proof.
  intros name Hdir Hnd Hmax Hup. destruct (snap_name_ok (env_clock (w_tick w))) as [Hpl Hsn].
  fold name in Hpl, Hsn. set (p := (dir.1, name :: dir.2)) in *.
  assert (Join dir name = p) as Hj by (by rewrite Join_plain).
  assert (dir ≠ p) as Hdp.
  { intros He. apply (f_equal (λ q : path, length q.2)) in He. cbn in He. lia. }
  destruct (create_copy p r (tick w)) as (w1 & w2 & Ht & Hw & Hf & Hn); [done| |].
  { right. unfold parent_ok, p. cbn [fst snd tick w_nodes]. destruct (dir.2) as [|x l] eqn:Hd; [done|].
    rewrite <- Hd, <- surjective_pairing. by rewrite Hdir. }
  assert (∃ id w3, SaveSnapshot off dir r w = (Ok id, w3) ∧
    ∀ q, q = dir ∨ (∃ x, q = (dir.1, x :: dir.2)) → w_nodes w3 !! q = w_nodes w2 !! q) as (id & w3 & Hs & Hn3).
  { unfold SaveSnapshot, time_now. cbv beta iota zeta.
    fold (snap_name (env_clock (w_tick w))). fold name. rewrite Hj, Ht, Hw.
    destruct off as [o|]; [|by eexists _, _].
    rewrite (Open_reliable p w2 r Hf). eexists _, _. split; [done|].
    intros q Hq. rewrite (Hup o) by done. done. }
  exists id, w3. split; [done|]. unfold LoadSnapshot, ReadDir. rewrite reliable.
  rewrite (Hn3 dir) by (by left). rewrite Hn by done. cbn [tick w_nodes]. rewrite Hdir.
  assert (file w3 p = Some r) as Hf3.
  { unfold file in *. rewrite Hn3; [done|]. right. by eexists. }
  assert (latest_name (snap_names (dir_entries dir w3)) = name) as ->.
  { apply latest_name_max.
    - apply elem_of_snapshots. split; [done|]. by exists r.
    - intros x [Hx [d Hd]]%elem_of_snapshots. destruct (decide (x = name)) as [->|Hne]; [done|].
      apply Hmax, elem_of_snapshots. split; [done|]. exists d. unfold file in *.
      rewrite Hn3, Hn in Hd; [done| |by right; eexists]. unfold p. congruence.
    - done. }
  rewrite bool_decide_eq_false_2 by done. cbn [negb]. rewrite Hj. by rewrite (Open_reliable p _ r).
Qed.
End facts.

(** ** Witnesses *)

(** A store that has nothing. *)
Definition no_s3 : Minio := {|
  mc_New _ := false; BucketExists _ w := (Err ErrIO, w); MakeBucket _ w := (Err ErrIO, w);
  PutObject _ _ _ _ w := (Err ErrIO, w); GetObject _ _ w := (Err ErrIO, w); ListObjects _ _ w := ([], w) |}.

Definition source0 : path := (true, ["orders.log"%string]).
Definition restored0 : path := (true, ["restored.log"%string]).
Definition world_src : world := World {[source0 := File [x61; x62]]} 0.


Definition world_dir : world := World {[dir0 := Dir]} 0.
Definition store0 : path := (true, ["backup"%string]).
Lemma snapshot_save_load_witness :
  ∃ id w', SaveSnapshot (E := env0) (Some (LocalOffloader (E := env0) store0)) dir0 [x61] world_dir = (Ok id, w') ∧
    (LoadSnapshot (E := env0) None dir0 w').1 = Ok [x61].
Proof.
  apply (snapshot_save_load (E := env0) (Some (LocalOffloader (E := env0) store0)) None dir0 [x61] world_dir).
  - reflexivity.
  - vm_compute. discriminate.
  - intros x Hx. vm_compute in Hx. inversion Hx.
  - intros o Ho w0 q Hq. apply (inj Some) in Ho. subst o. cbn [Upload LocalOffloader].
    apply (LocalUpload_frame (E := env0)); [reflexivity|apply snap_name_ok| |].
    + destruct Hq as [->|[x ->]]; [discriminate|]. intros He. injection He as _ He. discriminate He.
    + intros [_ Hin]. change (suffixes ("snapshots"%string :: store0.2))
        with [["snapshots"%string; "backup"%string]; ["backup"%string]] in Hin.
      destruct Hq as [->|[x ->]]; cbn [snd dir0] in Hin;
        repeat (apply elem_of_cons in Hin as [Hin|Hin]; [discriminate Hin|]);
        by apply not_elem_of_nil in Hin.
Defined.
