(* ===== verification/NodeLog.v ===== *)
(** * The raft node's log over its life ([src/broker/internal/raft/node.go])

    A node from its start on an empty log through any ready batches, with the
    messages, snapshots and compactions they cause: what is in the log, and what
    the next start hands to the library. *)

From S2P Require Import Prelude Encoding OS Segment Samples SegmentFacts Wal WalFacts Raft RaftProps Grpc Node NodeFacts Offload.

(** ** Transports that do not panic *)

Class SafeTransport (T : Type) `{Transport T} `{Attach T} := {
  ts_ok : T → Prop;
  ts_send to b t : ts_ok t → ∃ r t', tr_send to b t = Some (r, t') ∧ ts_ok t';
  ts_attach id t : ts_ok t → ts_ok (attach id t).2 }.

Lemma inproc_send to b t : sound t → ∃ r t', Raft.Send to b t = Some (r, t') ∧ sound t'.
Proof.
  intros HS. destruct (ip_peers t !! to) as [i|] eqn:Hi.
  - destruct (send_sound to i to b t HS Hi) as (r & t' & Hs & HS' & _). by exists r, t'.
  - unfold Raft.Send, SendLookup. rewrite Hi. by eexists _, _.
Qed.
Lemma inproc_attach_sound id t : sound t → sound (attach id t).2.
Proof.
  intros HS. set (a := String.string_of_list_byte (sprintf_d id)).
  assert ((attach id t).2 = (Register a t).2) as ->.
  { unfold attach, inproc_attach. fold a. by destruct (Register a t) as [[|] t']. }
  destruct (register_inv a t _ _ _ (proj1 (sound_inv t) HS) eq_refl) as [[_ ? ? ?] _]. by split.
Qed.

Lemma noop_send to b t : True → ∃ r t', tr_send (T := unit) to b t = Some (r, t') ∧ True.
Proof. by eexists _, _. Qed.
Lemma grpc_send {N : NetEnv} to b (t : GRPCTransport * net) :
  True → ∃ r t', tr_send to b t = Some (r, t') ∧ True.
Proof. cbn. destruct (GSend to b t.1 t.2) as [[r g] n]. by eexists _, _. Qed.

#[export] Instance noop_safe : SafeTransport unit :=
  {| ts_ok _ := True; ts_send := noop_send; ts_attach _ _ H := H |}.
#[export] Instance grpc_safe {N : NetEnv} : SafeTransport (GRPCTransport * net) :=
  {| ts_ok _ := True; ts_send := grpc_send; ts_attach _ _ H := H |}.
#[export] Instance inproc_safe : SafeTransport InProcTransport :=
  {| ts_ok := sound; ts_send := inproc_send; ts_attach := inproc_attach_sound |}.

Lemma sendMessages_safe `{MessageCodec} `{SafeTransport T} pa msgs : ∀ tr : option T,
  from_option ts_ok True tr → ∃ tr', sendMessages pa msgs tr = Some tr' ∧ from_option ts_ok True tr'.
Proof.
  induction msgs as [|m msgs IH]; intros tr Hok; cbn [sendMessages]; [by eexists|].
  destruct tr as [t|]; [|by apply IH]. unfold sendMessage.
  destruct (marshalMessage m) as [b|]; cbn [mbind option_bind]; [|by apply IH].
  destruct (ts_send (addr_of pa (To m)) b t Hok) as (r & t' & -> & Hok'). cbn [mbind option_bind]. by apply IH.
Qed.

(** ** The log beside its neighbours *)

Section log.
Context {E : Env} {HRel : Reliable E}.

(** Snapshots in the directory have proper names. *)
Definition tidy (dir : path) (w : world) : Prop :=
  ∀ n, is_snap_name n = true → is_Some (w_nodes w !! (dir.1, n :: dir.2)) → plain n = true.

(** A log in good shape in a tidy directory. *)
Definition log_ok (dir : path) (w : world) : Prop := (∃ ps, wal_shape dir ps w) ∧ tidy dir w.

Lemma tidy_only dir (S : string → Prop) `{∀ n, Decision (S n)} w w' :
  (∀ n, S n → plain n = true) → only dir S w w' → tidy dir w → tidy dir w'.
Proof.
  intros HS Ho Ht n Hn Hs. destruct (decide (S n)) as [|Hne]; [auto|].
  rewrite (only_child _ _ _ _ Ho) in Hs by done. by apply Ht.
Qed.

(** What touches no log file keeps the log. *)
Lemma wal_shape_only dir S ps w w' :
  only dir S w w' → (∀ n, is_wal_name n = true → ¬ S n) →
  wal_shape dir ps w → wal_shape dir ps w' ∧ wal_data dir w' = wal_data dir w.
Proof.
  intros Ho HS [H1 H2 H3 H4 H5 H6].
  assert (∀ n, is_wal_name n = true → w_nodes w' !! (dir.1, n :: dir.2) = w_nodes w !! (dir.1, n :: dir.2)) as Hn
    by (intros n Hw; by apply (only_child _ _ _ _ Ho), HS).
  assert (∀ n, n ∈ names_of dir w' ↔ n ∈ names_of dir w) as Hin.
  { intros n. rewrite !elem_of_names_of. unfold file. split; intros [Hw Hf]; rewrite Hn in *; done. }
  assert (names_of dir w' = names_of dir w) as Hnames
    by (apply names_of_unique; [apply names_of_nodup|apply names_of_sorted|naive_solver]).
  assert (wal_file dir w' log_name = wal_file dir w log_name) as Hlog.
  { unfold wal_file, file. rewrite Join_plain by done. by rewrite Hn. }
  split.
  - split; [by rewrite (only_dir _ _ _ _ Ho)|done| |intros n Hx; by apply H4, Hin|by rewrite Hlog|done].
    rewrite walPath_eq in *. by rewrite Hn.
  - unfold wal_data. rewrite Hnames. f_equal. apply list_fmap_ext. intros i n Hi.
    apply list_elem_of_lookup_2 in Hi. f_equal. unfold wal_file, file.
    rewrite Join_plain by (by apply H4). apply elem_of_names_of in Hi as [Hw _]. by rewrite Hn.
Qed.

(** *** Snapshots *)

Lemma snap_not_wal n : is_wal_name n = true → is_snap_name n = true → False.
Proof.
  unfold is_wal_name, is_snap_name, has_prefix. intros [->%bool_decide_eq_true|Hw]%orb_true_iff Hs; [done|].
  apply andb_true_iff in Hw as [_ Hw]. apply andb_true_iff in Hs as [_ Hs].
  destruct n as [|a n]; [done|]. cbn [String.prefix] in Hw, Hs.
  destruct (Ascii.ascii_dec _ a) as [<-|]; done.
Qed.

Definition snap_child (n : string) : Prop := is_snap_name n = true ∧ plain n = true.
#[local] Instance snap_child_dec n : Decision (snap_child n).
Proof. unfold snap_child; apply _. Defined.

(** The offloader keeps away from the directory, and lists names of snapshots. *)
Record aside (off : option Offloader) (dir : path) : Prop := {
  aside_up o b k d w : off = Some o → only dir (λ _, False) w (Upload (Offloader := o) b k d w).2;
  aside_down o b k w : off = Some o → only dir (λ _, False) w (Download (Offloader := o) b k w).2;
  aside_list o b k w : off = Some o → only dir (λ _, False) w (List (Offloader := o) b k w).2;
  aside_keys o b w ks : off = Some o → (List (Offloader := o) b "snapshot." w).1 = Ok ks →
    Forall snap_child ks }.
Lemma aside_none dir : aside None dir.
Proof. by split. Qed.

Lemma log_ok_snap dir w w' :
  only dir snap_child w w' → log_ok dir w → log_ok dir w' ∧ wal_data dir w' = wal_data dir w.
Proof.
  intros Ho [[ps HS] Ht].
  destruct (wal_shape_only dir snap_child ps w w' Ho) as [HS' HD]; [|done|].
  - intros n Hw [Hs _]. by eapply snap_not_wal.
  - split; [|done]. split; [by exists ps|]. eapply (tidy_only dir snap_child); [|exact Ho|done]. by intros n [_ ?].
Qed.

Lemma Open_nodes p w : w_nodes (Open p w).2 = w_nodes w.
Proof. unfold Open, ReadFile. rewrite reliable. by destruct (w_nodes w !! _) as [[|]|]. Qed.

Lemma SaveSnapshot_only off dir r w :
  aside off dir → only dir snap_child w (SaveSnapshot off dir r w).2.
Proof.
  intros Ha. unfold SaveSnapshot, time_now. fold (snap_name (env_clock (w_tick w))).
  destruct (snap_name_ok (env_clock (w_tick w))) as [Hp Hs]. set (name := snap_name _) in *.
  rewrite Join_plain by done.
  assert (∀ w1 w2, only dir (eq name) w1 w2 → only dir snap_child w1 w2) as Hone
    by (intros w1 w2; apply only_mono; by intros n <-).
  destruct (OpenTrunc _ (tick w)) as [r1 w1] eqn:E1. apply OpenTrunc_cases in E1 as [E1 _].
  assert (only dir snap_child w w1) as H1 by (by apply Hone, only_one).
  destruct r1 as [[]|]; [|done]. destruct (Write _ r w1) as [r2 w2] eqn:E2. apply Write_cases in E2 as [E2 _].
  assert (only dir snap_child w w2) as H2 by (eapply only_trans; [exact H1|by apply Hone, only_one]).
  destruct r2 as [[]|]; [|done]. destruct off as [o|]; [|done].
  pose proof (Open_nodes (dir.1, name :: dir.2) w2) as H3. destruct (Open _ w2) as [r3 w3]. cbn [snd] in H3.
  assert (only dir snap_child w w3) as H4 by (eapply only_trans; [exact H2|by apply only_nodes]).
  destruct r3 as [data|]; [|done]. eapply only_trans; [exact H4|].
  eapply only_mono; [|by apply (aside_up _ _ Ha o)]. done.
Qed.

Lemma latest_key_in ks k0 : k0 ∈ ks → latest_key ks k0 ∈ ks.
Proof.
  unfold latest_key. intros Hin. cut (∀ l k, k ∈ ks → (∀ x, x ∈ l → x ∈ ks) →
    fold_left (λ latest k, if bool_decide (String.le k latest) then latest else k) l k ∈ ks); [auto|].
  induction l as [|x l IH]; intros k Hk Hl; [done|]. cbn [fold_left]. apply IH; [|set_solver].
  case_bool_decide; [done|set_solver].
Qed.

(** A copy written into the directory under a snapshot's name. *)
Lemma copy_only dir name data w :
  snap_child name →
  only dir snap_child w (match OpenTrunc (Join dir name) w with
     | (Ok _, w) => let '(_, w) := Write (Join dir name) data w in Open (Join dir name) w
     | (Err _, w) => (Err ErrNotExist, w) end).2.
Proof.
  intros Hn. rewrite Join_plain by apply Hn.
  assert (∀ w1 w2, only dir (eq name) w1 w2 → only dir snap_child w1 w2) as Hone
    by (intros w1 w2; apply only_mono; by intros n <-).
  destruct (OpenTrunc _ w) as [r1 w1] eqn:E1. apply OpenTrunc_cases in E1 as [E1 _].
  assert (only dir snap_child w w1) as H1 by (by apply Hone, only_one).
  destruct r1 as [[]|]; [|done]. destruct (Write _ data w1) as [r2 w2] eqn:E2. apply Write_cases in E2 as [E2 _].
  eapply only_trans; [exact H1|]. eapply only_trans; [by apply Hone, only_one|].
  apply only_nodes, Open_nodes.
Qed.

Lemma LoadSnapshot_only off dir w : aside off dir → only dir snap_child w (LoadSnapshot off dir w).2.
Proof.
  intros Ha. unfold LoadSnapshot, ReadDir. rewrite reliable.
  assert (only dir snap_child w (tick w)) as Ht by by apply only_nodes.
  destruct (w_nodes w !! dir) as [[|]|]; [|done..].
  destruct (negb _); [eapply only_trans; [exact Ht|]; apply only_nodes, Open_nodes|].
  destruct off as [o|]; [|done].
  assert (∀ w1 w2, only dir (λ _, False) w1 w2 → only dir snap_child w1 w2) as Hno
    by (intros w1 w2; by apply only_mono).
  pose proof (Hno _ _ (aside_list _ _ Ha o "snapshots" "snapshot." (tick w) eq_refl)) as Hl.
  pose proof (λ ks, aside_keys _ _ Ha o "snapshots" (tick w) ks eq_refl) as Hk.
  destruct (List _ _ (tick w)) as [[ks|] w1]; cbn [fst snd] in Hl, Hk;
    [|by eapply only_trans; [exact Ht|exact Hl]].
  destruct ks as [|k0 ks]; [by eapply only_trans; [exact Ht|exact Hl]|].
  assert (snap_child (latest_key (k0 :: ks) k0)) as Hc.
  { specialize (Hk _ eq_refl). eapply Forall_forall in Hk; [exact Hk|]. apply latest_key_in. left. }
  pose proof (Hno _ _ (aside_down _ _ Ha o "snapshots" (latest_key (k0 :: ks) k0) w1 eq_refl)) as Hd.
  destruct (Download _ _ w1) as [[rc|] w2]; cbn [snd] in Hd;
    (eapply only_trans; [exact Ht|]; eapply only_trans; [exact Hl|]; eapply only_trans; [exact Hd|]);
    [by apply copy_only|by apply only_nodes].
Qed.

Lemma removeAll_only dir (S : string → Prop) names w :
  (∀ n, n ∈ names → S n ∧ plain n = true) → only dir S w (removeAll dir names w).
Proof.
  intros HS. split.
  - apply removeAll_other. intros n Hn. rewrite Join_plain by apply HS, Hn. apply child_ne.
  - intros m Hm. apply removeAll_other. intros n Hn He. rewrite Join_plain in He by apply HS, Hn.
    injection He as ->. by apply Hm, HS.
Qed.

Lemma PurgeOldSnapshots_only dir keep w : tidy dir w → only dir snap_child w (PurgeOldSnapshots dir keep w).2.
Proof.
  intros Ht. unfold PurgeOldSnapshots, ReadDir. rewrite reliable.
  destruct (w_nodes w !! dir) as [[|]|] eqn:Hd; [|by apply only_nodes..].
  destruct (_ <=? keep); [by apply only_nodes|]. rewrite reliable. cbn [tick w_nodes]. rewrite Hd.
  assert (∀ n, n ∈ snap_names (dir_entries dir w) → snap_child n ∧ plain n = true) as Hin.
  { intros n [Hs Hf]%elem_of_snapshots. assert (plain n = true) as Hp; [|by split].
    apply Ht; [done|]. destruct Hf as [d Hf]. unfold file in Hf.
    destruct (w_nodes w !! (dir.1, n :: dir.2)); [by eexists|done]. }
  destruct (keep <? 0); cbn [snd]; (eapply only_trans; [|apply removeAll_only]);
    [by apply only_nodes|exact Hin|by apply only_nodes|].
  intros n (i & Hi & _)%elem_of_take. apply Hin. by eapply list_elem_of_lookup_2.
Qed.

(** *** Rotation and compaction *)

Lemma Rename_reliable p q d w :
  w_nodes w !! p = Some (File d) → w_nodes w !! q ≠ Some Dir →
  Rename p q w = (Ok tt, World (<[q := File d]> (delete p (w_nodes w))) (S (w_tick w))).
Proof. intros Hp Hq. unfold Rename. rewrite reliable, Hp. by destruct (w_nodes w !! q) as [[|]|]. Qed.

(** The current file moved away and made again. *)
Lemma move_log dir name d w :
  plain name = true → name ≠ log_name → dir.2 ≠ [] → w_nodes w !! dir = Some Dir →
  w_nodes w !! walPath dir = Some (File d) → w_nodes w !! (dir.1, name :: dir.2) ≠ Some Dir →
  ∃ w1 w2, Rename (walPath dir) (dir.1, name :: dir.2) w = (Ok tt, w1) ∧ OpenTrunc (walPath dir) w1 = (Ok tt, w2) ∧
    w_nodes w2 !! walPath dir = Some (File []) ∧ only dir (λ n, n = name ∨ n = log_name) w w2.
Proof.
  intros Hpl Hne Hd2 Hdir Hlog Hq. eexists _, _. split; [by apply Rename_reliable|].
  set (w1 := World _ _).
  assert (∀ q, q ≠ walPath dir → q ≠ (dir.1, name :: dir.2) → w_nodes w1 !! q = w_nodes w !! q) as Ho.
  { intros q H1 H2. cbn [w1 w_nodes]. by rewrite lookup_insert_ne, lookup_delete_ne. }
  assert (w_nodes w1 !! dir = Some Dir) as Hdir1.
  { rewrite Ho; [done|rewrite walPath_eq|]; apply child_ne. }
  rewrite walPath_eq in *. split; [apply OpenTrunc_reliable|].
  - cbn [w1 w_nodes]. rewrite lookup_insert_ne by congruence. by rewrite lookup_delete_eq.
  - right. unfold parent_ok. cbn [fst snd]. destruct (dir.2) as [|x r] eqn:Hr; [done|].
    by rewrite <- Hr, <- surjective_pairing, Hdir1.
  - split; [apply lookup_insert_eq|]. cbn [set_node tick w_nodes]. split.
    + cbn [set_node tick w_nodes]. rewrite lookup_insert_ne by (intros He; by apply (child_ne dir log_name)).
      by rewrite Hdir.
    + intros n Hn. cbn [set_node tick w_nodes].
      rewrite lookup_insert_ne by (intros [= <-]; tauto). apply Ho; intros [= ->]; tauto.
Qed.

Lemma wal_name_prefix n : is_wal_name n = true → n ≠ log_name → has_prefix "wal." n = true.
Proof.
  unfold is_wal_name. intros [->%bool_decide_eq_true|[_ ?]%andb_true_iff]%orb_true_iff Hne; [|done].
  by destruct Hne.
Qed.

Lemma RotateWAL_shape dir ps w :
  wal_shape dir ps w → is_Some (file w (walPath dir)) → rotated dir w = [] →
  ∃ ps' r w', RotateWAL dir w = (r, w') ∧ wal_shape dir ps' w' ∧ wal_data dir w' = wal_data dir w
    ∧ only dir log_child w w'.
Proof.
  intros HS [d Hd] Hrot. destruct (RotateWAL dir w) as [r w'] eqn:HR.
  destruct (RotateWAL_data dir w r w') as [HD HW']; [apply HS|by eexists| |exact HR|].
  { intros m Hm. rewrite Hrot in Hm. by apply not_elem_of_nil in Hm. }
  assert (w_nodes w !! walPath dir = Some (File d)) as Hn.
  { unfold file in Hd. destruct (w_nodes w !! walPath dir) as [[|]|]; try done. by injection Hd as ->. }
  revert HR. unfold RotateWAL, Stat, time_now. rewrite reliable, Hn. cbn [w_tick tick].
  set (name := rotName _).
  destruct (rotName_ok (env_clock (S (w_tick w)))) as (H1 & H2 & _ & H4). fold name in H1, H2, H4.
  apply wal_name_prefix in H2; [|done].
  rewrite (Join_plain dir name) by done.
  assert (w_nodes w !! (dir.1, name :: dir.2) = Some Dir ∨ w_nodes w !! (dir.1, name :: dir.2) ≠ Some Dir)
    as [Hq|Hq] by (destruct (w_nodes w !! (dir.1, name :: dir.2)) as [[|]|]; auto).
  - unfold Rename. rewrite reliable. cbn [w_nodes tick]. rewrite Hn, Hq. intros [= <- <-].
    eexists ps, _, _. split; [done|]. split; [by eapply wal_shape_nodes; [|exact HS]|].
    split; [done|by apply only_nodes].
  - destruct (move_log dir name d (tick (tick w))) as (w1 & w2 & -> & -> & Hlog & Ho); [done|done|apply HS..|exact Hn|exact Hq|].
    intros [= <- <-]. exists [], (Ok tt), w2. split; [done|]. split; [|split; [done|]].
    + split; [by rewrite (only_dir _ _ _ _ Ho); apply HS|apply HS|by rewrite Hlog|done| |done].
      unfold wal_file, file. change (Join dir log_name) with (walPath dir). by rewrite Hlog.
    + eapply (only_trans _ _ w (tick (tick w))); [by apply only_nodes|].
      eapply only_mono; [|exact Ho].
      intros n [Hm|Hm]; rewrite Hm; by split.
Qed.

Context {P : EntryCodec} {PL : EntryCodecLaws}.

Lemma keep_all ents : Forall (λ e, 0 < Index e) ents → keepEntries 0 ents = ents.
Proof.
  intros HF. unfold keepEntries. destruct (existsb _ ents); [|by rewrite drop_0].
  induction HF as [|e ents He _ IH]; [done|]. by rewrite filter_cons_True, IH.
Qed.

#[local] Instance log_child_dec n : Decision (log_child n).
Proof. unfold log_child; apply _. Defined.

(** The log holds exactly these entries. *)
Definition holds_log (dir : path) (ents : list Entry) (w : world) : Prop :=
  log_ok dir w ∧ marshalEntries ents = Some (wal_data dir w).
(** Entries as the library makes them, in a log that fits the frames. *)
Definition entries_ok (ents : list Entry) : Prop :=
  Forall small_entry ents ∧ Forall (λ e, 0 < Index e) ents ∧
  ∃ b, marshalEntries ents = Some b ∧ small b.

Lemma holds_log_snap dir ents w w' :
  only dir snap_child w w' → holds_log dir ents w → holds_log dir ents w'.
Proof.
  intros Ho [Hok HM]. destruct (log_ok_snap dir w w' Ho Hok) as [Hok' HD]. split; [done|by rewrite HD].
Qed.

Lemma NodeCompact_keeps dir ents w :
  entries_ok ents → holds_log dir ents w → holds_log dir ents (NodeCompact dir 0 w).2.
Proof.
  intros (HS & HI & b & HM & Hb) [[[ps Hsh] Ht] HM']. rewrite HM in HM'. injection HM' as HD.
  destruct (Compact_data dir 0 w ents b) as (w1 & HC & HD1 & HW1 & HR1 & HF1 & Ho1);
    [apply Hsh..|rewrite <- HD; by apply unmarshal_marshal|by rewrite keep_all|done|].
  unfold NodeCompact. rewrite HC.
  assert (file w1 (walPath dir) = Some (frame b)) as Hf1.
  { unfold wal_file in HF1. change (Join dir log_name) with (walPath dir) in HF1.
    destruct (file w1 (walPath dir)); cbn [default from_option id] in HF1; [by rewrite HF1|].
    pose proof (frame_length b) as Hl. rewrite <- HF1 in Hl. done. }
  assert (wal_shape dir [b] w1) as Hsh1.
  { split; [rewrite (only_dir _ _ _ _ Ho1); apply Hsh|apply Hsh| |done| |by repeat constructor].
    - intros He. unfold file in Hf1. by rewrite He in Hf1.
    - rewrite HF1. unfold frames. cbn. by rewrite app_nil_r. }
  destruct (RotateWAL_shape dir [b] w1 Hsh1) as (ps' & r & w2 & HR & Hsh2 & HD2 & Ho2); [by eexists|done|].
  rewrite HR.
  assert (holds_log dir ents w2) as H2.
  { split; [split; [by exists ps'|]|by rewrite HD2, HD1].
    eapply (tidy_only dir log_child); [by intros n [_ ?]|exact (only_trans _ _ _ _ _ Ho1 Ho2)|done]. }
  destruct r; [|done]. eapply holds_log_snap; [|exact H2]. apply PurgeOldSnapshots_only, H2.
Qed.

Lemma checkpoint_keeps off dir id batch ents w :
  aside off dir → entries_ok ents → holds_log dir ents w →
  holds_log dir ents (checkpoint off (Some dir) id batch w).
Proof.
  intros Ha He HL. unfold checkpoint. destruct (_ <=? _); [|done].
  unfold time_now. pose proof (SaveSnapshot_only off dir (snapJSON id (wrap64 (env_clock (w_tick w)))) (tick w) Ha) as Ho.
  destruct (SaveSnapshot _ _ _ _) as [r w1]. cbn [snd] in Ho.
  assert (holds_log dir ents w1) as H1.
  { eapply holds_log_snap; [|exact HL]. eapply only_trans; [|exact Ho]. by apply only_nodes. }
  destruct r; [by apply NodeCompact_keeps|done].
Qed.

Lemma marshal_app_inv a b x :
  marshalEntries (a ++ b) = Some x →
  ∃ xa xb, marshalEntries a = Some xa ∧ marshalEntries b = Some xb ∧ x = xa ++ xb.
Proof.
  revert x. induction a as [|e a IH]; intros x; cbn [app marshalEntries]; [by exists [], x|].
  destruct (proto_marshal e) as [be|]; [|done]. cbn [mbind option_bind].
  destruct (marshalEntries (a ++ b)) as [y|] eqn:Hy; [|done]. cbn [mbind option_bind]. intros [= <-].
  destruct (IH y eq_refl) as (xa & xb & -> & -> & ->). eexists _, _. split; [done|]. split; [done|].
  by rewrite <- !app_assoc.
Qed.
Lemma entries_ok_app a b : entries_ok (a ++ b) → entries_ok a ∧ entries_ok b.
Proof.
  intros ([HS1 HS2]%Forall_app & [HI1 HI2]%Forall_app & x & HM & Hx).
  destruct (marshal_app_inv a b x HM) as (xa & xb & Ha & Hb & ->).
  unfold small, zlen in Hx. rewrite length_app in Hx.
  split; (split_and!; [done..|]); eexists; (split; [done|]); unfold small, zlen; lia.
Qed.

Context {M : MemoryStorage}.

Lemma applyReady_keeps dir snapshot batch ents n w :
  n_persistent n = false → entries_ok (ents ++ batch) → holds_log dir ents w →
  let '(n', w') := applyReady (Some dir) snapshot batch n w in
  n_persistent n' = false ∧ holds_log dir (ents ++ batch) w'.
Proof.
  intros Hn Hok [[[ps HS] Ht] HM]. unfold applyReady. destruct batch as [|e batch].
  { rewrite app_nil_r. split; [done|]. split; [|done]. split; [by exists ps|done]. }
  apply entries_ok_app in Hok as [_ (_ & _ & b & Hb & Hs)]. rewrite Hb, Hn. split; [done|].
  destruct (AppendWAL_reliable dir b ps w HS Hs) as (w1 & HA & HS1 & HD1).
  pose proof (AppendWAL_cases _ _ _ _ _ HA) as [Ho _]. rewrite HA. cbn [snd].
  split; [split; [by exists (ps ++ [b])|]|].
  - eapply (tidy_only dir (eq log_name)); [by intros n' <-| |exact Ht]. apply only_one. by rewrite <- walPath_eq.
  - rewrite HD1. by apply marshal_app.
Qed.

(** *** The loop and the next start *)

(** The entries of all batches, in order. *)
Fixpoint all_entries (rds : list Ready) : list Entry :=
  match rds with [] => [] | rd :: rds => rd_Entries rd ++ all_entries rds end.

Lemma readyLoop_keeps `{MessageCodec} `{SafeTransport T} off dir id pa rds : ∀ ents n (tr : option T) w,
  aside off dir → n_persistent n = false → from_option ts_ok True tr →
  entries_ok (ents ++ all_entries rds) → holds_log dir ents w →
  ∃ n' tr' w', readyLoop off (Some dir) id pa (Some <$> rds) n tr w = Some (n', tr', w') ∧
    holds_log dir (ents ++ all_entries rds) w'.
Proof.
  induction rds as [|rd rds IH]; intros ents n tr w Ha Hn Htr Hok HL.
  { cbn [fmap list_fmap all_entries readyLoop]. rewrite app_nil_r. by eexists _, _, _. }
  cbn [fmap list_fmap all_entries] in *. rewrite app_assoc in *. cbn [readyLoop]. unfold readyTurn.
  pose proof (entries_ok_app _ _ Hok) as [Hok1 _].
  pose proof (applyReady_keeps dir (rd_Snapshot rd) (rd_Entries rd) ents n w Hn Hok1 HL) as HA.
  destruct (applyReady _ _ _ n w) as [n1 w1]. destruct HA as [Hn1 HL1].
  destruct (sendMessages_safe pa (rd_Messages rd) tr Htr) as (tr1 & -> & Htr1).
  cbn [mbind option_bind]. apply IH; try done. by apply checkpoint_keeps.
Qed.

(** The memory a start hands the entries to: fresh, with the newest snapshot that
    [LoadSnapshot] finds applied to it when it has bytes. *)
Definition restored (off : option Offloader) (dir : path) (w : world) : Mem :=
  match (LoadSnapshot off dir w).1 with
  | Ok ((_ :: _) as data) => MemApplySnapshot (MkSnapshot 0 0 data) NewMemoryStorage
  | _ => NewMemoryStorage
  end.

(** What a start reads from a log. *)
Lemma recover_log off dir ents w :
  aside off dir → Forall small_entry ents → holds_log dir ents w →
  ∃ w1, wal_data dir w1 = wal_data dir w ∧ log_ok dir w1 ∧
    recover off (Some dir) w =
      match ents with
      | [] => (MkNode (restored off dir w) false, w1)
      | _ => let '(_, mem, w2) := persistentAppend dir ents (restored off dir w) w1 in (MkNode mem true, w2)
      end.
Proof.
  intros Ha HF HL. unfold recover, restored. pose proof (LoadSnapshot_only off dir w Ha) as Ho.
  destruct (LoadSnapshot off dir w) as [rs w0]. cbn [fst snd] in *.
  pose proof (holds_log_snap _ _ _ _ Ho HL) as [[[ps HS] Ht] HM].
  destruct HL as [_ HM']. rewrite HM in HM'. injection HM' as HD.
  set (mem := match rs with Ok _ => _ | Err _ => _ end).
  pose proof (ReadWAL_reliable dir 0 w0 (ws_dir _ _ _ HS) (ws_named _ _ _ HS)) as HR.
  destruct (ReadWAL dir 0 w0) as [[data|] w1] eqn:E1; [|done]. clear HR.
  apply ReadWAL_ok in E1 as [-> Hn1]. rewrite drop_0. exists w1.
  destruct (wal_shape_nodes dir ps w0 w1 Hn1 HS) as [HS1 HD1].
  split; [congruence|]. split.
  { split; [by exists ps|]. intros n Hn. rewrite Hn1. by apply Ht. }
  rewrite (unmarshal_marshal ents (wal_data dir w0) HM HF).
  destruct ents as [|e ents].
  - cbn in HM. injection HM as <-. done.
  - destruct (wal_data dir w0) eqn:Hd; [|done]. by apply marshal_nonempty in HM.
Qed.

Lemma holds_log_nil dir w : log_ok dir w → wal_data dir w = [] → holds_log dir [] w.
Proof. intros Hok HD. split; [done|]. by rewrite HD. Qed.
End log.

Section start.
Context {E : Env} {P : EntryCodec} {M : MemoryStorage} {HRel : Reliable E} {PL : EntryCodecLaws}.
Context `{MessageCodec} `{RaftLib} `{SafeTransport T}.

Lemma Start_recover off (nd : Node (T := T)) w :
  let '(nd1, st, _, w1) := Start off nd w in
  recover off (nd_store nd) w = (st, w1) ∧ (from_option ts_ok True (nd_tr nd) → from_option ts_ok True (nd_tr nd1)).
Proof.
  unfold Start. destruct (recover off (nd_store nd) w) as [st w1]. cbn [startLib set_lib nd_tr nd_id].
  destruct (nd_tr nd) as [t|] eqn:Ht; [|split; [done|]; intros _; cbn [startLib set_lib nd_tr]; by rewrite Ht].
  pose proof (ts_attach (nd_id nd) t) as Ha. by destruct (attach _ t).
Qed.

Lemma persistentAppend_mem dir ps ents b m w :
  wal_shape dir ps w → ents ≠ [] → marshalEntries ents = Some b → small b →
  (persistentAppend dir ents m w).1.2 = (MemAppend ents m).2.
Proof.
  intros HS Hne HM Hb. destruct (AppendWAL_reliable dir b ps w HS Hb) as (w1 & HA & _).
  unfold persistentAppend. destruct ents; [done|]. rewrite HM, HA. by destruct (MemAppend _ m).
Qed.

End start.

(** ** A node with a checkpoint *)

(** One batch of two entries, and one of fifty that is followed by a snapshot and a
    compaction. *)
Definition batch (from : Z) (n : nat) : Ready := MkReady (MkSnapshot 0 0 []) ((λ i, ent (from + Z.of_nat i)) <$> seq 0 n) [].
Definition two_batches : list Ready := [batch 1 2; batch 3 50].

#[local] Instance no_messages : MessageCodec := {| marshalMessage _ := None; unmarshalMessage _ := None |}.
#[local] Instance counting_lib : RaftLib := {|
  RaftNode := nat; StartNode _ _ := 0%nat; lib_Step _ n := (Ok tt, n);
  lib_Propose _ n := (Ok tt, n); lib_Tick n := S n; lib_Stop n := n |}.
Definition solo : Node (T := unit) := NewNode 1 (Some raft_dir) (Some tt).

Lemma wraft0_log_ok : log_ok raft_dir wraft0.
Proof.
  destruct wraft0_named as [HW Hf]. split.
  - exists []. split; [vm_compute; reflexivity|discriminate|vm_compute; discriminate|done|done|constructor].
  - intros n Hn Hs. exfalso. revert Hs. unfold wraft0. cbn [w_nodes]. rewrite lookup_singleton_ne; [by intros []|].
    intros He. by apply (child_ne raft_dir n).
Qed.

Lemma batches_ok : entries_ok (P := proto0) (all_entries two_batches).
Proof.
  split; [apply small_entries; vm_compute; repeat constructor|].
  split; [vm_compute; repeat constructor|]. eexists. split; [vm_compute; reflexivity|].
  vm_compute. reflexivity.
Qed.

