(* ===== verification/Stores.v ===== *)
(** * State stores, the checkpoint scheduler and the window manager
    ([src/processor/state_store.go], [state_store_rocksdb.go],
    [src/broker/internal/raft/checkpoint_scheduler.go], [storage.go],
    [src/window-manager/pkg/window/window.go],
    [src/broker/internal/snapshot/incremental.go], [src/broker/internal/region/gateway.go])

    The two implementations of the processor's state store against one interface,
    the loop that saves snapshots on the ticks of a timer, and the small
    components that keep little or no state. *)

From stdpp Require Import relations.
From S2P Require Import Prelude Encoding OS Segment Samples SegmentFacts Wal WalFacts Offload.

(** ** State stores *)

(** [StateStore]; a nil slice is the empty one, which is what a copy of an empty
    value is. *)
Class StateStore (S : Type) := {
  Put : list byte → list byte → S → res unit * S;
  Get : list byte → S → res (list byte);
  ss_Close : S → res unit }.

(** What a client relies on. *)
Class StateStoreLaws (S : Type) `{StateStore S} : Prop := {
  put_ok k v s : (Put k v s).1 = Ok tt;
  get_put k v s k' : Get k' (Put k v s).2 = if decide (k' = k) then Ok v else Get k' s }.

Record InMemoryStateStore := MkInMemory { im_m : gmap string (list byte) }.
Definition NewInMemoryStateStore : InMemoryStateStore := MkInMemory ∅.
Definition key_string (k : list byte) : string := String.string_of_list_byte k.
Definition InMemory_Put (key value : list byte) (s : InMemoryStateStore) : res unit * InMemoryStateStore :=
  (Ok tt, MkInMemory (<[key_string key := value]> (im_m s))).
Definition InMemory_Get (key : list byte) (s : InMemoryStateStore) : res (list byte) :=
  match im_m s !! key_string key with None => Ok [] | Some v => Ok v end.
#[export] Instance InMemory_store : StateStore InMemoryStateStore :=
  {| Put := InMemory_Put; Get := InMemory_Get; ss_Close _ := Ok tt |}.

Record RocksDBStateStore := MkRocks { rk_dir : path; rk_kv : gmap string (list byte) }.
(** An empty name is refused; the directory is made and never used. *)
Definition NewRocksDBStateStore `{Env} (dir : option path) (w : world) : res RocksDBStateStore * world :=
  match dir with
  | None => (Err (ErrMsg "rocksdb dir is required"), w)
  | Some dir => match MkdirAll dir w with
                | (Err e, w) => (Err e, w)
                | (Ok _, w) => (Ok (MkRocks dir ∅), w)
                end
  end.
(** The build without the tag. *)
Definition NewRocksDBStateStore_untagged : res RocksDBStateStore :=
  Err (ErrMsg "rocksdb state store requires -tags rocksdb").
Definition Rocks_Put (key value : list byte) (s : RocksDBStateStore) : res unit * RocksDBStateStore :=
  (Ok tt, MkRocks (rk_dir s) (<[key_string key := value]> (rk_kv s))).
Definition Rocks_Get (key : list byte) (s : RocksDBStateStore) : res (list byte) :=
  Ok (default [] (rk_kv s !! key_string key)).
#[export] Instance Rocks_store : StateStore RocksDBStateStore :=
  {| Put := Rocks_Put; Get := Rocks_Get; ss_Close _ := Ok tt |}.

Lemma key_string_inj k k' : key_string k = key_string k' → k = k'.
Proof.
  intros He. apply (f_equal String.list_byte_of_string) in He. unfold key_string in He.
  by rewrite !String.list_byte_of_string_of_list_byte in He.
Qed.

#[export] Instance InMemory_laws : StateStoreLaws InMemoryStateStore.
Proof.
  split; [done|]. intros k v s k'. cbn. unfold InMemory_Get. cbn.
  destruct (decide (k' = k)) as [->|Hne]; [by rewrite lookup_insert_eq|].
  rewrite lookup_insert_ne; [done|]. intros He. by apply Hne, key_string_inj.
Qed.
#[export] Instance Rocks_laws : StateStoreLaws RocksDBStateStore.
Proof.
  split; [done|]. intros k v s k'. cbn. unfold Rocks_Get. cbn.
  destruct (decide (k' = k)) as [->|Hne]; [by rewrite lookup_insert_eq|].
  rewrite lookup_insert_ne; [done|]. intros He. by apply Hne, key_string_inj.
Qed.

(** *** Clients *)

Inductive store_op := OpPut (k v : list byte) | OpGet (k : list byte).

Section client.
Context {S : Type} `{StateStoreLaws S}.

(** What a client of the store sees. *)
Fixpoint run_store (ops : list store_op) (s : S) : list (res (list byte)) * S :=
  match ops with
  | [] => ([], s)
  | OpPut k v :: ops =>
      let '(r, s) := Put k v s in
      let '(rs, s) := run_store ops s in
      ((match r with Ok _ => Ok [] | Err e => Err e end) :: rs, s)
  | OpGet k :: ops => let '(rs, s') := run_store ops s in (Get k s :: rs, s')
  end.

(** A map from keys to values, empty where nothing was put. *)
Fixpoint run_spec (ops : list store_op) (m : list byte → list byte) : list (res (list byte)) :=
  match ops with
  | [] => []
  | OpPut k v :: ops => Ok [] :: run_spec ops (λ k', if decide (k' = k) then v else m k')
  | OpGet k :: ops => Ok (m k) :: run_spec ops m
  end.

Lemma run_store_spec ops : ∀ s m, (∀ k, Get k s = Ok (m k)) → (run_store ops s).1 = run_spec ops m.
Proof.
  induction ops as [|[k v|k] ops IH]; intros s m Hm; cbn [run_store run_spec]; [done|..].
  - destruct (Put k v s) as [r s1] eqn:Hp. pose proof (put_ok k v s) as Ho. rewrite Hp in Ho. cbn in Ho. subst r.
    specialize (IH s1 (λ k', if decide (k' = k) then v else m k')).
    destruct (run_store ops s1) as [rs s2]. cbn in *. f_equal. apply IH. intros k'.
    pose proof (get_put k v s k') as Hg. rewrite Hp in Hg. cbn in Hg. rewrite Hg. by case_decide.
  - specialize (IH s m Hm). destruct (run_store ops s) as [rs s2]. cbn in *. by rewrite Hm, IH.
Qed.
End client.

(** The in-memory store and the RocksDB store answer every sequence of puts and
    gets like a map that is empty at first, and so like each other. *)
Theorem state_stores_refine_map ops dir :
  (run_store ops NewInMemoryStateStore).1 = run_spec ops (λ _, []) ∧
  (run_store ops (MkRocks dir ∅)).1 = run_spec ops (λ _, []).
Proof.
  split; apply run_store_spec; intros k; [reflexivity|]. cbn. unfold Rocks_Get. cbn. by rewrite lookup_empty.
Qed.

(** Nothing is kept in the directory: a store that is closed and opened again is
    empty. *)
Theorem rocksdb_forgets `{Env} dir w s w' ops :
  NewRocksDBStateStore (Some dir) w = (Ok s, w') →
  ∀ s2 w2, NewRocksDBStateStore (Some dir) w' = (Ok s2, w2) →
  ss_Close (run_store ops s).2 = Ok tt ∧ s2 = MkRocks dir ∅.
Proof.
  intros _ s2 w2. unfold NewRocksDBStateStore. destruct (MkdirAll dir w') as [[[]|e] w3]; [|done].
  intros [= <- _]. done.
Qed.

(** ** The checkpoint scheduler *)

Section scheduler.
Context {E : Env}.

(** The stop channel, the tick that waits in the ticker's channel, and the loop. *)
Record scheduler := MkSched { sc_closed : bool; sc_pending : bool; sc_running : bool }.

(** [time.NewTicker] panics on an interval that is not positive ([None]); without a
    store or a snapshot function [Run] returns at once. *)
Definition sched_Run (Interval : Z) (configured : bool) : option scheduler :=
  if negb configured then Some (MkSched false false false)
  else if Interval <=? 0 then None else Some (MkSched false false true).

(** The two halves of [Stop]; closing a closed channel panics. *)
Definition StopCheck (s : scheduler) : bool := sc_closed s.
Definition StopClose (s : scheduler) : option scheduler :=
  if sc_closed s then None else Some (MkSched true (sc_pending s) (sc_running s)).
Definition sched_Stop (s : scheduler) : option scheduler :=
  if StopCheck s then Some s else StopClose s.

(** The steps: the timer, the two cases of the [select], and [Stop]; [snap] is what
    [makeSnapshot] returns, the error of [SaveSnapshot] is ignored. *)
Inductive sched_step (off : option Offloader) (dir : path) : scheduler * world → scheduler * world → Prop :=
  | sched_tick s w : sched_step off dir (s, w) (MkSched (sc_closed s) true (sc_running s), w)
  | sched_save s w snap :
      sc_running s = true → sc_pending s = true →
      sched_step off dir (s, w) (MkSched (sc_closed s) false true, (SaveSnapshot off dir snap w).2)
  | sched_return s w :
      sc_running s = true → sc_closed s = true →
      sched_step off dir (s, w) (MkSched true (sc_pending s) false, w)
  | sched_stop s s' w : sched_Stop s = Some s' → sched_step off dir (s, w) (s', w).

(** Once the loop has returned no snapshot is written. *)
Lemma sched_returned off dir sw sw' :
  rtc (sched_step off dir) sw sw' → sc_running sw.1 = false → sw'.2 = sw.2 ∧ sc_running sw'.1 = false.
Proof.
  induction 1 as [|sw1 sw2 sw3 Hs _ IH]; [done|]. intros Hr.
  destruct Hs as [s w|s w snap H1 H2|s w H1 H2|s s' w H1]; cbn in *; try congruence; [by apply IH|].
  assert (sc_running s' = false) as Hr'; [|by apply IH].
  unfold sched_Stop, StopClose, StopCheck in H1. destruct (sc_closed s); by simplify_eq.
Qed.
(** Stopping twice, one after the other, is the same as once. *)
Lemma stop_idempotent s s' : sched_Stop s = Some s' → sched_Stop s' = Some s'.
Proof.
  unfold sched_Stop, StopClose, StopCheck. destruct (sc_closed s) eqn:Hc; intros [= <-]; [by rewrite Hc|done].
Qed.
(** Two stops that both look before either closes panic. *)
Lemma stop_race s s' : StopCheck s = false → StopClose s = Some s' → StopClose s' = None.
Proof. unfold StopCheck, StopClose. intros ->. by intros [= <-]. Qed.
End scheduler.

(** ** Storage without storage ([storage.go]) *)

(** [memStorage]: nothing is kept, no call fails. *)
Definition mem_SaveSnapshot (r : list byte) : res string := Ok EmptyString.
Definition mem_LoadSnapshot : res (option (list byte)) := Ok None.
Definition mem_AppendWAL (entries : list byte) : res unit := Ok tt.
Definition mem_ReadWAL (fromIndex : Z) : res (list byte) := Ok [].
Definition mem_Compact (index : Z) : res unit := Ok tt.

(** ** The window manager, the region gateway, deltas *)

Record WindowManager := MkWindows { running : bool }.
Definition wm_New : WindowManager := MkWindows false.
Definition wm_Start (w : WindowManager) : WindowManager := MkWindows true.
Definition wm_Stop (w : WindowManager) : WindowManager := MkWindows false.
Definition wm_Running (w : WindowManager) : bool := running w.

(** A payload is logged and dropped. *)
Definition Forward (addr remote : string) (payload : list byte) : res unit := Ok tt.
(** The reader of the "delta" yields what its source yields, and its error. *)
Definition CreateDelta (r : res (list byte)) : res (list byte) := r.
