(* ===== verification/Certs.v ===== *)
(** * Certificates of the cluster
    ([src/broker/internal/raft/cert_utils.go], [mtls.go])

    A certificate authority and the node certificates it issues.  Keys, signatures
    and encodings are those of the crypto packages, parameters here. *)

From S2P Require Import Prelude Encoding.

(** The template of a certificate; times are in nanoseconds. *)
Record template := MkTemplate {
  t_serial : Z;
  t_cn : string;
  t_notBefore : Z;
  t_notAfter : Z;
  t_isCA : bool;
  t_ips : list string }.

(** [crypto/rsa], [crypto/x509], [encoding/pem], [net.ParseIP]. *)
Class Crypto := {
  key : Type;
  certificate : Type;
  GenerateKey : nat → res key;
  CreateCertificate : template → option certificate → key → key → res (list byte);
  ParseCertificate : list byte → res certificate;
  MarshalKey : key → list byte;
  pem_Encode : string → list byte → list byte;
  pem_Decode : list byte → option (list byte);
  ParseIP : string → option string }.

(** What the code relies on: an encoded block decodes to its bytes, no bytes are no
    certificate, and what was created parses. *)
Class CryptoLaws `{Crypto} : Prop := {
  pem_roundtrip typ b : pem_Decode (pem_Encode typ b) = Some b;
  parse_empty : ∃ e, ParseCertificate [] = Err e;
  parse_created t ca k k' der : CreateCertificate t ca k k' = Ok der → ∃ c, ParseCertificate der = Ok c }.

Section certs.
Context `{Crypto}.

Definition hour : Z := 3600 * 1000000000.

(** The template of the authority, signed by itself; [now] is the time. *)
Definition ca_template (now : Z) : template :=
  MkTemplate 1 "test-ca" (now - hour) (now + 24 * hour) true [].
Definition generateCA (now : Z) (entropy : nat) : res (list byte * key) :=
  match GenerateKey entropy with
  | Err e => Err e
  | Ok k => match CreateCertificate (ca_template now) None k k with
            | Err e => Err e
            | Ok der => Ok (pem_Encode "CERTIFICATE" der, k)
            end
  end.

Definition caCertPEMToDER (b : list byte) : list byte := default [] (pem_Decode b).

Definition node_template (now : Z) (host : string) : template :=
  MkTemplate (wrap64 now) host (now - hour) (now + 24 * hour) false
    (match ParseIP host with Some ip => [ip] | None => [] end).

(** The authority's certificate, parsed twice; [None] is the panic on a nil block. *)
Definition parse_ca (caCertPEM : list byte) : option (res certificate) :=
  match ParseCertificate (caCertPEMToDER caCertPEM) with
  | Ok ca => Some (Ok ca)
  | Err _ => match pem_Decode caCertPEM with
             | None => None
             | Some block => Some (ParseCertificate block)
             end
  end.

Definition generateCertForHost (caCertPEM : list byte) (caKey : key) (host : string) (now : Z)
    (entropy : nat) : option (res (list byte * list byte)) :=
  match parse_ca caCertPEM with
  | None => None
  | Some (Err e) => Some (Err e)
  | Some (Ok ca) =>
      Some (match GenerateKey entropy with
            | Err e => Err e
            | Ok k => match CreateCertificate (node_template now host) (Some ca) k caKey with
                      | Err e => Err e
                      | Ok der => Ok (pem_Encode "CERTIFICATE" der,
                                      pem_Encode "RSA PRIVATE KEY" (MarshalKey k))
                      end
            end)
  end.

(** ** The exported functions *)

Definition RotateCA := generateCA.
Definition IssueNodeCert := generateCertForHost.
Definition EncodePrivateKeyPEM (k : key) : list byte := pem_Encode "RSA PRIVATE KEY" (MarshalKey k).
Definition DecodeCertPEM (b : list byte) : res (list byte) :=
  match pem_Decode b with
  | None => Err (ErrMsg "x509: certificate has expired or is not yet valid")
  | Some block => Ok block
  end.

Context {L : CryptoLaws}.

(** A node certificate can be issued under a fresh authority unless the library
    refuses, and what is returned holds the certificate of the host's template,
    signed with the authority's key, and its private key. *)
Theorem issue_under_fresh_ca now0 e0 caPEM caKey host now entropy :
  RotateCA now0 e0 = Ok (caPEM, caKey) →
  ∃ ca, IssueNodeCert caPEM caKey host now entropy
    = Some (match GenerateKey entropy with
            | Err e => Err e
            | Ok k => match CreateCertificate (node_template now host) (Some ca) k caKey with
                      | Err e => Err e
                      | Ok der => Ok (pem_Encode "CERTIFICATE" der, EncodePrivateKeyPEM k)
                      end
            end).
Proof.
  unfold RotateCA, generateCA. destruct (GenerateKey e0) as [k|e]; [|done].
  destruct (CreateCertificate _ None k k) as [der|e] eqn:Hc; [|done]. intros [= <- <-].
  destruct (parse_created _ _ _ _ _ Hc) as [ca Hca]. exists ca.
  unfold IssueNodeCert, generateCertForHost, parse_ca, caCertPEMToDER.
  rewrite pem_roundtrip. cbn [from_option id]. rewrite Hca. reflexivity.
Qed.

(** A CA that is not PEM panics instead of being refused. *)
Theorem issue_bad_ca_panics caPEM caKey host now entropy :
  pem_Decode caPEM = None → IssueNodeCert caPEM caKey host now entropy = None.
Proof.
  intros Hp. unfold IssueNodeCert, generateCertForHost, parse_ca, caCertPEMToDER.
  rewrite Hp. cbn [default]. by destruct parse_empty as [e ->].
Qed.
End certs.
