(* ===== verification/Bench.v ===== *)
(** * The load benchmarks ([src/bench/loadbench.go], [scale_bench.go])

    One producer, or several goroutines that share a broker: its mutex makes every
    [Produce] one step, and the scheduler picks whose step is next. *)

From S2P Require Import Prelude Encoding OS Segment Samples SegmentFacts ConsumerGroup Broker.
From S2P Require Import BrokerFacts BrokerRun BrokerProps.

(** ** The programs *)

Definition bench_topic : string := "bench".
Definition bench_payload : list byte := String.list_byte_of_string "payload".

(** [fmt.Sprintf("k%d", i)] and [fmt.Sprintf("k-%d-%d", id, j)] *)
Definition load_key (i : Z) : list byte := String.list_byte_of_string "k" ++ sprintf_d i.
Definition scale_key (id j : nat) : list byte :=
  String.list_byte_of_string "k-" ++ sprintf_d (Z.of_nat id) ++ String.list_byte_of_string "-" ++ sprintf_d (Z.of_nat j).

(** How a benchmark ends: with a panic, with the number it prints as published, or
    not yet, some goroutines having more to do. *)
Inductive bench_end := BPanic | BWaiting | BDone (printed : Z) (b : Broker) (w : world).

Section bench.
Context {E : Env} {C : RecordCodec}.

(** [NewBroker], and [CreateTopic] with its results ignored. *)
Definition bench_start (dir : path) (w : world) : option (Broker * world) :=
  match NewBroker dir w with
  | (Err _, _) => None
  | (Ok b, w) => let '(_, b, w) := CreateTopic bench_topic b w in Some (b, w)
  end.

Definition bench_produce (key : list byte) (b : Broker) (w : world) : option (Broker * world) :=
  match Produce bench_topic key bench_payload ∅ b w with
  | (Err _, _, _) => None
  | (Ok _, b, w) => Some (b, w)
  end.

(** The loop from [i] with [k] turns left. *)
Fixpoint loadLoop (k : nat) (i : Z) (b : Broker) (w : world) : option (Broker * world) :=
  match k with
  | O => Some (b, w)
  | S k => '(b, w) ← bench_produce (load_key i) b w; loadLoop k (i + 1) b w
  end.
Definition RunLoadBench (dir : path) (n : Z) (w : world) : bench_end :=
  match bench_start dir w with
  | None => BPanic
  | Some (b, w) =>
      match loadLoop (Z.to_nat n) 0 b w with None => BPanic | Some (b, w) => BDone n b w end
  end.

(** The goroutines, each at its [j]; [sched] says whose turn is next.  A panic in
    one ends the program. *)
Fixpoint scaleRun (per : nat) (sched : list nat) (js : list nat) (b : Broker) (w : world)
    : option (list nat * Broker * world) :=
  match sched with
  | [] => Some (js, b, w)
  | id :: sched =>
      match js !! id with
      | None => scaleRun per sched js b w
      | Some j =>
          if decide (j < per)%nat
          then '(b, w) ← bench_produce (scale_key id j) b w; scaleRun per sched (<[id := S j]> js) b w
          else scaleRun per sched js b w
      end
  end.

(** [wg.Add] panics on a negative count and the division on zero. *)
Definition RunScaleBench (dir : path) (n c : Z) (sched : list nat) (w : world) : bench_end :=
  match bench_start dir w with
  | None => BPanic
  | Some (b, w) =>
      if c <=? 0 then BPanic
      else
        let per := Z.to_nat (Z.quot n c) in
        match scaleRun per sched (replicate (Z.to_nat c) 0%nat) b w with
        | None => BPanic
        | Some (js, b, w) =>
            if bool_decide (Forall (λ j, per ≤ j)%nat js) then BDone n b w else BWaiting
        end
  end.

(** ** What is published *)

(** Several records one after the other. *)
Fixpoint publish (keys : list (list byte)) (b : Broker) (w : world) : option (Broker * world) :=
  match keys with
  | [] => Some (b, w)
  | key :: keys => '(b, w) ← bench_produce key b w; publish keys b w
  end.

Lemma loadLoop_publish k : ∀ i b w,
  loadLoop k i b w = publish ((λ d, load_key (i + Z.of_nat d)) <$> seq 0 k) b w.
Proof.
  induction k as [|k IH]; intros i b w; [done|]. cbn [loadLoop seq fmap list_fmap publish].
  replace (i + Z.of_nat 0) with i by lia. destruct (bench_produce _ b w) as [[b1 w1]|]; [|done].
  cbn [mbind option_bind]. rewrite IH. f_equal. rewrite <- fmap_S_seq, <- list_fmap_compose.
  apply list_fmap_ext. intros x d _. unfold compose. f_equal. lia.
Qed.

(** The turns that produce, in the order of the schedule, and the goroutines after. *)
Fixpoint turns (per : nat) (sched : list nat) (js : list nat) : list (nat * nat) * list nat :=
  match sched with
  | [] => ([], js)
  | id :: sched =>
      match js !! id with
      | None => turns per sched js
      | Some j =>
          if decide (j < per)%nat
          then let '(ts, js) := turns per sched (<[id := S j]> js) in ((id, j) :: ts, js)
          else turns per sched js
      end
  end.

Lemma scaleRun_publish per sched : ∀ js b w,
  scaleRun per sched js b w
  = '(b', w') ← publish ((λ t, scale_key t.1 t.2) <$> (turns per sched js).1) b w;
    Some ((turns per sched js).2, b', w').
Proof.
  induction sched as [|id sched IH]; intros js b w; cbn [scaleRun turns]; [done|].
  destruct (js !! id) as [j|]; [|apply IH]. case_decide; [|apply IH].
  destruct (turns per sched (<[id:=S j]> js)) as [ts js'] eqn:Ht.
  cbn [fst snd fmap list_fmap publish]. destruct (bench_produce _ b w) as [[b1 w1]|]; [|done].
  cbn [mbind option_bind]. rewrite IH, Ht. done.
Qed.

(** Every goroutine's turns are its numbers in order, up to where it is. *)
Lemma turns_of per sched : ∀ js id j,
  js !! id = Some j → (j ≤ per)%nat →
  ∃ j', (turns per sched js).2 !! id = Some j' ∧ (j ≤ j' ≤ per)%nat ∧
    filter (λ t, t.1 = id) (turns per sched js).1 = (λ d, (id, d)) <$> seq j (j' - j) ∧
    (per ≤ j + length (filter (eq id) sched) → j' = per)%nat.
Proof.
  induction sched as [|x sched IH]; intros js id j Hj Hle; cbn [turns].
  { exists j. rewrite Nat.sub_diag. split_and!; [done|lia|lia|done|]. cbn. lia. }
  destruct (js !! x) as [jx|] eqn:Hx.
  2: { destruct (IH js id j Hj Hle) as (j' & H1 & H2 & H3 & H4). exists j'. split_and!; try done; try lia.
       rewrite filter_cons_False by congruence. done. }
  destruct (decide (jx < per)%nat) as [Hlt|Hge].
  - destruct (decide (x = id)) as [->|Hne].
    + assert (jx = j) as -> by congruence. destruct (IH (<[id:=S j]> js) id (S j)) as (j' & H1 & H2 & H3 & H4).
      { by rewrite list_lookup_insert_eq by by eapply lookup_lt_Some. }
      { lia. }
      destruct (turns per sched (<[id:=S j]> js)) as [ts js']. cbn [fst snd] in *. exists j'.
      split_and!; [done|lia|lia| |].
      * rewrite filter_cons_True by done. rewrite H3. replace (j' - j)%nat with (S (j' - S j)) by lia. done.
      * rewrite filter_cons_True by done. cbn [length]. intros. apply H4. lia.
    + destruct (IH (<[x:=S jx]> js) id j) as (j' & H1 & H2 & H3 & H4); [by rewrite list_lookup_insert_ne|done|].
      destruct (turns per sched (<[x:=S jx]> js)) as [ts js']. cbn [fst snd] in *. exists j'.
      split_and!; [done|lia|lia| |]; rewrite filter_cons_False by (cbn; congruence); done.
  - destruct (IH js id j Hj Hle) as (j' & H1 & H2 & H3 & H4). exists j'. split_and!; [done|lia|lia|done|].
    rewrite filter_cons. case_decide as He; [|done]. subst x. intros _. assert (jx = j) by congruence. lia.
Qed.

(** A record takes at most the largest frame. *)
Lemma Append_position s record w o s' w' :
  Append s record w = (Ok o, s', w') → 0 <= position s → room s →
  position s' <= position s + (4 + maxPayload).
Proof.
  unfold Append. intros HA Hp [Hr _]. destruct (json_marshal record) as [payload|]; [|done].
  destruct (maxPayload <? zlen payload) eqn:HL; [done|]. bool_prop. pose proof (zlen_nonneg payload).
  destruct (WriteAt _ _ (position s) w) as [[[]|] w1]; [|done].
  destruct (WriteAt _ payload _ w1) as [[[]|] w2]; [|done].
  destruct (persistIndexes _ w2) as [[[]|] w3]; [|done]. injection HA as _ <- _.
  cbn [position set_nextOffset set_position set_timeOffsets set_offsets].
  rewrite wrap64_id by (unfold int64, maxPayload in *; lia). lia.
Qed.

Lemma Produce_position name key value headers b w t seg rec b' w' :
  Produce name key value headers b w = (Ok rec, b', w') →
  topics b !! name = Some t → Segments t = [seg] → 0 <= position seg → room seg →
  drainingTill b' = drainingTill b ∧
  ∃ t' seg', topics b' !! name = Some t' ∧ Segments t' = [seg'] ∧ position seg' <= position seg + (4 + maxPayload).
Proof.
  unfold Produce. intros HP Ht Hs Hpos Hroom. destruct (isDrainingLocked b w) as [[] w1]; [done|].
  rewrite Ht in HP. unfold time_now in HP. rewrite Hs in HP. cbn [last] in HP.
  destruct (Append seg _ _) as [[r seg'] w2] eqn:HA. destruct r as [off|]; [|done].
  apply (inj2 pair) in HP as [HP _]. apply (inj2 pair) in HP as [_ <-]. split; [done|].
  eexists _, seg'. cbn [topics set_topics]. rewrite lookup_insert_eq. split; [done|]. split; [done|].
  by eapply Append_position.
Qed.

(** There is room for [m] more records of any size, and nothing is draining. *)
Record bench_ready (m : nat) (logs : gmap string (list LogRecord)) (recs : list LogRecord)
    (b : Broker) (w : world) : Prop := {
  br_rep : broker_rep logs b w;
  br_log : logs !! bench_topic = Some recs;
  br_drain : drainingTill b = None;
  br_room t seg : topics b !! bench_topic = Some t → Segments t = [seg] →
    position seg + Z.of_nat m * (4 + maxPayload) < 2 ^ 63 ∧ zlen recs + Z.of_nat m < 2 ^ 63 }.

Context {L : RecordCodecLaws} {HRel : Reliable E}.

Lemma bench_produce_ok m logs recs key b w :
  bench_ready (S m) logs recs b w → carriable key bench_payload ∅ →
  ∃ rec b' w', bench_produce key b w = Some (b', w') ∧ Key rec = key ∧ Value rec = bench_payload ∧
    bench_ready m (<[bench_topic := recs ++ [rec]]> logs) (recs ++ [rec]) b' w'.
Proof.
  intros [HB Hl Hd Hroom] Hc.
  destruct (proj1 (rep_names _ _ _ HB bench_topic)) as [t Ht]; [by eexists|].
  destruct (rep_topics _ _ _ HB _ _ _ Hl Ht) as [_ _ (seg & Hseg & HR & _)].
  destruct (Hroom t seg Ht Hseg) as [Hr1 Hr2].
  assert (room seg) as Hrs.
  { split; [unfold maxPayload in *; lia|]. rewrite (rep_next _ _ _ _ HR). lia. }
  assert (topic_room t) as Htr by (intros s0; rewrite Hseg; by intros [= <-]).
  destruct (Produce_reliable logs bench_topic key bench_payload ∅ b w t HB Ht Htr Hc) as (rec & b' & w' & HP).
  { unfold isDrainingLocked. by rewrite Hd. }
  assert (∀ t0, topics b !! bench_topic = Some t0 → topic_room t0) as Hroom'.
  { intros t0. rewrite Ht. by intros [= <-]. }
  destruct (Produce_outcome _ _ _ _ _ _ _ _ _ _ HB Hroom' (proj1 Hc) HP)
    as (recs0 & t0 & Hl0 & Ht0 & _ & Hk & Hv & _ & HB' & _).
  rewrite Hl in Hl0. apply (inj Some) in Hl0 as <-. rewrite Ht in Ht0. apply (inj Some) in Ht0 as <-.
  destruct (Produce_position _ _ _ _ _ _ t seg _ _ _ HP Ht Hseg) as (Hd' & t' & seg' & Ht' & Hs' & Hpos);
    [apply HR|done|].
  exists (with_offset (NextOffset t) rec), b', w'. unfold bench_produce. rewrite HP. split_and!; [done..|].
  split; [done|apply lookup_insert_eq|congruence|].
  intros t1 seg1. rewrite Ht'. intros [= <-]. rewrite Hs'. intros [= <-].
  rewrite zlen_app. unfold zlen at 2. cbn [length]. lia.
Qed.

Lemma publish_ok keys : ∀ logs recs b w,
  bench_ready (length keys) logs recs b w → Forall (λ k, carriable k bench_payload ∅) keys →
  ∃ new b' w', publish keys b w = Some (b', w') ∧ Key <$> new = keys ∧
    Forall (λ r, Value r = bench_payload) new ∧
    broker_rep (<[bench_topic := recs ++ new]> logs) b' w'.
Proof.
  induction keys as [|key keys IH]; intros logs recs b w HB HF; cbn [publish].
  { exists [], b, w. split_and!; try done. rewrite app_nil_r, insert_id; [apply HB|apply (br_log _ _ _ _ _ HB)]. }
  inversion HF as [|? ? Hk HF']; subst.
  destruct (bench_produce_ok _ _ _ _ _ _ HB Hk) as (rec & b1 & w1 & -> & Hkey & Hval & HB1).
  cbn [mbind option_bind]. destruct (IH _ _ _ _ HB1 HF') as (new & b' & w' & -> & Hkeys & Hvals & HB').
  exists (rec :: new), b', w'. split; [done|]. split; [cbn; by rewrite Hkey, Hkeys|]. split; [by constructor|].
  by rewrite insert_insert_eq, <- app_assoc in HB'.
Qed.

Lemma bench_ready_le m m' logs recs b w :
  (m' ≤ m)%nat → bench_ready m logs recs b w → bench_ready m' logs recs b w.
Proof.
  intros Hle [H1 H2 H3 H4]. split; [done..|]. intros t seg Ht Hs. destruct (H4 t seg Ht Hs).
  unfold maxPayload in *. nia.
Qed.

(** Every turn advances one goroutine by one. *)
Lemma sum_list_advance (l : list nat) i j : l !! i = Some j → sum_list (<[i := S j]> l) = S (sum_list l).
Proof.
  revert i. induction l as [|x l IH]; intros [|i] Hi; [done..| |].
  - injection Hi as ->. done.
  - change (x + sum_list (<[i := S j]> l) = S (x + sum_list l))%nat. rewrite (IH i Hi). lia.
Qed.
Lemma turns_count per sched : ∀ js,
  let '(ts, js') := turns per sched js in
  sum_list js' = (sum_list js + length ts)%nat ∧ length js' = length js ∧
  Forall (λ t, t.1 < length js ∧ t.2 < per)%nat ts.
Proof.
  induction sched as [|x sched IH]; intros js; cbn [turns]; [cbn; split_and!; [lia|done|constructor]|].
  destruct (js !! x) as [j|] eqn:Hx; [|apply IH]. case_decide as Hlt; [|apply IH].
  specialize (IH (<[x:=S j]> js)). destruct (turns per sched (<[x:=S j]> js)) as [ts js'].
  rewrite length_insert, (sum_list_advance _ _ _ Hx) in IH. destruct IH as (H1 & H2 & H3). cbn [length].
  split_and!; [lia|done|]. constructor; [|done]. split; [by eapply lookup_lt_Some|done].
Qed.
Lemma sum_list_bound per (js : list nat) : Forall (λ j, j ≤ per)%nat js → (sum_list js ≤ length js * per)%nat.
Proof. induction 1; cbn; lia. Qed.
Lemma sum_list_all per (js : list nat) : Forall (λ j, j = per) js → sum_list js = (length js * per)%nat.
Proof. induction 1; cbn; lia. Qed.
Lemma sum_list_zeros c : sum_list (replicate c 0%nat) = 0%nat.
Proof. by induction c. Qed.

(** Where the goroutines are after any schedule. *)
Lemma turns_end per sched c :
  let js' := (turns per sched (replicate c 0%nat)).2 in
  Forall (λ j, j ≤ per)%nat js' ∧
  ((∀ id, (id < c)%nat → per ≤ length (filter (eq id) sched))%nat → Forall (λ j, j = per) js').
Proof.
  cbv zeta. pose proof (turns_count per sched (replicate c 0%nat)) as Hc.
  pose proof (λ id, turns_of per sched (replicate c 0%nat) id 0) as Hof.
  destruct (turns per sched (replicate c 0%nat)) as [ts js']. destruct Hc as (_ & Hlen & _).
  rewrite length_replicate in Hlen. cbn [fst snd] in *.
  assert (∀ id j, js' !! id = Some j → (id < c)%nat ∧ (j ≤ per)%nat ∧
    (per ≤ length (filter (eq id) sched) → j = per)%nat) as Hall.
  { intros id j Hj. assert (id < c)%nat as Hid by (rewrite <- Hlen; by eapply lookup_lt_Some).
    destruct (Hof id) as (j' & H1 & H2 & _ & H4); [by apply lookup_replicate|lia|].
    assert (j' = j) as -> by congruence. split_and!; [done|lia|done]. }
  split; [|intros Hfair]; apply Forall_lookup; intros id j Hj; destruct (Hall id j Hj) as (H1 & H2 & H3); auto.
Qed.

(** The concurrent benchmark, under every schedule of its goroutines, never
    panics on a healthy disk.  Once each of the [c] goroutines has had its turns,
    the topic has grown by [c] times the quotient of [n] by [c] records, and each
    goroutine's keys are among them in its order, for whatever interleaving; the
    number printed is [n].  Before, the program is still waiting. *)
Theorem scale_bench_exact dir n c sched w0 b w logs recs :
  let per := Z.to_nat (Z.quot n c) in
  0 < c → bench_start dir w0 = Some (b, w) → bench_ready (Z.to_nat c * per) logs recs b w →
  (∀ id j, (id < Z.to_nat c)%nat → (j < per)%nat → carriable (scale_key id j) bench_payload ∅) →
  RunScaleBench dir n c sched w0 ≠ BPanic ∧
  ((∀ id, (id < Z.to_nat c)%nat → per ≤ length (filter (eq id) sched))%nat →
   ∃ ts new b' w', RunScaleBench dir n c sched w0 = BDone n b' w' ∧
     broker_rep (<[bench_topic := recs ++ new]> logs) b' w' ∧
     Key <$> new = (λ t, scale_key t.1 t.2) <$> ts ∧ length new = (Z.to_nat c * per)%nat ∧
     ∀ id, (id < Z.to_nat c)%nat → filter (λ t, t.1 = id) ts = (λ j, (id, j)) <$> seq 0 per).
Proof.
  intros per Hc Hstart HB Hkeys. unfold RunScaleBench. rewrite Hstart.
  replace (c <=? 0) with false by lia. fold per. rewrite scaleRun_publish.
  pose proof (turns_count per sched (replicate (Z.to_nat c) 0%nat)) as Hcount.
  pose proof (turns_end per sched (Z.to_nat c)) as [Hle Hfull].
  pose proof (λ id, turns_of per sched (replicate (Z.to_nat c) 0%nat) id 0) as Hof.
  destruct (turns per sched _) as [ts js']. cbn [fst snd] in *. destruct Hcount as (Hsum & Hlen & Hts).
  rewrite length_replicate in *. rewrite sum_list_zeros in Hsum.
  destruct (publish_ok ((λ t, scale_key t.1 t.2) <$> ts) logs recs b w) as (new & b' & w' & -> & Hnew & _ & HB').
  { eapply bench_ready_le; [|exact HB]. rewrite length_fmap. apply sum_list_bound in Hle. lia. }
  { apply Forall_fmap. eapply Forall_impl; [exact Hts|]. intros [id j] [? ?]. by apply Hkeys. }
  cbn [mbind option_bind]. split; [by case_bool_decide|]. intros Hfair. specialize (Hfull Hfair).
  rewrite bool_decide_eq_true_2 by (eapply Forall_impl; [exact Hfull|]; cbn; lia).
  exists ts, new, b', w'. split_and!; [done..| |].
  - apply (f_equal length) in Hnew. rewrite !length_fmap in Hnew.
    rewrite (sum_list_all _ _ Hfull) in Hsum. lia.
  - intros id Hid. destruct (Hof id) as (j' & H1 & H2 & H3 & H4); [by apply lookup_replicate|lia|].
    rewrite (H4 (Hfair id Hid)), Nat.sub_0_r in H3. exact H3.
Qed.

(** The plain benchmark publishes its keys in order. *)
Theorem load_bench_exact dir n w0 b w logs recs :
  bench_start dir w0 = Some (b, w) → bench_ready (Z.to_nat n) logs recs b w →
  (∀ i, 0 <= i < n → carriable (load_key i) bench_payload ∅) →
  ∃ new b' w', RunLoadBench dir n w0 = BDone n b' w' ∧
    broker_rep (<[bench_topic := recs ++ new]> logs) b' w' ∧
    Key <$> new = (λ d, load_key (Z.of_nat d)) <$> seq 0 (Z.to_nat n).
Proof.
  intros Hstart HB Hkeys. unfold RunLoadBench. rewrite Hstart, loadLoop_publish.
  destruct (publish_ok ((λ d, load_key (0 + Z.of_nat d)) <$> seq 0 (Z.to_nat n)) logs recs b w)
    as (new & b' & w' & -> & Hnew & _ & HB').
  - by rewrite length_fmap, length_seq.
  - apply Forall_fmap, Forall_seq. intros d Hd. apply Hkeys. lia.
  - by exists new, b', w'.
Qed.
End bench.

(** ** Three messages over two goroutines *)

Definition bench_created : res Topic * Broker * world := CreateTopic (E := env0) bench_topic broker0 wb0.

Lemma bench_started : bench_start (E := env0) dir0 world0 = Some (bench_created.1.2, bench_created.2).
Proof. unfold bench_start. rewrite broker0_ok. unfold bench_created. by destruct (CreateTopic _ _ _) as [[r b] w]. Qed.

Lemma bench_is_ready :
  bench_ready (C := codec0) 2 {[bench_topic := []]} [] bench_created.1.2 bench_created.2.
Proof.
  destruct bench_created as [[r b] w] eqn:HC.
  pose proof (CreateTopic_outcome (E := env0) (C := codec0) ∅ broker0 bench_topic wb0 _ _ _
    (inv_rep _ _ _ broker0_inv) eq_refl
    (λ _, inv_free _ _ _ broker0_inv bench_topic eq_refl eq_refl) HC) as Hout.
  assert (is_ok bench_created.1.1 = true) as Hok by (vm_compute; reflexivity).
  assert (drainingTill bench_created.1.2 = None) as Hd by (vm_compute; reflexivity).
  assert (from_option (λ t, position <$> head (Segments t)) None (topics bench_created.1.2 !! bench_topic) = Some 0)
    as Hp by (vm_compute; reflexivity).
  rewrite HC in *. cbn [fst snd] in *. destruct r as [t|]; [|done]. destruct Hout as (Ht & HB & _).
  rewrite lookup_empty in HB. split; [exact HB|done|exact Hd|].
  intros t' seg Ht' Hs. rewrite Ht' in Hp. cbn in Hp. rewrite Hs in Hp. cbn in Hp. apply (inj Some) in Hp.
  rewrite Hp. by split.
Qed.

Lemma scale_keys_carriable id j :
  (id < 2)%nat → (j < 1)%nat → carriable (E := env0) (C := codec0) (scale_key id j) bench_payload ∅.
Proof.
  intros Hid Hj. assert (∀ n, int64 (clock0 n)) as Hc by (intros n; unfold int64, clock0; lia).
  assert (zlen (scale_key id j) = 5) as Hk by (destruct id as [|[|]]; destruct j; try lia; vm_compute; reflexivity).
  split.
  - intros n off Hoff. cbn [json_storable codec0 Timestamp Offset Key env_clock env0].
    split_and!; [apply Hc|done|]. rewrite Hk. done.
  - intros n off Hoff. eexists. split; [reflexivity|]. cbn [Timestamp Offset Key Value].
    unfold zlen in *. rewrite !length_app, !int64ToBytes_length, putUint32_length.
    assert (length bench_payload = 7%nat) as -> by reflexivity. unfold maxPayload. lia.
Qed.

(** Three messages are announced and two are published. *)
Lemma scale_bench_exact_witness :
  ∃ ts new b' w', RunScaleBench (E := env0) (C := codec0) dir0 3 2 [1; 0]%nat world0 = BDone 3 b' w' ∧
    broker_rep (C := codec0) {[bench_topic := new]} b' w' ∧
    Key <$> new = (λ t, scale_key t.1 t.2) <$> ts ∧ length new = 2%nat.
Proof.
  destruct (scale_bench_exact (E := env0) (C := codec0) dir0 3 2 [1; 0]%nat world0 bench_created.1.2 bench_created.2
    {[bench_topic := []]} [] ltac:(lia) bench_started bench_is_ready scale_keys_carriable)
    as (_ & Hdone).
  destruct Hdone as (ts & new & b' & w' & H1 & H2 & H3 & H4 & _).
  { intros [|[|id]] Hid; [by vm_compute..|cbn in Hid; lia]. }
  exists ts, new, b', w'. rewrite insert_singleton_eq in H2. split; [exact H1|]. split; [exact H2|]. by split.
Defined.
