(* ===== verification/Commands.v ===== *)
(** * The commands ([src/apps/], the copies under [src/cmd/] and in the packages)

    What a command does between its start and the libraries' accept loops: the
    health pages, the management server's start, and the processor server with
    its listener. *)

From Stdlib Require Import SpecFloat.
From S2P Require Import Prelude Encoding OS Segment Samples SegmentFacts ConsumerGroup Broker.
From S2P Require Import BrokerFacts BrokerRun BrokerProps Processor Http BrokerServer Management Planner.

(** [os.Getenv]; unset is empty. *)
Definition environ : Type := string → string.

(** [":" + p] when PORT is set. *)
Definition addr_from (getenv : environ) (addr : string) : string :=
  let p := getenv "PORT"%string in
  if bool_decide (p = EmptyString) then addr else ":" +:+ p.

(** ** Health pages *)

(** Commands that only answer [/health]. *)
Inductive health_app := SchemaRegistryApp | ConnectorApp | ProcessorApp | StreamQLApp.
Definition health_addr (a : health_app) (getenv : environ) : string :=
  addr_from getenv match a with
                   | SchemaRegistryApp => ":8081"
                   | ConnectorApp => ":50072"
                   | ProcessorApp => ":50070"
                   | StreamQLApp => ":50071"
                   end.
(** The default mux, whatever the method. *)
Definition health_serve (r : Request) : Response :=
  if bool_decide (URLPath r = "/health"%string) then MkResponse StatusOK ∅ (BText "ok")
  else unmatched r.

(** ** The management server *)

Section management.
Context {E : Env} {C : RecordCodec} {TF : TimeFormat}.

(** [Server]: the broker with the metrics of the package, and the key. *)
Record Server := MkServer { srv_state : api_state; srv_apiKey : string }.
Definition NewServerWithAPIKey (b : Broker) (apiKey : string) (m : Metrics) (w : world) : Server :=
  MkServer (MkApi b m w) apiKey.
Definition NewServer (b : Broker) (m : Metrics) (w : world) : Server :=
  NewServerWithAPIKey b EmptyString m w.

(** [main] up to [ListenAndServe]: the address and the server; [None] is
    [log.Fatalf]. *)
Definition management_main (getenv : environ) (tempDir : path) (w : world) : option (string * Server) :=
  let addr := addr_from getenv ":8094" in
  let workDir := OS.Join tempDir "streamflow-management" in
  match NewBroker workDir w with
  | (Err _, _) => None
  | (Ok b, w) =>
      let apiKey := getenv "STREAMFLOW_MANAGEMENT_API_KEY"%string in
      Some (addr, NewServerWithAPIKey b apiKey no_metrics w)
  end.

Variable metrics_page : Request → Metrics → Response.
Definition srv_handle (s : Server) (r : Request) : Response * api_state :=
  Handler metrics_page (srv_apiKey s) r (srv_state s).

Definition authorised (s : Server) (r : Request) : Prop :=
  TrimSpace (srv_apiKey s) = EmptyString ∨ ReqHeader r !! "X-Api-Key"%string = Some (srv_apiKey s).

Lemma Handler_passes s r h :
  authorised s r → route metrics_page r = Some h →
  srv_handle s r = (let '(resp, st) := h r (srv_state s) in
                    (resp, count_request (Method r) (URLPath r) (Status resp) st)).
Proof.
  intros Ha Hr. unfold srv_handle, Handler, withMetrics, withAuth.
  assert (∀ st, mux metrics_page r st = h r st) as Hm by (intros st; unfold mux; by rewrite Hr).
  case_bool_decide as H1; [by rewrite Hm|]. case_bool_decide; [by rewrite Hm|].
  rewrite bool_decide_eq_false_2; [by rewrite Hm|]. intros Hn. destruct Ha as [?|Hk]; [done|].
  apply Hn. by rewrite Hk.
Qed.

(** A management server that starts knows no topics, whatever its directory
    holds from before: it lists none, and a topic whose records are on the disk
    is not found until someone creates it again. *)
Theorem management_forgets_topics getenv tempDir w addr s r topic offset max :
  management_main getenv tempDir w = Some (addr, s) → authorised s r → Method r = "GET"%string →
  (URLPath r = "/topics"%string →
     (srv_handle s r).1 = writeJSON StatusOK (Some (JObj [("topics"%string, JArr [])]))) ∧
  (URLPath r = "/consume"%string → consume_params r = inr (topic, offset, max) →
     (srv_handle s r).1 = fail_err StatusNotFound (ErrTopicNotFound topic)).
Proof.
  intros Hm Ha HG.
  assert (topics (s_broker (srv_state s)) = ∅) as Ht.
  { revert Hm. unfold management_main, NewBroker. destruct (MkdirAll _ w) as [[[]|] w1]; [|done].
    intros Hm. apply (inj Some) in Hm. apply (inj2 pair) in Hm as [_ <-]. done. }
  split.
  - intros Hp. rewrite (Handler_passes s r handleTopics Ha) by (unfold route; by rewrite Hp).
    unfold handleTopics. rewrite bool_decide_eq_true_2 by done. cbn [fst]. unfold json_topics, ListTopics.
    by rewrite Ht.
  - intros Hp Hc. rewrite (Handler_passes s r handleConsume Ha) by (unfold route; by rewrite Hp).
    unfold handleConsume. rewrite (bool_decide_eq_true_2 (Method r = _)) by done. cbn [negb]. rewrite Hc.
    unfold Consume. by rewrite Ht, lookup_empty.
Qed.
End management.

(** ** The processor server *)

(** The server that [StartProcessorServer] returns: its accept goroutine runs until
    the listener is closed.  [listen] is whether [net.Listen] succeeds. *)
Record tcpProcessorServer := MkProcServer { ps_handled : list nat; ps_serving : bool }.
Definition StartProcessorServer (listen : bool) : res tcpProcessorServer :=
  if listen then Ok (MkProcServer [] true) else Err (ErrMsg "listen").
(** What [Accept] returns in the meantime. *)
Definition ps_accept (evs : list accepted) (s : tcpProcessorServer) : tcpProcessorServer :=
  if ps_serving s then let '(cs, stop) := serve evs in MkProcServer (ps_handled s ++ cs) (negb stop) else s.
(** [Stop]: after the close the next [Accept] reports it; the wait returns when the
    goroutine has. *)
Definition ps_Stop (s : tcpProcessorServer) : option tcpProcessorServer :=
  let s := ps_accept [AClosed] s in if ps_serving s then None else Some s.

(** [Stop] returns after any accepts and accept errors, and leaves the handlers of
    the connections accepted before running. *)
Theorem processor_stop_returns evs s :
  AClosed ∉ evs → StartProcessorServer true = Ok s →
  ps_Stop (ps_accept evs s)
  = Some (MkProcServer (omap (λ e, match e with AConn c => Some c | _ => None end) evs) false).
Proof.
  intros Hn [= <-].
  assert (serve evs = (omap (λ e, match e with AConn c => Some c | _ => None end) evs, false)) as Hs.
  { induction evs as [|e evs IH]; [done|]. rewrite not_elem_of_cons in Hn. destruct Hn as [He Hn].
    destruct e; cbn [serve omap list_omap]; [|done|by apply IH]. by rewrite (IH Hn). }
  unfold ps_accept at 1. cbn [ps_serving ps_handled]. rewrite Hs. cbn. by rewrite app_nil_r.
Qed.
